(* ===== verification/_CoqProject ===== *)
-Q . S2P
Prelude.v
Text.v
Net.v
ExitPolicy.v
Flow.v
Cell.v
Replay.v
Circuit.v
MultiPath.v
Router.v
Identity.v
Storage.v
KeyStore.v
Handshake.v
Transport.v
Guard.v
Sybil.v
Float.v
LinkCover.v
Link.v
Session.v
Streams.v
Admission.v
Consensus.v
Revocation.v
Authority.v
Node.v
Pool.v
Relay.v
ExitSession.v
Telescope.v
Network.v
Tunnel.v
Socks.v
Tracker.v
Bridge.v
Directory.v
SessionCache.v
Listener.v
Gateway.v
Startup.v
Reverse.v
Morph.v
Netns.v
Launch.v
