(* ===== verification/Prelude.v ===== *)
(** * AnonGuard: a verification library

    AnonGuard is an onion-routing client, relay and directory. A client keeps a
    pool of relays accepted from quorum-signed directory documents, selects
    circuits with persistent entry guards, agrees on keys with each hop and
    sends fixed-size cells through layers of encryption; relays peel layers and
    enforce an exit policy; directory authorities register relays and vote on a
    document per epoch. A gateway takes the requests of local applications and
    carries them over a circuit, a padded session or a chain of proxies, and a
    daemon starts all of these from a command line. This library translates that logic from the Rust
    sources under [src/src] and proves what makes it correct.

    ** How the code is translated

    Integers are [Z] with the wrap-around or saturation of their width written
    out; bytes are [Z] and buffers lists. A fallible function returns [result];
    a method that changes its receiver returns the new receiver next to its
    answer, also on its error paths. [HashMap] and [IndexMap] are finite maps
    whose iteration order is an instance of [HashOrder]. Clocks, random draws,
    outcomes of system calls and answers of peers are arguments. Third-party
    code (ciphers, signatures, key agreement, SHA-256, HKDF, the [url] crate,
    JSON, the random generator) is a class or a section variable, with what the
    code relies on in a separate class of laws or as a named hypothesis, and a
    concrete instance in the witnesses. Where several operations interleave,
    histories are lists of operations run from a start state.

    ** Parts

    - [Prelude], [Text], [Net]: integers, buffers, strings, sorting, and the
      parsing and printing of IP addresses of the standard library.
    - [Cell] (onion/cell.rs): cells, their layout, serialisation and parsing;
      parsing and serialising are mutually inverse.
    - [Replay] (onion/circuit.rs): the 64-bit sliding window of a backward
      counter; it refines the set of counters seen.
    - [Circuit] (onion/circuit.rs, the relay loop of gateway/server.rs):
      wrapping, peeling, backward layers. A cell crosses any chain of relays in
      both directions; only authentic cells are acted on; no sequence number is
      accepted twice and no nonce is reused over any history.
    - [Handshake] (onion/circuit.rs): CREATE and CREATED, key derivation and
      EXTEND payloads. Both ends agree on keys and the client has verified the
      pinned identity over the transcript.
    - [Identity] (crypto/identity.rs, crypto/hybrid_identity.rs): composite
      signatures and pins.
    - [KeyStore] (crypto/hybrid_identity.rs, core/storage.rs): the identity key
      file under concurrent starts, failures and power failures; all processes
      get one key and it is never replaced.
    - [MultiPath], [Router] (onion/multipath.rs, gateway/multipath_router.rs):
      slicing and bounded reassembly, and the two tasks of the router; the
      stream is delivered exactly, in order, in both directions.
    - [Flow] (onion/flow.rs, pacing.rs, padding.rs): send window, deadlines and
      adaptive padding.
    - [Float], [LinkCover] (onion/link_cover.rs): 64-bit floats, and links that
      emit one envelope per slot. What arrives is what was written, whatever
      fails; the wire shows the same shape for data and noise.
    - [Session], [Streams] (onion/session.rs): padded sessions that multiplex
      streams over a circuit. [Session] has the data, the handlers and the
      channel over [Circuit]; [Streams] runs one end with its workers as a
      transition system against an arbitrary peer: streams arrive intact, the
      budgets hold, a session never fails by its own doing, and data can
      overtake the message that opens its stream.
    - [ExitPolicy] (kernel/exit_policy.rs): which addresses an exit dials.
    - [Sybil] (mesh/sybil.rs): proof of work and circuit diversity.
    - [Admission] (mesh/admission.rs): token buckets and slots per source.
    - [Consensus] (mesh/consensus.rs): descriptors, documents, quorums.
    - [Storage], [Revocation] (core/storage.rs, core/revocation.rs): durable
      files and the retirement of identities, monotone across restarts.
    - [Authority] (mesh/authority.rs): registration, reconciliation, voting
      and cross-checking; one vote per epoch, and agreement of any two
      documents with a quorum when fewer than a third are faulty.
    - [Node], [Pool] (mesh/node.rs, guards.rs, pool.rs): the relay pool; only
      certified directories, no rollback across restarts, fixed guards, sound
      and diverse circuits.

    - [Transport] (mesh/transport.rs): the authenticated channel to an authority;
      what is read is what the pinned identity sent, and every read returns.
    - [Guard] (core/state_machine.rs, kernel/killswitch.rs): sockets by
      typestate, and the kill switch as a flag they share with a controller. A
      stream inside a socket is only used verified and under a clear flag; the
      program uses it otherwise only after taking it out.
    - [Link] (onion/link.rs): TLS links bound to composite identities; both ends
      agree on the identity and on the cover profile.
    - [Relay], [ExitSession] (gateway/server.rs, onion/session.rs): a relay's
      connection as a state machine, up to the end of the padded session it may
      hand over to, with its workers and connect tasks; on the whole of it a relay
      only reaches what it may and never seals twice under a counter.
    - [Telescope], [Network] (gateway/server.rs): the client that builds a circuit,
      and both together: the circuit is built over every chain of honest relays,
      and a completed one is with the relays chosen.
    - [Tunnel] (gateway/server.rs): one destination stream against the exit's end
      of [Relay]; it is faithful and never fails by its own doing.
    - [Socks] (gateway/chain.rs, kernel/dns.rs): SOCKS5 on both sides of the
      gateway; a request written by one is read by the other as it was meant.
    - [Tracker] (mesh/tracker.rs): rendezvous with relays that cannot be reached;
      a client is only joined to who proved the identity it asked for, tables
      stay bounded, and when the connections end all five kinds of permits, those
      that moved with a stream included, are free again.
    - [Bridge], [Directory] (onion/transport.rs, mesh/directory_client.rs): entry
      transports and the pinned directory client; protected clients dial
      loopback only, and what is installed a quorum stands behind.
    - [SessionCache], [Listener] (gateway/session_cache.rs, gateway/server.rs):
      sessions by privacy context, and the connection limits with their tasks.
    - [Gateway], [Startup] (gateway/server.rs, core/config.rs): what one request
      makes the gateway do, composed of [Pool], [Link], [Telescope], [Socks],
      [Bridge] and [Directory]; the checks before it listens, and registration.
    - [Reverse] (gateway/server.rs): a relay that serves clients through a tracker.
    - [Morph] (morphing): the copier of plain streams in shards, and padding.
    - [Netns] (kernel/netns.rs): the namespace of protected applications; its
      dropping rules are loaded before its loopback comes up.
    - [Launch] (main.rs): from the command line to a running role, with the
      requirements and conflicts of its options as the clap crate applies them: a
      requirement is waived when an option that is present conflicts with the
      missing one. The theorems on protected entry and on the start compose
      [Directory], [Bridge], [Revocation], [Pool], [Gateway], [Startup] and
      [Netns]; protected entry is shown for clients, and a relay can be started
      with that option and without its transports.

    Components meet through classes: [Circuit] uses the ciphers of [OnionPrimitives],
    [Handshake] the key agreement of [KexPrimitives], [Link] the TLS library of
    [LinkPrimitives], and everything that signs the primitives of [IdentityPrimitives].
    Programs over a socket share the state and error monad of [Transport].

    ** Fuel

    Recursion follows the data everywhere but in a few loops with explicit
    fuel, whose amount is what the code runs through: the length of the string
    for trimming and splitting, the number of groups for addresses, twenty
    digits for a 64-bit number, the six chunks of the largest document, the
    [2 ^ 32] attempts of the proof-of-work solver, the size of the pool for
    rotation, the entries of the reassembler for draining, the 31 further reads
    a session packs into one cell, the number of options for what an option
    requires.

    ** Not modelled

    The runtime itself: timers, wake-ups and fairness. A deadline is the failure
    of what it interrupts, and tasks are steps in any order; what a step reads
    and does is not interleaved with other steps, so a thread that has just read
    a flag counts as the earlier one. Of main.rs signals
    and the metrics endpoint. What the programs that change the kernel's
    configuration do, and the byte proxy into the namespace (kernel/netns.rs).
    The distributions of delays (morphing/jitter.rs, adversarial.rs, the
    sampling of rmt.rs), which only decide how much time passes between steps;
    that the attractor of chaos.rs never yields an empty shard rests on its
    trajectory and is not shown. Decoy requests (gateway/chaffing.rs), header
    tables (crypto/ja4.rs, headers.rs), which depend on Unicode case tables,
    counters for monitoring (observability.rs), and the scripts, SDK and browser
    extension. Instants are read once per operation. *)
From stdpp Require Export base numbers list gmap sets strings pretty sorting.
From Stdlib Require Export ZArith Lia Sorted.

#[global] Open Scope Z_scope.

(** Buffer sizes are written [Z.to_nat 8192]; never unfold them to unary. *)
#[global] Arguments Z.to_nat : simpl never.
#[global] Arguments Z.of_nat : simpl never.
#[global] Arguments Z.pow : simpl never.
#[global] Arguments Nat.sub : simpl never.

(** ** Results

    Rust's [Result<T, E>]. Mutating methods return the updated receiver next
    to the result, because an early [return Err(..)] keeps every mutation made
    before it. *)
Inductive result (E A : Type) : Type :=
| Ok (a : A)
| Err (e : E).
Arguments Ok {E A} _.
Arguments Err {E A} _.

(** What a poll of an asynchronous operation answers. *)
Inductive Poll (A : Type) := Pending | Ready (a : A).
Arguments Pending {A}.
Arguments Ready {A} a.

Definition is_ok {E A} (r : result E A) : bool :=
  match r with Ok _ => true | Err _ => false end.

Lemma Ok_inj {E A} (a b : A) : @Ok E A a = Ok b -> a = b.
Proof. congruence. Qed.
Lemma Some_inj' {A} (a b : A) : Some a = Some b -> a = b.
Proof. congruence. Qed.

(** [expr?] on a pure result. *)
Notation "'let?' x := e 'in' k" :=
  (match e with Ok x => k | Err er => Err er end)
  (at level 10, x pattern, e at level 200, k at level 200).

(** [opt.ok_or(err)?]. *)
Notation "'let!' x := e 'else' err 'in' k" :=
  (match e with Some x => k | None => err end)
  (at level 10, x pattern, e at level 200, err at level 200, k at level 200).

(** ** Machine integers

    A w-bit unsigned integer is a [Z]; operations whose Rust counterpart can
    overflow are written with their overflow behaviour. *)
Definition u8_MAX : Z := 255.
Definition u16_MAX : Z := 65535.
Definition u32_MAX : Z := 4294967295.
Definition u64_MAX : Z := 18446744073709551615.

Definition is_u8 (x : Z) : Prop := 0 <= x <= u8_MAX.
Definition is_u16 (x : Z) : Prop := 0 <= x <= u16_MAX.
Definition is_u32 (x : Z) : Prop := 0 <= x <= u32_MAX.
Definition is_u64 (x : Z) : Prop := 0 <= x <= u64_MAX.

(** [a.checked_add(b)] at the width whose largest value is [max]. *)
Definition checked_add (max a b : Z) : option Z :=
  if a + b <=? max then Some (a + b) else None.

(** [a.saturating_sub(b)] on an unsigned type. *)
Definition saturating_sub (a b : Z) : Z := Z.max 0 (a - b).

(** [a.saturating_add(b)]. *)
Definition saturating_add (max a b : Z) : Z := Z.min max (a + b).

(** [a.abs_diff(b)]. *)
Definition abs_diff (a b : Z) : Z := Z.abs (a - b).

(** [a - b], [a + b] and [a << n] in wrapping (release) arithmetic. *)
Definition wrapping_sub (max a b : Z) : Z := (a - b) mod (max + 1).
Definition wrapping_add (max a b : Z) : Z := (a + b) mod (max + 1).
Definition wrapping_shl (max a n : Z) : Z := Z.land (Z.shiftl a n) max.

Ltac unfold_ints :=
  unfold is_u8, is_u16, is_u32, is_u64, u8_MAX, u16_MAX, u32_MAX, u64_MAX,
    checked_add, saturating_sub, saturating_add, abs_diff,
    wrapping_sub, wrapping_add in *.

(** ** Boolean tests

    [reflect_bools] turns the boolean guards of the code into propositions;
    [guards] then closes or splits on the code's [if]s. *)
Lemma negb_true_eq b : negb b = true -> b = false.
Proof. destruct b; done. Qed.
Lemma negb_false_eq b : negb b = false -> b = true.
Proof. destruct b; done. Qed.

Ltac reflect_bools :=
  repeat match goal with
  | H : _ && _ = true |- _ => apply andb_true_iff in H as [? ?]
  | H : _ || _ = false |- _ => apply orb_false_iff in H as [? ?]
  | H : negb _ = true |- _ => apply negb_true_eq in H
  | H : negb _ = false |- _ => apply negb_false_eq in H
  | H : (_ <=? _) = true |- _ => apply Z.leb_le in H
  | H : (_ <=? _) = false |- _ => apply Z.leb_gt in H
  | H : (_ <? _) = true |- _ => apply Z.ltb_lt in H
  | H : (_ <? _) = false |- _ => apply Z.ltb_ge in H
  | H : (_ =? _) = true |- _ => apply Z.eqb_eq in H
  | H : (_ =? _) = false |- _ => apply Z.eqb_neq in H
  | H : (_ <=? _)%nat = true |- _ => apply Nat.leb_le in H
  | H : (_ <=? _)%nat = false |- _ => apply Nat.leb_gt in H
  | H : (_ <? _)%nat = true |- _ => apply Nat.ltb_lt in H
  | H : (_ <? _)%nat = false |- _ => apply Nat.ltb_ge in H
  | H : (_ =? _)%nat = true |- _ => apply Nat.eqb_eq in H
  | H : (_ =? _)%nat = false |- _ => apply Nat.eqb_neq in H
  | H : bool_decide _ = true |- _ => apply bool_decide_eq_true in H
  | H : bool_decide _ = false |- _ => apply bool_decide_eq_false in H
  end.

(** The next guard of the code lets the call go on. *)
Ltac refused H := match goal with |- (if ?b then _ else _) = _ -> _ => destruct b eqn:H; [done|] end.

(** Case analysis on an innermost [if] or [match] scrutinee. *)
Ltac split_in H :=
  match type of H with
  | context [match ?x with _ => _ end] =>
      lazymatch x with
      | context [match _ with _ => _ end] => fail
      | _ => let E := fresh "E" in destruct x eqn:E
      end
  end.

Ltac split_goal :=
  match goal with
  | |- context [match ?x with _ => _ end] =>
      lazymatch x with
      | context [match _ with _ => _ end] => fail
      | _ => let E := fresh "E" in destruct x eqn:E
      end
  end.

Ltac guards_in H := repeat (split_in H; simplify_eq/=); reflect_bools.

(** ** Lists *)
Lemma join_bounded {A} (n : nat) (ll : list (list A)) :
  Forall (fun l => (length l <= n)%nat) ll -> (length (mjoin ll) <= length ll * n)%nat.
Proof.
  induction 1 as [|l ll Hl _ IH]; [done|]. change (mjoin (l :: ll)) with (l ++ mjoin ll). rewrite length_app.
  cbn [length]. lia.
Qed.

Lemma filter_none {A} (P : A -> Prop) `{!forall x, Decision (P x)} (l : list A) : (forall x, x ∈ l -> ~ P x) -> filter P l = [].
Proof.
  induction l as [|x l IH]; intros Hl; [done|]. rewrite filter_cons_False by (apply Hl; left).
  apply IH. intros y Hy. apply Hl. by right.
Qed.

Lemma filter_agree {A} (P Q : A -> Prop) `{!forall x, Decision (P x)} `{!forall x, Decision (Q x)} (l : list A) :
  (forall x, x ∈ l -> P x <-> Q x) -> filter P l = filter Q l.
Proof.
  induction l as [|x l IH]; intros Hl; [done|]. rewrite !filter_cons, IH by (intros y Hy; apply Hl; by right).
  pose proof (Hl x ltac:(left)). repeat case_decide; tauto.
Qed.

Lemma NoDup_snoc {A} (l : list A) x : NoDup l -> (x ∉ l) -> NoDup (l ++ [x]).
Proof. intros Hl Hx. rewrite (comm app). by apply NoDup_cons_2. Qed.

Lemma StronglySorted_NoDup (l : list Z) : StronglySorted Z.lt l -> NoDup l.
Proof.
  induction 1 as [|x l _ IH Hx]; constructor; [|done].
  intros Hin. rewrite Forall_forall in Hx. apply Hx in Hin. lia.
Qed.

Lemma sorted_last l m : StronglySorted Z.lt l -> last l = Some m -> Forall (fun x => x <= m) l.
Proof.
  induction 1 as [|x l Hs IH Hx]; intros Hl; [done|]. destruct l as [|y l].
  - simplify_eq/=. repeat constructor. lia.
  - rewrite last_cons_cons in Hl. specialize (IH Hl). constructor; [|done].
    apply Forall_cons in Hx as [? _]. apply Forall_cons in IH as [? _]. lia.
Qed.

(** ** Byte buffers

    A byte is a [Z] in [0, 255]; [&[u8]] and [[u8; N]] are lists of bytes. *)
Notation bytes := (list Z) (only parsing).
Definition is_bytes (l : bytes) : Prop := Forall is_u8 l.

(** [&l[a..b]]. *)
Definition slice (a b : nat) (l : bytes) : bytes := take (b - a) (drop a l).

(** [l[off..off + src.len()].copy_from_slice(src)]. *)
Definition blit (off : nat) (src l : bytes) : bytes :=
  take off l ++ src ++ drop (off + length src) l.

#[global] Arguments slice : simpl never.
#[global] Arguments blit : simpl never.

(** [x.to_be_bytes()] of an [n]-byte integer, and [from_be_bytes]. *)
Fixpoint be_bytes (n : nat) (x : Z) : bytes :=
  match n with
  | O => []
  | S n' => be_bytes n' (x / 256) ++ [x mod 256]
  end.
Definition from_be (l : bytes) : Z := fold_left (fun acc b => acc * 256 + b) l 0.

(** In-place XOR with a keystream. *)
Definition xor_bytes (ks data : bytes) : bytes := zip_with Z.lxor data ks.

(** ** Lemmas on byte buffers *)
Lemma be_bytes_length n x : length (be_bytes n x) = n.
Proof. revert x; induction n; intros; simpl; [done|]. rewrite length_app, IHn. simpl. lia. Qed.

Lemma be_bytes_is_bytes n x : is_bytes (be_bytes n x).
Proof.
  revert x; induction n as [|n IH]; intros; simpl; [constructor|].
  apply Forall_app_2; [apply IH|]. repeat constructor; unfold_ints;
    pose proof (Z.mod_pos_bound x 256); lia.
Qed.

Lemma from_be_app l b : from_be (l ++ [b]) = from_be l * 256 + b.
Proof. unfold from_be. by rewrite fold_left_app. Qed.

Lemma from_be_cons b l : from_be (b :: l) = b * 256 ^ Z.of_nat (length l) + from_be l.
Proof.
  induction l as [|x l IH] using rev_ind.
  - unfold from_be. cbn [fold_left length]. change (256 ^ Z.of_nat 0) with 1. lia.
  - change (b :: l ++ [x]) with ((b :: l) ++ [x]).
    rewrite !from_be_app, IH, length_app, Nat.add_1_r, Nat2Z.inj_succ, Z.pow_succ_r by lia. lia.
Qed.

Lemma from_be_be_bytes n x : 0 <= x < 256 ^ Z.of_nat n -> from_be (be_bytes n x) = x.
Proof.
  revert x; induction n as [|n IH]; intros x Hx; simpl be_bytes.
  - change (256 ^ Z.of_nat 0) with 1 in Hx. unfold from_be; simpl; lia.
  - rewrite from_be_app, IH.
    + pose proof (Z.div_mod x 256). lia.
    + rewrite Nat2Z.inj_succ, Z.pow_succ_r in Hx by lia.
      split; [apply Z.div_pos; lia|]. apply Z.div_lt_upper_bound; lia.
Qed.

Lemma from_be_bound l : is_bytes l -> 0 <= from_be l < 256 ^ Z.of_nat (length l).
Proof.
  induction l as [|b l IH] using rev_ind; intros Hl.
  - unfold from_be; simpl; lia.
  - apply Forall_app in Hl as [Hl Hb]. apply Forall_cons_1 in Hb as [Hb _].
    specialize (IH Hl). rewrite from_be_app, length_app, Nat.add_1_r, Nat2Z.inj_succ, Z.pow_succ_r by lia.
    unfold_ints. lia.
Qed.

Lemma be_bytes_from_be l : is_bytes l -> be_bytes (length l) (from_be l) = l.
Proof.
  induction l as [|b l IH] using rev_ind; intros Hl; [done|].
  apply Forall_app in Hl as [Hl Hb]. apply Forall_cons_1 in Hb as [Hb _].
  rewrite length_app, Nat.add_1_r, from_be_app. simpl. unfold_ints.
  rewrite Z.div_add_l, (Z.div_small b), Z.add_0_r, IH by (done || lia).
  by rewrite Z.add_comm, Z_mod_plus_full, Z.mod_small by lia.
Qed.

Lemma be_bytes_inj n x y :
  0 <= x < 256 ^ Z.of_nat n -> 0 <= y < 256 ^ Z.of_nat n ->
  be_bytes n x = be_bytes n y -> x = y.
Proof. intros Hx Hy E. rewrite <- (from_be_be_bytes n x), <- (from_be_be_bytes n y), E; done. Qed.

Lemma length_blit off src l :
  (off + length src <= length l)%nat -> length (blit off src l) = length l.
Proof. intros. unfold blit. rewrite !length_app, length_take, length_drop. lia. Qed.

Lemma length_slice a b l : (a <= b <= length l)%nat -> length (slice a b l) = (b - a)%nat.
Proof. intros. unfold slice. rewrite length_take, length_drop. lia. Qed.

Lemma is_bytes_slice a b l : is_bytes l -> is_bytes (slice a b l).
Proof. intros. unfold slice. by apply Forall_take, Forall_drop. Qed.

Lemma is_bytes_blit off src l : is_bytes l -> is_bytes src -> is_bytes (blit off src l).
Proof. intros. unfold blit, is_bytes. rewrite !Forall_app. auto using Forall_take, Forall_drop. Qed.

Lemma is_bytes_replicate n x : is_u8 x -> is_bytes (replicate n x).
Proof. intros. by apply Forall_replicate. Qed.

Lemma be_bytes_slice n a b l :
  b = (a + n)%nat -> (b <= length l)%nat -> is_bytes l ->
  be_bytes n (from_be (slice a b l)) = slice a b l.
Proof.
  intros -> Hle Hb. pose proof (be_bytes_from_be _ (is_bytes_slice a (a + n) _ Hb)) as H.
  rewrite length_slice in H by lia. by replace (a + n - a)%nat with n in H by lia.
Qed.

Lemma from_be_slice_bound n a b l :
  b = (a + n)%nat -> (b <= length l)%nat -> is_bytes l ->
  0 <= from_be (slice a b l) < 256 ^ Z.of_nat n.
Proof.
  intros -> Hle Hb. pose proof (from_be_bound _ (is_bytes_slice a (a + n) _ Hb)) as H.
  rewrite length_slice in H by lia. by replace (a + n - a)%nat with n in H by lia.
Qed.

(** Reading across an append, the workhorse of the codec proofs. *)
Lemma slice_app_here l1 l2 l3 :
  slice (length l1) (length l1 + length l2) (l1 ++ l2 ++ l3) = l2.
Proof.
  unfold slice. rewrite drop_app_length.
  replace (length l1 + length l2 - length l1)%nat with (length l2) by lia. apply take_app_length.
Qed.

Lemma slice_app_at a b l1 l2 l3 :
  length l1 = a -> b = (a + length l2)%nat -> slice a b (l1 ++ l2 ++ l3) = l2.
Proof. intros <- ->. apply slice_app_here. Qed.

Lemma slice_app_first b l1 l2 : length l1 = b -> slice 0 b (l1 ++ l2) = l1.
Proof. intros E. by apply (slice_app_at 0 b []). Qed.

Lemma slice_split a b l :
  (a <= b)%nat -> l = take a l ++ slice a b l ++ drop b l.
Proof.
  intros. unfold slice. rewrite <- (take_drop a l) at 1. f_equal.
  rewrite <- (take_drop (b - a) (drop a l)) at 1. f_equal.
  rewrite drop_drop. f_equal. lia.
Qed.

Lemma slice_drop a b c l : slice a b (drop c l) = slice (c + a) (c + b) l.
Proof. unfold slice. rewrite drop_drop. f_equal. lia. Qed.

Lemma slice_take a b c l : (b <= c)%nat -> slice a b (take c l) = slice a b l.
Proof.
  intros. unfold slice. destruct (decide (a <= b)%nat).
  - rewrite <- take_drop_commute || idtac. rewrite skipn_firstn_comm, take_take. f_equal. lia.
  - replace (b - a)%nat with 0%nat by lia. by rewrite !take_0.
Qed.

(** The buffer between two cut points is the concatenation of its slices. *)
Lemma slice_cat a b c l : (a <= b <= c)%nat -> slice a b l ++ slice b c l = slice a c l.
Proof.
  intros Hab. unfold slice. replace (c - a)%nat with ((b - a) + (c - b))%nat by lia.
  rewrite <- take_take_drop, drop_drop. do 3 f_equal. lia.
Qed.

Lemma slice_full n l : length l = n -> slice 0 n l = l.
Proof. intros <-. unfold slice. rewrite drop_0, take_ge; [done|lia]. Qed.

Lemma slice_one n l : (n < length l)%nat -> slice n (S n) l = [l !!! n].
Proof.
  intros Hn. unfold slice. replace (S n - n)%nat with 1%nat by lia.
  destruct (lookup_lt_is_Some_2 l n Hn) as [x Hx].
  rewrite (drop_S _ _ _ Hx), (list_lookup_total_correct _ _ _ Hx). cbn. by rewrite take_0.
Qed.

Lemma lookup_total_u8 n l : is_bytes l -> (n < length l)%nat -> is_u8 (l !!! n).
Proof.
  intros Hb Hn. destruct (lookup_lt_is_Some_2 l n Hn) as [x Hx]. rewrite (list_lookup_total_correct _ _ _ Hx).
  by eapply Forall_lookup_1.
Qed.

(** A write that replaces a whole segment of a known buffer. *)
Lemma blit_app off l1 old new l2 :
  length l1 = off -> length old = length new ->
  blit off new (l1 ++ old ++ l2) = l1 ++ new ++ l2.
Proof.
  intros <- E. unfold blit. rewrite take_app_length. f_equal. f_equal.
  rewrite <- E, drop_app_add', drop_app_length; done.
Qed.

Lemma blit_first old new l2 :
  length old = length new -> blit 0 new (old ++ l2) = new ++ l2.
Proof. intros E. by apply (blit_app 0 []). Qed.

(** XOR with the same keystream twice is the identity. *)
Lemma xor_bytes_length ks data : length ks = length data -> length (xor_bytes ks data) = length data.
Proof. intros. unfold xor_bytes. rewrite length_zip_with. lia. Qed.

Lemma xor_bytes_involutive ks data :
  length ks = length data -> xor_bytes ks (xor_bytes ks data) = data.
Proof.
  unfold xor_bytes. revert ks; induction data as [|d data IH]; intros [|k ks] E; simplify_eq/=; [done|].
  f_equal; [|by apply IH]. by rewrite Z.lxor_assoc, Z.lxor_nilpotent, Z.lxor_0_r.
Qed.

Lemma is_u8_bits x : is_u8 x <-> 0 <= x < 2 ^ 8.
Proof. unfold_ints. change (2 ^ 8) with 256. lia. Qed.

Lemma lxor_u8 a b : is_u8 a -> is_u8 b -> is_u8 (Z.lxor a b).
Proof.
  rewrite !is_u8_bits. intros Ha Hb. split; [apply Z.lxor_nonneg; lia|].
  destruct (decide (Z.lxor a b = 0)) as [->|Hne]; [lia|].
  apply Z.log2_lt_pow2; [pose proof (proj2 (Z.lxor_nonneg a b)); lia|].
  eapply Z.le_lt_trans; [apply Z.log2_lxor; lia|].
  apply Z.max_lub_lt.
  - destruct (decide (a = 0)) as [->|]; [done|]. apply Z.log2_lt_pow2; lia.
  - destruct (decide (b = 0)) as [->|]; [done|]. apply Z.log2_lt_pow2; lia.
Qed.

Lemma is_bytes_xor ks data : is_bytes ks -> is_bytes data -> is_bytes (xor_bytes ks data).
Proof.
  unfold xor_bytes, is_bytes. intros Hk Hd. revert ks Hk.
  induction Hd as [|d data Hd _ IH]; intros [|k ks] Hk; simpl; try constructor.
  - apply Forall_cons in Hk as [? _]. by apply lxor_u8.
  - apply Forall_cons in Hk as [_ ?]. by apply IH.
Qed.

Lemma is_bytes_app a b : is_bytes a -> is_bytes b -> is_bytes (a ++ b).
Proof. apply Forall_app_2. Qed.

Lemma is_bytes_cons x l : is_u8 x -> is_bytes l -> is_bytes (x :: l).
Proof. by constructor. Qed.

Lemma is_bytes_nil : is_bytes [].
Proof. constructor. Qed.

(** [bytes] closes the well-formedness goals of buffers built from segments. *)
Create HintDb bytes.
#[export] Hint Resolve is_bytes_nil is_bytes_cons is_bytes_app is_bytes_slice is_bytes_blit is_bytes_replicate
  is_bytes_xor be_bytes_is_bytes be_bytes_length length_replicate : bytes.
#[export] Hint Extern 1 (is_u8 _) => unfold_ints; lia : bytes.

(** ** Hash maps

    A [HashMap] is a [gmap]; its iteration order is unspecified, so code that
    iterates does so in an order given by an instance of [HashOrder]. *)
Class HashOrder := {
  hash_iter : forall {K : Type} `{Countable K} {V : Type}, gmap K V -> list (K * V);
}.

Class HashOrderLaws `{HashOrder} : Prop := {
  hash_iter_perm : forall {K : Type} `{Countable K} {V : Type} (m : gmap K V), hash_iter m ≡ₚ map_to_list m;
}.

Definition hash_values `{HashOrder} {K : Type} `{Countable K} {V : Type} (m : gmap K V) : list V := (hash_iter m).*2.

Section HashValues.
Context {HO : HashOrder} {HOL : @HashOrderLaws HO}.

Lemma hash_values_perm {K : Type} `{Countable K} {V : Type} (m : gmap K V) : hash_values m ≡ₚ (map_to_list m).*2.
Proof. unfold hash_values. by rewrite (hash_iter_perm m). Qed.

Lemma elem_of_hash_values {K : Type} `{Countable K} {V : Type} (m : gmap K V) v : v ∈ hash_values m <-> exists k, m !! k = Some v.
Proof.
  rewrite hash_values_perm, list_elem_of_fmap. setoid_rewrite <- elem_of_map_to_list. split.
  - intros ([k v'] & -> & ?). by exists k.
  - intros (k & ?). by exists (k, v).
Qed.
End HashValues.

Definition map_order : HashOrder := {| hash_iter := fun K _ _ V m => map_to_list m |}.

Lemma map_order_laws : @HashOrderLaws map_order.
Proof. constructor. reflexivity. Qed.

(** ** Counting in a table of tasks *)
Section Count.
Context {V : Type}.

Definition count (P : V -> bool) (tasks : gmap nat V) : nat := size (filter (fun e : nat * V => P e.2 = true) tasks).
Definition counts (P : V -> bool) (t : option V) : nat := match t with Some t => Nat.b2n (P t) | None => 0 end.

Lemma count_insert P tasks k t : (count P (<[k := t]> tasks) + counts P (tasks !! k) = count P tasks + Nat.b2n (P t))%nat.
Proof.
  unfold count. set (kept := filter _ tasks).
  assert (Hk : kept !! k = match tasks !! k with Some o => if P o then Some o else None | None => None end).
  { destruct (tasks !! k) as [o|] eqn:Eo; [|apply map_lookup_filter_None; by left]. destruct (P o) eqn:Ep.
    - by apply map_lookup_filter_Some.
    - apply map_lookup_filter_None. right. intros o' Eo'. cbn. congruence. }
  assert (Hpos : forall o, kept !! k = Some o -> (0 < size kept)%nat).
  { intros o Ho. assert (Hne : kept <> ∅) by (intros E; by rewrite E, lookup_empty in Ho). apply map_size_non_empty_iff in Hne. lia. }
  rewrite map_filter_insert. cbn [snd]. destruct (P t) eqn:Ep.
  - rewrite decide_True by done. fold kept. rewrite map_size_insert, Hk. destruct (tasks !! k) as [o|]; cbn; [destruct (P o)|]; cbn; lia.
  - rewrite decide_False by done. replace (filter _ (delete k tasks)) with (delete k kept) by (by rewrite map_filter_delete). rewrite map_size_delete, Hk.
    destruct (tasks !! k) as [o|]; cbn; [|lia]. destruct (P o) eqn:Eo; cbn; [|lia]. specialize (Hpos o). rewrite Hk in Hpos. specialize (Hpos eq_refl). lia.
Qed.

Lemma count_none P tasks : (forall k t, tasks !! k = Some t -> P t = false) -> count P tasks = 0%nat.
Proof.
  intros Hn. unfold count. apply map_size_empty_iff, map_empty. intros k. apply map_lookup_filter_None. right. intros t Ht. cbn. by rewrite (Hn k t Ht).
Qed.

Lemma count_delete P tasks k : (count P (delete k tasks) + counts P (tasks !! k) = count P tasks)%nat.
Proof.
  destruct (tasks !! k) as [o|] eqn:Ho; cbn; [|rewrite delete_id by done; lia].
  pose proof (count_insert P (delete k tasks) k o) as Hc. rewrite insert_delete_id, lookup_delete_eq in Hc by done. cbn in Hc. lia.
Qed.
End Count.
