(* ===== verification/Text.v ===== *)
(** * Text (Rust's [str] and [String])

    A Rust string is its UTF-8 bytes. [from_utf8] is the validation of
    [String::from_utf8] / [str::from_utf8]; [str] turns an ASCII literal of the
    source into bytes. *)
From S2P Require Import Prelude.

(** A byte literal of the source, [b"..."]. *)
Definition str (s : string) : bytes :=
  (fun c => Z.of_nat (Ascii.nat_of_ascii c)) <$> String.list_ascii_of_string s.

#[global] Arguments str : simpl never.

Lemma str_bytes s : is_bytes (str s).
Proof.
  unfold is_bytes, str. rewrite Forall_fmap, Forall_forall. intros c _. cbn. pose proof (Ascii.nat_ascii_bounded c).
  unfold is_u8. unfold_ints. lia.
Qed.

Definition in_range (lo hi b : Z) : bool := (lo <=? b) && (b <=? hi).
Definition is_cont (b : Z) : bool := in_range 128 191 b.

(** The well-formed byte sequences of the Unicode standard, table 3-7. *)
Fixpoint utf8_valid (l : bytes) : bool :=
  match l with
  | [] => true
  | b0 :: r0 =>
      if in_range 0 127 b0 then utf8_valid r0
      else match r0 with
      | [] => false
      | b1 :: r1 =>
          if in_range 194 223 b0 then is_cont b1 && utf8_valid r1
          else match r1 with
          | [] => false
          | b2 :: r2 =>
              if b0 =? 224 then in_range 160 191 b1 && is_cont b2 && utf8_valid r2
              else if b0 =? 237 then in_range 128 159 b1 && is_cont b2 && utf8_valid r2
              else if in_range 225 239 b0 then is_cont b1 && is_cont b2 && utf8_valid r2
              else match r2 with
              | [] => false
              | b3 :: r3 =>
                  if b0 =? 240 then in_range 144 191 b1 && is_cont b2 && is_cont b3 && utf8_valid r3
                  else if in_range 241 243 b0 then is_cont b1 && is_cont b2 && is_cont b3 && utf8_valid r3
                  else if b0 =? 244 then in_range 128 143 b1 && is_cont b2 && is_cont b3 && utf8_valid r3
                  else false
              end
          end
      end
  end.

Definition from_utf8 (l : bytes) : option bytes := if utf8_valid l then Some l else None.

(** [is_ascii]. *)
Definition is_ascii (l : bytes) : bool := forallb (in_range 0 127) l.

Lemma in_range_true lo hi b : in_range lo hi b = true <-> lo <= b <= hi.
Proof. unfold in_range. rewrite andb_true_iff, !Z.leb_le. done. Qed.

Lemma ascii_utf8 l : is_ascii l = true -> utf8_valid l = true.
Proof.
  induction l as [|b l IH]; [done|]. cbn [is_ascii forallb utf8_valid]. intros [Hb Hl]%andb_true_iff.
  rewrite Hb. by apply IH.
Qed.

Lemma from_utf8_valid l : utf8_valid l = true -> from_utf8 l = Some l.
Proof. unfold from_utf8. by intros ->. Qed.

Lemma from_utf8_inv l s : from_utf8 l = Some s -> s = l /\ utf8_valid l = true.
Proof. unfold from_utf8. destruct (utf8_valid l); intros; simplify_eq. done. Qed.

(** [str::starts_with] on bytes; [strip_prefix] drops its length. *)
Definition starts_with (l prefix : bytes) : bool := bool_decide (take (length prefix) l = prefix).

(** [str::contains] with a string pattern. *)
Fixpoint contains (l pat : bytes) : bool :=
  starts_with l pat || match l with [] => false | _ :: l' => contains l' pat end.

(** ** Ordering and sorting

    [str] and byte arrays compare lexicographically; [sort_by] is the stable
    [slice::sort_by] on a key. *)
Fixpoint bytes_leb (a b : bytes) : bool :=
  match a, b with
  | [], _ => true
  | _ :: _, [] => false
  | x :: a', y :: b' => (x <? y) || ((x =? y) && bytes_leb a' b')
  end.

Lemma bytes_leb_total a b : bytes_leb a b = false -> bytes_leb b a = true.
Proof.
  revert b. induction a as [|x a IH]; intros [|y b] Hab; cbn in *; try done.
  apply orb_false_iff in Hab as [Hlt He]. apply orb_true_iff. destruct (Z.eqb_spec x y) as [->|Hne]; cbn in *.
  - right. rewrite Z.eqb_refl. by apply IH.
  - left. reflect_bools. apply Z.ltb_lt. lia.
Qed.

Lemma bytes_leb_antisym a b : bytes_leb a b = true -> bytes_leb b a = true -> a = b.
Proof.
  revert b. induction a as [|x a IH]; intros [|y b] H1 H2; cbn in *; try done.
  apply orb_true_iff in H1 as [H1|H1]; apply orb_true_iff in H2 as [H2|H2]; reflect_bools; try lia.
  subst. f_equal. by apply IH.
Qed.

Lemma bytes_leb_trans a b c : bytes_leb a b = true -> bytes_leb b c = true -> bytes_leb a c = true.
Proof.
  revert b c. induction a as [|x a IH]; intros [|y b] [|z c] H1 H2; cbn in *; try done.
  apply orb_true_iff in H1 as [H1|H1]; apply orb_true_iff in H2 as [H2|H2]; reflect_bools; subst;
    apply orb_true_iff; rewrite ?Z.ltb_lt; first [left; lia|right].
  rewrite Z.eqb_refl. by eapply IH.
Qed.

Section SortBy.
Context {A : Type} (key : A -> bytes).

Fixpoint insert_by (x : A) (l : list A) : list A :=
  match l with
  | [] => [x]
  | y :: l' => if bytes_leb (key x) (key y) then x :: l else y :: insert_by x l'
  end.

Definition sort_by (l : list A) : list A := foldr insert_by [] l.

Definition key_le (x y : A) : Prop := bytes_leb (key x) (key y) = true.

Lemma insert_by_perm x l : insert_by x l ≡ₚ x :: l.
Proof. induction l as [|y l IH]; cbn; [done|]. case_match; [done|]. rewrite IH. by constructor. Qed.

Lemma sort_by_perm l : sort_by l ≡ₚ l.
Proof. induction l as [|x l IH]; cbn; [done|]. by rewrite insert_by_perm, IH. Qed.

Lemma insert_by_sorted x l : StronglySorted key_le l -> StronglySorted key_le (insert_by x l).
Proof.
  unfold key_le. induction 1 as [|y l Hs IH Hy]; cbn; [by repeat constructor|].
  destruct (bytes_leb (key x) (key y)) eqn:E.
  - constructor; [by constructor|]. constructor; [done|]. eapply Forall_impl; [exact Hy|].
    intros z. by apply bytes_leb_trans.
  - constructor; [done|]. rewrite insert_by_perm. constructor; [by apply bytes_leb_total|done].
Qed.

Lemma sort_by_sorted l : StronglySorted key_le (sort_by l).
Proof. induction l as [|x l IH]; cbn; [constructor|by apply insert_by_sorted]. Qed.

(** With distinct keys the result does not depend on the order of the input. *)
Lemma sort_by_canonical l1 l2 : NoDup (key <$> l1) -> l1 ≡ₚ l2 -> sort_by l1 = sort_by l2.
Proof.
  intros Hnd Hp. apply (StronglySorted_unique_strong key_le); [|apply sort_by_sorted..|].
  - intros x y Hx Hy Hxy Hyx. rewrite sort_by_perm in Hx. rewrite sort_by_perm, <- Hp in Hy.
    apply (bytes_leb_antisym _ _ Hxy) in Hyx. apply list_elem_of_lookup in Hx as [i Hi], Hy as [j Hj].
    assert (i = j) as ->; [|congruence]. eapply NoDup_lookup; [exact Hnd|..]; rewrite list_lookup_fmap.
    + by rewrite Hi.
    + rewrite Hj. cbn. by rewrite Hyx.
  - by rewrite !sort_by_perm.
Qed.
End SortBy.
