(* ===== verification/Net.v ===== *)
(** * Internet addresses (Rust's [std::net])

    [Ipv4Addr] as four octets, [Ipv6Addr] as eight 16-bit segments, the
    predicates and conversions the sources use, and the text parser behind
    [str::parse::<IpAddr>], [::<Ipv4Addr>] and [::<Ipv6Addr>]: a recursive
    descent parser over the bytes that gives back the unread rest, and fails
    unless everything was read. *)
From S2P Require Import Prelude Text.

(** ** Data *)
Record Ipv4Addr := mkIpv4 { v4_a : Z; v4_b : Z; v4_c : Z; v4_d : Z }.
Record Ipv6Addr := mkIpv6 {
  seg0 : Z; seg1 : Z; seg2 : Z; seg3 : Z; seg4 : Z; seg5 : Z; seg6 : Z; seg7 : Z;
}.
Inductive IpAddr := V4 (ip : Ipv4Addr) | V6 (ip : Ipv6Addr).

#[global] Instance Ipv4Addr_eq_dec : EqDecision Ipv4Addr.
Proof. solve_decision. Defined.
#[global] Instance Ipv6Addr_eq_dec : EqDecision Ipv6Addr.
Proof. solve_decision. Defined.
#[global] Instance IpAddr_eq_dec : EqDecision IpAddr.
Proof. solve_decision. Defined.

Definition v4_octets (ip : Ipv4Addr) : bytes := [v4_a ip; v4_b ip; v4_c ip; v4_d ip].
Definition v6_segments (ip : Ipv6Addr) : list Z :=
  [seg0 ip; seg1 ip; seg2 ip; seg3 ip; seg4 ip; seg5 ip; seg6 ip; seg7 ip].
Definition v6_octets (ip : Ipv6Addr) : bytes := s ← v6_segments ip; be_bytes 2 s.

Definition v4_wf (ip : Ipv4Addr) : Prop := is_u8 (v4_a ip) /\ is_u8 (v4_b ip) /\ is_u8 (v4_c ip) /\ is_u8 (v4_d ip).
Definition v6_wf (ip : Ipv6Addr) : Prop := Forall is_u16 (v6_segments ip).

(** ** Predicates and conversions *)
Definition v4_is_loopback (ip : Ipv4Addr) : bool := v4_a ip =? 127.
Definition v4_is_unspecified (ip : Ipv4Addr) : bool :=
  (v4_a ip =? 0) && (v4_b ip =? 0) && (v4_c ip =? 0) && (v4_d ip =? 0).
Definition v4_is_link_local (ip : Ipv4Addr) : bool := (v4_a ip =? 169) && (v4_b ip =? 254).
Definition v4_is_multicast (ip : Ipv4Addr) : bool := (224 <=? v4_a ip) && (v4_a ip <=? 239).
Definition v4_is_broadcast (ip : Ipv4Addr) : bool :=
  (v4_a ip =? 255) && (v4_b ip =? 255) && (v4_c ip =? 255) && (v4_d ip =? 255).

Definition v6_is_loopback (ip : Ipv6Addr) : bool :=
  (seg0 ip =? 0) && (seg1 ip =? 0) && (seg2 ip =? 0) && (seg3 ip =? 0) && (seg4 ip =? 0) && (seg5 ip =? 0) && (seg6 ip =? 0)
  && (seg7 ip =? 1).
Definition v6_is_unspecified (ip : Ipv6Addr) : bool :=
  (seg0 ip =? 0) && (seg1 ip =? 0) && (seg2 ip =? 0) && (seg3 ip =? 0) && (seg4 ip =? 0) && (seg5 ip =? 0) && (seg6 ip =? 0)
  && (seg7 ip =? 0).
Definition v6_is_multicast (ip : Ipv6Addr) : bool := Z.land (seg0 ip) 65280 =? 65280.

(** The IPv4 address held by two consecutive segments. *)
Definition v4_of_segments (hi lo : Z) : Ipv4Addr := mkIpv4 (hi / 256) (hi mod 256) (lo / 256) (lo mod 256).

Definition to_ipv4_mapped (ip : Ipv6Addr) : option Ipv4Addr :=
  if (seg0 ip =? 0) && (seg1 ip =? 0) && (seg2 ip =? 0) && (seg3 ip =? 0) && (seg4 ip =? 0) && (seg5 ip =? 65535)
  then Some (v4_of_segments (seg6 ip) (seg7 ip)) else None.

Definition to_ipv4 (ip : Ipv6Addr) : option Ipv4Addr :=
  if (seg0 ip =? 0) && (seg1 ip =? 0) && (seg2 ip =? 0) && (seg3 ip =? 0) && (seg4 ip =? 0)
     && ((seg5 ip =? 0) || (seg5 ip =? 65535))
  then Some (v4_of_segments (seg6 ip) (seg7 ip)) else None.

(** ** Parsing *)

(** [char::to_digit(radix)] on an ASCII byte. *)
Definition to_digit (radix b : Z) : option Z :=
  let d := if in_range 48 57 b then b - 48
           else if in_range 97 122 b then b - 87
           else if in_range 65 90 b then b - 55
           else 99 in
  if d <? radix then Some d else None.

(** The digits at the front of the input: value and count; the source stops
    with an error as soon as the count passes [max_digits]. *)
Fixpoint read_digits (radix : Z) (acc : Z) (count : nat) (l : bytes) : Z * nat * bytes :=
  match l with
  | [] => (acc, count, [])
  | b :: rest =>
      match to_digit radix b with
      | Some d => read_digits radix (acc * radix + d) (S count) rest
      | None => (acc, count, l)
      end
  end.

Definition read_number (radix : Z) (max_digits : nat) (max_value : Z) (allow_zero_prefix : bool) (l : bytes)
    : option (Z * bytes) :=
  let has_leading_zero := match l with 48 :: _ => true | _ => false end in
  let '(v, count, rest) := read_digits radix 0 0 l in
  if (max_digits <? count)%nat then None
  else if (count =? 0)%nat then None
  else if negb allow_zero_prefix && has_leading_zero && (1 <? count)%nat then None
  else if max_value <? v then None
  else Some (v, rest).

Definition read_char (c : Z) (l : bytes) : option bytes :=
  match l with b :: rest => if b =? c then Some rest else None | [] => None end.

(** A separator is expected before every item but the first. *)
Definition read_separator {A} (sep : Z) (index : nat) (inner : bytes -> option (A * bytes)) (l : bytes)
    : option (A * bytes) :=
  match index with
  | O => inner l
  | S _ => match read_char sep l with Some rest => inner rest | None => None end
  end.

Definition read_octet : bytes -> option (Z * bytes) := read_number 10 3 255 false.

Definition read_ipv4_addr (l : bytes) : option (Ipv4Addr * bytes) :=
  match read_separator 46 0 read_octet l with
  | None => None
  | Some (a, l) =>
      match read_separator 46 1 read_octet l with
      | None => None
      | Some (b, l) =>
          match read_separator 46 2 read_octet l with
          | None => None
          | Some (c, l) =>
              match read_separator 46 3 read_octet l with
              | None => None
              | Some (d, l) => Some (mkIpv4 a b c d, l)
              end
          end
      end
  end.

(** Groups [i], [i + 1], ... up to [limit]; the flag tells that the last two
    came from an embedded IPv4 address. *)
Fixpoint read_groups (todo : nat) (i limit : nat) (l : bytes) : list Z * bool * bytes :=
  match todo with
  | O => ([], false, l)
  | S todo' =>
      let embedded :=
        if (i <? limit - 1)%nat then read_separator 58 i read_ipv4_addr l else None in
      match embedded with
      | Some (v4, rest) => ([v4_a v4 * 256 + v4_b v4; v4_c v4 * 256 + v4_d v4], true, rest)
      | None =>
          match read_separator 58 i (read_number 16 4 65535 true) l with
          | Some (g, rest) => let '(gs, v4, rest) := read_groups todo' (S i) limit rest in (g :: gs, v4, rest)
          | None => ([], false, l)
          end
      end
  end.

Definition v6_of_segments (gs : list Z) : Ipv6Addr :=
  mkIpv6 (gs !!! 0%nat) (gs !!! 1%nat) (gs !!! 2%nat) (gs !!! 3%nat) (gs !!! 4%nat) (gs !!! 5%nat) (gs !!! 6%nat)
         (gs !!! 7%nat).

Definition read_ipv6_addr (l : bytes) : option (Ipv6Addr * bytes) :=
  let '(head, head_ipv4, rest) := read_groups 8 0 8 l in
  if (length head =? 8)%nat then Some (v6_of_segments head, rest)
  else if head_ipv4 then None
  else
    match read_char 58 rest with
    | None => None
    | Some rest =>
        match read_char 58 rest with
        | None => None
        | Some rest =>
            let limit := (8 - (length head + 1))%nat in
            let '(tail, _, rest) := read_groups limit 0 limit rest in
            Some (v6_of_segments (head ++ replicate (8 - length head - length tail) 0 ++ tail), rest)
        end
    end.

(** [parse_with]: everything must have been read. *)
Definition parse_ipv4 (l : bytes) : option Ipv4Addr :=
  if (15 <? length l)%nat then None
  else match read_ipv4_addr l with Some (ip, []) => Some ip | _ => None end.

Definition parse_ipv6 (l : bytes) : option Ipv6Addr :=
  match read_ipv6_addr l with Some (ip, []) => Some ip | _ => None end.

Definition parse_ip (l : bytes) : option IpAddr :=
  match read_ipv4_addr l with
  | Some (ip, rest) => match rest with [] => Some (V4 ip) | _ => None end
  | None => match read_ipv6_addr l with Some (ip, []) => Some (V6 ip) | _ => None end
  end.

(** ** Lemmas *)
Lemma read_number_bound radix m max z l v rest :
  0 < radix -> read_number radix m max z l = Some (v, rest) -> 0 <= v <= max.
Proof.
  intros Hr. unfold read_number. destruct (read_digits radix 0 0 l) as [[w n] r] eqn:Hd.
  assert (Hw : forall l acc c w n r, 0 <= acc -> read_digits radix acc c l = (w, n, r) -> 0 <= w).
  { clear -Hr. induction l as [|b l IH]; intros acc c w n r Ha Hd; cbn [read_digits] in Hd; [by simplify_eq|].
    destruct (to_digit radix b) as [d|] eqn:Ed; [|by simplify_eq]. eapply IH; [|exact Hd].
    unfold to_digit, in_range in Ed. guards_in Ed; nia. }
  apply Hw in Hd; [|lia]. intros H. guards_in H; lia.
Qed.

Lemma read_ipv4_wf l ip rest : read_ipv4_addr l = Some (ip, rest) -> v4_wf ip.
Proof.
  unfold read_ipv4_addr. intros H.
  assert (Hsep : forall i l v r, read_separator 46 i read_octet l = Some (v, r) -> is_u8 v).
  { intros [|i] l' v r; cbn [read_separator]; [|destruct (read_char 46 l'); [|done]];
      intros Hn; apply read_number_bound in Hn; unfold_ints; lia. }
  repeat (match type of H with context [read_separator 46 ?i read_octet ?x] =>
    destruct (read_separator 46 i read_octet x) as [[? ?]|] eqn:?; [|done] end).
  simplify_eq. split_and!; eauto.
Qed.

Lemma parse_ipv4_wf l ip : parse_ipv4 l = Some ip -> v4_wf ip.
Proof.
  unfold parse_ipv4. destruct (_ <? _)%nat; [done|]. destruct (read_ipv4_addr l) as [[? []]|] eqn:E; intros; simplify_eq.
  by eapply read_ipv4_wf.
Qed.

(** ** [Display]

    IPv6 addresses print the first longest run of at least two zero segments
    as [::], mapped addresses with their IPv4 part dotted. *)
Definition digit_char (d : Z) : Z := if d <? 10 then 48 + d else 87 + d.

Definition display_u8 (n : Z) : bytes :=
  if n <? 10 then [digit_char n]
  else if n <? 100 then [digit_char (n / 10); digit_char (n mod 10)]
  else [digit_char (n / 100); digit_char (n / 10 mod 10); digit_char (n mod 10)].

Definition display_hex (n : Z) : bytes :=
  if n <? 16 then [digit_char n]
  else if n <? 256 then [digit_char (n / 16); digit_char (n mod 16)]
  else if n <? 4096 then [digit_char (n / 256); digit_char (n / 16 mod 16); digit_char (n mod 16)]
  else [digit_char (n / 4096); digit_char (n / 256 mod 16); digit_char (n / 16 mod 16); digit_char (n mod 16)].

Fixpoint join (sep : Z) (parts : list bytes) : bytes :=
  match parts with
  | [] => []
  | [p] => p
  | p :: rest => p ++ sep :: join sep rest
  end.

Definition display_v4 (ip : Ipv4Addr) : bytes := join 46 (display_u8 <$> v4_octets ip).

(** The longest run of zeros: the scan keeps the run in progress and replaces
    the best one only by a strictly longer one. *)
Fixpoint longest_zeros (i : nat) (longest current : nat * nat) (segs : list Z) : nat * nat :=
  match segs with
  | [] => longest
  | s :: rest =>
      if s =? 0 then
        let current := if (current.2 =? 0)%nat then (i, 1%nat) else (current.1, S current.2) in
        longest_zeros (S i) (if (longest.2 <? current.2)%nat then current else longest) current rest
      else longest_zeros (S i) longest (0%nat, 0%nat) rest
  end.

Definition display_v6 (ip : Ipv6Addr) : bytes :=
  match to_ipv4_mapped ip with
  | Some v4 => [58; 58; 102; 102; 102; 102; 58] ++ display_v4 v4
  | None =>
      let segs := v6_segments ip in
      let '(start, len) := longest_zeros 0 (0%nat, 0%nat) (0%nat, 0%nat) segs in
      if (1 <? len)%nat then
        join 58 (display_hex <$> take start segs) ++ [58; 58] ++ join 58 (display_hex <$> drop (start + len) segs)
      else join 58 (display_hex <$> segs)
  end.

Definition display_ip (ip : IpAddr) : bytes :=
  match ip with V4 v4 => display_v4 v4 | V6 v6 => display_v6 v6 end.

(** ** Printing and parsing back *)
Lemma to_digit_char radix d : 0 <= d < radix -> radix <= 16 -> to_digit radix (digit_char d) = Some d.
Proof.
  intros Hd Hr. unfold to_digit, digit_char, in_range. destruct (Z.ltb_spec d 10).
  - rewrite (proj2 (Z.leb_le _ _)), (proj2 (Z.leb_le _ _)) by lia. cbn [andb]. rewrite (proj2 (Z.ltb_lt _ _)) by lia. f_equal. lia.
  - rewrite (proj2 (Z.leb_gt (87 + d) 57)), andb_false_r by lia. rewrite (proj2 (Z.leb_le _ _)), (proj2 (Z.leb_le _ _)) by lia. cbn [andb].
    rewrite (proj2 (Z.ltb_lt _ _)) by lia. f_equal. lia.
Qed.

(** The text goes on with something that is not a digit. *)
Definition ends_number (radix : Z) (rest : bytes) : Prop := match rest with [] => True | b :: _ => to_digit radix b = None end.

Lemma read_digits_stop radix acc n rest : ends_number radix rest -> read_digits radix acc n rest = (acc, n, rest).
Proof. destruct rest as [|b rest]; [done|]. cbn. by intros ->. Qed.

Lemma read_digits_step radix acc n d rest :
  0 <= d < radix -> radix <= 16 -> read_digits radix acc n (digit_char d :: rest) = read_digits radix (acc * radix + d) (S n) rest.
Proof. intros Hd Hr. cbn [read_digits]. by rewrite to_digit_char. Qed.

Lemma digit_char_not_zero d : 0 < d < 16 -> digit_char d <> 48.
Proof. unfold digit_char. destruct (Z.ltb_spec d 10); lia. Qed.

Lemma no_leading_zero (b : Z) : b <> 48 -> match b with 48 => true | _ => false end = false.
Proof. intros Hb. destruct b as [|p|p]; [done| |done]. do 6 (destruct p as [p|p|]; try done). Qed.

Ltac digits := Z.to_euclidean_division_equations; lia.

Lemma read_octet_display n rest : is_u8 n -> ends_number 10 rest -> read_octet (display_u8 n ++ rest) = Some (n, rest).
Proof.
  intros Hn Hr. unfold is_u8, u8_MAX in Hn. unfold read_octet, read_number, display_u8.
  destruct (Z.ltb_spec n 10); [|destruct (Z.ltb_spec n 100)]; cbn [app].
  2: rewrite (no_leading_zero (digit_char (n / 10))) by (apply digit_char_not_zero; digits).
  3: rewrite (no_leading_zero (digit_char (n / 100))) by (apply digit_char_not_zero; digits).
  all: repeat rewrite read_digits_step by digits; rewrite read_digits_stop by done; cbn [Nat.ltb Nat.leb Nat.eqb negb andb];
    rewrite ?andb_false_r, (proj2 (Z.ltb_ge _ _)) by digits; do 2 f_equal; digits.
Qed.

Lemma read_group_display n rest : is_u16 n -> ends_number 16 rest -> read_number 16 4 65535 true (display_hex n ++ rest) = Some (n, rest).
Proof.
  intros Hn Hr. unfold is_u16, u16_MAX in Hn. unfold read_number, display_hex.
  destruct (Z.ltb_spec n 16); [|destruct (Z.ltb_spec n 256); [|destruct (Z.ltb_spec n 4096)]]; cbn [app];
    repeat rewrite read_digits_step by digits; rewrite read_digits_stop by done; cbn [Nat.ltb Nat.leb Nat.eqb negb andb];
    rewrite (proj2 (Z.ltb_ge _ _)) by digits; do 2 f_equal; digits.
Qed.

Lemma read_ipv4_display ip rest : v4_wf ip -> ends_number 10 rest -> read_ipv4_addr (display_v4 ip ++ rest) = Some (ip, rest).
Proof.
  intros (Ha & Hb & Hc & Hd) Hr. unfold display_v4, v4_octets. cbn [fmap list_fmap join]. rewrite <- !app_assoc. cbn [app].
  unfold read_ipv4_addr, read_separator. rewrite read_octet_display by done. cbn [read_char]. rewrite Z.eqb_refl.
  rewrite <- app_assoc. cbn [app]. rewrite read_octet_display by done. cbn [read_char]. rewrite Z.eqb_refl.
  rewrite <- app_assoc. cbn [app]. rewrite read_octet_display by done. cbn [read_char]. rewrite Z.eqb_refl.
  rewrite read_octet_display by done. by destruct ip.
Qed.

(** A group is not the start of an embedded IPv4 address. *)
Definition not_dot (rest : bytes) : Prop := match rest with [] => True | b :: _ => b <> 46 end.

Lemma ends_number_weaken rest : ends_number 16 rest -> ends_number 10 rest.
Proof.
  destruct rest as [|b rest]; [done|]. cbn [ends_number]. unfold to_digit.
  set (d := if in_range 48 57 b then _ else _). destruct (Z.ltb_spec d 16); [done|]. by rewrite (proj2 (Z.ltb_ge d 10)) by lia.
Qed.

Lemma read_digits_rest_hex acc n l rest :
  Forall (fun b => exists d, 0 <= d < 16 /\ b = digit_char d) l -> ends_number 16 rest -> not_dot rest -> not_dot (read_digits 10 acc n (l ++ rest)).2.
Proof.
  revert acc n. induction l as [|b l IH]; intros acc n Hl Hr Hd.
  - cbn [app]. rewrite read_digits_stop; [done|]. by apply ends_number_weaken.
  - apply Forall_cons in Hl as [(d & Hdig & ->) Hl]. cbn [app read_digits]. destruct (to_digit 10 (digit_char d)); [by apply IH|].
    cbn. unfold digit_char. destruct (Z.ltb_spec d 10); lia.
Qed.

Lemma display_hex_digits n : is_u16 n -> Forall (fun b => exists d, 0 <= d < 16 /\ b = digit_char d) (display_hex n).
Proof.
  intros Hn. unfold is_u16, u16_MAX in Hn. unfold display_hex.
  destruct (Z.ltb_spec n 16); [|destruct (Z.ltb_spec n 256); [|destruct (Z.ltb_spec n 4096)]];
    repeat constructor; eexists; (split; [|reflexivity]); digits.
Qed.

Lemma group_not_ipv4 n rest : is_u16 n -> ends_number 16 rest -> not_dot rest -> read_ipv4_addr (display_hex n ++ rest) = None.
Proof.
  intros Hn Hr Hd. pose proof (read_digits_rest_hex 0 0 _ _ (display_hex_digits n Hn) Hr Hd) as Hrest.
  unfold read_ipv4_addr, read_separator. destruct (read_octet (display_hex n ++ rest)) as [[a r]|] eqn:E; [|done].
  unfold read_octet, read_number in E. destruct (read_digits 10 0 0 (display_hex n ++ rest)) as [[v k] r']. cbn [snd] in Hrest.
  assert (r = r') as -> by (clear -E; repeat (case_match; [done|]); by simplify_eq).
  destruct r' as [|b r']; [done|]. cbn [read_char not_dot] in *. by rewrite (proj2 (Z.eqb_neq b 46)).
Qed.

(** A list of groups, the first one behind a separator when [i] is not zero. *)
Fixpoint groups_text (i : nat) (l : list Z) : bytes :=
  match l with [] => [] | g :: l => (if (i =? 0)%nat then [] else [58]) ++ display_hex g ++ groups_text (S i) l end.

Lemma groups_text_join l : groups_text 0 l = join 58 (display_hex <$> l).
Proof.
  destruct l as [|g l]; [done|]. cbn [groups_text Nat.eqb app]. 
  assert (Hs : forall l i g, display_hex g ++ groups_text (S i) l = join 58 (display_hex <$> g :: l)).
  { clear. induction l as [|g' l IH]; intros i g; [apply app_nil_r|]. cbn [groups_text Nat.eqb app]. rewrite (IH (S i) g'). done. }
  apply Hs.
Qed.

Lemma groups_text_end i l rest : (i <> 0)%nat -> ends_number 16 rest -> not_dot rest -> ends_number 16 (groups_text i l ++ rest) /\ not_dot (groups_text i l ++ rest).
Proof. intros Hi Hr Hd. destruct l as [|g l]; [done|]. cbn [groups_text]. by rewrite (proj2 (Nat.eqb_neq i 0)). Qed.

(** What stops the reading of groups: neither a digit nor a further group. *)
Definition ends_groups (rest : bytes) : Prop :=
  ends_number 16 rest /\ not_dot rest /\ match rest with 58 :: rest => ends_number 16 rest | _ => True end.

Lemma read_group_none radix m max z rest : ends_number radix rest -> read_number radix m max z rest = None.
Proof. intros Hr. unfold read_number. rewrite read_digits_stop by done. by destruct (_ <? _)%nat. Qed.

Lemma read_groups_stop todo i limit rest : ends_groups rest -> read_groups todo i limit rest = ([], false, rest).
Proof.
  intros (Hn & Hd & Hs). destruct todo as [|todo]; [done|]. cbn [read_groups].
  assert (H4 : forall l, ends_number 16 l -> read_ipv4_addr l = None).
  { intros l Hl. unfold read_ipv4_addr, read_separator, read_octet. by rewrite read_group_none by (by apply ends_number_weaken). }
  assert (read_separator 58 i (read_number 16 4 65535 true) rest = None /\ read_separator 58 i read_ipv4_addr rest = None) as [Hg Hv].
  { destruct i as [|i]; cbn [read_separator]; [by rewrite read_group_none, H4|]. destruct rest as [|b rest]; [done|]. cbn [read_char].
    destruct (Z.eqb_spec b 58) as [->|]; [|done]. by rewrite read_group_none, H4. }
  rewrite Hg, Hv. by destruct (_ <? _)%nat.
Qed.

Lemma read_groups_text l todo i limit rest :
  Forall is_u16 l -> (length l <= todo)%nat -> (todo = length l -> ends_number 16 rest /\ not_dot rest) -> ((length l < todo)%nat -> ends_groups rest) ->
  read_groups todo i limit (groups_text i l ++ rest) = (l, false, rest).
Proof.
  revert todo i. induction l as [|g l IH]; intros todo i Hl Ht He Hs.
  { cbn [groups_text app]. destruct todo as [|todo]; [done|]. apply read_groups_stop. apply Hs. cbn. lia. }
  apply Forall_cons in Hl as [Hg Hl]. cbn [length] in *. destruct todo as [|todo]; [lia|].
  assert (ends_number 16 (groups_text (S i) l ++ rest) /\ not_dot (groups_text (S i) l ++ rest)) as [Hn Hd].
  { destruct (decide (S todo = S (length l))) as [E|]; [by apply groups_text_end; try apply He|]. destruct (Hs ltac:(lia)) as (? & ? & _). by apply groups_text_end. }
  cbn [read_groups groups_text]. rewrite <- !app_assoc.
  assert (Hsep : forall A (inner : bytes -> option (A * bytes)) l', read_separator 58 i inner ((if (i =? 0)%nat then [] else [58]) ++ l') = inner l') by (by destruct i).
  rewrite !Hsep, group_not_ipv4, read_group_display by done. rewrite IH; [by destruct (_ <? _)%nat|done|lia|intros; apply He; lia|intros; apply Hs; lia].
Qed.

(** The run the printer shortens is a run of zeros. *)
Definition zero_run (l : list Z) (run : nat * nat) : Prop := (run.1 + run.2 <= length l)%nat /\ take run.2 (drop run.1 l) = replicate run.2 0.

Lemma zero_run_app l l' run : zero_run l run -> zero_run (l ++ l') run.
Proof.
  intros [Hl Hz]. split; [rewrite length_app; lia|]. rewrite drop_app_le, take_app_le by (rewrite ?length_drop; lia). done.
Qed.

Lemma longest_zeros_run pre l longest current :
  zero_run pre longest -> zero_run pre current -> (current.2 <> 0 -> current.1 + current.2 = length pre)%nat ->
  zero_run (pre ++ l) (longest_zeros (length pre) longest current l).
Proof.
  revert pre longest current. induction l as [|s l IH]; intros pre longest current Hl Hc He; cbn [longest_zeros]; [by rewrite app_nil_r|].
  replace (pre ++ s :: l) with ((pre ++ [s]) ++ l) by (by rewrite <- app_assoc). replace (S (length pre)) with (length (pre ++ [s])) by (rewrite length_app; cbn; lia).
  destruct (Z.eqb_spec s 0) as [->|].
  - set (next := if (current.2 =? 0)%nat then _ else _).
    assert (zero_run (pre ++ [0]) next /\ (next.1 + next.2)%nat = length (pre ++ [0])) as [Hn En].
    { destruct current as [cs cn]. cbn [fst snd] in *. subst next. rewrite length_app. cbn [length].
      destruct (Nat.eqb_spec cn 0) as [->|Hne]; cbn [fst snd].
      - split; [|lia]. split; cbn [fst snd]; [rewrite length_app; cbn; lia|]. by rewrite drop_app_length.
      - specialize (He Hne). split; [|lia]. destruct Hc as [_ Hz]. cbn [fst snd] in Hz. split; cbn [fst snd]; [rewrite length_app; cbn; lia|].
        rewrite drop_app_le by lia. rewrite take_app_ge by (rewrite length_drop; lia). rewrite length_drop.
        rewrite take_ge in Hz by (rewrite length_drop; lia). rewrite Hz. replace (S cn - (length pre - cs))%nat with 1%nat by lia.
        rewrite replicate_S_end. done. }
    apply IH; [destruct (_ <? _)%nat; [done|by apply zero_run_app]|done|by intros _].
  - apply IH; [by apply zero_run_app| |done]. split; [cbn; lia|done].
Qed.

Lemma longest_zeros_split l start len :
  longest_zeros 0 (0%nat, 0%nat) (0%nat, 0%nat) l = (start, len) -> (start + len <= length l)%nat /\ l = take start l ++ replicate len 0 ++ drop (start + len) l.
Proof.
  intros E. destruct (longest_zeros_run [] l (0%nat, 0%nat) (0%nat, 0%nat)) as [Hl Hz]; [done..|]. cbn [app length] in *. rewrite E in *. cbn [fst snd] in *.
  split; [done|]. rewrite <- Hz, <- drop_drop, !take_drop. done.
Qed.

Lemma v6_of_segments_eta ip : v6_of_segments (v6_segments ip) = ip.
Proof. by destruct ip. Qed.

Lemma ends_groups_nil : ends_groups [].
Proof. done. Qed.
Lemma ends_groups_gap rest : ends_groups (58 :: 58 :: rest).
Proof. done. Qed.

Lemma to_ipv4_mapped_inv ip v4 : v6_wf ip -> to_ipv4_mapped ip = Some v4 ->
  v4_wf v4 /\ v6_segments ip = [0; 0; 0; 0; 0; 65535; v4_a v4 * 256 + v4_b v4; v4_c v4 * 256 + v4_d v4].
Proof.
  unfold v6_wf, to_ipv4_mapped. intros Hw Hm. split_in Hm; [|done]. apply Some_inj' in Hm as <-. reflect_bools.
  destruct ip as [s0 s1 s2 s3 s4 s5 s6 s7]. cbn [v6_segments seg0 seg1 seg2 seg3 seg4 seg5 seg6 seg7] in *. subst.
  repeat (apply Forall_cons in Hw as [? Hw]). unfold v4_wf, v4_of_segments. unfold_ints. cbn [v4_a v4_b v4_c v4_d seg0 seg1 seg2 seg3 seg4 seg5 seg6 seg7] in *.
  split; [split_and!; digits|].
  replace (s6 / 256 * 256 + s6 mod 256) with s6 by digits. by replace (s7 / 256 * 256 + s7 mod 256) with s7 by digits.
Qed.

(** Printing an address and parsing it back. *)
Lemma read_ipv6_display ip : v6_wf ip -> read_ipv6_addr (display_v6 ip) = Some (ip, []).
Proof.
  intros Hw. unfold display_v6. destruct (to_ipv4_mapped ip) as [v4|] eqn:Em.
  { destruct (to_ipv4_mapped_inv _ _ Hw Em) as [H4 Hs]. rewrite <- (v6_of_segments_eta ip), Hs. clear -H4.
    unfold read_ipv6_addr. change ([58; 58; 102; 102; 102; 102; 58] ++ display_v4 v4) with (58 :: 58 :: display_hex 65535 ++ [58] ++ display_v4 v4).
    rewrite read_groups_stop by apply ends_groups_gap. cbn [length Nat.eqb read_char Z.eqb Pos.eqb Nat.add Nat.sub].
    change (8 - 1)%nat with 7%nat. cbn [read_groups Nat.ltb Nat.leb Nat.sub read_separator]. rewrite group_not_ipv4, read_group_display by done.
    cbn [app read_char Z.eqb Pos.eqb]. rewrite <- (app_nil_r (display_v4 v4)), read_ipv4_display by done. done. }
  destruct (longest_zeros 0 _ _ _) as [start len] eqn:El. destruct (longest_zeros_split _ _ _ El) as [Hle Hsplit]. clear El.
  assert (Hlen : length (v6_segments ip) = 8%nat) by done. unfold v6_wf in Hw. unfold read_ipv6_addr. rewrite <- !groups_text_join.
  destruct (Nat.ltb_spec 1 len) as [H1|_].
  - rewrite read_groups_text; [|by apply Forall_take|rewrite length_take; lia|rewrite length_take; lia|intros _; apply ends_groups_gap].
    rewrite length_take. replace (start `min` length (v6_segments ip))%nat with start by lia.
    rewrite (proj2 (Nat.eqb_neq start 8)) by lia. cbn [app read_char Z.eqb Pos.eqb].
    rewrite <- (app_nil_r (groups_text 0 (drop _ _))), read_groups_text;
      [|by apply Forall_drop|rewrite length_drop; lia|rewrite length_drop; lia|intros _; apply ends_groups_nil].
    rewrite length_drop. replace (8 - start - (length (v6_segments ip) - (start + len)))%nat with len by lia.
    by rewrite <- Hsplit, v6_of_segments_eta.
  - rewrite <- (app_nil_r (groups_text 0 _)), read_groups_text; [|done|lia|done|lia]. rewrite Hlen. cbn [Nat.eqb]. by rewrite v6_of_segments_eta.
Qed.

Lemma parse_display_v6 ip : v6_wf ip -> parse_ipv6 (display_v6 ip) = Some ip.
Proof. intros Hw. unfold parse_ipv6. by rewrite read_ipv6_display. Qed.

Lemma display_u8_length n : (length (display_u8 n) <= 3)%nat.
Proof. unfold display_u8. destruct (n <? 10); [|destruct (n <? 100)]; cbn [length]; lia. Qed.

Lemma parse_display_v4 ip : v4_wf ip -> parse_ipv4 (display_v4 ip) = Some ip.
Proof.
  intros Hw. unfold parse_ipv4. rewrite (proj2 (Nat.ltb_ge _ _)).
  - rewrite <- (app_nil_r (display_v4 ip)), read_ipv4_display by done. done.
  - unfold display_v4, v4_octets. cbn [fmap list_fmap join]. repeat (rewrite length_app || cbn [length]).
    pose proof (display_u8_length (v4_a ip)). pose proof (display_u8_length (v4_b ip)). pose proof (display_u8_length (v4_c ip)). pose proof (display_u8_length (v4_d ip)). lia.
Qed.

Lemma display_v6_reads_no_v4 ip : v6_wf ip -> read_ipv4_addr (display_v6 ip) = None.
Proof.
  intros Hw.
  unfold display_v6. destruct (to_ipv4_mapped ip); [done|]. unfold v6_wf in Hw. destruct (longest_zeros 0 _ _ _) as [start len].
  assert (Hj : forall l, Forall is_u16 l -> (1 < length l)%nat -> read_ipv4_addr (groups_text 0 l) = None).
  { intros [|g [|g' l]] Hl Hn; cbn in Hn; [lia..|]. apply Forall_cons in Hl as [Hg Hl]. cbn [groups_text Nat.eqb app]. by apply group_not_ipv4. }
  rewrite <- !groups_text_join. destruct (_ <? _)%nat; [|apply Hj; [done|cbn; lia]].
  destruct (take start (v6_segments ip)) as [|g l] eqn:Et; [done|]. pose proof (Forall_take _ start _ Hw) as Hf. rewrite Et in Hf. apply Forall_cons in Hf as [Hg Hf].
  cbn [groups_text Nat.eqb app]. rewrite <- app_assoc. destruct l; by apply group_not_ipv4.
Qed.

Lemma display_v6_not_v4 ip : v6_wf ip -> parse_ipv4 (display_v6 ip) = None.
Proof. intros Hw. unfold parse_ipv4. destruct (_ <? _)%nat; [done|]. by rewrite display_v6_reads_no_v4. Qed.
