(* ===== verification/ExitPolicy.v ===== *)
(** * Exit policy (src/kernel/exit_policy.rs)

    Which destinations an exit relay may open connections to. Resolution and
    connecting are the outside world: the addresses DNS returned and the
    outcome of each connection attempt are arguments. Lower-casing a string
    with non-ASCII characters needs the Unicode tables and is the parameter
    [unicode_lowercase]. *)
From Stdlib Require Import Btauto.
From S2P Require Import Prelude Text Net.

(** ** Data *)
Record ExitPolicy := mkExitPolicy {
  allow_private_networks : bool;
  blocked_ports : list Z;
  connect_timeout : Z;
}.

Definition DEFAULT_CONNECT_TIMEOUT : Z := 10.

Definition default_blocked_ports : list Z :=
  [25; 135; 137; 138; 139; 445; 22; 2375; 2376; 3306; 5432; 6379; 9200; 11211; 27017].

Definition ExitPolicy_default : ExitPolicy :=
  {| allow_private_networks := false; blocked_ports := default_blocked_ports;
     connect_timeout := DEFAULT_CONNECT_TIMEOUT |}.

Definition ExitPolicy_new (allow : bool) : ExitPolicy :=
  {| allow_private_networks := allow; blocked_ports := default_blocked_ports;
     connect_timeout := DEFAULT_CONNECT_TIMEOUT |}.

Definition ExitPolicy_with_timeout (allow : bool) (timeout : Z) : ExitPolicy :=
  {| allow_private_networks := allow; blocked_ports := default_blocked_ports; connect_timeout := timeout |}.

(** ** Address checks *)
Definition is_ipv4_permitted (ip : Ipv4Addr) : bool :=
  let o0 := v4_a ip in let o1 := v4_b ip in let o2 := v4_c ip in let o3 := v4_d ip in
  if v4_is_loopback ip || (o0 =? 127) then false
  else if v4_is_unspecified ip || (o0 =? 0) then false
  else if v4_is_link_local ip || ((o0 =? 169) && (o1 =? 254)) then false
  else if o0 =? 10 then false
  else if (o0 =? 172) && ((16 <=? o1) && (o1 <=? 31)) then false
  else if (o0 =? 192) && (o1 =? 168) then false
  else if v4_is_multicast ip || ((224 <=? o0) && (o0 <=? 239)) then false
  else if v4_is_broadcast ip || ((o0 =? 255) && (o1 =? 255) && (o2 =? 255) && (o3 =? 255)) then false
  else if (o0 =? 100) && ((64 <=? o1) && (o1 <=? 127)) then false
  else if (o0 =? 192) && (o1 =? 0) && (o2 =? 2) then false
  else if (o0 =? 198) && (o1 =? 51) && (o2 =? 100) then false
  else if (o0 =? 203) && (o1 =? 0) && (o2 =? 113) then false
  else if Z.land o0 240 =? 240 then false
  else if (o0 =? 192) && (o1 =? 0) && (o2 =? 0) then false
  else if (o0 =? 198) && (Z.land o1 254 =? 18) then false
  else true.

(** [Ipv4Addr::new((hi >> 8) as u8, hi as u8, (lo >> 8) as u8, lo as u8)]. *)
Definition embedded_v4 (hi lo : Z) : Ipv4Addr :=
  mkIpv4 (Z.land (Z.shiftr hi 8) 255) (Z.land hi 255) (Z.land (Z.shiftr lo 8) 255) (Z.land lo 255).

Definition is_ipv6_permitted (ip : Ipv6Addr) : bool :=
  if v6_is_loopback ip then false
  else if v6_is_unspecified ip then false
  else if v6_is_multicast ip then false
  else if Z.land (seg0 ip) 65472 =? 65152 then false
  else if Z.land (seg0 ip) 65024 =? 64512 then false
  else
    match to_ipv4 ip with
    | Some v4 => is_ipv4_permitted v4
    | None =>
        if (seg0 ip =? 100) && (seg1 ip =? 65435) && (seg2 ip =? 0) && (seg3 ip =? 0) && (seg4 ip =? 0)
           && (seg5 ip =? 0) then is_ipv4_permitted (embedded_v4 (seg6 ip) (seg7 ip))
        else if (seg0 ip =? 100) && (seg1 ip =? 65435) && (seg2 ip =? 1) then false
        else if seg0 ip =? 8194 then is_ipv4_permitted (embedded_v4 (seg1 ip) (seg2 ip))
        else if (seg0 ip =? 8193) && (seg1 ip =? 0) then false
        else if (seg0 ip =? 8193) && (seg1 ip =? 3512) then false
        else if (seg0 ip =? 8193) && (Z.land (seg1 ip) 65520 =? 32) then false
        else if (seg0 ip =? 256) && (seg1 ip =? 0) && (seg2 ip =? 0) && (seg3 ip =? 0) then false
        else true
    end.

Definition is_ip_permitted (self : ExitPolicy) (ip : IpAddr) : bool :=
  if allow_private_networks self then true
  else match ip with V4 v4 => is_ipv4_permitted v4 | V6 v6 => is_ipv6_permitted v6 end.

(** ** Host names *)

(** [char::is_whitespace] at the front of a UTF-8 string: how many bytes the
    first character has if it is white space, else 0. *)
Definition whitespace_len (l : bytes) : nat :=
  match l with
  | 194 :: b :: _ => if (b =? 133) || (b =? 160) then 2%nat else 0%nat
  | 225 :: 154 :: 128 :: _ => 3%nat
  | 226 :: 128 :: b :: _ => if in_range 128 138 b || (b =? 168) || (b =? 169) || (b =? 175) then 3%nat else 0%nat
  | 226 :: 129 :: 159 :: _ => 3%nat
  | 227 :: 128 :: 128 :: _ => 3%nat
  | b :: _ => if in_range 9 13 b || (b =? 32) then 1%nat else 0%nat
  | [] => 0%nat
  end.

(** The same at the back, on the reversed string. *)
Definition whitespace_len_rev (l : bytes) : nat :=
  match l with
  | b :: 194 :: _ => if (b =? 133) || (b =? 160) then 2%nat else 0%nat
  | 128 :: 154 :: 225 :: _ => 3%nat
  | 159 :: 129 :: 226 :: _ => 3%nat
  | 128 :: 128 :: 227 :: _ => 3%nat
  | b :: 128 :: 226 :: _ => if in_range 128 138 b || (b =? 168) || (b =? 169) || (b =? 175) then 3%nat else 0%nat
  | b :: _ => if in_range 9 13 b || (b =? 32) then 1%nat else 0%nat
  | [] => 0%nat
  end.

Fixpoint trim_with (wlen : bytes -> nat) (fuel : nat) (l : bytes) : bytes :=
  match fuel with
  | O => l
  | S fuel' => match wlen l with O => l | n => trim_with wlen fuel' (drop n l) end
  end.

Definition trim (l : bytes) : bytes :=
  let l := trim_with whitespace_len (length l) l in
  rev (trim_with whitespace_len_rev (length l) (rev l)).

Definition ascii_lower (b : Z) : Z := if in_range 65 90 b then b + 32 else b.

Definition ends_with (l suffix : bytes) : bool :=
  (length suffix <=? length l)%nat && bool_decide (drop (length l - length suffix) l = suffix).

Section Policy.
Context (unicode_lowercase : bytes -> bytes).

Definition to_lowercase (l : bytes) : bytes := if is_ascii l then ascii_lower <$> l else unicode_lowercase l.

Definition is_permitted (self : ExitPolicy) (host : bytes) (port : Z) : bool :=
  if bool_decide (port ∈ blocked_ports self) then false
  else
    let lower := to_lowercase (trim host) in
    if ends_with lower (str ".onion") then false
    else if allow_private_networks self then true
    else if bool_decide (lower = str "localhost")
         || ends_with lower (str ".localhost")
         || ends_with lower (str ".local")
         || ends_with lower (str ".internal")
         || ends_with lower (str ".onion")
         || bool_decide (lower = str "metadata.google.internal")
         || bool_decide (lower = str "instance-data") then false
    else
      match parse_ip host with
      | Some ip => is_ip_permitted self ip
      | None => true
      end.

Definition is_exit_target_permitted (host : bytes) (port : Z) : bool := is_permitted ExitPolicy_default host port.

(** ** Connecting *)
Inductive ConnectError :=
| PolicyDenied
| ResolvedIpDenied (ip : IpAddr)
| DnsTimedOut
| DnsFailed
| NoDestinationAddresses
| ConnectTimedOut
| ConnectFailed (ip : IpAddr).

(** What the network does with a connection attempt. *)
Inductive Attempt := Connected | Refused | TimedOut.

Fixpoint validate_resolved_ips (self : ExitPolicy) (ips : list IpAddr) : result ConnectError unit :=
  match ips with
  | [] => Ok tt
  | ip :: rest =>
      if negb (is_ip_permitted self ip) then Err (ResolvedIpDenied ip) else validate_resolved_ips self rest
  end.

(** The attempts made, in order, and how the loop ends. *)
Fixpoint connect_loop (connect : IpAddr -> Attempt) (last : ConnectError) (addrs : list IpAddr)
    : list IpAddr * result ConnectError IpAddr :=
  match addrs with
  | [] => ([], Err last)
  | a :: rest =>
      match connect a with
      | Connected => ([a], Ok a)
      | Refused => let '(tried, r) := connect_loop connect (ConnectFailed a) rest in (a :: tried, r)
      | TimedOut => ([a], Err ConnectTimedOut)
      end
  end.

Definition connect_resolved (self : ExitPolicy) (connect : IpAddr -> Attempt) (addrs : list IpAddr)
    : list IpAddr * result ConnectError IpAddr :=
  match validate_resolved_ips self addrs with
  | Err e => ([], Err e)
  | Ok _ => connect_loop connect NoDestinationAddresses addrs
  end.

(** [dns] is the resolver's answer: [None] when it timed out or failed. *)
Definition resolve_and_connect (self : ExitPolicy) (host : bytes) (port : Z)
    (dns : option (option (list IpAddr))) (connect : IpAddr -> Attempt) : list IpAddr * result ConnectError IpAddr :=
  if negb (is_permitted self host port) then ([], Err PolicyDenied)
  else
    match dns with
    | None => ([], Err DnsTimedOut)
    | Some None => ([], Err DnsFailed)
    | Some (Some addrs) => connect_resolved self connect addrs
    end.
End Policy.

(** ** Specification: special-purpose address blocks

    The blocks as (base address, prefix length), independent of how the code
    tests for them. *)
Definition v4_int (ip : Ipv4Addr) : Z := v4_a ip * 2 ^ 24 + v4_b ip * 2 ^ 16 + v4_c ip * 2 ^ 8 + v4_d ip.
Definition segs_int (l : list Z) : Z := fold_left (fun acc s => acc * 65536 + s) l 0.
Definition v6_int (ip : Ipv6Addr) : Z := segs_int (v6_segments ip).

Definition in_block4 (ip : Ipv4Addr) (block : Ipv4Addr * Z) : bool :=
  v4_int ip / 2 ^ (32 - block.2) =? v4_int block.1 / 2 ^ (32 - block.2).
Definition in_block6 (ip : Ipv6Addr) (block : Ipv6Addr * Z) : bool :=
  v6_int ip / 2 ^ (128 - block.2) =? v6_int block.1 / 2 ^ (128 - block.2).

Definition special_v4 : list (Ipv4Addr * Z) :=
  [(mkIpv4 127 0 0 0, 8);        (* loopback *)
   (mkIpv4 0 0 0 0, 8);          (* this network *)
   (mkIpv4 169 254 0 0, 16);     (* link local, cloud metadata *)
   (mkIpv4 10 0 0 0, 8);         (* private *)
   (mkIpv4 172 16 0 0, 12);      (* private *)
   (mkIpv4 192 168 0 0, 16);     (* private *)
   (mkIpv4 224 0 0 0, 4);        (* multicast *)
   (mkIpv4 240 0 0 0, 4);        (* reserved, broadcast *)
   (mkIpv4 100 64 0 0, 10);      (* carrier-grade NAT *)
   (mkIpv4 192 0 2 0, 24);       (* documentation *)
   (mkIpv4 198 51 100 0, 24);    (* documentation *)
   (mkIpv4 203 0 113 0, 24);     (* documentation *)
   (mkIpv4 192 0 0 0, 24);       (* protocol assignments *)
   (mkIpv4 198 18 0 0, 15)].     (* benchmarking *)

Definition special_v6 : list (Ipv6Addr * Z) :=
  [(mkIpv6 0 0 0 0 0 0 0 1, 128);           (* loopback *)
   (mkIpv6 0 0 0 0 0 0 0 0, 128);           (* unspecified *)
   (mkIpv6 65280 0 0 0 0 0 0 0, 8);         (* multicast, ff00::/8 *)
   (mkIpv6 65152 0 0 0 0 0 0 0, 10);        (* link local, fe80::/10 *)
   (mkIpv6 64512 0 0 0 0 0 0 0, 7);         (* unique local, fc00::/7 *)
   (mkIpv6 100 65435 1 0 0 0 0 0, 48);      (* local-use NAT64, 64:ff9b:1::/48 *)
   (mkIpv6 8193 0 0 0 0 0 0 0, 32);         (* Teredo, 2001::/32 *)
   (mkIpv6 8193 3512 0 0 0 0 0 0, 32);      (* documentation, 2001:db8::/32 *)
   (mkIpv6 8193 32 0 0 0 0 0 0, 28);        (* ORCHIDv2, 2001:20::/28 *)
   (mkIpv6 256 0 0 0 0 0 0 0, 64)].         (* discard only, 100::/64 *)

(** Blocks whose addresses carry an IPv4 address, and where. *)
Definition embedded_address (ip : Ipv6Addr) : option Ipv4Addr :=
  if in_block6 ip (mkIpv6 0 0 0 0 0 0 0 0, 96) || in_block6 ip (mkIpv6 0 0 0 0 0 65535 0 0, 96)
     || in_block6 ip (mkIpv6 100 65435 0 0 0 0 0 0, 96)
  then Some (v4_of_segments (seg6 ip) (seg7 ip))
  else if in_block6 ip (mkIpv6 8194 0 0 0 0 0 0 0, 16) then Some (v4_of_segments (seg1 ip) (seg2 ip))
  else None.

Definition public_v4 (ip : Ipv4Addr) : bool := negb (existsb (in_block4 ip) special_v4).
Definition public_v6 (ip : Ipv6Addr) : bool :=
  negb (existsb (in_block6 ip) special_v6)
  && match embedded_address ip with Some v4 => public_v4 v4 | None => true end.

(** ** Lemmas *)

(** A boolean fact about bytes, by evaluation. *)
Lemma u8_check (P : Z -> bool) : forallb P (seqZ 0 256) = true -> forall x, is_u8 x -> P x = true.
Proof.
  intros H x Hx. rewrite forallb_forall in H. apply H. apply list_elem_of_In, elem_of_seqZ. unfold_ints. lia.
Qed.

Lemma land_240 x : is_u8 x -> (Z.land x 240 =? 240) = (240 <=? x).
Proof. intros Hx. apply eqb_prop. revert x Hx. apply u8_check. vm_compute. reflexivity. Qed.

Lemma land_254 x : is_u8 x -> (Z.land x 254 =? 18) = ((18 <=? x) && (x <=? 19)).
Proof. intros Hx. apply eqb_prop. revert x Hx. apply u8_check. vm_compute. reflexivity. Qed.

Ltac block4 := unfold in_block4, v4_int; cbn [fst snd v4_a v4_b v4_c v4_d];
  repeat match goal with |- context [2 ^ ?n] => let v := eval vm_compute in (2 ^ n) in change (2 ^ n) with v end.

Lemma block4_8 ip a : v4_wf ip -> in_block4 ip (mkIpv4 a 0 0 0, 8) = (v4_a ip =? a).
Proof. intros (Ha & Hb & Hc & Hd). unfold_ints. block4. apply eq_true_iff_eq. rewrite !Z.eqb_eq. Z.to_euclidean_division_equations. lia. Qed.

Lemma block4_16 ip a b : v4_wf ip -> is_u8 b -> in_block4 ip (mkIpv4 a b 0 0, 16) = (v4_a ip =? a) && (v4_b ip =? b).
Proof.
  intros (Ha & Hb & Hc & Hd) Hb'. unfold_ints. block4. apply eq_true_iff_eq. rewrite andb_true_iff, !Z.eqb_eq. Z.to_euclidean_division_equations. lia.
Qed.

Lemma block4_24 ip a b c :
  v4_wf ip -> is_u8 b -> is_u8 c ->
  in_block4 ip (mkIpv4 a b c 0, 24) = (v4_a ip =? a) && (v4_b ip =? b) && (v4_c ip =? c).
Proof.
  intros (Ha & Hb & Hc & Hd) Hb' Hc'. unfold_ints. block4. apply eq_true_iff_eq.
  rewrite !andb_true_iff, !Z.eqb_eq. Z.to_euclidean_division_equations. lia.
Qed.

Lemma block4_172 ip : v4_wf ip -> in_block4 ip (mkIpv4 172 16 0 0, 12) = (v4_a ip =? 172) && ((16 <=? v4_b ip) && (v4_b ip <=? 31)).
Proof.
  intros (Ha & Hb & Hc & Hd). unfold_ints. block4. apply eq_true_iff_eq.
  rewrite !andb_true_iff, !Z.leb_le, !Z.eqb_eq. Z.to_euclidean_division_equations. lia.
Qed.

Lemma block4_224 ip : v4_wf ip -> in_block4 ip (mkIpv4 224 0 0 0, 4) = (224 <=? v4_a ip) && (v4_a ip <=? 239).
Proof.
  intros (Ha & Hb & Hc & Hd). unfold_ints. block4. apply eq_true_iff_eq.
  rewrite !andb_true_iff, !Z.leb_le, !Z.eqb_eq. Z.to_euclidean_division_equations. lia.
Qed.

Lemma block4_240 ip : v4_wf ip -> in_block4 ip (mkIpv4 240 0 0 0, 4) = (240 <=? v4_a ip).
Proof.
  intros (Ha & Hb & Hc & Hd). unfold_ints. block4. apply eq_true_iff_eq.
  rewrite !Z.leb_le, !Z.eqb_eq. Z.to_euclidean_division_equations. lia.
Qed.

Lemma block4_100 ip : v4_wf ip -> in_block4 ip (mkIpv4 100 64 0 0, 10) = (v4_a ip =? 100) && ((64 <=? v4_b ip) && (v4_b ip <=? 127)).
Proof.
  intros (Ha & Hb & Hc & Hd). unfold_ints. block4. apply eq_true_iff_eq.
  rewrite !andb_true_iff, !Z.leb_le, !Z.eqb_eq. Z.to_euclidean_division_equations. lia.
Qed.

Lemma block4_198 ip : v4_wf ip -> in_block4 ip (mkIpv4 198 18 0 0, 15) = (v4_a ip =? 198) && ((18 <=? v4_b ip) && (v4_b ip <=? 19)).
Proof.
  intros (Ha & Hb & Hc & Hd). unfold_ints. block4. apply eq_true_iff_eq.
  rewrite !andb_true_iff, !Z.leb_le, !Z.eqb_eq. Z.to_euclidean_division_equations. lia.
Qed.

Lemma if_false (c r : bool) : (if c then false else r) = negb c && r.
Proof. by destruct c. Qed.

Lemma ipv4_permitted_public ip : v4_wf ip -> is_ipv4_permitted ip = public_v4 ip.
Proof.
  intros Hwf. unfold public_v4, special_v4. cbn [existsb].
  rewrite !block4_8, !block4_16, !block4_24, block4_172, block4_224, block4_240, block4_100, block4_198
    by (done || unfold_ints; lia).
  unfold is_ipv4_permitted, v4_is_loopback, v4_is_unspecified, v4_is_link_local, v4_is_multicast, v4_is_broadcast.
  destruct Hwf as (Ha & Hb & Hc & Hd). rewrite land_240, land_254, !if_false by done.
  destruct (Z.leb_spec 240 (v4_a ip)); [btauto|].
  assert (Hbc : (v4_a ip =? 255) = false) by (apply Z.eqb_neq; lia). rewrite Hbc. btauto.
Qed.

(** *** IPv6 *)
Lemma segs_int_app l1 l2 : segs_int (l1 ++ l2) = segs_int l1 * 65536 ^ Z.of_nat (length l2) + segs_int l2.
Proof.
  induction l2 as [|s l2 IH] using rev_ind.
  - rewrite app_nil_r. cbn [length]. change (65536 ^ Z.of_nat 0) with 1. unfold segs_int at 3. cbn. lia.
  - rewrite app_assoc. assert (Hs : forall l, segs_int (l ++ [s]) = segs_int l * 65536 + s)
      by (intros l; unfold segs_int; by rewrite fold_left_app).
    rewrite !Hs, IH, length_app, Nat.add_1_r, Nat2Z.inj_succ, Z.pow_succ_r by lia. lia.
Qed.

Lemma segs_int_bound l : Forall is_u16 l -> 0 <= segs_int l < 65536 ^ Z.of_nat (length l).
Proof.
  induction l as [|s l IH] using rev_ind; intros Hl; [unfold segs_int; cbn; lia|].
  apply Forall_app in Hl as [Hl Hs]. apply Forall_cons_1 in Hs as [Hs _]. specialize (IH Hl).
  rewrite segs_int_app, length_app, Nat.add_1_r, Nat2Z.inj_succ, Z.pow_succ_r by lia. cbn [length].
  change (65536 ^ Z.of_nat 1) with 65536. unfold segs_int at 2 4. cbn. unfold_ints. lia.
Qed.

Lemma segs_int_inj l1 l2 :
  length l1 = length l2 -> Forall is_u16 l1 -> Forall is_u16 l2 -> segs_int l1 = segs_int l2 -> l1 = l2.
Proof.
  revert l2. induction l1 as [|s1 l1 IH]; intros [|s2 l2] Hl H1 H2 E; try done.
  apply Forall_cons in H1 as [Hs1 H1], H2 as [Hs2 H2]. injection Hl as Hl.
  change (s1 :: l1) with ([s1] ++ l1) in E. change (s2 :: l2) with ([s2] ++ l2) in E.
  rewrite !segs_int_app, Hl in E. pose proof (segs_int_bound l1 H1). pose proof (segs_int_bound l2 H2). rewrite Hl in *.
  unfold segs_int in E at 1 3. cbn [fold_left] in E. rewrite !Z.mul_0_l, !Z.add_0_l in E.
  assert (s1 = s2) as -> by nia. f_equal. apply IH; try done. lia.
Qed.

(** A prefix of whole segments, less [k] bits. *)
Lemma in_block6_prefix ip base n k len :
  v6_wf ip -> v6_wf base -> (n <= 8)%nat -> 0 <= k <= 16 -> len = 16 * Z.of_nat n - k ->
  in_block6 ip (base, len) =
    (segs_int (take n (v6_segments ip)) / 2 ^ k =? segs_int (take n (v6_segments base)) / 2 ^ k).
Proof.
  intros Hip Hbase Hn Hk ->. unfold in_block6. cbn [fst snd].
  assert (Hdiv : forall x, v6_wf x -> v6_int x / 2 ^ (128 - (16 * Z.of_nat n - k)) = segs_int (take n (v6_segments x)) / 2 ^ k).
  { intros x Hx. unfold v6_int. rewrite <- (take_drop n (v6_segments x)) at 1. rewrite segs_int_app.
    assert (Hl : length (drop n (v6_segments x)) = (8 - n)%nat) by (rewrite length_drop; done).
    pose proof (segs_int_bound (drop n (v6_segments x)) (Forall_drop _ _ _ Hx)) as Hb. rewrite Hl in *.
    replace (2 ^ (128 - (16 * Z.of_nat n - k))) with (65536 ^ Z.of_nat (8 - n) * 2 ^ k).
    - rewrite <- Z.div_div by lia. rewrite Z.div_add_l by lia. rewrite (Z.div_small (segs_int (drop _ _))) by done.
      by rewrite Z.add_0_r.
    - change 65536 with (2 ^ 16). rewrite <- Z.pow_mul_r, <- Z.pow_add_r by lia. f_equal. lia. }
  by rewrite !Hdiv.
Qed.

Lemma in_block6_whole ip base n len :
  v6_wf ip -> v6_wf base -> (n <= 8)%nat -> len = 16 * Z.of_nat n ->
  in_block6 ip (base, len) = bool_decide (take n (v6_segments ip) = take n (v6_segments base)).
Proof.
  intros Hip Hbase Hn ->. rewrite (in_block6_prefix _ _ n 0) by (done || lia). change (2 ^ 0) with 1. rewrite !Z.div_1_r.
  case_bool_decide as E; [rewrite E; apply Z.eqb_refl|]. apply Z.eqb_neq. intros E'. apply E.
  apply segs_int_inj; [by rewrite !length_take|by apply Forall_take..|done].
Qed.

Lemma bool_decide_segs a b l l' : bool_decide (a :: l = b :: l') = (a =? b) && bool_decide (l = l').
Proof.
  apply eq_true_iff_eq. rewrite andb_true_iff, !bool_decide_eq_true, Z.eqb_eq. split; [by intros [=]|by intros [-> ->]].
Qed.

Lemma land_mask x n k :
  0 <= k -> 0 <= n -> 0 <= x < 2 ^ (n + k) -> Z.land x (Z.shiftl (Z.ones n) k) = x / 2 ^ k * 2 ^ k.
Proof.
  intros Hk Hn Hx. rewrite <- Z.shiftr_div_pow2, <- Z.shiftl_mul_pow2 by lia. apply Z.bits_inj'. intros i Hi.
  rewrite Z.land_spec, !Z.shiftl_spec by lia. destruct (decide (i < k)).
  - by rewrite !(Z.testbit_neg_r _ (i - k)), andb_false_r by lia.
  - rewrite Z.shiftr_spec by lia. replace (i - k + k) with i by lia. rewrite Z.testbit_ones_nonneg by lia.
    destruct (Z.ltb_spec (i - k) n); [by rewrite andb_true_r|]. rewrite andb_false_r. symmetry.
    rewrite <- (Z.mod_small x (2 ^ (n + k))) by done. apply Z.mod_pow2_bits_high. lia.
Qed.

(** The mask tests of the code against prefix tests. *)
Lemma mask_test x n k v :
  0 <= k -> 0 <= n -> n + k = 16 -> is_u16 x -> (Z.land x (Z.shiftl (Z.ones n) k) =? v * 2 ^ k) = (x / 2 ^ k =? v).
Proof.
  intros Hk Hn Hs Hx. rewrite land_mask by (rewrite ?Hs; change (2 ^ 16) with 65536; unfold_ints; lia).
  assert (0 < 2 ^ k) by (apply Z.pow_pos_nonneg; lia). apply eq_true_iff_eq. rewrite !Z.eqb_eq. nia.
Qed.

Lemma embedded_v4_of_segments hi lo : is_u16 hi -> is_u16 lo -> embedded_v4 hi lo = v4_of_segments hi lo.
Proof.
  intros Hh Hl. unfold embedded_v4, v4_of_segments. change 255 with (Z.ones 8).
  rewrite !Z.land_ones, !Z.shiftr_div_pow2 by lia. change (2 ^ 8) with 256. unfold_ints.
  rewrite !(Z.mod_small (_ / 256)) by (Z.to_euclidean_division_equations; lia). done.
Qed.

Lemma v4_of_segments_wf hi lo : is_u16 hi -> is_u16 lo -> v4_wf (v4_of_segments hi lo).
Proof. intros. unfold v4_wf, v4_of_segments. cbn. unfold_ints. split_and!; Z.to_euclidean_division_equations; lia. Qed.

(** Whole-segment blocks as the segment comparisons of the code. *)
Ltac block6 n :=
  rewrite (in_block6_whole _ _ n) by (done || lia || (repeat constructor; cbn; unfold_ints; lia));
  unfold v6_segments; cbn [take seg0 seg1 seg2 seg3 seg4 seg5 seg6 seg7];
  rewrite ?bool_decide_segs; change (bool_decide (@nil Z = [])) with true; rewrite ?andb_true_r, ?andb_assoc.

Lemma block6_128 ip last :
  v6_wf ip -> is_u16 last ->
  in_block6 ip (mkIpv6 0 0 0 0 0 0 0 last, 128) =
    (seg0 ip =? 0) && (seg1 ip =? 0) && (seg2 ip =? 0) && (seg3 ip =? 0) && (seg4 ip =? 0) && (seg5 ip =? 0)
    && (seg6 ip =? 0) && (seg7 ip =? last).
Proof. intros Hip Hl. block6 8%nat. done. Qed.

Lemma block6_96 ip a b f :
  v6_wf ip -> is_u16 a -> is_u16 b -> is_u16 f ->
  in_block6 ip (mkIpv6 a b 0 0 0 f 0 0, 96) =
    (seg0 ip =? a) && (seg1 ip =? b) && (seg2 ip =? 0) && (seg3 ip =? 0) && (seg4 ip =? 0) && (seg5 ip =? f).
Proof. intros Hip ? ? ?. block6 6%nat. done. Qed.

Lemma block6_64 ip a :
  v6_wf ip -> is_u16 a ->
  in_block6 ip (mkIpv6 a 0 0 0 0 0 0 0, 64) = (seg0 ip =? a) && (seg1 ip =? 0) && (seg2 ip =? 0) && (seg3 ip =? 0).
Proof. intros Hip ?. block6 4%nat. done. Qed.

Lemma block6_48 ip a b c :
  v6_wf ip -> is_u16 a -> is_u16 b -> is_u16 c ->
  in_block6 ip (mkIpv6 a b c 0 0 0 0 0, 48) = (seg0 ip =? a) && (seg1 ip =? b) && (seg2 ip =? c).
Proof. intros Hip ? ? ?. block6 3%nat. done. Qed.

Lemma block6_32 ip a b :
  v6_wf ip -> is_u16 a -> is_u16 b -> in_block6 ip (mkIpv6 a b 0 0 0 0 0 0, 32) = (seg0 ip =? a) && (seg1 ip =? b).
Proof. intros Hip ? ?. block6 2%nat. done. Qed.

Lemma block6_16 ip a :
  v6_wf ip -> is_u16 a -> in_block6 ip (mkIpv6 a 0 0 0 0 0 0 0, 16) = (seg0 ip =? a).
Proof. intros Hip ?. block6 1%nat. done. Qed.

Lemma segs_int_1 a : segs_int [a] = a.
Proof. unfold segs_int. cbn. lia. Qed.

Lemma block6_first ip a len n k :
  v6_wf ip -> is_u16 a -> 0 <= k -> 0 <= n -> n + k = 16 -> len = n -> a mod 2 ^ k = 0 ->
  in_block6 ip (mkIpv6 a 0 0 0 0 0 0 0, len) = (Z.land (seg0 ip) (Z.shiftl (Z.ones n) k) =? a).
Proof.
  intros Hip Ha Hk Hn Hs -> Hm. rewrite (in_block6_prefix _ _ 1 k) by
    (done || lia || (repeat constructor; cbn; unfold_ints; lia)).
  unfold v6_segments. cbn [take seg0]. rewrite !segs_int_1.
  assert (a = a / 2 ^ k * 2 ^ k) as E by (pose proof (Z.div_mod a (2 ^ k)); lia).
  rewrite E at 2. rewrite mask_test; [done|lia|lia|lia|]. by apply Forall_cons in Hip as [? _].
Qed.

Lemma block6_orchid ip :
  v6_wf ip ->
  in_block6 ip (mkIpv6 8193 32 0 0 0 0 0 0, 28) = (seg0 ip =? 8193) && (Z.land (seg1 ip) 65520 =? 32).
Proof.
  intros Hip. rewrite (in_block6_prefix _ _ 2 4) by (done || lia || (repeat constructor; cbn; unfold_ints; lia)).
  assert (H1 : is_u16 (seg1 ip)) by (apply Forall_cons in Hip as [_ Hip]; by apply Forall_cons in Hip as [? _]).
  change 65520 with (Z.shiftl (Z.ones 12) 4). change 32 with (2 * 2 ^ 4) at 2. rewrite mask_test by (done || lia).
  unfold v6_segments, segs_int. cbn [take fold_left seg0 seg1]. change (2 ^ 4) with 16.
  apply eq_true_iff_eq. rewrite andb_true_iff, !Z.eqb_eq. unfold_ints. Z.to_euclidean_division_equations. lia.
Qed.

Lemma match_if {A B} (c : bool) (a : A) (o : option A) (f : A -> B) (d : B) :
  match (if c then Some a else o) with Some v => f v | None => d end =
  if c then f a else match o with Some v => f v | None => d end.
Proof. by destruct c. Qed.

(** Evaluate the comparisons whose left side is a constant, then the connectives. *)
Ltac ground_test a b :=
  let v := eval vm_compute in (a =? b) in change (a =? b) with v.
Ltac ground_tests :=
  repeat match goal with
  | |- context [Z0 =? ?b] => ground_test Z0 b
  | |- context [Zpos ?p =? ?b] => ground_test (Zpos p) b
  | |- context [Z.land Z0 ?m =? ?b] => ground_test (Z.land Z0 m) b
  | |- context [Z.land (Zpos ?p) ?m =? ?b] => ground_test (Z.land (Zpos p) m) b
  end;
  cbn [andb orb negb].

Lemma ipv6_permitted_public ip : v6_wf ip -> is_ipv6_permitted ip = public_v6 ip.
Proof.
  intros Hip. unfold public_v6, embedded_address, special_v6. cbn [existsb].
  rewrite !block6_128, !block6_96, block6_64, !block6_48, !block6_32, block6_orchid, block6_16 by
    (done || unfold_ints; lia).
  rewrite (block6_first ip 65280 8 8 8), (block6_first ip 65152 10 10 6), (block6_first ip 64512 7 7 9) by
    (done || lia || unfold_ints; lia).
  change (Z.shiftl (Z.ones 8) 8) with 65280. change (Z.shiftl (Z.ones 10) 6) with 65472.
  change (Z.shiftl (Z.ones 7) 9) with 65024.
  unfold is_ipv6_permitted, v6_is_loopback, v6_is_unspecified, v6_is_multicast, to_ipv4.
  pose proof Hip as Hsegs. unfold v6_wf, v6_segments in Hsegs. rewrite !Forall_cons in Hsegs.
  destruct Hsegs as (_ & W1 & W2 & _ & _ & _ & W6 & W7 & _).
  rewrite !embedded_v4_of_segments, !match_if by done. cbv iota beta.
  rewrite !ipv4_permitted_public by (by apply v4_of_segments_wf).
  generalize (public_v4 (v4_of_segments (seg6 ip) (seg7 ip))) (public_v4 (v4_of_segments (seg1 ip) (seg2 ip))).
  intros P Q.
  destruct (decide (seg0 ip = 0)) as [->|N0]; [ground_tests; btauto|].
  destruct (decide (seg0 ip = 100)) as [->|N1];
    [ground_tests; destruct (Z.eqb_spec (seg2 ip) 0) as [->|]; ground_tests; btauto|].
  destruct (decide (seg0 ip = 8194)) as [->|N2]; [ground_tests; btauto|].
  rewrite (proj2 (Z.eqb_neq _ 0)), (proj2 (Z.eqb_neq _ 100)), (proj2 (Z.eqb_neq _ 8194)) by done.
  ground_tests. btauto.
Qed.

(** *** Connecting *)
Definition ip_wf (ip : IpAddr) : Prop := match ip with V4 v4 => v4_wf v4 | V6 v6 => v6_wf v6 end.
Definition public_ip (ip : IpAddr) : bool := match ip with V4 v4 => public_v4 v4 | V6 v6 => public_v6 v6 end.

Lemma ip_permitted_public self ip :
  allow_private_networks self = false -> ip_wf ip -> is_ip_permitted self ip = public_ip ip.
Proof.
  intros Ha Hw. unfold is_ip_permitted. rewrite Ha.
  destruct ip; [by apply ipv4_permitted_public|by apply ipv6_permitted_public].
Qed.

Lemma validate_resolved_ips_spec self ips :
  match validate_resolved_ips self ips with
  | Ok _ => Forall (fun ip => is_ip_permitted self ip = true) ips
  | Err e => exists ip, e = ResolvedIpDenied ip /\ ip ∈ ips /\ is_ip_permitted self ip = false
  end.
Proof.
  induction ips as [|ip rest IH]; cbn [validate_resolved_ips]; [constructor|].
  destruct (is_ip_permitted self ip) eqn:E; cbn [negb].
  - destruct (validate_resolved_ips self rest) as [[]|e]; [by constructor|].
    destruct IH as (x & -> & Hx & Hp). exists x. split_and!; [done|by apply elem_of_cons; right|done].
  - exists ip. split_and!; [done|by apply elem_of_cons; left|done].
Qed.

Lemma connect_loop_spec connect last addrs tried r :
  connect_loop connect last addrs = (tried, r) ->
  tried `prefix_of` addrs /\
  match r with
  | Ok a => connect a = Connected /\ List.last tried a = a /\ a ∈ tried /\
            Forall (fun x => x = a \/ connect x = Refused) tried
  | Err _ => Forall (fun x => connect x <> Connected) tried
  end.
Proof.
  revert last tried r. induction addrs as [|a rest IH]; intros last tried r; cbn [connect_loop].
  { intros; simplify_eq. split; [done|constructor]. }
  destruct (connect a) eqn:Ea.
  - intros; simplify_eq. split; [by exists rest|]. split_and!; try done; [by apply list_elem_of_singleton|].
    repeat constructor.
  - destruct (connect_loop connect (ConnectFailed a) rest) as [t r'] eqn:E. intros; simplify_eq.
    destruct (IH _ _ _ E) as [[k Hk] Hr]. split; [exists k; by rewrite Hk|]. destruct r as [x|e].
    + destruct Hr as (Hc & Hl & Hin & Hf). split_and!; [done| |by apply elem_of_cons; right|constructor; auto].
      destruct t; [by apply elem_of_nil in Hin|done].
    + constructor; [congruence|done].
  - intros; simplify_eq. split; [by exists rest|]. repeat constructor. congruence.
Qed.

(** ** Properties *)


Lemma resolve_and_connect_sound (unicode_lowercase : bytes -> bytes) (self : ExitPolicy) (host : bytes) (port : Z)
    (dns : option (option (list IpAddr))) (connect : IpAddr -> Attempt) :
  allow_private_networks self = false ->
  (forall addrs, dns = Some (Some addrs) -> Forall ip_wf addrs) ->
  let '(tried, r) := resolve_and_connect unicode_lowercase self host port dns connect in
  Forall (fun a => public_ip a = true) tried /\
  (forall a, r = Ok a -> a ∈ tried /\ connect a = Connected) /\
  (tried <> [] -> exists addrs, dns = Some (Some addrs) /\ tried `prefix_of` addrs /\
     Forall (fun a => public_ip a = true) addrs /\ (port ∉ blocked_ports self) /\
     ends_with (to_lowercase unicode_lowercase (trim host)) (str ".onion") = false).
Proof.
  intros Ha Hw. unfold resolve_and_connect.
  destruct (is_permitted unicode_lowercase self host port) eqn:Hp; cbn [negb]; [|split_and!; [constructor|done|done]].
  destruct dns as [[addrs|]|]; [|split_and!; [constructor|done|done]..].
  unfold connect_resolved. pose proof (validate_resolved_ips_spec self addrs) as Hv.
  destruct (validate_resolved_ips self addrs) as [[]|e]; [|split_and!; [constructor|done|done]].
  assert (Hpub : Forall (fun a => public_ip a = true) addrs).
  { specialize (Hw addrs eq_refl). rewrite Forall_forall in *. intros x Hx.
    rewrite <- (ip_permitted_public self) by (done || by apply Hw). by apply Hv. }
  destruct (connect_loop connect _ addrs) as [tried r] eqn:Ec. apply connect_loop_spec in Ec as [Hpre Hr]. split_and!.
  - destruct Hpre as [k ->]. by apply Forall_app in Hpub as [? _].
  - intros a ->. by destruct Hr as (? & _ & ? & _).
  - intros _. exists addrs. split_and!; try done.
    + unfold is_permitted in Hp. by case_bool_decide.
    + unfold is_permitted in Hp. case_bool_decide; [done|]. by destruct (ends_with _ (str ".onion")).
Qed.

(** No server-side request forgery. Whatever the host name, whatever the
    resolver answers and however the connection attempts go, an exit that does
    not allow private networks attempts connections only to public addresses
    the resolver returned, in their order, after every one of them was checked;
    it attempts none if the port is blocked, the name is an onion name, or any
    returned address is special; and it reports success only on the address
    that accepted. *)
Theorem exit_connects_only_public (unicode_lowercase : bytes -> bytes) (self : ExitPolicy) (host : bytes) (port : Z)
    (dns : option (option (list IpAddr))) (connect : IpAddr -> Attempt) :
  allow_private_networks self = false ->
  (forall addrs, dns = Some (Some addrs) -> Forall ip_wf addrs) ->
  let '(tried, r) := resolve_and_connect unicode_lowercase self host port dns connect in
  Forall (fun a => public_ip a = true) tried /\
  (forall a, r = Ok a -> a ∈ tried /\ connect a = Connected) /\
  (tried <> [] -> exists addrs, dns = Some (Some addrs) /\ tried `prefix_of` addrs /\
     Forall (fun a => public_ip a = true) addrs /\ (port ∉ blocked_ports self) /\
     ends_with (to_lowercase unicode_lowercase (trim host)) (str ".onion") = false).
Proof. apply resolve_and_connect_sound. Qed.

Definition example_addrs : list IpAddr := [V4 (mkIpv4 93 184 216 34); V6 (mkIpv6 9734 10240 544 1 584 6283 6598 6470)].


Lemma exit_connects_only_public_witness :
  let r := resolve_and_connect (fun l => l) ExitPolicy_default (str "Example.org") 443 (Some (Some example_addrs))
             (fun a => if bool_decide (a = V4 (mkIpv4 93 184 216 34)) then Refused else Connected) in
  r.1 = example_addrs /\ Forall (fun a => public_ip a = true) r.1.
Proof.
  split; [vm_compute; reflexivity|].
  pose proof (exit_connects_only_public (fun l => l) ExitPolicy_default (str "Example.org") 443 (Some (Some example_addrs))
    (fun a => if bool_decide (a = V4 (mkIpv4 93 184 216 34)) then Refused else Connected) eq_refl) as H.
  destruct (resolve_and_connect _ _ _ _ _ _) as [tried r]. apply H. intros addrs [= <-].
  repeat constructor; cbn; unfold_ints; lia.
Defined.
