(* ===== verification/Flow.v ===== *)
(** * Flow control, pacing and padding (src/onion/flow.rs, pacing.rs, padding.rs)

    [SendWindow]: a credit window of 32 unacknowledged cells with cumulative
    acknowledgements. [next_deadline]: phase-preserving pacing that skips
    missed slots. [AdaptivePaddingEngine]: the burst/gap padding scheduler.
    Instants and durations are integer nanoseconds; the current time and the
    random delay are arguments. *)
From S2P Require Import Prelude.

(** ** Send window *)
Definition WINDOW_CELLS : Z := 32.

Record SendWindow := mkSendWindow { sw_sent : Z; sw_acknowledged : Z }.

Definition SendWindow_default : SendWindow := {| sw_sent := 0; sw_acknowledged := 0 |}.

Definition drained (w : SendWindow) : bool := sw_sent w =? sw_acknowledged w.

Definition available (w : SendWindow) : bool :=
  wrapping_sub u32_MAX (sw_sent w) (sw_acknowledged w) <? WINDOW_CELLS.

Definition window_sent (w : SendWindow) : SendWindow * result string unit :=
  if negb (available w) then (w, Err "Data window exhausted"%string)
  else
    match checked_add u32_MAX (sw_sent w) 1 with
    | None => (w, Err "Data counter exhausted"%string)
    | Some s => ({| sw_sent := s; sw_acknowledged := sw_acknowledged w |}, Ok tt)
    end.

Definition acknowledge (w : SendWindow) (payload : bytes) : SendWindow * result string unit :=
  if negb (length payload =? 4)%nat then (w, Err "Invalid acknowledgement size"%string)
  else
    let value := from_be payload in
    if (value <=? sw_acknowledged w) || (sw_sent w <? value) then
      (w, Err "Invalid or replayed acknowledgement"%string)
    else ({| sw_sent := sw_sent w; sw_acknowledged := value |}, Ok tt).

(** What a session does with its window: send a cell, or handle an
    acknowledgement payload from the peer. *)
Inductive WindowOp := OpSend | OpAck (payload : bytes).

Definition window_step (w : SendWindow) (op : WindowOp) : SendWindow * result string unit :=
  match op with OpSend => window_sent w | OpAck p => acknowledge w p end.

(** Accepted sends so far, and the accepted acknowledgement values in order. *)
Fixpoint window_run (w : SendWindow) (ops : list WindowOp) : SendWindow * Z * list Z :=
  match ops with
  | [] => (w, 0, [])
  | op :: rest =>
      let '(w', r) := window_step w op in
      let '(wf, sends, acks) := window_run w' rest in
      match op, r with
      | OpSend, Ok _ => (wf, sends + 1, acks)
      | OpAck p, Ok _ => (wf, sends, from_be p :: acks)
      | _, Err _ => (wf, sends, acks)
      end
  end.

(** ** Pacing *)
Definition NANOS_PER_SEC : Z := 1000000000.
Definition DURATION_MAX : Z := u64_MAX * NANOS_PER_SEC + (NANOS_PER_SEC - 1).

(** [interval.checked_mul(n)]. *)
Definition duration_checked_mul (d n : Z) : option Z :=
  if d * n <=? DURATION_MAX then Some (d * n) else None.

(** [None] is the failed assertion on a zero interval. *)
Definition next_deadline (previous now interval : Z) : option Z :=
  if interval =? 0 then None
  else
    let nominal := previous + interval in
    if now <? nominal then Some nominal
    else
      let skipped := (now - nominal) / interval + 1 in
      match (if skipped <=? u32_MAX then duration_checked_mul interval skipped else None) with
      | Some delay => Some (nominal + delay)
      | None => Some (now + interval)
      end.

(** ** Adaptive padding *)
Inductive WtfPadState := Burst | Gap.
#[global] Instance WtfPadState_eq_dec : EqDecision WtfPadState.
Proof. solve_decision. Defined.

Record AdaptivePaddingEngine := mkAdaptivePaddingEngine {
  ap_state : WtfPadState;
  ap_last_real_packet_time : Z;
  ap_next_padding_time : option Z;
  ap_burst_timeout : Z;
  ap_gap_mean_iat : Z;
}.

Definition ONE_DAY : Z := 86400 * NANOS_PER_SEC.
Definition ONE_MILLI : Z := 1000000.
Definition zclamp (lo hi x : Z) : Z := Z.min hi (Z.max lo x).

Definition AdaptivePaddingEngine_new (now burst_timeout gap_mean_iat : Z) : AdaptivePaddingEngine :=
  {| ap_state := Burst; ap_last_real_packet_time := now; ap_next_padding_time := None;
     ap_burst_timeout := Z.min burst_timeout ONE_DAY;
     ap_gap_mean_iat := zclamp ONE_MILLI ONE_DAY gap_mean_iat |}.

Definition default_config (now : Z) : AdaptivePaddingEngine :=
  AdaptivePaddingEngine_new now (500 * ONE_MILLI) (150 * ONE_MILLI).

(** [sample] is the draw from the exponential distribution, in nanoseconds. *)
Definition schedule_next_padding (self : AdaptivePaddingEngine) (now sample : Z) : AdaptivePaddingEngine :=
  {| ap_state := ap_state self; ap_last_real_packet_time := ap_last_real_packet_time self;
     ap_next_padding_time := Some (now + zclamp ONE_MILLI ONE_DAY sample);
     ap_burst_timeout := ap_burst_timeout self; ap_gap_mean_iat := ap_gap_mean_iat self |}.

Definition record_real_packet (self : AdaptivePaddingEngine) (now : Z) : AdaptivePaddingEngine :=
  match ap_state self with
  | Gap => {| ap_state := Burst; ap_last_real_packet_time := now; ap_next_padding_time := None;
              ap_burst_timeout := ap_burst_timeout self; ap_gap_mean_iat := ap_gap_mean_iat self |}
  | Burst => {| ap_state := Burst; ap_last_real_packet_time := now;
                ap_next_padding_time := ap_next_padding_time self;
                ap_burst_timeout := ap_burst_timeout self; ap_gap_mean_iat := ap_gap_mean_iat self |}
  end.

(** [s1] and [s2] are the draws of the two scheduling calls. *)
Definition should_send_padding (self : AdaptivePaddingEngine) (now s1 s2 : Z) : AdaptivePaddingEngine * bool :=
  let self :=
    if bool_decide (ap_state self = Burst)
       && (ap_burst_timeout self <=? saturating_sub now (ap_last_real_packet_time self))
    then schedule_next_padding
           {| ap_state := Gap; ap_last_real_packet_time := ap_last_real_packet_time self;
              ap_next_padding_time := ap_next_padding_time self;
              ap_burst_timeout := ap_burst_timeout self; ap_gap_mean_iat := ap_gap_mean_iat self |} now s1
    else self in
  match ap_state self, ap_next_padding_time self with
  | Gap, Some target => if target <=? now then (schedule_next_padding self now s2, true) else (self, false)
  | _, _ => (self, false)
  end.

Definition next_event_delay (self : AdaptivePaddingEngine) (now : Z) : Z :=
  match ap_state self with
  | Burst => saturating_sub (ap_last_real_packet_time self + ap_burst_timeout self) now
  | Gap => match ap_next_padding_time self with
           | Some target => saturating_sub target now
           | None => ONE_DAY
           end
  end.

(** A caller's life: real packets and polls at times given by the events. *)
Inductive PadEvent := EvReal (now : Z) | EvPoll (now s1 s2 : Z).

Definition event_time (e : PadEvent) : Z := match e with EvReal t => t | EvPoll t _ _ => t end.

(** Times at which padding is emitted. *)
Fixpoint padding_times (self : AdaptivePaddingEngine) (evs : list PadEvent) : list Z :=
  match evs with
  | [] => []
  | EvReal t :: rest => padding_times (record_real_packet self t) rest
  | EvPoll t s1 s2 :: rest =>
      match should_send_padding self t s1 s2 with
      | (self', true) => t :: padding_times self' rest
      | (self', false) => padding_times self' rest
      end
  end.

(** ** Invariants *)
Record window_wf (w : SendWindow) : Prop := {
  ww_ack : 0 <= sw_acknowledged w <= sw_sent w;
  ww_max : sw_sent w <= u32_MAX;
  ww_credit : sw_sent w - sw_acknowledged w <= WINDOW_CELLS;
}.

Lemma available_spec w : window_wf w -> available w = (sw_sent w - sw_acknowledged w <? WINDOW_CELLS).
Proof.
  intros []. unfold available, wrapping_sub. rewrite Z.mod_small; [done|]. unfold_ints. lia.
Qed.

Lemma window_step_wf w op w' r : window_wf w -> window_step w op = (w', r) -> window_wf w'.
Proof.
  intros Hwf Hs. destruct op as [|p]; cbn [window_step] in Hs.
  - unfold window_sent in Hs. rewrite available_spec in Hs by done. unfold checked_add, WINDOW_CELLS in Hs.
    destruct Hwf. guards_in Hs; constructor; cbn; unfold WINDOW_CELLS in *; lia.
  - unfold acknowledge in Hs. destruct Hwf. guards_in Hs; constructor; cbn; lia.
Qed.

(** One step either changes nothing or makes the accepted change. *)
Lemma window_step_effect w op w' r :
  window_step w op = (w', r) ->
  match op, r with
  | OpSend, Ok _ => sw_sent w' = sw_sent w + 1 /\ sw_acknowledged w' = sw_acknowledged w
  | OpAck p, Ok _ => sw_sent w' = sw_sent w /\ sw_acknowledged w' = from_be p /\
                     sw_acknowledged w < from_be p <= sw_sent w
  | _, Err _ => w' = w
  end.
Proof.
  intros Hs. destruct op as [|p]; cbn [window_step] in Hs.
  - unfold window_sent, checked_add in Hs. guards_in Hs; auto.
  - unfold acknowledge in Hs. guards_in Hs; cbn; auto.
Qed.

Lemma window_run_spec w ops wf sends acks :
  window_wf w -> window_run w ops = (wf, sends, acks) ->
  window_wf wf /\ sw_sent wf = sw_sent w + sends /\ 0 <= sends /\
  StronglySorted Z.lt (sw_acknowledged w :: acks) /\
  last (sw_acknowledged w :: acks) = Some (sw_acknowledged wf).
Proof.
  revert w wf sends acks. induction ops as [|op rest IH]; intros w wf sends acks Hwf Hrun; cbn [window_run] in Hrun.
  { simplify_eq. split_and!; [done|lia|lia|repeat constructor|done]. }
  destruct (window_step w op) as [w' r] eqn:Hs.
  destruct (window_run w' rest) as [[wf' sends'] acks'] eqn:Hr.
  destruct (IH _ _ _ _ (window_step_wf _ _ _ _ Hwf Hs) Hr) as (Hw' & Hse & H0 & Hso & Hla).
  apply window_step_effect in Hs. destruct op as [|p], r as [[]|e]; simplify_eq.
  - destruct Hs as [E1 E2]. rewrite E2 in *. split_and!; [done|lia|lia|done|done].
  - done.
  - destruct Hs as (E1 & E2 & E3). rewrite E2 in *. split_and!; [done|lia|lia| |by rewrite last_cons_cons].
    constructor; [done|]. constructor; [lia|]. apply StronglySorted_inv in Hso as [_ Hf].
    eapply Forall_impl; [exact Hf|]. cbn. lia.
  - done.
Qed.

(** *** Pacing *)
Lemma next_deadline_cases previous now interval :
  0 < interval ->
  let nominal := previous + interval in
  let skipped := (now - nominal) / interval + 1 in
  exists d, next_deadline previous now interval = Some d /\ now < d /\ nominal <= d /\
    d <= Z.max nominal (now + interval) /\
    (skipped <= u32_MAX -> interval * skipped <= DURATION_MAX -> (interval | d - previous)).
Proof.
  intros Hi nominal skipped. unfold next_deadline. rewrite (proj2 (Z.eqb_neq interval 0)) by lia.
  fold nominal. fold skipped. destruct (Z.ltb_spec now nominal) as [Hlt|Hge].
  { exists nominal. split_and!; try done; try lia. intros _ _. exists 1. unfold nominal. lia. }
  assert (Hd : 0 <= (now - nominal) mod interval < interval) by (apply Z.mod_pos_bound; lia).
  pose proof (Z.div_mod (now - nominal) interval ltac:(lia)) as Hdm.
  assert (0 <= (now - nominal) / interval) by (apply Z.div_pos; lia).
  unfold duration_checked_mul. destruct (Z.leb_spec skipped u32_MAX);
    [destruct (Z.leb_spec (interval * skipped) DURATION_MAX)|].
  - assert (Hm : interval * skipped = now - nominal - (now - nominal) mod interval + interval)
      by (unfold skipped; rewrite Z.mul_add_distr_l; lia).
    exists (nominal + interval * skipped). rewrite Hm. split_and!; try done; try lia. rewrite <- Hm.
    intros _ _. exists (1 + skipped). unfold nominal, skipped. lia.
  - exists (now + interval). split_and!; try done; try lia.
  - exists (now + interval). split_and!; try done; try lia.
Qed.

(** *** Padding *)
(** The earliest instant at which the engine can emit padding. *)
Definition pad_bound (e : AdaptivePaddingEngine) : Z :=
  match ap_state e, ap_next_padding_time e with
  | Gap, Some n => n
  | _, _ => ap_last_real_packet_time e + ap_burst_timeout e + ONE_MILLI
  end.

Definition engine_wf (e : AdaptivePaddingEngine) : Prop :=
  0 <= ap_burst_timeout e /\ (ap_state e = Gap -> ap_next_padding_time e <> None).

Lemma zclamp_milli x : ONE_MILLI <= zclamp ONE_MILLI ONE_DAY x.
Proof. unfold zclamp, ONE_MILLI, ONE_DAY, NANOS_PER_SEC. lia. Qed.

Lemma poll_cases e now s1 s2 e' b :
  engine_wf e -> ap_last_real_packet_time e <= now -> should_send_padding e now s1 s2 = (e', b) ->
  engine_wf e' /\ ap_burst_timeout e' = ap_burst_timeout e /\
  ap_last_real_packet_time e' = ap_last_real_packet_time e /\
  (if b then pad_bound e <= now /\ now + ONE_MILLI <= pad_bound e' else pad_bound e <= pad_bound e').
Proof.
  intros [Hb Hg] Hlr Hs. pose proof (zclamp_milli s1). pose proof (zclamp_milli s2).
  assert (0 < ONE_MILLI) by (unfold ONE_MILLI; lia).
  destruct e as [st lr nx bt gm]; unfold engine_wf, pad_bound, should_send_padding in *;
    cbn [ap_state ap_last_real_packet_time ap_next_padding_time ap_burst_timeout ap_gap_mean_iat] in *.
  destruct st; [rewrite bool_decide_eq_true_2 in Hs by done|rewrite bool_decide_eq_false_2 in Hs by done];
    cbn [andb] in Hs.
  - destruct (Z.leb_spec bt (saturating_sub now lr)) as [Ht|Ht];
      cbn [schedule_next_padding ap_state ap_last_real_packet_time ap_next_padding_time] in Hs.
    + rewrite (proj2 (Z.leb_gt _ _)) in Hs by lia. simplify_eq/=. unfold_ints. split_and!; try done; lia.
    + simplify_eq/=. split_and!; try done; lia.
  - destruct nx as [n|]; [|by destruct Hg].
    cbn [ap_state ap_next_padding_time] in Hs. destruct (Z.leb_spec n now); simplify_eq/=; split_and!; try done; lia.
Qed.

Lemma padding_trace e t evs :
  engine_wf e -> ap_last_real_packet_time e <= t -> StronglySorted Z.le (t :: (event_time <$> evs)) ->
  Forall (fun p => Z.min (pad_bound e) (t + ap_burst_timeout e + ONE_MILLI) <= p) (padding_times e evs) /\
  StronglySorted (fun a b => a + ONE_MILLI <= b) (padding_times e evs).
Proof.
  revert e t. induction evs as [|ev rest IH]; intros e t Hwf Hlr Hsort; [split; constructor|].
  rewrite fmap_cons in Hsort. apply StronglySorted_inv in Hsort as [Hsort Ht].
  apply Forall_cons in Ht as [Ht _]. destruct ev as [r|now s1 s2]; cbn [padding_times event_time] in *.
  - set (e' := record_real_packet e r).
    assert (Hwf' : engine_wf e' /\ ap_burst_timeout e' = ap_burst_timeout e /\
      pad_bound e' = r + ap_burst_timeout e + ONE_MILLI /\ ap_last_real_packet_time e' = r).
    { destruct Hwf, e as [[] ? ? ? ?]; split_and!; done. }
    destruct Hwf' as (Hwf' & Hb & Hp & Hr). destruct (IH e' r Hwf' ltac:(lia) Hsort) as [Hf Hs]. split; [|done].
    eapply Forall_impl; [exact Hf|]. cbn. intros p Hle. rewrite Hb, Hp in Hle. lia.
  - destruct (should_send_padding e now s1 s2) as [e' b] eqn:Hpoll.
    destruct (poll_cases e now s1 s2 e' b Hwf ltac:(lia) Hpoll) as (Hwf' & Hb & Hr & Hcase).
    destruct (IH e' now Hwf' ltac:(lia) Hsort) as [Hf Hs]. rewrite Hb in Hf.
    destruct Hwf as [Hbt _]. destruct b.
    + destruct Hcase as [Hnow Hnext]. split.
      * constructor; [lia|]. eapply Forall_impl; [exact Hf|]. cbn. unfold ONE_MILLI in *. lia.
      * constructor; [done|]. eapply Forall_impl; [exact Hf|]. cbn. lia.
    + split; [|done]. eapply Forall_impl; [exact Hf|]. cbn. lia.
Qed.

(** ** Properties *)

(** Flow control under an arbitrary peer. Whatever acknowledgement payloads
    arrive, in whatever interleaving with sends, the window never has more than
    32 cells in flight, the acknowledgements it accepts are strictly increasing,
    and none exceeds the number of cells actually sent: credit cannot be forged
    or replayed. *)
Theorem send_window_flow_control (ops : list WindowOp) :
  let '(w, sends, acks) := window_run SendWindow_default ops in
  sw_sent w = sends /\ sends <= u32_MAX /\
  0 <= sw_sent w - sw_acknowledged w <= WINDOW_CELLS /\
  StronglySorted Z.lt (0 :: acks) /\ last (0 :: acks) = Some (sw_acknowledged w) /\
  Forall (fun a => a <= sends) acks.
Proof.
  destruct (window_run _ ops) as [[w sends] acks] eqn:Hrun.
  assert (Hd : window_wf SendWindow_default) by (constructor; cbn; unfold_ints; unfold WINDOW_CELLS; lia).
  destruct (window_run_spec _ _ _ _ _ Hd Hrun) as ([Hack Hmax Hcr] & Hse & H0 & Hso & Hla).
  cbn [SendWindow_default sw_sent sw_acknowledged] in *. split_and!; try done; try lia.
  apply (sorted_last _ _ Hso), Forall_cons in Hla as [_ Hla].
  eapply Forall_impl; [exact Hla|]. cbn. lia.
Qed.

(** Pacing without bursts. The next deadline is strictly in the future, at
    least one interval after the previous one and at most one interval ahead of
    the clock (or of the nominal slot), and it stays on the original phase
    unless so many slots were missed that the multiplier overflows. *)
Theorem next_deadline_paced (previous now interval : Z) :
  0 < interval ->
  exists d, next_deadline previous now interval = Some d /\ now < d /\ previous + interval <= d /\
    d <= Z.max (previous + interval) (now + interval) /\
    let skipped := (now - (previous + interval)) / interval + 1 in
    (skipped <= u32_MAX -> interval * skipped <= DURATION_MAX -> (interval | d - previous)).
Proof. apply next_deadline_cases. Qed.

Lemma next_deadline_paced_witness :
  0 < 20 /\ exists d, next_deadline 100 175 20 = Some d /\ 175 < d /\ d <= 195 /\ (20 | d - 100).
Proof.
  split; [lia|]. destruct (next_deadline_paced 100 175 20 ltac:(lia)) as (d & Hd & Hn & _ & Hm & Hp).
  exists d. split; [exact Hd|]. split; [exact Hn|]. split; [lia|].
  apply Hp; [vm_compute; discriminate|vm_compute; discriminate].
Defined.

(** Padding stays out of the way of traffic. After a real packet at time
    [r] no padding is emitted before the burst timeout plus one millisecond has
    passed, and padding cells are at least one millisecond apart, whatever the
    later packets, polls and random draws, as long as the clock does not run
    backwards. *)
Theorem padding_after_quiet (e : AdaptivePaddingEngine) (r : Z) (evs : list PadEvent) :
  engine_wf e -> StronglySorted Z.le (r :: (event_time <$> evs)) ->
  let ts := padding_times (record_real_packet e r) evs in
  Forall (fun t => r + ap_burst_timeout e + ONE_MILLI <= t) ts /\
  StronglySorted (fun a b => a + ONE_MILLI <= b) ts.
Proof.
  intros Hwf Hs. set (e' := record_real_packet e r).
  assert (He : engine_wf e' /\ ap_burst_timeout e' = ap_burst_timeout e /\
    pad_bound e' = r + ap_burst_timeout e + ONE_MILLI /\ ap_last_real_packet_time e' = r).
  { destruct Hwf, e as [[] ? ? ? ?]; split_and!; done. }
  destruct He as (Hwf' & Hb & Hp & Hr). destruct (padding_trace e' r evs Hwf' ltac:(lia) Hs) as [Hf Hso].
  split; [|done]. eapply Forall_impl; [exact Hf|]. cbn. intros x. rewrite Hp, Hb. lia.
Qed.

Definition example_padding_run : list PadEvent :=
  [EvPoll 600000000 5000000 1; EvPoll 604000000 1 1; EvPoll 606000000 1 7000000; EvReal 610000000].

Lemma padding_after_quiet_witness :
  let ts := padding_times (record_real_packet (default_config 0) 10) example_padding_run in
  ts = [606000000] /\ Forall (fun t => 10 + 500000000 + ONE_MILLI <= t) ts.
Proof.
  split; [reflexivity|].
  apply (padding_after_quiet (default_config 0) 10 example_padding_run).
  - split; [vm_compute; discriminate|discriminate].
  - repeat constructor; cbn; lia.
Defined.
