(* ===== verification/Cell.v ===== *)
(** * Fixed-size protocol cells (src/onion/cell.rs)

    [CellCommand], [OnionCell] and its three operations: construction with
    random padding, serialisation into a fixed 8192-byte buffer and parsing.
    The random [ephemeral_key] drawn by [OnionCell::new] is an argument. *)
From S2P Require Import Prelude.

(** ** Data *)
Definition ONION_CELL_SIZE : nat := Z.to_nat 8192.
Definition HEADER_SIZE : nat := 61.
Definition PAYLOAD_SIZE : nat := ONION_CELL_SIZE - HEADER_SIZE.

#[global] Arguments ONION_CELL_SIZE : simpl never.
#[global] Arguments PAYLOAD_SIZE : simpl never.

Inductive CellCommand :=
| Create | Created | Relay | Destroy | Extend | Extended | Data | DataAck
| Dummy | End_ | Session | SessionAccepted | SessionOpen | SessionOpened
| SessionRefused | SessionFinish | SessionFinished | SessionReset.

#[global] Instance CellCommand_eq_dec : EqDecision CellCommand.
Proof. solve_decision. Defined.

(** [command as u8]. *)
Definition command_as_u8 (c : CellCommand) : Z :=
  match c with
  | Create => 1 | Created => 2 | Relay => 3 | Destroy => 4 | Extend => 5
  | Extended => 6 | Data => 7 | DataAck => 8 | Dummy => 9 | End_ => 10
  | Session => 11 | SessionAccepted => 12 | SessionOpen => 13
  | SessionOpened => 14 | SessionRefused => 15 | SessionFinish => 16
  | SessionFinished => 17 | SessionReset => 18
  end.

(** [CellCommand::from_u8]. *)
Definition command_from_u8 (b : Z) : option CellCommand :=
  match b with
  | 1 => Some Create
  | 2 => Some Created
  | 3 => Some Relay
  | 4 => Some Destroy
  | 5 => Some Extend
  | 6 => Some Extended
  | 7 => Some Data
  | 8 => Some DataAck
  | 9 => Some Dummy
  | 10 => Some End_
  | 11 => Some Session
  | 12 => Some SessionAccepted
  | 13 => Some SessionOpen
  | 14 => Some SessionOpened
  | 15 => Some SessionRefused
  | 16 => Some SessionFinish
  | 17 => Some SessionFinished
  | 18 => Some SessionReset
  | _ => None
  end.

Record OnionCell := mkOnionCell {
  cell_circuit_id : Z;
  cell_sequence_no : Z;
  cell_command : CellCommand;
  cell_stream_id : Z;
  cell_length : Z;
  cell_ephemeral_key : bytes;
  cell_mac : bytes;
  cell_payload : bytes;
}.

(** ** Operations *)

(** [OnionCell::new]; [rng] is what [rng.fill(&mut ephemeral_key)] wrote. *)
Definition OnionCell_new (rng : bytes) (circuit_id sequence_no : Z)
    (command : CellCommand) (stream_id : Z) (data : bytes) : result string OnionCell :=
  if (PAYLOAD_SIZE <? length data)%nat then
    Err ("Payload length " +:+ pretty (length data) +:+ " exceeds maximum cell payload size "
         +:+ pretty PAYLOAD_SIZE)%string
  else
    let payload := replicate PAYLOAD_SIZE 0 in
    let len := length data in
    let payload := blit 0 data payload in
    Ok {| cell_circuit_id := circuit_id;
          cell_sequence_no := sequence_no;
          cell_command := command;
          cell_stream_id := stream_id;
          cell_length := Z.of_nat len mod 65536;
          cell_ephemeral_key := rng;
          cell_mac := replicate 16 0;
          cell_payload := payload |}.

Definition OnionCell_serialize (c : OnionCell) : bytes :=
  let buf := replicate ONION_CELL_SIZE 0 in
  let buf := blit 0 (be_bytes 4 (cell_circuit_id c)) buf in
  let buf := blit 4 (be_bytes 4 (cell_sequence_no c)) buf in
  let buf := blit 8 [command_as_u8 (cell_command c)] buf in
  let buf := blit 9 (be_bytes 2 (cell_stream_id c)) buf in
  let buf := blit 11 (be_bytes 2 (cell_length c)) buf in
  let buf := blit 13 (cell_ephemeral_key c) buf in
  let buf := blit 45 (cell_payload c) buf in
  blit (ONION_CELL_SIZE - 16) (cell_mac c) buf.

Definition OnionCell_parse (buf : bytes) : result string OnionCell :=
  let circuit_id := from_be (slice 0 4 buf) in
  let sequence_no := from_be (slice 4 8 buf) in
  match command_from_u8 (buf !!! 8%nat) with
  | None => Err ("Unknown cell command: " +:+ pretty (buf !!! 8%nat))%string
  | Some command =>
      let stream_id := from_be (slice 9 11 buf) in
      let len := from_be (slice 11 13 buf) in
      if Z.of_nat PAYLOAD_SIZE <? len then
        Err ("Parsed cell length " +:+ pretty len +:+ " exceeds maximum " +:+ pretty PAYLOAD_SIZE)%string
      else
        Ok {| cell_circuit_id := circuit_id;
              cell_sequence_no := sequence_no;
              cell_command := command;
              cell_stream_id := stream_id;
              cell_length := len;
              cell_ephemeral_key := slice 13 45 buf;
              cell_mac := slice (ONION_CELL_SIZE - 16) ONION_CELL_SIZE buf;
              cell_payload := slice 45 (45 + PAYLOAD_SIZE) buf |}
  end.

(** ** Well-formedness: the ranges the Rust field types enforce. *)
Record cell_wf (c : OnionCell) : Prop := {
  wf_circuit_id : is_u32 (cell_circuit_id c);
  wf_sequence_no : is_u32 (cell_sequence_no c);
  wf_stream_id : is_u16 (cell_stream_id c);
  wf_length : 0 <= cell_length c <= Z.of_nat PAYLOAD_SIZE;
  wf_key : length (cell_ephemeral_key c) = 32%nat /\ is_bytes (cell_ephemeral_key c);
  wf_mac : length (cell_mac c) = 16%nat /\ is_bytes (cell_mac c);
  wf_payload : length (cell_payload c) = PAYLOAD_SIZE /\ is_bytes (cell_payload c);
}.

Ltac cell_fields :=
  cbn [cell_circuit_id cell_sequence_no cell_command cell_stream_id cell_length
       cell_ephemeral_key cell_mac cell_payload] in *.
Ltac lengths := rewrite ?length_app, ?be_bytes_length, ?length_cons; change (length (@nil Z)) with 0%nat.
Ltac sizes := unfold PAYLOAD_SIZE, HEADER_SIZE, ONION_CELL_SIZE in *; try lia.

(** ** Lemmas *)
Lemma command_roundtrip c : command_from_u8 (command_as_u8 c) = Some c.
Proof. by destruct c. Qed.

Lemma command_from_u8_inv b c : command_from_u8 b = Some c -> command_as_u8 c = b.
Proof.
  intros H. destruct b as [|p|p]; try discriminate.
  do 5 (destruct p as [p|p|]; try discriminate; try (by injection H as <-)).
Qed.

Lemma command_as_u8_bounds c : 1 <= command_as_u8 c <= 18.
Proof. destruct c; simpl; lia. Qed.

(** The flat layout of the wire format. *)
Definition cell_layout (c : OnionCell) : bytes :=
  be_bytes 4 (cell_circuit_id c) ++ be_bytes 4 (cell_sequence_no c) ++
  [command_as_u8 (cell_command c)] ++ be_bytes 2 (cell_stream_id c) ++
  be_bytes 2 (cell_length c) ++ cell_ephemeral_key c ++ cell_payload c ++ cell_mac c.

(** Writing the next field of a zero-initialised buffer. *)
Lemma blit_zeros pre src n :
  (length src <= n)%nat ->
  blit (length pre) src (pre ++ replicate n 0) = (pre ++ src) ++ replicate (n - length src) 0.
Proof.
  intros H. replace n with (length src + (n - length src))%nat at 1 by lia.
  rewrite replicate_add. rewrite blit_app; [by rewrite <- app_assoc|done|apply length_replicate].
Qed.

Lemma blit_zeros' off pre src n m :
  length pre = off -> (length src + m = n)%nat ->
  blit off src (pre ++ replicate n 0) = (pre ++ src) ++ replicate m 0.
Proof. intros <- <-. rewrite blit_zeros by lia. do 2 f_equal. lia. Qed.

(** The sizes alone. *)
Definition cell_sized (c : OnionCell) : Prop :=
  length (cell_ephemeral_key c) = 32%nat /\ length (cell_mac c) = 16%nat /\ length (cell_payload c) = PAYLOAD_SIZE.

Lemma wf_sized c : cell_wf c -> cell_sized c.
Proof. intros [_ _ _ _ [Hk _] [Hm _] [Hp _]]. done. Qed.

Lemma sized_layout c : cell_sized c -> OnionCell_serialize c = cell_layout c.
Proof.
  intros (Hk & Hm & Hp). unfold OnionCell_serialize, cell_layout.
  assert (replicate ONION_CELL_SIZE 0 = [] ++ replicate ONION_CELL_SIZE 0) as -> by done.
  rewrite (blit_zeros' 0 _ _ _ (ONION_CELL_SIZE - 4)), (blit_zeros' 4 _ _ _ (ONION_CELL_SIZE - 8)),
    (blit_zeros' 8 _ _ _ (ONION_CELL_SIZE - 9)), (blit_zeros' 9 _ _ _ (ONION_CELL_SIZE - 11)),
    (blit_zeros' 11 _ _ _ (ONION_CELL_SIZE - 13)), (blit_zeros' 13 _ _ _ (ONION_CELL_SIZE - 45)),
    (blit_zeros' 45 _ _ _ 16), (blit_zeros' (ONION_CELL_SIZE - 16) _ _ _ 0);
    rewrite ?length_app, ?be_bytes_length, ?Hk, ?Hm, ?Hp; simpl length; sizes.
  simpl. by rewrite app_nil_r, <- !app_assoc.
Qed.

Lemma sized_length c : cell_sized c -> length (cell_layout c) = ONION_CELL_SIZE.
Proof.
  intros (Hk & Hm & Hp). unfold cell_layout.
  rewrite !length_app, !be_bytes_length, Hk, Hm, Hp. simpl length. sizes.
Qed.

Lemma serialize_layout c : cell_wf c -> OnionCell_serialize c = cell_layout c.
Proof. intros H. by apply sized_layout, wf_sized. Qed.

Lemma layout_length c : cell_wf c -> length (cell_layout c) = ONION_CELL_SIZE.
Proof. intros H. by apply sized_length, wf_sized. Qed.

Lemma serialize_length c : cell_wf c -> length (OnionCell_serialize c) = ONION_CELL_SIZE.
Proof. intros H. rewrite serialize_layout by done. by apply layout_length. Qed.

Lemma serialize_is_bytes c : cell_wf c -> is_bytes (OnionCell_serialize c).
Proof.
  intros H. rewrite serialize_layout by done. unfold cell_layout. pose proof (command_as_u8_bounds (cell_command c)).
  destruct H as [? ? ? ? [? ?] [? ?] [? ?]]. auto 10 with bytes.
Qed.

(** The buffer split at the field boundaries. *)
Lemma buffer_split buf :
  length buf = ONION_CELL_SIZE ->
  buf = slice 0 4 buf ++ slice 4 8 buf ++ [buf !!! 8%nat] ++ slice 9 11 buf ++
        slice 11 13 buf ++ slice 13 45 buf ++ slice 45 (45 + PAYLOAD_SIZE) buf ++
        slice (ONION_CELL_SIZE - 16) ONION_CELL_SIZE buf.
Proof.
  intros Hlen.
  assert (Hstep : forall a b, (a <= b)%nat -> drop a buf = slice a b buf ++ drop b buf).
  { intros a b Hab. unfold slice. rewrite <- (take_drop (b - a) (drop a buf)) at 1. f_equal.
    rewrite drop_drop. f_equal. lia. }
  rewrite <- (drop_0 buf) at 1.
  rewrite (Hstep 0 4)%nat, (Hstep 4 8)%nat by lia. do 2 f_equal.
  rewrite (Hstep 8 9)%nat by lia.
  assert (slice 8 9 buf = [buf !!! 8%nat]) as ->.
  { unfold slice. change (9 - 8)%nat with 1%nat.
    destruct (lookup_lt_is_Some_2 buf 8) as [x Hx]; [sizes|].
    rewrite (drop_S _ _ _ Hx), (list_lookup_total_correct _ _ _ Hx). simpl. by rewrite take_0. }
  f_equal.
  rewrite (Hstep 9 11)%nat, (Hstep 11 13)%nat, (Hstep 13 45)%nat, (Hstep 45 (45 + PAYLOAD_SIZE))%nat by sizes.
  do 4 f_equal.
  replace (45 + PAYLOAD_SIZE)%nat with (ONION_CELL_SIZE - 16)%nat by sizes.
  unfold slice. rewrite (take_ge (drop _ _)); [done|]. rewrite length_drop. sizes.
Qed.

(** Field reads of a buffer given in its flat layout. *)
Lemma parse_pieces (id seq sid len key pay mac : bytes) (cmd : Z) :
  length id = 4%nat -> length seq = 4%nat -> length sid = 2%nat -> length len = 2%nat ->
  length key = 32%nat -> length pay = PAYLOAD_SIZE -> length mac = 16%nat ->
  let buf := id ++ seq ++ [cmd] ++ sid ++ len ++ key ++ pay ++ mac in
  slice 0 4 buf = id /\ slice 4 8 buf = seq /\ buf !!! 8%nat = cmd /\ slice 9 11 buf = sid /\
  slice 11 13 buf = len /\ slice 13 45 buf = key /\ slice 45 (45 + PAYLOAD_SIZE) buf = pay /\
  slice (ONION_CELL_SIZE - 16) ONION_CELL_SIZE buf = mac.
Proof.
  intros H1 H2 H3 H4 H5 H6 H7 buf. unfold buf.
  split_and!.
  - by apply (slice_app_at 0 4 []).
  - by apply slice_app_at; rewrite ?H2.
  - apply list_lookup_total_correct. rewrite !lookup_app_r by (rewrite ?H1, ?H2; lia).
    by rewrite H1, H2.
  - rewrite !(app_assoc _ _ (sid ++ _)). apply slice_app_at; lengths; lia.
  - rewrite !(app_assoc _ _ (len ++ _)). apply slice_app_at; lengths; lia.
  - rewrite !(app_assoc _ _ (key ++ _)). apply slice_app_at; lengths; lia.
  - rewrite !(app_assoc _ _ (pay ++ _)). apply slice_app_at; lengths; lia.
  - replace (pay ++ mac) with (pay ++ mac ++ []) by (by rewrite app_nil_r).
    rewrite !(app_assoc _ _ (mac ++ _)).
    apply slice_app_at; lengths; sizes.
Qed.

Lemma parse_layout c : cell_wf c -> OnionCell_parse (cell_layout c) = Ok c.
Proof.
  intros []. unfold OnionCell_parse, cell_layout.
  destruct (parse_pieces (be_bytes 4 (cell_circuit_id c)) (be_bytes 4 (cell_sequence_no c))
    (be_bytes 2 (cell_stream_id c)) (be_bytes 2 (cell_length c)) (cell_ephemeral_key c)
    (cell_payload c) (cell_mac c) (command_as_u8 (cell_command c)))
    as (-> & -> & -> & -> & -> & -> & -> & ->); rewrite ?be_bytes_length; try tauto.
  change (256 ^ Z.of_nat 4) with 4294967296. change (256 ^ Z.of_nat 2) with 65536.
  rewrite command_roundtrip, !from_be_be_bytes by
    (change (256 ^ Z.of_nat 4) with 4294967296; change (256 ^ Z.of_nat 2) with 65536;
     unfold_ints; sizes).
  rewrite (proj2 (Z.ltb_ge _ _)) by tauto. by destruct c.
Qed.

Lemma parse_wf buf c :
  length buf = ONION_CELL_SIZE -> is_bytes buf -> OnionCell_parse buf = Ok c -> cell_wf c.
Proof.
  intros Hlen Hb H. unfold OnionCell_parse in H. guards_in H.
  assert (Hle : (45 + PAYLOAD_SIZE + 16 = length buf)%nat) by (rewrite Hlen; sizes).
  destruct (from_be_slice_bound 4 0 4 buf); [done|lia|done|].
  destruct (from_be_slice_bound 4 4 8 buf); [done|lia|done|].
  destruct (from_be_slice_bound 2 9 11 buf); [done|lia|done|].
  destruct (from_be_slice_bound 2 11 13 buf); [done|lia|done|].
  change (256 ^ Z.of_nat 4) with 4294967296 in *. change (256 ^ Z.of_nat 2) with 65536 in *.
  constructor; cell_fields; unfold_ints; try lia; (split; [|by apply is_bytes_slice]).
  all: rewrite length_slice; sizes.
Qed.

Lemma OnionCell_new_ok rng id seq cmd sid data :
  (length data <= PAYLOAD_SIZE)%nat ->
  OnionCell_new rng id seq cmd sid data =
    Ok {| cell_circuit_id := id; cell_sequence_no := seq; cell_command := cmd; cell_stream_id := sid;
          cell_length := Z.of_nat (length data); cell_ephemeral_key := rng; cell_mac := replicate 16 0;
          cell_payload := data ++ replicate (PAYLOAD_SIZE - length data) 0 |}.
Proof.
  intros Hle. unfold OnionCell_new. rewrite (proj2 (Nat.ltb_ge _ _)) by done.
  rewrite (Z.mod_small (Z.of_nat _)) by sizes.
  assert (blit 0 data (replicate PAYLOAD_SIZE 0) = data ++ replicate (PAYLOAD_SIZE - length data) 0) as ->
    by (by apply (blit_zeros [])).
  done.
Qed.

Lemma OnionCell_new_wf rng id seq cmd sid data c :
  length rng = 32%nat -> is_bytes rng -> is_u32 id -> is_u32 seq -> is_u16 sid -> is_bytes data ->
  OnionCell_new rng id seq cmd sid data = Ok c -> cell_wf c.
Proof.
  intros Hk Hkb Hid Hseq Hsid Hd Hn.
  destruct (decide (length data <= PAYLOAD_SIZE)%nat) as [Hle|Hgt].
  - rewrite OnionCell_new_ok in Hn by done. apply Ok_inj in Hn as <-.
    constructor; cell_fields; try done; try lia.
    + split; [done|]. by apply is_bytes_replicate.
    + split; [rewrite length_app, length_replicate; lia|].
      auto with bytes.
  - unfold OnionCell_new in Hn. rewrite (proj2 (Nat.ltb_lt _ _)) in Hn by lia. discriminate Hn.
Qed.

Lemma parse_inv buf c :
  length buf = ONION_CELL_SIZE -> is_bytes buf ->
  OnionCell_parse buf = Ok c -> OnionCell_serialize c = buf.
Proof.
  intros Hlen Hb H. rewrite serialize_layout by eauto using parse_wf.
  unfold OnionCell_parse in H. guards_in H.
  match goal with E : command_from_u8 _ = _ |- _ => apply command_from_u8_inv in E; rename E into Hc end.
  unfold cell_layout; cell_fields.
  rewrite Hc, !be_bytes_slice by (done || sizes). symmetry. by apply buffer_split.
Qed.

(** ** Properties *)

(** Serialising a well-formed cell and parsing the buffer returns that
    very cell: the wire format loses nothing. *)
Theorem parse_serialize (c : OnionCell) :
  cell_wf c -> OnionCell_parse (OnionCell_serialize c) = Ok c.
Proof. intros H. rewrite serialize_layout by done. by apply parse_layout. Qed.

(** The format is canonical: every 8192-byte buffer that parses is the
    serialisation of the cell it parses to, so no two buffers denote the same
    cell. *)
Theorem serialize_parse (buf : bytes) (c : OnionCell) :
  length buf = ONION_CELL_SIZE -> is_bytes buf ->
  OnionCell_parse buf = Ok c -> OnionCell_serialize c = buf.
Proof. apply parse_inv. Qed.

(** A concrete cell carrying two bytes. *)
Definition example_cell : OnionCell :=
  {| cell_circuit_id := 7; cell_sequence_no := 1; cell_command := Data; cell_stream_id := 3;
     cell_length := 2; cell_ephemeral_key := replicate 32 9; cell_mac := replicate 16 0;
     cell_payload := [104; 105] ++ replicate (PAYLOAD_SIZE - 2) 0 |}.

Lemma example_cell_wf : cell_wf example_cell.
Proof.
  constructor; unfold example_cell; cell_fields; unfold_ints; try sizes; split.
  all: auto 10 with bytes.
Qed.

Lemma parse_serialize_witness :
  cell_wf example_cell /\ OnionCell_parse (OnionCell_serialize example_cell) = Ok example_cell.
Proof. split; [exact example_cell_wf|]. exact (parse_serialize example_cell example_cell_wf). Defined.

Lemma serialize_parse_witness :
  let buf := OnionCell_serialize example_cell in
  length buf = ONION_CELL_SIZE /\ is_bytes buf /\ OnionCell_parse buf = Ok example_cell /\
  OnionCell_serialize example_cell = buf.
Proof.
  intros buf. pose proof (serialize_length _ example_cell_wf) as H1.
  pose proof (serialize_is_bytes _ example_cell_wf) as H2.
  assert (H3 : OnionCell_parse buf = Ok example_cell).
  { unfold buf. rewrite serialize_layout by exact example_cell_wf. exact (parse_layout _ example_cell_wf). }
  exact (conj H1 (conj H2 (conj H3 (serialize_parse buf example_cell H1 H2 H3)))).
Defined.
