(* ===== verification/Replay.v ===== *)
(** * Sequence numbers and the anti-replay window (src/onion/circuit.rs)

    [CircuitError], the packing of a hop index and a 29-bit counter into one
    backward sequence number, and the 64-entry sliding [ReplayWindow] a client
    keeps per hop. The window is refined to an abstract set of accepted
    counters ([ReplaySpec]). *)
From S2P Require Import Prelude.

(** ** Data *)
Definition MAX_HOPS : Z := 8.
Definition BWD_COUNTER_BITS : Z := 29.
Definition BWD_COUNTER_MASK : Z := Z.shiftl 1 BWD_COUNTER_BITS - 1.
Definition MAX_SEQ_GAP : Z := 1000.

Inductive CircuitError :=
| HopIndexOutOfRange (i : Z)
| SequenceExhausted
| KeyDerivationFailed
| MacVerificationFailed
| AntiReplayRejection (msg : string)
| UnpinnedRelay
| InvalidPadding
| PayloadTooShort
| ParseError (msg : string)
| InvalidCircuitId
| General (msg : string).

Record ReplayWindow := mkReplayWindow {
  rw_window : Z;          (* u64 *)
  rw_next_expected : Z;   (* u32 *)
}.

#[global] Instance ReplayWindow_inhabited : Inhabited ReplayWindow := populate (mkReplayWindow 0 1).

(** ** Operations *)

Definition pack_backward_seq (hop_index counter : Z) : result CircuitError Z :=
  if MAX_HOPS <=? hop_index then Err (HopIndexOutOfRange hop_index)
  else if BWD_COUNTER_MASK <? counter then Err SequenceExhausted
  else Ok (Z.lor (wrapping_shl u32_MAX hop_index BWD_COUNTER_BITS) counter).

(** [seq >> BWD_COUNTER_BITS] and [seq & BWD_COUNTER_MASK]. *)
Definition seq_hop (seq : Z) : Z := Z.shiftr seq BWD_COUNTER_BITS.
Definition seq_counter (seq : Z) : Z := Z.land seq BWD_COUNTER_MASK.

Definition ReplayWindow_new : ReplayWindow :=
  {| rw_window := 0; rw_next_expected := 1 |}.

Definition check_and_advance (w : ReplayWindow) (seq : Z) : ReplayWindow * result CircuitError unit :=
  let counter := seq_counter seq in
  let next := rw_next_expected w in
  if counter <? next then
    let diff := next - counter in
    if (64 <? diff) || negb (Z.land (rw_window w) (Z.shiftl 1 (diff - 1)) =? 0) then
      (w, Err (AntiReplayRejection ("Replay on sequence " +:+ pretty seq)%string))
    else
      ({| rw_window := Z.lor (rw_window w) (Z.shiftl 1 (diff - 1));
          rw_next_expected := next |}, Ok tt)
  else if counter =? next then
    ({| rw_window := Z.lor (wrapping_shl u64_MAX (rw_window w) 1) 1;
        rw_next_expected := counter + 1 |}, Ok tt)
  else
    let diff := counter - next in
    if MAX_SEQ_GAP <? diff then
      (w, Err (AntiReplayRejection ("Sequence gap too large: " +:+ pretty diff)%string))
    else
      ({| rw_window :=
            if 63 <=? diff then 1
            else Z.lor (wrapping_shl u64_MAX (rw_window w) (diff + 1)) 1;
          rw_next_expected := counter + 1 |}, Ok tt).

(** A window fed a list of sequence numbers; the ones it accepts, in order. *)
Fixpoint accepted_seqs (w : ReplayWindow) (seqs : list Z) : list Z :=
  match seqs with
  | [] => []
  | seq :: rest =>
      match check_and_advance w seq with
      | (w', Ok _) => seq :: accepted_seqs w' rest
      | (w', Err _) => accepted_seqs w' rest
      end
  end.

(** ** Abstract specification: the set of counters accepted so far. *)
Record ReplaySpec := mkReplaySpec { rs_seen : gset Z; rs_next : Z }.

#[global] Instance ReplaySpec_inhabited : Inhabited ReplaySpec := populate (mkReplaySpec ∅ 1).

Definition replay_spec_step (s : ReplaySpec) (counter : Z) : option ReplaySpec :=
  if bool_decide (counter ∈ rs_seen s)
     || (counter + 64 <? rs_next s) || (rs_next s + MAX_SEQ_GAP <? counter)
  then None
  else Some {| rs_seen := {[counter]} ∪ rs_seen s;
               rs_next := Z.max (rs_next s) (counter + 1) |}.

Definition replay_spec_init : ReplaySpec := {| rs_seen := ∅; rs_next := 1 |}.

(** The window represents the specification state: bit [i] records counter
    [next - 1 - i], and nothing accepted lies at or above [next]. *)
Record window_refines (w : ReplayWindow) (s : ReplaySpec) : Prop := {
  wr_next : rw_next_expected w = rs_next s;
  wr_range : 0 <= rw_window w < 2 ^ 64;
  wr_bits : forall i, 0 <= i < 64 ->
    Z.testbit (rw_window w) i = bool_decide (rs_next s - 1 - i ∈ rs_seen s);
  wr_below : forall x, x ∈ rs_seen s -> x < rs_next s;
}.

(** ** Lemmas *)
Lemma mask_ones : BWD_COUNTER_MASK = Z.ones 29.
Proof. reflexivity. Qed.

Lemma u64_ones : u64_MAX = Z.ones 64.
Proof. reflexivity. Qed.

Lemma u32_ones : u32_MAX = Z.ones 32.
Proof. reflexivity. Qed.

Lemma seq_counter_bounds seq : 0 <= seq_counter seq < 2 ^ 29.
Proof.
  unfold seq_counter. rewrite mask_ones, Z.land_ones by lia. apply Z.mod_pos_bound. lia.
Qed.

Lemma testbit_above w n i : 0 <= w < 2 ^ n -> n <= i -> Z.testbit w i = false.
Proof.
  intros Hw Hi. destruct (decide (0 <= n)).
  - rewrite <- (Z.mod_small w (2 ^ n)) by done. apply Z.mod_pow2_bits_high. lia.
  - rewrite Z.pow_neg_r in Hw by lia. lia.
Qed.

Lemma range_of_bits w n : 0 <= n -> 0 <= w -> (forall i, n <= i -> Z.testbit w i = false) -> w < 2 ^ n.
Proof.
  intros Hn Hw Hbits. assert (w = w mod 2 ^ n) as ->; [|apply Z.mod_pos_bound; lia].
  apply Z.bits_inj'. intros i Hi. destruct (decide (i < n)).
  - by rewrite Z.mod_pow2_bits_low by lia.
  - rewrite Z.mod_pow2_bits_high by lia. apply Hbits. lia.
Qed.

(** Disjoint bit fields add up. *)
Lemma lor_disjoint a b n : 0 <= n -> 0 <= b < 2 ^ n -> Z.lor (a * 2 ^ n) b = a * 2 ^ n + b.
Proof.
  intros Hn Hb. assert (Hl : Z.land (a * 2 ^ n) b = 0).
  { apply Z.bits_inj'. intros i Hi. rewrite Z.land_spec, Z.bits_0. destruct (decide (i < n)).
    - by rewrite Z.mul_pow2_bits_low by lia.
    - rewrite (testbit_above b n) by lia. apply andb_false_r. }
  by rewrite <- Z.lxor_lor, Z.add_nocarry_lxor.
Qed.

Lemma testbit_shl64 w n i :
  0 <= n -> 0 <= i -> Z.testbit (wrapping_shl u64_MAX w n) i = (i <? 64) && Z.testbit w (i - n).
Proof.
  intros Hn Hi. unfold wrapping_shl. rewrite u64_ones, Z.land_spec, Z.shiftl_spec by lia.
  rewrite Z.testbit_ones_nonneg by lia. apply andb_comm.
Qed.

Lemma testbit_one i : 0 <= i -> Z.testbit 1 i = (i =? 0).
Proof.
  intros. change 1 with (2 ^ 0). destruct (Z.eqb_spec i 0) as [->|].
  - done.
  - by rewrite Z.pow2_bits_false by lia.
Qed.

Lemma land_bit w k : 0 <= k -> (Z.land w (Z.shiftl 1 k) =? 0) = negb (Z.testbit w k).
Proof.
  intros Hk. rewrite Z.shiftl_1_l. destruct (Z.testbit w k) eqn:E; simpl.
  - apply Z.eqb_neq. intros H. apply (f_equal (fun x => Z.testbit x k)) in H.
    rewrite Z.land_spec, E, Z.pow2_bits_true, Z.bits_0 in H by lia. done.
  - apply Z.eqb_eq, Z.bits_inj'. intros i Hi. rewrite Z.land_spec, Z.bits_0.
    destruct (decide (k = i)) as [->|]; [by rewrite E|].
    by rewrite Z.pow2_bits_false, andb_false_r by lia.
Qed.

Lemma shl64_range w n : 0 <= w -> 0 <= wrapping_shl u64_MAX w n < 2 ^ 64.
Proof.
  intros. unfold wrapping_shl. rewrite u64_ones, Z.land_ones by lia. apply Z.mod_pos_bound. lia.
Qed.

Lemma lor_range64 a b : 0 <= a < 2 ^ 64 -> 0 <= b < 2 ^ 64 -> 0 <= Z.lor a b < 2 ^ 64.
Proof.
  intros Ha Hb. split; [apply Z.lor_nonneg; lia|]. apply range_of_bits; [lia|apply Z.lor_nonneg; lia|].
  intros i Hi. rewrite Z.lor_spec, !(testbit_above _ 64) by done. done.
Qed.

(** Accepting a counter at or above [next]: shift the window past it. *)
Lemma refines_advance w s n :
  window_refines w s -> 1 <= n ->
  window_refines
    {| rw_window := Z.lor (wrapping_shl u64_MAX (rw_window w) n) 1;
       rw_next_expected := rs_next s + n |}
    {| rs_seen := {[rs_next s + n - 1]} ∪ rs_seen s; rs_next := rs_next s + n |}.
Proof.
  intros [Hn Hr Hb Hlt] Hpos. constructor; cbn [rw_window rw_next_expected rs_seen rs_next].
  - done.
  - apply lor_range64; [apply shl64_range|]; lia.
  - intros i Hi. rewrite Z.lor_spec, testbit_shl64, testbit_one, (proj2 (Z.ltb_lt i 64)) by lia. simpl.
    destruct (decide (i = 0)) as [->|Hi0].
    { rewrite orb_true_r. symmetry. apply bool_decide_eq_true, elem_of_union.
      left. apply elem_of_singleton. lia. }
    rewrite (proj2 (Z.eqb_neq i 0)), orb_false_r by done.
    destruct (decide (n <= i)).
    + rewrite Hb by lia. apply bool_decide_ext. rewrite elem_of_union, elem_of_singleton.
      replace (rs_next s + n - 1 - i) with (rs_next s - 1 - (i - n)) by lia. intuition lia.
    + rewrite Z.testbit_neg_r by lia. symmetry. apply bool_decide_eq_false.
      rewrite elem_of_union, elem_of_singleton. intros [|Hin]; [lia|]. apply Hlt in Hin. lia.
  - intros x. rewrite elem_of_union, elem_of_singleton. intros [->|Hx]; [lia|]. apply Hlt in Hx. lia.
Qed.

(** Accepting a late counter: set its bit. *)
Lemma refines_mark w s k :
  window_refines w s -> 0 <= k < 64 ->
  window_refines
    {| rw_window := Z.lor (rw_window w) (Z.shiftl 1 k); rw_next_expected := rs_next s |}
    {| rs_seen := {[rs_next s - 1 - k]} ∪ rs_seen s; rs_next := rs_next s |}.
Proof.
  intros [Hn Hr Hb Hlt] Hk. rewrite Z.shiftl_1_l.
  constructor; cbn [rw_window rw_next_expected rs_seen rs_next].
  - done.
  - apply lor_range64; [done|]. split; [lia|]. apply Z.pow_lt_mono_r; lia.
  - intros i Hi. rewrite Z.lor_spec, Hb by lia. destruct (decide (k = i)) as [->|].
    + rewrite Z.pow2_bits_true, orb_true_r by lia. symmetry.
      apply bool_decide_eq_true, elem_of_union_l, elem_of_singleton. done.
    + rewrite Z.pow2_bits_false, orb_false_r by lia. apply bool_decide_ext.
      rewrite elem_of_union, elem_of_singleton. intuition lia.
  - intros x. rewrite elem_of_union, elem_of_singleton. intros [->|Hx]; [lia|]. by apply Hlt.
Qed.

Lemma shl64_far w n : 0 <= w < 2 ^ 64 -> 64 <= n -> wrapping_shl u64_MAX w n = 0.
Proof.
  intros Hw Hn. apply Z.bits_inj'. intros i Hi. rewrite testbit_shl64, Z.bits_0 by lia.
  destruct (Z.ltb_spec i 64); [|done]. by rewrite Z.testbit_neg_r by lia.
Qed.

Lemma replay_init_refines : window_refines ReplayWindow_new replay_spec_init.
Proof.
  constructor; cbn; try lia.
  - intros i Hi. rewrite Z.bits_0. symmetry. apply bool_decide_eq_false. set_solver.
  - set_solver.
Qed.

(** One step of the window against one step of the specification. *)
Lemma check_and_advance_simulates w s seq :
  window_refines w s ->
  match replay_spec_step s (seq_counter seq) with
  | Some s' => exists w', check_and_advance w seq = (w', Ok tt) /\ window_refines w' s'
  | None => exists e, check_and_advance w seq = (w, Err e)
  end.
Proof.
  intros HR. pose proof HR as [Hn Hr Hb Hlt]. unfold replay_spec_step, check_and_advance.
  set (c := seq_counter seq). rewrite Hn.
  destruct (Z.ltb_spec c (rs_next s)) as [Hc|Hc].
  - rewrite land_bit, negb_involutive by lia.
    destruct (Z.ltb_spec (c + 64) (rs_next s)) as [Hfar|Hfar].
    { rewrite (proj2 (Z.ltb_lt 64 _)) by lia. rewrite orb_true_r. cbn [orb]. eauto. }
    rewrite Hb, (proj2 (Z.ltb_ge 64 _)), (proj2 (Z.ltb_ge (rs_next s + _) c)) by (unfold MAX_SEQ_GAP; lia).
    replace (rs_next s - 1 - (rs_next s - c - 1)) with c by lia.
    case_bool_decide; simpl; [eauto|]. eexists; split; [done|].
    pose proof (refines_mark w s (rs_next s - c - 1) HR) as HM.
    replace (rs_next s - 1 - (rs_next s - c - 1)) with c in HM by lia.
    rewrite Z.max_l by lia. apply HM. lia.
  - rewrite (proj2 (bool_decide_eq_false (c ∈ rs_seen s))) by (intros Hin; apply Hlt in Hin; lia).
    rewrite (proj2 (Z.ltb_ge (c + 64) _)) by lia. cbn [orb].
    pose proof (refines_advance w s (c - rs_next s + 1) HR) as HA.
    replace (rs_next s + (c - rs_next s + 1)) with (c + 1) in HA by lia.
    replace (c + 1 - 1) with c in HA by lia.
    rewrite Z.max_r by lia. unfold MAX_SEQ_GAP.
    destruct (Z.eqb_spec c (rs_next s)) as [Heq|Hne].
    + rewrite (proj2 (Z.ltb_ge _ c)) by lia. eexists; split; [done|].
      replace 1 with (c - rs_next s + 1) at 1 by lia. apply HA. lia.
    + destruct (Z.ltb_spec (rs_next s + 1000) c).
      { rewrite (proj2 (Z.ltb_lt 1000 _)) by lia. eauto. }
      rewrite (proj2 (Z.ltb_ge 1000 _)) by lia. eexists; split; [done|].
      destruct (Z.leb_spec 63 (c - rs_next s)); [|apply HA; lia].
      rewrite shl64_far in HA by lia. apply HA. lia.
Qed.

Lemma accepted_not_seen w s seqs seq :
  window_refines w s -> In seq (accepted_seqs w seqs) -> seq_counter seq ∉ rs_seen s.
Proof.
  revert w s. induction seqs as [|q rest IH]; intros w s HR; simpl; [done|].
  pose proof (check_and_advance_simulates w s q HR) as Hstep.
  unfold replay_spec_step in Hstep. destruct (_ || _) eqn:E.
  - destruct Hstep as [e ->]. eauto.
  - destruct Hstep as (w' & -> & HR'). reflect_bools. intros [->|Hin]; [done|].
    specialize (IH _ _ HR' Hin). cbn [rs_seen] in IH. set_solver.
Qed.

Lemma accepted_seqs_counters_NoDup w s seqs :
  window_refines w s -> NoDup (seq_counter <$> accepted_seqs w seqs).
Proof.
  revert w s. induction seqs as [|q rest IH]; intros w s HR; simpl; [constructor|].
  pose proof (check_and_advance_simulates w s q HR) as Hstep.
  destruct (replay_spec_step _ _) as [s'|] eqn:E.
  - destruct Hstep as (w' & -> & HR'). cbn. constructor; [|eauto].
    intros (x & Hx & Hin)%list_elem_of_fmap. apply list_elem_of_In in Hin.
    eapply accepted_not_seen in Hin; [|done]. unfold replay_spec_step in E.
    destruct (_ || _); simplify_eq. cbn [rs_seen] in Hin. rewrite <- Hx in Hin. set_solver.
  - destruct Hstep as [e ->]. eauto.
Qed.

(** A vector of windows, one per hop, against a vector of specifications:
    advancing one window accepts only a counter that is new for that hop. *)
Lemma windows_step ws specs i seq w' v :
  Forall2 window_refines ws specs -> (i < length ws)%nat ->
  check_and_advance (ws !!! i) seq = (w', v) ->
  exists specs', Forall2 window_refines (<[i := w']> ws) specs' /\
    (forall k, rs_seen (specs !!! k) ⊆ rs_seen (specs' !!! k)) /\
    (is_ok v -> (seq_counter seq ∉ rs_seen (specs !!! i)) /\ seq_counter seq ∈ rs_seen (specs' !!! i)).
Proof.
  intros HR Hi Hc. destruct (lookup_lt_is_Some_2 ws i Hi) as [w Hw].
  destruct (Forall2_lookup_l _ _ _ _ _ HR Hw) as (s & Hs & Hws).
  rewrite (list_lookup_total_correct _ _ _ Hw) in Hc.
  pose proof (check_and_advance_simulates w s seq Hws) as Hstep. unfold replay_spec_step in Hstep.
  destruct (_ || _) eqn:E.
  - destruct Hstep as [e He]. rewrite He in Hc. simplify_eq. exists specs. rewrite list_insert_id by done. done.
  - destruct Hstep as (w1 & He & HR'). rewrite He in Hc. simplify_eq. reflect_bools.
    pose proof (list_lookup_total_correct _ _ _ Hs) as Hst.
    match type of HR' with window_refines _ ?s' => exists (<[i := s']> specs) end.
    assert (Hlen : (i < length specs)%nat) by (eapply lookup_lt_Some; eauto).
    split; [by apply Forall2_insert|]. rewrite list_lookup_total_insert_eq by done. split.
    + intros k. destruct (decide (i = k)) as [<-|Hne].
      * rewrite list_lookup_total_insert_eq, Hst by done. cbn. set_solver.
      * by rewrite list_lookup_total_insert_ne.
    + rewrite Hst. cbn [rs_seen]. split; [done|]. set_solver.
Qed.

(** Both fields of a packed sequence number are read back. *)
Lemma pack_backward_seq_spec (hop counter : Z) :
  0 <= hop -> 0 <= counter ->
  match pack_backward_seq hop counter with
  | Ok seq => hop < MAX_HOPS /\ counter <= BWD_COUNTER_MASK /\ is_u32 seq /\
              seq_hop seq = hop /\ seq_counter seq = counter
  | Err (HopIndexOutOfRange i) => i = hop /\ MAX_HOPS <= hop
  | Err SequenceExhausted => hop < MAX_HOPS /\ BWD_COUNTER_MASK < counter
  | Err _ => False
  end.
Proof.
  intros Hh Hc. unfold pack_backward_seq.
  destruct (Z.leb_spec MAX_HOPS hop) as [|Hhop]; [done|].
  destruct (Z.ltb_spec BWD_COUNTER_MASK counter) as [|Hcnt]; [done|].
  assert (E : Z.lor (wrapping_shl u32_MAX hop BWD_COUNTER_BITS) counter = hop * 2 ^ 29 + counter).
  { unfold wrapping_shl, BWD_COUNTER_BITS, MAX_HOPS in *. change BWD_COUNTER_MASK with (2 ^ 29 - 1) in Hcnt.
    rewrite u32_ones, Z.land_ones, Z.shiftl_mul_pow2, Z.mod_small by lia. apply lor_disjoint; lia. }
  rewrite E. change BWD_COUNTER_MASK with (2 ^ 29 - 1) in Hcnt. unfold MAX_HOPS in *.
  unfold seq_hop, seq_counter, BWD_COUNTER_BITS. rewrite mask_ones, Z.land_ones, Z.shiftr_div_pow2 by lia.
  change (Z.ones 29) with (2 ^ 29 - 1). split_and!; [lia|lia|unfold_ints; lia| |].
  - rewrite Z.div_add_l, Z.div_small by lia. lia.
  - rewrite Z.add_comm, Z_mod_plus_full, Z.mod_small by lia. done.
Qed.

(** ** Properties *)

(** C34: the sliding 64-bit window refines the set of accepted counters: a
    sequence number is accepted exactly when its counter is new, at most 64
    below and at most 1000 above the next expected one; a rejection leaves the
    window untouched. *)
Theorem check_and_advance_refines (w : ReplayWindow) (s : ReplaySpec) (seq : Z) :
  window_refines w s ->
  match replay_spec_step s (seq_counter seq) with
  | Some s' => exists w', check_and_advance w seq = (w', Ok tt) /\ window_refines w' s'
  | None => exists e, check_and_advance w seq = (w, Err e)
  end.
Proof. apply check_and_advance_simulates. Qed.

Lemma check_and_advance_refines_witness :
  window_refines ReplayWindow_new replay_spec_init /\
  match replay_spec_step replay_spec_init (seq_counter 5) with
  | Some s' => exists w', check_and_advance ReplayWindow_new 5 = (w', Ok tt) /\ window_refines w' s'
  | None => exists e, check_and_advance ReplayWindow_new 5 = (ReplayWindow_new, Err e)
  end.
Proof.
  split; [apply replay_init_refines|].
  exact (check_and_advance_refines ReplayWindow_new replay_spec_init 5 replay_init_refines).
Defined.

(** From a fresh window, whatever sequence numbers arrive in whatever
    order, no counter is accepted twice. *)
Theorem replay_window_no_duplicates (seqs : list Z) :
  NoDup (seq_counter <$> accepted_seqs ReplayWindow_new seqs).
Proof. eapply accepted_seqs_counters_NoDup, replay_init_refines. Qed.

(** A packed backward sequence number is a 32-bit integer from which both
    the hop index and the counter are read back, so the sequence spaces of the
    eight hops are disjoint; packing refuses exactly the out-of-range inputs. *)
Theorem pack_backward_seq_roundtrip (hop counter : Z) :
  0 <= hop -> 0 <= counter ->
  match pack_backward_seq hop counter with
  | Ok seq => hop < MAX_HOPS /\ counter <= BWD_COUNTER_MASK /\ is_u32 seq /\
              seq_hop seq = hop /\ seq_counter seq = counter
  | Err (HopIndexOutOfRange i) => i = hop /\ MAX_HOPS <= hop
  | Err SequenceExhausted => hop < MAX_HOPS /\ BWD_COUNTER_MASK < counter
  | Err _ => False
  end.
Proof. apply pack_backward_seq_spec. Qed.

Lemma pack_backward_seq_roundtrip_witness :
  0 <= 3 /\ 0 <= 77 /\ 3 < MAX_HOPS /\ 77 <= BWD_COUNTER_MASK /\ is_u32 (3 * 2 ^ 29 + 77) /\
  seq_hop (3 * 2 ^ 29 + 77) = 3 /\ seq_counter (3 * 2 ^ 29 + 77) = 77.
Proof.
  split; [lia|]. split; [lia|].
  exact (pack_backward_seq_roundtrip 3 77 ltac:(lia) ltac:(lia)).
Defined.
