(* ===== verification/Circuit.v ===== *)
(** * Layered onion circuits (src/onion/circuit.rs)

    The client's [OnionCircuit] and a relay's [RelayCircuitHop]: wrapping a
    cell in one AEAD layer for the addressed hop and one stream-cipher layer
    per hop before it, peeling a layer at a relay, and the reverse direction.

    The ciphers come from the chacha20 and chacha20poly1305 crates and are
    parameters ([OnionPrimitives]); what the code relies on is stated in
    [OnionPrimitivesLaws]. A failed [decrypt_in_place_detached] leaves the
    buffer as it was, which [peel_forward] relies on. *)
From S2P Require Import Prelude Cell Replay.

(** ** Cipher interface *)
Class OnionPrimitives := {
  (** ChaCha20 keystream: key, nonce, number of bytes. *)
  chacha20_keystream : bytes -> bytes -> nat -> bytes;
  (** ChaCha20-Poly1305: key, nonce, associated data, plaintext to
      ciphertext and tag, and back. *)
  aead_seal : bytes -> bytes -> bytes -> bytes -> bytes * bytes;
  aead_open : bytes -> bytes -> bytes -> bytes -> bytes -> option bytes;
}.

(** RFC 8439: the keystream has the requested length; sealing keeps the
    length and makes a 16-byte tag; opening inverts sealing, and succeeds only
    on what sealing the recovered plaintext produces. *)
Class OnionPrimitivesLaws `{OnionPrimitives} : Prop := {
  keystream_length : forall k n len, length (chacha20_keystream k n len) = len;
  keystream_bytes : forall k n len, is_bytes (chacha20_keystream k n len);
  seal_length : forall k n a pt ct tag,
    aead_seal k n a pt = (ct, tag) -> length ct = length pt /\ length tag = 16%nat;
  seal_bytes : forall k n a pt ct tag,
    aead_seal k n a pt = (ct, tag) -> is_bytes pt -> is_bytes ct /\ is_bytes tag;
  open_seal : forall k n a pt ct tag,
    aead_seal k n a pt = (ct, tag) -> aead_open k n a ct tag = Some pt;
  open_bytes : forall k n a ct tag pt,
    aead_open k n a ct tag = Some pt -> is_bytes ct -> is_bytes pt;
  open_sound : forall k n a ct tag pt,
    aead_open k n a ct tag = Some pt -> aead_seal k n a pt = (ct, tag);
}.

(** ** Data *)
Record HopKeys := mkHopKeys {
  forward_key : bytes;
  backward_key : bytes;
  forward_mac : bytes;
  backward_mac : bytes;
  forward_aead_key : bytes;
  backward_aead_key : bytes;
}.

Record HopCryptState := mkHopCryptState { crypt_keys : HopKeys }.

Record OnionCircuit := mkOnionCircuit {
  circ_id : Z;
  circ_hops : list HopCryptState;
  circ_sequence_no : Z;
  circ_bwd_replay_windows : list ReplayWindow;
}.

Record RelayCircuitHop := mkRelayCircuitHop {
  hop_circuit_id : Z;
  hop_context_id : Z;
  hop_crypt : HopCryptState;
  hop_expected_recv_seq : Z;
  hop_next_send_seq : Z;
  hop_index : Z;
}.

Inductive PeelOutcome :=
| AddressedToThisRelay (command : CellCommand) (len : Z)
| ForwardDownstream.

(** ** Operations *)

Definition build_nonce (direction circuit_id sequence_no : Z) : bytes :=
  let nonce := replicate 12 0 in
  let nonce := blit 0 [direction] nonce in
  let nonce := blit 4 (be_bytes 4 circuit_id) nonce in
  blit 8 (be_bytes 4 sequence_no) nonce.

Section Circuit.
Context `{OnionPrimitives}.

Definition seal_forward (c : HopCryptState) (nonce header pt_body : bytes) : bytes * bytes :=
  aead_seal (forward_aead_key (crypt_keys c)) nonce header pt_body.

Definition open_forward (c : HopCryptState) (nonce header ct_body tag : bytes)
    : bytes * result CircuitError unit :=
  match aead_open (forward_aead_key (crypt_keys c)) nonce header ct_body tag with
  | Some pt => (pt, Ok tt)
  | None => (ct_body, Err MacVerificationFailed)
  end.

Definition seal_backward (c : HopCryptState) (nonce header pt_body : bytes) : bytes * bytes :=
  aead_seal (backward_aead_key (crypt_keys c)) nonce header pt_body.

Definition open_backward (c : HopCryptState) (nonce header ct_body tag : bytes)
    : bytes * result CircuitError unit :=
  match aead_open (backward_aead_key (crypt_keys c)) nonce header ct_body tag with
  | Some pt => (pt, Ok tt)
  | None => (ct_body, Err MacVerificationFailed)
  end.

Definition encrypt_forward_stream (c : HopCryptState) (nonce data : bytes) : bytes :=
  xor_bytes (chacha20_keystream (forward_key (crypt_keys c)) nonce (length data)) data.

Definition encrypt_backward_stream (c : HopCryptState) (nonce data : bytes) : bytes :=
  xor_bytes (chacha20_keystream (backward_key (crypt_keys c)) nonce (length data)) data.

(** *** The client's circuit *)

Definition OnionCircuit_new (circuit_id : Z) : OnionCircuit :=
  {| circ_id := circuit_id; circ_hops := []; circ_sequence_no := 1;
     circ_bwd_replay_windows := [] |}.

Definition add_hop (self : OnionCircuit) (keys : HopKeys) : OnionCircuit * result CircuitError unit :=
  if MAX_HOPS <=? Z.of_nat (length (circ_hops self)) then
    (self, Err (HopIndexOutOfRange (Z.of_nat (length (circ_hops self)))))
  else
    ({| circ_id := circ_id self;
        circ_hops := circ_hops self ++ [{| crypt_keys := keys |}];
        circ_sequence_no := circ_sequence_no self;
        circ_bwd_replay_windows := circ_bwd_replay_windows self ++ [ReplayWindow_new] |}, Ok tt).

Definition hop_count (self : OnionCircuit) : nat := length (circ_hops self).

(** [raw.split_at_mut(8)], then [body.split_at_mut(ONION_CELL_SIZE - 24)]. *)
Definition raw_header (raw : bytes) : bytes := take 8 raw.
Definition raw_body (raw : bytes) : bytes := drop 8 raw.
Definition body_text (body : bytes) : bytes := take (ONION_CELL_SIZE - 24) body.
Definition body_mac (body : bytes) : bytes := drop (ONION_CELL_SIZE - 24) body.

(** The addressed hop's AEAD layer, applied in place to the wire buffer. *)
Definition seal_target (target : option HopCryptState) (nonce raw : bytes) : bytes :=
  match target with
  | Some target_hop =>
      let header := raw_header raw in
      let pt := body_text (raw_body raw) in
      let '(ct, tag) := seal_forward target_hop nonce (drop 4 header) pt in
      header ++ ct ++ tag
  | None => raw
  end.

(** One routing layer: [hop.encrypt_forward_stream(&nonce, &mut raw[8..])]. *)
Definition forward_layer (nonce : bytes) (raw : bytes) (hop : HopCryptState) : bytes :=
  raw_header raw ++ encrypt_forward_stream hop nonce (raw_body raw).

Definition wrap_forward (self : OnionCircuit) (cell : OnionCell)
    : OnionCircuit * OnionCell * result CircuitError bytes :=
  if circ_sequence_no self =? u32_MAX then (self, cell, Err SequenceExhausted)
  else if negb (cell_circuit_id cell =? circ_id self) then (self, cell, Err InvalidCircuitId)
  else
    let cell := {| cell_circuit_id := cell_circuit_id cell;
                   cell_sequence_no := circ_sequence_no self;
                   cell_command := cell_command cell;
                   cell_stream_id := cell_stream_id cell;
                   cell_length := cell_length cell;
                   cell_ephemeral_key := cell_ephemeral_key cell;
                   cell_mac := cell_mac cell;
                   cell_payload := cell_payload cell |} in
    match checked_add u32_MAX (circ_sequence_no self) 1 with
    | None => (self, cell, Err SequenceExhausted)
    | Some next =>
        let self := {| circ_id := circ_id self; circ_hops := circ_hops self;
                       circ_sequence_no := next;
                       circ_bwd_replay_windows := circ_bwd_replay_windows self |} in
        let nonce := build_nonce 1 0 (cell_sequence_no cell) in
        let raw := OnionCell_serialize cell in
        let raw := seal_target (last (circ_hops self)) nonce raw in
        let hop_count := length (circ_hops self) in
        let raw :=
          if (1 <? hop_count)%nat then
            fold_left (forward_layer nonce) (rev (take (hop_count - 1) (circ_hops self))) raw
          else raw in
        (self, cell, Ok raw)
    end.

(** One layer of the backward path: [hop.encrypt_backward_stream(&nonce, &mut raw[8..])]. *)
Definition backward_layer (nonce : bytes) (raw : bytes) (hop : HopCryptState) : bytes :=
  raw_header raw ++ encrypt_backward_stream hop nonce (raw_body raw).

(** Returns the circuit, the buffer as the call leaves it, and the result. *)
Definition unwrap_backward (self : OnionCircuit) (raw : bytes)
    : OnionCircuit * bytes * result CircuitError (Z * OnionCell) :=
  let cell_circuit_id := from_be (slice 0 4 raw) in
  if negb (cell_circuit_id =? circ_id self) then (self, raw, Err InvalidCircuitId)
  else
    let seq := from_be (slice 4 8 raw) in
    let hop_index := seq_hop seq in
    match circ_hops self !! Z.to_nat hop_index with
    | None => (self, raw, Err (HopIndexOutOfRange hop_index))
    | Some target_hop =>
        let nonce := build_nonce 2 0 seq in
        let raw := fold_left (backward_layer nonce) (take (Z.to_nat hop_index) (circ_hops self)) raw in
        let header := raw_header raw in
        let body := raw_body raw in
        let tag := body_mac body in
        match open_backward target_hop nonce (drop 4 header) (body_text body) tag with
        | (ct, Err e) => (self, header ++ ct ++ tag, Err e)
        | (pt, Ok _) =>
            let raw := header ++ pt ++ tag in
            let window := circ_bwd_replay_windows self !!! Z.to_nat hop_index in
            let '(window', verdict) := check_and_advance window seq in
            let self := {| circ_id := circ_id self; circ_hops := circ_hops self;
                           circ_sequence_no := circ_sequence_no self;
                           circ_bwd_replay_windows :=
                             <[Z.to_nat hop_index := window']> (circ_bwd_replay_windows self) |} in
            match verdict with
            | Err e => (self, raw, Err e)
            | Ok _ =>
                match OnionCell_parse raw with
                | Err msg => (self, raw, Err (ParseError msg))
                | Ok cell => (self, raw, Ok (hop_index, cell))
                end
            end
        end
    end.

(** *** A relay's hop *)

Definition RelayCircuitHop_new (circuit_id : Z) (keys : HopKeys) (hop_index : Z) : RelayCircuitHop :=
  {| hop_circuit_id := circuit_id; hop_context_id := circuit_id;
     hop_crypt := {| crypt_keys := keys |};
     hop_expected_recv_seq := 1; hop_next_send_seq := 1; hop_index := hop_index |}.

Definition set_expected_recv_seq (self : RelayCircuitHop) (v : Z) : RelayCircuitHop :=
  {| hop_circuit_id := hop_circuit_id self; hop_context_id := hop_context_id self;
     hop_crypt := hop_crypt self; hop_expected_recv_seq := v;
     hop_next_send_seq := hop_next_send_seq self; hop_index := hop_index self |}.

Definition set_next_send_seq (self : RelayCircuitHop) (v : Z) : RelayCircuitHop :=
  {| hop_circuit_id := hop_circuit_id self; hop_context_id := hop_context_id self;
     hop_crypt := hop_crypt self; hop_expected_recv_seq := hop_expected_recv_seq self;
     hop_next_send_seq := v; hop_index := hop_index self |}.

(** The checks of an authenticated frame, before any replay state is
    committed: stale sequence, gap, exhaustion, command, length. *)
Definition accept_addressed (self : RelayCircuitHop) (seq : Z) (raw : bytes)
    : result CircuitError (Z * CellCommand * Z) :=
  if seq <? hop_expected_recv_seq self then
    Err (AntiReplayRejection ("Stale sequence " +:+ pretty seq)%string)
  else if MAX_SEQ_GAP <? saturating_sub seq (hop_expected_recv_seq self) then
    Err (AntiReplayRejection "Sequence gap too large")
  else
    match checked_add u32_MAX seq 1 with
    | None => Err SequenceExhausted
    | Some next_seq =>
        match command_from_u8 (raw !!! 8%nat) with
        | None => Err (ParseError ("Unknown cell command: " +:+ pretty (raw !!! 8%nat))%string)
        | Some command =>
            let length := from_be (slice 11 13 raw) in
            if Z.of_nat PAYLOAD_SIZE <? length then Err PayloadTooShort
            else Ok (next_seq, command, Z.min length (Z.of_nat PAYLOAD_SIZE))
        end
    end.

Definition peel_forward (self : RelayCircuitHop) (raw : bytes)
    : RelayCircuitHop * bytes * result CircuitError PeelOutcome :=
  let cell_circuit_id := from_be (slice 0 4 raw) in
  if negb (cell_circuit_id =? hop_circuit_id self) then (self, raw, Err InvalidCircuitId)
  else
    let seq := from_be (slice 4 8 raw) in
    let nonce := build_nonce 1 0 seq in
    let header := raw_header raw in
    let body := raw_body raw in
    let tag := body_mac body in
    match open_forward (hop_crypt self) nonce (drop 4 header) (body_text body) tag with
    | (pt, Ok _) =>
        let raw := header ++ pt ++ tag in
        match accept_addressed self seq raw with
        | Err e => (self, raw, Err e)
        | Ok (next_seq, command, len) =>
            (set_expected_recv_seq self next_seq, raw, Ok (AddressedToThisRelay command len))
        end
    | (ct, Err _) =>
        let raw := header ++ ct ++ tag in
        (self, raw_header raw ++ encrypt_forward_stream (hop_crypt self) nonce (raw_body raw),
         Ok ForwardDownstream)
    end.

Definition wrap_backward_relay (self : RelayCircuitHop) (raw : bytes)
    : RelayCircuitHop * bytes * result CircuitError unit :=
  let seq := from_be (slice 4 8 raw) in
  let claimed_hop := seq_hop seq in
  if claimed_hop =? hop_index self then
    (self, raw, Err (AntiReplayRejection "Relayed cell claims our hop index"))
  else
    let nonce := build_nonce 2 0 seq in
    (self, raw_header raw ++ encrypt_backward_stream (hop_crypt self) nonce (raw_body raw), Ok tt).

Definition wrap_backward_originate (self : RelayCircuitHop) (raw : bytes)
    : RelayCircuitHop * bytes * result CircuitError unit :=
  let counter := hop_next_send_seq self in
  match checked_add u32_MAX (hop_next_send_seq self) 1 with
  | None => (self, raw, Err SequenceExhausted)
  | Some next =>
      let self := set_next_send_seq self next in
      match pack_backward_seq (hop_index self) counter with
      | Err e => (self, raw, Err e)
      | Ok seq =>
          let raw := blit 4 (be_bytes 4 seq) raw in
          let nonce := build_nonce 2 0 seq in
          let header := raw_header raw in
          let pt := body_text (raw_body raw) in
          let '(ct, tag) := seal_backward (hop_crypt self) nonce (drop 4 header) pt in
          (self, header ++ ct ++ tag, Ok tt)
      end
  end.

(** *** The path between client and exit

    How src/gateway/server.rs moves a cell along the circuit: an intermediate
    relay peels, rewrites the link-local circuit id and writes downstream; on
    the way back it checks the downstream id, restores its own and adds its
    layer. *)
Definition relay_downstream (hop : RelayCircuitHop) (downstream_id : Z) (raw : bytes) : option bytes :=
  match peel_forward hop raw with
  | (_, raw, Ok ForwardDownstream) => Some (blit 0 (be_bytes 4 downstream_id) raw)
  | _ => None
  end.

Definition relay_upstream (hop : RelayCircuitHop) (downstream_id : Z) (raw : bytes) : option bytes :=
  if negb (from_be (slice 0 4 raw) =? downstream_id) then None
  else
    match wrap_backward_relay hop (blit 0 (be_bytes 4 (hop_circuit_id hop)) raw) with
    | (_, raw, Ok _) => Some raw
    | _ => None
    end.

(** Intermediate relays in path order, each with its downstream link id. *)
Fixpoint path_forward (relays : list (RelayCircuitHop * Z)) (raw : bytes) : option bytes :=
  match relays with
  | [] => Some raw
  | (hop, id) :: rest =>
      match relay_downstream hop id raw with
      | Some raw => path_forward rest raw
      | None => None
      end
  end.

Fixpoint path_backward (relays : list (RelayCircuitHop * Z)) (raw : bytes) : option bytes :=
  match relays with
  | [] => Some raw
  | (hop, id) :: rest =>
      match path_backward rest raw with
      | Some raw => relay_upstream hop id raw
      | None => None
      end
  end.

(** ** Invariant of the client's circuit: a replay window per hop, at most
    eight hops, a sequence number that never reached zero. *)
Record circuit_wf (c : OnionCircuit) : Prop := {
  cw_windows : length (circ_bwd_replay_windows c) = length (circ_hops c);
  cw_hops : Z.of_nat (length (circ_hops c)) <= MAX_HOPS;
  cw_seq : 1 <= circ_sequence_no c <= u32_MAX;
}.

(** The cell as [wrap_forward] stamps it. *)
Definition stamp (cell : OnionCell) (circuit_id seq : Z) (mac : bytes) : OnionCell :=
  {| cell_circuit_id := circuit_id; cell_sequence_no := seq;
     cell_command := cell_command cell; cell_stream_id := cell_stream_id cell;
     cell_length := cell_length cell; cell_ephemeral_key := cell_ephemeral_key cell;
     cell_mac := mac; cell_payload := cell_payload cell |}.

(** Everything after the 8-byte header and before the tag. *)
Definition cell_text (cell : OnionCell) : bytes :=
  [command_as_u8 (cell_command cell)] ++ be_bytes 2 (cell_stream_id cell) ++
  be_bytes 2 (cell_length cell) ++ cell_ephemeral_key cell ++ cell_payload cell.

(** Routing layers of a list of hops around an inner body, outermost first. *)
Definition layers_forward (nonce : bytes) (hops : list HopCryptState) (body : bytes) : bytes :=
  foldr (fun hop b => encrypt_forward_stream hop nonce b) body hops.

Definition layers_backward (nonce : bytes) (hops : list HopCryptState) (body : bytes) : bytes :=
  foldr (fun hop b => encrypt_backward_stream hop nonce b) body hops.

(** No hop before the addressed one accepts its layer as its own: the event
    that a 128-bit tag matches by accident is excluded. *)
Fixpoint spurious_free (nonce aad : bytes) (hops : list HopCryptState) (body : bytes) : Prop :=
  match hops with
  | [] => True
  | hop :: rest =>
      let layer := layers_forward nonce (hop :: rest) body in
      aead_open (forward_aead_key (crypt_keys hop)) nonce aad (body_text layer) (body_mac layer) = None
      /\ spurious_free nonce aad rest body
  end.

(** Consecutive relays agree on the id of the link between them. *)
Fixpoint linked (id : Z) (relays : list (RelayCircuitHop * Z)) (exit_id : Z) : Prop :=
  match relays with
  | [] => id = exit_id
  | (hop, downstream) :: rest => hop_circuit_id hop = id /\ is_u32 id /\ linked downstream rest exit_id
  end.

(** The 8-byte header. *)
Definition header8 (id seq : Z) : bytes := be_bytes 4 id ++ be_bytes 4 seq.

(** *** Traces: what an endpoint accepts or emits over any sequence of calls *)

(** Sequence numbers a relay accepts as addressed to it. *)
Fixpoint peel_trace (hop : RelayCircuitHop) (raws : list bytes) : list Z :=
  match raws with
  | [] => []
  | raw :: rest =>
      match peel_forward hop raw with
      | (hop', _, Ok (AddressedToThisRelay _ _)) => from_be (slice 4 8 raw) :: peel_trace hop' rest
      | (hop', _, _) => peel_trace hop' rest
      end
  end.

(** Sequence numbers under which a client emits forward cells. *)
Fixpoint wrap_trace (c : OnionCircuit) (cells : list OnionCell) : list Z :=
  match cells with
  | [] => []
  | cell :: rest =>
      match wrap_forward c cell with
      | (c', cell', Ok _) => cell_sequence_no cell' :: wrap_trace c' rest
      | (c', _, Err _) => wrap_trace c' rest
      end
  end.

(** Sequence numbers under which a relay originates backward cells. *)
Fixpoint originate_trace (hop : RelayCircuitHop) (raws : list bytes) : list Z :=
  match raws with
  | [] => []
  | raw :: rest =>
      match wrap_backward_originate hop raw with
      | (hop', raw', Ok _) => from_be (slice 4 8 raw') :: originate_trace hop' rest
      | (hop', _, Err _) => originate_trace hop' rest
      end
  end.

(** Sequence numbers of the backward cells a client accepts. *)
Fixpoint unwrap_trace (c : OnionCircuit) (raws : list bytes) : list Z :=
  match raws with
  | [] => []
  | raw :: rest =>
      match unwrap_backward c raw with
      | (c', _, Ok _) => from_be (slice 4 8 raw) :: unwrap_trace c' rest
      | (c', _, Err _) => unwrap_trace c' rest
      end
  end.

(** The states a client circuit of a given id can be in. *)
Inductive circuit_reachable (id : Z) : OnionCircuit -> Prop :=
| reach_new : circuit_reachable id (OnionCircuit_new id)
| reach_add_hop c keys c' r :
    circuit_reachable id c -> add_hop c keys = (c', r) -> circuit_reachable id c'
| reach_wrap c cell c' cell' r :
    circuit_reachable id c -> wrap_forward c cell = (c', cell', r) -> circuit_reachable id c'
| reach_unwrap c raw c' raw' r :
    circuit_reachable id c -> unwrap_backward c raw = (c', raw', r) -> circuit_reachable id c'.

(** ** Lemmas *)
Section WithLaws.
Context `{!OnionPrimitivesLaws}.

Lemma encrypt_forward_length hop nonce data :
  length (encrypt_forward_stream hop nonce data) = length data.
Proof. unfold encrypt_forward_stream. apply xor_bytes_length, keystream_length. Qed.

Lemma encrypt_backward_length hop nonce data :
  length (encrypt_backward_stream hop nonce data) = length data.
Proof. unfold encrypt_backward_stream. apply xor_bytes_length, keystream_length. Qed.

Lemma encrypt_forward_involutive hop nonce data :
  encrypt_forward_stream hop nonce (encrypt_forward_stream hop nonce data) = data.
Proof.
  unfold encrypt_forward_stream at 1. rewrite encrypt_forward_length.
  apply xor_bytes_involutive, keystream_length.
Qed.

Lemma encrypt_backward_involutive hop nonce data :
  encrypt_backward_stream hop nonce (encrypt_backward_stream hop nonce data) = data.
Proof.
  unfold encrypt_backward_stream at 1. rewrite encrypt_backward_length.
  apply xor_bytes_involutive, keystream_length.
Qed.

Lemma layers_forward_length nonce hops body : length (layers_forward nonce hops body) = length body.
Proof. induction hops; simpl; [done|]. by rewrite encrypt_forward_length. Qed.

Lemma layers_backward_length nonce hops body : length (layers_backward nonce hops body) = length body.
Proof. induction hops; simpl; [done|]. by rewrite encrypt_backward_length. Qed.

(** Splitting a buffer whose header and body are known. *)
Lemma raw_header_app h b : length h = 8%nat -> raw_header (h ++ b) = h.
Proof. intros E. unfold raw_header. rewrite <- E. apply take_app_length. Qed.

Lemma raw_body_app h b : length h = 8%nat -> raw_body (h ++ b) = b.
Proof. intros E. unfold raw_body. rewrite <- E. apply drop_app_length. Qed.

Lemma body_text_app ct tag : length ct = (ONION_CELL_SIZE - 24)%nat -> body_text (ct ++ tag) = ct.
Proof. intros E. unfold body_text. rewrite <- E. apply take_app_length. Qed.

Lemma body_mac_app ct tag : length ct = (ONION_CELL_SIZE - 24)%nat -> body_mac (ct ++ tag) = tag.
Proof. intros E. unfold body_mac. rewrite <- E. apply drop_app_length. Qed.

Lemma body_split body : body_text body ++ body_mac body = body.
Proof. apply take_drop. Qed.

Lemma raw_split raw : raw_header raw ++ raw_body raw = raw.
Proof. apply take_drop. Qed.

Lemma fold_forward_layers nonce hops h body :
  length h = 8%nat ->
  fold_left (forward_layer nonce) (rev hops) (h ++ body) = h ++ layers_forward nonce hops body.
Proof.
  intros Hh. rewrite fold_left_rev_right || idtac.
  induction hops as [|hop hops IH]; simpl; [done|].
  rewrite fold_left_app, IH. simpl. unfold forward_layer. by rewrite raw_header_app, raw_body_app.
Qed.

Lemma fold_backward_layers nonce hops h body :
  length h = 8%nat ->
  fold_left (backward_layer nonce) hops (h ++ layers_backward nonce hops body) = h ++ body.
Proof.
  intros Hh. induction hops as [|hop hops IH]; simpl; [done|].
  unfold backward_layer at 2. rewrite raw_header_app, raw_body_app, encrypt_backward_involutive by done.
  apply IH.
Qed.

Lemma header8_length id seq : length (header8 id seq) = 8%nat.
Proof. reflexivity. Qed.

Lemma header8_id id seq b : is_u32 id -> from_be (slice 0 4 (header8 id seq ++ b)) = id.
Proof.
  intros. unfold header8. rewrite <- app_assoc, slice_app_first by done.
  apply from_be_be_bytes. change (256 ^ Z.of_nat 4) with 4294967296. unfold_ints. lia.
Qed.

Lemma header8_seq id seq b : is_u32 seq -> from_be (slice 4 8 (header8 id seq ++ b)) = seq.
Proof.
  intros. unfold header8. rewrite <- app_assoc, (slice_app_at 4 8) by done.
  apply from_be_be_bytes. change (256 ^ Z.of_nat 4) with 4294967296. unfold_ints. lia.
Qed.

Lemma header8_aad id seq : drop 4 (header8 id seq) = be_bytes 4 seq.
Proof. reflexivity. Qed.

Lemma header8_relabel id id' seq b : blit 0 (be_bytes 4 id') (header8 id seq ++ b) = header8 id' seq ++ b.
Proof. unfold header8. rewrite <- !app_assoc. by apply blit_first. Qed.

Lemma serialize_split cell :
  cell_wf cell ->
  OnionCell_serialize cell =
    header8 (cell_circuit_id cell) (cell_sequence_no cell) ++ cell_text cell ++ cell_mac cell.
Proof.
  intros Hwf. rewrite serialize_layout by done. unfold cell_layout, header8, cell_text.
  by rewrite <- !app_assoc.
Qed.

Lemma cell_text_length cell : cell_wf cell -> length (cell_text cell) = (ONION_CELL_SIZE - 24)%nat.
Proof.
  intros [_ _ _ _ [Hk _] _ [Hp _]]. unfold cell_text. lengths. rewrite Hk, Hp. sizes.
Qed.

Lemma stamp_wf cell id seq mac :
  cell_wf cell -> is_u32 id -> is_u32 seq -> length mac = 16%nat -> is_bytes mac ->
  cell_wf (stamp cell id seq mac).
Proof. intros [] ? ? ? ?. constructor; cell_fields; auto. Qed.

Lemma stamp_layout cell id seq mac :
  cell_layout (stamp cell id seq mac) = header8 id seq ++ cell_text cell ++ mac.
Proof. unfold cell_layout, header8, cell_text. cbn. by rewrite <- !app_assoc. Qed.

Lemma layout_fields c :
  cell_wf c ->
  cell_layout c !!! 8%nat = command_as_u8 (cell_command c) /\
  from_be (slice 11 13 (cell_layout c)) = cell_length c.
Proof.
  intros []. unfold cell_layout.
  destruct (parse_pieces (be_bytes 4 (cell_circuit_id c)) (be_bytes 4 (cell_sequence_no c))
    (be_bytes 2 (cell_stream_id c)) (be_bytes 2 (cell_length c)) (cell_ephemeral_key c)
    (cell_payload c) (cell_mac c) (command_as_u8 (cell_command c)))
    as (_ & _ & -> & _ & -> & _); rewrite ?be_bytes_length; try tauto.
  split; [done|]. apply from_be_be_bytes. change (256 ^ Z.of_nat 2) with 65536. sizes.
Qed.

Lemma cell_text_bytes cell : cell_wf cell -> is_bytes (cell_text cell).
Proof.
  intros [? ? ? ? [? ?] [? ?] [? ?]]. unfold cell_text. pose proof (command_as_u8_bounds (cell_command cell)). auto 10 with bytes.
Qed.

(** A relay that is not addressed removes exactly its own layer. *)
Lemma relay_downstream_peels hop downstream seq body :
  is_u32 (hop_circuit_id hop) -> is_u32 seq ->
  let nonce := build_nonce 1 0 seq in
  let layer := encrypt_forward_stream (hop_crypt hop) nonce body in
  aead_open (forward_aead_key (crypt_keys (hop_crypt hop))) nonce (be_bytes 4 seq)
    (body_text layer) (body_mac layer) = None ->
  relay_downstream hop downstream (header8 (hop_circuit_id hop) seq ++ layer)
    = Some (header8 downstream seq ++ body).
Proof.
  intros Hid Hseq nonce layer Hopen. unfold relay_downstream, peel_forward, open_forward.
  rewrite header8_id, header8_seq, Z.eqb_refl by done. cbn [negb].
  rewrite raw_header_app, raw_body_app, header8_aad by done. fold nonce. rewrite Hopen.
  rewrite body_split, raw_header_app, raw_body_app by done. unfold layer.
  by rewrite encrypt_forward_involutive, header8_relabel.
Qed.

Lemma path_forward_peels relays id exit_id seq body :
  linked id relays exit_id -> is_u32 seq ->
  spurious_free (build_nonce 1 0 seq) (be_bytes 4 seq) ((fun r => hop_crypt r.1) <$> relays) body ->
  path_forward relays
    (header8 id seq ++ layers_forward (build_nonce 1 0 seq) ((fun r => hop_crypt r.1) <$> relays) body)
    = Some (header8 exit_id seq ++ body).
Proof.
  revert id. induction relays as [|[hop d] rest IH]; intros id Hl Hseq Hs.
  { cbn in Hl. by subst. }
  destruct Hl as (<- & Hid & Hl). rewrite fmap_cons in *. destruct Hs as [Hopen Hs].
  cbn [path_forward fst]. unfold layers_forward at 1. cbn [foldr].
  rewrite relay_downstream_peels by done. by apply IH.
Qed.

(** The addressed relay recovers the cell and commits its replay counter. *)
Lemma peel_forward_addressed hop cell seq ct tag :
  cell_wf cell -> is_u32 (hop_circuit_id hop) -> 0 <= seq < u32_MAX ->
  hop_expected_recv_seq hop <= seq <= hop_expected_recv_seq hop + MAX_SEQ_GAP ->
  seal_forward (hop_crypt hop) (build_nonce 1 0 seq) (be_bytes 4 seq) (cell_text cell) = (ct, tag) ->
  peel_forward hop (header8 (hop_circuit_id hop) seq ++ ct ++ tag) =
    (set_expected_recv_seq hop (seq + 1), header8 (hop_circuit_id hop) seq ++ cell_text cell ++ tag,
     Ok (AddressedToThisRelay (cell_command cell) (cell_length cell))).
Proof.
  intros Hwf Hid Hseq Hexp Hseal. unfold seal_forward in Hseal.
  destruct (seal_length _ _ _ _ _ _ Hseal) as [Hct Htag].
  destruct (seal_bytes _ _ _ _ _ _ Hseal (cell_text_bytes _ Hwf)) as [_ Htb].
  rewrite cell_text_length in Hct by done.
  assert (Hu : is_u32 seq) by (unfold_ints; lia).
  unfold peel_forward, open_forward. rewrite header8_id, header8_seq, Z.eqb_refl by done. cbn [negb].
  rewrite raw_header_app, raw_body_app, header8_aad, body_text_app, body_mac_app by done.
  rewrite (open_seal _ _ _ _ _ _ Hseal). unfold accept_addressed. rewrite <- stamp_layout.
  destruct (layout_fields (stamp cell (hop_circuit_id hop) seq tag)) as [-> ->]; [by apply stamp_wf|].
  rewrite command_roundtrip. destruct Hwf. cell_fields. unfold stamp. cell_fields.
  unfold checked_add, saturating_sub. rewrite (proj2 (Z.ltb_ge seq _)), (proj2 (Z.ltb_ge MAX_SEQ_GAP _)),
    (proj2 (Z.leb_le _ u32_MAX)), (proj2 (Z.ltb_ge _ (cell_length cell))) by lia.
  by rewrite Z.min_l by lia.
Qed.

(** What [wrap_forward] puts on the wire. *)
Lemma wrap_forward_eq c cell inits target ct tag :
  cell_wf cell -> circuit_wf c -> circ_sequence_no c < u32_MAX ->
  cell_circuit_id cell = circ_id c -> circ_hops c = inits ++ [target] ->
  let seq := circ_sequence_no c in
  let nonce := build_nonce 1 0 seq in
  seal_forward target nonce (be_bytes 4 seq) (cell_text cell) = (ct, tag) ->
  wrap_forward c cell =
    ({| circ_id := circ_id c; circ_hops := circ_hops c; circ_sequence_no := seq + 1;
        circ_bwd_replay_windows := circ_bwd_replay_windows c |},
     stamp cell (circ_id c) seq (cell_mac cell),
     Ok (header8 (circ_id c) seq ++ layers_forward nonce inits (ct ++ tag))).
Proof.
  intros Hwf [_ _ Hseq] Hlt Hid Hhops seq nonce Hseal. unfold wrap_forward, checked_add.
  rewrite (proj2 (Z.eqb_neq _ u32_MAX)), Hid, Z.eqb_refl, (proj2 (Z.leb_le _ u32_MAX)) by lia.
  cbn [negb circ_hops circ_id circ_sequence_no circ_bwd_replay_windows]. cell_fields.
  f_equal. f_equal.
  fold (stamp cell (circ_id c) (circ_sequence_no c) (cell_mac cell)). fold seq. fold nonce.
  pose proof Hwf as [? ? ? ? ? [? ?] ?].
  rewrite serialize_layout, stamp_layout by (apply stamp_wf; unfold_ints; (lia || congruence || auto)).
  rewrite Hhops, last_snoc. unfold seal_target.
  rewrite raw_header_app, raw_body_app, header8_aad, body_text_app, Hseal
    by (done || by apply cell_text_length).
  rewrite length_app. cbn [length]. replace (length inits + 1 - 1)%nat with (length inits) by lia.
  rewrite take_app_length. destruct (Nat.ltb_spec 1 (length inits + 1)).
  - by apply fold_forward_layers.
  - by destruct inits; [|simpl in *; lia].
Qed.

(** *** Backward direction *)

Lemma wrap_backward_originate_eq hop cell seq ct tag :
  cell_wf cell -> hop_next_send_seq hop < u32_MAX ->
  pack_backward_seq (hop_index hop) (hop_next_send_seq hop) = Ok seq ->
  seal_backward (hop_crypt hop) (build_nonce 2 0 seq) (be_bytes 4 seq) (cell_text cell) = (ct, tag) ->
  wrap_backward_originate hop (OnionCell_serialize cell) =
    (set_next_send_seq hop (hop_next_send_seq hop + 1),
     header8 (cell_circuit_id cell) seq ++ ct ++ tag, Ok tt).
Proof.
  intros Hwf Hlt Hpack Hseal. unfold wrap_backward_originate, checked_add.
  rewrite (proj2 (Z.leb_le _ u32_MAX)) by lia. cbn [set_next_send_seq hop_index hop_crypt].
  rewrite Hpack, serialize_split by done. unfold header8. rewrite <- !app_assoc, blit_app by done.
  rewrite app_assoc, raw_header_app, raw_body_app, body_text_app by (done || by apply cell_text_length).
  change (drop 4 _) with (be_bytes 4 seq). by rewrite Hseal.
Qed.

Lemma relay_upstream_adds_layer hop downstream seq body :
  is_u32 downstream -> is_u32 seq -> seq_hop seq <> hop_index hop ->
  relay_upstream hop downstream (header8 downstream seq ++ body) =
    Some (header8 (hop_circuit_id hop) seq
          ++ encrypt_backward_stream (hop_crypt hop) (build_nonce 2 0 seq) body).
Proof.
  intros Hd Hseq Hne. unfold relay_upstream, wrap_backward_relay.
  rewrite header8_id, Z.eqb_refl by done. cbn [negb].
  rewrite header8_relabel, header8_seq, (proj2 (Z.eqb_neq _ (hop_index hop))) by done.
  by rewrite raw_header_app, raw_body_app.
Qed.

Lemma path_backward_wraps relays id exit_id seq body :
  linked id relays exit_id -> is_u32 exit_id -> is_u32 seq ->
  Forall (fun r => hop_index r.1 <> seq_hop seq) relays ->
  path_backward relays (header8 exit_id seq ++ body) =
    Some (header8 id seq
          ++ layers_backward (build_nonce 2 0 seq) ((fun r => hop_crypt r.1) <$> relays) body).
Proof.
  revert id. induction relays as [|[hop d] rest IH]; intros id Hl He Hseq Hidx.
  { cbn in Hl. by subst. }
  destruct Hl as (<- & Hid & Hl). apply Forall_cons in Hidx as [Hne Hidx].
  cbn [path_backward fst]. rewrite (IH d) by done. rewrite fmap_cons.
  unfold layers_backward at 2. cbn [foldr]. apply relay_upstream_adds_layer; try done.
  destruct rest as [|[h2 d2] rest]; [by cbn in Hl; subst|]. cbn in Hl. tauto.
Qed.

Lemma unwrap_backward_eq c seq inits target rest ct tag cell w' :
  circuit_wf c -> is_u32 (circ_id c) -> is_u32 seq -> cell_wf cell ->
  circ_hops c = inits ++ target :: rest -> seq_hop seq = Z.of_nat (length inits) ->
  seal_backward target (build_nonce 2 0 seq) (be_bytes 4 seq) (cell_text cell) = (ct, tag) ->
  check_and_advance (circ_bwd_replay_windows c !!! length inits) seq = (w', Ok tt) ->
  unwrap_backward c (header8 (circ_id c) seq
      ++ layers_backward (build_nonce 2 0 seq) inits (ct ++ tag)) =
    ({| circ_id := circ_id c; circ_hops := circ_hops c; circ_sequence_no := circ_sequence_no c;
        circ_bwd_replay_windows := <[length inits := w']> (circ_bwd_replay_windows c) |},
     header8 (circ_id c) seq ++ cell_text cell ++ tag,
     Ok (Z.of_nat (length inits), stamp cell (circ_id c) seq tag)).
Proof.
  intros Hwf Hid Hseq Hcell Hhops Hhop Hseal Hwin. unfold seal_backward in Hseal.
  destruct (seal_length _ _ _ _ _ _ Hseal) as [Hct Htag].
  destruct (seal_bytes _ _ _ _ _ _ Hseal (cell_text_bytes _ Hcell)) as [_ Htb].
  rewrite cell_text_length in Hct by done.
  unfold unwrap_backward. rewrite header8_id, header8_seq, Z.eqb_refl by done. cbn [negb].
  rewrite Hhop, Nat2Z.id, Hhops, lookup_app_r, Nat.sub_diag by lia. cbn [lookup list_lookup].
  rewrite take_app_length, fold_backward_layers by done.
  rewrite raw_header_app, raw_body_app, header8_aad, body_text_app, body_mac_app by done.
  unfold open_backward. rewrite (open_seal _ _ _ _ _ _ Hseal), Hwin.
  rewrite <- stamp_layout, parse_layout by (by apply stamp_wf).
  done.
Qed.

(** *** Authenticity *)

Lemma encrypt_backward_bytes hop nonce data : is_bytes data -> is_bytes (encrypt_backward_stream hop nonce data).
Proof. intros. apply is_bytes_xor; [apply keystream_bytes|done]. Qed.

(** Removing layers in path order inverts adding them in reverse order. *)
Lemma fold_backward_inv nonce hops h body :
  length h = 8%nat -> is_bytes body -> exists body',
  fold_left (backward_layer nonce) hops (h ++ body) = h ++ body' /\
  body = layers_backward nonce hops body' /\ is_bytes body'.
Proof.
  intros Hh. revert body. induction hops as [|hop hops IH]; intros body Hb; cbn [fold_left]; [by exists body|].
  unfold backward_layer at 2. rewrite raw_header_app, raw_body_app by done.
  destruct (IH (encrypt_backward_stream hop nonce body)) as (body' & -> & E & Hb');
    [by apply encrypt_backward_bytes|].
  exists body'. split_and!; [done| |done]. unfold layers_backward. cbn [foldr].
  fold (layers_backward nonce hops body'). by rewrite <- E, encrypt_backward_involutive.
Qed.

Lemma raw_header_length raw : length raw = ONION_CELL_SIZE -> length (raw_header raw) = 8%nat.
Proof. intros E. unfold raw_header. rewrite length_take, E. sizes. Qed.

Lemma raw_text_length raw :
  length raw = ONION_CELL_SIZE -> length (body_text (raw_body raw)) = (ONION_CELL_SIZE - 24)%nat.
Proof. intros E. unfold body_text, raw_body. rewrite length_take, length_drop, E. sizes. Qed.

(** Whatever buffer arrives, a cell [peel_forward] accepts as addressed to the
    relay was sealed under that relay's forward AEAD key for the sequence
    number in its header; the counter then moves past it. *)
Lemma peel_forward_accepts hop raw hop' raw' cmd len :
  length raw = ONION_CELL_SIZE ->
  peel_forward hop raw = (hop', raw', Ok (AddressedToThisRelay cmd len)) ->
  let seq := from_be (slice 4 8 raw) in
  from_be (slice 0 4 raw) = hop_circuit_id hop /\
  hop_expected_recv_seq hop <= seq <= hop_expected_recv_seq hop + MAX_SEQ_GAP /\
  seq < u32_MAX /\
  hop' = set_expected_recv_seq hop (seq + 1) /\
  seal_forward (hop_crypt hop) (build_nonce 1 0 seq) (drop 4 (raw_header raw)) (body_text (raw_body raw'))
    = (body_text (raw_body raw), body_mac (raw_body raw)).
Proof.
  intros Hlen Hp. unfold peel_forward, open_forward in Hp.
  destruct (Z.eqb_spec (from_be (slice 0 4 raw)) (hop_circuit_id hop)) as [Hid|]; [cbn [negb] in Hp|done].
  destruct (aead_open _ _ _ _ _) as [pt|] eqn:Hopen; [|done].
  unfold accept_addressed, checked_add, saturating_sub in Hp. guards_in Hp.
  pose proof (open_sound _ _ _ _ _ _ Hopen) as Hseal.
  destruct (seal_length _ _ _ _ _ _ Hseal) as [Hct _].
  rewrite raw_text_length in Hct by done.
  split_and!; [done|lia|lia|lia|done|].
  by rewrite raw_body_app, body_text_app by (done || by apply raw_header_length).
Qed.

(** A relay that rejects a buffer or passes it on keeps its replay counter. *)
Lemma peel_forward_keeps hop raw hop' raw' r :
  peel_forward hop raw = (hop', raw', r) ->
  (forall cmd len, r <> Ok (AddressedToThisRelay cmd len)) -> hop' = hop.
Proof.
  unfold peel_forward, open_forward. intros Hp Hr.
  guards_in Hp; try done. by destruct (Hr c z).
Qed.

Lemma peel_forward_advances hop raw hop' raw' cmd len :
  peel_forward hop raw = (hop', raw', Ok (AddressedToThisRelay cmd len)) ->
  hop_expected_recv_seq hop <= from_be (slice 4 8 raw) /\
  hop' = set_expected_recv_seq hop (from_be (slice 4 8 raw) + 1).
Proof.
  unfold peel_forward, open_forward, accept_addressed, checked_add. intros Hp. guards_in Hp. split; [lia|done].
Qed.

Lemma peel_trace_above hop raws : Forall (fun seq => hop_expected_recv_seq hop <= seq) (peel_trace hop raws).
Proof.
  revert hop. induction raws as [|raw rest IH]; intros hop; cbn [peel_trace]; [constructor|].
  destruct (peel_forward hop raw) as [[hop' raw'] r] eqn:Hp.
  destruct r as [[cmd len|]|e]; [|by rewrite <- (peel_forward_keeps _ _ _ _ _ Hp)..].
  apply peel_forward_advances in Hp as [Hle ->]. constructor; [done|].
  eapply Forall_impl; [apply IH|]. cbn. intros; lia.
Qed.

Lemma peel_trace_sorted hop raws : StronglySorted Z.lt (peel_trace hop raws).
Proof.
  revert hop. induction raws as [|raw rest IH]; intros hop; cbn [peel_trace]; [constructor|].
  destruct (peel_forward hop raw) as [[hop' raw'] r] eqn:Hp.
  destruct r as [[cmd len|]|e]; [|apply IH..].
  apply peel_forward_advances in Hp as [Hle ->]. constructor; [apply IH|].
  eapply Forall_impl; [apply peel_trace_above|]. cbn. intros; lia.
Qed.

Lemma wrap_forward_advances c cell c' cell' raw :
  wrap_forward c cell = (c', cell', Ok raw) ->
  cell_sequence_no cell' = circ_sequence_no c /\ circ_sequence_no c' = circ_sequence_no c + 1 /\
  circ_sequence_no c < u32_MAX.
Proof. unfold wrap_forward, checked_add. intros Hw. guards_in Hw; split_and!; (done || lia). Qed.

Lemma wrap_forward_err_keeps c cell c' cell' e :
  wrap_forward c cell = (c', cell', Err e) -> c' = c.
Proof. unfold wrap_forward, checked_add. intros Hw. guards_in Hw; done. Qed.

Lemma wrap_trace_range c cells :
  Forall (fun seq => circ_sequence_no c <= seq < u32_MAX) (wrap_trace c cells).
Proof.
  revert c. induction cells as [|cell rest IH]; intros c; cbn [wrap_trace]; [constructor|].
  destruct (wrap_forward c cell) as [[c' cell'] [raw|e]] eqn:Hw.
  - apply wrap_forward_advances in Hw as (-> & Hs & Hlt). constructor; [lia|].
    eapply Forall_impl; [apply IH|]. cbn. intros; lia.
  - apply wrap_forward_err_keeps in Hw as ->. apply IH.
Qed.

Lemma wrap_trace_sorted c cells : StronglySorted Z.lt (wrap_trace c cells).
Proof.
  revert c. induction cells as [|cell rest IH]; intros c; cbn [wrap_trace]; [constructor|].
  destruct (wrap_forward c cell) as [[c' cell'] [raw|e]] eqn:Hw; [|apply IH].
  apply wrap_forward_advances in Hw as (-> & Hs & Hlt). constructor; [apply IH|].
  eapply Forall_impl; [apply wrap_trace_range|]. cbn. intros; lia.
Qed.

Lemma build_nonce_inj d1 d2 s1 s2 :
  is_u32 s1 -> is_u32 s2 -> build_nonce d1 0 s1 = build_nonce d2 0 s2 -> d1 = d2 /\ s1 = s2.
Proof.
  intros H1 H2 E. split; [by injection E|].
  apply (be_bytes_inj 4); [unfold_ints; change (256 ^ Z.of_nat 4) with 4294967296; lia..|].
  by apply (f_equal (drop 8)) in E.
Qed.

Lemma slice_blit_seq raw seq :
  (8 <= length raw)%nat -> is_u32 seq -> from_be (slice 4 8 (blit 4 (be_bytes 4 seq) raw)) = seq.
Proof.
  intros Hlen Hseq. unfold blit. rewrite (slice_app_at 4 8) by (rewrite ?length_take, ?be_bytes_length; lia).
  apply from_be_be_bytes. change (256 ^ Z.of_nat 4) with 4294967296. unfold_ints. lia.
Qed.

Lemma slice_header a b raw tail :
  (b <= 8)%nat -> length raw = ONION_CELL_SIZE -> slice a b (raw_header raw ++ tail) = slice a b raw.
Proof.
  intros Hb Hlen. rewrite <- (slice_take a b 8 (_ ++ _)), <- (slice_take a b 8 raw) by done.
  f_equal. fold (raw_header (raw_header raw ++ tail)). by rewrite raw_header_app by (by apply raw_header_length).
Qed.

(** A relay whose state is in range: [hop_index] is a [usize] and both
    counters are [u32]s. *)
Lemma originate_spec hop raw hop' raw' r :
  length raw = ONION_CELL_SIZE -> 0 <= hop_index hop -> 0 <= hop_next_send_seq hop <= u32_MAX ->
  wrap_backward_originate hop raw = (hop', raw', r) ->
  hop_index hop' = hop_index hop /\ hop_next_send_seq hop <= hop_next_send_seq hop' <= u32_MAX /\
  match r with
  | Ok _ => let seq := from_be (slice 4 8 raw') in
            is_u32 seq /\ seq_hop seq = hop_index hop /\ seq_counter seq = hop_next_send_seq hop /\
            hop_next_send_seq hop' = hop_next_send_seq hop + 1
  | Err _ => True
  end.
Proof.
  intros Hlen Hidx Hn. unfold wrap_backward_originate, checked_add.
  destruct (Z.leb_spec (hop_next_send_seq hop + 1) u32_MAX); [|intros; simplify_eq; split_and!; lia].
  cbn [set_next_send_seq hop_index hop_crypt].
  pose proof (pack_backward_seq_spec (hop_index hop) (hop_next_send_seq hop) Hidx ltac:(lia)) as Hpack.
  destruct (pack_backward_seq _ _) as [seq|e] eqn:Ep; cycle 1.
  { intros; simplify_eq. cbn. split_and!; lia || done. }
  destruct Hpack as (_ & _ & Hu & Hhop & Hcnt).
  destruct (seal_backward _ _ _ _) as [ct tag]. intros; simplify_eq. cbn [hop_index hop_next_send_seq].
  assert (E : from_be (slice 4 8 (raw_header (blit 4 (be_bytes 4 seq) raw) ++ ct ++ tag)) = seq).
  { rewrite slice_header; [apply slice_blit_seq; [rewrite Hlen; sizes|done]|lia|].
    rewrite length_blit; [done|]. rewrite be_bytes_length, Hlen. sizes. }
  rewrite E. cbn [set_next_send_seq hop_index hop_next_send_seq]. split_and!; (done || unfold_ints; lia).
Qed.

Lemma originate_trace_range hop raws :
  Forall (fun raw => length raw = ONION_CELL_SIZE) raws ->
  0 <= hop_index hop -> 0 <= hop_next_send_seq hop <= u32_MAX ->
  Forall (fun seq => is_u32 seq /\ seq_hop seq = hop_index hop /\ hop_next_send_seq hop <= seq_counter seq)
    (originate_trace hop raws).
Proof.
  intros Hraws. revert hop. induction Hraws as [|raw rest Hlen _ IH]; intros hop Hi Hn; cbn [originate_trace];
    [constructor|].
  destruct (wrap_backward_originate hop raw) as [[hop' raw'] r] eqn:Ho.
  apply originate_spec in Ho as (Hi' & Hn' & Hr); [|done..].
  assert (Hrest : Forall (fun seq => is_u32 seq /\ seq_hop seq = hop_index hop /\
    hop_next_send_seq hop <= seq_counter seq) (originate_trace hop' rest)).
  { eapply Forall_impl; [apply IH; lia|]. cbn. intros x. rewrite Hi'. intuition lia. }
  destruct r; [|done]. destruct Hr as (? & ? & ? & ?). constructor; [split_and!; lia || done|done].
Qed.

Lemma originate_trace_NoDup hop raws :
  Forall (fun raw => length raw = ONION_CELL_SIZE) raws ->
  0 <= hop_index hop -> 0 <= hop_next_send_seq hop <= u32_MAX ->
  NoDup (originate_trace hop raws).
Proof.
  intros Hraws. revert hop. induction Hraws as [|raw rest Hlen Hrest IH]; intros hop Hi Hn; cbn [originate_trace];
    [constructor|].
  destruct (wrap_backward_originate hop raw) as [[hop' raw'] r] eqn:Ho.
  apply originate_spec in Ho as (Hi' & Hn' & Hr); [|done..].
  destruct r; [|apply IH; lia]. destruct Hr as (Hu & Hh & Hc & Hs). constructor; [|apply IH; lia].
  intros Hin. pose proof (originate_trace_range hop' rest Hrest ltac:(lia) ltac:(lia)) as Hall.
  rewrite Forall_forall in Hall. apply Hall in Hin as (_ & _ & Hge). lia.
Qed.

(** *** The client's backward windows *)

(** Every window of the circuit refines its set of accepted counters. *)
Definition windows_refine (c : OnionCircuit) (specs : list ReplaySpec) : Prop :=
  Forall2 window_refines (circ_bwd_replay_windows c) specs.

Lemma unwrap_backward_inv c raw c' raw' r :
  unwrap_backward c raw = (c', raw', r) ->
  let seq := from_be (slice 4 8 raw) in
  let i := Z.to_nat (seq_hop seq) in
  match r with
  | Ok (j, cell) =>
      exists target w',
      j = seq_hop seq /\ circ_hops c !! i = Some target /\
      check_and_advance (circ_bwd_replay_windows c !!! i) seq = (w', Ok tt) /\
      circ_bwd_replay_windows c' = <[i := w']> (circ_bwd_replay_windows c) /\
      OnionCell_parse raw' = Ok cell
  | Err _ =>
      c' = c \/
      exists w' v, check_and_advance (circ_bwd_replay_windows c !!! i) seq = (w', v) /\
      circ_bwd_replay_windows c' = <[i := w']> (circ_bwd_replay_windows c)
  end /\
  circ_id c' = circ_id c /\ circ_hops c' = circ_hops c /\ circ_sequence_no c' = circ_sequence_no c.
Proof.
  intros Hu seq i. unfold unwrap_backward, open_backward in Hu.
  destruct (negb _); [simplify_eq; auto|]. fold seq in Hu. fold i in Hu.
  destruct (circ_hops c !! i) as [target|]; [|simplify_eq; auto].
  destruct (aead_open _ _ _ _ _) as [pt|]; [|simplify_eq; auto].
  destruct (check_and_advance _ seq) as [w' [[]|e]]; [|simplify_eq; eauto 10].
  destruct (OnionCell_parse _) as [cell|msg] eqn:Ep; simplify_eq; eauto 12.
Qed.

(** What a client has accepted, per hop, is only ever extended, and a cell is
    accepted only if its counter is new for its hop. *)
Lemma unwrap_step c raw c' raw' r specs :
  unwrap_backward c raw = (c', raw', r) -> windows_refine c specs ->
  length (circ_bwd_replay_windows c) = length (circ_hops c) ->
  let seq := from_be (slice 4 8 raw) in
  let i := Z.to_nat (seq_hop seq) in
  length (circ_bwd_replay_windows c') = length (circ_hops c') /\
  exists specs', windows_refine c' specs' /\
    (forall k, rs_seen (specs !!! k) ⊆ rs_seen (specs' !!! k)) /\
    (is_ok r -> (seq_counter seq ∉ rs_seen (specs !!! i)) /\ seq_counter seq ∈ rs_seen (specs' !!! i)).
Proof.
  intros Hu HR Hlen seq i. apply unwrap_backward_inv in Hu as (Hr & _ & Hh & _). fold seq i in Hr.
  unfold windows_refine in *. rewrite Hh. destruct r as [[j cell]|e].
  - destruct Hr as (target & w' & _ & Ht & Hc & -> & _). rewrite length_insert. split; [done|].
    assert (Hi : (i < length (circ_bwd_replay_windows c))%nat) by (rewrite Hlen; by eapply lookup_lt_Some).
    destruct (windows_step _ _ _ _ _ _ HR Hi Hc) as (specs' & HR' & Hm & Hf). eauto 6.
  - destruct Hr as [->|(w' & v & Hc & ->)]; [split; [done|]; exists specs; split_and!; done|].
    rewrite length_insert. split; [done|].
    destruct (decide (i < length (circ_bwd_replay_windows c))%nat) as [Hi|Hi].
    + destruct (windows_step _ _ _ _ _ _ HR Hi Hc) as (specs' & HR' & Hm & Hf). exists specs'. split_and!; done.
    + rewrite list_insert_ge by lia. exists specs. split_and!; done.
Qed.

Lemma unwrap_trace_fresh c raws specs :
  windows_refine c specs -> length (circ_bwd_replay_windows c) = length (circ_hops c) ->
  NoDup (unwrap_trace c raws) /\
  Forall (fun seq => seq_counter seq ∉ rs_seen (specs !!! Z.to_nat (seq_hop seq))) (unwrap_trace c raws).
Proof.
  revert c specs. induction raws as [|raw rest IH]; intros c specs HR Hlen; cbn [unwrap_trace];
    [split; constructor|].
  destruct (unwrap_backward c raw) as [[c' raw'] r] eqn:Hu.
  destruct (unwrap_step _ _ _ _ _ _ Hu HR Hlen) as (Hlen' & specs' & HR' & Hm & Hf).
  destruct (IH c' specs' HR' Hlen') as [Hnd Hall].
  assert (Hall' : Forall (fun seq => seq_counter seq ∉ rs_seen (specs !!! Z.to_nat (seq_hop seq)))
    (unwrap_trace c' rest)).
  { eapply Forall_impl; [exact Hall|]. cbn. intros x Hx Hin. apply Hx, Hm, Hin. }
  destruct r; [|done]. destruct Hf as [Hnew Hin]; [done|]. split; constructor; [|done..].
  intros Hdup. rewrite Forall_forall in Hall. by apply Hall in Hdup.
Qed.

Lemma add_hop_refines c keys specs :
  windows_refine c specs -> exists specs', windows_refine (add_hop c keys).1 specs'.
Proof.
  intros HR. unfold add_hop. destruct (_ <=? _); cbn [fst]; [eauto|].
  exists (specs ++ [replay_spec_init]). apply Forall2_app; [done|]. repeat constructor; apply replay_init_refines.
Qed.

Lemma reachable_inv id c :
  circuit_reachable id c ->
  circuit_wf c /\ circ_id c = id /\ exists specs, windows_refine c specs.
Proof.
  induction 1 as [|c keys c' r _ (Hwf & Hid & specs & HR) Ha|c cell c' cell' r _ (Hwf & Hid & specs & HR) Hw
    |c raw c' raw' r _ (Hwf & Hid & specs & HR) Hu].
  - split_and!; [constructor; cbn; unfold MAX_HOPS; unfold_ints; lia|done|]. exists []. constructor.
  - destruct Hwf as [Hlen Hmax Hseq]. split_and!.
    + unfold add_hop in Ha. destruct (Z.leb_spec MAX_HOPS (Z.of_nat (length (circ_hops c)))); simplify_eq; [done|].
      constructor; cbn [circ_bwd_replay_windows circ_hops circ_sequence_no]; rewrite ?length_app; cbn [length]; lia.
    + unfold add_hop in Ha. by destruct (_ <=? _); simplify_eq.
    + destruct (add_hop_refines c keys specs HR) as [specs' HR']. rewrite Ha in HR'. eauto.
  - destruct Hwf as [Hlen Hmax Hseq].
    assert (E : circ_id c' = circ_id c /\ circ_hops c' = circ_hops c /\
      circ_bwd_replay_windows c' = circ_bwd_replay_windows c /\ 1 <= circ_sequence_no c' <= u32_MAX).
    { unfold wrap_forward, checked_add in Hw. guards_in Hw; cbn; (split_and!; done || lia). }
    destruct E as (Ei & Eh & Ew & Es). split_and!; [constructor; congruence || done|congruence|].
    exists specs. unfold windows_refine. by rewrite Ew.
  - destruct Hwf as [Hlen Hmax Hseq]. destruct (unwrap_step _ _ _ _ _ _ Hu HR Hlen) as (Hlen' & specs' & HR' & _).
    apply unwrap_backward_inv in Hu as (_ & Ei & Eh & Es).
    split_and!; [constructor; congruence || done|congruence|eauto].
Qed.

Lemma header8_of_raw raw :
  length raw = ONION_CELL_SIZE -> is_bytes raw ->
  raw_header raw = header8 (from_be (slice 0 4 raw)) (from_be (slice 4 8 raw)).
Proof.
  intros Hlen Hb. unfold header8.
  rewrite !be_bytes_slice by (done || rewrite Hlen; sizes).
  unfold raw_header, slice. rewrite drop_0. change (4 - 0)%nat with 4%nat. change (8 - 4)%nat with 4%nat.
  change 8%nat with (4 + 4)%nat at 1. by rewrite <- take_take_drop.
Qed.

(** A cell read from a buffer [header8 ++ text ++ mac]. *)
Lemma parse_split id seq text mac cell :
  is_u32 id -> is_u32 seq -> is_bytes text -> is_bytes mac ->
  length text = (ONION_CELL_SIZE - 24)%nat -> length mac = 16%nat ->
  OnionCell_parse (header8 id seq ++ text ++ mac) = Ok cell ->
  cell_circuit_id cell = id /\ cell_sequence_no cell = seq /\ cell_text cell = text /\ cell_mac cell = mac.
Proof.
  intros Hid Hseq Htb Hmb Ht Hm Hp.
  assert (Hlen : length (header8 id seq ++ text ++ mac) = ONION_CELL_SIZE)
    by (rewrite !length_app, header8_length, Ht, Hm; sizes).
  assert (Hb : is_bytes (header8 id seq ++ text ++ mac)).
  { unfold header8. auto with bytes. }
  pose proof (parse_wf _ _ Hlen Hb Hp) as Hwf. pose proof (parse_inv _ _ Hlen Hb Hp) as E.
  assert (Hid' : cell_circuit_id cell = id /\ cell_sequence_no cell = seq).
  { unfold OnionCell_parse in Hp. rewrite header8_id, header8_seq in Hp by done.
    destruct (command_from_u8 _); [|done]. destruct (_ <? _); [done|]. injection Hp as <-. done. }
  rewrite serialize_split in E by done. destruct Hid' as [-> ->].
  apply app_inj_1 in E as [_ E]; [|done].
  apply app_inj_1 in E as [? ?]; [done|]. rewrite Ht. by apply cell_text_length.
Qed.

Lemma header_u32 a b raw :
  b = (a + 4)%nat -> (b <= 8)%nat -> length raw = ONION_CELL_SIZE -> is_bytes raw ->
  is_u32 (from_be (slice a b raw)).
Proof.
  intros Hb H8 Hlen Hby. destruct (from_be_slice_bound 4 a b raw); [done|rewrite Hlen; sizes|done|].
  change (256 ^ Z.of_nat 4) with 4294967296 in *. unfold_ints. lia.
Qed.

Lemma unwrap_backward_accepts c raw c' raw' i cell :
  length raw = ONION_CELL_SIZE -> is_bytes raw ->
  unwrap_backward c raw = (c', raw', Ok (i, cell)) ->
  exists target ct tag,
    let seq := cell_sequence_no cell in
    cell_circuit_id cell = circ_id c /\ i = seq_hop seq /\
    circ_hops c !! Z.to_nat i = Some target /\
    seal_backward target (build_nonce 2 0 seq) (be_bytes 4 seq) (cell_text cell) = (ct, tag) /\
    raw = header8 (circ_id c) seq ++
          layers_backward (build_nonce 2 0 seq) (take (Z.to_nat i) (circ_hops c)) (ct ++ tag).
Proof.
  intros Hlen Hb Hu. unfold unwrap_backward, open_backward in Hu.
  destruct (Z.eqb_spec (from_be (slice 0 4 raw)) (circ_id c)) as [Hid|]; [cbn [negb] in Hu|done].
  set (seq := from_be (slice 4 8 raw)) in Hu. set (k := Z.to_nat (seq_hop seq)) in Hu.
  destruct (circ_hops c !! k) as [target|] eqn:Ht; [|done].
  assert (Hrb : is_bytes (raw_body raw)) by (by apply Forall_drop).
  pose proof (raw_header_length raw Hlen) as Hhl.
  destruct (fold_backward_inv (build_nonce 2 0 seq) (take k (circ_hops c)) (raw_header raw) (raw_body raw) Hhl Hrb)
    as (body' & Ef & Ebody & Hb').
  rewrite raw_split in Ef. rewrite Ef, raw_header_app, raw_body_app in Hu by done.
  pose proof (f_equal length Ebody) as Hbl. rewrite layers_backward_length in Hbl.
  pose proof (header8_of_raw raw Hlen Hb) as Eh. fold seq in Eh. rewrite Hid in Eh.
  rewrite Eh, header8_aad in Hu.
  destruct (aead_open _ _ _ _ _) as [pt|] eqn:Hopen; [|done].
  destruct (check_and_advance _ seq) as [w' [[]|e]]; [|done].
  destruct (OnionCell_parse _) as [cell'|msg] eqn:Ep; [|discriminate Hu]. simplify_eq.
  pose proof (open_sound _ _ _ _ _ _ Hopen) as Hseal. destruct (seal_length _ _ _ _ _ _ Hseal) as [Hct Htl].
  assert (Hpt : is_bytes pt) by (eapply open_bytes; [done|]; by apply Forall_take).
  apply parse_split in Ep as (Eid & Eseq & Etext & _);
    [|rewrite <- Hid; apply header_u32; done || lia|apply header_u32; done || lia|done|by apply Forall_drop|..|done].
  - exists target, (body_text body'), (body_mac body'). cbv zeta. rewrite Eseq, Etext, body_split. fold k. rewrite <- Ebody, <- Eh.
    split_and!; try done. by rewrite raw_split.
  - rewrite <- Hct. unfold body_text. rewrite length_take, <- Hbl. unfold raw_body.
    rewrite length_drop, Hlen. sizes.
Qed.

(** A wrapped cell crosses the relays and reaches the exit. *)
Lemma forward_delivery (c : OnionCircuit) (cell : OnionCell)
    (relays : list (RelayCircuitHop * Z)) (exit : RelayCircuitHop) :
  let seq := circ_sequence_no c in
  let nonce := build_nonce 1 0 seq in
  cell_wf cell -> circuit_wf c -> seq < u32_MAX -> cell_circuit_id cell = circ_id c ->
  circ_hops c = ((fun r => hop_crypt r.1) <$> relays) ++ [hop_crypt exit] ->
  linked (circ_id c) relays (hop_circuit_id exit) -> is_u32 (hop_circuit_id exit) ->
  hop_expected_recv_seq exit <= seq <= hop_expected_recv_seq exit + MAX_SEQ_GAP ->
  (let '(ct, tag) := seal_forward (hop_crypt exit) nonce (be_bytes 4 seq) (cell_text cell) in
   spurious_free nonce (be_bytes 4 seq) ((fun r => hop_crypt r.1) <$> relays) (ct ++ tag)) ->
  exists raw raw_exit raw' tag,
    wrap_forward c cell =
      ({| circ_id := circ_id c; circ_hops := circ_hops c; circ_sequence_no := seq + 1;
          circ_bwd_replay_windows := circ_bwd_replay_windows c |},
       stamp cell (circ_id c) seq (cell_mac cell), Ok raw) /\
    path_forward relays raw = Some raw_exit /\
    peel_forward exit raw_exit =
      (set_expected_recv_seq exit (seq + 1), raw',
       Ok (AddressedToThisRelay (cell_command cell) (cell_length cell))) /\
    OnionCell_parse raw' = Ok (stamp cell (hop_circuit_id exit) seq tag).
Proof.
  intros seq nonce Hwf Hc Hlt Hid Hhops Hl He Hexp Hs.
  destruct (seal_forward _ _ _ _) as [ct tag] eqn:Hseal.
  assert (Hseq : 0 <= seq < u32_MAX) by (destruct Hc; unfold seq in *; lia).
  assert (Hu : is_u32 seq) by (unfold_ints; lia).
  pose proof (wrap_forward_eq c cell _ _ ct tag Hwf Hc Hlt Hid Hhops Hseal) as Hw. cbv zeta in Hw. rewrite Hw.
  pose proof (peel_forward_addressed exit cell seq ct tag Hwf He Hseq Hexp Hseal) as Hp.
  unfold seal_forward in Hseal. destruct (seal_length _ _ _ _ _ _ Hseal) as [_ Htag].
  destruct (seal_bytes _ _ _ _ _ _ Hseal (cell_text_bytes _ Hwf)) as [_ Htb].
  do 4 eexists. split_and!; [done|by apply path_forward_peels|exact Hp|].
  rewrite <- stamp_layout. by apply parse_layout, stamp_wf.
Qed.

(** ** Properties *)

(** C2: end-to-end forward delivery. A cell the client wraps crosses any
    number of intermediate relays, each removing exactly its own layer and
    relabelling the link id, and the addressed relay opens it and reads back
    the command, stream, length and payload the client put in. That holds for a
    counter at most [MAX_SEQ_GAP] beyond the one the addressed relay expects, and
    unless the tag of a layer happens to be valid at an earlier relay, which the
    cipher rules out only up to chance ([spurious_free]). *)
Theorem onion_forward_delivery (c : OnionCircuit) (cell : OnionCell)
    (relays : list (RelayCircuitHop * Z)) (exit : RelayCircuitHop) :
  let seq := circ_sequence_no c in
  let nonce := build_nonce 1 0 seq in
  cell_wf cell -> circuit_wf c -> seq < u32_MAX -> cell_circuit_id cell = circ_id c ->
  circ_hops c = ((fun r => hop_crypt r.1) <$> relays) ++ [hop_crypt exit] ->
  linked (circ_id c) relays (hop_circuit_id exit) -> is_u32 (hop_circuit_id exit) ->
  hop_expected_recv_seq exit <= seq <= hop_expected_recv_seq exit + MAX_SEQ_GAP ->
  (let '(ct, tag) := seal_forward (hop_crypt exit) nonce (be_bytes 4 seq) (cell_text cell) in
   spurious_free nonce (be_bytes 4 seq) ((fun r => hop_crypt r.1) <$> relays) (ct ++ tag)) ->
  exists raw raw_exit raw' tag,
    (wrap_forward c cell).2 = Ok raw /\ circ_sequence_no (wrap_forward c cell).1.1 = seq + 1 /\
    path_forward relays raw = Some raw_exit /\
    peel_forward exit raw_exit =
      (set_expected_recv_seq exit (seq + 1), raw',
       Ok (AddressedToThisRelay (cell_command cell) (cell_length cell))) /\
    OnionCell_parse raw' = Ok (stamp cell (hop_circuit_id exit) seq tag).
Proof.
  intros seq nonce Hwf Hc Hlt Hid Hhops Hl He Hexp Hs.
  destruct (forward_delivery c cell relays exit Hwf Hc Hlt Hid Hhops Hl He Hexp Hs) as (raw & raw_exit & raw' & tag & Hw & Hrest).
  exists raw, raw_exit, raw', tag. rewrite Hw. done.
Qed.

Lemma backward_delivery (c : OnionCircuit) (cell : OnionCell)
    (before : list (RelayCircuitHop * Z)) (origin : RelayCircuitHop) (rest : list HopCryptState) (seq : Z)
    (w' : ReplayWindow) :
  cell_wf cell -> circuit_wf c -> is_u32 (circ_id c) ->
  circ_hops c = ((fun r => hop_crypt r.1) <$> before) ++ hop_crypt origin :: rest ->
  linked (circ_id c) before (hop_circuit_id origin) -> cell_circuit_id cell = hop_circuit_id origin ->
  hop_index origin = Z.of_nat (length before) -> 0 <= hop_next_send_seq origin < u32_MAX ->
  Forall (fun r => hop_index r.1 <> hop_index origin) before ->
  pack_backward_seq (hop_index origin) (hop_next_send_seq origin) = Ok seq ->
  check_and_advance (circ_bwd_replay_windows c !!! length before) seq = (w', Ok tt) ->
  exists raw raw_client raw' tag,
    wrap_backward_originate origin (OnionCell_serialize cell) =
      (set_next_send_seq origin (hop_next_send_seq origin + 1), raw, Ok tt) /\
    path_backward before raw = Some raw_client /\ length raw_client = ONION_CELL_SIZE /\
    unwrap_backward c raw_client =
      ({| circ_id := circ_id c; circ_hops := circ_hops c; circ_sequence_no := circ_sequence_no c;
          circ_bwd_replay_windows := <[length before := w']> (circ_bwd_replay_windows c) |},
       raw', Ok (hop_index origin, stamp cell (circ_id c) seq tag)).
Proof.
  intros Hwf Hc Hcid Hhops Hl Hid Hidx Hnext Hne Hpack Hwin.
  pose proof (pack_backward_seq_spec (hop_index origin) (hop_next_send_seq origin) ltac:(lia) ltac:(lia)) as Hp.
  rewrite Hpack in Hp. destruct Hp as (_ & _ & Hu & Hhop & _).
  destruct (seal_backward (hop_crypt origin) (build_nonce 2 0 seq) (be_bytes 4 seq) (cell_text cell))
    as [ct tag] eqn:Hseal.
  assert (Hlen : length ((fun r : RelayCircuitHop * Z => hop_crypt r.1) <$> before) = length before)
    by apply length_fmap.
  do 4 eexists. split_and!.
  - eapply wrap_backward_originate_eq; [done|lia|done|done].
  - rewrite Hid. apply path_backward_wraps; [done| |done|by rewrite Hhop].
    rewrite <- Hid. by destruct Hwf.
  - unfold seal_backward in Hseal. destruct (seal_length _ _ _ _ _ _ Hseal) as [Hct Htag]. rewrite length_app, layers_backward_length, length_app, Hct, Htag.
    rewrite cell_text_length by done. change (length (header8 (circ_id c) seq)) with 8%nat. sizes.
  - rewrite Hidx, <- Hlen in *. by apply (unwrap_backward_eq c seq _ (hop_crypt origin) rest).
Qed.

(** C3: end-to-end backward delivery. A cell a relay originates at path
    position [length before] gains one layer at each relay before it, and the
    client removes them all, attributes the cell to that position, and records
    its counter in that hop's replay window, provided that the window takes the
    counter, which is neither too old nor used. *)
Theorem onion_backward_delivery (c : OnionCircuit) (cell : OnionCell)
    (before : list (RelayCircuitHop * Z)) (origin : RelayCircuitHop) (rest : list HopCryptState) (seq : Z)
    (w' : ReplayWindow) :
  cell_wf cell -> circuit_wf c -> is_u32 (circ_id c) ->
  circ_hops c = ((fun r => hop_crypt r.1) <$> before) ++ hop_crypt origin :: rest ->
  linked (circ_id c) before (hop_circuit_id origin) -> cell_circuit_id cell = hop_circuit_id origin ->
  hop_index origin = Z.of_nat (length before) -> 0 <= hop_next_send_seq origin < u32_MAX ->
  Forall (fun r => hop_index r.1 <> hop_index origin) before ->
  pack_backward_seq (hop_index origin) (hop_next_send_seq origin) = Ok seq ->
  check_and_advance (circ_bwd_replay_windows c !!! length before) seq = (w', Ok tt) ->
  exists raw raw_client raw' tag,
    wrap_backward_originate origin (OnionCell_serialize cell) =
      (set_next_send_seq origin (hop_next_send_seq origin + 1), raw, Ok tt) /\
    path_backward before raw = Some raw_client /\
    unwrap_backward c raw_client =
      ({| circ_id := circ_id c; circ_hops := circ_hops c; circ_sequence_no := circ_sequence_no c;
          circ_bwd_replay_windows := <[length before := w']> (circ_bwd_replay_windows c) |},
       raw', Ok (hop_index origin, stamp cell (circ_id c) seq tag)).
Proof.
  intros Hwf Hc Hcid Hhops Hl Hid Hidx Hnext Hne Hpack Hwin.
  destruct (backward_delivery c cell before origin rest seq w' Hwf Hc Hcid Hhops Hl Hid Hidx Hnext Hne Hpack Hwin)
    as (raw & raw_client & raw' & tag & Ho & Hp & _ & Hu). eauto 8.
Qed.

(** C4: a relay only acts on cells sealed for it. Whatever 8192 bytes
    arrive, if [peel_forward] reports the cell as addressed to this relay then
    its ciphertext and tag are the sealing, under this relay's forward AEAD key
    and the nonce and associated data of the header's sequence number, of the
    plaintext left in the buffer; the number is fresh and within the gap. *)
Theorem peel_forward_authentic (hop hop' : RelayCircuitHop) (raw raw' : bytes) (cmd : CellCommand) (len : Z) :
  length raw = ONION_CELL_SIZE ->
  peel_forward hop raw = (hop', raw', Ok (AddressedToThisRelay cmd len)) ->
  let seq := from_be (slice 4 8 raw) in
  from_be (slice 0 4 raw) = hop_circuit_id hop /\
  hop_expected_recv_seq hop <= seq <= hop_expected_recv_seq hop + MAX_SEQ_GAP /\
  seq < u32_MAX /\
  hop' = set_expected_recv_seq hop (seq + 1) /\
  seal_forward (hop_crypt hop) (build_nonce 1 0 seq) (drop 4 (raw_header raw)) (body_text (raw_body raw'))
    = (body_text (raw_body raw), body_mac (raw_body raw)).
Proof. apply peel_forward_accepts. Qed.

(** C5: the client only accepts backward cells that a hop of its circuit
    made. If [unwrap_backward] returns a cell, the buffer was exactly that
    cell's contents sealed under the backward AEAD key of the hop it is
    attributed to, wrapped in one layer of each hop before it. *)
Theorem unwrap_backward_authentic (c c' : OnionCircuit) (raw raw' : bytes) (i : Z) (cell : OnionCell) :
  length raw = ONION_CELL_SIZE -> is_bytes raw ->
  unwrap_backward c raw = (c', raw', Ok (i, cell)) ->
  exists target ct tag,
    let seq := cell_sequence_no cell in
    cell_circuit_id cell = circ_id c /\ i = seq_hop seq /\
    circ_hops c !! Z.to_nat i = Some target /\
    seal_backward target (build_nonce 2 0 seq) (be_bytes 4 seq) (cell_text cell) = (ct, tag) /\
    raw = header8 (circ_id c) seq ++
          layers_backward (build_nonce 2 0 seq) (take (Z.to_nat i) (circ_hops c)) (ct ++ tag).
Proof. apply unwrap_backward_accepts. Qed.

(** No replay at a relay. Over any sequence of buffers, in any order and
    with any duplicates, the sequence numbers a relay acts on are strictly
    increasing. *)
Theorem peel_forward_no_replay (hop : RelayCircuitHop) (raws : list bytes) :
  StronglySorted Z.lt (peel_trace hop raws).
Proof. apply peel_trace_sorted. Qed.

(** No replay at the client. Every state a circuit can reach keeps one
    replay window per hop, at most eight hops and an unexhausted counter, and
    from it no backward sequence number is ever accepted twice. *)
Theorem circuit_reachable_no_replay (id : Z) (c : OnionCircuit) (raws : list bytes) :
  circuit_reachable id c -> circuit_wf c /\ circ_id c = id /\ NoDup (unwrap_trace c raws).
Proof.
  intros (Hwf & Hid & specs & HR)%reachable_inv. split_and!; [done|done|].
  eapply unwrap_trace_fresh; [done|]. by destruct Hwf.
Qed.

(** Nonces are never reused under a key. The nonces of the forward cells a
    client emits are pairwise distinct, and so are the nonces of the backward
    cells a relay originates; the two directions never share one. *)
Theorem nonces_never_reused (c : OnionCircuit) (cells : list OnionCell)
    (hop : RelayCircuitHop) (raws : list bytes) :
  circuit_wf c -> 0 <= hop_index hop -> 0 <= hop_next_send_seq hop <= u32_MAX ->
  Forall (fun raw => length raw = ONION_CELL_SIZE) raws ->
  NoDup ((build_nonce 1 0 <$> wrap_trace c cells) ++ (build_nonce 2 0 <$> originate_trace hop raws)).
Proof.
  intros [_ _ Hs] Hi Hn Hraws.
  assert (Hu : forall x, x ∈ wrap_trace c cells -> is_u32 x).
  { intros x Hx. pose proof (wrap_trace_range c cells) as Hr. rewrite Forall_forall in Hr. apply Hr in Hx.
    unfold_ints. lia. }
  assert (Hv : forall x, x ∈ originate_trace hop raws -> is_u32 x).
  { intros x Hx. pose proof (originate_trace_range hop raws Hraws Hi Hn) as Hr. rewrite Forall_forall in Hr. cbn in Hr.
    by destruct (Hr x Hx) as [? _]. }
  apply NoDup_app. split_and!.
  - apply NoDup_fmap_2_strong; [|by apply StronglySorted_NoDup, wrap_trace_sorted].
    intros x y Hx Hy E. apply build_nonce_inj in E as [_ ?]; auto.
  - intros n (x & -> & Hx)%list_elem_of_fmap (y & E & Hy)%list_elem_of_fmap.
    apply build_nonce_inj in E as [? _]; [done|auto..].
  - apply NoDup_fmap_2_strong; [|by apply originate_trace_NoDup].
    intros x y Hx Hy E. apply build_nonce_inj in E as [_ ?]; auto.
Qed.
End WithLaws.
End Circuit.

(** ** A concrete cipher
    A toy instance of the cipher interface that satisfies its laws: the
    keystream repeats a key byte and the tag is a keyed checksum. It shows the
    laws are satisfiable and evaluates the circuit on concrete buffers. *)
Definition toy_tag (k pt : bytes) : bytes := replicate 16 ((3 * hd 0 k + foldr Z.add 0 pt) mod 256).

#[local] Instance toy_primitives : OnionPrimitives := {
  chacha20_keystream k n len := replicate len (hd 0 k mod 256);
  aead_seal k n a pt := (pt, toy_tag k pt);
  aead_open k n a ct tag := if decide (tag = toy_tag k ct) then Some ct else None;
}.

Lemma mod256_u8 x : is_u8 (x mod 256).
Proof. unfold_ints. pose proof (Z.mod_pos_bound x 256). lia. Qed.

#[local] Instance toy_laws : OnionPrimitivesLaws.
Proof.
  split; cbn [chacha20_keystream aead_seal aead_open toy_primitives]; intros.
  - apply length_replicate.
  - apply is_bytes_replicate, mod256_u8.
  - simplify_eq. done.
  - simplify_eq. split; [done|]. apply is_bytes_replicate, mod256_u8.
  - simplify_eq. by rewrite decide_True.
  - by case_decide; simplify_eq.
  - by case_decide; simplify_eq.
Qed.

Definition toy_keys (n : Z) : HopKeys :=
  {| forward_key := replicate 32 n; backward_key := replicate 32 (n + 1); forward_mac := replicate 32 (n + 2);
     backward_mac := replicate 32 (n + 3); forward_aead_key := replicate 32 (n + 4);
     backward_aead_key := replicate 32 (n + 5) |}.

(** A three-hop circuit with link ids 7, 20 and 30. *)
Definition toy_circuit : OnionCircuit :=
  (add_hop (add_hop (add_hop (OnionCircuit_new 7) (toy_keys 10)).1 (toy_keys 40)).1 (toy_keys 90)).1.
Definition toy_relays : list (RelayCircuitHop * Z) :=
  [(RelayCircuitHop_new 7 (toy_keys 10) 0, 20); (RelayCircuitHop_new 20 (toy_keys 40) 1, 30)].
Definition toy_exit : RelayCircuitHop := RelayCircuitHop_new 30 (toy_keys 90) 2.

Lemma toy_circuit_reachable : circuit_reachable 7 toy_circuit.
Proof.
  unfold toy_circuit. do 3 (eapply reach_add_hop; [|apply surjective_pairing]). apply reach_new.
Qed.

Lemma toy_circuit_wf : circuit_wf toy_circuit.
Proof. by destruct (reachable_inv _ _ toy_circuit_reachable). Qed.

Lemma toy_spurious_free :
  let '(ct, tag) := seal_forward (hop_crypt toy_exit) (build_nonce 1 0 1) (be_bytes 4 1) (cell_text example_cell) in
  spurious_free (build_nonce 1 0 1) (be_bytes 4 1) ((fun r => hop_crypt r.1) <$> toy_relays) (ct ++ tag).
Proof. vm_compute. repeat split. Qed.

Lemma onion_forward_delivery_witness :
  exists raw raw_exit raw' tag,
    (wrap_forward toy_circuit example_cell).2 = Ok raw /\
    circ_sequence_no (wrap_forward toy_circuit example_cell).1.1 = 2 /\
    path_forward toy_relays raw = Some raw_exit /\
    peel_forward toy_exit raw_exit = (set_expected_recv_seq toy_exit 2, raw', Ok (AddressedToThisRelay Data 2)) /\
    OnionCell_parse raw' = Ok (stamp example_cell 30 1 tag).
Proof.
  apply (onion_forward_delivery toy_circuit example_cell toy_relays toy_exit).
  - exact example_cell_wf.
  - exact toy_circuit_wf.
  - reflexivity.
  - reflexivity.
  - reflexivity.
  - cbn. change (circ_id toy_circuit) with 7. unfold_ints. lia.
  - cbn. change (circ_id toy_circuit) with 7. unfold_ints. lia.
  - change (circ_sequence_no toy_circuit) with 1. cbn. unfold MAX_SEQ_GAP. lia.
  - exact toy_spurious_free.
Defined.

(** The exit's first backward cell has sequence number [2 * 2 ^ 29 + 1]. *)
Definition toy_reply : OnionCell := stamp example_cell 30 0 (replicate 16 0).

Lemma toy_reply_wf : cell_wf toy_reply.
Proof.
  apply stamp_wf; [exact example_cell_wf|unfold_ints; lia|unfold_ints; lia|done|].
  auto with bytes.
Qed.

Lemma onion_backward_delivery_witness :
  exists raw raw_client raw' tag,
    wrap_backward_originate toy_exit (OnionCell_serialize toy_reply) = (set_next_send_seq toy_exit 2, raw, Ok tt) /\
    path_backward toy_relays raw = Some raw_client /\
    unwrap_backward toy_circuit raw_client =
      ({| circ_id := 7; circ_hops := circ_hops toy_circuit; circ_sequence_no := 1;
          circ_bwd_replay_windows := <[2%nat := mkReplayWindow 1 2]> (circ_bwd_replay_windows toy_circuit) |},
       raw', Ok (2, stamp toy_reply 7 1073741825 tag)).
Proof.
  apply (onion_backward_delivery toy_circuit toy_reply toy_relays toy_exit []
    1073741825 (mkReplayWindow 1 2)).
  - exact toy_reply_wf.
  - exact toy_circuit_wf.
  - cbn. change (circ_id toy_circuit) with 7. unfold_ints. lia.
  - reflexivity.
  - cbn. change (circ_id toy_circuit) with 7. unfold_ints. lia.
  - reflexivity.
  - reflexivity.
  - cbn. change (circ_id toy_circuit) with 7. unfold_ints. lia.
  - repeat constructor; cbn; lia.
  - reflexivity.
  - reflexivity.
Defined.

(** A sealed cell for the exit, as it arrives there. *)
Definition toy_sealed : bytes :=
  header8 30 1 ++ cell_text example_cell ++ toy_tag (forward_aead_key (toy_keys 90)) (cell_text example_cell).

Lemma toy_sealed_length : length toy_sealed = ONION_CELL_SIZE.
Proof.
  unfold toy_sealed. rewrite !length_app, cell_text_length by exact example_cell_wf.
  rewrite header8_length. unfold toy_tag. rewrite length_replicate. sizes.
Qed.

Lemma toy_sealed_peels :
  peel_forward toy_exit toy_sealed =
    (set_expected_recv_seq toy_exit 2, toy_sealed, Ok (AddressedToThisRelay Data 2)).
Proof.
  apply (peel_forward_addressed toy_exit example_cell 1 (cell_text example_cell)
    (toy_tag (forward_aead_key (toy_keys 90)) (cell_text example_cell)));
    [exact example_cell_wf|cbn; unfold_ints; lia..|cbn; unfold MAX_SEQ_GAP; lia|reflexivity].
Qed.

Lemma peel_forward_authentic_witness :
  length toy_sealed = ONION_CELL_SIZE /\
  peel_forward toy_exit toy_sealed =
    (set_expected_recv_seq toy_exit 2, toy_sealed, Ok (AddressedToThisRelay Data 2)) /\
  from_be (slice 0 4 toy_sealed) = hop_circuit_id toy_exit.
Proof.
  split; [exact toy_sealed_length|]. split; [exact toy_sealed_peels|].
  destruct (peel_forward_authentic _ _ _ _ _ _ toy_sealed_length toy_sealed_peels) as [H _]. exact H.
Defined.

(** The guard's first backward cell, as the client receives it. *)
Definition toy_from_guard : bytes :=
  header8 7 1 ++ cell_text example_cell ++ toy_tag (backward_aead_key (toy_keys 10)) (cell_text example_cell).

Lemma toy_from_guard_length : length toy_from_guard = ONION_CELL_SIZE.
Proof.
  unfold toy_from_guard. rewrite !length_app, cell_text_length by exact example_cell_wf.
  rewrite header8_length. unfold toy_tag. rewrite length_replicate. sizes.
Qed.

Lemma toy_from_guard_bytes : is_bytes toy_from_guard.
Proof.
  unfold toy_from_guard, header8, toy_tag. auto 10 using cell_text_bytes, example_cell_wf, mod256_u8 with bytes.
Qed.

Lemma toy_from_guard_unwraps :
  unwrap_backward toy_circuit toy_from_guard =
    ({| circ_id := 7; circ_hops := circ_hops toy_circuit; circ_sequence_no := 1;
        circ_bwd_replay_windows := <[0%nat := mkReplayWindow 1 2]> (circ_bwd_replay_windows toy_circuit) |},
     toy_from_guard,
     Ok (0, stamp example_cell 7 1
              (toy_tag (backward_aead_key (toy_keys 10)) (cell_text example_cell)))).
Proof.
  apply (unwrap_backward_eq toy_circuit 1 [] (mkHopCryptState (toy_keys 10))
    [mkHopCryptState (toy_keys 40); mkHopCryptState (toy_keys 90)] (cell_text example_cell)
    (toy_tag (backward_aead_key (toy_keys 10)) (cell_text example_cell)) example_cell (mkReplayWindow 1 2)).
  - exact toy_circuit_wf.
  - change (circ_id toy_circuit) with 7. unfold_ints. lia.
  - unfold_ints. lia.
  - exact example_cell_wf.
  - reflexivity.
  - reflexivity.
  - reflexivity.
  - reflexivity.
Qed.

Lemma unwrap_backward_authentic_witness :
  length toy_from_guard = ONION_CELL_SIZE /\ is_bytes toy_from_guard /\
  exists cell target, (unwrap_backward toy_circuit toy_from_guard).2 = Ok (0, cell) /\
    cell_circuit_id cell = circ_id toy_circuit /\ circ_hops toy_circuit !! 0%nat = Some target.
Proof.
  split; [exact toy_from_guard_length|]. split; [exact toy_from_guard_bytes|].
  destruct (unwrap_backward_authentic _ _ _ _ _ _ toy_from_guard_length toy_from_guard_bytes toy_from_guard_unwraps)
    as (target & ct & tag & Hid & _ & Ht & _).
  eexists _, target. split; [rewrite toy_from_guard_unwraps; reflexivity|]. split; [exact Hid|exact Ht].
Defined.

Lemma circuit_reachable_no_replay_witness :
  circuit_reachable 7 toy_circuit /\ circuit_wf toy_circuit /\
  NoDup (unwrap_trace toy_circuit [toy_from_guard; toy_from_guard]).
Proof.
  split; [exact toy_circuit_reachable|].
  destruct (circuit_reachable_no_replay 7 toy_circuit [toy_from_guard; toy_from_guard] toy_circuit_reachable)
    as (H & _ & H'). exact (conj H H').
Defined.

Lemma nonces_never_reused_witness :
  circuit_wf toy_circuit /\
  NoDup ((build_nonce 1 0 <$> wrap_trace toy_circuit [example_cell; example_cell]) ++
         (build_nonce 2 0 <$> originate_trace toy_exit [toy_sealed; toy_sealed])).
Proof.
  split; [exact toy_circuit_wf|].
  apply (nonces_never_reused toy_circuit [example_cell; example_cell] toy_exit [toy_sealed; toy_sealed]).
  - exact toy_circuit_wf.
  - cbn. lia.
  - cbn. unfold_ints. lia.
  - repeat constructor; exact toy_sealed_length.
Defined.
