(* ===== verification/MultiPath.v ===== *)
(** * Multi-path streams (src/onion/multipath.rs, src/gateway/multipath_router.rs)

    A client stream is cut into numbered chunks that travel over several
    circuits and are put back in order. [MultiPathSlicer] and
    [MultiPathReassembler] are the two ends; [fwd_read] and [fwd_tick] are the
    two arms of the router's forward loop, [bwd_data] its handling of a data
    cell. *)
From S2P Require Import Prelude Cell Replay Circuit.

(** ** Data *)
Definition MULTIPATH_HEADER_SIZE : nat := 8.

Record MultiPathSlicer := mkMultiPathSlicer { mps_next_seq : Z }.

Record MultiPathReassembler := mkMultiPathReassembler {
  mpr_next_expected_seq : Z;
  mpr_buffer : gmap Z (list Z);
}.

(** ** Operations *)
Definition MultiPathSlicer_new : MultiPathSlicer := {| mps_next_seq := 0 |}.

(** Returns the slicer, the output buffer as the call leaves it, and the
    number of bytes written. *)
Definition slicer_slice (self : MultiPathSlicer) (data out : bytes) : MultiPathSlicer * bytes * result string nat :=
  match checked_add u64_MAX (Z.of_nat (length data)) (Z.of_nat MULTIPATH_HEADER_SIZE) with
  | None => (self, out, Err "Multipath packet length overflow"%string)
  | Some len =>
      if (Z.of_nat PAYLOAD_SIZE <? len) || (Z.of_nat (length out) <? len) then
        (self, out, Err "Multipath packet exceeds cell or output capacity"%string)
      else
        match checked_add u64_MAX (mps_next_seq self) 1 with
        | None => (self, out, Err "Multipath sequence exhausted"%string)
        | Some next =>
            let seq := mps_next_seq self in
            let out := blit 0 (be_bytes 8 seq) out in
            let out := blit 8 data out in
            ({| mps_next_seq := next |}, out, Ok (8 + length data)%nat)
        end
  end.

Definition MultiPathReassembler_new : MultiPathReassembler :=
  {| mpr_next_expected_seq := 0; mpr_buffer := ∅ |}.

Definition MAX_REASSEMBLY_GAP : Z := 100000.
Definition MAX_BUFFERED_ENTRIES : Z := 10000.

Definition receive (self : MultiPathReassembler) (payload : bytes) : MultiPathReassembler * option bytes :=
  if (length payload <? MULTIPATH_HEADER_SIZE)%nat || (PAYLOAD_SIZE <? length payload)%nat then (self, None)
  else
    let seq := from_be (slice 0 8 payload) in
    let next := mpr_next_expected_seq self in
    if (seq <? next) || (seq =? u64_MAX) then (self, None)
    else if MAX_REASSEMBLY_GAP <? seq - next then (self, None)
    else if seq =? next then
      ({| mpr_next_expected_seq := next + 1; mpr_buffer := delete seq (mpr_buffer self) |},
       Some (default (drop 8 payload) (mpr_buffer self !! seq)))
    else if bool_decide (is_Some (mpr_buffer self !! seq))
         || (MAX_BUFFERED_ENTRIES <=? Z.of_nat (size (mpr_buffer self))) then (self, None)
    else
      ({| mpr_next_expected_seq := next; mpr_buffer := <[seq := drop 8 payload]> (mpr_buffer self) |}, None).

Definition pop_next_buffered (self : MultiPathReassembler) : MultiPathReassembler * option bytes :=
  match mpr_buffer self !! mpr_next_expected_seq self with
  | Some data =>
      ({| mpr_next_expected_seq := mpr_next_expected_seq self + 1;
          mpr_buffer := delete (mpr_next_expected_seq self) (mpr_buffer self) |}, Some data)
  | None => (self, None)
  end.

(** [while let Some(d) = reassembler.pop_next_buffered() { write(d) }]; each
    round removes an entry, so the number of entries is fuel enough. *)
Fixpoint drain (fuel : nat) (self : MultiPathReassembler) : MultiPathReassembler * list bytes :=
  match fuel with
  | O => (self, [])
  | S fuel' =>
      match pop_next_buffered self with
      | (self', Some d) => let '(self'', ds) := drain fuel' self' in (self'', d :: ds)
      | (self', None) => (self', [])
      end
  end.

(** A packet's payload: what is written to the client, in order. *)
Definition reassemble (self : MultiPathReassembler) (data : bytes) : MultiPathReassembler * list bytes :=
  let '(self, first) := receive self data in
  let '(self, more) := drain (size (mpr_buffer self)) self in
  (self, option_list first ++ more).

(** The router's arm for a data cell. *)
Definition bwd_data (self : MultiPathReassembler) (cell : OnionCell) : MultiPathReassembler * list bytes :=
  let len := Nat.min (Z.to_nat (cell_length cell)) (length (cell_payload cell)) in
  reassemble self (take len (cell_payload cell)).

Fixpoint reassemble_all (self : MultiPathReassembler) (arrivals : list bytes) : MultiPathReassembler * list bytes :=
  match arrivals with
  | [] => (self, [])
  | p :: rest =>
      let '(self, out) := reassemble self p in
      let '(self, out') := reassemble_all self rest in
      (self, out ++ out')
  end.

(** *** The router's forward loop *)

(** Index of the first path with the smallest load. *)
Definition least_loaded (loads : list Z) : nat :=
  (fold_left (fun acc p => let '(idx, min_load, i) := acc in
                           if p <? min_load then (i, p, S i) else (idx, min_load, S i))
     loads (0%nat, u64_MAX, 0%nat)).1.1.

Record FwdState := mkFwdState {
  fw_slicer : MultiPathSlicer;
  fw_client_buffer : bytes;
  fw_client_open : bool;
  fw_path_loads : list Z;
  fw_client_seqs : list Z;
  fw_circuits : list OnionCircuit;
}.

Section Router.
Context `{OnionPrimitives}.

Definition fwd_init (circuits : list OnionCircuit) : FwdState :=
  {| fw_slicer := MultiPathSlicer_new; fw_client_buffer := []; fw_client_open := true;
     fw_path_loads := replicate (length circuits) 0; fw_client_seqs := replicate (length circuits) 2;
     fw_circuits := circuits |}.

(** The read arm is enabled only while the client is open and less than 64 KiB
    is buffered; an empty read or an error closes the client side. *)
Definition fwd_read_enabled (s : FwdState) : bool :=
  fw_client_open s && (Z.of_nat (length (fw_client_buffer s)) <? 65536).

Definition fwd_read (s : FwdState) (data : option bytes) : FwdState :=
  match data with
  | Some (b :: bs) =>
      {| fw_slicer := fw_slicer s; fw_client_buffer := fw_client_buffer s ++ b :: bs;
         fw_client_open := fw_client_open s; fw_path_loads := fw_path_loads s;
         fw_client_seqs := fw_client_seqs s; fw_circuits := fw_circuits s |}
  | _ =>
      {| fw_slicer := fw_slicer s; fw_client_buffer := fw_client_buffer s; fw_client_open := false;
         fw_path_loads := fw_path_loads s; fw_client_seqs := fw_client_seqs s; fw_circuits := fw_circuits s |}
  end.

(** A tick emits one cell on one path, or ends the loop. *)
Inductive FwdOutcome :=
| FwdSent (path : nat) (cell : OnionCell) (wire : bytes)
| FwdBreak.

Definition max_data : nat := PAYLOAD_SIZE - MULTIPATH_HEADER_SIZE.

Definition fwd_tick (s : FwdState) (rng : bytes) : FwdState * FwdOutcome :=
  if negb (fw_client_open s) && (length (fw_client_buffer s) =? 0)%nat then (s, FwdBreak)
  else
    let is_dummy := (length (fw_client_buffer s) =? 0)%nat in
    let sliced_buf := replicate PAYLOAD_SIZE 0 in
    let '(slicer, client_buffer, sliced_buf, cell_len) :=
      if is_dummy then (fw_slicer s, fw_client_buffer s, sliced_buf, Ok PAYLOAD_SIZE)
      else
        let chunk_size := Nat.min (length (fw_client_buffer s)) max_data in
        let chunk := take chunk_size (fw_client_buffer s) in
        let '(slicer, out, r) := slicer_slice (fw_slicer s) chunk sliced_buf in
        (slicer, drop chunk_size (fw_client_buffer s), out, r) in
    match cell_len with
    | Err _ =>
        ({| fw_slicer := slicer; fw_client_buffer := client_buffer; fw_client_open := fw_client_open s;
            fw_path_loads := fw_path_loads s; fw_client_seqs := fw_client_seqs s;
            fw_circuits := fw_circuits s |}, FwdBreak)
    | Ok cell_len =>
        let c_idx := least_loaded (fw_path_loads s) in
        let path_loads := <[c_idx := fw_path_loads s !!! c_idx + 1]> (fw_path_loads s) in
        let seq := fw_client_seqs s !!! c_idx in
        let client_seqs := <[c_idx := wrapping_add u32_MAX seq 1]> (fw_client_seqs s) in
        let s' := {| fw_slicer := slicer; fw_client_buffer := client_buffer;
                     fw_client_open := fw_client_open s; fw_path_loads := path_loads;
                     fw_client_seqs := client_seqs; fw_circuits := fw_circuits s |} in
        match fw_circuits s !! c_idx with
        | None => (s', FwdBreak)
        | Some circuit =>
            match OnionCell_new rng (circ_id circuit) seq (if is_dummy then Dummy else Data) 1
                    (take cell_len sliced_buf) with
            | Err _ => (s', FwdBreak)
            | Ok cell =>
                let '(circuit', cell', wire) := wrap_forward circuit cell in
                let s'' := {| fw_slicer := slicer; fw_client_buffer := client_buffer;
                              fw_client_open := fw_client_open s; fw_path_loads := path_loads;
                              fw_client_seqs := client_seqs;
                              fw_circuits := <[c_idx := circuit']> (fw_circuits s) |} in
                match wire with
                | Err _ => (s'', FwdBreak)
                | Ok wire => (s'', FwdSent c_idx cell' wire)
                end
            end
        end
    end.

(** A run of the forward loop: reads happen only while their arm is enabled,
    and a break ends the run. The flag tells whether the loop is still alive. *)
Inductive FwdEvent := FRead (data : option bytes) | FTick (rng : bytes).

Fixpoint fwd_run (s : FwdState) (evs : list FwdEvent) : FwdState * bool * list (nat * OnionCell * bytes) :=
  match evs with
  | [] => (s, true, [])
  | FRead d :: rest => fwd_run (if fwd_read_enabled s then fwd_read s d else s) rest
  | FTick rng :: rest =>
      match fwd_tick s rng with
      | (s', FwdSent p cell wire) =>
          let '(sf, live, sent) := fwd_run s' rest in (sf, live, (p, cell, wire) :: sent)
      | (s', FwdBreak) => (s', false, [])
      end
  end.

(** What the run read from the client while it was alive. *)
Fixpoint fwd_input (s : FwdState) (evs : list FwdEvent) : bytes :=
  match evs with
  | [] => []
  | FRead d :: rest =>
      if fwd_read_enabled s then default [] d ++ fwd_input (fwd_read s d) rest else fwd_input s rest
  | FTick rng :: rest =>
      match fwd_tick s rng with
      | (s', FwdSent _ _ _) => fwd_input s' rest
      | (s', FwdBreak) => []
      end
  end.

(** The used part of a cell's payload, and the data packets among sent cells. *)
Definition cell_data (cell : OnionCell) : bytes := take (Z.to_nat (cell_length cell)) (cell_payload cell).

Definition data_packets (sent : list (nat * OnionCell * bytes)) : list bytes :=
  omap (fun x => if bool_decide (cell_command x.1.2 = Data) then Some (cell_data x.1.2) else None) sent.

(** ** Lemmas *)

(** The packet a fresh slicer makes of chunk [i]. *)
Definition packet (i : nat) (chunk : bytes) : bytes := be_bytes 8 (Z.of_nat i) ++ chunk.

(** A stream of chunks the router can have sent. *)
Definition stream_ok (cs : list bytes) : Prop :=
  Z.of_nat (length cs) <= u64_MAX /\ Forall (fun c => (length c <= max_data)%nat) cs.

Definition genuine (cs : list bytes) (p : bytes) : Prop :=
  exists i c, cs !! i = Some c /\ p = packet i c.

(** The reassembler holds only genuine chunks at or after the next one. *)
Record reasm_inv (cs : list bytes) (r : MultiPathReassembler) : Prop := {
  ri_next : 0 <= mpr_next_expected_seq r <= Z.of_nat (length cs);
  ri_buffer : forall k d, mpr_buffer r !! k = Some d ->
    mpr_next_expected_seq r <= k < Z.of_nat (length cs) /\ cs !! Z.to_nat k = Some d;
}.

(** Moving from [r] to [r'] wrote exactly the chunks between them. *)
Definition emitted (cs : list bytes) (r r' : MultiPathReassembler) (out : list bytes) : Prop :=
  mpr_next_expected_seq r' = mpr_next_expected_seq r + Z.of_nat (length out) /\
  out = take (length out) (drop (Z.to_nat (mpr_next_expected_seq r)) cs).

Lemma emitted_nil cs r r' : mpr_next_expected_seq r' = mpr_next_expected_seq r -> emitted cs r r' [].
Proof. intros E. split; [cbn; lia|done]. Qed.

Lemma emitted_app cs r1 r2 r3 o1 o2 :
  0 <= mpr_next_expected_seq r1 -> emitted cs r1 r2 o1 -> emitted cs r2 r3 o2 -> emitted cs r1 r3 (o1 ++ o2).
Proof.
  intros H0 [N1 E1] [N2 E2]. split; [rewrite length_app; lia|].
  rewrite length_app, <- take_take_drop, drop_drop, <- E1. f_equal. rewrite E2 at 1. do 2 f_equal. lia.
Qed.

Lemma emitted_one cs r r' d :
  0 <= mpr_next_expected_seq r -> cs !! Z.to_nat (mpr_next_expected_seq r) = Some d ->
  mpr_next_expected_seq r' = mpr_next_expected_seq r + 1 -> emitted cs r r' [d].
Proof. intros H0 Hd E. split; [cbn; lia|]. rewrite (drop_S _ _ _ Hd). cbn. by rewrite take_0. Qed.

Lemma packet_reads i c :
  Z.of_nat i < u64_MAX -> from_be (slice 0 8 (packet i c)) = Z.of_nat i /\ drop 8 (packet i c) = c /\
  length (packet i c) = (8 + length c)%nat.
Proof.
  intros Hi. unfold packet. rewrite slice_app_first, drop_app_length', length_app, be_bytes_length
    by (by rewrite be_bytes_length).
  split_and!; [|done|done]. apply from_be_be_bytes. change (256 ^ Z.of_nat 8) with 18446744073709551616.
  unfold_ints. lia.
Qed.

Lemma genuine_facts cs p :
  stream_ok cs -> genuine cs p ->
  exists i c, cs !! i = Some c /\ p = packet i c /\ (i < length cs)%nat /\
    from_be (slice 0 8 p) = Z.of_nat i /\ drop 8 p = c /\ (8 <= length p <= PAYLOAD_SIZE)%nat.
Proof.
  intros [Hlen Hmax] (i & c & Hi & ->). exists i, c. pose proof (lookup_lt_Some _ _ _ Hi) as Hlt.
  destruct (packet_reads i c ltac:(lia)) as (H1 & H2 & H3). split_and!; try done; try lia.
  rewrite H3. rewrite Forall_forall in Hmax. specialize (Hmax c (list_elem_of_lookup_2 _ _ _ Hi)).
  unfold max_data, MULTIPATH_HEADER_SIZE in Hmax. sizes.
Qed.

(** One genuine packet: the state stays genuine, and what comes out is the
    next chunk or nothing. *)
Lemma receive_inv cs r p r' out :
  stream_ok cs -> genuine cs p -> reasm_inv cs r -> receive r p = (r', out) ->
  reasm_inv cs r' /\ emitted cs r r' (option_list out).
Proof.
  intros Hs Hg [Hn Hb] Hr. destruct (genuine_facts cs p Hs Hg) as (i & c & Hi & _ & Hlt & Hseq & Hd & Hlen).
  unfold receive, MULTIPATH_HEADER_SIZE in Hr. rewrite Hseq, Hd in Hr.
  rewrite !(proj2 (Nat.ltb_ge _ _)) in Hr by lia. cbn [orb] in Hr.
  destruct (_ || _) eqn:E1 in Hr; [simplify_eq; by split; [|apply emitted_nil]|]. reflect_bools.
  destruct (_ <? _) in Hr; [simplify_eq; by split; [|apply emitted_nil]|].
  destruct (Z.eqb_spec (Z.of_nat i) (mpr_next_expected_seq r)) as [Heq|Hne].
  - injection Hr as <- <-. rewrite <- Heq in *.
    assert (Hv : default c (mpr_buffer r !! Z.of_nat i) = c).
    { destruct (mpr_buffer r !! Z.of_nat i) as [d|] eqn:Ed; [|done]. apply Hb in Ed as [_ Ed].
      rewrite Nat2Z.id, Hi in Ed. by injection Ed as ->. }
    rewrite Hv. split.
    + constructor; cbn [mpr_next_expected_seq mpr_buffer]; [lia|].
      intros k d [Hne Hk]%lookup_delete_Some. apply Hb in Hk as [? ?]. split; [lia|done].
    + apply emitted_one; cbn [mpr_next_expected_seq]; [lia|rewrite <- Heq, Nat2Z.id; done|lia].
  - destruct (_ || _) eqn:E2 in Hr; simplify_eq; (split; [|by apply emitted_nil]); [done|].
    constructor; cbn [mpr_next_expected_seq mpr_buffer]; [done|].
    intros k d [[<- <-]|[_ Hk]]%lookup_insert_Some; [|by apply Hb]. rewrite Nat2Z.id. split; [lia|done].
Qed.

Lemma drain_inv cs fuel r r' out :
  reasm_inv cs r -> drain fuel r = (r', out) -> reasm_inv cs r' /\ emitted cs r r' out.
Proof.
  revert r r' out. induction fuel as [|fuel IH]; intros r r' out HR Hd; cbn [drain] in Hd.
  { simplify_eq. split; [done|by apply emitted_nil]. }
  unfold pop_next_buffered in Hd. destruct (mpr_buffer r !! mpr_next_expected_seq r) as [d|] eqn:Ed; cycle 1.
  { simplify_eq. split; [done|by apply emitted_nil]. }
  destruct HR as [Hn Hb]. pose proof (Hb _ _ Ed) as [Hk Hc].
  match type of Hd with context [drain fuel ?r1] => set (r1' := r1) in Hd end.
  destruct (drain fuel r1') as [r2 ds] eqn:E2. simplify_eq.
  destruct (IH r1' r' ds) as [HR' He]; [|done|].
  { constructor; cbn [r1' mpr_next_expected_seq mpr_buffer]; [lia|].
    intros k x [Hne Hx]%lookup_delete_Some. apply Hb in Hx as [? ?]. split; [lia|done]. }
  split; [done|]. apply (emitted_app cs r r1' r' [d] ds); [lia| |done]. by apply emitted_one; [lia| |].
Qed.

(** *** Nothing is lost *)

(** Chunk [k] has been written or is buffered. *)
Definition holds (r : MultiPathReassembler) (k : Z) : Prop :=
  k < mpr_next_expected_seq r \/ is_Some (mpr_buffer r !! k).

Lemma keys_bounded (m : gmap Z (list Z)) n :
  (forall k d, m !! k = Some d -> 0 <= k < Z.of_nat n) -> (size m <= n)%nat.
Proof.
  intros Hk. rewrite <- size_dom.
  rewrite <- (length_seq n 0), <- (length_fmap Z.of_nat), <- (size_list_to_set (C := gset Z)).
  - apply subseteq_size. intros k Hin. apply elem_of_dom in Hin as [d Hd]. apply Hk in Hd.
    apply elem_of_list_to_set, list_elem_of_fmap. exists (Z.to_nat k). split; [lia|]. apply elem_of_seq. lia.
  - apply NoDup_fmap; [intros ???; lia|apply NoDup_seq].
Qed.

Lemma receive_holds cs r i c r' out :
  stream_ok cs -> Z.of_nat (length cs) <= MAX_BUFFERED_ENTRIES -> cs !! i = Some c ->
  reasm_inv cs r -> receive r (packet i c) = (r', out) ->
  holds r' (Z.of_nat i) /\ forall k, holds r k -> holds r' k.
Proof.
  intros Hs Hmax Hi HR Hr. pose proof HR as [Hn Hb].
  destruct (genuine_facts cs (packet i c) Hs) as (i' & c' & _ & _ & _ & Hseq & _ & Hlen); [by exists i, c|].
  pose proof (lookup_lt_Some _ _ _ Hi) as Hlt.
  destruct (packet_reads i c) as (Hseq' & Hd & _); [destruct Hs; lia|].
  unfold receive, MULTIPATH_HEADER_SIZE in Hr. rewrite Hseq', Hd in Hr.
  rewrite !(proj2 (Nat.ltb_ge _ _)) in Hr by lia. cbn [orb] in Hr.
  rewrite (proj2 (Z.eqb_neq _ u64_MAX)), orb_false_r in Hr by (destruct Hs; lia). unfold holds.
  destruct (Z.ltb_spec (Z.of_nat i) (mpr_next_expected_seq r)); [simplify_eq; auto|].
  rewrite (proj2 (Z.ltb_ge MAX_REASSEMBLY_GAP _)) in Hr by (unfold MAX_REASSEMBLY_GAP, MAX_BUFFERED_ENTRIES in *; lia).
  destruct (Z.eqb_spec (Z.of_nat i) (mpr_next_expected_seq r)) as [Heq|Hne].
  { injection Hr as <- <-. cbn [mpr_next_expected_seq mpr_buffer]. split; [left; lia|].
    intros k [Hk|Hk]; [left; lia|]. destruct (decide (k = Z.of_nat i)) as [->|]; [left; lia|].
    right. by rewrite lookup_delete_ne. }
  destruct (mpr_buffer r !! Z.of_nat i) as [d|] eqn:Ed.
  { rewrite bool_decide_eq_true_2 in Hr by done. cbn [orb] in Hr. simplify_eq. rewrite Ed. eauto. }
  rewrite bool_decide_eq_false_2 in Hr by (by intros [? ?]). cbn [orb] in Hr.
  assert (Hsz : (S (size (mpr_buffer r)) <= length cs)%nat).
  { rewrite <- (map_size_insert_None (Z.of_nat i) c) by done. apply keys_bounded.
    intros k d [[<- _]|[_ Hk]]%lookup_insert_Some; [lia|]. apply Hb in Hk as [? _]. lia. }
  rewrite (proj2 (Z.leb_gt _ _)) in Hr by lia. simplify_eq. cbn [mpr_next_expected_seq mpr_buffer].
  split; [right; by rewrite lookup_insert_eq|]. intros k [Hk|Hk]; [by left|]. right.
  by apply lookup_insert_is_Some'; right.
Qed.

Lemma drain_holds fuel r r' out k : drain fuel r = (r', out) -> holds r k -> holds r' k.
Proof.
  revert r r' out. induction fuel as [|fuel IH]; intros r r' out Hd Hk; cbn [drain] in Hd; [by simplify_eq|].
  unfold pop_next_buffered in Hd.
  destruct (mpr_buffer r !! mpr_next_expected_seq r) as [d|] eqn:Ed; [|by simplify_eq].
  match type of Hd with context [drain fuel ?r1] => set (r1' := r1) in Hd end.
  destruct (drain fuel r1') as [r2 ds] eqn:E2. simplify_eq. apply (IH _ _ _ E2).
  destruct Hk as [Hk|Hk]; [left; cbn; lia|].
  destruct (decide (k = mpr_next_expected_seq r)) as [->|]; [left; cbn; lia|]. right. cbn. by rewrite lookup_delete_ne.
Qed.

(** The number of buffered entries is fuel enough: afterwards nothing more can
    be written. *)
Lemma drain_stops fuel r r' out :
  (size (mpr_buffer r) <= fuel)%nat -> drain fuel r = (r', out) ->
  mpr_buffer r' !! mpr_next_expected_seq r' = None.
Proof.
  revert r r' out. induction fuel as [|fuel IH]; intros r r' out Hsz Hd; cbn [drain] in Hd.
  { simplify_eq. assert (size (mpr_buffer r') = 0%nat) as Hz by lia. apply map_size_empty_iff in Hz. by rewrite Hz. }
  unfold pop_next_buffered in Hd.
  destruct (mpr_buffer r !! mpr_next_expected_seq r) as [d|] eqn:Ed; [|by simplify_eq].
  match type of Hd with context [drain fuel ?r1] => set (r1' := r1) in Hd end.
  destruct (drain fuel r1') as [r2 ds] eqn:E2. simplify_eq. apply (IH _ _ _) in E2; [done|].
  cbn. rewrite map_size_delete_Some by done. lia.
Qed.

Lemma reassemble_inv cs r p r' out :
  stream_ok cs -> genuine cs p -> reasm_inv cs r -> reassemble r p = (r', out) ->
  reasm_inv cs r' /\ emitted cs r r' out /\ mpr_buffer r' !! mpr_next_expected_seq r' = None.
Proof.
  intros Hs Hg HR Hr. unfold reassemble in Hr. destruct (receive r p) as [r1 o1] eqn:E1.
  destruct (drain _ r1) as [r2 o2] eqn:E2. simplify_eq.
  destruct (receive_inv _ _ _ _ _ Hs Hg HR E1) as [HR1 Em1]. destruct (drain_inv _ _ _ _ _ HR1 E2) as [HR2 Em2].
  split_and!; [done| |by eapply drain_stops]. eapply emitted_app; [by destruct HR; lia|done|done].
Qed.

Lemma reassemble_all_inv cs r arrivals r' out :
  stream_ok cs -> Forall (genuine cs) arrivals -> reasm_inv cs r ->
  mpr_buffer r !! mpr_next_expected_seq r = None -> reassemble_all r arrivals = (r', out) ->
  reasm_inv cs r' /\ emitted cs r r' out /\ mpr_buffer r' !! mpr_next_expected_seq r' = None.
Proof.
  intros Hs Hg. revert r r' out. induction Hg as [|p rest Hp _ IH]; intros r r' out HR Hnone Hr; cbn [reassemble_all] in Hr.
  { simplify_eq. split_and!; [done|by apply emitted_nil|done]. }
  destruct (reassemble r p) as [r1 o1] eqn:E1. destruct (reassemble_all r1 rest) as [r2 o2] eqn:E2. simplify_eq.
  destruct (reassemble_inv _ _ _ _ _ Hs Hp HR E1) as (HR1 & Em1 & Hn1).
  destruct (IH _ _ _ HR1 Hn1 E2) as (HR2 & Em2 & Hn2).
  split_and!; [done| |done]. eapply emitted_app; [by destruct HR; lia|done|done].
Qed.

Lemma reassemble_all_holds cs r arrivals r' out :
  stream_ok cs -> Z.of_nat (length cs) <= MAX_BUFFERED_ENTRIES -> Forall (genuine cs) arrivals ->
  reasm_inv cs r -> reassemble_all r arrivals = (r', out) ->
  (forall k, holds r k -> holds r' k) /\
  forall i c, cs !! i = Some c -> packet i c ∈ arrivals -> holds r' (Z.of_nat i).
Proof.
  intros Hs Hmax Hg. revert r r' out. induction Hg as [|p rest Hp _ IH]; intros r r' out HR Hr; cbn [reassemble_all] in Hr.
  { simplify_eq. split; [done|]. intros i c _ []%elem_of_nil. }
  destruct (reassemble r p) as [r1 o1] eqn:E1. destruct (reassemble_all r1 rest) as [r2 o2] eqn:E2. simplify_eq.
  destruct (reassemble_inv _ _ _ _ _ Hs Hp HR E1) as (HR1 & _ & _).
  destruct (IH _ _ _ HR1 E2) as [Hkeep Hall]. destruct Hp as (j & d & Hj & ->).
  unfold reassemble in E1. destruct (receive r _) as [r3 o3] eqn:E3. destruct (drain _ r3) as [r4 o4] eqn:E4.
  simplify_eq. destruct (receive_holds _ _ _ _ _ _ Hs Hmax Hj HR E3) as [Hj1 Hk1]. split.
  - intros k Hk. eapply Hkeep, drain_holds; [done|]. by apply Hk1.
  - intros i c Hi [Heq|Hin]%elem_of_cons; [|by eapply Hall].
    eapply Hkeep, drain_holds; [done|]. assert (Z.of_nat i = Z.of_nat j) as ->; [|done].
    destruct Hs as [Hlen _]. pose proof (lookup_lt_Some _ _ _ Hi). pose proof (lookup_lt_Some _ _ _ Hj).
    destruct (packet_reads i c ltac:(lia)) as [<- _]. destruct (packet_reads j d ltac:(lia)) as [<- _]. by rewrite Heq.
Qed.

(** *** The forward loop *)

Lemma slicer_slice_ok self chunk :
  (length chunk <= max_data)%nat -> mps_next_seq self < u64_MAX ->
  slicer_slice self chunk (replicate PAYLOAD_SIZE 0) =
    ({| mps_next_seq := mps_next_seq self + 1 |},
     (be_bytes 8 (mps_next_seq self) ++ chunk) ++ replicate (PAYLOAD_SIZE - (8 + length chunk)) 0,
     Ok (8 + length chunk)%nat).
Proof.
  intros Hc Hn. unfold max_data, MULTIPATH_HEADER_SIZE in Hc.
  assert (Hle : (length chunk + 8 <= PAYLOAD_SIZE)%nat) by sizes.
  unfold slicer_slice, checked_add, MULTIPATH_HEADER_SIZE.
  rewrite (proj2 (Z.leb_le _ _)) by (unfold_ints; sizes). rewrite length_replicate.
  rewrite !(proj2 (Z.ltb_ge _ _)) by lia. cbn [orb]. rewrite (proj2 (Z.leb_le _ u64_MAX)) by lia.
  assert (replicate PAYLOAD_SIZE 0 = [] ++ replicate PAYLOAD_SIZE 0) as -> by done.
  rewrite (blit_zeros' 0 _ _ _ (PAYLOAD_SIZE - 8)), (blit_zeros' 8 _ _ _ (PAYLOAD_SIZE - (8 + length chunk)));
    rewrite ?length_app, ?be_bytes_length; cbn [length]; try lia. done.
Qed.

Lemma slicer_exhausted self chunk out :
  u64_MAX <= mps_next_seq self -> exists e, (slicer_slice self chunk out).2 = Err e.
Proof.
  intros Hn. unfold slicer_slice. destruct (checked_add u64_MAX (Z.of_nat _) _); [|by eexists].
  destruct (_ || _); [by eexists|]. unfold checked_add. rewrite (proj2 (Z.leb_gt _ _)) by lia. by eexists.
Qed.

Lemma wrap_forward_keeps_data c cell c' cell' r :
  wrap_forward c cell = (c', cell', r) ->
  cell_command cell' = cell_command cell /\ cell_data cell' = cell_data cell.
Proof.
  unfold wrap_forward. intros Hw. destruct (_ =? _); [by simplify_eq|]. destruct (negb _); [by simplify_eq|].
  destruct (checked_add _ _ _); simplify_eq; done.
Qed.

(** A tick that sends either emits a dummy, or takes the next chunk off the
    front of the client's bytes and numbers it. *)
Lemma fwd_tick_spec s rng s' p cell wire :
  fwd_tick s rng = (s', FwdSent p cell wire) ->
  (cell_command cell = Dummy /\ fw_slicer s' = fw_slicer s /\ fw_client_buffer s' = fw_client_buffer s) \/
  exists chunk, cell_command cell = Data /\ (length chunk <= max_data)%nat /\
    mps_next_seq (fw_slicer s) < u64_MAX /\
    mps_next_seq (fw_slicer s') = mps_next_seq (fw_slicer s) + 1 /\
    fw_client_buffer s = chunk ++ fw_client_buffer s' /\
    cell_data cell = be_bytes 8 (mps_next_seq (fw_slicer s)) ++ chunk.
Proof.
  unfold fwd_tick. intros Ht. destruct (_ && _); [discriminate Ht|].
  destruct (Nat.eqb_spec (length (fw_client_buffer s)) 0) as [Hz|Hz].
  - destruct (fw_circuits s !! _) as [circuit|]; [|discriminate Ht].
    destruct (OnionCell_new _ _ _ _ _ _) as [cell0|] eqn:Ec; [|discriminate Ht].
    destruct (wrap_forward circuit cell0) as [[c' cell'] [w|e]] eqn:Ew; [|discriminate Ht].
    injection Ht as <- <- <- <-. apply wrap_forward_keeps_data in Ew as [Ew _]. left.
    rewrite Ew. unfold OnionCell_new in Ec. destruct (_ <? _)%nat; [discriminate Ec|]. apply Ok_inj in Ec as <-. done.
  - set (chunk := take _ (fw_client_buffer s)) in Ht.
    assert (Hc : (length chunk <= max_data)%nat) by (unfold chunk; rewrite length_take; lia).
    assert (Hb : fw_client_buffer s = chunk ++ drop (Nat.min (length (fw_client_buffer s)) max_data) (fw_client_buffer s))
      by (unfold chunk; by rewrite take_drop).
    destruct (decide (mps_next_seq (fw_slicer s) < u64_MAX)) as [Hn|Hn]; cycle 1.
    { destruct (slicer_exhausted (fw_slicer s) chunk (replicate PAYLOAD_SIZE 0)) as [e He]; [lia|].
      destruct (slicer_slice _ _ _) as [[sl o] r]. cbn [snd] in He. subst r. discriminate Ht. }
    rewrite slicer_slice_ok in Ht by done.
    destruct (fw_circuits s !! _) as [circuit|]; [|discriminate Ht].
    rewrite take_app_length' in Ht by (by rewrite length_app, be_bytes_length).
    assert (Hlen : length (be_bytes 8 (mps_next_seq (fw_slicer s)) ++ chunk) = (8 + length chunk)%nat)
      by (by rewrite length_app, be_bytes_length).
    rewrite OnionCell_new_ok in Ht by (rewrite Hlen; unfold max_data, MULTIPATH_HEADER_SIZE in Hc; sizes).
    destruct (wrap_forward circuit _) as [[c' cell'] [w|e]] eqn:Ew; [|discriminate Ht].
    injection Ht as <- <- <- <-. apply wrap_forward_keeps_data in Ew as [Ew1 Ew2]. right. exists chunk.
    rewrite Ew1, Ew2. unfold cell_data. cell_fields. rewrite Nat2Z.id, take_app_length. split_and!; done.
Qed.

Lemma data_packets_cons p cell w sent :
  data_packets ((p, cell, w) :: sent) =
    (if bool_decide (cell_command cell = Data) then [cell_data cell] else []) ++ data_packets sent.
Proof. unfold data_packets. cbn. by destruct (bool_decide _). Qed.

Lemma fwd_read_buffer s d : fw_client_buffer (fwd_read s d) = fw_client_buffer s ++ default [] d /\
  fw_slicer (fwd_read s d) = fw_slicer s.
Proof. destruct d as [[|b bs]|]; cbn; by rewrite ?app_nil_r. Qed.

Lemma fwd_run_spec s evs sf live sent :
  0 <= mps_next_seq (fw_slicer s) <= u64_MAX -> fwd_run s evs = (sf, live, sent) ->
  exists cs rest,
    data_packets sent = imap (fun i c => be_bytes 8 (mps_next_seq (fw_slicer s) + Z.of_nat i) ++ c) cs /\
    Forall (fun c => (length c <= max_data)%nat) cs /\
    mps_next_seq (fw_slicer s) + Z.of_nat (length cs) <= u64_MAX /\
    fw_client_buffer s ++ fwd_input s evs = concat cs ++ rest /\
    (live = true -> rest = fw_client_buffer sf).
Proof.
  revert s sf live sent. induction evs as [|[d|rng] evs IH]; intros s sf live sent Hn Hrun; cbn [fwd_run fwd_input] in *.
  - simplify_eq. exists [], (fw_client_buffer sf). rewrite app_nil_r. split_and!; done || cbn; lia.
  - destruct (fwd_read_enabled s); [|by eauto]. destruct (fwd_read_buffer s d) as [Hb Hs].
    destruct (IH _ _ _ _ ltac:(rewrite Hs; exact Hn) Hrun) as (cs & rest & H1 & H2 & H3 & H4 & H5).
    rewrite Hs in *. exists cs, rest. split_and!; try done. by rewrite <- H4, Hb, app_assoc.
  - destruct (fwd_tick s rng) as [s' [p cell wire|]] eqn:Et; cycle 1.
    { simplify_eq. exists [], (fw_client_buffer s). rewrite app_nil_r. split_and!; done || cbn; lia. }
    destruct (fwd_run s' evs) as [[sf' live'] sent'] eqn:Er. simplify_eq. rewrite data_packets_cons.
    apply fwd_tick_spec in Et as [(Hc & Hsl & Hb)|(chunk & Hc & Hl & Hlt & Hsl & Hb & Hd)].
    + rewrite Hc, bool_decide_eq_false_2 by done. rewrite <- Hsl, <- Hb. rewrite <- Hsl in Hn. by eapply IH.
    + rewrite Hc, bool_decide_eq_true_2, Hd by done.
      destruct (IH s' _ _ _ ltac:(rewrite Hsl; lia) Er) as (cs & rest & H1 & H2 & H3 & H4 & H5).
      exists (chunk :: cs), rest. split_and!.
      * rewrite imap_cons, Z.add_0_r. cbn [app]. f_equal. rewrite H1. apply imap_ext. intros i c _. unfold compose.
        do 2 f_equal. rewrite Hsl. lia.
      * by constructor.
      * cbn [length]. lia.
      * rewrite Hb. cbn [concat]. rewrite <- !app_assoc. by f_equal.
      * done.
Qed.

(** From a fresh router the data packets are the numbered chunks of a prefix of
    what was read. *)
Lemma fwd_run_init circuits evs sf live sent :
  fwd_run (fwd_init circuits) evs = (sf, live, sent) ->
  exists cs rest, data_packets sent = imap packet cs /\ stream_ok cs /\
    fwd_input (fwd_init circuits) evs = concat cs ++ rest /\ (live = true -> rest = fw_client_buffer sf).
Proof.
  intros Hr. destruct (fwd_run_spec (fwd_init circuits) _ _ _ _ ltac:(cbn; unfold_ints; lia) Hr) as (cs & rest & H1 & H2 & H3 & H4 & H5).
  exists cs, rest. split_and!; [|split; [cbn in H3; lia|done]|done|done].
  rewrite H1. apply imap_ext. intros i c _. unfold packet. cbn [fwd_init fw_slicer MultiPathSlicer_new mps_next_seq].
  do 2 f_equal.
Qed.

(** *** Path selection *)
Definition balanced (loads : list Z) : Prop := forall i j x y, loads !! i = Some x -> loads !! j = Some y -> x <= y + 1.

Lemma least_loaded_fold loads idx m i0 pre :
  length pre = i0 -> Forall (fun x => m <= x) pre -> (pre ++ loads) !! idx = Some m \/ loads <> [] /\ m = u64_MAX ->
  Forall (fun x => x < u64_MAX) loads ->
  let '(idx', m', _) := fold_left (fun acc p => let '(idx, min_load, i) := acc in
      if p <? min_load then (i, p, S i) else (idx, min_load, S i)) loads (idx, m, i0) in
  (pre ++ loads) !! idx' = Some m' /\ Forall (fun x => m' <= x) (pre ++ loads).
Proof.
  revert idx m i0 pre. induction loads as [|p loads IH]; intros idx m i0 pre Hlen Hpre Hm Hlt; cbn [fold_left].
  { rewrite app_nil_r in *. destruct Hm as [Hm|[[] _]]; done. }
  apply Forall_cons in Hlt as [Hp Hlt].
  replace (pre ++ p :: loads) with ((pre ++ [p]) ++ loads) in * by (by rewrite <- app_assoc).
  destruct (Z.ltb_spec p m).
  - apply IH; [rewrite length_app; cbn; lia| | |done].
    + apply Forall_app_2; [|by repeat constructor]. eapply Forall_impl; [exact Hpre|]. cbn. lia.
    + left. rewrite lookup_app_l by (rewrite length_app; cbn; lia). by rewrite lookup_app_r, Hlen, Nat.sub_diag by lia.
  - apply IH; [rewrite length_app; cbn; lia| | |done].
    + apply Forall_app_2; [done|]. repeat constructor. lia.
    + destruct Hm as [Hm|[_ ->]]; [by left|lia].
Qed.

Lemma least_loaded_min loads :
  loads <> [] -> Forall (fun x => x < u64_MAX) loads ->
  exists m, loads !! least_loaded loads = Some m /\ Forall (fun x => m <= x) loads.
Proof.
  intros Hne Hlt. pose proof (least_loaded_fold loads 0 u64_MAX 0 [] eq_refl (Forall_nil_2 _) (or_intror (conj Hne eq_refl)) Hlt) as H1.
  unfold least_loaded. destruct (fold_left _ loads _) as [[idx m] n]. cbn [fst]. cbn [app] in H1. eauto.
Qed.

Lemma balanced_insert loads :
  loads <> [] -> Forall (fun x => x < u64_MAX) loads -> balanced loads ->
  balanced (<[least_loaded loads := loads !!! least_loaded loads + 1]> loads).
Proof.
  intros Hne Hlt Hb. destruct (least_loaded_min loads Hne Hlt) as (m & Hm & Hmin).
  rewrite (list_lookup_total_correct _ _ _ Hm). intros i j x y Hx Hy.
  rewrite Forall_forall in Hmin. setoid_rewrite list_elem_of_lookup in Hmin.
  apply list_lookup_insert_Some in Hx as [(<- & <- & _)|[_ Hx]], Hy as [(<- & <- & _)|[_ Hy]]; try lia.
  - assert (m <= y) by eauto. lia.
  - assert (x <= m + 1) by eauto. lia.
  - eauto.
Qed.

Lemma fwd_tick_loads s rng s' out :
  fwd_tick s rng = (s', out) ->
  fw_path_loads s' = fw_path_loads s \/
  fw_path_loads s' = <[least_loaded (fw_path_loads s) := fw_path_loads s !!! least_loaded (fw_path_loads s) + 1]>
                       (fw_path_loads s).
Proof.
  unfold fwd_tick. intros Ht. destruct (_ && _); [injection Ht as <- <-; auto|].
  destruct (if (_ =? 0)%nat then _ else _) as [[[sl cb] sb] [n|e]]; [|injection Ht as <- <-; auto].
  destruct (fw_circuits s !! _); [|injection Ht as <- <-; auto].
  destruct (OnionCell_new _ _ _ _ _ _); [|injection Ht as <- <-; auto].
  destruct (wrap_forward _ _) as [[c' cell'] [w|e]]; injection Ht as <- <-; auto.
Qed.

Lemma bump_bounded loads n :
  Forall (fun x => 0 <= x <= n) loads ->
  Forall (fun x => 0 <= x <= n + 1) (<[least_loaded loads := loads !!! least_loaded loads + 1]> loads).
Proof.
  intros Hl. rewrite Forall_forall in *. intros x Hx. apply list_elem_of_lookup in Hx as [i Hi].
  apply list_lookup_insert_Some in Hi as [(<- & <- & Hlt)|[_ Hi]].
  - destruct (lookup_lt_is_Some_2 _ _ Hlt) as [y Hy]. rewrite (list_lookup_total_correct _ _ _ Hy).
    specialize (Hl y (list_elem_of_lookup_2 _ _ _ Hy)). lia.
  - specialize (Hl x (list_elem_of_lookup_2 _ _ _ Hi)). lia.
Qed.

Lemma fwd_run_balanced s evs n sf live sent :
  fw_path_loads s <> [] -> Forall (fun x => 0 <= x <= n) (fw_path_loads s) -> 0 <= n ->
  n + Z.of_nat (length evs) < u64_MAX -> balanced (fw_path_loads s) ->
  fwd_run s evs = (sf, live, sent) -> balanced (fw_path_loads sf).
Proof.
  revert s n sf live sent. induction evs as [|[d|rng] evs IH]; intros s n sf live sent Hne Hl Hn Hmax Hb Hr;
    cbn [fwd_run length] in *; [by simplify_eq| |].
  - apply (IH (if fwd_read_enabled s then fwd_read s d else s) n sf live sent); try lia; try done;
      destruct (fwd_read_enabled s), d as [[|]|]; done.
  - destruct (fwd_tick s rng) as [s' out] eqn:Et.
    assert (Hs' : fw_path_loads s' <> [] /\ Forall (fun x => 0 <= x <= n + 1) (fw_path_loads s') /\
                  balanced (fw_path_loads s')).
    { destruct (fwd_tick_loads _ _ _ _ Et) as [->| ->].
      - split_and!; try done. eapply Forall_impl; [exact Hl|]. cbn. lia.
      - split_and!; [|by apply bump_bounded|apply balanced_insert; try done].
        + intros E. apply (f_equal length) in E. rewrite length_insert in E. by destruct (fw_path_loads s).
        + eapply Forall_impl; [exact Hl|]. cbn. lia. }
    destruct Hs' as (Hne' & Hl' & Hb'). destruct out as [p cell wire|]; [|by simplify_eq].
    destruct (fwd_run s' evs) as [[sf' live'] sent'] eqn:Er. simplify_eq.
    eapply (IH s' (n + 1)); try done; lia.
Qed.

(** ** Properties *)

(** Multi-path delivery. Whatever the client writes and whenever the ticks
    fire, if the data packets the router sent reach the reassembler in any
    order, over any paths, with any losses and repetitions, the bytes written
    out are a prefix of what the client wrote; if no more than ten thousand
    packets were sent and each arrives at least once, everything sent is
    written, and what is missing is exactly what the router still buffers. *)
Theorem multipath_delivery (circuits : list OnionCircuit) (evs : list FwdEvent) (sf : FwdState) (live : bool)
    (sent : list (nat * OnionCell * bytes)) (arrivals : list bytes) :
  fwd_run (fwd_init circuits) evs = (sf, live, sent) ->
  Forall (fun p => p ∈ data_packets sent) arrivals ->
  let out := concat (reassemble_all MultiPathReassembler_new arrivals).2 in
  let input := fwd_input (fwd_init circuits) evs in
  out `prefix_of` input /\
  (Z.of_nat (length (data_packets sent)) <= MAX_BUFFERED_ENTRIES ->
   (forall p, p ∈ data_packets sent -> p ∈ arrivals) -> live = true ->
   input = out ++ fw_client_buffer sf).
Proof.
  intros Hrun Harr. destruct (fwd_run_init _ _ _ _ _ Hrun) as (cs & rest & Hp & Hs & Hin & Hlive).
  cbv zeta. rewrite Hin, Hp in *. destruct (reassemble_all _ arrivals) as [r out] eqn:Er. cbn [snd].
  assert (Hg : Forall (genuine cs) arrivals).
  { eapply Forall_impl; [exact Harr|]. cbn. intros p Hp'. apply list_elem_of_lookup in Hp' as [i Hi].
    rewrite list_lookup_imap in Hi. destruct (cs !! i) as [c|] eqn:Ec; [|done]. injection Hi as <-. by exists i, c. }
  assert (H0 : reasm_inv cs MultiPathReassembler_new) by (constructor; cbn; [lia|done]).
  destruct (reassemble_all_inv _ _ _ _ _ Hs Hg H0 eq_refl Er) as (HR & [Hn Ho] & Hnone).
  cbn [MultiPathReassembler_new mpr_next_expected_seq] in Hn, Ho. change (Z.to_nat 0) with 0%nat in Ho. rewrite drop_0 in Ho.
  split.
  - rewrite Ho. exists (concat (drop (length out) cs) ++ rest).
    by rewrite app_assoc, <- concat_app, take_drop.
  - intros Hmax Hall Hl. rewrite length_imap in Hmax.
    destruct (reassemble_all_holds _ _ _ _ _ Hs Hmax Hg H0 Er) as [_ Hh].
    assert (Hfull : mpr_next_expected_seq r = Z.of_nat (length cs)).
    { destruct HR as [Hnr _]. destruct (decide (mpr_next_expected_seq r < Z.of_nat (length cs))) as [Hlt|]; [|lia].
      destruct (lookup_lt_is_Some_2 cs (Z.to_nat (mpr_next_expected_seq r))) as [c Hc]; [lia|].
      destruct (Hh _ _ Hc) as [Hk|[d Hk]]; [|lia|].
      - apply Hall, list_elem_of_lookup. eexists. rewrite list_lookup_imap, Hc. done.
      - rewrite Z2Nat.id, Hnone in Hk by lia. done. }
    rewrite Ho, take_ge by lia. by rewrite Hlive.
Qed.

(** The router spreads load evenly: over any run no path has carried more
    than one cell more than any other. *)
Theorem multipath_balanced (circuits : list OnionCircuit) (evs : list FwdEvent) (sf : FwdState) (live : bool)
    (sent : list (nat * OnionCell * bytes)) (i j : nat) (x y : Z) :
  circuits <> [] -> Z.of_nat (length evs) < u64_MAX ->
  fwd_run (fwd_init circuits) evs = (sf, live, sent) ->
  fw_path_loads sf !! i = Some x -> fw_path_loads sf !! j = Some y -> x <= y + 1.
Proof.
  intros Hne Hlen Hrun. eapply (fwd_run_balanced (fwd_init circuits) evs 0 sf live sent); [..|exact Hrun].
  - by destruct circuits.
  - cbn. apply Forall_replicate. lia.
  - lia.
  - lia.
  - intros a b u v Hu Hv. cbn in Hu, Hv. apply lookup_replicate in Hu as [-> _], Hv as [-> _]. lia.
Qed.
End Router.

(** ** A concrete run *)
#[local] Existing Instance toy_primitives.

Definition example_circuits : list OnionCircuit := [toy_circuit; toy_circuit].
Definition example_events : list FwdEvent :=
  [FTick (replicate 32 0); FRead (Some [1; 2; 3]); FTick (replicate 32 0); FRead (Some [4; 5]);
   FTick (replicate 32 0); FRead (Some [6])].
Definition example_run : FwdState * bool * list (nat * OnionCell * bytes) :=
  fwd_run (fwd_init example_circuits) example_events.
Definition example_arrivals : list bytes := [packet 1 [4; 5]; packet 1 [4; 5]; packet 0 [1; 2; 3]].

Lemma example_run_eq :
  fwd_run (fwd_init example_circuits) example_events = (example_run.1.1, example_run.1.2, example_run.2).
Proof. unfold example_run. by destruct (fwd_run _ _) as [[? ?] ?]. Qed.

Lemma example_packets : data_packets example_run.2 = [packet 0 [1; 2; 3]; packet 1 [4; 5]].
Proof. vm_compute. reflexivity. Qed.

Lemma multipath_delivery_witness :
  concat (reassemble_all MultiPathReassembler_new example_arrivals).2 = [1; 2; 3; 4; 5] /\
  fwd_input (fwd_init example_circuits) example_events =
    concat (reassemble_all MultiPathReassembler_new example_arrivals).2 ++ fw_client_buffer example_run.1.1.
Proof.
  split; [reflexivity|].
  apply (multipath_delivery example_circuits example_events example_run.1.1 example_run.1.2 example_run.2 example_arrivals).
  - exact example_run_eq.
  - rewrite example_packets. unfold example_arrivals.
    repeat constructor; rewrite list_elem_of_In; cbn; auto.
  - rewrite example_packets. vm_compute. discriminate.
  - rewrite example_packets. unfold example_arrivals. intros p. rewrite !list_elem_of_In. cbn. tauto.
  - vm_compute. reflexivity.
Defined.

Lemma multipath_balanced_witness :
  fw_path_loads example_run.1.1 = [2; 1] /\ 2 <= 1 + 1.
Proof.
  split; [vm_compute; reflexivity|].
  apply (multipath_balanced example_circuits example_events example_run.1.1 example_run.1.2 example_run.2 0 1 2 1).
  - discriminate.
  - vm_compute. reflexivity.
  - exact example_run_eq.
  - vm_compute. reflexivity.
  - vm_compute. reflexivity.
Defined.
