(* ===== verification/Router.v ===== *)
(** * The multi-path router's backward task (src/gateway/multipath_router.rs)

    What comes back over the paths: each path's bytes are collected into cells,
    a full cell is unwrapped by that path's circuit, and the payload of a data
    cell goes to the reassembler, whose output is written to the client. Reads
    of the paths interleave and cut the bytes anywhere. *)
From S2P Require Import Prelude Cell Replay Circuit MultiPath.

Record BwdState := mkBwd {
  bw_circuits : list OnionCircuit;
  bw_bufs : list bytes;                 (* what is read of each path's next cell *)
  bw_reassembler : MultiPathReassembler;
  bw_out : bytes;
  bw_live : bool;
}.

Definition bwd_init (circuits : list OnionCircuit) : BwdState :=
  mkBwd circuits (replicate (length circuits) []) MultiPathReassembler_new [] true.

(** The writes of one cell: [Some n] fails after [n] bytes, and those that are
    not listed succeed. A failure while the buffer is drained leaves that loop
    only. *)
Definition outcomes := list (option nat).

Fixpoint drain_writing (fuel : nat) (self : MultiPathReassembler) (os : outcomes) : MultiPathReassembler * bytes :=
  match fuel with
  | O => (self, [])
  | S fuel =>
      match pop_next_buffered self with
      | (self, None) => (self, [])
      | (self, Some d) =>
          match os with
          | Some n :: _ => (self, take n d)
          | _ => let '(self, w) := drain_writing fuel self (tail os) in (self, d ++ w)
          end
      end
  end.

(** The arm for a data cell: what is written, and whether the task goes on. *)
Definition bwd_arm (self : MultiPathReassembler) (cell : OnionCell) (os : outcomes) : MultiPathReassembler * bytes * bool :=
  let len := Nat.min (Z.to_nat (cell_length cell)) (length (cell_payload cell)) in
  let '(self, first) := receive self (take len (cell_payload cell)) in
  match first with
  | None => (drain_writing (size (mpr_buffer self)) self os, true)
  | Some d =>
      match os with
      | Some n :: _ => (self, take n d, false)
      | _ => let '(self, w) := drain_writing (size (mpr_buffer self)) self (tail os) in (self, d ++ w, true)
      end
  end.

Section Backward.
Context `{OnionPrimitives}.

Definition bwd_cell (st : BwdState) (i : nat) (c : OnionCircuit) (raw : bytes) (os : outcomes) : BwdState :=
  let bufs := <[i := []]> (bw_bufs st) in
  match unwrap_backward c raw with
  | (c, _, Ok (_, cell)) =>
      let circuits := <[i := c]> (bw_circuits st) in
      match cell_command cell with
      | Data => let '(r, w, live) := bwd_arm (bw_reassembler st) cell os in mkBwd circuits bufs r (bw_out st ++ w) live
      | Destroy => mkBwd circuits bufs (bw_reassembler st) (bw_out st) false
      | _ => mkBwd circuits bufs (bw_reassembler st) (bw_out st) true
      end
  | (c, _, Err _) => mkBwd (<[i := c]> (bw_circuits st)) bufs (bw_reassembler st) (bw_out st) false
  end.

Inductive BwdEvent :=
| BRead (i : nat) (chunk : bytes) (os : outcomes)
| BStops.                               (* a read failed, or nothing came for a minute *)

Definition bwd_step (st : BwdState) (e : BwdEvent) : option BwdState :=
  if negb (bw_live st) then None
  else
    match e with
    | BStops => Some (mkBwd (bw_circuits st) (bw_bufs st) (bw_reassembler st) (bw_out st) false)
    | BRead i chunk os =>
        buf ← bw_bufs st !! i; c ← bw_circuits st !! i;
        if (ONION_CELL_SIZE <? length (buf ++ chunk))%nat then None
        else if bool_decide (chunk = []) then Some (mkBwd (bw_circuits st) (bw_bufs st) (bw_reassembler st) (bw_out st) false)
        else if (length (buf ++ chunk) =? ONION_CELL_SIZE)%nat then Some (bwd_cell st i c (buf ++ chunk) os)
        else Some (mkBwd (bw_circuits st) (<[i := buf ++ chunk]> (bw_bufs st)) (bw_reassembler st) (bw_out st) true)
    end.

Fixpoint bwd_run (st : BwdState) (es : list BwdEvent) : option BwdState :=
  match es with [] => Some st | e :: es => st ← bwd_step st e; bwd_run st es end.

(** ** Cells *)

(** The cells that are completed, in order, with their path. *)
Fixpoint frames (bufs : list bytes) (es : list BwdEvent) : list (nat * bytes) :=
  match es with
  | [] => []
  | BStops :: es => frames bufs es
  | BRead i chunk _ :: es =>
      let l := default [] (bufs !! i) ++ chunk in
      if bool_decide (chunk = []) then frames bufs es
      else if (length l =? ONION_CELL_SIZE)%nat then (i, l) :: frames (<[i := []]> bufs) es else frames (<[i := l]> bufs) es
  end.

(** The data payloads the circuits accept from these cells, up to the first
    cell that ends the task. *)
Fixpoint accepted (circuits : list OnionCircuit) (fs : list (nat * bytes)) : list bytes :=
  match fs with
  | [] => []
  | (i, raw) :: fs =>
      match circuits !! i with
      | None => []
      | Some c =>
          match unwrap_backward c raw with
          | (c, _, Ok (_, cell)) =>
              match cell_command cell with
              | Data => take (Nat.min (Z.to_nat (cell_length cell)) (length (cell_payload cell))) (cell_payload cell) :: accepted (<[i := c]> circuits) fs
              | Destroy => []
              | _ => accepted (<[i := c]> circuits) fs
              end
          | (_, _, Err _) => []
          end
      end
  end.

Definition bytes_of (i : nat) (e : BwdEvent) : bytes := match e with BRead j chunk _ => if (i =? j)%nat then chunk else [] | BStops => [] end.
Definition frames_of (i : nat) (fs : list (nat * bytes)) : bytes := concat ((fun f => if (i =? f.1)%nat then f.2 else []) <$> fs).

Definition unfailing (e : BwdEvent) : Prop := match e with BRead _ _ os => os = [] | BStops => True end.

Lemma drain_writing_ok fuel r : drain_writing fuel r [] = ((drain fuel r).1, concat (drain fuel r).2).
Proof.
  revert r. induction fuel as [|fuel IH]; intros r; [done|]. cbn [drain_writing drain tail]. destruct (pop_next_buffered r) as [r' [d|]]; [|done].
  rewrite IH. by destruct (drain fuel r').
Qed.

Lemma bwd_arm_ok r cell :
  bwd_arm r cell [] = let '(r', out) := bwd_data r cell in (r', concat out, true).
Proof.
  unfold bwd_arm, bwd_data, reassemble. destruct (receive r _) as [r1 [d|]]; cbn [tail]; rewrite drain_writing_ok; by destruct (drain _ r1).
Qed.

(** ** What the client gets *)
Lemma bwd_cell_ok st i c raw rest :
  bw_circuits st !! i = Some c -> let st' := bwd_cell st i c raw [] in
  bw_bufs st' = <[i := []]> (bw_bufs st) /\
  exists out, bw_out st' = bw_out st ++ out /\
    (if bw_live st' then
       out ++ concat (reassemble_all (bw_reassembler st') (accepted (bw_circuits st') rest)).2
     else out) = concat (reassemble_all (bw_reassembler st) (accepted (bw_circuits st) ((i, raw) :: rest))).2.
Proof.
  intros Hc st'. unfold st', bwd_cell. cbn [accepted]. rewrite Hc. destruct (unwrap_backward c raw) as [[c' raw'] [[hop cell]|e]].
  2: { split; [done|]. exists []. by rewrite app_nil_r. }
  destruct (cell_command cell) eqn:Hcmd; try (split; [done|]; exists []; by rewrite app_nil_r).
  rewrite bwd_arm_ok. destruct (bwd_data (bw_reassembler st) cell) as [r out] eqn:Hd. split; [done|]. exists (concat out). split; [done|].
  cbn [bw_live bw_reassembler bw_circuits reassemble_all]. unfold bwd_data in Hd. rewrite Hd. destruct (reassemble_all r _) as [r' out']. cbn [snd]. by rewrite concat_app.
Qed.

Lemma bwd_run_out st es st' :
  bwd_run st es = Some st' -> Forall unfailing es ->
  bw_out st' = bw_out st ++ concat (reassemble_all (bw_reassembler st) (accepted (bw_circuits st) (frames (bw_bufs st) es))).2.
Proof.
  revert st. induction es as [|e es IH]; intros st; cbn [bwd_run]; [intros [= <-] _; cbn; by rewrite app_nil_r|].
  destruct (bwd_step st e) as [st1|] eqn:Hs; [|done]. cbn [mbind option_bind]. intros Hr [He Hes]%Forall_cons.
  assert (Hdead : forall st1, bw_live st1 = false -> bwd_run st1 es = Some st' -> st' = st1 /\ es = []).
  { intros st2 Hd. destruct es; cbn [bwd_run]; [by intros [= <-]|]. unfold bwd_step at 1. by rewrite Hd. }
  unfold bwd_step in Hs. destruct (negb (bw_live st)); [done|]. destruct e as [i chunk os|].
  - cbn in He. subst os. destruct (bw_bufs st !! i) as [buf|] eqn:Hb; [|done]. destruct (bw_circuits st !! i) as [c|] eqn:Hc; [|done].
    cbn [mbind option_bind] in Hs. destruct (_ <? _)%nat eqn:Hlt; [done|]. cbn [frames]. rewrite Hb. cbn [default from_option id].
    case_bool_decide as Hempty.
    + injection Hs as <-. edestruct Hdead as [-> ->]; [|exact Hr|]; [done|]. cbn. by rewrite app_nil_r.
    + destruct (_ =? _)%nat; injection Hs as <-; [|by rewrite (IH _ Hr Hes)].
      destruct (bwd_cell_ok st i c (buf ++ chunk) (frames (<[i := []]> (bw_bufs st)) es) Hc) as (Hbufs & out & Ho & Hout). rewrite <- Hout.
      destruct (bw_live (bwd_cell st i c (buf ++ chunk) [])) eqn:Hl.
      * rewrite (IH _ Hr Hes), Ho, Hbufs. by rewrite app_assoc.
      * destruct (Hdead _ Hl Hr) as [-> _]. done.
  - injection Hs as <-. edestruct Hdead as [-> ->]; [|exact Hr|]; [done|]. cbn. by rewrite app_nil_r.
Qed.

Lemma bwd_run_frames st es st' i :
  bwd_run st es = Some st' -> (i < length (bw_bufs st))%nat ->
  default [] (bw_bufs st !! i) ++ concat (bytes_of i <$> es) = frames_of i (frames (bw_bufs st) es) ++ default [] (bw_bufs st' !! i).
Proof.
  revert st. induction es as [|e es IH]; intros st; cbn [bwd_run]; [intros [= <-] _; cbn; by rewrite app_nil_r|].
  destruct (bwd_step st e) as [st1|] eqn:Hs; [|done]. cbn [mbind option_bind]. intros Hr Hi. unfold bwd_step in Hs. destruct (negb (bw_live st)); [done|].
  destruct e as [j chunk os|]; [|injection Hs as <-; exact (IH _ Hr Hi)]. destruct (bw_bufs st !! j) as [buf|] eqn:Hb; [|done].
  destruct (bw_circuits st !! j) as [c|] eqn:Hc; [|done]. cbn [mbind option_bind] in Hs. destruct (_ <? _)%nat eqn:Hlt; [done|].
  cbn [frames fmap list_fmap concat bytes_of]. rewrite Hb. change (default [] (Some buf)) with buf. case_bool_decide as Hempty.
  { subst chunk. injection Hs as <-. pose proof (IH _ Hr Hi) as E. cbn [bw_bufs] in E. rewrite <- E. by destruct (i =? j)%nat. }
  assert (Hupd : forall l, bw_bufs st1 = <[j := l]> (bw_bufs st) ->
    default [] (<[j := l]> (bw_bufs st) !! i) ++ concat (bytes_of i <$> es) = frames_of i (frames (<[j := l]> (bw_bufs st)) es) ++ default [] (bw_bufs st' !! i)).
  { intros l E. rewrite <- E. apply IH; [exact Hr|]. by rewrite E, length_insert. }
  assert (Hj : (j < length (bw_bufs st))%nat) by (by apply lookup_lt_Some in Hb).
  destruct (length (buf ++ chunk) =? ONION_CELL_SIZE)%nat; injection Hs as <-.
  - assert (Hbufs : bw_bufs (bwd_cell st j c (buf ++ chunk) os) = <[j := []]> (bw_bufs st)).
    { unfold bwd_cell. destruct (unwrap_backward c _) as [[? ?] [[? ?]|?]]; [|done]. destruct (cell_command _); try done. by destruct (bwd_arm _ _ _) as [[? ?] ?]. }
    specialize (Hupd [] Hbufs). unfold frames_of in *. cbn [fmap list_fmap concat fst snd]. rewrite <- app_assoc, <- Hupd. destruct (Nat.eqb_spec i j) as [->|Hne].
    + rewrite Hb, list_lookup_insert_eq by done. cbn. by rewrite <- app_assoc.
    + by rewrite list_lookup_insert_ne.
  - rewrite <- (Hupd _ eq_refl). destruct (Nat.eqb_spec i j) as [->|Hne]; [|by rewrite list_lookup_insert_ne].
    rewrite Hb, list_lookup_insert_eq by done. cbn. by rewrite <- app_assoc.
Qed.

Lemma frames_full bufs es : Forall (fun f => length f.2 = ONION_CELL_SIZE) (frames bufs es).
Proof.
  revert bufs. induction es as [|[i chunk os|] es IH]; intros bufs; cbn [frames]; [constructor| |apply IH]. case_bool_decide; [apply IH|].
  destruct (Nat.eqb_spec (length (default [] (bufs !! i) ++ chunk)) ONION_CELL_SIZE); [by constructor|apply IH].
Qed.

(** What comes back over several paths arrives whole and in order. However
    the reads cut and interleave the bytes, each path's bytes are taken as its
    consecutive cells, only payloads its own circuit accepts are used, and what
    the client is written is what the reassembler makes of them; so if the
    accepted payloads are packets of the far end's stream, with whatever
    losses, repetitions and reordering, the client has a prefix of it. *)
Theorem multipath_backward (circuits : list OnionCircuit) (es : list BwdEvent) (st : BwdState) :
  bwd_run (bwd_init circuits) es = Some st -> Forall unfailing es ->
  let fs := frames (replicate (length circuits) []) es in
  (forall i, (i < length circuits)%nat -> concat (bytes_of i <$> es) = frames_of i fs ++ default [] (bw_bufs st !! i)) /\
  Forall (fun f => length f.2 = ONION_CELL_SIZE) fs /\
  bw_out st = concat (reassemble_all MultiPathReassembler_new (accepted circuits fs)).2 /\
  forall cs, stream_ok cs -> Forall (genuine cs) (accepted circuits fs) -> bw_out st `prefix_of` concat cs.
Proof.
  intros Hr Hok fs. pose proof (bwd_run_out _ _ _ Hr Hok) as Ho. cbn [bwd_init bw_out bw_reassembler bw_circuits bw_bufs app] in Ho. split_and!; [|apply frames_full|done|].
  - intros i Hi. pose proof (bwd_run_frames _ _ _ i Hr) as Hf. cbn [bwd_init bw_bufs] in Hf. rewrite length_replicate in Hf. unfold fs. rewrite <- Hf by done.
    by rewrite lookup_replicate_2.
  - intros cs Hs Hg. rewrite Ho. fold fs. destruct (reassemble_all _ (accepted circuits fs)) as [r out] eqn:Er.
    assert (H0 : reasm_inv cs MultiPathReassembler_new) by (constructor; cbn; [lia|done]).
    destruct (reassemble_all_inv _ _ _ _ _ Hs Hg H0 eq_refl Er) as (_ & [_ Hout] & _). cbn [MultiPathReassembler_new mpr_next_expected_seq] in Hout.
    change (Z.to_nat 0) with 0%nat in Hout. rewrite drop_0 in Hout. cbn [snd]. rewrite Hout. exists (concat (drop (length out) cs)).
    by rewrite <- concat_app, take_drop.
Qed.
End Backward.

(** ** Witness *)
#[local] Existing Instance toy_primitives.

(** A packet of two bytes, sealed by the first hop of the second path. *)
Definition toy_packet_cell : OnionCell :=
  {| cell_circuit_id := 7; cell_sequence_no := 1; cell_command := Data; cell_stream_id := 1; cell_length := 10; cell_ephemeral_key := replicate 32 9;
     cell_mac := replicate 16 0; cell_payload := packet 0 [5; 6] ++ replicate (PAYLOAD_SIZE - 10) 0 |}.

Definition toy_packet_frame : bytes :=
  header8 7 1 ++ cell_text toy_packet_cell ++ toy_tag (backward_aead_key (toy_keys 10)) (cell_text toy_packet_cell).

(** It arrives in two parts, with something of the other path in between. *)
Definition toy_arrival : list BwdEvent := [BRead 1 (take 100 toy_packet_frame) []; BRead 0 [9; 9] []; BRead 1 (drop 100 toy_packet_frame) []; BStops].

Lemma multipath_backward_witness :
  exists st, bwd_run (bwd_init example_circuits) toy_arrival = Some st /\ bw_out st = [5; 6] /\ bw_out st `prefix_of` concat [[5; 6]; [7]].
Proof.
  destruct (bwd_run (bwd_init example_circuits) toy_arrival) as [st|] eqn:Hr; [|vm_compute in Hr; discriminate Hr]. exists st. split; [reflexivity|].
  destruct (multipath_backward example_circuits toy_arrival st Hr) as (_ & _ & Ho & Hp); [repeat constructor|].
  assert (Ha : accepted example_circuits (frames (replicate (length example_circuits) []) toy_arrival) = [packet 0 [5; 6]]) by (vm_compute; reflexivity).
  rewrite Ha in Ho, Hp. split; [rewrite Ho; reflexivity|]. apply Hp; [split; [discriminate|apply Forall_cons; split; [|apply Forall_singleton]; apply Nat.leb_le; vm_compute; reflexivity]|].
  constructor; [|constructor]. exists 0%nat, [5; 6]. split; reflexivity.
Defined.
