(* ===== verification/Identity.v ===== *)
(** * Composite identities (src/crypto/hybrid_identity.rs, src/crypto/identity.rs)

    An identity is an Ed25519 key and an ML-DSA-65 key; its public name is a
    32-byte pin, the SHA-256 of both encoded public keys. A proof carries the
    whole public key and both signatures over a domain-separated transcript.

    SHA-256, Ed25519 and ML-DSA come from crates and are the interface
    [IdentityPrimitives]; keys are represented by their seeds and encodings. *)
From S2P Require Import Prelude Text.

(** ** Primitives *)
Class IdentityPrimitives := {
  sha256 : bytes -> bytes;
  (** ed25519_dalek: public key of a seed, signature, [verify_strict],
      [VerifyingKey::from_bytes] succeeds, [is_weak], and
      [Signature::from_slice] succeeds. *)
  ed_public : bytes -> bytes;
  ed_sign : bytes -> bytes -> bytes;
  ed_verify : bytes -> bytes -> bytes -> bool;
  ed_valid : bytes -> bool;
  ed_weak : bytes -> bool;
  ed_sig_valid : bytes -> bool;
  (** ml_dsa with parameter set 65; [try_from] of an encoded signature. *)
  pq_public : bytes -> bytes;
  pq_sign : bytes -> bytes -> bytes;
  pq_verify : bytes -> bytes -> bytes -> bool;
  pq_sig_valid : bytes -> bool;
}.

Class IdentityLaws `{IdentityPrimitives} : Prop := {
  sha256_length : forall m, length (sha256 m) = 32%nat;
  sha256_bytes : forall m, is_bytes (sha256 m);
  ed_public_length : forall sk, length (ed_public sk) = 32%nat;
  ed_public_valid : forall sk, ed_valid (ed_public sk) = true /\ ed_weak (ed_public sk) = false;
  ed_sign_length : forall sk m, length (ed_sign sk m) = 64%nat;
  ed_sign_valid : forall sk m, ed_sig_valid (ed_sign sk m) = true;
  ed_correct : forall sk m, ed_verify (ed_public sk) m (ed_sign sk m) = true;
  pq_public_length : forall sk, length (pq_public sk) = Z.to_nat 1952;
  pq_sign_length : forall sk m, length (pq_sign sk m) = Z.to_nat 3309;
  pq_sign_valid : forall sk m, pq_sig_valid (pq_sign sk m) = true;
  pq_correct : forall sk m, pq_verify (pq_public sk) m (pq_sign sk m) = true;
  ed_public_bytes : forall sk, is_bytes (ed_public sk);
  ed_sign_bytes : forall sk m, is_bytes (ed_sign sk m);
  pq_public_bytes : forall sk, is_bytes (pq_public sk);
  pq_sign_bytes : forall sk m, is_bytes (pq_sign sk m);
}.

(** ** Data *)
Definition MAGIC : bytes := str "AGID0001".
Definition PUBLIC_KEY_SIZE : nat := 8 + 32 + Z.to_nat 1952.
Definition SIGNATURE_SIZE : nat := 8 + 64 + Z.to_nat 3309.
Definition MAX_MESSAGE : Z := 16 * 1024 * 1024.
Definition PROOF_SIZE : nat := PUBLIC_KEY_SIZE + SIGNATURE_SIZE.

#[global] Arguments PUBLIC_KEY_SIZE : simpl never.
#[global] Arguments SIGNATURE_SIZE : simpl never.
#[global] Arguments PROOF_SIZE : simpl never.

(** [io::Error] with its kind. *)
Inductive IoErrorKind :=
| InvalidData | InvalidInput | PermissionDenied | NotFound | BrokenPipe | ConnectionAborted | TimedOut
| UnexpectedEof | AlreadyExists | ConnectionRefused | ConnectionReset | NetworkUnreachable | Unsupported | OtherError.
#[global] Instance IoErrorKind_eq_dec : EqDecision IoErrorKind.
Proof. solve_decision. Defined.
Record IoError := mkIoError { io_kind : IoErrorKind; io_msg : string }.
Definition invalid : IoError := mkIoError InvalidData "Invalid hybrid identity proof".

Record HybridSigningKey := mkHybridSigningKey { classical_seed : bytes; post_quantum_seed : bytes }.
Record HybridPublicKey := mkHybridPublicKey {
  hpk_encoded : bytes;
  hpk_classical : bytes;
  hpk_post_quantum : bytes;
}.

(** ** Operations *)

(** [u16::from(triple[0]) | (u16::from(triple[1] & 15) << 8)] and its pair. *)
Fixpoint triples_canonical (l : bytes) : bool :=
  match l with
  | t0 :: t1 :: t2 :: rest =>
      let first := Z.lor t0 (Z.shiftl (Z.land t1 15) 8) in
      let second := Z.lor (Z.shiftr t1 4) (Z.shiftl t2 4) in
      (first <? 3329) && (second <? 3329) && triples_canonical rest
  | _ => true
  end.

Definition mlkem768_public_is_canonical (b : bytes) : bool :=
  (length b =? Z.to_nat 1184)%nat && triples_canonical (take (Z.to_nat 1152) b).

Section Identity.
Context `{IdentityPrimitives}.

Definition public_key (sk : HybridSigningKey) : HybridPublicKey :=
  let classical := ed_public (classical_seed sk) in
  let post_quantum := pq_public (post_quantum_seed sk) in
  {| hpk_encoded := MAGIC ++ classical ++ post_quantum;
     hpk_classical := classical; hpk_post_quantum := post_quantum |}.

Definition from_seeds (seeds : bytes) : HybridSigningKey :=
  {| classical_seed := take 32 seeds; post_quantum_seed := drop 32 seeds |}.

Definition private_bundle (sk : HybridSigningKey) : bytes :=
  MAGIC ++ classical_seed sk ++ post_quantum_seed sk.

(** The parsing half of [read_private_file]: the bytes of the file. *)
Definition parse_private_file (bytes : bytes) : result IoError HybridSigningKey :=
  if negb (length bytes =? 72)%nat || negb (bool_decide (take 8 bytes = MAGIC)) then Err invalid
  else Ok (from_seeds (drop 8 bytes)).

Definition fingerprint (key : HybridPublicKey) : bytes :=
  sha256 (str "AnonGuard-HybridIdentity-Pin-v1" ++ hpk_encoded key).

Definition transcript (key : HybridPublicKey) (purpose message : bytes) : result IoError bytes :=
  if (length purpose =? 0)%nat || (255 <? length purpose)%nat || (MAX_MESSAGE <? Z.of_nat (length message))
  then Err invalid
  else Ok (str "AnonGuard-HybridIdentity-Proof-v1" ++ fingerprint key ++ [Z.of_nat (length purpose)]
           ++ purpose ++ be_bytes 8 (Z.of_nat (length message)) ++ message).

Definition hybrid_sign (sk : HybridSigningKey) (purpose message : bytes) : result IoError bytes :=
  let? tr := transcript (public_key sk) purpose message in
  Ok (MAGIC ++ ed_sign (classical_seed sk) tr ++ pq_sign (post_quantum_seed sk) tr).

Definition hybrid_decode (encoded : bytes) : result IoError HybridPublicKey :=
  if negb (length encoded =? PUBLIC_KEY_SIZE)%nat || negb (bool_decide (take 8 encoded = MAGIC)) then Err invalid
  else
    let classical := slice 8 40 encoded in
    if negb (ed_valid classical) then Err invalid
    else if ed_weak classical then Err invalid
    else Ok {| hpk_encoded := encoded; hpk_classical := classical; hpk_post_quantum := drop 40 encoded |}.

Definition hybrid_verify (key : HybridPublicKey) (purpose message proof : bytes) : result IoError unit :=
  if negb (length proof =? SIGNATURE_SIZE)%nat || negb (bool_decide (take 8 proof = MAGIC)) then Err invalid
  else
    let? tr := transcript key purpose message in
    let ed := slice 8 72 proof in
    let pq := drop 72 proof in
    if negb (ed_sig_valid ed) then Err invalid
    else if negb (pq_sig_valid pq) then Err invalid
    else if negb (ed_verify (hpk_classical key) tr ed) then Err invalid
    else if negb (pq_verify (hpk_post_quantum key) tr pq) then Err invalid
    else Ok tt.

(** *** src/crypto/identity.rs: the network identity built on it *)
Definition PURPOSE : bytes := str "network-identity-v6".

Definition verifying_key (sk : HybridSigningKey) : bytes := fingerprint (public_key sk).

(** [None] is the [expect] on an oversized message. *)
Definition identity_sign (sk : HybridSigningKey) (message : bytes) : option bytes :=
  match hybrid_sign sk PURPOSE message with
  | Ok proof => Some (hpk_encoded (public_key sk) ++ proof)
  | Err _ => None
  end.

Definition VerifyingKey_from_bytes (pin : bytes) : result IoError bytes :=
  if bool_decide (pin = replicate 32 0) then Err (mkIoError InvalidData "Zero identity pin") else Ok pin.

Definition signature_public_key (sig : bytes) : result IoError HybridPublicKey :=
  if negb (length sig =? PROOF_SIZE)%nat then Err (mkIoError InvalidData "Invalid composite proof size")
  else hybrid_decode (take PUBLIC_KEY_SIZE sig).

Definition Signature_from_slice (b : bytes) : result IoError bytes :=
  if negb (length b =? PROOF_SIZE)%nat then Err (mkIoError InvalidData "Invalid composite proof size")
  else Ok b.

Definition component_pins (sig : bytes) : result IoError (bytes * bytes) :=
  let? key := signature_public_key sig in
  Ok (hpk_classical key, sha256 (drop 40 (hpk_encoded key))).

Definition verify_strict (pin message sig : bytes) : result IoError unit :=
  let? key := signature_public_key sig in
  if negb (bool_decide (fingerprint key = pin)) then
    Err (mkIoError PermissionDenied "Composite identity pin mismatch")
  else hybrid_verify key PURPOSE message (drop PUBLIC_KEY_SIZE sig).

(** ** Lemmas *)
Ltac identity_sizes := unfold PROOF_SIZE, PUBLIC_KEY_SIZE, SIGNATURE_SIZE in *; lia.

(** Variable-length fields behind their length prefix are read back. *)
Lemma transcript_inj key p m p' m' t :
  transcript key p m = Ok t -> transcript key p' m' = Ok t -> p = p' /\ m = m'.
Proof.
  unfold transcript. intros H1 E.
  destruct (_ || _) eqn:E1 in H1; [discriminate H1|]. apply Ok_inj in H1 as <-.
  destruct (_ || _) eqn:E2 in E; [discriminate E|]. apply Ok_inj in E. reflect_bools.
  apply app_inv_head, app_inv_head, app_inj_1 in E as [Hl E]; [|done]. injection Hl as Hl. apply app_inj_1 in E as [-> E]; [|lia].
  split; [done|]. apply app_inj_1 in E as [_ E]; [done|by rewrite !be_bytes_length].
Qed.

Section Laws.
Context `{!IdentityLaws}.

Lemma public_encoded_length sk : length (hpk_encoded (public_key sk)) = PUBLIC_KEY_SIZE.
Proof.
  cbn [public_key hpk_encoded]. rewrite !length_app, ed_public_length, pq_public_length. reflexivity.
Qed.

Lemma decode_public sk : hybrid_decode (hpk_encoded (public_key sk)) = Ok (public_key sk).
Proof.
  unfold hybrid_decode. rewrite public_encoded_length, Nat.eqb_refl. cbn [public_key hpk_encoded negb orb].
  destruct (ed_public_valid (classical_seed sk)) as [Hv Hw].
  assert (Hs : slice 8 40 (MAGIC ++ ed_public (classical_seed sk) ++ pq_public (post_quantum_seed sk))
    = ed_public (classical_seed sk)) by (apply slice_app_at; [done|by rewrite ed_public_length]).
  rewrite bool_decide_eq_true_2 by (by apply (take_app_length' MAGIC)).
  cbn [negb]. rewrite Hs, Hv, Hw. cbn [negb]. unfold public_key. do 2 f_equal.
  rewrite app_assoc. apply drop_app_length'. by rewrite length_app, ed_public_length.
Qed.

Lemma transcript_ok key p m :
  (0 < length p <= 255)%nat -> Z.of_nat (length m) <= MAX_MESSAGE -> exists t, transcript key p m = Ok t.
Proof.
  intros Hp Hm. unfold transcript. destruct (_ || _) eqn:E; [|eauto].
  rewrite (proj2 (Z.ltb_ge _ _)), orb_false_r in E by done. apply orb_true_iff in E as [E|E]; reflect_bools; lia.
Qed.

Lemma hybrid_sign_verify sk p m proof :
  hybrid_sign sk p m = Ok proof ->
  length proof = SIGNATURE_SIZE /\ hybrid_verify (public_key sk) p m proof = Ok tt.
Proof.
  unfold hybrid_sign. destruct (transcript (public_key sk) p m) as [t|] eqn:Ht; [|done]. intros <-%Ok_inj.
  assert (Hlen : length (MAGIC ++ ed_sign (classical_seed sk) t ++ pq_sign (post_quantum_seed sk) t) = SIGNATURE_SIZE).
  { rewrite !length_app, ed_sign_length, pq_sign_length. reflexivity. }
  split; [done|]. unfold hybrid_verify. rewrite Hlen, Nat.eqb_refl, Ht. cbn [negb orb].
  rewrite bool_decide_eq_true_2 by (by apply (take_app_length' MAGIC)). cbn [negb].
  rewrite (slice_app_at 8 72 MAGIC) by (done || by rewrite ed_sign_length).
  assert (drop 72 (MAGIC ++ ed_sign (classical_seed sk) t ++ pq_sign (post_quantum_seed sk) t)
    = pq_sign (post_quantum_seed sk) t) as ->.
  { rewrite app_assoc. apply drop_app_length'. by rewrite length_app, ed_sign_length. }
  cbn [public_key hpk_classical hpk_post_quantum]. by rewrite ed_sign_valid, pq_sign_valid, ed_correct, pq_correct.
Qed.

(** Signing fails only on a message above 16 MiB. *)
Lemma identity_sign_ok sk m :
  Z.of_nat (length m) <= MAX_MESSAGE -> exists sig, identity_sign sk m = Some sig.
Proof.
  intros Hm. unfold identity_sign, hybrid_sign.
  destruct (transcript_ok (public_key sk) PURPOSE m) as [t ->]; [change (length PURPOSE) with 19%nat; lia|done|]. eauto.
Qed.

Lemma identity_sign_verifies sk m sig :
  identity_sign sk m = Some sig ->
  length sig = PROOF_SIZE /\ verify_strict (verifying_key sk) m sig = Ok tt.
Proof.
  unfold identity_sign. destruct (hybrid_sign sk PURPOSE m) as [proof|] eqn:Hs; [|done]. intros <-%Some_inj'.
  apply hybrid_sign_verify in Hs as [Hl Hv]. pose proof (public_encoded_length sk) as He.
  assert (Hlen : length (hpk_encoded (public_key sk) ++ proof) = PROOF_SIZE) by (rewrite length_app, He, Hl; done).
  split; [done|]. unfold verify_strict, signature_public_key. rewrite Hlen, Nat.eqb_refl. cbn [negb].
  rewrite take_app_length', drop_app_length', decode_public by done.
  by rewrite bool_decide_eq_true_2.
Qed.

Lemma component_pins_sign sk m sig :
  identity_sign sk m = Some sig ->
  component_pins sig = Ok (ed_public (classical_seed sk), sha256 (pq_public (post_quantum_seed sk))).
Proof.
  intros Hs. destruct (identity_sign_verifies _ _ _ Hs) as [Hl _].
  unfold identity_sign in Hs. destruct (hybrid_sign sk PURPOSE m) as [proof|] eqn:Hh; [|done]. apply Some_inj' in Hs as <-.
  unfold component_pins, signature_public_key. rewrite Hl, Nat.eqb_refl. cbn [negb].
  rewrite take_app_length', decode_public by (symmetry; apply public_encoded_length). do 3 f_equal.
  unfold public_key. cbn [hpk_encoded]. rewrite app_assoc.
  apply drop_app_length'. by rewrite length_app, ed_public_length.
Qed.
End Laws.

(** What a verified proof consists of. *)
Lemma verify_strict_inv pin m sig :
  verify_strict pin m sig = Ok tt ->
  length sig = PROOF_SIZE /\
  let key := take PUBLIC_KEY_SIZE sig in
  let proof := drop PUBLIC_KEY_SIZE sig in
  sha256 (str "AnonGuard-HybridIdentity-Pin-v1" ++ key) = pin /\
  take 8 key = MAGIC /\ take 8 proof = MAGIC /\
  ed_valid (slice 8 40 key) = true /\ ed_weak (slice 8 40 key) = false /\
  exists t, transcript (mkHybridPublicKey key (slice 8 40 key) (drop 40 key)) PURPOSE m = Ok t /\
    ed_verify (slice 8 40 key) t (slice 8 72 proof) = true /\
    pq_verify (drop 40 key) t (drop 72 proof) = true.
Proof.
  unfold verify_strict, signature_public_key, hybrid_decode, hybrid_verify, fingerprint. intros Hv.
  destruct (Nat.eqb_spec (length sig) PROOF_SIZE) as [Hl|]; [cbn [negb] in Hv|done].
  destruct (_ || _) eqn:E0 in Hv; [done|]. destruct (ed_valid _) eqn:E1; [|done]. cbn [negb] in Hv.
  destruct (ed_weak _) eqn:E2; [done|]. cbn [hpk_encoded hpk_classical hpk_post_quantum] in Hv.
  destruct (bool_decide _) eqn:E3 in Hv; [cbn [negb] in Hv|done].
  destruct (_ || _) eqn:E4 in Hv; [done|].
  destruct (transcript _ _ _) as [t|] eqn:Et; [|done].
  destruct (ed_sig_valid _); [cbn [negb] in Hv|done]. destruct (pq_sig_valid _); [cbn [negb] in Hv|done].
  destruct (ed_verify _ _ _) eqn:E5; [cbn [negb] in Hv|done].
  destruct (pq_verify _ _ _) eqn:E6; [cbn [negb] in Hv|done].
  reflect_bools. split; [done|]. cbv zeta. split_and!; eauto.
Qed.

Lemma parse_private_bundle sk :
  length (classical_seed sk) = 32%nat -> length (post_quantum_seed sk) = 32%nat ->
  parse_private_file (private_bundle sk) = Ok sk.
Proof.
  intros Hc Hp. unfold parse_private_file, private_bundle, from_seeds.
  rewrite !length_app, Hc, Hp. cbn [length MAGIC]. rewrite bool_decide_eq_true_2 by (by apply (take_app_length' MAGIC)).
  change (length MAGIC + (32 + 32) =? 72)%nat with true. cbn [negb orb].
  rewrite !(drop_app_length' MAGIC), take_app_length', drop_app_length' by done. by destruct sk.
Qed.

(** ** Properties *)

(** An identity's own proof verifies under its pin: for every message up
    to 16 MiB signing succeeds, and what it returns has the fixed proof size
    and is accepted by [verify_strict]. *)
Theorem identity_sign_verify `{!IdentityLaws} (sk : HybridSigningKey) (m : bytes) :
  Z.of_nat (length m) <= MAX_MESSAGE ->
  exists sig, identity_sign sk m = Some sig /\ length sig = PROOF_SIZE /\
    verify_strict (verifying_key sk) m sig = Ok tt.
Proof.
  intros Hm. destruct (identity_sign_ok sk m Hm) as [sig Hs].
  apply identity_sign_verifies in Hs as Hv. eauto.
Qed.

(** A pin accepts only both signatures together. If [verify_strict]
    accepts a proof, the proof embeds a public key whose hash is the pin, the
    classical component is a valid, non-weak key, and the Ed25519 and the
    ML-DSA component each verify over one transcript, which no other message
    and no other purpose of the same key produces. *)
Theorem verify_strict_binds (pin m sig : bytes) :
  verify_strict pin m sig = Ok tt ->
  let key := take PUBLIC_KEY_SIZE sig in
  let hk := mkHybridPublicKey key (slice 8 40 key) (drop 40 key) in
  fingerprint hk = pin /\ ed_valid (slice 8 40 key) = true /\ ed_weak (slice 8 40 key) = false /\
  exists t, ed_verify (slice 8 40 key) t (slice 8 72 (drop PUBLIC_KEY_SIZE sig)) = true /\
    pq_verify (drop 40 key) t (drop 72 (drop PUBLIC_KEY_SIZE sig)) = true /\
    (forall purpose m', transcript hk purpose m' = Ok t <-> purpose = PURPOSE /\ m' = m).
Proof.
  intros (Hl & Hpin & _ & _ & Hv & Hw & t & Ht & He & Hp)%verify_strict_inv.
  split_and!; try done. exists t. split_and!; try done. intros purpose m'. split; [|by intros [-> ->]].
  intros Ht'. destruct (transcript_inj _ _ _ _ _ _ Ht' Ht). done.
Qed.
End Identity.

(** ** A concrete instance
    Checksums in place of signatures: enough to satisfy the laws and to run
    the definitions. *)
Definition toy_public (sk : bytes) : bytes := be_bytes 32 (from_be sk).

#[local] Instance toy_identity : IdentityPrimitives := {
  sha256 m := be_bytes 32 (fold_left (fun acc b => Z.land (acc * 257 + b + 1) 2305843009213693951) m 0);
  ed_public sk := toy_public sk;
  ed_sign sk m := be_bytes 64 (from_be (toy_public sk) + from_be m);
  ed_verify pk m sig := bool_decide (sig = be_bytes 64 (from_be pk + from_be m));
  ed_valid pk := true;
  ed_weak pk := false;
  ed_sig_valid sig := true;
  pq_public sk := be_bytes (Z.to_nat 1952) (from_be sk);
  pq_sign sk m := be_bytes (Z.to_nat 3309) (from_be (be_bytes (Z.to_nat 1952) (from_be sk)) + 2 * from_be m);
  pq_verify pk m sig := bool_decide (sig = be_bytes (Z.to_nat 3309) (from_be pk + 2 * from_be m));
  pq_sig_valid sig := true;
}.

#[local] Instance toy_identity_laws : IdentityLaws.
Proof.
  split; intros; unfold sha256, ed_public, ed_valid, ed_weak, ed_sign, ed_sig_valid, ed_verify, pq_public,
    pq_sign, pq_sig_valid, pq_verify, toy_identity, toy_public;
    lazymatch goal with
    | |- length _ = _ => apply be_bytes_length
    | |- is_bytes _ => apply be_bytes_is_bytes
    | |- bool_decide _ = true => by apply bool_decide_eq_true_2
    | _ => done
    end.
Qed.

Definition toy_signer : HybridSigningKey := mkHybridSigningKey (replicate 32 1) (replicate 32 2).

Lemma identity_sign_verify_witness :
  exists sig, identity_sign toy_signer [1; 2; 3] = Some sig /\ length sig = PROOF_SIZE /\
    verify_strict (verifying_key toy_signer) [1; 2; 3] sig = Ok tt.
Proof. apply (identity_sign_verify toy_signer [1; 2; 3]). unfold MAX_MESSAGE. cbn [length]. lia. Defined.

Lemma verify_strict_binds_witness :
  exists sig, verify_strict (verifying_key toy_signer) [1; 2; 3] sig = Ok tt /\
    ed_weak (slice 8 40 (take PUBLIC_KEY_SIZE sig)) = false.
Proof.
  destruct (identity_sign_ok toy_signer [1; 2; 3]) as [sig Hs]; [unfold MAX_MESSAGE; cbn [length]; lia|].
  destruct (identity_sign_verifies toy_signer _ _ Hs) as [_ Hv]. exists sig. split; [exact Hv|].
  destruct (verify_strict_binds _ _ _ Hv) as (_ & _ & Hw & _). exact Hw.
Defined.
