(* ===== verification/Storage.v ===== *)
(** * Durable storage (src/core/storage.rs)

    What the callers of the storage module can observe: the answer of a bounded
    read of a regular file and the contents left behind by an atomic
    replacement. Whether each system call succeeds is an argument. *)
From S2P Require Import Prelude Identity.

(** [atomic_write] fails before the rename, or after it when the directory
    cannot be synced. *)
Inductive WriteOutcome := Written | FailedBefore | FailedAfter.

(** The answer of [read_bounded_file] for a regular file with these contents;
    [io] is [false] when opening or reading it fails. *)
Definition read_bounded_file (io : bool) (content : option bytes) (maximum : Z) : result IoError bytes :=
  match checked_add u64_MAX maximum 1 with
  | None => Err (mkIoError InvalidInput "Invalid input size limit")
  | Some _ =>
      match content with
      | None => Err (mkIoError NotFound "open")
      | Some b =>
          if negb io then Err (mkIoError OtherError "open")
          else if maximum <? Z.of_nat (length b) then
            Err (mkIoError InvalidData "Security input must be a bounded regular file")
          else Ok b
      end
  end.

(** The contents afterwards, and whether the call reports success. *)
Definition atomic_write (content : option bytes) (outcome : WriteOutcome) (b : bytes) : option bytes * bool :=
  match outcome with
  | Written => (Some b, true)
  | FailedBefore => (content, false)
  | FailedAfter => (Some b, false)
  end.

Lemma read_bounded_some io c m b : read_bounded_file io c m = Ok b -> c = Some b.
Proof. unfold read_bounded_file. intros Hr. repeat (split_in Hr; try discriminate Hr). by apply Ok_inj in Hr as <-. Qed.


Lemma read_bounded_not_found io c m e :
  m < u64_MAX -> read_bounded_file io c m = Err e -> io_kind e = NotFound -> c = None.
Proof.
  intros Hm. unfold read_bounded_file, checked_add. rewrite (proj2 (Z.leb_le _ _)) by lia.
  destruct c; [|done]. intros Hr Hk. repeat (split_in Hr; simplify_eq); done.
Qed.

Lemma atomic_write_content c w b c' ok : atomic_write c w b = (c', ok) -> c' = Some b \/ (c' = c /\ ok = false).
Proof. destruct w; cbn; intros [= <- <-]; auto. Qed.
