(* ===== verification/KeyStore.v ===== *)
(** * The identity key file (src/crypto/hybrid_identity.rs, src/core/storage.rs)

    [load_or_create] as run by any number of processes on one directory: each
    reads the key file, and if there is none writes a private temporary file
    and publishes it with a hard link, which fails if the name exists. The steps
    of the processes interleave, any system call may fail, a process may die
    anywhere, and a power failure loses the directory entries that were not
    synced. Temporary names are random 128-bit numbers and taken to be distinct:
    a temporary file is named by its process. *)
From S2P Require Import Prelude Identity Storage.

Record KeyFile := mkKeyFile { kf_content : bytes; kf_mode : Z; kf_regular : bool }.

(** [read_private_file]; [io] is [false] when a system call fails. *)
Definition read_private_file (file : option KeyFile) (io : bool) : result IoError HybridSigningKey :=
  match file with
  | None => Err (mkIoError NotFound "open")
  | Some f =>
      if negb io then Err (mkIoError OtherError "open")
      else if negb (kf_regular f) || (72 <? Z.of_nat (length (kf_content f))) then Err (mkIoError InvalidData "Security input must be a bounded regular file")
      else if negb (Z.land (kf_mode f) 63 =? 0) then Err (mkIoError PermissionDenied "Hybrid identity must be private")
      else parse_private_file (kf_content f)
  end.

Inductive KeyProcess :=
| Opening
| Preparing                                             (* there was no key *)
| Creating
| Writing (seeds : bytes) (parts : list bytes)          (* what is still to write *)
| Linking (seeds : bytes)
| Cleaning (r : result IoError HybridSigningKey)
| Syncing (key : HybridSigningKey)
| Loaded (key : HybridSigningKey)                       (* found by the first read *)
| Published (key : HybridSigningKey)                    (* after an attempt to create *)
| Failed.

Record KeyDir := mkKeyDir {
  kd_path : option KeyFile;
  kd_synced : bool;                                     (* the entry survives a power failure *)
  kd_temps : gmap nat KeyFile;
  kd_procs : gmap nat KeyProcess;
}.

Inductive KeyEvent :=
| KStart
| KRead (io : bool)
| KMkdir (io : bool)
| KCreate (seeds : bytes) (io : bool)
| KWrite (failed : option nat)                          (* bytes written before an error *)
| KSync (io : bool)
| KLink (io : bool)
| KClean (io : bool)
| KSyncDir (io : bool)
| KDies.

Definition set_proc (d : KeyDir) (p : nat) (s : KeyProcess) : KeyDir := mkKeyDir (kd_path d) (kd_synced d) (kd_temps d) (<[p := s]> (kd_procs d)).

Definition set_temp (d : KeyDir) (p : nat) (f : KeyFile) : KeyDir := mkKeyDir (kd_path d) (kd_synced d) (<[p := f]> (kd_temps d)) (kd_procs d).

Definition append (d : KeyDir) (p : nat) (b : bytes) : KeyDir :=
  match kd_temps d !! p with Some f => set_temp d p (mkKeyFile (kf_content f ++ b) (kf_mode f) (kf_regular f)) | None => d end.

(** One system call of [load_or_create] in process [p]. *)
Definition key_step (d : KeyDir) (p : nat) (ev : KeyEvent) : option KeyDir :=
  match kd_procs d !! p, ev with
  | None, KStart => Some (set_proc d p Opening)
  | Some Opening, KRead io =>
      Some (set_proc d p (match read_private_file (kd_path d) io with
                          | Ok key => Loaded key
                          | Err e => if bool_decide (io_kind e = NotFound) then Preparing else Failed
                          end))
  | Some Preparing, KMkdir io => Some (set_proc d p (if io then Creating else Failed))
  | Some Creating, KCreate seeds io =>
      if negb (length seeds =? 64)%nat || bool_decide (is_Some (kd_temps d !! p)) then None
      else if io then Some (set_proc (set_temp d p (mkKeyFile [] 384 true)) p (Writing seeds [MAGIC; seeds]))
      else Some (set_proc d p (Cleaning (Err (mkIoError OtherError "create"))))
  | Some (Writing seeds (part :: parts)), KWrite failed =>
      match failed with
      | None => Some (set_proc (append d p part) p (Writing seeds parts))
      | Some n => Some (set_proc (append d p (take n part)) p (Cleaning (Err (mkIoError OtherError "write"))))
      end
  | Some (Writing seeds []), KSync io => Some (set_proc d p (if io then Linking seeds else Cleaning (Err (mkIoError OtherError "sync"))))
  | Some (Linking seeds), KLink io =>
      match kd_path d with
      | Some _ => Some (set_proc d p (Cleaning (read_private_file (kd_path d) io)))
      | None =>
          if io then Some (set_proc (mkKeyDir (kd_temps d !! p) false (kd_temps d) (kd_procs d)) p (Cleaning (Ok (from_seeds seeds))))
          else Some (set_proc d p (Cleaning (Err (mkIoError OtherError "link"))))
      end
  | Some (Cleaning r), KClean io =>
      let d := if io then mkKeyDir (kd_path d) (kd_synced d) (delete p (kd_temps d)) (kd_procs d) else d in
      Some (set_proc d p (match r with Ok key => if io then Syncing key else Failed | Err _ => Failed end))
  | Some (Syncing key), KSyncDir io =>
      Some (if io then set_proc (mkKeyDir (kd_path d) true (kd_temps d) (kd_procs d)) p (Published key) else set_proc d p Failed)
  | Some _, KDies => Some (set_proc d p Failed)
  | _, _ => None
  end.

Inductive KeyMove := Step (p : nat) (ev : KeyEvent) | PowerFailure (lost : bool).

(** No process survives a power failure; the entry may if it was not synced. *)
Definition key_move (d : KeyDir) (m : KeyMove) : option KeyDir :=
  match m with
  | Step p ev => key_step d p ev
  | PowerFailure lost => Some (mkKeyDir (if negb (kd_synced d) && lost then None else kd_path d) true (kd_temps d) ∅)
  end.

Fixpoint key_run (d : KeyDir) (ms : list KeyMove) : option KeyDir :=
  match ms with [] => Some d | m :: ms => d' ← key_move d m; key_run d' ms end.

(** ** Invariant *)
Definition holds (d : KeyDir) (key : HybridSigningKey) : Prop :=
  exists f, kd_path d = Some f /\ kf_regular f = true /\ Z.land (kf_mode f) 63 = 0 /\ parse_private_file (kf_content f) = Ok key.

Lemma read_holds d io key : read_private_file (kd_path d) io = Ok key -> holds d key.
Proof.
  unfold read_private_file. destruct (kd_path d) as [f|] eqn:Hf; [|done]. destruct io; [|done]. cbn [negb]. refused H1. refused H2. reflect_bools.
  intros Hk. by exists f.
Qed.

Lemma written_parses seeds : length seeds = 64%nat -> parse_private_file (MAGIC ++ seeds) = Ok (from_seeds seeds).
Proof.
  intros Hl. unfold parse_private_file. rewrite length_app, Hl. change (length MAGIC + 64 =? 72)%nat with true.
  rewrite (take_app_length' MAGIC), (drop_app_length' MAGIC), bool_decide_true by done. done.
Qed.

Definition proc_ok (d : KeyDir) (p : nat) (s : KeyProcess) : Prop :=
  match s with
  | Writing seeds parts => length seeds = 64%nat /\ exists c, kd_temps d !! p = Some (mkKeyFile c 384 true) /\ c ++ concat parts = MAGIC ++ seeds
  | Linking seeds => length seeds = 64%nat /\ kd_temps d !! p = Some (mkKeyFile (MAGIC ++ seeds) 384 true)
  | Cleaning (Ok key) | Syncing key | Loaded key => holds d key
  | Published key => holds d key /\ kd_synced d = true
  | _ => True
  end.

Definition key_inv (d : KeyDir) : Prop := forall p s, kd_procs d !! p = Some s -> proc_ok d p s.

(** What a step of [p] leaves to the other processes. *)
Record keeps (d d' : KeyDir) (p : nat) : Prop := {
  ke_path : forall f, kd_path d = Some f -> kd_path d' = Some f;
  ke_synced : forall f, kd_path d = Some f -> kd_synced d = true -> kd_synced d' = true;
  ke_temps : forall q, q <> p -> kd_temps d' !! q = kd_temps d !! q;
  ke_procs : forall q, q <> p -> kd_procs d' !! q = kd_procs d !! q;
}.

Lemma holds_keeps d d' p key : keeps d d' p -> holds d key -> holds d' key.
Proof. intros [Hp _ _ _] (f & Hf & Hrest). exists f. by rewrite (Hp f Hf). Qed.

Lemma others_ok d d' p q s : keeps d d' p -> q <> p -> proc_ok d q s -> proc_ok d' q s.
Proof.
  intros Hk Hq. pose proof (fun key => holds_keeps d d' p key Hk) as Hh. destruct s; cbn [proc_ok]; try rewrite (ke_temps _ _ _ Hk q Hq); try done; try apply Hh.
  - destruct r; [apply Hh|done].
  - intros [Hkey Hs]. split; [by apply Hh|]. destruct Hkey as (f & E & _). by eapply ke_synced.
Qed.

Lemma set_proc_keeps d d' p s : keeps d d' p -> keeps d (set_proc d' p s) p.
Proof. intros [? ? ? Hp]. split; cbn; try done. intros q Hq. rewrite lookup_insert_ne by done. by apply Hp. Qed.

Lemma keeps_refl d p : keeps d d p.
Proof. by split. Qed.

Lemma set_temp_keeps d p f : keeps d (set_temp d p f) p.
Proof. split; cbn; try done. intros q Hq. by rewrite lookup_insert_ne. Qed.

Lemma append_keeps d p b : keeps d (append d p b) p.
Proof. unfold append. destruct (kd_temps d !! p); [apply set_temp_keeps|apply keeps_refl]. Qed.

Lemma delete_keeps d p : keeps d (mkKeyDir (kd_path d) (kd_synced d) (delete p (kd_temps d)) (kd_procs d)) p.
Proof. split; cbn; try done. intros q Hq. by rewrite lookup_delete_ne. Qed.

#[local] Hint Resolve set_proc_keeps keeps_refl set_temp_keeps append_keeps delete_keeps : keystore.

Lemma key_step_keeps d p ev d' : key_step d p ev = Some d' -> keeps d d' p.
Proof.
  unfold key_step. intros Hs. repeat (split_in Hs; try discriminate Hs); injection Hs as <-; auto with keystore.
  - apply set_proc_keeps. split; cbn; try done; congruence.
  - apply set_proc_keeps. by split.
Qed.

Lemma append_temp d p c b : kd_temps d !! p = Some (mkKeyFile c 384 true) -> kd_temps (append d p b) !! p = Some (mkKeyFile (c ++ b) 384 true).
Proof. intros E. unfold append. rewrite E. cbn. apply lookup_insert_eq. Qed.

Lemma key_step_own d p ev d' s : key_inv d -> key_step d p ev = Some d' -> kd_procs d' !! p = Some s -> proc_ok d' p s.
Proof.
  intros Hinv Hs. pose proof (key_step_keeps _ _ _ _ Hs) as Hk. pose proof (fun key => holds_keeps d d' p key Hk) as Hh. revert Hs. unfold key_step.
  destruct (kd_procs d !! p) as [s0|] eqn:Hp; [pose proof (Hinv p s0 Hp) as Hown|].
  2: { destruct ev; try done. intros [= <-]. cbn. rewrite lookup_insert_eq. by intros [= <-]. }
  assert (Hdies : forall s', kd_procs (set_proc d p Failed) !! p = Some s' -> proc_ok (set_proc d p Failed) p s').
  { intros s'. cbn. rewrite lookup_insert_eq. by intros [= <-]. }
  destruct s0 as [| | |seeds [|part parts]|seeds|r|key|key|key|], ev; try done; try (intros [= <-]; apply Hdies); cbn [proc_ok] in Hown.
  - intros [= <-]. cbn [kd_procs set_proc]. rewrite lookup_insert_eq. intros [= <-]. destruct (read_private_file _ _) as [key|e] eqn:Hr; [|by case_bool_decide].
    apply Hh. by eapply read_holds.
  - intros [= <-]. cbn [kd_procs set_proc]. rewrite lookup_insert_eq. intros [= <-]. by destruct io.
  - refused Hg. reflect_bools. destruct io; intros [= <-]; cbn [kd_procs set_proc]; rewrite lookup_insert_eq; intros [= <-]; [|done].
    split; [done|]. exists []. cbn. rewrite lookup_insert_eq, app_nil_r. done.
  - intros [= <-]. cbn [kd_procs set_proc]. rewrite lookup_insert_eq. intros [= <-]. destruct io; [|done]. destruct Hown as (Hl & c & Ht & Hc).
    cbn in Hc. rewrite app_nil_r in Hc. subst c. done.
  - destruct failed; intros [= <-]; cbn [kd_procs set_proc]; rewrite lookup_insert_eq; intros [= <-]; [done|]. destruct Hown as (Hl & c & Ht & Hc).
    split; [done|]. exists (c ++ part). cbn [kd_temps set_proc]. split; [by apply append_temp|]. by rewrite <- app_assoc.
  - destruct Hown as [Hl Ht]. pose proof (read_holds d io) as Hread. destruct (read_private_file (kd_path d) io) as [k|e]; (destruct (kd_path d) as [f|] eqn:Hf;
      [intros [= <-]; cbn [kd_procs set_proc]; rewrite lookup_insert_eq; intros [= <-]; first [done|by apply Hh, Hread]|]).
    all: destruct io; intros [= <-]; cbn [kd_procs set_proc]; rewrite lookup_insert_eq; intros [= <-]; [|done].
    all: cbn [proc_ok]; eexists; cbn; split; [exact Ht|]; split_and!; [done..|by apply written_parses].
  - intros [= <-]. cbn [kd_procs set_proc]. rewrite lookup_insert_eq. intros [= <-]. destruct r; [|done]. destruct io; [|done]. by apply Hh.
  - destruct io; intros [= <-]; cbn [kd_procs set_proc]; rewrite lookup_insert_eq; intros [= <-]; [|done]. split; [by apply Hh|done].
Qed.

Lemma key_move_inv d m d' : key_inv d -> key_move d m = Some d' -> key_inv d'.
Proof.
  intros Hinv. destruct m as [p ev|lost]; cbn [key_move]; [|intros [= <-] p s E; cbn in E; by rewrite lookup_empty in E]. intros Hs q s Hq.
  destruct (decide (q = p)) as [->|Hne]; [by eapply key_step_own|]. pose proof (key_step_keeps _ _ _ _ Hs) as Hk.
  eapply others_ok; [exact Hk|done|]. apply Hinv. by rewrite <- (ke_procs _ _ _ Hk q Hne).
Qed.

Lemma key_run_inv d ms d' : key_inv d -> key_run d ms = Some d' -> key_inv d'.
Proof.
  revert d. induction ms as [|m ms IH]; intros d Hd; cbn [key_run]; [by intros [= <-]|].
  destruct (key_move d m) as [d1|] eqn:Hm; [|done]. cbn [mbind option_bind]. apply IH. by eapply key_move_inv.
Qed.

Lemma start_inv path synced temps : key_inv (mkKeyDir path synced temps ∅).
Proof. intros p s E. cbn in E. by rewrite lookup_empty in E. Qed.

Definition no_power_failure (m : KeyMove) : Prop := match m with PowerFailure _ => False | _ => True end.

Lemma key_run_path d ms d' f :
  key_run d ms = Some d' -> kd_path d = Some f -> kd_synced d = true \/ Forall no_power_failure ms ->
  kd_path d' = Some f /\ (kd_synced d = true -> kd_synced d' = true).
Proof.
  revert d. induction ms as [|m ms IH]; intros d; cbn [key_run]; [by intros [= <-]|].
  destruct (key_move d m) as [d1|] eqn:Hm; [|done]. cbn [mbind option_bind]. intros Hr Hf Hsafe.
  assert (H1 : kd_path d1 = Some f /\ (kd_synced d = true -> kd_synced d1 = true)).
  { destruct m as [p ev|lost]; cbn [key_move] in Hm.
    - apply key_step_keeps in Hm. split; [by apply (ke_path _ _ _ Hm)|]. by apply (ke_synced _ _ _ Hm f).
    - injection Hm as <-. cbn. destruct Hsafe as [->|Hno]; [done|]. by apply Forall_cons in Hno as [? _]. }
  destruct H1 as [Hf1 Hs1]. destruct (IH d1 Hr Hf1) as [? Hs]; [|split; [done|auto]]. destruct Hsafe as [?|[_ ?]%Forall_cons]; [left|right]; auto.
Qed.

(** C26: One directory, one identity. However processes that start together are
    interleaved, fail and die, all that end up with a key have the same one,
    and it is what the key file holds, in a regular file nobody else may read. *)
Theorem one_identity (path : option KeyFile) (synced : bool) (temps : gmap nat KeyFile) (ms : list KeyMove) (d : KeyDir) (p q : nat)
    (kp kq : HybridSigningKey) :
  key_run (mkKeyDir path synced temps ∅) ms = Some d ->
  kd_procs d !! p = Some (Loaded kp) \/ kd_procs d !! p = Some (Published kp) ->
  kd_procs d !! q = Some (Loaded kq) \/ kd_procs d !! q = Some (Published kq) ->
  kp = kq /\ exists f, kd_path d = Some f /\ kf_regular f = true /\ Z.land (kf_mode f) 63 = 0 /\ parse_private_file (kf_content f) = Ok kp.
Proof.
  intros Hr Hp Hq. assert (Hinv : key_inv d) by (eapply key_run_inv; [|exact Hr]; apply start_inv).
  assert (Hh : forall r k, kd_procs d !! r = Some (Loaded k) \/ kd_procs d !! r = Some (Published k) -> holds d k).
  { intros r k [E|E]; apply Hinv in E; [exact E|apply E]. }
  destruct (Hh p kp Hp) as (f & Hf & Hreg & Hmode & Hkp), (Hh q kq Hq) as (f' & Hf' & _ & _ & Hkq). split; [congruence|]. by exists f.
Qed.

(** A key file is never replaced. Whatever is at the path, valid or corrupt,
    stays there through every step of every process; and once a process that
    had to create a key has returned one, the file survives any later deaths
    and power failures, and whoever reads it then gets that key. *)
Theorem identity_durable (path : option KeyFile) (synced : bool) (temps : gmap nat KeyFile) (ms ms' : list KeyMove) (d d' : KeyDir) :
  key_run (mkKeyDir path synced temps ∅) ms = Some d -> key_run d ms' = Some d' ->
  (forall f, kd_path d = Some f -> Forall no_power_failure ms' -> kd_path d' = Some f) /\
  (forall p key, kd_procs d !! p = Some (Published key) -> read_private_file (kd_path d') true = Ok key).
Proof.
  intros Hr Hr'. assert (Hinv : key_inv d) by (eapply key_run_inv; [|exact Hr]; apply start_inv). split.
  - intros f Hf Hno. by apply (key_run_path _ _ _ _ Hr' Hf); right.
  - intros p key Hp. apply Hinv in Hp as [(f & Hf & Hreg & Hmode & Hk) Hs]. destruct (key_run_path _ _ _ _ Hr' Hf (or_introl Hs)) as [-> _].
    unfold read_private_file. rewrite Hreg, Hmode. cbn [negb orb Z.eqb]. destruct (Z.ltb_spec 72 (Z.of_nat (length (kf_content f)))); [|done].
    revert Hk. unfold parse_private_file. destruct (Nat.eqb_spec (length (kf_content f)) 72); [lia|done].
Qed.

(** ** A lone start *)
Definition lone_start (p : nat) (seeds : bytes) : list KeyMove :=
  Step p <$> [KStart; KRead true; KMkdir true; KCreate seeds true; KWrite None; KWrite None; KSync true; KLink true; KClean true; KSyncDir true].

Lemma key_run_cons d m ms : key_run d (m :: ms) = (d' ← key_move d m; key_run d' ms).
Proof. done. Qed.

Lemma set_proc_single path synced temps p s s' : set_proc (mkKeyDir path synced temps {[p := s]}) p s' = mkKeyDir path synced temps {[p := s']}.
Proof. unfold set_proc. cbn. by rewrite insert_singleton_eq. Qed.

(** One step of the only process. *)
Local Ltac reduce_step :=
  cbv beta iota zeta delta [key_move key_step append set_temp kd_path kd_synced kd_temps kd_procs mbind option_bind negb orb kf_content kf_mode kf_regular].

Local Ltac run_step :=
  rewrite key_run_cons; reduce_step; rewrite ?lookup_singleton_eq, ?lookup_empty; reduce_step; rewrite ?lookup_singleton_eq, ?lookup_empty;
  reduce_step; rewrite ?insert_empty, ?insert_singleton_eq, ?set_proc_single.

(** A first start creates the key and every later one loads it. Without a
    key file and without failures, [load_or_create] returns the key of the drawn
    seeds, leaves nothing but the private key file behind, and a second start
    returns the same key without writing. *)
Theorem identity_created (p q : nat) (seeds : bytes) :
  length seeds = 64%nat -> p <> q ->
  let d := mkKeyDir (Some (mkKeyFile (MAGIC ++ seeds) 384 true)) true ∅ in
  key_run (mkKeyDir None true ∅ ∅) (lone_start p seeds) = Some (d {[p := Published (from_seeds seeds)]}) /\
  key_run (d {[p := Published (from_seeds seeds)]}) (Step q <$> [KStart; KRead true]) =
    Some (d (<[q := Loaded (from_seeds seeds)]> {[p := Published (from_seeds seeds)]})).
Proof.
  intros Hl Hne d. unfold lone_start, d. split.
  - assert (Hlen : (length seeds =? 64)%nat = true) by (by apply Nat.eqb_eq). rewrite !fmap_cons, fmap_nil.
    run_step. unfold set_proc at 1. reduce_step. rewrite insert_empty. run_step. cbn [read_private_file io_kind]. rewrite bool_decide_true by done. do 2 run_step.
    rewrite Hlen, bool_decide_false by (by intros []). reduce_step. rewrite ?insert_empty, ?set_proc_single. do 5 run_step. rewrite delete_singleton_eq. by run_step.
  - rewrite !fmap_cons, fmap_nil. run_step. rewrite lookup_singleton_ne by done. reduce_step. unfold set_proc at 1. run_step. rewrite lookup_insert_eq. reduce_step.
    unfold read_private_file. reduce_step. rewrite length_app, Hl, written_parses by done. unfold set_proc. cbn [kd_path kd_synced kd_temps kd_procs key_run]. by rewrite insert_insert_eq.
Qed.

(** ** Witnesses *)
Definition toy_seeds (b : Z) : bytes := replicate 64 b.

(** Two processes find no key; the second loses the race and takes the first's. *)
Definition toy_race : list KeyMove :=
  [Step 0 KStart; Step 1 KStart; Step 0 (KRead true); Step 1 (KRead true); Step 0 (KMkdir true); Step 1 (KMkdir true);
   Step 0 (KCreate (toy_seeds 7) true); Step 1 (KCreate (toy_seeds 9) true); Step 0 (KWrite None); Step 1 (KWrite None); Step 0 (KWrite None); Step 1 (KWrite None);
   Step 1 (KSync true); Step 0 (KSync true); Step 0 (KLink true); Step 1 (KLink true); Step 1 (KClean true); Step 1 (KSyncDir true); Step 0 (KClean true);
   Step 0 (KSyncDir true)].

Definition ends_with_key (d : KeyDir) (p : nat) : bool :=
  match kd_procs d !! p with Some (Published key) => bool_decide (classical_seed key = replicate 32 7) | _ => false end.

Lemma toy_race_ends : exists d k0 k1, key_run (mkKeyDir None true ∅ ∅) toy_race = Some d /\
  kd_procs d !! 0%nat = Some (Published k0) /\ kd_procs d !! 1%nat = Some (Published k1).
Proof.
  destruct (key_run (mkKeyDir None true ∅ ∅) toy_race) as [d|] eqn:Hr; [|vm_compute in Hr; discriminate Hr]. exists d.
  assert (Hb : match key_run (mkKeyDir None true ∅ ∅) toy_race with Some d => ends_with_key d 0 && ends_with_key d 1 | None => false end = true) by (vm_compute; reflexivity).
  rewrite Hr in Hb. unfold ends_with_key in Hb. apply andb_true_iff in Hb as [H0 H1].
  destruct (kd_procs d !! 0%nat) as [[]|]; try discriminate H0. destruct (kd_procs d !! 1%nat) as [[]|]; try discriminate H1. by do 2 eexists.
Qed.

Lemma one_identity_witness : exists d k0 k1, key_run (mkKeyDir None true ∅ ∅) toy_race = Some d /\ kd_procs d !! 1%nat = Some (Published k1) /\ k0 = k1.
Proof.
  destruct toy_race_ends as (d & k0 & k1 & Hr & H0 & H1). exists d, k0, k1. split; [exact Hr|]. split; [exact H1|].
  apply (one_identity None true ∅ toy_race d 0 1 k0 k1 Hr (or_intror H0) (or_intror H1)).
Defined.

Lemma identity_durable_witness :
  exists d d' k1, key_run (mkKeyDir None true ∅ ∅) toy_race = Some d /\ key_run d [PowerFailure true] = Some d' /\ read_private_file (kd_path d') true = Ok k1.
Proof.
  destruct toy_race_ends as (d & k0 & k1 & Hr & H0 & H1). eexists d, _, k1. split; [exact Hr|]. split; [reflexivity|].
  apply (proj2 (identity_durable None true ∅ toy_race [PowerFailure true] d _ Hr eq_refl) 1%nat k1 H1).
Defined.

Lemma identity_created_witness :
  key_run (mkKeyDir None true ∅ ∅) (lone_start 0 (toy_seeds 7)) =
    Some (mkKeyDir (Some (mkKeyFile (MAGIC ++ toy_seeds 7) 384 true)) true ∅ {[0%nat := Published (from_seeds (toy_seeds 7))]}).
Proof. apply (identity_created 0 1 (toy_seeds 7)); [reflexivity|discriminate]. Defined.
