(* ===== verification/Handshake.v ===== *)
(** * Circuit key agreement (src/onion/circuit.rs)

    CREATE / CREATED between a client and a relay: an X25519 and ML-KEM-768
    hybrid secret, bound by the relay's composite identity signature to the
    circuit, the hop position and every ephemeral value; the six hop keys come
    out of HKDF over the whole transcript. Also the EXTEND and RELAY payload
    codecs.

    X25519, ML-KEM and HKDF come from crates and are the interface
    [KexPrimitives]. An ML-KEM key is represented by its encoding. Random draws
    are arguments. *)
From S2P Require Import Prelude Text Cell Replay Circuit Identity.

Class KexPrimitives := {
  x25519_public : bytes -> bytes;
  x25519_dh : bytes -> bytes -> bytes;
  mlkem_ek : bytes -> bytes;
  mlkem_encapsulate : bytes -> bytes -> option (bytes * bytes);
  mlkem_decapsulate : bytes -> bytes -> option bytes;
  (** [Hkdf::new(Some(salt), ikm)] followed by [expand(info, len)]. *)
  hkdf_expand : bytes -> bytes -> bytes -> nat -> option bytes;
}.

Class KexLaws `{KexPrimitives} : Prop := {
  x25519_public_ok : forall s, length (x25519_public s) = 32%nat /\ is_bytes (x25519_public s);
  x25519_dh_length : forall s p, length (x25519_dh s p) = 32%nat;
  x25519_comm : forall a b, x25519_dh a (x25519_public b) = x25519_dh b (x25519_public a);
  mlkem_ek_ok : forall dk, length (mlkem_ek dk) = Z.to_nat 1184 /\ is_bytes (mlkem_ek dk) /\
    mlkem768_public_is_canonical (mlkem_ek dk) = true;
  mlkem_encapsulate_ok : forall dk r, exists ct ss, mlkem_encapsulate (mlkem_ek dk) r = Some (ct, ss);
  mlkem_ct_ok : forall ek r ct ss, mlkem_encapsulate ek r = Some (ct, ss) ->
    length ct = Z.to_nat 1088 /\ is_bytes ct /\ length ss = 32%nat;
  mlkem_correct : forall dk r ct ss,
    mlkem_encapsulate (mlkem_ek dk) r = Some (ct, ss) -> mlkem_decapsulate dk ct = Some ss;
  hkdf_expand_ok : forall salt ikm info len, (len <= 255 * 32)%nat ->
    exists okm, hkdf_expand salt ikm info len = Some okm;
}.

(** [{:?}] of a command. *)
Definition command_debug (c : CellCommand) : string :=
  match c with
  | Create => "Create" | Created => "Created" | Relay => "Relay" | Destroy => "Destroy"
  | Extend => "Extend" | Extended => "Extended" | Data => "Data" | DataAck => "DataAck"
  | Dummy => "Dummy" | End_ => "End" | Session => "Session" | SessionAccepted => "SessionAccepted"
  | SessionOpen => "SessionOpen" | SessionOpened => "SessionOpened" | SessionRefused => "SessionRefused"
  | SessionFinish => "SessionFinish" | SessionFinished => "SessionFinished" | SessionReset => "SessionReset"
  end.

Section Handshake.
Context `{IdentityPrimitives} `{KexPrimitives}.

Definition derive_hop_keys_with_context (shared_secret transcript : bytes) : result CircuitError HopKeys :=
  let salt := sha256 transcript in
  let expand (info : string) := hkdf_expand salt shared_secret (str info) 32 in
  let! forward_key := expand "AnonGuard-Forward-Key-v6" else Err KeyDerivationFailed in
  let! backward_key := expand "AnonGuard-Backward-Key-v6" else Err KeyDerivationFailed in
  let! forward_mac := expand "AnonGuard-Forward-MAC-v6" else Err KeyDerivationFailed in
  let! backward_mac := expand "AnonGuard-Backward-MAC-v6" else Err KeyDerivationFailed in
  let! forward_aead_key := expand "AnonGuard-Forward-AEAD-Key-v6" else Err KeyDerivationFailed in
  let! backward_aead_key := expand "AnonGuard-Backward-AEAD-Key-v6" else Err KeyDerivationFailed in
  Ok {| forward_key := forward_key; backward_key := backward_key; forward_mac := forward_mac;
        backward_mac := backward_mac; forward_aead_key := forward_aead_key;
        backward_aead_key := backward_aead_key |}.

Definition derive_hop_keys (shared_secret : bytes) : result CircuitError HopKeys :=
  derive_hop_keys_with_context shared_secret (str "AnonGuard-offline-key-derivation-v6").

Definition map_general {A} (r : result string A) : result CircuitError A :=
  match r with Ok a => Ok a | Err e => Err (General e) end.

Definition build_create_cell (rng : bytes) (circuit_id : Z) (client_pub client_mlkem_pub : bytes) (hop_index : Z)
    : result CircuitError OnionCell :=
  if MAX_HOPS <=? hop_index then Err (HopIndexOutOfRange hop_index)
  else
    let payload := replicate (Z.to_nat (1 + 32 + 1184 + 4 + 1)) 0 in
    let payload := blit 0 [hop_index] payload in
    let payload := blit 1 client_pub payload in
    let payload := blit 33 client_mlkem_pub payload in
    let payload := blit (Z.to_nat 1217) (be_bytes 4 circuit_id) payload in
    let payload := blit (Z.to_nat 1221) [6] payload in
    map_general (OnionCell_new rng circuit_id 0 Create 0 payload).

(** The byte string both sides sign and derive from. *)
Definition handshake_preimage (context_id hop_index : Z)
    (identity_pub relay_pub client_pub client_mlkem_pub mlkem_ct : bytes) : bytes :=
  str "AnonGuard-handshake-v6" ++ be_bytes 4 context_id ++ [hop_index] ++ identity_pub ++ relay_pub
  ++ client_pub ++ client_mlkem_pub ++ mlkem_ct.

(** [relay_secret], [kem_rng] and [rng] are the relay's random draws. The outer
    [option] is the [expect] inside [SigningKey::sign]. *)
Definition handle_create_cell (relay_secret kem_rng rng : bytes) (create_cell : OnionCell)
    (relay_identity_key : HybridSigningKey) : option (result CircuitError (RelayCircuitHop * OnionCell)) :=
  if negb (bool_decide (cell_command create_cell = Create)) then
    Some (Err (ParseError ("Expected CREATE, got " +:+ command_debug (cell_command create_cell))%string))
  else if negb (cell_length create_cell =? 1222)
       || negb (cell_payload create_cell !!! Z.to_nat 1221 =? 6) then Some (Err PayloadTooShort)
  else
    let payload := cell_payload create_cell in
    let context_id := from_be (slice (Z.to_nat 1217) (Z.to_nat 1221) payload) in
    let hop_index := payload !!! 0%nat in
    if MAX_HOPS <=? hop_index then Some (Err (HopIndexOutOfRange hop_index))
    else
      let client_pub := slice 1 33 payload in
      let client_mlkem_pub := slice 33 (Z.to_nat 1217) payload in
      if negb (mlkem768_public_is_canonical client_mlkem_pub) then
        Some (Err (ParseError "Non-canonical ML-KEM public key"))
      else
        let relay_pub := x25519_public relay_secret in
        let x25519_shared := x25519_dh relay_secret client_pub in
        if bool_decide (x25519_shared = replicate 32 0) then
          Some (Err (General "Non-contributory DH key rejected"))
        else
          match mlkem_encapsulate client_mlkem_pub kem_rng with
          | None => Some (Err (General "ML-KEM encapsulation failed"))
          | Some (mlkem_ct, mlkem_shared) =>
              let identity_pub := verifying_key relay_identity_key in
              let preimage := handshake_preimage context_id hop_index identity_pub relay_pub
                                client_pub client_mlkem_pub mlkem_ct in
              match identity_sign relay_identity_key preimage with
              | None => None
              | Some handshake_sig =>
                  Some (
                    let? keys := derive_hop_keys_with_context (x25519_shared ++ mlkem_shared) preimage in
                    let created_payload := relay_pub ++ identity_pub ++ handshake_sig ++ mlkem_ct in
                    let? created_cell :=
                      map_general (OnionCell_new rng (cell_circuit_id create_cell) 0 Created 0 created_payload) in
                    let relay_hop := RelayCircuitHop_new (cell_circuit_id create_cell) keys hop_index in
                    Ok ({| hop_circuit_id := hop_circuit_id relay_hop; hop_context_id := context_id;
                           hop_crypt := hop_crypt relay_hop;
                           hop_expected_recv_seq := hop_expected_recv_seq relay_hop;
                           hop_next_send_seq := hop_next_send_seq relay_hop;
                           Circuit.hop_index := Circuit.hop_index relay_hop |}, created_cell))
              end
          end.

Definition process_created_cell (created_cell : OnionCell) (client_secret client_pub_bytes client_mlkem_dk
    client_mlkem_pub_bytes pinned_identity_key : bytes) (cid hop_index : Z) : result CircuitError HopKeys :=
  if MAX_HOPS <=? hop_index then Err (HopIndexOutOfRange hop_index)
  else if negb (bool_decide (cell_command created_cell = Created))
       && negb (bool_decide (cell_command created_cell = Extended)) then
    Err (ParseError ("Expected CREATED or EXTENDED cell, got " +:+ command_debug (cell_command created_cell))%string)
  else if negb (cell_length created_cell =? Z.of_nat (64 + PROOF_SIZE + Z.to_nat 1088)) then Err PayloadTooShort
  else
    let payload := cell_payload created_cell in
    let relay_eph_pub_bytes := slice 0 32 payload in
    let relay_identity_pub_bytes := slice 32 64 payload in
    let sig_bytes := slice 64 (64 + PROOF_SIZE) payload in
    let mlkem_ct_bytes := slice (64 + PROOF_SIZE) (64 + PROOF_SIZE + Z.to_nat 1088) payload in
    if bool_decide (pinned_identity_key = replicate 32 0) then Err UnpinnedRelay
    else if negb (bool_decide (relay_identity_pub_bytes = pinned_identity_key)) then Err UnpinnedRelay
    else
      match VerifyingKey_from_bytes relay_identity_pub_bytes with
      | Err e => Err (ParseError ("Invalid relay composite identity key: " +:+ io_msg e)%string)
      | Ok vk =>
          let preimage := handshake_preimage cid hop_index relay_identity_pub_bytes relay_eph_pub_bytes
                            client_pub_bytes client_mlkem_pub_bytes mlkem_ct_bytes in
          match verify_strict vk preimage sig_bytes with
          | Err _ => Err (General "Handshake hybrid signature verification failed")
          | Ok _ =>
              let x25519_shared := x25519_dh client_secret relay_eph_pub_bytes in
              if bool_decide (x25519_shared = replicate 32 0) then
                Err (General "Non-contributory DH key rejected")
              else
                match mlkem_decapsulate client_mlkem_dk mlkem_ct_bytes with
                | None => Err (General "ML-KEM decapsulation failed")
                | Some mlkem_shared => derive_hop_keys_with_context (x25519_shared ++ mlkem_shared) preimage
                end
          end
      end.

(** *** EXTEND and RELAY payloads *)

Definition encode_extend_payload (next_host : bytes) (next_port : Z) (client_pub client_mlkem_pub : bytes)
    (hop_index : Z) : result CircuitError bytes :=
  if MAX_HOPS <=? hop_index then Err (HopIndexOutOfRange hop_index)
  else if (255 <? length next_host)%nat then Err (General "Host string exceeds 255 bytes limit")
  else Ok ([hop_index] ++ [Z.of_nat (length next_host)] ++ next_host ++ be_bytes 2 next_port
           ++ client_pub ++ client_mlkem_pub).

Definition extend_fixed : nat := 1 + 1 + 2 + 32 + Z.to_nat 1184.

Definition decode_extend_payload (payload : bytes) : result CircuitError (bytes * Z * bytes * bytes * Z) :=
  if (length payload <? extend_fixed)%nat then Err PayloadTooShort
  else
    let hop_index := payload !!! 0%nat in
    if MAX_HOPS <=? hop_index then Err (HopIndexOutOfRange hop_index)
    else
      let host_len := Z.to_nat (payload !!! 1%nat) in
      if (length payload <? 1 + 1 + host_len + 2 + 32 + Z.to_nat 1184)%nat then Err PayloadTooShort
      else if negb (length payload =? 1 + 1 + host_len + 2 + 32 + Z.to_nat 1184)%nat then
        Err (ParseError "Trailing EXTEND payload bytes")
      else
        match from_utf8 (slice 2 (2 + host_len) payload) with
        | None => Err (ParseError "Invalid UTF-8 in EXTEND host")
        | Some host =>
            let port := from_be (slice (2 + host_len) (2 + host_len + 2) payload) in
            let client_pub := slice (2 + host_len + 2) (2 + host_len + 2 + 32) payload in
            let mlkem := slice (2 + host_len + 2 + 32) (2 + host_len + 2 + 32 + Z.to_nat 1184) payload in
            if negb (mlkem768_public_is_canonical mlkem) then Err (ParseError "Non-canonical ML-KEM public key")
            else Ok (host, port, client_pub, mlkem, hop_index)
        end.

Definition encode_relay_target (target_host : bytes) (target_port : Z) : result CircuitError bytes :=
  if (255 <? length target_host)%nat then Err (General "Target host string exceeds 255 bytes limit")
  else Ok ([Z.of_nat (length target_host)] ++ target_host ++ be_bytes 2 target_port).

Definition decode_relay_target (payload : bytes) : result CircuitError (bytes * Z) :=
  if (length payload <? 1 + 2)%nat then Err PayloadTooShort
  else
    let host_len := Z.to_nat (payload !!! 0%nat) in
    if (length payload <? 1 + host_len + 2)%nat then Err PayloadTooShort
    else
      match from_utf8 (slice 1 (1 + host_len) payload) with
      | None => Err (ParseError "Invalid UTF-8 in RELAY target host")
      | Some host => Ok (host, from_be (slice (1 + host_len) (1 + host_len + 2) payload))
      end.

(** An in-process exchange: both sides of the key agreement, unsigned. *)
Definition perform_client_relay_handshake (client_secret client_mlkem_dk relay_secret kem_rng : bytes)
    : result CircuitError (HopKeys * HopKeys) :=
  let client_public := x25519_public client_secret in
  let relay_public := x25519_public relay_secret in
  let client_x25519_shared := x25519_dh client_secret relay_public in
  let relay_x25519_shared := x25519_dh relay_secret client_public in
  match mlkem_encapsulate (mlkem_ek client_mlkem_dk) kem_rng with
  | None => Err (General "ML-KEM encapsulation failed")
  | Some (ct, relay_mlkem_shared) =>
      match mlkem_decapsulate client_mlkem_dk ct with
      | None => Err (General "ML-KEM decapsulation failed")
      | Some client_mlkem_shared =>
          let? client_keys := derive_hop_keys (client_x25519_shared ++ client_mlkem_shared) in
          let? relay_keys := derive_hop_keys (relay_x25519_shared ++ relay_mlkem_shared) in
          Ok (client_keys, relay_keys)
      end
  end.

(** ** Lemmas *)
Definition create_body (hop cid : Z) (pub ek : bytes) : bytes :=
  [hop] ++ pub ++ ek ++ be_bytes 4 cid ++ [6].

Lemma create_body_length hop cid pub ek :
  length pub = 32%nat -> length ek = Z.to_nat 1184 -> length (create_body hop cid pub ek) = Z.to_nat 1222.
Proof. intros Hp He. unfold create_body. rewrite !length_app, Hp, He, be_bytes_length. cbn [length]. lia. Qed.

Lemma build_create_cell_ok rng cid pub ek hop :
  length pub = 32%nat -> length ek = Z.to_nat 1184 -> hop < MAX_HOPS ->
  build_create_cell rng cid pub ek hop =
    Ok {| cell_circuit_id := cid; cell_sequence_no := 0; cell_command := Create; cell_stream_id := 0;
          cell_length := 1222; cell_ephemeral_key := rng; cell_mac := replicate 16 0;
          cell_payload := create_body hop cid pub ek ++ replicate (PAYLOAD_SIZE - Z.to_nat 1222) 0 |}.
Proof.
  intros Hp He Hh. unfold build_create_cell. rewrite (proj2 (Z.leb_gt _ _)) by done.
  set (z := replicate (Z.to_nat (1 + 32 + 1184 + 4 + 1)) 0).
  assert (z = [] ++ z) as -> by done. unfold z.
  rewrite (blit_zeros' 0 _ _ _ (Z.to_nat 1221)), (blit_zeros' 1 _ _ _ (Z.to_nat 1189)),
    (blit_zeros' 33 _ _ _ 5), (blit_zeros' (Z.to_nat 1217) _ _ _ 1), (blit_zeros' (Z.to_nat 1221) _ _ _ 0);
    rewrite ?length_app, ?be_bytes_length, ?Hp, ?He; cbn [length]; try lia.
  cbn [replicate]. rewrite app_nil_r, app_nil_l, <- !app_assoc. fold (create_body hop cid pub ek).
  rewrite OnionCell_new_ok by (rewrite create_body_length by done; sizes).
  rewrite create_body_length by done. done.
Qed.

Lemma build_create_cell_wf rng cid pub ek hop create :
  is_u32 cid -> 0 <= hop -> length rng = 32%nat -> is_bytes rng -> length pub = 32%nat -> is_bytes pub -> length ek = Z.to_nat 1184 -> is_bytes ek ->
  build_create_cell rng cid pub ek hop = Ok create -> cell_wf create /\ cell_circuit_id create = cid /\ cell_sequence_no create = 0.
Proof.
  intros Hcid Hlo Hr Hrb Hp Hpb Hek Hekb Hb.
  assert (Hi : hop < MAX_HOPS) by (unfold build_create_cell in Hb; destruct (Z.leb_spec MAX_HOPS hop); [done|lia]).
  rewrite build_create_cell_ok in Hb by done. apply Ok_inj in Hb as <-. split; [|done]. pose proof (create_body_length hop cid _ _ Hp Hek) as Hl.
  constructor; cell_fields; try done; try (unfold_ints; lia); try sizes; split; auto with bytes.
  - rewrite length_app, Hl, length_replicate. sizes.
  - apply is_bytes_app; [|auto with bytes]. unfold create_body, MAX_HOPS in *.
    repeat (apply is_bytes_app; [done || auto with bytes|]); auto with bytes.
Qed.

Lemma create_body_reads hop cid pub ek z :
  length pub = 32%nat -> length ek = Z.to_nat 1184 ->
  let p := create_body hop cid pub ek ++ z in
  p !!! 0%nat = hop /\ slice 1 33 p = pub /\ slice 33 (Z.to_nat 1217) p = ek /\
  slice (Z.to_nat 1217) (Z.to_nat 1221) p = be_bytes 4 cid /\ p !!! Z.to_nat 1221 = 6.
Proof.
  intros Hp He p. unfold p, create_body. rewrite <- !app_assoc. split_and!.
  - done.
  - apply slice_app_at; [done|]. by rewrite Hp.
  - rewrite (app_assoc [hop]). apply slice_app_at; [by rewrite length_app, Hp|]. rewrite He. lia.
  - rewrite (app_assoc [hop]), (app_assoc _ ek).
    apply slice_app_at; rewrite ?length_app, ?Hp, ?He, ?be_bytes_length; cbn [length]; lia.
  - rewrite (app_assoc [hop]), (app_assoc _ ek), (app_assoc _ (be_bytes 4 cid)).
    apply list_lookup_total_middle. rewrite !length_app, Hp, He, be_bytes_length. cbn [length]. lia.
Qed.

Lemma handshake_preimage_length cid hop i r c k t :
  length i = 32%nat -> length r = 32%nat -> length c = 32%nat -> length k = Z.to_nat 1184 ->
  length t = Z.to_nat 1088 -> Z.of_nat (length (handshake_preimage cid hop i r c k t)) <= MAX_MESSAGE.
Proof.
  intros Hi Hr Hc Hk Ht. unfold handshake_preimage, MAX_MESSAGE.
  rewrite !length_app, Hi, Hr, Hc, Hk, Ht, be_bytes_length. cbn [length].
  change (length (str "AnonGuard-handshake-v6")) with 22%nat. lia.
Qed.

(** Every component of the signed byte string is determined by it. *)
Lemma handshake_preimage_inj cid hop i r c k t cid' hop' i' r' c' k' t' :
  is_u32 cid -> is_u32 cid' -> length i = length i' -> length r = length r' -> length c = length c' ->
  length k = length k' ->
  handshake_preimage cid hop i r c k t = handshake_preimage cid' hop' i' r' c' k' t' ->
  cid = cid' /\ hop = hop' /\ i = i' /\ r = r' /\ c = c' /\ k = k' /\ t = t'.
Proof.
  unfold handshake_preimage. intros Hu Hu' Hi Hr Hc Hk E. apply app_inv_head in E.
  apply app_inj_1 in E as [E1 E]; [|by rewrite !be_bytes_length].
  apply app_inj_1 in E as [E2 E]; [|done]. apply app_inj_1 in E as [E3 E]; [|done].
  apply app_inj_1 in E as [E4 E]; [|done]. apply app_inj_1 in E as [E5 E]; [|done].
  apply app_inj_1 in E as [E6 E]; [|done]. injection E2 as E2. split_and!; try done.
  apply (be_bytes_inj 4); [..|done]; change (256 ^ Z.of_nat 4) with 4294967296; unfold_ints; lia.
Qed.

Section Laws.
Context `{!IdentityLaws} `{!KexLaws}.

Lemma derive_ok secret tr : exists keys, derive_hop_keys_with_context secret tr = Ok keys.
Proof.
  unfold derive_hop_keys_with_context.
  repeat match goal with
  | |- context [hkdf_expand ?a ?b ?c 32] =>
      let k := fresh "k" in destruct (hkdf_expand_ok a b c 32) as [k ->]; [lia|]
  end. eauto.
Qed.

(** What a relay answers to a CREATE it can read. *)
Lemma handle_create_cell_ok relay_secret kem_rng rng cell sk hop cid pub dk ct ss sig keys z :
  let relay_pub := x25519_public relay_secret in
  let pre := handshake_preimage cid hop (verifying_key sk) relay_pub pub (mlkem_ek dk) ct in
  length pub = 32%nat -> is_u32 cid -> hop < MAX_HOPS ->
  cell_command cell = Create -> cell_length cell = 1222 ->
  cell_payload cell = create_body hop cid pub (mlkem_ek dk) ++ z ->
  x25519_dh relay_secret pub <> replicate 32 0 ->
  mlkem_encapsulate (mlkem_ek dk) kem_rng = Some (ct, ss) ->
  identity_sign sk pre = Some sig ->
  derive_hop_keys_with_context (x25519_dh relay_secret pub ++ ss) pre = Ok keys ->
  handle_create_cell relay_secret kem_rng rng cell sk =
    Some (Ok ({| hop_circuit_id := cell_circuit_id cell; hop_context_id := cid;
                 hop_crypt := {| crypt_keys := keys |}; hop_expected_recv_seq := 1; hop_next_send_seq := 1;
                 hop_index := hop |},
              {| cell_circuit_id := cell_circuit_id cell; cell_sequence_no := 0; cell_command := Created;
                 cell_stream_id := 0; cell_length := Z.of_nat (64 + PROOF_SIZE + Z.to_nat 1088);
                 cell_ephemeral_key := rng; cell_mac := replicate 16 0;
                 cell_payload := (relay_pub ++ verifying_key sk ++ sig ++ ct) ++
                   replicate (PAYLOAD_SIZE - (64 + PROOF_SIZE + Z.to_nat 1088)) 0 |})).
Proof.
  intros relay_pub pre Hp Hcid Hhop Hcmd Hlen Hpay Hdh Henc Hsig Hkeys.
  destruct (mlkem_ek_ok dk) as (Hek & _ & Hcan). destruct (mlkem_ct_ok _ _ _ _ Henc) as (Hct & _ & _).
  destruct (x25519_public_ok relay_secret) as [Hrp _].
  destruct (identity_sign_verifies _ _ _ Hsig) as [Hsl _].
  destruct (create_body_reads hop cid pub (mlkem_ek dk) z Hp Hek) as (R0 & R1 & R2 & R3 & R4).
  unfold handle_create_cell. rewrite Hcmd, Hlen, Hpay, R0, R1, R2, R3, R4, Hcan.
  rewrite bool_decide_eq_true_2, (bool_decide_eq_false_2 (x25519_dh _ _ = _)) by done.
  rewrite (proj2 (Z.leb_gt MAX_HOPS hop)), from_be_be_bytes, Henc by
    (done || change (256 ^ Z.of_nat 4) with 4294967296; unfold_ints; lia).
  fold relay_pub. fold pre. rewrite Hsig, Hkeys. change (1222 =? 1222) with true. change (6 =? 6) with true. cbn [negb orb].
  assert (Hdl : length (relay_pub ++ verifying_key sk ++ sig ++ ct) = (64 + PROOF_SIZE + Z.to_nat 1088)%nat).
  { unfold verifying_key, fingerprint, relay_pub. rewrite !length_app, Hrp, Hsl, Hct, sha256_length. lia. }
  rewrite OnionCell_new_ok by (rewrite Hdl; sizes; unfold PROOF_SIZE, PUBLIC_KEY_SIZE, SIGNATURE_SIZE; lia).
  rewrite Hdl. done.
Qed.

Lemma created_reads r i s t z :
  length r = 32%nat -> length i = 32%nat -> length s = PROOF_SIZE -> length t = Z.to_nat 1088 ->
  let p := (r ++ i ++ s ++ t) ++ z in
  slice 0 32 p = r /\ slice 32 64 p = i /\ slice 64 (64 + PROOF_SIZE) p = s /\
  slice (64 + PROOF_SIZE) (64 + PROOF_SIZE + Z.to_nat 1088) p = t.
Proof.
  intros Hr Hi Hs Ht p. unfold p. rewrite <- !app_assoc. split_and!.
  - by apply slice_app_first.
  - apply slice_app_at; [done|]. by rewrite Hi.
  - rewrite (app_assoc r). apply slice_app_at; rewrite ?length_app, ?Hr, ?Hi, ?Hs; lia.
  - rewrite (app_assoc r), (app_assoc _ s). apply slice_app_at; rewrite ?length_app, ?Hr, ?Hi, ?Hs, ?Ht; lia.
Qed.

Lemma process_created_cell_ok cell r pin sig ct z secret pub dk ekb cid hop ss keys :
  let pre := handshake_preimage cid hop pin r pub ekb ct in
  hop < MAX_HOPS -> cell_command cell = Created ->
  cell_length cell = Z.of_nat (64 + PROOF_SIZE + Z.to_nat 1088) ->
  cell_payload cell = (r ++ pin ++ sig ++ ct) ++ z ->
  length r = 32%nat -> length pin = 32%nat -> length sig = PROOF_SIZE -> length ct = Z.to_nat 1088 ->
  pin <> replicate 32 0 -> verify_strict pin pre sig = Ok tt ->
  x25519_dh secret r <> replicate 32 0 -> mlkem_decapsulate dk ct = Some ss ->
  derive_hop_keys_with_context (x25519_dh secret r ++ ss) pre = Ok keys ->
  process_created_cell cell secret pub dk ekb pin cid hop = Ok keys.
Proof.
  intros pre Hh Hcmd Hlen Hpay Hr Hi Hs Ht Hpin Hv Hdh Hdec Hk.
  destruct (created_reads r pin sig ct z Hr Hi Hs Ht) as (R0 & R1 & R2 & R3).
  unfold process_created_cell, VerifyingKey_from_bytes. rewrite Hcmd, Hlen, Hpay, R0, R1, R2, R3.
  rewrite (proj2 (Z.leb_gt MAX_HOPS hop)), Z.eqb_refl by done. cbn [negb andb].
  rewrite (bool_decide_eq_true_2 (Created = _)), (bool_decide_eq_false_2 (pin = replicate _ _)) by done. cbn [negb andb].
  rewrite (bool_decide_eq_true_2 (pin = pin)) by done. cbn [negb]. fold pre. rewrite Hv.
  by rewrite (bool_decide_eq_false_2 (x25519_dh _ _ = _)), Hdec.
Qed.

End Laws.

Lemma process_created_cell_inv cell secret pub dk ekb pin cid hop keys :
  process_created_cell cell secret pub dk ekb pin cid hop = Ok keys ->
  let p := cell_payload cell in
  let relay_pub := slice 0 32 p in
  let sig := slice 64 (64 + PROOF_SIZE) p in
  let ct := slice (64 + PROOF_SIZE) (64 + PROOF_SIZE + Z.to_nat 1088) p in
  let pre := handshake_preimage cid hop pin relay_pub pub ekb ct in
  hop < MAX_HOPS /\ pin <> replicate 32 0 /\ slice 32 64 p = pin /\
  (cell_command cell = Created \/ cell_command cell = Extended) /\
  verify_strict pin pre sig = Ok tt /\
  x25519_dh secret relay_pub <> replicate 32 0 /\
  exists ss, mlkem_decapsulate dk ct = Some ss /\
    derive_hop_keys_with_context (x25519_dh secret relay_pub ++ ss) pre = Ok keys.
Proof.
  unfold process_created_cell, VerifyingKey_from_bytes. intros Hp.
  destruct (Z.leb_spec MAX_HOPS hop); [discriminate Hp|].
  destruct (_ && _) eqn:E1 in Hp; [discriminate Hp|]. destruct (_ =? _) in Hp; [|discriminate Hp].
  cbn [negb] in Hp. destruct (bool_decide (pin = _)) eqn:E2 in Hp; [discriminate Hp|].
  destruct (bool_decide _) eqn:E3 in Hp; [cbn [negb] in Hp|discriminate Hp].
  destruct (bool_decide (slice 32 64 _ = replicate _ _)) eqn:E4 in Hp; [discriminate Hp|].
  reflect_bools. rewrite E3 in Hp.
  destruct (verify_strict _ _ _) as [[]|] eqn:Hv; [|discriminate Hp].
  destruct (bool_decide _) eqn:E5 in Hp; [discriminate Hp|]. reflect_bools.
  destruct (mlkem_decapsulate _ _) as [ss|] eqn:Hd; [|discriminate Hp].
  cbv zeta. split_and!; eauto.
  apply andb_false_iff in E1 as [E1|E1]; reflect_bools; auto.
Qed.

(** *** Codecs *)
Lemma extend_reads (hop : Z) (host port pub ek : bytes) :
  length port = 2%nat -> length pub = 32%nat -> length ek = Z.to_nat 1184 ->
  let n := length host in
  let p := [hop] ++ [Z.of_nat n] ++ host ++ port ++ pub ++ ek in
  length p = (1 + 1 + n + 2 + 32 + Z.to_nat 1184)%nat /\ slice 2 (2 + n) p = host /\
  slice (2 + n) (2 + n + 2) p = port /\ slice (2 + n + 2) (2 + n + 2 + 32) p = pub /\
  slice (2 + n + 2 + 32) (2 + n + 2 + 32 + Z.to_nat 1184) p = ek.
Proof.
  intros Hp Hu He n p. unfold p, n.
  assert (Hl : length ([hop] ++ [Z.of_nat (length host)]) = 2%nat) by done.
  rewrite (app_assoc [hop]). set (h2 := [hop] ++ [Z.of_nat (length host)]) in *. split_and!.
  - rewrite !length_app, Hl, Hp, Hu, He. lia.
  - by apply slice_app_at.
  - rewrite (app_assoc h2). apply slice_app_at; rewrite ?length_app, ?Hl, ?Hp; lia.
  - rewrite (app_assoc h2), (app_assoc _ port). apply slice_app_at; rewrite ?length_app, ?Hl, ?Hp, ?Hu; lia.
  - rewrite (app_assoc h2), (app_assoc _ port), (app_assoc _ pub), <- (app_nil_r ek) at 1.
    apply slice_app_at; rewrite ?length_app, ?Hl, ?Hp, ?Hu, ?He; lia.
Qed.

Lemma decode_encode_extend host port pub ek hop p :
  utf8_valid host = true -> is_u16 port -> length pub = 32%nat -> length ek = Z.to_nat 1184 ->
  mlkem768_public_is_canonical ek = true ->
  encode_extend_payload host port pub ek hop = Ok p ->
  decode_extend_payload p = Ok (host, port, pub, ek, hop).
Proof.
  intros Hh Hport Hpub Hek Hcan. unfold encode_extend_payload.
  destruct (Z.leb_spec MAX_HOPS hop) as [|Hhop]; [discriminate 1|].
  destruct (Nat.ltb_spec 255 (length host)) as [|Hhost]; [discriminate 1|]. intros <-%Ok_inj.
  destruct (extend_reads hop host (be_bytes 2 port) pub ek (be_bytes_length _ _) Hpub Hek) as (Hl & R1 & R2 & R3 & R4).
  unfold decode_extend_payload, extend_fixed. rewrite Hl.
  rewrite (proj2 (Nat.ltb_ge _ (1 + 1 + 2 + 32 + Z.to_nat 1184))) by lia.
  change (([hop] ++ [Z.of_nat (length host)] ++ host ++ be_bytes 2 port ++ pub ++ ek) !!! 0%nat) with hop.
  change (([hop] ++ [Z.of_nat (length host)] ++ host ++ be_bytes 2 port ++ pub ++ ek) !!! 1%nat)
    with (Z.of_nat (length host)).
  rewrite (proj2 (Z.leb_gt MAX_HOPS hop)), Nat2Z.id, (proj2 (Nat.ltb_ge _ _)), Nat.eqb_refl by lia. cbn [negb].
  rewrite R1, R2, R3, R4, from_utf8_valid, Hcan, from_be_be_bytes; [done| |done].
  change (256 ^ Z.of_nat 2) with 65536. unfold_ints. lia.
Qed.

Lemma encode_decode_extend p host port pub ek hop :
  is_bytes p -> decode_extend_payload p = Ok (host, port, pub, ek, hop) ->
  encode_extend_payload host port pub ek hop = Ok p /\ utf8_valid host = true /\
  mlkem768_public_is_canonical ek = true.
Proof.
  intros Hb. unfold decode_extend_payload, extend_fixed.
  destruct (Nat.ltb_spec (length p) (1 + 1 + 2 + 32 + Z.to_nat 1184)) as [|Hlen]; [discriminate 1|].
  destruct (Z.leb_spec MAX_HOPS (p !!! 0%nat)) as [|Hhop]; [discriminate 1|].
  pose proof (lookup_total_u8 1 p Hb ltac:(lia)) as Hn. set (n := Z.to_nat (p !!! 1%nat)).
  destruct (_ <? _)%nat; [discriminate 1|]. destruct (Nat.eqb_spec (length p) (1 + 1 + n + 2 + 32 + Z.to_nat 1184))
    as [Hl|]; [cbn [negb]|discriminate 1].
  destruct (from_utf8 _) as [h|] eqn:Hu; [|discriminate 1]. destruct (mlkem768_public_is_canonical _) eqn:Hc;
    [cbn [negb]|discriminate 1].
  intros E%Ok_inj. apply from_utf8_inv in Hu as [-> Hu]. injection E as <- <- <- <- <-.
  split; [|done]. unfold encode_extend_payload. rewrite (proj2 (Z.leb_gt _ _)) by done.
  assert (Hsl : length (slice 2 (S (S n)) p) = n) by (rewrite length_slice; lia).
  rewrite Hsl, (proj2 (Nat.ltb_ge _ _)) by (unfold n; unfold_ints; lia).
  rewrite be_bytes_slice by (done || lia). unfold n at 1. rewrite Z2Nat.id by (unfold_ints; lia).
  rewrite <- (slice_one 0 p), <- (slice_one 1 p) by lia. rewrite !slice_cat by lia.
  by rewrite slice_full by lia.
Qed.

Lemma decode_encode_target host port p rest :
  utf8_valid host = true -> is_u16 port ->
  encode_relay_target host port = Ok p -> decode_relay_target (p ++ rest) = Ok (host, port).
Proof.
  intros Hh Hport. unfold encode_relay_target.
  destruct (Nat.ltb_spec 255 (length host)) as [|Hhost]; [discriminate 1|]. intros <-%Ok_inj.
  unfold decode_relay_target. rewrite <- !app_assoc.
  change (([Z.of_nat (length host)] ++ host ++ be_bytes 2 port ++ rest) !!! 0%nat) with (Z.of_nat (length host)).
  rewrite Nat2Z.id, !length_app, be_bytes_length. cbn [length].
  rewrite !(proj2 (Nat.ltb_ge _ _)) by lia.
  rewrite (slice_app_at 1 _ [_] host), from_utf8_valid, (app_assoc [_]), (slice_app_at _ _ _ (be_bytes 2 port));
    rewrite ?length_app, ?be_bytes_length; try done.
  rewrite from_be_be_bytes; [done|]. change (256 ^ Z.of_nat 2) with 65536. unfold_ints. lia.
Qed.

Lemma handshake_agrees `{!IdentityLaws} `{!KexLaws}
    (cid hop link_id : Z) (client_secret dk relay_secret kem_rng rng1 rng2 : bytes) (sk : HybridSigningKey)
    (id' seq' : Z) (mac' : bytes) :
  is_u32 cid -> 0 <= hop < MAX_HOPS ->
  verifying_key sk <> replicate 32 0 ->
  x25519_dh relay_secret (x25519_public client_secret) <> replicate 32 0 ->
  exists create relay_hop created,
    build_create_cell rng1 cid (x25519_public client_secret) (mlkem_ek dk) hop = Ok create /\
    handle_create_cell relay_secret kem_rng rng2 (stamp create link_id 0 (cell_mac create)) sk
      = Some (Ok (relay_hop, created)) /\
    process_created_cell (stamp created id' seq' mac') client_secret (x25519_public client_secret) dk
      (mlkem_ek dk) (verifying_key sk) cid hop = Ok (crypt_keys (hop_crypt relay_hop)) /\
    hop_circuit_id relay_hop = link_id /\ hop_context_id relay_hop = cid /\ hop_index relay_hop = hop /\
    hop_expected_recv_seq relay_hop = 1 /\ hop_next_send_seq relay_hop = 1.
Proof.
  intros Hcid Hhop Hpin Hdh. destruct (x25519_public_ok client_secret) as [Hp _].
  destruct (x25519_public_ok relay_secret) as [Hr _]. destruct (mlkem_ek_ok dk) as (Hek & _ & _).
  destruct (mlkem_encapsulate_ok dk kem_rng) as (ct & ss & Henc).
  destruct (mlkem_ct_ok _ _ _ _ Henc) as (Hct & _ & _).
  assert (Hvl : length (verifying_key sk) = 32%nat) by apply sha256_length.
  set (pre := handshake_preimage cid hop (verifying_key sk) (x25519_public relay_secret)
    (x25519_public client_secret) (mlkem_ek dk) ct).
  destruct (identity_sign_ok sk pre) as [sig Hsig]; [by apply handshake_preimage_length|].
  destruct (identity_sign_verifies _ _ _ Hsig) as [Hsl Hv].
  destruct (derive_ok (x25519_dh relay_secret (x25519_public client_secret) ++ ss) pre) as [keys Hk].
  do 3 eexists. split_and!.
  - apply build_create_cell_ok; lia || done.
  - apply (handle_create_cell_ok relay_secret kem_rng rng2 _ sk hop cid (x25519_public client_secret) dk ct ss sig keys
      (replicate (PAYLOAD_SIZE - Z.to_nat 1222) 0)); (lia || reflexivity || assumption).
  - apply (process_created_cell_ok _ (x25519_public relay_secret) (verifying_key sk) sig ct
      (replicate (PAYLOAD_SIZE - (64 + PROOF_SIZE + Z.to_nat 1088)) 0) _ _ _ _ _ _ ss);
      rewrite ?(x25519_comm client_secret); (lia || reflexivity || assumption || idtac).
    by eapply mlkem_correct.
  - done.
  - done.
  - done.
  - done.
  - done.
Qed.

(** ** Properties *)

(** C20: honest key agreement. A CREATE cell built by the client, carried to
    the relay under any link id, is answered by a CREATED cell; however that
    cell is relabelled on the way back (circuit id, sequence number, tag), the
    client that pins the relay's identity derives exactly the six keys the
    relay installed, at the position and context the client asked for. *)
Theorem handshake_agreement `{!IdentityLaws} `{!KexLaws}
    (cid hop link_id : Z) (client_secret dk relay_secret kem_rng rng1 rng2 : bytes) (sk : HybridSigningKey)
    (id' seq' : Z) (mac' : bytes) :
  is_u32 cid -> 0 <= hop < MAX_HOPS ->
  verifying_key sk <> replicate 32 0 ->
  x25519_dh relay_secret (x25519_public client_secret) <> replicate 32 0 ->
  exists create relay_hop created,
    build_create_cell rng1 cid (x25519_public client_secret) (mlkem_ek dk) hop = Ok create /\
    handle_create_cell relay_secret kem_rng rng2 (stamp create link_id 0 (cell_mac create)) sk
      = Some (Ok (relay_hop, created)) /\
    process_created_cell (stamp created id' seq' mac') client_secret (x25519_public client_secret) dk
      (mlkem_ek dk) (verifying_key sk) cid hop = Ok (crypt_keys (hop_crypt relay_hop)) /\
    hop_circuit_id relay_hop = link_id /\ hop_context_id relay_hop = cid /\ hop_index relay_hop = hop /\
    hop_expected_recv_seq relay_hop = 1 /\ hop_next_send_seq relay_hop = 1.
Proof. apply handshake_agrees. Qed.

(** Authenticated key agreement. If the client accepts a CREATED (or
    EXTENDED) cell, the pinned identity signed, with both of its algorithms,
    the byte string that binds this circuit id, this hop position and both
    sides' ephemeral values, and the keys the client installs derive from the
    secrets agreed under exactly these values; any handshake with the same
    signed bytes has the same parameters. *)
Theorem handshake_authentic (cell : OnionCell) (secret pub dk ekb pin : bytes) (cid hop : Z) (keys : HopKeys) :
  process_created_cell cell secret pub dk ekb pin cid hop = Ok keys ->
  exists relay_pub ct sig,
    let pre := handshake_preimage cid hop pin relay_pub pub ekb ct in
    verify_strict pin pre sig = Ok tt /\ pin <> replicate 32 0 /\ hop < MAX_HOPS /\
    x25519_dh secret relay_pub <> replicate 32 0 /\
    (exists ss, mlkem_decapsulate dk ct = Some ss /\
      derive_hop_keys_with_context (x25519_dh secret relay_pub ++ ss) pre = Ok keys) /\
    forall cid' hop' pin' relay_pub' pub' ekb' ct',
      is_u32 cid -> is_u32 cid' -> length pin' = length pin -> length relay_pub' = length relay_pub ->
      length pub' = length pub -> length ekb' = length ekb ->
      handshake_preimage cid' hop' pin' relay_pub' pub' ekb' ct' = pre ->
      cid' = cid /\ hop' = hop /\ pin' = pin /\ relay_pub' = relay_pub /\ pub' = pub /\ ekb' = ekb /\ ct' = ct.
Proof.
  intros (Hh & Hpin & _ & _ & Hv & Hdh & ss & Hd & Hk)%process_created_cell_inv.
  do 3 eexists. split_and!; eauto. intros. by apply handshake_preimage_inj.
Qed.

(** The EXTEND payload codec is an exact inverse pair: decoding an encoded
    request returns it, and every payload that decodes is the encoding of what
    it decodes to, with a UTF-8 host and a canonical ML-KEM key. *)
Theorem extend_payload_bijective (host pub ek p : bytes) (port hop : Z) :
  is_u16 port -> length pub = 32%nat -> length ek = Z.to_nat 1184 -> is_bytes p ->
  (encode_extend_payload host port pub ek hop = Ok p /\ utf8_valid host = true /\
   mlkem768_public_is_canonical ek = true) <->
  decode_extend_payload p = Ok (host, port, pub, ek, hop).
Proof.
  intros Hport Hpub Hek Hb. split.
  - intros (He & Hu & Hc). by apply decode_encode_extend.
  - by apply encode_decode_extend.
Qed.

(** A RELAY target survives its codec, whatever follows it in the cell's
    zero-padded payload. *)
Theorem relay_target_roundtrip (host p rest : bytes) (port : Z) :
  utf8_valid host = true -> is_u16 port ->
  encode_relay_target host port = Ok p -> decode_relay_target (p ++ rest) = Ok (host, port).
Proof. apply decode_encode_target. Qed.
End Handshake.

(** ** A concrete instance *)
#[local] Existing Instance toy_identity.
#[local] Existing Instance toy_identity_laws.

(** Key agreement by addition, so that both sides reach the same value. *)
#[local] Instance toy_kex : KexPrimitives := {
  x25519_public s := be_bytes 32 (from_be s);
  x25519_dh s p := be_bytes 32 (from_be (be_bytes 32 (from_be s)) + from_be p);
  mlkem_ek dk := replicate (Z.to_nat 1184) 0;
  mlkem_encapsulate ek r := Some (be_bytes (Z.to_nat 1088) (from_be r), be_bytes 32 7);
  mlkem_decapsulate dk ct := Some (be_bytes 32 7);
  hkdf_expand salt ikm info len := Some (be_bytes len (from_be salt + from_be ikm + from_be info));
}.

#[local] Instance toy_kex_laws : KexLaws.
Proof.
  split; intros; cbn [x25519_public x25519_dh mlkem_ek mlkem_encapsulate mlkem_decapsulate hkdf_expand toy_kex] in *.
  - split; [apply be_bytes_length|apply be_bytes_is_bytes].
  - apply be_bytes_length.
  - f_equal. lia.
  - split_and!; [apply length_replicate|apply is_bytes_replicate; unfold_ints; lia|vm_compute; reflexivity].
  - eauto.
  - simplify_eq. split_and!; [apply be_bytes_length|apply be_bytes_is_bytes|apply be_bytes_length].
  - by simplify_eq.
  - eauto.
Qed.

Lemma handshake_agreement_witness :
  exists create relay_hop created,
    build_create_cell (replicate 32 0) 7 (x25519_public [5]) (mlkem_ek [1]) 2 = Ok create /\
    handle_create_cell [9] [1] (replicate 32 0) (stamp create 30 0 (cell_mac create)) toy_signer
      = Some (Ok (relay_hop, created)) /\
    process_created_cell (stamp created 7 1 (replicate 16 0)) [5] (x25519_public [5]) [1]
      (mlkem_ek [1]) (verifying_key toy_signer) 7 2 = Ok (crypt_keys (hop_crypt relay_hop)) /\
    hop_circuit_id relay_hop = 30 /\ hop_context_id relay_hop = 7 /\ hop_index relay_hop = 2 /\
    hop_expected_recv_seq relay_hop = 1 /\ hop_next_send_seq relay_hop = 1.
Proof.
  apply (handshake_agreement 7 2 30 [5] [1] [9] [1] (replicate 32 0) (replicate 32 0) toy_signer 7 1 (replicate 16 0)).
  - unfold_ints. lia.
  - unfold MAX_HOPS. lia.
  - vm_compute. discriminate.
  - vm_compute. discriminate.
Defined.

Lemma handshake_authentic_witness :
  exists cell keys relay_pub,
    process_created_cell cell [5] (x25519_public [5]) [1] (mlkem_ek [1]) (verifying_key toy_signer) 7 2 = Ok keys /\
    x25519_dh [5] relay_pub <> replicate 32 0.
Proof.
  destruct (handshake_agrees 7 2 30 [5] [1] [9] [1] (replicate 32 0) (replicate 32 0) toy_signer 7 1 (replicate 16 0))
    as (create & relay_hop & created & _ & _ & Hp & _);
    [unfold_ints; lia|unfold MAX_HOPS; lia|vm_compute; discriminate..|].
  destruct (handshake_authentic _ _ _ _ _ _ _ _ _ Hp) as (relay_pub & ct & sig & _ & _ & _ & Hdh & _).
  exists (stamp created 7 1 (replicate 16 0)), (crypt_keys (hop_crypt relay_hop)), relay_pub.
  split; [exact Hp|exact Hdh].
Defined.

Definition toy_extend : bytes :=
  [1] ++ [9] ++ str "relay.org" ++ be_bytes 2 443 ++ be_bytes 32 5 ++ replicate (Z.to_nat 1184) 0.

Lemma extend_payload_bijective_witness :
  encode_extend_payload (str "relay.org") 443 (be_bytes 32 5) (replicate (Z.to_nat 1184) 0) 1 = Ok toy_extend /\
  decode_extend_payload toy_extend = Ok (str "relay.org", 443, be_bytes 32 5, replicate (Z.to_nat 1184) 0, 1).
Proof.
  assert (He : encode_extend_payload (str "relay.org") 443 (be_bytes 32 5) (replicate (Z.to_nat 1184) 0) 1
    = Ok toy_extend) by reflexivity.
  split; [exact He|].
  apply (extend_payload_bijective (str "relay.org") (be_bytes 32 5) (replicate (Z.to_nat 1184) 0) toy_extend 443 1).
  - unfold_ints. lia.
  - apply be_bytes_length.
  - apply length_replicate.
  - unfold toy_extend, is_bytes. rewrite !Forall_app.
    split_and!; try apply be_bytes_is_bytes; try (apply is_bytes_replicate; unfold_ints; lia).
    + repeat constructor; unfold_ints; lia.
    + repeat constructor; unfold_ints; lia.
    + vm_compute. repeat constructor; discriminate.
  - split; [exact He|]. split; vm_compute; reflexivity.
Defined.

Lemma relay_target_roundtrip_witness :
  decode_relay_target (([9] ++ str "relay.org" ++ be_bytes 2 443) ++ [0; 0]) = Ok (str "relay.org", 443).
Proof.
  apply (relay_target_roundtrip (str "relay.org") ([9] ++ str "relay.org" ++ be_bytes 2 443) [0; 0] 443).
  - vm_compute. reflexivity.
  - unfold_ints. lia.
  - reflexivity.
Defined.
