(* ===== verification/Transport.v ===== *)
(** * Directory transport (src/mesh/transport.rs)

    The authenticated channel to a directory authority: a hybrid key agreement
    signed by the pinned composite identity and confirmed in both directions,
    length-prefixed sealed frames with counters as nonces, and documents in
    chunks. A socket is [Conn]: what will arrive and what was sent; it runs dry
    or breaks where its fields say, which stands for end of file, failures and
    deadlines alike. Operations are written in a state and error monad over the
    connection or the session. *)
From S2P Require Import Prelude Text Cell Replay Circuit Identity Handshake.

(** ** Effects *)
Inductive Fault := Io (e : IoError) | Panics.

Definition M (S A : Type) : Type := S -> S * result Fault A.
Definition ret {S A} (a : A) : M S A := fun s => (s, Ok a).
Definition fail {S A} (e : IoError) : M S A := fun s => (s, Err (Io e)).
Definition bind {S A B} (m : M S A) (f : A -> M S B) : M S B :=
  fun s => match m s with (s, Ok a) => f a s | (s, Err e) => (s, Err e) end.
Definition of_result {S A} (r : result IoError A) : M S A := match r with Ok a => ret a | Err e => fail e end.
Definition ensure {S} (b : bool) (e : IoError) : M S unit := if b then ret tt else fail e.
Definition some_or {S A} (o : option A) (e : IoError) : M S A := match o with Some a => ret a | None => fail e end.

Notation "'let*' x := m 'in' k" := (bind m (fun x => k)) (at level 10, x pattern, m at level 200, k at level 200).

(** ** Sockets *)
Record Conn := mkConn {
  cn_in : bytes;
  cn_dry : IoError;
  cn_out : bytes;
  cn_room : option nat;
  cn_fault : IoError;
}.

Definition read_exact (n : nat) : M Conn bytes := fun c =>
  if (length (cn_in c) <? n)%nat then (mkConn [] (cn_dry c) (cn_out c) (cn_room c) (cn_fault c), Err (Io (cn_dry c)))
  else (mkConn (drop n (cn_in c)) (cn_dry c) (cn_out c) (cn_room c) (cn_fault c), Ok (take n (cn_in c))).

Definition write_all (b : bytes) : M Conn unit := fun c =>
  match cn_room c with
  | None => (mkConn (cn_in c) (cn_dry c) (cn_out c ++ b) None (cn_fault c), Ok tt)
  | Some room =>
      if (length b <=? room)%nat
      then (mkConn (cn_in c) (cn_dry c) (cn_out c ++ b) (Some (room - length b)%nat) (cn_fault c), Ok tt)
      else (mkConn (cn_in c) (cn_dry c) (cn_out c ++ take room b) (Some 0%nat) (cn_fault c), Err (Io (cn_fault c)))
  end.

(** ** Data *)
Definition MAX_FRAME_LEN : Z := 1024 * 1024.
Definition TRANSPORT_VERSION : bytes := str "AGDIR004".
Definition TRANSPORT_PURPOSE : bytes := str "directory-transport-v4".

Definition rejected (message : string) : IoError := mkIoError PermissionDenied message.
Definition poisoned_error : IoError := rejected "Directory session is poisoned; reconnect".

Record SecureTransportSession := mkSession {
  ts_stream : Conn;
  ts_send_key : bytes;
  ts_recv_key : bytes;
  ts_send_counter : Z;
  ts_recv_counter : Z;
  ts_peer_verifying_key : option bytes;
  ts_peer_hybrid_key : option HybridPublicKey;
  ts_poisoned : bool;
}.

Definition set_stream (s : SecureTransportSession) (c : Conn) : SecureTransportSession :=
  mkSession c (ts_send_key s) (ts_recv_key s) (ts_send_counter s) (ts_recv_counter s) (ts_peer_verifying_key s) (ts_peer_hybrid_key s)
    (ts_poisoned s).
Definition set_counters (s : SecureTransportSession) (send recv : Z) : SecureTransportSession :=
  mkSession (ts_stream s) (ts_send_key s) (ts_recv_key s) send recv (ts_peer_verifying_key s) (ts_peer_hybrid_key s) (ts_poisoned s).
Definition set_poisoned (s : SecureTransportSession) (b : bool) : SecureTransportSession :=
  mkSession (ts_stream s) (ts_send_key s) (ts_recv_key s) (ts_send_counter s) (ts_recv_counter s) (ts_peer_verifying_key s)
    (ts_peer_hybrid_key s) b.

(** An operation on the socket inside a session. *)
Definition on_stream {A} (m : M Conn A) : M SecureTransportSession A := fun s =>
  let '(c, r) := m (ts_stream s) in (set_stream s c, r).

Definition get {S A} (f : S -> A) : M S A := fun s => (s, Ok (f s)).
Definition modify {S} (f : S -> S) : M S unit := fun s => (f s, Ok tt).

Definition make_nonce (counter : Z) : bytes := replicate 4 0 ++ be_bytes 8 counter.

Definition hybrid_transcript (client response : bytes) : bytes :=
  str "AnonGuard-directory-transport-v4/initiator/responder" ++ client ++ response.

(** [slice.chunks(n)]; a chunk takes at least one byte off. *)
Fixpoint chunks_aux (fuel : nat) (n : nat) (l : bytes) : list bytes :=
  match fuel, l with
  | O, _ | _, [] => []
  | S fuel, _ => take n l :: chunks_aux fuel n (drop n l)
  end.
Definition chunks (n : nat) (l : bytes) : list bytes := chunks_aux (length l) n l.

(** ** Frames *)
Section Frames.
Context `{OnionPrimitives}.

Definition write_frame_inner (payload : bytes) : M SecureTransportSession unit :=
  let* _ := ensure (Z.of_nat (length payload) <=? MAX_FRAME_LEN) (mkIoError InvalidInput "Frame payload exceeds limit") in
  let* counter := get ts_send_counter in
  let* next := some_or (checked_add u64_MAX counter 1) (mkIoError OtherError "send nonce counter exhausted — rotate session key") in
  let* _ := modify (fun s => set_counters s next (ts_recv_counter s)) in
  let* key := get ts_send_key in
  let '(text, tag) := aead_seal key (make_nonce counter) [] payload in
  let ciphertext := text ++ tag in
  let* _ := on_stream (write_all (be_bytes 4 (Z.of_nat (length ciphertext)))) in
  on_stream (write_all ciphertext).

Definition read_frame_inner : M SecureTransportSession bytes :=
  let* len_bytes := on_stream (read_exact 4) in
  let ct_len := from_be len_bytes in
  let* _ := ensure ((16 <=? ct_len) && (ct_len <=? MAX_FRAME_LEN + 16)) (mkIoError InvalidData "Frame size out of bounds") in
  let* ct_buf := on_stream (read_exact (Z.to_nat ct_len)) in
  let* counter := get ts_recv_counter in
  let* key := get ts_recv_key in
  let n := (length ct_buf - 16)%nat in
  let* plaintext := some_or (aead_open key (make_nonce counter) [] (take n ct_buf) (drop n ct_buf))
                      (mkIoError InvalidData "AEAD authentication failed — possible tampering or replay") in
  let* next := some_or (checked_add u64_MAX counter 1) (mkIoError OtherError "recv nonce counter exhausted — rotate session key") in
  let* _ := modify (fun s => set_counters s (ts_send_counter s) next) in
  ret plaintext.

Fixpoint write_chunks (l : list bytes) : M SecureTransportSession unit :=
  match l with [] => ret tt | chunk :: l => let* _ := write_frame_inner chunk in write_chunks l end.

Definition write_document_inner (document : bytes) : M SecureTransportSession unit :=
  let n := Z.of_nat (length document) in
  let* _ := ensure (negb (n =? 0) && (n <=? 6 * MAX_FRAME_LEN)) (mkIoError InvalidInput "Directory document size out of bounds") in
  let* _ := write_frame_inner (str "AGDOC006" ++ be_bytes 4 n) in
  write_chunks (chunks (Z.to_nat MAX_FRAME_LEN) document).

(** The reading loop: [fuel] chunks at most. *)
Fixpoint read_chunks (fuel : nat) (total : Z) (document : bytes) : M SecureTransportSession bytes :=
  if total <=? Z.of_nat (length document) then ret document
  else
    match fuel with
    | O => fun s => (s, Err Panics)
    | S fuel =>
        let* chunk := read_frame_inner in
        let* _ := ensure (Z.of_nat (length chunk) =? Z.min MAX_FRAME_LEN (total - Z.of_nat (length document)))
                    (rejected "Directory document chunk length mismatch") in
        read_chunks fuel total (document ++ chunk)
    end.

Definition read_document_inner : M SecureTransportSession bytes :=
  let* header := read_frame_inner in
  let* _ := ensure ((length header =? 12)%nat && bool_decide (take 8 header = str "AGDOC006"))
              (rejected "Directory document envelope required") in
  let total := from_be (drop 8 header) in
  let* _ := ensure (negb (total =? 0) && (total <=? 6 * MAX_FRAME_LEN)) (rejected "Directory document size out of bounds") in
  read_chunks 6 total [].

(** Every public operation: a failure leaves the session poisoned for good. *)
Definition guarded {A} (m : M SecureTransportSession A) : M SecureTransportSession A := fun s =>
  if ts_poisoned s then (s, Err (Io poisoned_error))
  else
    match m (set_poisoned s true) with
    | (s, Ok a) => (set_poisoned s false, Ok a)
    | (s, Err e) => (s, Err e)
    end.

Definition write_frame (payload : bytes) := guarded (write_frame_inner payload).
Definition read_frame := guarded read_frame_inner.
Definition write_document (document : bytes) := guarded (write_document_inner document).
Definition read_document := guarded read_document_inner.
End Frames.

(** ** Handshake *)
Section Handshake.
Context `{OnionPrimitives} `{IdentityPrimitives} `{KexPrimitives}.

(** The first key is the sender's. [None] is the [expect] on HKDF. *)
Definition derive_transport_keys (shared_secret : bytes) (is_client : bool) (context : bytes) : option (bytes * bytes) :=
  let salt := sha256 context in
  match hkdf_expand salt shared_secret (str "AnonGuard-Client-To-Server-v4-HKDF") 32,
        hkdf_expand salt shared_secret (str "AnonGuard-Server-To-Client-v4-HKDF") 32 with
  | Some k_c2s, Some k_s2c => Some (if is_client then (k_c2s, k_s2c) else (k_s2c, k_c2s))
  | _, _ => None
  end.

(** The stream moves into the session. *)
Definition from_hybrid_keys (shared : bytes) (client : bool) (context : bytes) (peer : option HybridPublicKey) (stream : Conn)
    : result Fault SecureTransportSession :=
  match derive_transport_keys shared client context with
  | None => Err Panics
  | Some (send, recv) =>
      match peer with
      | None => Ok (mkSession stream send recv 0 0 None None false)
      | Some key =>
          match VerifyingKey_from_bytes (fingerprint key) with
          | Err e => Err (Io e)
          | Ok pin => Ok (mkSession stream send recv 0 0 (Some pin) (Some key) false)
          end
      end
  end.

(** What happens on the socket before the session exists: the answer is what
    the session is built from. *)
Definition client_exchange (pinned secret kem_secret : bytes) : M Conn (bytes * bytes * HybridPublicKey) :=
  let public := x25519_public secret in
  let hello := TRANSPORT_VERSION ++ public ++ mlkem_ek kem_secret in
  let* _ := write_all hello in
  let* response := read_exact (8 + 32 + Z.to_nat 1088 + PUBLIC_KEY_SIZE) in
  let* _ := ensure (bool_decide (take 8 response = TRANSPORT_VERSION)) (rejected "Directory protocol downgrade/version mismatch") in
  let* identity := of_result (hybrid_decode (drop (Z.to_nat 1128) response)) in
  let* _ := ensure (bool_decide (fingerprint identity = pinned)) (rejected "Directory composite identity pin mismatch") in
  let* proof := read_exact SIGNATURE_SIZE in
  let context := hybrid_transcript hello response in
  let* _ := of_result (hybrid_verify identity TRANSPORT_PURPOSE context proof) in
  let context := context ++ proof in
  let dh := x25519_dh secret (slice 8 40 response) in
  let* _ := ensure (negb (bool_decide (dh = replicate 32 0))) (rejected "Non-contributory directory KEX") in
  let* kem := some_or (mlkem_decapsulate kem_secret (slice 40 (Z.to_nat 1128) response)) (rejected "Directory KEM failed") in
  ret (dh ++ kem, context, identity).

Definition CLIENT_CONFIRM : bytes := str "AGDIR004/client-confirm".
Definition SERVER_CONFIRM : bytes := str "AGDIR004/server-confirm".

Definition client_confirm : M SecureTransportSession unit :=
  let* _ := write_frame CLIENT_CONFIRM in
  let* frame := read_frame in
  ensure (bool_decide (frame = SERVER_CONFIRM)) (rejected "Directory server confirmation failed").

Definition client_handshake_hybrid_pin (pinned secret kem_secret : bytes) (stream : Conn) : result Fault SecureTransportSession :=
  if bool_decide (pinned = replicate 32 0) then Err (Io (rejected "Zero hybrid identity pin"))
  else
    match client_exchange pinned secret kem_secret stream with
    | (_, Err e) => Err e
    | (stream, Ok (shared, context, identity)) =>
        let? session := from_hybrid_keys shared true context (Some identity) stream in
        match client_confirm session with
        | (_, Err e) => Err e
        | (session, Ok _) => Ok session
        end
    end.

Definition server_exchange (key : HybridSigningKey) (secret kem_rng : bytes) : M Conn (bytes * bytes) :=
  let* version := read_exact 8 in
  let* _ := ensure (bool_decide (version = TRANSPORT_VERSION)) (rejected "Directory protocol downgrade/version mismatch") in
  let* rest := read_exact (32 + Z.to_nat 1184) in
  let hello := version ++ rest in
  let public := x25519_public secret in
  let dh := x25519_dh secret (slice 8 40 hello) in
  let* _ := ensure (negb (bool_decide (dh = replicate 32 0))) (rejected "Non-contributory directory KEX") in
  let encoded := drop 40 hello in
  let* _ := ensure (mlkem768_public_is_canonical encoded) (rejected "Noncanonical ML-KEM encapsulation key") in
  let* sealed := some_or (mlkem_encapsulate encoded kem_rng) (rejected "Directory KEM failed") in
  let '(ciphertext, kem) := sealed in
  let identity := public_key key in
  let response := TRANSPORT_VERSION ++ public ++ ciphertext ++ hpk_encoded identity in
  let context := hybrid_transcript hello response in
  let* proof := of_result (hybrid_sign key TRANSPORT_PURPOSE context) in
  let* _ := write_all response in
  let* _ := write_all proof in
  ret (dh ++ kem, context ++ proof).

Definition server_confirm : M SecureTransportSession unit :=
  let* frame := read_frame in
  let* _ := ensure (bool_decide (frame = CLIENT_CONFIRM)) (rejected "Directory client confirmation failed") in
  write_frame SERVER_CONFIRM.

Definition server_handshake_hybrid (key : HybridSigningKey) (secret kem_rng : bytes) (stream : Conn) : result Fault SecureTransportSession :=
  match server_exchange key secret kem_rng stream with
  | (_, Err e) => Err e
  | (stream, Ok (shared, context)) =>
      let? session := from_hybrid_keys shared false context None stream in
      match server_confirm session with
      | (_, Err e) => Err e
      | (session, Ok _) => Ok session
      end
  end.

Definition client_handshake (pinned : option bytes) (secret kem_secret : bytes) (stream : Conn) : result Fault SecureTransportSession :=
  match pinned with
  | None => Err (Io (rejected "Directory hybrid identity pin required"))
  | Some pinned => client_handshake_hybrid_pin pinned secret kem_secret stream
  end.

Definition client_handshake_hybrid (pinned : HybridPublicKey) (secret kem_secret : bytes) (stream : Conn) : result Fault SecureTransportSession :=
  client_handshake_hybrid_pin (fingerprint pinned) secret kem_secret stream.

Definition server_handshake (key : option HybridSigningKey) (secret kem_rng : bytes) (stream : Conn) : result Fault SecureTransportSession :=
  match key with
  | None => Err (Io (rejected "Directory hybrid signing identity required"))
  | Some key => server_handshake_hybrid key secret kem_rng stream
  end.
End Handshake.

(** ** Chunks *)
Lemma chunks_aux_fuel n l f1 f2 :
  (0 < n)%nat -> (length l <= f1)%nat -> (length l <= f2)%nat -> chunks_aux f1 n l = chunks_aux f2 n l.
Proof.
  intros Hn. revert l f2. induction f1 as [|f1 IH]; intros l f2 H1 H2.
  { destruct l; [by destruct f2|cbn in H1; lia]. }
  destruct l as [|b l]; [by destruct f2|]. destruct f2 as [|f2]; [cbn in H2; lia|]. cbn [chunks_aux]. f_equal.
  apply IH; rewrite length_drop; cbn [length] in *; lia.
Qed.

Lemma chunks_cons n l : (0 < n)%nat -> l <> [] -> chunks n l = take n l :: chunks n (drop n l).
Proof.
  intros Hn Hl. unfold chunks. destruct l as [|b l]; [done|]. cbn [length chunks_aux]. f_equal.
  apply chunks_aux_fuel; [done| |done]. rewrite length_drop. cbn [length]. lia.
Qed.

(** Induction over the chunks of a list. *)
Lemma chunks_ind (n : nat) (P : bytes -> Prop) :
  (0 < n)%nat -> P [] -> (forall l, l <> [] -> P (drop n l) -> P l) -> forall l, P l.
Proof.
  intros Hn H0 Hs l. remember (length l) as k eqn:Ek. revert l Ek. induction (lt_wf k) as [k _ IH]. intros l ->.
  destruct l as [|b l]; [done|]. apply Hs; [done|]. eapply IH; [|done]. rewrite length_drop. cbn [length]. lia.
Qed.

Lemma chunks_count n k l : (0 < n)%nat -> (length l <= k * n)%nat -> (length (chunks n l) <= k)%nat.
Proof.
  intros Hn. revert l. induction k as [|k IH]; intros l Hl; [destruct l; [done|cbn in Hl; lia]|].
  destruct l as [|b l]; [cbn; lia|]. rewrite chunks_cons by done. cbn [length].
  apply le_n_S, IH. rewrite length_drop. cbn [length] in *. lia.
Qed.

(** ** What goes over the wire *)
Create HintDb keeps.

Section Wire.
Context `{OnionPrimitives}.

Definition frame (key : bytes) (counter : Z) (payload : bytes) : bytes :=
  let '(text, tag) := aead_seal key (make_nonce counter) [] payload in
  be_bytes 4 (Z.of_nat (length (text ++ tag))) ++ text ++ tag.

Fixpoint frames (key : bytes) (counter : Z) (l : list bytes) : bytes :=
  match l with [] => [] | payload :: l => frame key counter payload ++ frames key (counter + 1) l end.

Definition header (document : bytes) : bytes := str "AGDOC006" ++ be_bytes 4 (Z.of_nat (length document)).

(** The payloads of a document. *)
Definition document_frames (document : bytes) : list bytes := header document :: chunks (Z.to_nat MAX_FRAME_LEN) document.

Definition document_ok (document : bytes) : Prop := 0 < Z.of_nat (length document) <= 6 * MAX_FRAME_LEN.

(** Sessions that differ in what was sent, what will arrive and the counters. *)
Definition sent (s : SecureTransportSession) (b : bytes) (n : Z) : SecureTransportSession :=
  let c := ts_stream s in
  set_counters (set_stream s (mkConn (cn_in c) (cn_dry c) (cn_out c ++ b) (cn_room c) (cn_fault c))) (ts_send_counter s + n) (ts_recv_counter s).

Definition received (s : SecureTransportSession) (rest : bytes) (n : Z) : SecureTransportSession :=
  let c := ts_stream s in
  set_counters (set_stream s (mkConn rest (cn_dry c) (cn_out c) (cn_room c) (cn_fault c))) (ts_send_counter s) (ts_recv_counter s + n).

Lemma sent_sent s b n b' n' : sent (sent s b n) b' n' = sent s (b ++ b') (n + n').
Proof. unfold sent, set_counters, set_stream. cbn. by rewrite <- app_assoc, Z.add_assoc. Qed.
Lemma sent_nothing s : sent s [] 0 = s.
Proof. unfold sent, set_counters, set_stream. cbn. rewrite app_nil_r, Z.add_0_r. by destruct s as [[] ]. Qed.
Lemma received_received s r n r' n' : received (received s r n) r' n' = received s r' (n + n').
Proof. unfold received, set_counters, set_stream. cbn. by rewrite Z.add_assoc. Qed.
Lemma received_nothing s : received s (cn_in (ts_stream s)) 0 = s.
Proof. unfold received, set_counters, set_stream. cbn. rewrite Z.add_0_r. by destruct s as [[] ]. Qed.

Section Laws.
Context `{!OnionPrimitivesLaws}.

Lemma frame_length key counter payload : length (frame key counter payload) = (4 + length payload + 16)%nat.
Proof.
  unfold frame. destruct (aead_seal _ _ _ _) as [text tag] eqn:E. destruct (seal_length _ _ _ _ _ _ E) as [H1 H2].
  rewrite !length_app, be_bytes_length. lia.
Qed.

Lemma write_frame_inner_ok s payload :
  cn_room (ts_stream s) = None -> Z.of_nat (length payload) <= MAX_FRAME_LEN -> ts_send_counter s < u64_MAX ->
  write_frame_inner payload s = (sent s (frame (ts_send_key s) (ts_send_counter s) payload) 1, Ok tt).
Proof.
  intros Hr Hl Hc. unfold write_frame_inner, bind, ensure, get, modify, some_or, ret, on_stream, write_all, checked_add, frame.
  rewrite (proj2 (Z.leb_le _ _)) by done. rewrite (proj2 (Z.leb_le _ u64_MAX)) by lia.
  cbn [ts_send_key set_counters]. destruct (aead_seal _ _ _ _) as [text tag].
  cbn. rewrite !Hr. cbn. unfold sent, set_stream, set_counters. cbn. rewrite Hr, <- !app_assoc. done.
Qed.

Lemma read_frame_inner_ok s payload rest :
  cn_in (ts_stream s) = frame (ts_recv_key s) (ts_recv_counter s) payload ++ rest ->
  Z.of_nat (length payload) <= MAX_FRAME_LEN -> ts_recv_counter s < u64_MAX ->
  read_frame_inner s = (received s rest 1, Ok payload).
Proof.
  intros Hin Hl Hc. pose proof (frame_length (ts_recv_key s) (ts_recv_counter s) payload) as Hfl. unfold frame in *.
  destruct (aead_seal _ _ _ _) as [text tag] eqn:Es. destruct (seal_length _ _ _ _ _ _ Es) as [H1 H2].
  assert (Hn : Z.of_nat (length (text ++ tag)) = Z.of_nat (length payload) + 16) by (rewrite length_app; lia).
  unfold read_frame_inner, bind, on_stream, read_exact, ensure, get, modify, some_or, ret.
  rewrite Hin, (proj2 (Nat.ltb_ge _ _)) by (rewrite length_app; lia).
  rewrite <- !app_assoc, take_app_length', drop_app_length' by (by rewrite be_bytes_length).
  cbn [set_stream ts_stream cn_in cn_dry cn_out cn_room cn_fault]. unfold MAX_FRAME_LEN in Hl.
  rewrite from_be_be_bytes by (rewrite Hn; change (256 ^ Z.of_nat 4) with 4294967296; lia). rewrite Hn.
  rewrite (proj2 (Z.leb_le _ _)), (proj2 (Z.leb_le _ _)) by (unfold MAX_FRAME_LEN; lia). cbn [andb].
  cbn [set_stream ts_stream cn_in cn_dry cn_out cn_room cn_fault].
  rewrite (proj2 (Nat.ltb_ge _ _)) by (rewrite !length_app; lia).
  rewrite app_assoc, take_app_length', drop_app_length' by lia. cbn [set_stream ts_recv_counter ts_recv_key].
  replace (length (text ++ tag) - 16)%nat with (length text) by (rewrite length_app; lia).
  rewrite take_app_length, drop_app_length, (open_seal _ _ _ _ _ _ Es). unfold checked_add.
  rewrite (proj2 (Z.leb_le _ u64_MAX)) by lia. done.
Qed.

Lemma read_frame_inner_inv s s' payload :
  is_bytes (cn_in (ts_stream s)) -> read_frame_inner s = (s', Ok payload) ->
  exists rest, cn_in (ts_stream s) = frame (ts_recv_key s) (ts_recv_counter s) payload ++ rest /\ is_bytes rest /\ is_bytes payload /\
    Z.of_nat (length payload) <= MAX_FRAME_LEN /\ ts_recv_counter s < u64_MAX /\ s' = received s rest 1.
Proof.
  intros Hb. unfold read_frame_inner, bind, on_stream, read_exact, ensure, get, modify, some_or, ret, fail.
  set (l := cn_in (ts_stream s)) in *. destruct (Nat.ltb_spec (length l) 4) as [|H4]; [done|].
  cbn [set_stream ts_stream cn_in cn_dry cn_out cn_room cn_fault].
  set (n := from_be (take 4 l)). destruct (Z.leb_spec 16 n) as [Hn1|]; [|done].
  destruct (Z.leb_spec n (MAX_FRAME_LEN + 16)) as [Hn2|]; [cbn [andb]|done].
  cbn [set_stream ts_stream cn_in cn_dry cn_out cn_room cn_fault].
  destruct (Nat.ltb_spec (length (drop 4 l)) (Z.to_nat n)) as [|Hlen]; [done|]. cbn [set_stream ts_recv_counter ts_recv_key].
  rewrite length_take_le by done. set (buf := take (Z.to_nat n) (drop 4 l)).
  destruct (aead_open _ _ _ _ _) as [p|] eqn:Eo; [|done]. unfold checked_add.
  destruct (Z.leb_spec (ts_recv_counter s + 1) u64_MAX) as [Hc|]; [|done]. intros [= <- <-].
  assert (Hp : is_bytes p) by (eapply open_bytes; [exact Eo|]; by apply Forall_take, Forall_take, Forall_drop).
  apply open_sound in Eo. pose proof (seal_length _ _ _ _ _ _ Eo) as [H1 H2].
  assert (Hbuf : length buf = Z.to_nat n) by (by apply length_take_le).
  rewrite length_take, length_drop, Hbuf in *.
  exists (drop (Z.to_nat n) (drop 4 l)). unfold frame. rewrite Eo. split_and!.
  - rewrite take_drop, Hbuf, Z2Nat.id by lia. unfold n.
    rewrite <- (length_take_le l 4 H4) at 1. rewrite be_bytes_from_be by (by apply Forall_take).
    unfold buf. rewrite <- app_assoc, take_drop, take_drop. done.
  - by apply Forall_drop, Forall_drop.
  - done.
  - lia.
  - lia.
  - done.
Qed.

Lemma write_chunks_ok l s :
  cn_room (ts_stream s) = None -> Forall (fun p => Z.of_nat (length p) <= MAX_FRAME_LEN) l ->
  ts_send_counter s + Z.of_nat (length l) <= u64_MAX ->
  write_chunks l s = (sent s (frames (ts_send_key s) (ts_send_counter s) l) (Z.of_nat (length l)), Ok tt).
Proof.
  revert s. induction l as [|p l IH]; intros s Hr Hl Hc.
  { cbn. unfold ret. by rewrite sent_nothing. }
  apply Forall_cons in Hl as [Hp Hl]. cbn [length] in Hc. cbn [write_chunks]. unfold bind.
  rewrite write_frame_inner_ok by (done || lia). rewrite IH by (done || cbn; lia). rewrite sent_sent. cbn [frames length].
  do 2 f_equal. lia.
Qed.

(** A chunk is never computed with: all that matters is its size. *)
Lemma MAX_FRAME_LEN_pos : 0 < MAX_FRAME_LEN.
Proof. done. Qed.

Section Chunks.
Context (n : nat) (Hn : Z.of_nat n = MAX_FRAME_LEN).

Lemma chunk_pos : (0 < n)%nat.
Proof using Hn. clear -Hn. pose proof MAX_FRAME_LEN_pos. lia. Qed.

Lemma chunks_bounded l : Forall (fun p => Z.of_nat (length p) <= MAX_FRAME_LEN) (chunks n l).
Proof.
  pattern l. apply (chunks_ind n); [exact chunk_pos|constructor|]. clear l. intros l Hl IH. rewrite chunks_cons by (exact chunk_pos || done).
  constructor; [|exact IH]. rewrite length_take. pose proof chunk_pos. lia.
Qed.

Lemma read_chunks_ok fuel d r s rest :
  cn_in (ts_stream s) = frames (ts_recv_key s) (ts_recv_counter s) (chunks n r) ++ rest ->
  (length (chunks n r) <= fuel)%nat -> ts_recv_counter s + Z.of_nat (length (chunks n r)) <= u64_MAX ->
  read_chunks fuel (Z.of_nat (length (d ++ r))) d s = (received s rest (Z.of_nat (length (chunks n r))), Ok (d ++ r)).
Proof.
  revert d r s. induction fuel as [|fuel IH]; intros d r s Hin Hf Hc; (destruct r as [|b r]; [|rewrite chunks_cons in * by (exact chunk_pos || done)]).
  1,3: rewrite app_nil_r; cbn; rewrite Z.leb_refl; unfold ret; cbn in Hin; subst rest; by rewrite received_nothing.
  { cbn in Hf. lia. }
  set (l := b :: r) in *. assert (Hl : (0 < length l)%nat) by (cbn; lia). clearbody l.
  cbn [length frames] in Hf, Hc, Hin. rewrite <- app_assoc in Hin. cbn [read_chunks].
  rewrite (proj2 (Z.leb_gt _ _)) by (rewrite length_app; lia). unfold bind.
  rewrite (read_frame_inner_ok s (take n l) _ Hin) by (rewrite ?length_take; pose proof chunk_pos; lia).
  unfold ensure. rewrite (proj2 (Z.eqb_eq _ _)) by (rewrite length_app, length_take; pose proof chunk_pos; lia). unfold ret.
  replace (d ++ l) with ((d ++ take n l) ++ drop n l) by (by rewrite <- app_assoc, take_drop).
  rewrite IH by (done || cbn; lia). rewrite received_received. cbn [length]. do 2 f_equal. lia.
Qed.

Lemma read_chunks_inv fuel total d s s' doc :
  is_bytes (cn_in (ts_stream s)) -> Z.of_nat (length d) <= total -> read_chunks fuel total d s = (s', Ok doc) ->
  exists r rest, doc = d ++ r /\ Z.of_nat (length doc) = total /\ is_bytes rest /\
    cn_in (ts_stream s) = frames (ts_recv_key s) (ts_recv_counter s) (chunks n r) ++ rest /\
    s' = received s rest (Z.of_nat (length (chunks n r))) /\ (ts_recv_counter s <= u64_MAX -> ts_recv_counter s' <= u64_MAX).
Proof.
  revert d s. induction fuel as [|fuel IH]; intros d s Hb Hd; cbn [read_chunks].
  all: destruct (Z.leb_spec total (Z.of_nat (length d))) as [Hle|Hgt].
  1,3: intros [= <- <-]; exists [], (cn_in (ts_stream s)); rewrite app_nil_r; cbn; rewrite received_nothing; split_and!; done || lia.
  { done. }
  unfold bind at 1. destruct (read_frame_inner s) as [s1 [chunk|]] eqn:Er; [|done].
  destruct (read_frame_inner_inv _ _ _ Hb Er) as (rest & Hin & Hrb & Hpb & Hlen & Hc & ->).
  unfold bind, ensure. destruct (Z.eqb_spec (Z.of_nat (length chunk)) (Z.min MAX_FRAME_LEN (total - Z.of_nat (length d)))) as [El|]; [|done].
  unfold ret. intros Hrec. apply IH in Hrec as (r & rest' & -> & Htot & Hrb' & Hin' & -> & Hmax); [|done|rewrite length_app; lia].
  exists (chunk ++ r), rest'. rewrite app_assoc. cbn in Hin', Hmax.
  assert (Hch : chunks n (chunk ++ r) = chunk :: chunks n r).
  { assert (Hpos : (0 < length chunk)%nat) by (pose proof chunk_pos; lia).
    rewrite chunks_cons by (exact chunk_pos || (destruct chunk; [cbn in Hpos; lia|done])). rewrite !length_app in Htot.
    destruct (decide (length chunk = n)) as [Em|Hm].
    - rewrite take_app_length', drop_app_length' by done. done.
    - assert (r = []) as -> by (apply length_zero_iff_nil; pose proof chunk_pos; lia).
      rewrite app_nil_r, take_ge, drop_ge by (pose proof chunk_pos; lia). done. }
  rewrite Hch, received_received. cbn [frames length]. split_and!; try done.
  - rewrite Hin, Hin', app_assoc. done.
  - f_equal. lia.
  - intros _. cbn. specialize (Hmax ltac:(lia)). lia.
Qed.
End Chunks.

Lemma frame_size : Z.of_nat (Z.to_nat MAX_FRAME_LEN) = MAX_FRAME_LEN.
Proof. apply Z2Nat.id. done. Qed.

Lemma document_frames_count d : document_ok d -> (length (document_frames d) <= 7)%nat.
Proof.
  intros [_ Hd]. unfold document_frames. cbn [length]. apply le_n_S, chunks_count; [by apply chunk_pos, frame_size|].
  apply Nat2Z.inj_le. rewrite Nat2Z.inj_mul, frame_size. exact Hd.
Qed.

Lemma header_length d : length (header d) = 12%nat.
Proof. unfold header. rewrite length_app, be_bytes_length. done. Qed.

Lemma header_reads d : document_ok d -> take 8 (header d) = str "AGDOC006" /\ from_be (drop 8 (header d)) = Z.of_nat (length d).
Proof.
  intros Hd. unfold header. rewrite take_app_length', drop_app_length' by done. split; [done|]. apply from_be_be_bytes.
  change (256 ^ Z.of_nat 4) with 4294967296. unfold document_ok, MAX_FRAME_LEN in Hd. lia.
Qed.

Lemma write_document_inner_ok s d :
  cn_room (ts_stream s) = None -> document_ok d -> ts_send_counter s + 7 <= u64_MAX ->
  write_document_inner d s = (sent s (frames (ts_send_key s) (ts_send_counter s) (document_frames d)) (Z.of_nat (length (document_frames d))), Ok tt).
Proof.
  intros Hr Hd Hc. pose proof (document_frames_count d Hd) as Hn. pose proof Hd as [Hd1 Hd2]. unfold write_document_inner, ensure, bind.
  rewrite (proj2 (Z.eqb_neq _ _)), (proj2 (Z.leb_le _ _)) by lia. cbn [negb andb]. unfold ret. fold (header d).
  rewrite write_frame_inner_ok by (done || lia || (rewrite header_length; unfold MAX_FRAME_LEN; lia)).
  cbn [document_frames length] in Hn |- *.
  rewrite write_chunks_ok by (apply chunks_bounded, frame_size || done || (cbn [sent set_counters set_stream ts_send_counter]; lia)).
  rewrite sent_sent. cbn [frames sent set_counters set_stream ts_send_counter ts_send_key]. do 2 f_equal. lia.
Qed.

Lemma read_document_inner_ok s d rest :
  cn_in (ts_stream s) = frames (ts_recv_key s) (ts_recv_counter s) (document_frames d) ++ rest ->
  document_ok d -> ts_recv_counter s + 7 <= u64_MAX ->
  read_document_inner s = (received s rest (Z.of_nat (length (document_frames d))), Ok d).
Proof.
  intros Hin Hd Hc. pose proof (document_frames_count d Hd) as Hn. pose proof Hd as [Hd1 Hd2].
  cbn [document_frames frames length] in Hin, Hn |- *. rewrite <- app_assoc in Hin. unfold read_document_inner, bind, ensure.
  rewrite (read_frame_inner_ok s (header d) _ Hin) by (lia || (rewrite header_length; unfold MAX_FRAME_LEN; lia)).
  destruct (header_reads d Hd) as [H1 H2]. rewrite header_length, H1, H2, bool_decide_true by done. change (12 =? 12)%nat with true. cbn [andb]. unfold ret at 1. cbv beta iota.
  rewrite (proj2 (Z.eqb_neq _ _)), (proj2 (Z.leb_le _ _)) by lia. cbn [negb andb]. unfold ret. cbv beta iota.
  match goal with |- read_chunks _ _ _ ?s1 = _ => pose proof (read_chunks_ok (Z.to_nat MAX_FRAME_LEN) frame_size 6 [] d s1 rest) as Hr end.
  cbn [app] in Hr. rewrite Hr by (done || lia || (cbn [received set_counters set_stream ts_recv_counter]; lia)).
  rewrite received_received. do 2 f_equal. lia.
Qed.

Lemma read_document_inner_inv s s' d :
  is_bytes (cn_in (ts_stream s)) -> read_document_inner s = (s', Ok d) ->
  document_ok d /\ exists rest, cn_in (ts_stream s) = frames (ts_recv_key s) (ts_recv_counter s) (document_frames d) ++ rest.
Proof.
  intros Hb. unfold read_document_inner, bind, ensure. destruct (read_frame_inner s) as [s1 [h|]] eqn:Er; [|done].
  destruct (read_frame_inner_inv _ _ _ Hb Er) as (rest & Hin & Hrb & Hpb & Hlen & Hc & ->).
  destruct (Nat.eqb_spec (length h) 12) as [Hh|]; [cbn [andb]|done]. destruct (bool_decide _) eqn:Em; [|done].
  apply bool_decide_eq_true in Em. unfold ret. destruct (Z.eqb_spec (from_be (drop 8 h)) 0) as [|Hz]; [done|].
  destruct (Z.leb_spec (from_be (drop 8 h)) (6 * MAX_FRAME_LEN)) as [Hm|]; [cbn [negb andb]|done]. intros Hr.
  pose proof (from_be_bound (drop 8 h) (Forall_drop _ _ _ Hpb)) as Hbd.
  apply (read_chunks_inv (Z.to_nat MAX_FRAME_LEN) frame_size) in Hr as (r & rest' & -> & Htot & _ & Hin' & _); [|done|cbn; lia].
  cbn in Htot, Hin'. split; [split; cbn; lia|]. exists rest'. cbn [document_frames frames]. rewrite Hin, Hin', app_assoc. do 2 f_equal.
  unfold header. cbn [app]. rewrite Htot, <- Em, <- (take_drop 8 h) at 1. f_equal.
  rewrite <- (be_bytes_from_be (drop 8 h)) at 1 by (by apply Forall_drop). rewrite length_drop, Hh. done.
Qed.

(** *** Whole operations *)
Lemma read_document_iff s s' d :
  ts_poisoned s = false -> is_bytes (cn_in (ts_stream s)) -> ts_recv_counter s + 7 <= u64_MAX ->
  read_document s = (s', Ok d) <->
  document_ok d /\ exists rest, cn_in (ts_stream s) = frames (ts_recv_key s) (ts_recv_counter s) (document_frames d) ++ rest /\
    s' = received s rest (Z.of_nat (length (document_frames d))).
Proof.
  intros Hp Hb Hc. assert (Hok : forall rest, document_ok d ->
    cn_in (ts_stream s) = frames (ts_recv_key s) (ts_recv_counter s) (document_frames d) ++ rest ->
    read_document s = (received s rest (Z.of_nat (length (document_frames d))), Ok d)).
  { intros rest Hd Hin. unfold read_document, guarded. rewrite Hp.
    rewrite (read_document_inner_ok (set_poisoned s true) d rest Hin Hd Hc). unfold received, set_poisoned, set_counters, set_stream.
    cbn. by rewrite Hp. }
  split; [|intros (Hd & rest & Hin & ->); by apply Hok].
  intros Hr. pose proof Hr as Hr'. unfold read_document, guarded in Hr'. rewrite Hp in Hr'.
  destruct (read_document_inner (set_poisoned s true)) as [s1 [d1|]] eqn:Er; [|done]. injection Hr' as _ ->.
  destruct (read_document_inner_inv (set_poisoned s true) _ _ Hb Er) as (Hd & rest & Hin). split; [done|]. exists rest. split; [done|].
  rewrite (Hok rest Hd Hin) in Hr. by injection Hr as <-.
Qed.

Lemma write_document_iff w w' d :
  ts_poisoned w = false -> cn_room (ts_stream w) = None -> ts_send_counter w + 7 <= u64_MAX ->
  write_document d w = (w', Ok tt) <->
  document_ok d /\ w' = sent w (frames (ts_send_key w) (ts_send_counter w) (document_frames d)) (Z.of_nat (length (document_frames d))).
Proof.
  intros Hp Hr Hc. assert (Hok : document_ok d -> write_document d w =
    (sent w (frames (ts_send_key w) (ts_send_counter w) (document_frames d)) (Z.of_nat (length (document_frames d))), Ok tt)).
  { intros Hd. unfold write_document, guarded. rewrite Hp.
    rewrite (write_document_inner_ok (set_poisoned w true) d Hr Hd Hc). unfold sent, set_poisoned, set_counters, set_stream. cbn. by rewrite Hp. }
  split; [|intros [Hd ->]; by apply Hok]. intros Hw. assert (Hd : document_ok d).
  { unfold write_document, guarded, write_document_inner, bind at 1, ensure at 1 in Hw. rewrite Hp in Hw.
    destruct (_ && _) eqn:Eg; [|done]. reflect_bools. split; lia. }
  split; [done|]. rewrite (Hok Hd) in Hw. by injection Hw as <-.
Qed.
End Laws.

(** Several documents in a row. *)
Fixpoint write_documents (l : list bytes) : M SecureTransportSession unit :=
  match l with [] => ret tt | d :: l => let* _ := write_document d in write_documents l end.

Fixpoint read_documents (n : nat) : M SecureTransportSession (list bytes) :=
  match n with O => ret [] | S n => let* d := read_document in let* l := read_documents n in ret (d :: l) end.

Lemma write_documents_sent `{!OnionPrimitivesLaws} docs w w' :
  ts_poisoned w = false -> cn_room (ts_stream w) = None -> ts_send_counter w + 7 * Z.of_nat (length docs) <= u64_MAX ->
  write_documents docs w = (w', Ok tt) -> exists wire n, w' = sent w wire n.
Proof.
  revert w. induction docs as [|d docs IH]; intros w Hp Hr Hc; cbn [write_documents length] in *.
  { intros [= <-]. exists [], 0. by rewrite sent_nothing. }
  unfold bind. destruct (write_document d w) as [w1 [[]|]] eqn:Ew; [|done]. intros Hw.
  apply write_document_iff in Ew as (Hd & ->); [|done|done|lia]. pose proof (document_frames_count d Hd).
  apply IH in Hw as (wire & n & ->); [|done|done|cbn [sent set_counters ts_send_counter]; lia]. rewrite sent_sent. eauto.
Qed.

(** Bytes in, bytes out. *)
Lemma frame_bytes `{!OnionPrimitivesLaws} key counter payload : is_bytes payload -> is_bytes (frame key counter payload).
Proof.
  intros Hp. unfold frame. destruct (aead_seal _ _ _ _) as [text tag] eqn:E. destruct (seal_bytes _ _ _ _ _ _ E Hp).
  apply is_bytes_app; [apply be_bytes_is_bytes|by apply is_bytes_app].
Qed.

Lemma frames_bytes `{!OnionPrimitivesLaws} key counter l : Forall is_bytes l -> is_bytes (frames key counter l).
Proof.
  intros Hl. revert counter. induction Hl as [|p l Hp _ IH]; intros counter; [constructor|]. apply is_bytes_app; [by apply frame_bytes|apply IH].
Qed.

Lemma chunks_bytes n l : is_bytes l -> Forall is_bytes (chunks n l).
Proof.
  unfold chunks. generalize (length l) as fuel. intros fuel. revert l. induction fuel as [|fuel IH]; intros l Hl; [constructor|].
  destruct l as [|b l]; [constructor|]. cbn [chunks_aux]. constructor; [by apply Forall_take|by apply IH, Forall_drop].
Qed.

Lemma write_documents_ok `{!OnionPrimitivesLaws} docs w :
  ts_poisoned w = false -> cn_room (ts_stream w) = None -> ts_send_counter w + 7 * Z.of_nat (length docs) <= u64_MAX ->
  Forall document_ok docs -> Forall is_bytes docs ->
  exists wire n, write_documents docs w = (sent w wire n, Ok tt) /\ is_bytes wire.
Proof.
  intros Hp Hr Hc Hd. revert w Hp Hr Hc. induction Hd as [|d docs Hd _ IH]; intros w Hp Hr Hc Hb; cbn [write_documents length] in *.
  { exists [], 0. rewrite sent_nothing. split; [done|constructor]. }
  apply Forall_cons in Hb as [Hb Hbs]. pose proof (document_frames_count d Hd) as Hn. unfold bind.
  rewrite (proj2 (write_document_iff w _ d Hp Hr ltac:(lia)) (conj Hd eq_refl)).
  edestruct (IH (sent w (frames (ts_send_key w) (ts_send_counter w) (document_frames d)) (Z.of_nat (length (document_frames d)))))
    as (wire & n & -> & Hw); [done|done|cbn [sent set_counters ts_send_counter]; lia|done|].
  rewrite sent_sent. eexists _, _. split; [reflexivity|]. apply is_bytes_app; [|done]. apply frames_bytes.
  constructor; [apply is_bytes_app; [apply str_bytes|apply be_bytes_is_bytes]|by apply chunks_bytes].
Qed.

(** Whatever is done with a session. *)
Inductive SessionOp := OpWriteFrame (payload : bytes) | OpReadFrame | OpWriteDocument (document : bytes) | OpReadDocument.

Definition session_op (op : SessionOp) (s : SecureTransportSession) : SecureTransportSession * result Fault (option bytes) :=
  match op with
  | OpWriteFrame payload => (let* _ := write_frame payload in ret None) s
  | OpReadFrame => (let* p := read_frame in ret (Some p)) s
  | OpWriteDocument document => (let* _ := write_document document in ret None) s
  | OpReadDocument => (let* d := read_document in ret (Some d)) s
  end.

Fixpoint session_ops (ops : list SessionOp) (s : SecureTransportSession) : SecureTransportSession * list (result Fault (option bytes)) :=
  match ops with
  | [] => (s, [])
  | op :: ops => let '(s, r) := session_op op s in let '(s, rs) := session_ops ops s in (s, r :: rs)
  end.

(** Steps inside an operation leave the poison alone. *)
Definition keeps {A} (m : M SecureTransportSession A) : Prop := forall s, ts_poisoned (m s).1 = ts_poisoned s.

Lemma keeps_bind {A B} (m : M SecureTransportSession A) (f : A -> M SecureTransportSession B) :
  keeps m -> (forall a, keeps (f a)) -> keeps (bind m f).
Proof.
  intros Hm Hf s. unfold bind. specialize (Hm s). destruct (m s) as [s1 [a|]]; cbn in *; [|done]. by rewrite Hf.
Qed.
Lemma keeps_on_stream {A} (m : M Conn A) : keeps (on_stream m).
Proof. intros s. unfold on_stream. by destruct (m (ts_stream s)). Qed.
Lemma keeps_simple {A} (m : M SecureTransportSession A) : (forall s, (m s).1 = s) -> keeps m.
Proof. intros Hm s. by rewrite Hm. Qed.
Lemma keeps_ensure b e : keeps (ensure b e).
Proof. apply keeps_simple. by destruct b. Qed.
Lemma keeps_some_or {A} (o : option A) e : keeps (some_or o e).
Proof. apply keeps_simple. by destruct o. Qed.
Lemma keeps_counters f g : keeps (modify (fun s => set_counters s (f s) (g s))).
Proof. done. Qed.

Hint Resolve keeps_bind keeps_on_stream keeps_ensure keeps_some_or keeps_counters : keeps.
Hint Extern 1 (keeps _) => done : keeps.

Lemma keeps_write_frame payload : keeps (write_frame_inner payload).
Proof.
  unfold write_frame_inner. repeat (apply keeps_bind; [auto with keeps|intros ?]). destruct (aead_seal _ _ _ _). auto with keeps.
Qed.

Lemma keeps_read_frame : keeps read_frame_inner.
Proof.
  unfold read_frame_inner. repeat (apply keeps_bind; [auto with keeps|intros ?]). done.
Qed.
Hint Resolve keeps_write_frame keeps_read_frame : keeps.

Lemma keeps_write_chunks l : keeps (write_chunks l).
Proof. induction l; cbn [write_chunks]; auto with keeps. Qed.

Lemma keeps_read_chunks fuel total d : keeps (read_chunks fuel total d).
Proof.
  revert d. induction fuel as [|fuel IH]; intros d; cbn [read_chunks]; (destruct (_ <=? _); [done|]); [done|].
  repeat (apply keeps_bind; [auto with keeps|intros ?]). apply IH.
Qed.
Hint Resolve keeps_write_chunks keeps_read_chunks : keeps.

Lemma keeps_write_document d : keeps (write_document_inner d).
Proof. unfold write_document_inner. auto with keeps. Qed.
Lemma keeps_read_document : keeps read_document_inner.
Proof. unfold read_document_inner. auto with keeps. Qed.
Hint Resolve keeps_write_document keeps_read_document : keeps.

(** An operation that fails leaves the session poisoned, and a poisoned session
    refuses. *)
Lemma guarded_fails {A} (m : M SecureTransportSession A) s s' e : keeps m -> guarded m s = (s', Err e) -> ts_poisoned s' = true.
Proof.
  intros Hm. unfold guarded. destruct (ts_poisoned s) eqn:Ep; [by intros [= <- _]|].
  specialize (Hm (set_poisoned s true)). destruct (m _) as [s1 [a|]]; [done|]. intros [= <- _]. exact Hm.
Qed.

Lemma session_op_fails op s s' e : session_op op s = (s', Err e) -> ts_poisoned s' = true.
Proof.
  destruct op; cbn [session_op]; unfold bind, write_frame, read_frame, write_document, read_document;
    destruct (guarded _ s) as [s1 [a|]] eqn:Eg; (done || (intros [= <- <-]; eapply guarded_fails; [|exact Eg]; auto with keeps)).
Qed.

Lemma session_op_poisoned op s : ts_poisoned s = true -> session_op op s = (s, Err (Io poisoned_error)).
Proof.
  intros Hp. destruct op; cbn [session_op]; unfold bind, write_frame, read_frame, write_document, read_document, guarded; by rewrite Hp.
Qed.

(** Six frames are enough for any document. *)
Definition total {S A} (m : M S A) : Prop := forall s, (m s).2 <> Err Panics.

Lemma total_bind {S A B} (m : M S A) (f : A -> M S B) : total m -> (forall a, total (f a)) -> total (bind m f).
Proof.
  intros Hm Hf s. unfold bind. specialize (Hm s). destruct (m s) as [s1 [a|e]]; [apply Hf|]. cbn in *. by intros [= ->].
Qed.
Lemma total_on_stream {A} (m : M Conn A) : total m -> total (on_stream m).
Proof. intros Hm s. unfold on_stream. specialize (Hm (ts_stream s)). by destruct (m (ts_stream s)). Qed.
Lemma total_read_exact n : total (read_exact n).
Proof. intros s. unfold read_exact. by destruct (_ <? _)%nat. Qed.
Lemma total_write_all b : total (write_all b).
Proof. intros s. unfold write_all. destruct (cn_room s); [|done]. by destruct (_ <=? _)%nat. Qed.
Lemma total_ensure {S} b e : total (@ensure S b e).
Proof. by destruct b. Qed.
Lemma total_some_or {S A} (o : option A) e : total (@some_or S A o e).
Proof. by destruct o. Qed.
Hint Resolve total_bind total_on_stream total_read_exact total_write_all total_ensure total_some_or : keeps.
Hint Extern 1 (total _) => done : keeps.

Lemma total_write_frame payload : total (write_frame_inner payload).
Proof. unfold write_frame_inner. repeat (apply total_bind; [auto with keeps|intros ?]). destruct (aead_seal _ _ _ _). auto with keeps. Qed.
Lemma total_read_frame : total read_frame_inner.
Proof. unfold read_frame_inner. repeat (apply total_bind; [auto with keeps|intros ?]). done. Qed.
Hint Resolve total_write_frame total_read_frame : keeps.
Lemma total_write_chunks l : total (write_chunks l).
Proof. induction l; cbn [write_chunks]; auto with keeps. Qed.
Hint Resolve total_write_chunks : keeps.

Lemma total_read_chunks fuel n d : n <= Z.of_nat (length d) + Z.of_nat fuel * MAX_FRAME_LEN -> total (read_chunks fuel n d).
Proof.
  revert d. induction fuel as [|fuel IH]; intros d Hn s; cbn [read_chunks]; (destruct (Z.leb_spec n (Z.of_nat (length d))); [done|]); [lia|].
  unfold bind, ensure. pose proof (total_read_frame s) as Hr. destruct (read_frame_inner s) as [s1 [chunk|e]]; [|cbn in *; congruence].
  destruct (Z.eqb_spec (Z.of_nat (length chunk)) (Z.min MAX_FRAME_LEN (n - Z.of_nat (length d)))) as [E|]; [|done].
  apply IH. rewrite length_app. unfold MAX_FRAME_LEN in *. lia.
Qed.

Lemma total_read_document : total read_document_inner.
Proof.
  unfold read_document_inner. apply total_bind; [auto with keeps|intros h]. apply total_bind; [auto with keeps|intros _].
  destruct (_ && _) eqn:E; [|done]. reflect_bools. apply total_bind; [done|intros _]. apply total_read_chunks. cbn. lia.
Qed.

Lemma total_guarded {A} (m : M SecureTransportSession A) : total m -> total (guarded m).
Proof.
  intros Hm s. unfold guarded. destruct (ts_poisoned s); [done|]. specialize (Hm (set_poisoned s true)). by destruct (m _) as [? []].
Qed.
End Wire.
#[export] Hint Resolve total_bind total_on_stream total_read_exact total_write_all total_ensure total_some_or total_write_frame
  total_read_frame total_write_chunks : keeps.
#[export] Hint Extern 1 (total _) => done : keeps.

(** ** Properties of the channel *)
Section Channel.
Context `{OnionPrimitives}.

(** A directory channel carries documents exactly. Take a writer and a
    reader with the same key and counter. The reader accepts a list of
    documents, whatever bytes arrive, exactly when these bytes start with what
    the writer puts on the wire for the same documents in the same order: each
    between one byte and six mebibytes, cut into chunks of one mebibyte and
    sealed under consecutive counters. So nothing altered, reordered, replayed
    or cut short is ever taken for a document. *)
Theorem document_channel `{!OnionPrimitivesLaws} (docs : list bytes) (w s : SecureTransportSession) :
  ts_poisoned w = false -> ts_poisoned s = false -> cn_room (ts_stream w) = None -> is_bytes (cn_in (ts_stream s)) ->
  ts_send_key w = ts_recv_key s -> ts_send_counter w = ts_recv_counter s ->
  ts_send_counter w + 7 * Z.of_nat (length docs) <= u64_MAX ->
  (exists s', read_documents (length docs) s = (s', Ok docs)) <->
  (exists w' wire rest, write_documents docs w = (w', Ok tt) /\
     cn_out (ts_stream w') = cn_out (ts_stream w) ++ wire /\ cn_in (ts_stream s) = wire ++ rest).
Proof.
  intros Hw. revert w s Hw. induction docs as [|d docs IH]; intros w s Hw Hs Hr Hb Hk Hc Hmax.
  { split; intros _; [exists w, [], (cn_in (ts_stream s))|by exists s]. cbn. by rewrite app_nil_r. }
  cbn [length] in Hmax. set (fs := frames (ts_recv_key s) (ts_recv_counter s) (document_frames d)).
  set (k := Z.of_nat (length (document_frames d))).
  assert (Hk7 : document_ok d -> k <= 7) by (intros Hd; pose proof (document_frames_count d Hd); lia).
  assert (Hstep : forall rest, is_bytes rest -> document_ok d ->
    (exists s', read_documents (length docs) (received s rest k) = (s', Ok docs)) <->
    (exists w' wire rest', write_documents docs (sent w fs k) = (w', Ok tt) /\
       cn_out (ts_stream w') = cn_out (ts_stream w) ++ fs ++ wire /\ rest = wire ++ rest')).
  { intros rest Hrb Hd. specialize (Hk7 Hd). rewrite (IH (sent w fs k) (received s rest k)); try done;
      cbn [sent received set_counters set_stream ts_stream ts_send_counter ts_recv_counter cn_out cn_in]; try lia.
    by setoid_rewrite <- app_assoc. }
  cbn [length read_documents write_documents]. unfold bind at 1 3. split.
  - intros [s' Hread]. destruct (read_document s) as [s1 [d1|]] eqn:Er; [|done]. unfold bind, ret in Hread.
    destruct (read_documents (length docs) s1) as [s2 [l|]] eqn:Erl; [|done]. injection Hread as -> -> ->.
    apply read_document_iff in Er as (Hd & rest & Hin & ->); [|done|done|lia].
    assert (Hrb : is_bytes rest) by (rewrite Hin in Hb; by apply Forall_app in Hb as []).
    destruct (proj1 (Hstep rest Hrb Hd)) as (w' & wire & rest' & Hwr & Hout & ->); [by eexists|].
    exists w', (fs ++ wire), rest'. rewrite Hin, <- app_assoc. split_and!; try done.
    destruct (write_document d w) as [w1 r] eqn:Ew. pose proof (proj2 (write_document_iff w (sent w fs k) d Hw Hr ltac:(lia))) as Hwi.
    rewrite Hk, Hc in Hwi. rewrite Hwi in Ew by done. by injection Ew as <- <-.
  - intros (w' & wire & rest & Hwr & Hout & Hin). destruct (write_document d w) as [w1 [[]|]] eqn:Ew; [|done].
    apply write_document_iff in Ew as (Hd & ->); [|done|done|lia]. rewrite Hk, Hc in Hwr. fold fs k in Hwr.
    specialize (Hk7 Hd). destruct (write_documents_sent docs (sent w fs k) w' Hw Hr ltac:(cbn; lia) Hwr) as (wire' & n & ->).
    rewrite sent_sent in Hout. cbn [sent set_counters set_stream ts_stream cn_out] in Hout. apply app_inv_head in Hout as <-. rewrite <- app_assoc in Hin.
    assert (Hrb : is_bytes (wire' ++ rest)) by (rewrite Hin in Hb; by apply Forall_app in Hb as []).
    destruct (proj2 (Hstep _ Hrb Hd)) as [s' Hs']; [eexists _, wire', rest; split_and!; [exact Hwr|by rewrite sent_sent|done]|].
    assert (Er : read_document s = (received s (wire' ++ rest) k, Ok d)) by (apply read_document_iff; [done|done|lia|eauto]).
    exists s'. rewrite Er. unfold bind. by rewrite Hs'.
Qed.

(** A directory session fails closed. Once any operation on it fails, for
    whatever reason, every later operation is refused with the same error and
    touches nothing: no byte is read or written and no counter moves. *)
Theorem session_fails_closed (op : SessionOp) (ops : list SessionOp) (s s' : SecureTransportSession) (e : Fault) :
  session_op op s = (s', Err e) -> session_ops ops s' = (s', replicate (length ops) (Err (Io poisoned_error))).
Proof.
  intros Hf. apply session_op_fails in Hf. induction ops as [|op' ops IH]; [done|].
  cbn [session_ops length replicate]. by rewrite session_op_poisoned, IH.
Qed.
End Channel.

(** ** Sockets that do not break

    What is left to arrive and what was sent after an operation. *)
Definition after (c : Conn) (rest out : bytes) : Conn := mkConn rest (cn_dry c) (cn_out c ++ out) (cn_room c) (cn_fault c).

Lemma read_ok n b rest c : cn_in c = b ++ rest -> length b = n -> read_exact n c = (after c rest [], Ok b).
Proof.
  intros Hin Hn. unfold read_exact, after. rewrite Hin, (proj2 (Nat.ltb_ge _ _)), app_nil_r by (rewrite length_app; lia).
  by rewrite take_app_length', drop_app_length'.
Qed.

Lemma write_ok b c : cn_room c = None -> write_all b c = (after c (cn_in c) b, Ok tt).
Proof. intros Hr. unfold write_all, after. by rewrite Hr. Qed.

Lemma after_after c r o r' o' : after (after c r o) r' o' = after c r' (o ++ o').
Proof. unfold after. cbn [cn_in cn_dry cn_out cn_room cn_fault]. by rewrite app_assoc. Qed.

(** ** The key agreement *)
Section Agreement.
Context `{OnionPrimitives} `{IdentityPrimitives} `{KexPrimitives}.
Context `{!OnionPrimitivesLaws} `{!IdentityLaws} `{!KexLaws}.

Lemma run_write b c : cn_room c = None -> write_all b c = (mkConn (cn_in c) (cn_dry c) (cn_out c ++ b) None (cn_fault c), Ok tt).
Proof. intros Hr. unfold write_all. by rewrite Hr. Qed.

Lemma run_read n b rest c :
  cn_in c = b ++ rest -> length b = n -> read_exact n c = (mkConn rest (cn_dry c) (cn_out c) (cn_room c) (cn_fault c), Ok b).
Proof.
  intros Hin Hn. unfold read_exact. rewrite Hin, (proj2 (Nat.ltb_ge _ _)) by (rewrite length_app; lia).
  by rewrite take_app_length', drop_app_length'.
Qed.

Definition hello_of (secret kem_secret : bytes) : bytes := TRANSPORT_VERSION ++ x25519_public secret ++ mlkem_ek kem_secret.
Definition response_of (key : HybridSigningKey) (secret ct : bytes) : bytes :=
  TRANSPORT_VERSION ++ x25519_public secret ++ ct ++ hpk_encoded (public_key key).

Lemma server_exchange_ok key secret kem_rng cs dk ct kem proof rest c :
  cn_in c = hello_of cs dk ++ rest -> cn_room c = None ->
  x25519_dh secret (x25519_public cs) <> replicate 32 0 -> mlkem_encapsulate (mlkem_ek dk) kem_rng = Some (ct, kem) ->
  hybrid_sign key TRANSPORT_PURPOSE (hybrid_transcript (hello_of cs dk) (response_of key secret ct)) = Ok proof ->
  server_exchange key secret kem_rng c =
    (mkConn rest (cn_dry c) (cn_out c ++ response_of key secret ct ++ proof) None (cn_fault c),
     Ok (x25519_dh secret (x25519_public cs) ++ kem, hybrid_transcript (hello_of cs dk) (response_of key secret ct) ++ proof)).
Proof.
  intros Hin Hr Hdh Henc Hsig. destruct (x25519_public_ok cs) as [Hp _]. destruct (mlkem_ek_ok dk) as (Hek & _ & Hcan).
  unfold server_exchange, bind. unfold hello_of, response_of in *. rewrite <- app_assoc in Hin.
  rewrite (run_read 8 TRANSPORT_VERSION ((x25519_public cs ++ mlkem_ek dk) ++ rest) c Hin eq_refl). unfold ensure, ret, some_or, of_result.
  rewrite bool_decide_true by done.
  rewrite (run_read (32 + Z.to_nat 1184) (x25519_public cs ++ mlkem_ek dk) rest) by (done || (rewrite length_app, Hp, Hek; lia)).
  cbn [cn_in cn_dry cn_out cn_room cn_fault].
  assert (Hs : slice 8 40 (TRANSPORT_VERSION ++ x25519_public cs ++ mlkem_ek dk) = x25519_public cs).
  { apply slice_app_at; [done|]. by rewrite Hp. }
  assert (Hd : drop 40 (TRANSPORT_VERSION ++ x25519_public cs ++ mlkem_ek dk) = mlkem_ek dk).
  { rewrite app_assoc. apply drop_app_length'. by rewrite length_app, Hp. }
  rewrite Hs, Hd, Hcan, Henc, bool_decide_false by done. cbn [negb]. cbv beta iota delta [ret]. rewrite Hsig. cbv beta iota delta [ret].
  rewrite run_write by done. rewrite run_write by done. cbn [cn_in cn_dry cn_out cn_room cn_fault]. by rewrite <- !app_assoc.
Qed.

Lemma response_length key secret ct :
  length ct = Z.to_nat 1088 -> length (response_of key secret ct) = (8 + 32 + Z.to_nat 1088 + PUBLIC_KEY_SIZE)%nat.
Proof.
  intros Hct. destruct (x25519_public_ok secret) as [Hp _]. unfold response_of.
  rewrite !length_app, Hp, Hct, public_encoded_length. change (length TRANSPORT_VERSION) with 8%nat. lia.
Qed.

Lemma response_reads key secret ct :
  length ct = Z.to_nat 1088 ->
  let r := response_of key secret ct in
  take 8 r = TRANSPORT_VERSION /\ slice 8 40 r = x25519_public secret /\ slice 40 (Z.to_nat 1128) r = ct /\
  drop (Z.to_nat 1128) r = hpk_encoded (public_key key).
Proof.
  intros Hct r. destruct (x25519_public_ok secret) as [Hp _]. unfold r, response_of. split_and!.
  - by apply take_app_length'.
  - apply slice_app_at; [done|]. by rewrite Hp.
  - rewrite app_assoc. apply slice_app_at; [by rewrite length_app, Hp|]. rewrite Hct. lia.
  - rewrite !app_assoc. apply drop_app_length'. rewrite !length_app, Hp, Hct. change (length TRANSPORT_VERSION) with 8%nat. lia.
Qed.

Lemma client_exchange_ok key secret cs dk ct kem proof rest c :
  cn_in c = response_of key secret ct ++ proof ++ rest -> cn_room c = None -> length ct = Z.to_nat 1088 ->
  x25519_dh cs (x25519_public secret) <> replicate 32 0 -> mlkem_decapsulate dk ct = Some kem ->
  hybrid_sign key TRANSPORT_PURPOSE (hybrid_transcript (hello_of cs dk) (response_of key secret ct)) = Ok proof ->
  client_exchange (verifying_key key) cs dk c =
    (mkConn rest (cn_dry c) (cn_out c ++ hello_of cs dk) None (cn_fault c),
     Ok (x25519_dh cs (x25519_public secret) ++ kem, hybrid_transcript (hello_of cs dk) (response_of key secret ct) ++ proof, public_key key)).
Proof.
  intros Hin Hr Hct Hdh Hdec Hsig. destruct (hybrid_sign_verify _ _ _ _ Hsig) as [Hpl Hv].
  destruct (response_reads key secret ct Hct) as (R1 & R2 & R3 & R4). pose proof (response_length key secret ct Hct) as Hrl.
  unfold client_exchange, bind. fold (hello_of cs dk). rewrite run_write by done. cbv beta iota.
  rewrite (run_read _ (response_of key secret ct) (proof ++ rest)) by done. cbv beta iota.
  rewrite R1, R2, R3, R4, decode_public, bool_decide_true by done. cbv beta iota delta [ensure ret of_result some_or].
  unfold verifying_key. rewrite (bool_decide_true (fingerprint _ = _)) by done. cbv beta iota.
  rewrite (run_read _ proof rest) by done. cbv beta iota.
  rewrite Hv, Hdec, (bool_decide_false (x25519_dh _ _ = _)) by done. done.
Qed.

(** A frame written is read by the other end. *)
Lemma confirm_write s payload :
  ts_poisoned s = false -> cn_room (ts_stream s) = None -> Z.of_nat (length payload) <= MAX_FRAME_LEN -> ts_send_counter s < u64_MAX ->
  write_frame payload s = (sent s (frame (ts_send_key s) (ts_send_counter s) payload) 1, Ok tt).
Proof.
  intros Hp Hr Hl Hc. unfold write_frame, guarded. rewrite Hp. rewrite (write_frame_inner_ok (set_poisoned s true)) by done.
  unfold sent, set_poisoned, set_counters, set_stream. cbn [ts_poisoned]. by rewrite <- Hp.
Qed.

Lemma confirm_read s payload rest :
  ts_poisoned s = false -> cn_in (ts_stream s) = frame (ts_recv_key s) (ts_recv_counter s) payload ++ rest ->
  Z.of_nat (length payload) <= MAX_FRAME_LEN -> ts_recv_counter s < u64_MAX ->
  read_frame s = (received s rest 1, Ok payload).
Proof.
  intros Hp Hin Hl Hc. unfold read_frame, guarded. rewrite Hp. rewrite (read_frame_inner_ok (set_poisoned s true) payload rest) by done.
  unfold received, set_poisoned, set_counters, set_stream. cbn [ts_poisoned]. by rewrite <- Hp.
Qed.

Lemma client_confirm_ok s rest :
  ts_poisoned s = false -> cn_room (ts_stream s) = None -> ts_send_counter s < u64_MAX -> ts_recv_counter s < u64_MAX ->
  cn_in (ts_stream s) = frame (ts_recv_key s) (ts_recv_counter s) SERVER_CONFIRM ++ rest ->
  client_confirm s = (received (sent s (frame (ts_send_key s) (ts_send_counter s) CLIENT_CONFIRM) 1) rest 1, Ok tt).
Proof.
  intros Hp Hr Hs Hc Hin. unfold client_confirm, bind. rewrite confirm_write by done.
  rewrite (confirm_read (sent s _ 1) SERVER_CONFIRM rest) by done. unfold ensure. by rewrite bool_decide_true.
Qed.

Lemma server_confirm_ok s rest :
  ts_poisoned s = false -> cn_room (ts_stream s) = None -> ts_send_counter s < u64_MAX -> ts_recv_counter s < u64_MAX ->
  cn_in (ts_stream s) = frame (ts_recv_key s) (ts_recv_counter s) CLIENT_CONFIRM ++ rest ->
  server_confirm s = (sent (received s rest 1) (frame (ts_send_key s) (ts_send_counter s) SERVER_CONFIRM) 1, Ok tt).
Proof.
  intros Hp Hr Hs Hc Hin. unfold server_confirm, bind. rewrite (confirm_read s CLIENT_CONFIRM rest) by done.
  unfold ensure. rewrite bool_decide_true by done. cbv beta iota delta [ret]. by rewrite (confirm_write (received s rest 1)).
Qed.

Lemma derive_transport_ok shared context :
  exists c2s s2c, derive_transport_keys shared true context = Some (c2s, s2c) /\ derive_transport_keys shared false context = Some (s2c, c2s).
Proof.
  unfold derive_transport_keys.
  destruct (hkdf_expand_ok (sha256 context) shared (str "AnonGuard-Client-To-Server-v4-HKDF") 32 ltac:(lia)) as [k1 ->].
  destruct (hkdf_expand_ok (sha256 context) shared (str "AnonGuard-Server-To-Client-v4-HKDF") 32 ltac:(lia)) as [k2 ->].
  eauto.
Qed.

(** Everything on the wire is made of bytes. *)
Lemma public_encoded_bytes sk : is_bytes (hpk_encoded (public_key sk)).
Proof. cbn [public_key hpk_encoded]. apply is_bytes_app; [apply str_bytes|]. apply is_bytes_app; [apply ed_public_bytes|apply pq_public_bytes]. Qed.

Lemma hybrid_sign_bytes sk purpose message proof : hybrid_sign sk purpose message = Ok proof -> is_bytes proof.
Proof.
  unfold hybrid_sign. destruct (transcript _ _ _) as [tr|]; [|done]. intros [= <-].
  apply (is_bytes_app MAGIC); [apply str_bytes|]. apply is_bytes_app; [apply ed_sign_bytes|apply pq_sign_bytes].
Qed.

Lemma identity_sign_bytes sk m sig : identity_sign sk m = Some sig -> is_bytes sig.
Proof.
  unfold identity_sign. destruct (hybrid_sign sk PURPOSE m) as [proof|] eqn:Hs; [|done]. intros <-%Some_inj'.
  apply is_bytes_app; [apply public_encoded_bytes|by eapply hybrid_sign_bytes].
Qed.

Lemma response_bytes key secret ct : is_bytes ct -> is_bytes (response_of key secret ct).
Proof.
  intros Hct. unfold response_of. apply is_bytes_app; [apply str_bytes|]. apply is_bytes_app; [apply x25519_public_ok|].
  apply is_bytes_app; [done|apply public_encoded_bytes].
Qed.

(** The session each end has after the handshake, with what came after it. *)
Lemma transport_meets (key : HybridSigningKey) (cs dk secret kem_rng : bytes) (dry fault : IoError) :
  verifying_key key <> replicate 32 0 -> x25519_dh secret (x25519_public cs) <> replicate 32 0 ->
  exists up down c2s s2c,
    (forall rest, client_handshake (Some (verifying_key key)) cs dk (mkConn (down ++ rest) dry [] None fault) =
      Ok (mkSession (mkConn rest dry up None fault) c2s s2c 1 1 (Some (verifying_key key)) (Some (public_key key)) false)) /\
    (forall rest, server_handshake (Some key) secret kem_rng (mkConn (up ++ rest) dry [] None fault) =
      Ok (mkSession (mkConn rest dry down None fault) s2c c2s 1 1 None None false)) /\ is_bytes down.
Proof.
  intros Hpin Hdh. destruct (mlkem_encapsulate_ok dk kem_rng) as (ct & kem & Henc). destruct (mlkem_ct_ok _ _ _ _ Henc) as (Hct & Hctb & _).
  pose proof (mlkem_correct _ _ _ _ Henc) as Hdec.
  destruct (transcript_ok (public_key key) TRANSPORT_PURPOSE (hybrid_transcript (hello_of cs dk) (response_of key secret ct))) as [tr Htr].
  { change (length TRANSPORT_PURPOSE) with 22%nat. lia. }
  { unfold hybrid_transcript, hello_of. destruct (x25519_public_ok cs) as [Hp _]. destruct (mlkem_ek_ok dk) as (Hek & _).
    rewrite !length_app, Hp, Hek, response_length by done. unfold MAX_MESSAGE, PUBLIC_KEY_SIZE.
    change (length TRANSPORT_VERSION) with 8%nat. change (length (str _)) with 52%nat. lia. }
  assert (Hsig : exists proof, hybrid_sign key TRANSPORT_PURPOSE (hybrid_transcript (hello_of cs dk) (response_of key secret ct)) = Ok proof).
  { unfold hybrid_sign. rewrite Htr. eauto. }
  destruct Hsig as [proof Hsig]. set (context := hybrid_transcript (hello_of cs dk) (response_of key secret ct) ++ proof).
  set (shared := x25519_dh secret (x25519_public cs) ++ kem).
  destruct (derive_transport_ok shared context) as (c2s & s2c & Hk1 & Hk2).
  exists (hello_of cs dk ++ frame c2s 0 CLIENT_CONFIRM), (response_of key secret ct ++ proof ++ frame s2c 0 SERVER_CONFIRM), c2s, s2c.
  split_and!; [intros rest..|].
  - unfold client_handshake, client_handshake_hybrid_pin. rewrite (bool_decide_false (verifying_key key = _)) by done.
    assert (Hdh' : x25519_dh cs (x25519_public secret) <> replicate 32 0) by (by rewrite (x25519_comm cs)).
    rewrite <- !app_assoc, (client_exchange_ok key secret cs dk ct kem proof (frame s2c 0 SERVER_CONFIRM ++ rest) (mkConn _ _ _ _ _)
      eq_refl eq_refl Hct Hdh' Hdec Hsig).
    rewrite (x25519_comm cs). fold shared context. unfold from_hybrid_keys. rewrite Hk1. unfold VerifyingKey_from_bytes.
    fold (verifying_key key). rewrite (bool_decide_false (verifying_key key = _)) by done.
    by rewrite (client_confirm_ok _ rest) by done.
  - unfold server_handshake, server_handshake_hybrid.
    rewrite <- app_assoc, (server_exchange_ok key secret kem_rng cs dk ct kem proof (frame c2s 0 CLIENT_CONFIRM ++ rest) (mkConn _ _ _ _ _)
      eq_refl eq_refl Hdh Henc Hsig).
    fold shared context. unfold from_hybrid_keys. rewrite Hk2. rewrite (server_confirm_ok _ rest) by done.
    unfold sent, received, set_counters, set_stream. cbn [ts_stream cn_in cn_out cn_dry cn_fault cn_room app]. by rewrite <- app_assoc.
  - apply is_bytes_app; [by apply response_bytes|]. apply is_bytes_app; [by eapply hybrid_sign_bytes|apply frame_bytes, str_bytes].
Qed.

Lemma transport_agrees (key : HybridSigningKey) (cs dk secret kem_rng : bytes) (dry fault : IoError) :
  verifying_key key <> replicate 32 0 -> x25519_dh secret (x25519_public cs) <> replicate 32 0 ->
  exists up down client server,
    client_handshake (Some (verifying_key key)) cs dk (mkConn down dry [] None fault) = Ok client /\
    server_handshake (Some key) secret kem_rng (mkConn up dry [] None fault) = Ok server /\
    ts_stream client = mkConn [] dry up None fault /\ ts_stream server = mkConn [] dry down None fault /\
    ts_send_key client = ts_recv_key server /\ ts_recv_key client = ts_send_key server /\
    (ts_send_counter client, ts_recv_counter client, ts_send_counter server, ts_recv_counter server) = (1, 1, 1, 1) /\
    ts_peer_verifying_key client = Some (verifying_key key) /\ ts_poisoned client = false /\ ts_poisoned server = false /\ is_bytes down.
Proof.
  intros Hpin Hdh. destruct (transport_meets key cs dk secret kem_rng dry fault Hpin Hdh) as (up & down & c2s & s2c & Hc & Hs & Hb).
  specialize (Hc []). specialize (Hs []). rewrite app_nil_r in Hc, Hs. exists up, down. by do 2 eexists.
Qed.

(** An honest client and authority agree. A client that pins the identity
    of the authority and the authority itself, each fed with what the other
    puts on the wire, both finish their handshake: the client has the
    authority's key on record, the key each sends with is the one the other
    receives with, the counters are in step and nothing is left over. *)
Theorem transport_agreement (key : HybridSigningKey) (cs dk secret kem_rng : bytes) (dry fault : IoError) :
  verifying_key key <> replicate 32 0 -> x25519_dh secret (x25519_public cs) <> replicate 32 0 ->
  exists up down client server,
    client_handshake (Some (verifying_key key)) cs dk (mkConn down dry [] None fault) = Ok client /\
    server_handshake (Some key) secret kem_rng (mkConn up dry [] None fault) = Ok server /\
    ts_stream client = mkConn [] dry up None fault /\ ts_stream server = mkConn [] dry down None fault /\
    ts_send_key client = ts_recv_key server /\ ts_recv_key client = ts_send_key server /\
    (ts_send_counter client, ts_recv_counter client, ts_send_counter server, ts_recv_counter server) = (1, 1, 1, 1) /\
    ts_peer_verifying_key client = Some (verifying_key key) /\ ts_poisoned client = false /\ ts_poisoned server = false.
Proof.
  intros Hpin Hdh. destruct (transport_agrees key cs dk secret kem_rng dry fault Hpin Hdh) as (up & down & client & server & Hrun).
  exists up, down, client, server. repeat (destruct Hrun as [? Hrun]). done.
Qed.

(** *** Every call comes back *)
Lemma total_of_result {S A} (r : result IoError A) : total (@of_result S A r).
Proof. by destruct r. Qed.
Hint Resolve total_of_result : keeps.

Lemma total_session_op op s : (session_op op s).2 <> Err Panics.
Proof.
  destruct op; cbn [session_op]; revert s; apply (total_bind (S := SecureTransportSession)); try done; apply total_guarded; auto with keeps.
  - unfold write_document_inner. auto with keeps.
  - apply total_read_document.
Qed.

Lemma total_client_exchange pinned secret kem_secret : total (client_exchange pinned secret kem_secret).
Proof. unfold client_exchange. repeat (apply total_bind; [auto with keeps|intros ?]). done. Qed.

Lemma total_server_exchange key secret kem_rng : total (server_exchange key secret kem_rng).
Proof.
  unfold server_exchange. repeat (apply total_bind; [auto with keeps|intros ?]).
  match goal with |- context [let '(_, _) := ?x in _] => destruct x end.
  repeat (apply total_bind; [auto with keeps|intros ?]). done.
Qed.

Lemma total_write_guarded payload : total (write_frame payload).
Proof. apply total_guarded. auto with keeps. Qed.
Lemma total_read_guarded : total read_frame.
Proof. apply total_guarded. auto with keeps. Qed.
Hint Resolve total_write_guarded total_read_guarded : keeps.

Lemma from_hybrid_keys_returns shared client context peer stream : from_hybrid_keys shared client context peer stream <> Err Panics.
Proof.
  unfold from_hybrid_keys. destruct (derive_transport_ok shared context) as (c2s & s2c & Hk1 & Hk2).
  destruct client; rewrite ?Hk1, ?Hk2; (destruct peer; [|done]); by destruct (VerifyingKey_from_bytes _).
Qed.

(** C27: every call on the directory transport comes back. Whatever the peer
    sends and wherever the socket breaks, each operation of a session and each
    handshake ends with a value or an I/O error: the reading loop never needs
    more frames than it is given and no key derivation panics. *)
Theorem transport_returns :
  (forall op s, (session_op op s).2 <> Err Panics) /\
  (forall pinned secret kem_secret stream, client_handshake pinned secret kem_secret stream <> Err Panics) /\
  (forall key secret kem_rng stream, server_handshake key secret kem_rng stream <> Err Panics).
Proof.
  split_and!; [exact total_session_op| |].
  - intros [pinned|] secret kem_secret stream; [|done]. cbn [client_handshake]. unfold client_handshake_hybrid_pin.
    destruct (bool_decide _); [done|]. pose proof (total_client_exchange pinned secret kem_secret stream) as Ht.
    destruct (client_exchange _ _ _ _) as [c [[[shared context] identity]|]]; [|cbn in Ht; congruence].
    pose proof (from_hybrid_keys_returns shared true context (Some identity) c) as Hk.
    destruct (from_hybrid_keys _ _ _ _ _) as [s|]; [|congruence].
    assert (Hc : total client_confirm) by (unfold client_confirm; auto with keeps). specialize (Hc s).
    destruct (client_confirm s) as [? []]; [done|cbn in Hc; congruence].
  - intros [key|] secret kem_rng stream; [|done]. cbn [server_handshake]. unfold server_handshake_hybrid.
    pose proof (total_server_exchange key secret kem_rng stream) as Ht.
    destruct (server_exchange _ _ _ _) as [c [[shared context]|]]; [|cbn in Ht; congruence].
    pose proof (from_hybrid_keys_returns shared false context None c) as Hk.
    destruct (from_hybrid_keys _ _ _ _ _) as [s|]; [|congruence].
    assert (Hc : total server_confirm) by (unfold server_confirm; auto with keeps). specialize (Hc s).
    destruct (server_confirm s) as [? []]; [done|cbn in Hc; congruence].
Qed.

(** *** What an accepted handshake shows *)
Lemma read_exact_inv n c c' b :
  read_exact n c = (c', Ok b) -> cn_in c = b ++ cn_in c' /\ cn_out c' = cn_out c /\ length b = n.
Proof.
  unfold read_exact. destruct (Nat.ltb_spec (length (cn_in c)) n) as [|Hn]; [done|]. intros [= <- <-]. cbn [cn_in cn_out].
  by rewrite take_drop, length_take_le.
Qed.

Lemma write_all_inv b c c' r : write_all b c = (c', Ok r) -> cn_in c' = cn_in c /\ cn_out c' = cn_out c ++ b.
Proof.
  unfold write_all. destruct (cn_room c) as [room|]; [|by intros [= <- <-]]. destruct (_ <=? _)%nat; [|done]. by intros [= <- <-].
Qed.

Lemma bind_inv {S A B} (m : M S A) (f : A -> M S B) s s' b :
  bind m f s = (s', Ok b) -> exists s1 a, m s = (s1, Ok a) /\ f a s1 = (s', Ok b).
Proof. unfold bind. destruct (m s) as [s1 [a|]]; [eauto|done]. Qed.

Lemma ensure_inv {S} b e (s s' : S) u : ensure b e s = (s', Ok u) -> b = true /\ s' = s.
Proof. unfold ensure. destruct b; [by intros [= <- _]|done]. Qed.

Lemma of_result_inv {S A} (r : result IoError A) (s s' : S) a : of_result r s = (s', Ok a) -> r = Ok a /\ s' = s.
Proof. unfold of_result. destruct r; [by intros [= <- <-]|done]. Qed.

Lemma some_or_inv {S A} (o : option A) e (s s' : S) a : some_or o e s = (s', Ok a) -> o = Some a /\ s' = s.
Proof. unfold some_or. destruct o; [by intros [= <- <-]|done]. Qed.

(** What a client found on the wire before it derived keys. *)
Definition accepted (pinned secret kem_secret : bytes) (response proof : bytes) (key : HybridPublicKey) (kem : bytes) : Prop :=
  take 8 response = TRANSPORT_VERSION /\ hybrid_decode (drop (Z.to_nat 1128) response) = Ok key /\ fingerprint key = pinned /\
  hybrid_verify key TRANSPORT_PURPOSE (hybrid_transcript (hello_of secret kem_secret) response) proof = Ok tt /\
  x25519_dh secret (slice 8 40 response) <> replicate 32 0 /\
  mlkem_decapsulate kem_secret (slice 40 (Z.to_nat 1128) response) = Some kem.

Lemma client_exchange_inv pinned secret kem_secret c c' shared context key :
  client_exchange pinned secret kem_secret c = (c', Ok (shared, context, key)) ->
  exists response proof kem, accepted pinned secret kem_secret response proof key kem /\
    cn_in c = response ++ proof ++ cn_in c' /\ cn_out c' = cn_out c ++ hello_of secret kem_secret /\
    shared = x25519_dh secret (slice 8 40 response) ++ kem /\
    context = hybrid_transcript (hello_of secret kem_secret) response ++ proof.
Proof.
  unfold client_exchange. fold (hello_of secret kem_secret). intros E.
  apply bind_inv in E as (c1 & ? & Ew & E). apply write_all_inv in Ew as [I1 O1].
  apply bind_inv in E as (c2 & response & Er & E). apply read_exact_inv in Er as (I2 & O2 & _).
  apply bind_inv in E as (c3 & ? & Ev & E). apply ensure_inv in Ev as [Hv ->].
  apply bind_inv in E as (c4 & identity & Ed & E). apply of_result_inv in Ed as [Hd ->].
  apply bind_inv in E as (c5 & ? & Ef & E). apply ensure_inv in Ef as [Hf ->].
  apply bind_inv in E as (c6 & proof & Ep & E). apply read_exact_inv in Ep as (I3 & O3 & _).
  apply bind_inv in E as (c7 & [] & Es & E). apply of_result_inv in Es as [Hs ->].
  apply bind_inv in E as (c8 & ? & Eh & E). apply ensure_inv in Eh as [Hh ->].
  apply bind_inv in E as (c9 & kem & Ek & E). apply some_or_inv in Ek as [Hk ->].
  unfold ret in E. injection E as <- <- <- <-. reflect_bools.
  exists response, proof, kem. unfold accepted. split_and!; try done.
  - by rewrite <- I1, I2, I3.
  - by rewrite O3, O2, O1.
Qed.

Lemma write_frame_inv payload s s' :
  write_frame payload s = (s', Ok tt) ->
  cn_in (ts_stream s') = cn_in (ts_stream s) /\
  cn_out (ts_stream s') = cn_out (ts_stream s) ++ frame (ts_send_key s) (ts_send_counter s) payload /\
  ts_recv_key s' = ts_recv_key s /\ ts_send_key s' = ts_send_key s /\ ts_recv_counter s' = ts_recv_counter s /\
  ts_peer_hybrid_key s' = ts_peer_hybrid_key s.
Proof.
  unfold write_frame, guarded. destruct (ts_poisoned s); [done|].
  destruct (write_frame_inner payload (set_poisoned s true)) as [s1 [[]|]] eqn:E; [|done]. intros [= <-].
  unfold write_frame_inner in E. apply bind_inv in E as (? & ? & E1 & E). apply ensure_inv in E1 as [_ ->].
  apply bind_inv in E as (? & counter & E1 & E). injection E1 as <- <-.
  apply bind_inv in E as (? & next & E1 & E). apply some_or_inv in E1 as [_ ->].
  apply bind_inv in E as (? & ? & E1 & E). injection E1 as <- <-.
  apply bind_inv in E as (? & ? & E1 & E). injection E1 as <- <-. unfold frame.
  cbn [set_poisoned set_counters ts_send_key ts_send_counter ts_recv_counter] in E.
  destruct (aead_seal _ _ _ _) as [text tag]. apply bind_inv in E as (s2 & ? & E1 & E). unfold on_stream in E1, E.
  cbn [set_poisoned set_counters ts_stream] in E1.
  destruct (write_all _ (ts_stream s)) as [c1 [|]] eqn:W1; [|done]. injection E1 as <- _. cbn [set_stream ts_stream] in E.
  destruct (write_all _ c1) as [c2 [|]] eqn:W2; [|done]. injection E as <- _.
  apply write_all_inv in W1 as [I1 O1]. apply write_all_inv in W2 as [I2 O2].
  cbn [set_poisoned set_stream set_counters ts_stream ts_recv_key ts_send_key ts_recv_counter ts_peer_hybrid_key].
  rewrite I2, O2, I1, O1, <- app_assoc. done.
Qed.

(** C25: a client that accepts talks to the authority it pinned. When the
    handshake succeeds, whatever arrived on the socket, then it is a response,
    a proof and a confirmation in this order: the response carries an identity
    whose fingerprint is the pin, that identity signed the transcript of this
    very hello and response, the shared secrets come from this response and are
    contributory, both channel keys are derived from them and from the signed
    transcript with its proof, and the peer proved knowledge of them by the
    first frame under the receiving key. What the client sent is the hello and
    its own confirmation. *)
Theorem transport_authentic (pinned cs dk : bytes) (stream : Conn) (client : SecureTransportSession) :
  is_bytes (cn_in stream) -> client_handshake (Some pinned) cs dk stream = Ok client ->
  exists response proof key kem rest,
    accepted pinned cs dk response proof key kem /\ ts_peer_hybrid_key client = Some key /\
    derive_transport_keys (x25519_dh cs (slice 8 40 response) ++ kem) true (hybrid_transcript (hello_of cs dk) response ++ proof) =
      Some (ts_send_key client, ts_recv_key client) /\
    cn_in stream = response ++ proof ++ frame (ts_recv_key client) 0 SERVER_CONFIRM ++ rest /\
    cn_out (ts_stream client) = cn_out stream ++ hello_of cs dk ++ frame (ts_send_key client) 0 CLIENT_CONFIRM.
Proof.
  intros Hb. cbn [client_handshake]. unfold client_handshake_hybrid_pin. destruct (bool_decide _); [done|].
  destruct (client_exchange pinned cs dk stream) as [c1 [[[shared context] key]|]] eqn:Ex; [|done].
  apply client_exchange_inv in Ex as (response & proof & kem & Hacc & Hin & Hout & -> & ->).
  assert (Hb1 : is_bytes (cn_in c1)) by (rewrite Hin in Hb; by apply Forall_app in Hb as [_ [_ ?]%Forall_app]).
  unfold from_hybrid_keys. destruct (derive_transport_keys _ _ _) as [[send recv]|] eqn:Ek; [|done].
  destruct (VerifyingKey_from_bytes _) as [pin|]; [|done]. intros E.
  match type of E with match client_confirm ?s with _ => _ end = _ => destruct (client_confirm s) as [s1 [u|]] eqn:Ec; [|done] end.
  injection E as <-. unfold client_confirm in Ec.
  apply bind_inv in Ec as (s2 & [] & Ew & Ec). apply bind_inv in Ec as (s3 & f & Er & Ec). apply ensure_inv in Ec as [Hf ->].
  apply bool_decide_eq_true in Hf as ->. apply write_frame_inv in Ew as (W1 & W2 & W3 & W4 & W5 & W6).
  cbn [ts_stream ts_send_key ts_recv_key ts_recv_counter ts_send_counter ts_peer_hybrid_key] in *. unfold read_frame, guarded in Er.
  destruct (ts_poisoned s2); [done|].
  destruct (read_frame_inner _) as [s4 [p|]] eqn:Eri; [|done]. injection Er as <- ->.
  apply read_frame_inner_inv in Eri as (rest & R1 & _ & _ & _ & _ & ->); [|cbn [set_poisoned ts_stream]; by rewrite W1].
  cbn [set_poisoned ts_stream ts_recv_key ts_recv_counter] in R1. rewrite W1, W3, W5 in R1.
  exists response, proof, key, kem, rest.
  cbn [received set_poisoned set_counters set_stream ts_peer_hybrid_key ts_send_key ts_recv_key ts_stream cn_out].
  rewrite W6, W4, W3. split_and!; try done.
  - by rewrite Hin, R1.
  - by rewrite W2, Hout, <- app_assoc.
Qed.
End Agreement.

(** ** Witnesses *)
#[local] Existing Instance toy_primitives.
#[local] Existing Instance toy_laws.
#[local] Existing Instance toy_identity.
#[local] Existing Instance toy_identity_laws.
#[local] Existing Instance toy_kex.
#[local] Existing Instance toy_kex_laws.

Definition eof : IoError := mkIoError UnexpectedEof "early eof".
Definition toy_channel (arrives : bytes) : SecureTransportSession :=
  mkSession (mkConn arrives eof [] None eof) [7] [7] 0 0 None None false.
Definition toy_documents : list bytes := [str "consensus"; str "delta"].

Lemma document_channel_witness :
  exists w' wire, write_documents toy_documents (toy_channel []) = (w', Ok tt) /\ cn_out (ts_stream w') = wire /\
    exists s', read_documents 2 (toy_channel (wire ++ [1; 2; 3])) = (s', Ok toy_documents).
Proof.
  destruct (write_documents_ok toy_documents (toy_channel [])) as (wire & n & Hw & Hb); try reflexivity.
  { vm_compute. discriminate. }
  { repeat constructor; vm_compute; done. }
  { apply Forall_cons. split; [apply str_bytes|]. apply Forall_cons. split; [apply str_bytes|constructor]. }
  exists (sent (toy_channel []) wire n), wire. split; [exact Hw|]. split; [reflexivity|].
  apply (document_channel toy_documents (toy_channel []) (toy_channel (wire ++ [1; 2; 3]))); try reflexivity.
  - apply is_bytes_app; [exact Hb|]. repeat constructor; vm_compute; done.
  - vm_compute. discriminate.
  - exists (sent (toy_channel []) wire n), wire, [1; 2; 3]. split; [exact Hw|]. split; reflexivity.
Defined.

Lemma session_fails_closed_witness :
  exists s', session_op OpReadFrame (toy_channel [0; 0]) = (s', Err (Io eof)) /\
    session_ops [OpWriteFrame [1]; OpReadDocument] s' = (s', [Err (Io poisoned_error); Err (Io poisoned_error)]).
Proof.
  eexists. split; [reflexivity|].
  apply (session_fails_closed OpReadFrame [OpWriteFrame [1]; OpReadDocument] (toy_channel [0; 0]) _ (Io eof)). reflexivity.
Defined.

Lemma transport_agreement_witness :
  exists up down client server,
    client_handshake (Some (verifying_key toy_signer)) [5] [1] (mkConn down eof [] None eof) = Ok client /\
    server_handshake (Some toy_signer) [9] [1] (mkConn up eof [] None eof) = Ok server /\
    ts_send_key client = ts_recv_key server.
Proof.
  destruct (transport_agreement toy_signer [5] [1] [9] [1] eof eof) as (up & down & client & server & H1 & H2 & _ & _ & H3 & _).
  - vm_compute. discriminate.
  - vm_compute. discriminate.
  - exists up, down, client, server. exact (conj H1 (conj H2 H3)).
Defined.

Lemma transport_authentic_witness :
  exists stream client response proof key kem,
    client_handshake (Some (verifying_key toy_signer)) [5] [1] stream = Ok client /\
    accepted (verifying_key toy_signer) [5] [1] response proof key kem.
Proof.
  destruct (transport_agrees toy_signer [5] [1] [9] [1] eof eof) as (up & down & client & server & Hc & _ & _ & _ & _ & _ & _ & _ & _ & _ & Hb).
  { vm_compute. discriminate. }
  { vm_compute. discriminate. }
  destruct (transport_authentic (verifying_key toy_signer) [5] [1] (mkConn down eof [] None eof) client Hb Hc) as (response & proof & key & kem & rest & Ha & _).
  exists (mkConn down eof [] None eof), client, response, proof, key, kem. exact (conj Hc Ha).
Defined.

Lemma transport_returns_witness :
  client_handshake (Some (verifying_key toy_signer)) [5] [1] (mkConn (replicate 100 3) eof [] (Some 50%nat) eof) <> Err Panics.
Proof.
  destruct transport_returns as (_ & Hc & _).
  exact (Hc (Some (verifying_key toy_signer)) [5] [1] (mkConn (replicate 100 3) eof [] (Some 50%nat) eof)).
Defined.
