(* ===== verification/Guard.v ===== *)
(** * Guarded sockets and the kill switch (src/core/state_machine.rs, src/kernel/killswitch.rs)

    [GuardedSocket] is indexed by its typestate, a phantom parameter as in the
    code: every transition consumes a socket of one type and yields one of
    another, and only the active type reads or writes. A kill switch is a flag
    shared by any number of sockets and by a controller that counts failures;
    flags live in a shared store. [exec] runs a program of calls on a store of
    sockets, in which [into_inner] gives a stream back to the program, which may
    then use it without any socket. A call on a socket of the wrong type, on a
    consumed socket, or with a stream that another socket owns is no program of
    the source language: [exec] is undefined there. A call is one step: the load
    of the flag and the operation it guards are not interleaved with other calls,
    so a poll on another thread that has read the flag just before it is set
    counts as the earlier one. *)
From S2P Require Import Prelude Identity.

(** ** The typestate *)
Inductive SocketState := Uninitialized | Verifying | ActiveGuarded | DroppedFailClosed.

Definition state_name (s : SocketState) : string :=
  match s with
  | Uninitialized => "UNINITIALIZED"
  | Verifying => "VERIFYING"
  | ActiveGuarded => "ACTIVE_GUARDED"
  | DroppedFailClosed => "DROPPED_FAIL_CLOSED"
  end.

Inductive GuardError := Transition (msg : string) | KillSwitchTripped | GuardIo (e : IoError).

Record GuardedSocket (S : SocketState) := mkGuarded { gs_stream : option nat; gs_kill : nat }.
Arguments mkGuarded {S} _ _.
Arguments gs_stream {S} _.
Arguments gs_kill {S} _.

(** The flags that are set. *)
Notation Flags := (gset nat) (only parsing).

Definition GuardedSocket_new (stream kill_switch : nat) : GuardedSocket Uninitialized := mkGuarded (Some stream) kill_switch.

Definition begin_verification (self : GuardedSocket Uninitialized) : GuardedSocket Verifying :=
  mkGuarded (gs_stream self) (gs_kill self).

Definition mark_verified (self : GuardedSocket Verifying) : GuardedSocket ActiveGuarded :=
  mkGuarded (gs_stream self) (gs_kill self).

Definition fail_verification (flags : Flags) (self : GuardedSocket Verifying) : Flags * GuardedSocket DroppedFailClosed :=
  ({[gs_kill self]} ∪ flags, mkGuarded (gs_stream self) (gs_kill self)).

Definition trip_kill_switch (flags : Flags) (self : GuardedSocket ActiveGuarded) : Flags * GuardedSocket DroppedFailClosed :=
  ({[gs_kill self]} ∪ flags, mkGuarded (gs_stream self) (gs_kill self)).

Definition into_inner {S} (self : GuardedSocket S) : option nat := gs_stream self.

Definition is_kill_switch_tripped {S} (flags : Flags) (self : GuardedSocket S) : bool := bool_decide (gs_kill self ∈ flags).

(** A poll says which stream it touched; [inner] is what that stream answers. *)
Definition poll_guarded {A} (refused : IoError) (closed : result IoError A) (flags : Flags) (self : GuardedSocket ActiveGuarded)
    (inner : Poll (result IoError A)) : option nat * Poll (result IoError A) :=
  if bool_decide (gs_kill self ∈ flags) then (None, Ready (Err refused))
  else match gs_stream self with Some stream => (Some stream, inner) | None => (None, Ready closed) end.

Definition aborted (msg : string) : IoError := mkIoError ConnectionAborted msg.
Definition io_refused : IoError := aborted "Kill switch tripped: socket I/O refused".
Definition io_dropped : IoError := aborted "Socket dropped fail-closed".

Definition poll_read := poll_guarded (A := bytes) io_refused (Err io_dropped).
Definition poll_write := poll_guarded (A := nat) io_refused (Err io_dropped).
Definition poll_flush := poll_guarded (A := unit) (aborted "Kill switch active") (Ok tt).
Definition poll_shutdown := poll_guarded (A := unit) (aborted "Kill switch active") (Ok tt).

(** The future behind [self.write(buf).await]: it is polled until it is ready,
    with the flags as they are at each poll. *)
Fixpoint await_polls {A} (poll : Flags -> Poll (result IoError A) -> option nat * Poll (result IoError A))
    (polls : list (Flags * Poll (result IoError A))) : list nat * option (result GuardError A) :=
  match polls with
  | [] => ([], None)
  | (flags, inner) :: rest =>
      let '(touched, answer) := poll flags inner in
      match answer with
      | Ready (Ok a) => (option_list touched, Some (Ok a))
      | Ready (Err e) => (option_list touched, Some (Err (GuardIo e)))
      | Pending => let '(more, r) := await_polls poll rest in (option_list touched ++ more, r)
      end
  end.

Definition send_guarded (flags : Flags) (self : GuardedSocket ActiveGuarded) (polls : list (Flags * Poll (result IoError nat)))
    : list nat * option (result GuardError nat) :=
  if bool_decide (gs_kill self ∈ flags) then ([], Some (Err KillSwitchTripped))
  else await_polls (fun flags => poll_write flags self) polls.

Definition recv_guarded (flags : Flags) (self : GuardedSocket ActiveGuarded) (polls : list (Flags * Poll (result IoError bytes)))
    : list nat * option (result GuardError bytes) :=
  if bool_decide (gs_kill self ∈ flags) then ([], Some (Err KillSwitchTripped))
  else await_polls (fun flags => poll_read flags self) polls.

(** ** The controller *)

(** Instants and durations in nanoseconds. *)
Record KillSwitchController := mkController {
  ks_tripped : nat;
  ks_notifier : bool;
  ks_failures : list Z;
  ks_threshold : Z;
  ks_window : Z;
}.

Definition with_threshold (flag : nat) (trip_threshold window : Z) : KillSwitchController :=
  mkController flag false [] trip_threshold window.

Definition KillSwitchController_new (flag : nat) : KillSwitchController := with_threshold flag 5 1000000000.

Definition is_tripped (flags : Flags) (self : KillSwitchController) : bool := bool_decide (ks_tripped self ∈ flags).

(** [duration_since] saturates at zero. *)
Definition duration_since (now t : Z) : Z := Z.max 0 (now - t).

Definition trip (now : Z) (flags : Flags) (self : KillSwitchController) : Flags * KillSwitchController :=
  let failures := filter (fun t => duration_since now t < ks_window self) (ks_failures self) ++ [now] in
  let self := mkController (ks_tripped self) (ks_notifier self) failures (ks_threshold self) (ks_window self) in
  if ks_threshold self <=? Z.of_nat (length failures) then
    if bool_decide (ks_tripped self ∈ flags) then (flags, self)
    else ({[ks_tripped self]} ∪ flags, mkController (ks_tripped self) true failures (ks_threshold self) (ks_window self))
  else (flags, self).

Definition reset (flags : Flags) (self : KillSwitchController) : Flags * KillSwitchController :=
  (flags ∖ {[ks_tripped self]}, mkController (ks_tripped self) false [] (ks_threshold self) (ks_window self)).

Inductive FailClosedGuarantee := KernelLevel | ApplicationLayerOnly.

Definition check_fail_closed_guarantee (is_linux strict_fail_closed : bool) : result string FailClosedGuarantee :=
  if is_linux then Ok KernelLevel
  else if strict_fail_closed
  then Err "Strict fail-closed enforcement failed: kernel-level nftables/netns isolation is not available on this platform."%string
  else Ok ApplicationLayerOnly.

(** ** Programs *)
Inductive AnySocket := Any (S : SocketState) (s : GuardedSocket S).

Record World := mkWorld {
  w_flags : Flags;
  w_sockets : gmap nat AnySocket;
  w_controller : KillSwitchController;
}.

Inductive Call :=
| CNew (h stream kill : nat)
| CBegin (h : nat)
| CVerified (h : nat)
| CFail (h : nat)
| CTrip (h : nat)
| CInner (h : nat)
| CRaw (stream : nat)
| CSend (h : nat) (inner : Poll (result IoError nat))
| CRecv (h : nat) (inner : Poll (result IoError bytes))
| CRead (h : nat) (inner : Poll (result IoError bytes))
| CWrite (h : nat) (inner : Poll (result IoError nat))
| CFlush (h : nat) (inner : Poll (result IoError unit))
| CShutdown (h : nat) (inner : Poll (result IoError unit))
| CFailure (now : Z)
| CReset.

(** What can be seen of a run: sockets made of a stream and a flag, their
    verification, streams being touched through a socket, being taken out of it
    and being used without one, flags being set and cleared. *)
Inductive Seen :=
| SNew (stream kill : nat)
| SBegin (stream : nat)
| SVerified (stream : nat)
| STouched (stream kill : nat)
| STaken (stream : nat)
| SRaw (stream : nat)
| SSet (kill : nat)
| SCleared (kill : nat).

#[global] Instance Seen_eq_dec : EqDecision Seen.
Proof. solve_decision. Defined.

Definition any_stream (s : AnySocket) : option nat := match s with Any _ s => gs_stream s end.
Definition any_kill (s : AnySocket) : nat := match s with Any _ s => gs_kill s end.

Definition owned (w : World) (stream : nat) : bool :=
  existsb (fun kv => bool_decide (any_stream kv.2 = Some stream)) (map_to_list (w_sockets w)).

(** A socket of the type the call needs. *)
Definition as_state (S : SocketState) (s : AnySocket) : option (GuardedSocket S) :=
  match s with
  | Any S' s =>
      match S as S0, S' as S1 return GuardedSocket S1 -> option (GuardedSocket S0) with
      | Uninitialized, Uninitialized | Verifying, Verifying | ActiveGuarded, ActiveGuarded
      | DroppedFailClosed, DroppedFailClosed => Some
      | _, _ => fun _ => None
      end s
  end.

Definition handle (w : World) (h : nat) (S : SocketState) : option (GuardedSocket S) :=
  match w_sockets w !! h with Some s => as_state S s | None => None end.

Definition put (w : World) (h : nat) {S} (s : GuardedSocket S) : World :=
  mkWorld (w_flags w) (<[h := Any S s]> (w_sockets w)) (w_controller w).
Definition set_flags (w : World) (flags : Flags) : World := mkWorld flags (w_sockets w) (w_controller w).

Definition stream_event (f : nat -> Seen) (stream : option nat) : list Seen := f <$> option_list stream.

Definition exec_poll {A} (w : World) (h : nat) (poll : Flags -> GuardedSocket ActiveGuarded -> Poll (result IoError A) -> option nat * Poll (result IoError A))
    (inner : Poll (result IoError A)) : option (World * list Seen) :=
  match handle w h ActiveGuarded with
  | Some s => Some (w, stream_event (fun k => STouched k (gs_kill s)) (poll (w_flags w) s inner).1)
  | None => None
  end.

(** [send_guarded] and [recv_guarded] up to their first poll; the further polls
    of a pending one are those of the socket. *)
Definition exec_guarded {A} (w : World) (h : nat)
    (call : Flags -> GuardedSocket ActiveGuarded -> list (Flags * Poll (result IoError A)) -> list nat * option (result GuardError A))
    (inner : Poll (result IoError A)) : option (World * list Seen) :=
  match handle w h ActiveGuarded with
  | Some s => Some (w, (fun k => STouched k (gs_kill s)) <$> (call (w_flags w) s [(w_flags w, inner)]).1)
  | None => None
  end.

Definition exec (w : World) (c : Call) : option (World * list Seen) :=
  match c with
  | CNew h stream kill =>
      if bool_decide (is_Some (w_sockets w !! h)) || owned w stream then None
      else Some (put w h (GuardedSocket_new stream kill), [SNew stream kill])
  | CBegin h =>
      match handle w h Uninitialized with
      | Some s => Some (put w h (begin_verification s), stream_event SBegin (gs_stream s))
      | None => None
      end
  | CVerified h =>
      match handle w h Verifying with
      | Some s => Some (put w h (mark_verified s), stream_event SVerified (gs_stream s))
      | None => None
      end
  | CFail h =>
      match handle w h Verifying with
      | Some s => let '(flags, s') := fail_verification (w_flags w) s in Some (set_flags (put w h s') flags, [SSet (gs_kill s)])
      | None => None
      end
  | CTrip h =>
      match handle w h ActiveGuarded with
      | Some s => let '(flags, s') := trip_kill_switch (w_flags w) s in Some (set_flags (put w h s') flags, [SSet (gs_kill s)])
      | None => None
      end
  | CInner h =>
      match w_sockets w !! h with
      | Some (Any _ s) => Some (mkWorld (w_flags w) (delete h (w_sockets w)) (w_controller w), stream_event STaken (into_inner s))
      | None => None
      end
  | CRaw stream => if owned w stream then None else Some (w, [SRaw stream])
  | CSend h inner => exec_guarded w h send_guarded inner
  | CRecv h inner => exec_guarded w h recv_guarded inner
  | CRead h inner => exec_poll w h poll_read inner
  | CWrite h inner => exec_poll w h poll_write inner
  | CFlush h inner => exec_poll w h poll_flush inner
  | CShutdown h inner => exec_poll w h poll_shutdown inner
  | CFailure now =>
      let '(flags, ctl) := trip now (w_flags w) (w_controller w) in
      Some (mkWorld flags (w_sockets w) ctl, if is_tripped flags ctl then [SSet (ks_tripped ctl)] else [])
  | CReset =>
      let '(flags, ctl) := reset (w_flags w) (w_controller w) in
      Some (mkWorld flags (w_sockets w) ctl, [SCleared (ks_tripped ctl)])
  end.

Fixpoint exec_all (w : World) (calls : list Call) : option (World * list Seen) :=
  match calls with
  | [] => Some (w, [])
  | c :: calls =>
      match exec w c with
      | None => None
      | Some (w, seen) =>
          match exec_all w calls with None => None | Some (w, more) => Some (w, seen ++ more) end
      end
  end.

Definition start (ctl : KillSwitchController) : World := mkWorld ∅ ∅ ctl.

(** ** What a history shows *)

(** Neither made into another socket nor taken out. *)
Definition spares (k : nat) (t : list Seen) : Prop := (forall f, SNew k f ∉ t) /\ STaken k ∉ t.

(** A socket was made of stream [k] and flag [f], and [b] is what came after. *)
Definition since (k f : nat) (t b : list Seen) : Prop := exists a, t = a ++ SNew k f :: b /\ spares k b.

(** Some socket still has the stream. *)
Definition held (k : nat) (t : list Seen) : Prop := exists a f b, t = a ++ SNew k f :: b /\ STaken k ∉ b.

Definition stage (k f : nat) (S : SocketState) (t : list Seen) : Prop :=
  exists b, since k f t b /\
    match S with
    | Uninitialized | DroppedFailClosed => True
    | Verifying => SBegin k ∈ b
    | ActiveGuarded => exists c d, b = c ++ d /\ SBegin k ∈ c /\ SVerified k ∈ d
    end.

(** The last change of the flag set it. *)
Definition is_set (f : nat) (t : list Seen) : Prop := exists a b, t = a ++ SSet f :: b /\ SCleared f ∉ b.

Lemma spares_app k t t' : spares k (t ++ t') <-> spares k t /\ spares k t'.
Proof. unfold spares. set_solver. Qed.

Lemma spares_one k e : (forall f, e <> SNew k f) -> e <> STaken k -> spares k [e].
Proof. unfold spares. set_solver. Qed.

Lemma since_app k f t b t' : since k f t b -> spares k t' -> since k f (t ++ t') (b ++ t').
Proof. intros (a & -> & Hb) Ht. exists a. split; [by rewrite <- app_assoc|by apply spares_app]. Qed.

Lemma stage_app k f S t t' : stage k f S t -> spares k t' -> stage k f S (t ++ t').
Proof.
  intros (b & Hs & Hb) Ht. exists (b ++ t'). split; [by apply since_app|]. destruct S; try done.
  - apply elem_of_app. by left.
  - destruct Hb as (c & d & -> & Hc & Hd). exists c, (d ++ t'). rewrite app_assoc, elem_of_app. auto.
Qed.

Lemma stage_dropped k f S t : stage k f S t -> stage k f DroppedFailClosed t.
Proof. intros (b & Hs & _). by exists b. Qed.

Lemma is_set_snoc f t e :
  is_set f (t ++ [e]) <-> e = SSet f \/ e <> SCleared f /\ is_set f t.
Proof.
  split.
  - intros (a & b & E & Hb). destruct b as [|x b _] using rev_ind.
    + apply app_inj_tail in E as [_ ->]. by left.
    + rewrite app_comm_cons, app_assoc in E. apply app_inj_tail in E as [-> ->]. right. rewrite elem_of_app, list_elem_of_singleton in Hb.
      split; [naive_solver|]. exists a, b. split; [done|]. naive_solver.
  - intros [->|[He (a & b & -> & Hb)]].
    + exists t, []. split; [done|]. apply not_elem_of_nil.
    + exists a, (b ++ [e]). rewrite <- app_assoc. split; [done|]. rewrite elem_of_app, list_elem_of_singleton. naive_solver.
Qed.

Lemma held_snoc k t e : held k (t ++ [e]) <-> (exists f, e = SNew k f) \/ e <> STaken k /\ held k t.
Proof.
  split.
  - intros (a & f & b & E & Hb). destruct b as [|x b _] using rev_ind.
    + apply app_inj_tail in E as [_ ->]. left. by exists f.
    + rewrite app_comm_cons, app_assoc in E. apply app_inj_tail in E as [-> ->]. right. rewrite elem_of_app, list_elem_of_singleton in Hb.
      split; [naive_solver|]. exists a, f, b. split; [done|]. naive_solver.
  - intros [[f ->]|[He (a & f & b & -> & Hb)]].
    + exists t, f, []. split; [done|]. apply not_elem_of_nil.
    + exists a, f, (b ++ [e]). rewrite <- app_assoc. split; [done|]. rewrite elem_of_app, list_elem_of_singleton. naive_solver.
Qed.

(** The streams the sockets have. *)
Definition streams (w : World) : gmap nat (option nat) := any_stream <$> w_sockets w.

Record tracks (w : World) (t : list Seen) : Prop := {
  tr_sockets : forall h S (s : GuardedSocket S), w_sockets w !! h = Some (Any S s) ->
    exists k, gs_stream s = Some k /\ stage k (gs_kill s) S t;
  tr_flags : forall f, f ∈ w_flags w <-> is_set f t;
  tr_unique : forall h1 h2 k, streams w !! h1 = Some (Some k) -> streams w !! h2 = Some (Some k) -> h1 = h2;
  tr_held : forall k, held k t -> exists h, streams w !! h = Some (Some k);
}.

(** One event that makes no socket and touches no flag. *)
Definition quiet (e : Seen) : Prop := match e with SBegin _ | SVerified _ | STouched _ _ | SRaw _ => True | _ => False end.

Lemma handle_inv w h S s : handle w h S = Some s -> w_sockets w !! h = Some (Any S s).
Proof.
  unfold handle. destruct (w_sockets w !! h) as [[S' s']|]; [|done]. by destruct S, S'; cbn; intros [= ->].
Qed.

(** An event that neither makes a socket nor takes its stream out. *)
Definition plain (e : Seen) : Prop := match e with SNew _ _ | STaken _ => False | _ => True end.

Lemma plain_spares k seen : Forall plain seen -> spares k seen.
Proof. intros Hp. rewrite Forall_forall in Hp. split; [intros f Hin|intros Hin]; exact (Hp _ Hin). Qed.

Lemma quiet_plain seen : Forall quiet seen -> Forall plain seen.
Proof. intros Hq. eapply Forall_impl; [exact Hq|]. by intros []. Qed.

Lemma held_plain k t seen : Forall plain seen -> held k (t ++ seen) -> held k t.
Proof.
  induction seen as [|e seen IH] using rev_ind; [by rewrite app_nil_r|]. rewrite Forall_app, Forall_singleton, app_assoc. intros [Hp He].
  rewrite held_snoc. intros [[f ->]|[_ ?]]; [done|by apply IH].
Qed.

Lemma quiet_flags t seen f : Forall quiet seen -> is_set f (t ++ seen) <-> is_set f t.
Proof.
  induction seen as [|e seen IH] using rev_ind; [by rewrite app_nil_r|]. rewrite Forall_app, Forall_singleton, app_assoc. intros [Hp He].
  rewrite is_set_snoc, IH by done. destruct e; try done; naive_solver.
Qed.

(** The streams stay where they are. *)
Lemma tracks_step w t w' seen :
  tracks w t -> Forall plain seen -> streams w' = streams w ->
  (forall h S (s : GuardedSocket S), w_sockets w' !! h = Some (Any S s) -> exists k, gs_stream s = Some k /\ stage k (gs_kill s) S (t ++ seen)) ->
  (forall f, f ∈ w_flags w' <-> is_set f (t ++ seen)) -> tracks w' (t ++ seen).
Proof.
  intros [_ _ Hu Hh] Hp Hs Hk Hf. split; [done|done|by rewrite Hs|]. rewrite Hs. intros k Hin. apply Hh. by apply held_plain in Hin.
Qed.

Lemma tracks_keep w t seen h S (s : GuardedSocket S) :
  tracks w t -> Forall plain seen -> w_sockets w !! h = Some (Any S s) -> exists k, gs_stream s = Some k /\ stage k (gs_kill s) S (t ++ seen).
Proof. intros [Hs _ _ _] Hp Hh. destruct (Hs h S s Hh) as (k & Ek & Hst). exists k. split; [done|]. by apply stage_app, plain_spares. Qed.

Lemma streams_put w h S S' (s : GuardedSocket S) (s' : GuardedSocket S') :
  w_sockets w !! h = Some (Any S s) -> gs_stream s' = gs_stream s -> streams (put w h s') = streams w.
Proof.
  intros Hh Hs. unfold streams. cbn. rewrite fmap_insert. apply insert_id. rewrite lookup_fmap, Hh. cbn. by rewrite Hs.
Qed.

(** Socket [h] moves on; every other one keeps what it had. *)
Lemma tracks_put w t h S S' (s : GuardedSocket S) (s' : GuardedSocket S') seen :
  tracks w t -> w_sockets w !! h = Some (Any S s) -> gs_stream s' = gs_stream s -> Forall plain seen ->
  (forall k, gs_stream s = Some k -> stage k (gs_kill s') S' (t ++ seen)) ->
  forall h2 S2 (s2 : GuardedSocket S2), <[h := Any S' s']> (w_sockets w) !! h2 = Some (Any S2 s2) ->
    exists k, gs_stream s2 = Some k /\ stage k (gs_kill s2) S2 (t ++ seen).
Proof.
  intros Ht Hh Hstr Hn Hk h2 S2 s2. destruct (decide (h2 = h)) as [->|Hne].
  - rewrite lookup_insert_eq. intros E. assert (E2 : Any S' s' = Any S2 s2) by congruence. clear E.
    destruct (tr_sockets _ _ Ht h S s Hh) as (k & Ek & _). exists k.
    change (any_stream (Any S2 s2) = Some k /\ match Any S2 s2 with Any T u => stage k (gs_kill u) T (t ++ seen) end).
    rewrite <- E2. split; [by rewrite <- Ek|by apply Hk].
  - rewrite lookup_insert_ne by done. by apply tracks_keep.
Qed.

(** The call touches a stream only under a clear flag, after verification, and
    uses one directly only while no socket has it. *)
Definition justified (t seen : list Seen) : Prop :=
  (forall k f, STouched k f ∈ seen -> stage k f ActiveGuarded t /\ ~ is_set f t) /\ (forall k, SRaw k ∈ seen -> ~ held k t).

Lemma justified_none t seen : (forall k f, STouched k f ∉ seen) -> (forall k, SRaw k ∉ seen) -> justified t seen.
Proof. intros Hn Hr. split; [intros k f Hin; by destruct (Hn k f)|intros k Hin; by destruct (Hr k)]. Qed.

(** An active socket touches its stream under a clear flag. *)
Lemma touch_tracks w t h s seen :
  tracks w t -> handle w h ActiveGuarded = Some s ->
  (forall e, e ∈ seen -> exists k, e = STouched k (gs_kill s) /\ gs_stream s = Some k /\ gs_kill s ∉ w_flags w) ->
  tracks w (t ++ seen) /\ justified t seen.
Proof.
  intros Ht Eh%handle_inv Hseen. assert (Hq : Forall quiet seen) by (apply Forall_forall; intros e (k & -> & _)%Hseen; done). split; [|split].
  - apply (tracks_step w t); [done|by apply quiet_plain|done|intros ? ? ?; apply tracks_keep; [done|by apply quiet_plain]|].
    intros f. rewrite quiet_flags by done. apply Ht.
  - intros k f Hin. destruct (Hseen _ Hin) as (k' & [= -> ->] & Ek & Hf). destruct (tr_sockets _ _ Ht _ _ _ Eh) as (k2 & Ek2 & Hst). simplify_eq.
    split; [done|]. by rewrite <- (tr_flags _ _ Ht).
  - intros k Hin. by destruct (Hseen _ Hin) as (k' & ? & _).
Qed.

Lemma poll_guarded_touches {A} r closed flags s (inner : Poll (result IoError A)) k :
  (poll_guarded r closed flags s inner).1 = Some k -> gs_stream s = Some k /\ gs_kill s ∉ flags.
Proof. unfold poll_guarded. case_bool_decide; [done|]. by destruct (gs_stream s). Qed.

Lemma exec_poll_tracks {A} w t h poll (inner : Poll (result IoError A)) w' seen :
  (forall flags s k, (poll flags s inner).1 = Some k -> gs_stream s = Some k /\ gs_kill s ∉ flags) ->
  tracks w t -> exec_poll w h poll inner = Some (w', seen) -> tracks w' (t ++ seen) /\ justified t seen.
Proof.
  intros Hp Ht. unfold exec_poll. destruct (handle w h ActiveGuarded) as [s|] eqn:Eh; [|done]. intros [= <- <-]. eapply touch_tracks; [done..|].
  specialize (Hp (w_flags w) s). destruct (poll (w_flags w) s inner) as [[k|] r]; cbn; intros e Hin; [|by apply elem_of_nil in Hin].
  apply list_elem_of_singleton in Hin as ->. exists k. split; [done|]. by apply Hp.
Qed.

Lemma await_one {A} poll (flags : gset nat) (inner : Poll (result IoError A)) : (await_polls poll [(flags, inner)]).1 = option_list (poll flags inner).1.
Proof. cbn. destruct (poll flags inner) as [touched [|[]]]; cbn; by rewrite ?app_nil_r. Qed.

Lemma exec_guarded_tracks {A} w t h call (poll : gset nat -> GuardedSocket ActiveGuarded -> Poll (result IoError A) -> option nat * Poll (result IoError A)) inner w' seen :
  (forall flags s polls, call flags s polls = if bool_decide (gs_kill s ∈ flags) then ([], Some (Err KillSwitchTripped)) else await_polls (fun flags => poll flags s) polls) ->
  (forall flags s k, (poll flags s inner).1 = Some k -> gs_stream s = Some k /\ gs_kill s ∉ flags) ->
  tracks w t -> exec_guarded w h call inner = Some (w', seen) -> tracks w' (t ++ seen) /\ justified t seen.
Proof.
  intros Hc Hp Ht. unfold exec_guarded. destruct (handle w h ActiveGuarded) as [s|] eqn:Eh; [|done]. intros [= <- <-]. eapply touch_tracks; [done..|].
  rewrite Hc. case_bool_decide; [by intros e ?%elem_of_nil|]. rewrite await_one. specialize (Hp (w_flags w) s).
  destruct (poll (w_flags w) s inner) as [[k|] r]; cbn; intros e Hin; [|by apply elem_of_nil in Hin].
  apply list_elem_of_singleton in Hin as ->. exists k. split; [done|]. by apply Hp.
Qed.

Lemma trip_flags now flags ctl flags' ctl' :
  trip now flags ctl = (flags', ctl') ->
  ks_tripped ctl' = ks_tripped ctl /\ (flags' = flags \/ flags' = {[ks_tripped ctl]} ∪ flags).
Proof.
  unfold trip. destruct (_ <=? _); [|by intros [= <- <-]; auto]. cbn. case_bool_decide; intros [= <- <-]; auto.
Qed.

Lemma tracks_move w t h S S' (s : GuardedSocket S) (s' : GuardedSocket S') flags e :
  tracks w t -> w_sockets w !! h = Some (Any S s) -> gs_stream s' = gs_stream s ->
  plain e -> (forall k f, STouched k f <> e) -> (forall k, SRaw k <> e) ->
  (forall k, gs_stream s = Some k -> stage k (gs_kill s') S' (t ++ [e])) ->
  (forall f, f ∈ flags <-> is_set f (t ++ [e])) ->
  tracks (set_flags (put w h s') flags) (t ++ [e]) /\ justified t [e].
Proof.
  intros Ht Hh Hstr Hn Ht' Hr Hst Hf. split.
  - apply (tracks_step w t); [done|by apply Forall_singleton|by eapply streams_put| |done]. cbn. eapply tracks_put; [done..|by apply Forall_singleton|done].
  - apply justified_none; [intros k f|intros k]; rewrite list_elem_of_singleton; [apply Ht'|apply Hr].
Qed.

Lemma stage_snoc k f S t e : stage k f S t -> plain e -> stage k f S (t ++ [e]).
Proof. intros Hs He. apply stage_app; [done|]. by apply plain_spares, Forall_singleton. Qed.

Lemma stage_begin k f t : stage k f Uninitialized t -> stage k f Verifying (t ++ [SBegin k]).
Proof.
  intros (b & Hb & _). exists (b ++ [SBegin k]). split; [by apply since_app, plain_spares, Forall_singleton|].
  apply elem_of_app. right. by apply list_elem_of_singleton.
Qed.

Lemma stage_verified k f t : stage k f Verifying t -> stage k f ActiveGuarded (t ++ [SVerified k]).
Proof.
  intros (b & Hb & Hin). exists (b ++ [SVerified k]). split; [by apply since_app, plain_spares, Forall_singleton|].
  exists b, [SVerified k]. split_and!; [done|done|by apply list_elem_of_singleton].
Qed.

Lemma flags_set w t k : tracks w t -> forall f, f ∈ {[k]} ∪ w_flags w <-> is_set f (t ++ [SSet k]).
Proof. intros Ht f. rewrite is_set_snoc, <- (tr_flags _ _ Ht), elem_of_union, elem_of_singleton. naive_solver. Qed.

Lemma tracks_flags w t flags ctl seen :
  tracks w t -> Forall plain seen -> (forall k f, STouched k f ∉ seen) -> (forall k, SRaw k ∉ seen) -> (forall f, f ∈ flags <-> is_set f (t ++ seen)) ->
  tracks (mkWorld flags (w_sockets w) ctl) (t ++ seen) /\ justified t seen.
Proof.
  intros Ht Hn Hj Hr Hf. split; [|by apply justified_none]. apply (tracks_step w t); [done..| |done]. intros h S s. by apply (tracks_keep w t).
Qed.

Lemma streams_lookup w h k : streams w !! h = Some (Some k) <-> exists S (s : GuardedSocket S), w_sockets w !! h = Some (Any S s) /\ gs_stream s = Some k.
Proof.
  unfold streams. rewrite lookup_fmap. destruct (w_sockets w !! h) as [[S s]|]; cbn; [|by split; [|intros (? & ? & ? & _)]].
  split; [intros [= E]; by exists S, s|]. intros (S' & s' & E & Es). assert (E2 : any_stream (Any S s) = any_stream (Any S' s')) by congruence.
  cbn in E2. by rewrite E2, Es.
Qed.

Lemma owned_false w k h : owned w k = false -> streams w !! h <> Some (Some k).
Proof.
  unfold owned. intros Ho (S & s & Hs & E)%streams_lookup. apply elem_of_map_to_list in Hs. apply not_true_iff_false in Ho. apply Ho.
  apply existsb_exists. exists (h, Any S s). split; [by apply list_elem_of_In|]. by apply bool_decide_eq_true.
Qed.

Lemma exec_new_tracks w t h k f w' seen :
  tracks w t -> exec w (CNew h k f) = Some (w', seen) -> tracks w' (t ++ seen) /\ justified t seen.
Proof.
  intros [Hs Hf Hu Hh]. cbn [exec]. destruct (_ || _) eqn:Eo; [done|]. apply orb_false_iff in Eo as [Hnew Ho]. apply bool_decide_eq_false in Hnew.
  pose proof (fun h => owned_false w k h Ho) as Hno. apply eq_None_not_Some in Hnew. intros [= <- <-].
  assert (Hst : streams (put w h (GuardedSocket_new k f)) = <[h := Some k]> (streams w)) by (unfold streams; cbn; by rewrite fmap_insert). split; [split|].
  - intros h2 S2 s2. cbn. destruct (decide (h2 = h)) as [->|Hne].
    + rewrite lookup_insert_eq. intros E. assert (E2 : Any Uninitialized (GuardedSocket_new k f) = Any S2 s2) by congruence.
      exists k. change (any_stream (Any S2 s2) = Some k /\ match Any S2 s2 with Any T u => stage k (gs_kill u) T (t ++ [SNew k f]) end).
      rewrite <- E2. split; [done|]. exists []. split; [|done]. exists t. split; [done|]. split; [intros f'|]; apply not_elem_of_nil.
    + rewrite lookup_insert_ne by done. intros E. destruct (Hs _ _ _ E) as (k2 & Ek & Hst2). exists k2. split; [done|].
      apply stage_app; [done|]. apply spares_one; [|done]. intros f' [= <- <-]. apply (Hno h2), streams_lookup. by exists S2, s2.
  - intros f'. cbn. rewrite is_set_snoc, <- Hf. naive_solver.
  - rewrite Hst. intros h1 h2 k'. rewrite !lookup_insert_Some. intros [[<- [= <-]]|[? H1]] [[<- H2]|[? H2]]; try done; [by apply Hno in H2|injection H2 as <-; by apply Hno in H1|by eapply Hu].
  - rewrite Hst. intros k'. rewrite held_snoc. intros [[f' [= -> ->]]|[_ Hk]]; [exists h; by rewrite lookup_insert_eq|].
    destruct (Hh k' Hk) as [h2 Hh2]. exists h2. rewrite lookup_insert_ne; [done|]. intros <-. unfold streams in Hh2. by rewrite lookup_fmap, Hnew in Hh2.
  - apply justified_none; [intros k' f'|intros k']; by rewrite list_elem_of_singleton.
Qed.

Lemma exec_inner_tracks w t h w' seen : tracks w t -> exec w (CInner h) = Some (w', seen) -> tracks w' (t ++ seen) /\ justified t seen.
Proof.
  intros [Hs Hf Hu Hh]. cbn [exec]. destruct (w_sockets w !! h) as [[S s]|] eqn:Eh; [|done]. destruct (Hs _ _ _ Eh) as (k & Ek & _).
  unfold into_inner. rewrite Ek. intros [= <- <-]. cbn. assert (Hown : streams w !! h = Some (Some k)) by (apply streams_lookup; by exists S, s).
  assert (Hst : forall flags ctl, streams (mkWorld flags (delete h (w_sockets w)) ctl) = delete h (streams w)) by (intros; unfold streams; cbn; by rewrite fmap_delete).
  split; [split|].
  - cbn. intros h2 S2 s2 [Hne E]%lookup_delete_Some. destruct (Hs _ _ _ E) as (k2 & Ek2 & Hst2). exists k2. split; [done|]. apply stage_app; [done|].
    apply spares_one; [done|]. intros [= <-]. apply Hne, (Hu h h2 k); [done|]. apply streams_lookup. by exists S2, s2.
  - intros f. cbn. rewrite is_set_snoc, <- Hf. naive_solver.
  - rewrite Hst. intros h1 h2 k'. rewrite !lookup_delete_Some. intros [_ H1] [_ H2]. by eapply Hu.
  - rewrite Hst. intros k'. rewrite held_snoc. intros [[f' ?]|[Hne Hk]]; [done|]. destruct (Hh k' Hk) as [h2 Hh2]. exists h2.
    rewrite lookup_delete_ne; [done|]. intros <-. rewrite Hown in Hh2. by injection Hh2 as ->.
  - apply justified_none; [intros k' f'|intros k']; by rewrite list_elem_of_singleton.
Qed.

Lemma exec_failure_tracks w t now w' seen :
  tracks w t -> exec w (CFailure now) = Some (w', seen) -> tracks w' (t ++ seen) /\ justified t seen.
Proof.
  intros Ht. pose proof (tr_flags _ _ Ht) as Hf. cbn [exec]. destruct (trip now (w_flags w) (w_controller w)) as [flags ctl] eqn:Et.
  apply trip_flags in Et as [Ek Hfl]. unfold is_tripped. rewrite Ek. intros [= <- <-].
  case_bool_decide as Hin; (apply tracks_flags; [done|by repeat constructor|set_solver..|]); intros f.
  - rewrite is_set_snoc, <- Hf. destruct Hfl as [->| ->]; [|rewrite elem_of_union, elem_of_singleton]; naive_solver.
  - rewrite app_nil_r, <- Hf. destruct Hfl as [->| ->]; [done|]. set_solver.
Qed.

(** The transitions of one socket. *)
Lemma exec_move_tracks w t h S S' (s : GuardedSocket S) (s' : GuardedSocket S') flags e :
  tracks w t -> handle w h S = Some s -> gs_stream s' = gs_stream s -> plain e -> (forall k f, STouched k f <> e) -> (forall k, SRaw k <> e) ->
  (forall k, stage k (gs_kill s) S t -> gs_stream s = Some k -> stage k (gs_kill s') S' (t ++ [e])) -> (forall f, f ∈ flags <-> is_set f (t ++ [e])) ->
  tracks (set_flags (put w h s') flags) (t ++ [e]) /\ justified t [e].
Proof.
  intros Ht Eh%handle_inv ? ? ? ? Hst ?. apply (tracks_move w t h S S' s); try done. intros k Ek.
  destruct (tr_sockets _ _ Ht _ _ _ Eh) as (k' & Ek' & Hk). simplify_eq. by apply Hst.
Qed.

Lemma exec_tracks w t c w' seen : tracks w t -> exec w c = Some (w', seen) -> tracks w' (t ++ seen) /\ justified t seen.
Proof.
  intros Ht. pose proof (tr_sockets _ _ Ht) as Hs. pose proof (tr_flags _ _ Ht) as Hf.
  destruct c as [h stream kill|h|h|h|h|h|stream|h inner|h inner|h inner|h inner|h inner|h inner|now|].
  - by apply exec_new_tracks.
  - cbn [exec]. destruct (handle w h Uninitialized) as [s|] eqn:Eh; [|done]. destruct (Hs _ _ _ (handle_inv _ _ _ _ Eh)) as (k & Ek & _).
    rewrite Ek. intros [= <- <-]. cbn. eapply (exec_move_tracks w t h Uninitialized Verifying s _ (w_flags w)); try done.
    + intros k' Hst. rewrite Ek. intros [= <-]. by apply stage_begin.
    + intros f. rewrite quiet_flags; [apply Hf|by repeat constructor].
  - cbn [exec]. destruct (handle w h Verifying) as [s|] eqn:Eh; [|done]. destruct (Hs _ _ _ (handle_inv _ _ _ _ Eh)) as (k & Ek & _).
    rewrite Ek. intros [= <- <-]. cbn. eapply (exec_move_tracks w t h Verifying ActiveGuarded s _ (w_flags w)); try done.
    + intros k' Hst. rewrite Ek. intros [= <-]. by apply stage_verified.
    + intros f. rewrite quiet_flags; [apply Hf|by repeat constructor].
  - cbn [exec]. destruct (handle w h Verifying) as [s|] eqn:Eh; [|done]. cbn. intros [= <- <-].
    eapply (exec_move_tracks w t h Verifying DroppedFailClosed s); try done; [|by apply flags_set]. intros k Hst _. apply stage_snoc; [by eapply stage_dropped|done].
  - cbn [exec]. destruct (handle w h ActiveGuarded) as [s|] eqn:Eh; [|done]. cbn. intros [= <- <-].
    eapply (exec_move_tracks w t h ActiveGuarded DroppedFailClosed s); try done; [|by apply flags_set]. intros k Hst _. apply stage_snoc; [by eapply stage_dropped|done].
  - by apply exec_inner_tracks.
  - cbn [exec]. destruct (owned w stream) eqn:Ho; [done|]. intros [= <- <-]. assert (Hq : Forall quiet [SRaw stream]) by (by repeat constructor). split; [|split].
    + apply (tracks_step w t); [done|by apply quiet_plain|done|intros ? ? ?; apply tracks_keep; [done|by apply quiet_plain]|].
      intros f. rewrite quiet_flags by done. apply Hf.
    + intros k f. by rewrite list_elem_of_singleton.
    + intros k [= ->]%list_elem_of_singleton [h Hh]%(tr_held _ _ Ht). by apply (owned_false w stream h).
  - apply (exec_guarded_tracks _ _ _ _ poll_write); [done| |done]. intros ? ? ?. apply poll_guarded_touches.
  - apply (exec_guarded_tracks _ _ _ _ poll_read); [done| |done]. intros ? ? ?. apply poll_guarded_touches.
  - apply exec_poll_tracks; [|done]. intros ? ? ?. apply poll_guarded_touches.
  - apply exec_poll_tracks; [|done]. intros ? ? ?. apply poll_guarded_touches.
  - apply exec_poll_tracks; [|done]. intros ? ? ?. apply poll_guarded_touches.
  - apply exec_poll_tracks; [|done]. intros ? ? ?. apply poll_guarded_touches.
  - by apply exec_failure_tracks.
  - cbn [exec]. destruct (reset (w_flags w) (w_controller w)) as [flags ctl] eqn:Et. injection Et as <- <-. intros [= <- <-].
    apply tracks_flags; [done|by repeat constructor|by intros ? ?; rewrite list_elem_of_singleton|by intros ?; rewrite list_elem_of_singleton|]. intros f. cbn.
    rewrite is_set_snoc, <- Hf, elem_of_difference, elem_of_singleton. naive_solver.
Qed.

Lemma guarded_one {A} flags (s : GuardedSocket ActiveGuarded) poll (inner : Poll (result IoError A)) (r : list nat * option (result GuardError A)) :
  r = (if bool_decide (gs_kill s ∈ flags) then ([], Some (Err KillSwitchTripped)) else await_polls poll [(flags, inner)]) -> (length r.1 <= 1)%nat.
Proof. intros ->. case_bool_decide; [cbn; lia|]. rewrite await_one. destruct (poll flags inner).1; cbn; lia. Qed.

Lemma exec_one w c w' seen : exec w c = Some (w', seen) -> (length seen <= 1)%nat.
Proof.
  assert (Hs : forall g o, (length (stream_event g o) <= 1)%nat) by (intros g [k|]; cbn; lia).
  destruct c; cbn [exec]; unfold exec_poll, exec_guarded; intros E; guards_in E; rewrite ?length_fmap; cbn [length]; auto with arith.
  - by eapply guarded_one.
  - by eapply guarded_one.
  - destruct (trip _ _ _) as [flags ctl]. destruct (is_tripped _ _); simplify_eq; cbn; lia.
Qed.

Lemma exec_all_tracks w t calls w' seen :
  tracks w t -> exec_all w calls = Some (w', seen) ->
  tracks w' (t ++ seen) /\
  (forall a b k f, seen = a ++ STouched k f :: b -> stage k f ActiveGuarded (t ++ a) /\ ~ is_set f (t ++ a)) /\
  (forall a b k, seen = a ++ SRaw k :: b -> ~ held k (t ++ a)).
Proof.
  revert w t seen. induction calls as [|c calls IH]; intros w t seen Ht; cbn [exec_all].
  { intros [= <- <-]. rewrite app_nil_r. split; [done|]. split; [intros a b k f E|intros a b k E]; by destruct a. }
  destruct (exec w c) as [[w1 e]|] eqn:Ec; [|done]. destruct (exec_all w1 calls) as [[w2 more]|] eqn:Er; [|done]. intros [= <- <-].
  pose proof (exec_one _ _ _ _ Ec) as Hone. destruct (exec_tracks _ t _ _ _ Ht Ec) as [Ht1 [Hj Hr]]. destruct (IH _ _ _ Ht1 Er) as (Ht2 & Hmore & Hraw).
  rewrite app_assoc. split; [done|]. destruct e as [|x [|y e]]; [rewrite app_nil_r in Hmore, Hraw; done| |cbn in Hone; lia]. split.
  - intros a b k f E. destruct a as [|x' a].
    + injection E as -> _. rewrite app_nil_r. apply Hj. by apply list_elem_of_singleton.
    + injection E as <- E. change (x :: a) with ([x] ++ a). rewrite app_assoc. by eapply Hmore.
  - intros a b k E. destruct a as [|x' a].
    + injection E as -> _. rewrite app_nil_r. apply Hr. by apply list_elem_of_singleton.
    + injection E as <- E. change (x :: a) with ([x] ++ a). rewrite app_assoc. by eapply Hraw.
Qed.

Lemma start_tracks ctl : tracks (start ctl) [].
Proof.
  split; [intros h S s; cbn; by rewrite lookup_empty| | |].
  - intros f. cbn. split; [by intros ?%elem_of_empty|]. intros (a & b & E & _). by destruct a.
  - intros h1 h2 k. unfold streams. cbn. by rewrite lookup_fmap, lookup_empty.
  - intros k (a & f & b & E & _). by destruct a.
Qed.

(** ** Failures in a window *)
Definition trips (ts : list Z) (st : gset nat * KillSwitchController) : gset nat * KillSwitchController :=
  fold_left (fun st now => trip now st.1 st.2) ts st.

Lemma filter_all (P : Z -> Prop) `{!forall x, Decision (P x)} l : Forall P l -> filter P l = l.
Proof. induction 1; [done|]. rewrite filter_cons_True by done. by f_equal. Qed.

Lemma filter_ext_in (P Q : Z -> Prop) `{!forall x, Decision (P x), !forall x, Decision (Q x)} l :
  Forall (fun x => P x <-> Q x) l -> filter P l = filter Q l.
Proof. induction 1 as [|x l Hx _ IH]; [done|]. rewrite !filter_cons, IH. do 2 case_decide; tauto || done. Qed.

(** The elements above a bound of an ordered list are its last ones. *)
Lemma filter_ordered (lo : Z) (l : list Z) :
  StronglySorted Z.le l -> exists k, filter (fun t => lo < t) l = drop k l /\ (k <= length l)%nat /\
    forall i t, l !! i = Some t -> (k <= i)%nat <-> lo < t.
Proof.
  induction 1 as [|x l Hs IH Hx]; [exists 0%nat; by split_and!|]. rewrite filter_cons. case_decide as Hd.
  - exists 0%nat. rewrite drop_0. split_and!; [|lia|].
    + f_equal. apply filter_all. eapply Forall_impl; [exact Hx|]. cbn. lia.
    + intros i t Hi. split; [|lia]. intros _. apply (list_elem_of_lookup_2 (x :: l)) in Hi as [->|Hi]%elem_of_cons; [done|].
      rewrite Forall_forall in Hx. specialize (Hx t Hi). lia.
  - destruct IH as (k & E & Hk & Hi). exists (S k). split_and!; [done|cbn; lia|]. intros [|i] t Ht; cbn in Ht; [simplify_eq; lia|].
    rewrite <- (Hi i t Ht). lia.
Qed.

Lemma trips_snoc ts now st : trips (ts ++ [now]) st = trip now (trips ts st).1 (trips ts st).2.
Proof. unfold trips. by rewrite fold_left_app. Qed.

Lemma trip_fields now flags ctl :
  let ctl' := (trip now flags ctl).2 in
  ks_tripped ctl' = ks_tripped ctl /\ ks_threshold ctl' = ks_threshold ctl /\ ks_window ctl' = ks_window ctl /\
  ks_failures ctl' = filter (fun t => duration_since now t < ks_window ctl) (ks_failures ctl) ++ [now] /\
  forall f, f ∈ (trip now flags ctl).1 <-> f ∈ flags \/ f = ks_tripped ctl /\ ks_threshold ctl <= Z.of_nat (length (ks_failures ctl')).
Proof.
  unfold trip. cbn [ks_tripped ks_threshold ks_window ks_notifier]. destruct (Z.leb_spec (ks_threshold ctl)
    (Z.of_nat (length (filter (fun t => duration_since now t < ks_window ctl) (ks_failures ctl) ++ [now])))) as [Hle|Hgt].
  - case_bool_decide; cbn; split_and!; try done; intros f; [|rewrite elem_of_union, elem_of_singleton]; naive_solver.
  - cbn. split_and!; try done. intros f. split; [auto|]. intros [?|[_ ?]]; [done|lia].
Qed.

(** After a run of failures the controller remembers those inside the window. *)
Lemma trips_failures ts now flag n W :
  0 < W -> StronglySorted Z.le (ts ++ [now]) ->
  let ctl := (trips (ts ++ [now]) (∅, with_threshold flag n W)).2 in
  ks_tripped ctl = flag /\ ks_threshold ctl = n /\ ks_window ctl = W /\
  ks_failures ctl = filter (fun t => now - W < t) (ts ++ [now]).
Proof.
  intros HW. revert now. induction ts as [|last ts IH] using rev_ind; intros now Hs.
  { cbn. unfold trips, trip. cbn. rewrite decide_True by lia. by destruct (_ <=? _). }
  cbv zeta. rewrite trips_snoc. assert (Hs' : StronglySorted Z.le (ts ++ [last])) by (by apply StronglySorted_app_1_l in Hs).
  destruct (IH last Hs') as (H1 & H2 & H3 & H4).
  destruct (trip_fields now (trips (ts ++ [last]) (∅, with_threshold flag n W)).1 (trips (ts ++ [last]) (∅, with_threshold flag n W)).2)
    as (-> & -> & -> & -> & _); cbv zeta in *. rewrite H1, H2, H3, H4. split_and!; try done.
  rewrite (filter_app _ (ts ++ [last])), (filter_cons_True _ now), filter_nil by lia. f_equal.
  assert (Hle : Forall (fun t => t <= now) (ts ++ [last])).
  { rewrite Forall_forall. intros t Ht. apply (StronglySorted_app_1_elem_of _ _ _ t now Hs Ht). by apply list_elem_of_singleton. }
  assert (Hl : last <= now) by (rewrite Forall_forall in Hle; apply Hle, elem_of_app; right; by apply list_elem_of_singleton).
  rewrite list_filter_filter. apply filter_ext_in. eapply Forall_impl; [exact Hle|]. unfold duration_since. cbn. lia.
Qed.

(** [n] failures of an ordered list fall inside a window that ends with the
    last one exactly when the [n]-th from the end does. *)
Lemma window_count l now n W :
  StronglySorted Z.le (l ++ [now]) -> 1 <= n ->
  n <= Z.of_nat (length (filter (fun t => now - W < t) (l ++ [now]))) <->
  exists i t, (l ++ [now]) !! i = Some t /\ Z.of_nat i + n = Z.of_nat (length (l ++ [now])) /\ now - t < W.
Proof.
  intros Hs Hn. set (m := l ++ [now]) in *. destruct (filter_ordered (now - W) m Hs) as (k & -> & Hk & Hi). rewrite length_drop. split.
  - intros Hle. destruct (lookup_lt_is_Some_2 m (length m - Z.to_nat n)) as [t Ht]; [lia|]. exists (length m - Z.to_nat n)%nat, t.
    split_and!; [done|lia|]. apply Hi in Ht as [Ht _]. specialize (Ht ltac:(lia)). lia.
  - intros (i & t & Ht & Hin & Hw). apply Hi in Ht as [_ Ht]. specialize (Ht ltac:(lia)). lia.
Qed.

(** The kill switch trips exactly on a burst. A fresh controller that sees
    failures at the instants [ts] has set its flag exactly when some [n]
    consecutive failures, [n] being its threshold, fell within less than its
    window. *)
Theorem kill_switch_exact (ts : list Z) (flag : nat) (n W : Z) :
  0 < W -> 1 <= n -> StronglySorted Z.le ts ->
  is_tripped (trips ts (∅, with_threshold flag n W)).1 (with_threshold flag n W) = true <->
  exists i j first final, ts !! i = Some first /\ ts !! j = Some final /\ Z.of_nat j = Z.of_nat i + n - 1 /\ final - first < W.
Proof.
  intros HW Hn. unfold is_tripped. rewrite bool_decide_eq_true. cbn [with_threshold ks_tripped].
  induction ts as [|now ts IH] using rev_ind; intros Hs.
  { cbn. split; [by intros ?%elem_of_empty|]. intros (i & j & ? & ? & E & _). by rewrite lookup_nil in E. }
  rewrite trips_snoc. destruct (trip_fields now (trips ts (∅, with_threshold flag n W)).1 (trips ts (∅, with_threshold flag n W)).2)
    as (E1 & E2 & E3 & E4 & ->). pose proof (trips_failures ts now flag n W HW Hs) as (F1 & F2 & F3 & F4).
  rewrite <- trips_snoc in E1, E2, E4. cbv zeta. rewrite <- trips_snoc, F4. rewrite <- E1, <- E2, F1, F2.
  rewrite IH by (by apply StronglySorted_app_1_l in Hs). rewrite window_count by done. split.
  - intros [(i & j & first & final & Hi & Hj & Hij & Hw)|(_ & i & t & Hi & Hin & Hw)].
    + exists i, j, first, final. split_and!; [by apply lookup_app_l_Some|by apply lookup_app_l_Some|done|done].
    + exists i, (length ts), t, now. rewrite length_app in Hin. cbn [length] in Hin.
      split_and!; [done|by apply list_lookup_middle|lia|done].
  - intros (i & j & first & final & Hi & Hj & Hij & Hw). destruct (decide (j = length ts)) as [->|Hne].
    + right. split; [done|]. rewrite list_lookup_middle in Hj by done. simplify_eq. exists i, first.
      rewrite length_app. cbn [length]. split_and!; [done|lia|done].
    + left. pose proof (lookup_lt_Some _ _ _ Hj) as Hlt. rewrite length_app in Hlt. cbn in Hlt.
      rewrite lookup_app_l in Hi, Hj by lia. exists i, j, first, final. done.
Qed.

(** C30: guarded sockets keep their typestate. In every program that type
    checks, however it interleaves any number of sockets, a stream inside a
    socket is read, written, flushed, shut down, sent to or received from only
    while the socket's flag is not set, and only after that socket, since it was
    made, entered verification and then passed it, and its stream was not taken
    out; an active socket always still has its stream. Outside its sockets a
    program uses a stream directly only when none has it: whoever made a socket of
    it has taken it out with [into_inner], which every state allows. *)
Theorem guard_typestate (ctl : KillSwitchController) (calls : list Call) (w : World) (seen : list Seen) :
  exec_all (start ctl) calls = Some (w, seen) ->
  (forall a b k f, seen = a ++ STouched k f :: b ->
     ~ is_set f a /\
     exists made begun verified, a = made ++ SNew k f :: begun ++ verified /\
       (forall f', SNew k f' ∉ begun ++ verified) /\ STaken k ∉ begun ++ verified /\ SBegin k ∈ begun /\ SVerified k ∈ verified) /\
  (forall a b k, seen = a ++ SRaw k :: b -> forall made f rest, a = made ++ SNew k f :: rest -> STaken k ∈ rest) /\
  (forall h s, handle w h ActiveGuarded = Some s -> is_Some (gs_stream s)).
Proof.
  intros E. destruct (exec_all_tracks _ [] _ _ _ (start_tracks ctl) E) as (Htr & Ht & Hraw). split_and!.
  - intros a b k f Ea. destruct (Ht a b k f Ea) as [(l & (made & Em & Hn & Hk) & begun & verified & -> & Hb & Hv) Hset]. split; [done|].
    by exists made, begun, verified.
  - intros a b k Ea made f rest Er. destruct (decide (STaken k ∈ rest)) as [|Hno]; [done|]. destruct (Hraw a b k Ea). by exists made, f, rest.
  - intros h s Hh%handle_inv. destruct (tr_sockets _ _ Htr _ _ _ Hh) as (k & -> & _). eauto.
Qed.

(** C31: a tripped kill switch stops everything behind it. From the moment a
    flag is set, by the controller, by a failed verification or by any socket,
    no stream behind that flag is touched through any socket, old or new, until
    the controller resets the flag. A call is one step here: the code reads the
    flag and then uses the stream, so a flag set by another thread between the two
    stops the next use. *)
Theorem kill_switch_fail_closed (ctl : KillSwitchController) (calls : list Call) (w : World) (a b : list Seen) (f : nat) :
  exec_all (start ctl) calls = Some (w, a ++ SSet f :: b) -> SCleared f ∉ b -> forall k, STouched k f ∉ b.
Proof.
  intros E Hb k Hin. destruct (exec_all_tracks _ [] _ _ _ (start_tracks ctl) E) as (_ & Ht & _).
  apply list_elem_of_split in Hin as (b1 & b2 & ->).
  destruct (Ht (a ++ SSet f :: b1) b2 k f) as [_ []]; [by rewrite <- app_assoc|]. exists a, b1. split; [done|]. set_solver.
Qed.

(** A socket that sets the flag of a controller keeps the controller from ever
    announcing it: failures are counted on, the broadcast is skipped. *)
Lemma socket_trip_mutes_controller (ts : list Z) (flags : gset nat) (ctl : KillSwitchController) :
  ks_tripped ctl ∈ flags -> ks_notifier ctl = false -> ks_notifier (trips ts (flags, ctl)).2 = false.
Proof.
  intros Hf Hn. assert (Hall : ks_tripped (trips ts (flags, ctl)).2 ∈ (trips ts (flags, ctl)).1 /\ ks_notifier (trips ts (flags, ctl)).2 = false);
    [|by destruct Hall].
  induction ts as [|now ts [IH1 IH2]] using rev_ind; [done|]. rewrite trips_snoc. unfold trip. cbn [ks_tripped].
  destruct (_ <=? _); [rewrite bool_decide_true by done|]; done.
Qed.

(** ** Witnesses *)
Definition toy_program : list Call :=
  [CNew 1 10 7; CBegin 1; CVerified 1; CWrite 1 (Ready (Ok 5%nat)); CNew 2 11 7; CBegin 2; CFail 2; CWrite 1 (Ready (Ok 1%nat)); CReset;
   CSend 1 (Ready (Ok 3%nat)); CInner 1; CRaw 10].

Definition toy_seen : list Seen :=
  [SNew 10 7; SBegin 10; SVerified 10; STouched 10 7; SNew 11 7; SBegin 11; SSet 7; SCleared 7; STouched 10 7; STaken 10; SRaw 10].

Lemma toy_program_runs : (snd <$> exec_all (start (KillSwitchController_new 7)) toy_program) = Some toy_seen.
Proof. vm_compute. reflexivity. Qed.

Lemma guard_typestate_witness :
  (exists made begun verified, [SNew 10 7; SBegin 10; SVerified 10] = made ++ SNew 10 7 :: begun ++ verified /\
    (forall f', SNew 10 f' ∉ begun ++ verified) /\ STaken 10 ∉ begun ++ verified /\ SBegin 10 ∈ begun /\ SVerified 10 ∈ verified) /\
  STaken 10 ∈ drop 1 (take 10 toy_seen).
Proof.
  pose proof toy_program_runs as E. destruct (exec_all _ _) as [[w seen]|] eqn:Er; [|discriminate E]. injection E as ->.
  destruct (guard_typestate _ _ _ _ Er) as (Ht & Hraw & _). split.
  - exact (proj2 (Ht [SNew 10 7; SBegin 10; SVerified 10] (drop 4 toy_seen) 10%nat 7%nat eq_refl)).
  - exact (Hraw (take 10 toy_seen) [] 10%nat eq_refl [] 7%nat (drop 1 (take 10 toy_seen)) eq_refl).
Defined.

Lemma kill_switch_fail_closed_witness :
  exists w, exec_all (start (KillSwitchController_new 7)) (take 8 toy_program) =
      Some (w, [SNew 10 7; SBegin 10; SVerified 10; STouched 10 7; SNew 11 7; SBegin 11] ++ SSet 7 :: []) /\ STouched 10 7 ∉ ([] : list Seen).
Proof.
  eexists. split; [vm_compute; reflexivity|].
  eapply (kill_switch_fail_closed (KillSwitchController_new 7) (take 8 toy_program) _
    [SNew 10 7; SBegin 10; SVerified 10; STouched 10 7; SNew 11 7; SBegin 11] [] 7%nat); [vm_compute; reflexivity|].
  apply not_elem_of_nil.
Defined.

Lemma kill_switch_exact_witness :
  is_tripped (trips [0; 5; 12; 14] (∅, with_threshold 7 3 10)).1 (with_threshold 7 3 10) = true.
Proof.
  apply (kill_switch_exact [0; 5; 12; 14] 7 3 10).
  - lia.
  - lia.
  - repeat constructor; lia.
  - exists 1%nat, 3%nat, 5, 14. repeat split.
Defined.
