(* ===== verification/Sybil.v ===== *)
(** * Sybil defence (src/mesh/sybil.rs)

    Proof-of-work admission with a replay registry, and the subnet diversity
    check on circuits. SHA-256 is the hash of [IdentityPrimitives]; the clock
    is an argument. A poisoned mutex is recovered by the source, so the
    registry is its plain state. *)
From S2P Require Import Prelude Text Net Identity.

(** ** Data *)
Definition DEFAULT_POW_DIFFICULTY : Z := 26.
Definition MAX_TIMESTAMP_DRIFT_SECS : Z := 300.

Inductive SybilError :=
| InvalidProofOfWork
| ExpiredTimestamp (ts : Z)
| SubnetCollision (prefix : bytes)
| Ipv6SubnetCollision (prefix : bytes)
| DuplicateNode (host : bytes)
| UnresolvableHost (host : bytes).

Record NonceRegistry := mkNonceRegistry {
  nr_map : gmap (list Z * Z) Z;
  nr_last_purge : Z;
}.

(** ** Operations *)
Definition NonceRegistry_new : NonceRegistry := {| nr_map := ∅; nr_last_purge := 0 |}.

Definition purge (st : NonceRegistry) (current_time : Z) : NonceRegistry :=
  if 10 <=? saturating_sub current_time (nr_last_purge st) then
    {| nr_map := filter (fun kv => saturating_sub current_time kv.2 <= MAX_TIMESTAMP_DRIFT_SECS * 2) (nr_map st);
       nr_last_purge := current_time |}
  else st.

(** Returns [true] when admission must be refused. *)
Definition check_and_record (st : NonceRegistry) (node_id : bytes) (nonce current_time : Z) : NonceRegistry * bool :=
  if (length node_id =? 0)%nat || (128 <? length node_id)%nat then (st, true)
  else if current_time <? nr_last_purge st then (st, true)
  else
    let st := purge st current_time in
    let key := (node_id, nonce) in
    if bool_decide (is_Some (nr_map st !! key)) || (100000 <=? Z.of_nat (size (nr_map st))) then (st, true)
    else ({| nr_map := <[key := current_time]> (nr_map st); nr_last_purge := nr_last_purge st |}, false).

(** [u8::leading_zeros] of a non-zero byte. *)
Definition leading_zeros_u8 (b : Z) : Z := 7 - Z.log2 b.

Fixpoint count_leading_zero_bits (l : bytes) : Z :=
  match l with
  | [] => 0
  | b :: rest => if b =? 0 then 8 + count_leading_zero_bits rest else leading_zeros_u8 b
  end.

(** [host.trim_start_matches('[').trim_end_matches(']')]. *)
Fixpoint trim_start_matches (c : Z) (l : bytes) : bytes :=
  match l with b :: rest => if b =? c then trim_start_matches c rest else l | [] => [] end.
Definition trim_end_matches (c : Z) (l : bytes) : bytes := rev (trim_start_matches c (rev l)).
Definition trim_brackets (host : bytes) : bytes := trim_end_matches 93 (trim_start_matches 91 host).

Definition extract_ipv4_subnet_16 (host : bytes) : option bytes :=
  match parse_ipv4 host with Some ip => Some (take 2 (v4_octets ip)) | None => None end.

Definition extract_ipv6_subnet_32 (host : bytes) : option bytes :=
  match parse_ipv6 (trim_brackets host) with Some ip => Some (take 4 (v6_octets ip)) | None => None end.

(** The subnet an address is counted under: the first two octets of an IPv4
    address or of one embedded in an IPv6 address, else an IPv6 /32. *)
Inductive Subnet := Subnet4 (p : list Z) | Subnet6 (p : list Z).
#[global] Instance Subnet_eq_dec : EqDecision Subnet.
Proof. solve_decision. Defined.

Definition address_subnet (ip : IpAddr) : Subnet :=
  match ip with
  | V4 ipv4 => Subnet4 (take 2 (v4_octets ipv4))
  | V6 ipv6 =>
      let octets := v6_octets ipv6 in
      match to_ipv4_mapped ipv6 with
      | Some ipv4 => Subnet4 (take 2 (v4_octets ipv4))
      | None =>
          match to_ipv4 ipv6 with
          | Some ipv4 => Subnet4 (take 2 (v4_octets ipv4))
          | None =>
              if (octets !!! 0%nat =? 32) && (octets !!! 1%nat =? 2) then
                Subnet4 [octets !!! 2%nat; octets !!! 3%nat]
              else if (octets !!! 0%nat =? 32) && (octets !!! 1%nat =? 1) && (octets !!! 2%nat =? 0)
                      && (octets !!! 3%nat =? 0) then
                Subnet4 [Z.lxor (octets !!! 12%nat) 255; Z.lxor (octets !!! 13%nat) 255]
              else if bool_decide (take 12 octets = [0; 100; 255; 155; 0; 0; 0; 0; 0; 0; 0; 0]) then
                Subnet4 [octets !!! 12%nat; octets !!! 13%nat]
              else Subnet6 (take 4 octets)
          end
      end
  end.

(** The loop of [validate_circuit_diversity]: the three vectors it fills. *)
Fixpoint diversity_loop (seen4 seen6 seen_hosts : list bytes) (hosts : list bytes) : result SybilError unit :=
  match hosts with
  | [] => Ok tt
  | host :: rest =>
      if bool_decide (host ∈ seen_hosts) then Err (DuplicateNode host)
      else
        let seen_hosts := seen_hosts ++ [host] in
        match parse_ip (trim_brackets host) with
        | None => Err (UnresolvableHost host)
        | Some ip =>
            match address_subnet ip with
            | Subnet4 subnet =>
                if bool_decide (subnet ∈ seen4) then Err (SubnetCollision subnet)
                else diversity_loop (seen4 ++ [subnet]) seen6 seen_hosts rest
            | Subnet6 subnet =>
                if bool_decide (subnet ∈ seen6) then Err (Ipv6SubnetCollision subnet)
                else diversity_loop seen4 (seen6 ++ [subnet]) seen_hosts rest
            end
        end
  end.

Definition validate_circuit_diversity (hosts : list bytes) : result SybilError unit := diversity_loop [] [] [] hosts.

Section Pow.
Context `{IdentityPrimitives}.

Definition pow_hash (node_id : bytes) (timestamp nonce : Z) : bytes :=
  sha256 (node_id ++ be_bytes 8 timestamp ++ be_bytes 8 nonce).

Definition verify_pow (node_id : bytes) (timestamp nonce difficulty_bits current_time : Z) : bool :=
  if MAX_TIMESTAMP_DRIFT_SECS <? abs_diff current_time timestamp then false
  else difficulty_bits <=? count_leading_zero_bits (pow_hash node_id timestamp nonce).

Fixpoint solve_loop (fuel : nat) (node_id : bytes) (timestamp difficulty_bits nonce : Z) : option Z :=
  match fuel with
  | O => None
  | S fuel' =>
      if difficulty_bits <=? count_leading_zero_bits (pow_hash node_id timestamp nonce) then Some nonce
      else solve_loop fuel' node_id timestamp difficulty_bits (wrapping_add u64_MAX nonce 1)
  end.

Definition solve_pow_bounded_from (node_id : bytes) (timestamp difficulty_bits start : Z) : option Z :=
  solve_loop (Z.to_nat 10000000) node_id timestamp difficulty_bits start.

Definition solve_pow_bounded (node_id : bytes) (timestamp difficulty_bits : Z) : option Z :=
  solve_pow_bounded_from node_id timestamp difficulty_bits 0.

(** An admission attempt as its callers make it: the proof must verify and the
    registry must not refuse it. *)
Record PowAttempt := mkPowAttempt {
  pa_node_id : bytes; pa_timestamp : Z; pa_nonce : Z; pa_now : Z;
}.

Definition try_pow (difficulty : Z) (st : NonceRegistry) (a : PowAttempt) : NonceRegistry * bool :=
  if verify_pow (pa_node_id a) (pa_timestamp a) (pa_nonce a) difficulty (pa_now a) then
    let '(st', refused) := check_and_record st (pa_node_id a) (pa_nonce a) (pa_now a) in (st', negb refused)
  else (st, false).

(** The proofs accepted over a sequence of attempts. *)
Fixpoint accepted (difficulty : Z) (st : NonceRegistry) (attempts : list PowAttempt) : list (list Z * Z * Z) :=
  match attempts with
  | [] => []
  | a :: rest =>
      match try_pow difficulty st a with
      | (st', true) => (pa_node_id a, pa_timestamp a, pa_nonce a) :: accepted difficulty st' rest
      | (st', false) => accepted difficulty st' rest
      end
  end.

(** ** Lemmas *)

(** A proof accepted at time [t] stays refused: its key is still recorded, or
    the registry has purged past the proof's validity. *)
Definition remembered (st : NonceRegistry) (node : list Z) (nonce t : Z) : Prop :=
  nr_map st !! (node, nonce) = Some t \/ t + MAX_TIMESTAMP_DRIFT_SECS * 2 < nr_last_purge st.

Lemma purge_remembered st now node nonce t :
  nr_last_purge st <= now -> remembered st node nonce t -> remembered (purge st now) node nonce t.
Proof.
  intros Hle Hr. unfold purge, remembered in *. destruct (10 <=? _); [|done]. cbn [nr_map nr_last_purge].
  destruct Hr as [Hm|Hp]; [|right; lia].
  destruct (decide (saturating_sub now t <= MAX_TIMESTAMP_DRIFT_SECS * 2)) as [Hk|Hk].
  - left. apply map_lookup_filter_Some. done.
  - right. unfold_ints. unfold MAX_TIMESTAMP_DRIFT_SECS in *. lia.
Qed.

Lemma purge_time st now : nr_last_purge st <= now -> nr_last_purge st <= nr_last_purge (purge st now) <= now.
Proof. intros. unfold purge. destruct (10 <=? _); cbn; lia. Qed.

Lemma check_and_record_remembered st node nonce now st' b node' nonce' t :
  check_and_record st node nonce now = (st', b) ->
  remembered st node' nonce' t -> remembered st' node' nonce' t.
Proof.
  unfold check_and_record. intros Hc Hr.
  destruct (_ || _); [by simplify_eq|]. destruct (Z.ltb_spec now (nr_last_purge st)); [by simplify_eq|].
  apply (purge_remembered _ now) in Hr; [|done]. set (st1 := purge st now) in *.
  destruct (bool_decide _) eqn:E1; cbn [orb] in Hc; [by simplify_eq|].
  destruct (_ <=? _); [by simplify_eq|]. simplify_eq. reflect_bools.
  destruct Hr as [Hm|Hp]; [|by right]. left. cbn [nr_map].
  rewrite lookup_insert_ne; [done|]. intros E. apply E1. rewrite E. eauto.
Qed.

(** An admission records its key at the current time, and was not remembered
    under a validity window that still contains the current time. *)
Lemma check_and_record_admits st node nonce now st' :
  check_and_record st node nonce now = (st', false) ->
  remembered st' node nonce now /\
  forall t, remembered st node nonce t -> t + MAX_TIMESTAMP_DRIFT_SECS * 2 < now.
Proof.
  unfold check_and_record. intros Hc.
  destruct (_ || _); [done|]. destruct (Z.ltb_spec now (nr_last_purge st)); [done|].
  pose proof (purge_time st now ltac:(lia)) as Ht. pose proof (purge_remembered st now node nonce) as Hpr.
  set (st1 := purge st now) in *.
  destruct (bool_decide _) eqn:E1; cbn [orb] in Hc; [done|]. destruct (_ <=? _); [done|]. simplify_eq.
  reflect_bools. split; [left; cbn; by rewrite lookup_insert_eq|].
  intros t Hr. destruct (Hpr t) as [Hm|Hp]; [lia|done| |lia].
  destruct E1. eauto.
Qed.

Lemma verify_pow_fresh node ts nonce d now :
  verify_pow node ts nonce d now = true -> Z.abs (now - ts) <= MAX_TIMESTAMP_DRIFT_SECS.
Proof. unfold verify_pow, abs_diff. intros H1. guards_in H1; lia. Qed.

Lemma try_pow_false d st a st' : try_pow d st a = (st', false) ->
  forall node nonce t, remembered st node nonce t -> remembered st' node nonce t.
Proof.
  unfold try_pow. intros Ha node nonce t Hr. destruct (verify_pow _ _ _ _ _); [|by simplify_eq].
  destruct (check_and_record _ _ _ _) as [st1 r] eqn:Hc. simplify_eq. by eapply check_and_record_remembered.
Qed.

Lemma accepted_fresh d st attempts node ts nonce t :
  remembered st node nonce t -> Z.abs (t - ts) <= MAX_TIMESTAMP_DRIFT_SECS ->
  (node, ts, nonce) ∉ accepted d st attempts.
Proof.
  revert st. induction attempts as [|a rest IH]; intros st Hr Ht; cbn [accepted]; [apply not_elem_of_nil|].
  destruct (try_pow d st a) as [st' [|]] eqn:Ha; [|apply IH; [by eapply try_pow_false|done]].
  unfold try_pow in Ha. destruct (verify_pow _ _ _ _ _) eqn:Hv; [|done].
  destruct (check_and_record _ _ _ _) as [st1 r] eqn:Hc. destruct r; [done|]. simplify_eq.
  apply not_elem_of_cons. split; [|apply IH; [by eapply check_and_record_remembered|done]].
  intros E. simplify_eq. apply check_and_record_admits in Hc as [_ Hold]. apply Hold in Hr.
  apply verify_pow_fresh in Hv. lia.
Qed.

Lemma accepted_NoDup d st attempts : NoDup (accepted d st attempts).
Proof.
  revert st. induction attempts as [|a rest IH]; intros st; cbn [accepted]; [constructor|].
  destruct (try_pow d st a) as [st' [|]] eqn:Ha; [|apply IH].
  unfold try_pow in Ha. destruct (verify_pow _ _ _ _ _) eqn:Hv; [|done].
  destruct (check_and_record _ _ _ _) as [st1 r] eqn:Hc. destruct r; [done|]. simplify_eq.
  constructor; [|apply IH]. apply check_and_record_admits in Hc as [Hr _]. apply verify_pow_fresh in Hv.
  eapply accepted_fresh; [exact Hr|lia].
Qed.

Lemma solve_loop_sound fuel node ts d nonce n :
  solve_loop fuel node ts d nonce = Some n -> d <= count_leading_zero_bits (pow_hash node ts n).
Proof.
  revert nonce. induction fuel as [|fuel IH]; intros nonce; cbn [solve_loop]; [done|].
  destruct (Z.leb_spec d (count_leading_zero_bits (pow_hash node ts nonce))); intros; simplify_eq; eauto.
Qed.
End Pow.

Lemma check_and_record_size st node nonce now st' b :
  check_and_record st node nonce now = (st', b) -> Z.of_nat (size (nr_map st)) <= 100000 ->
  Z.of_nat (size (nr_map st')) <= 100000.
Proof.
  unfold check_and_record. intros Hc Hs. destruct (_ || _); [by simplify_eq|]. destruct (_ <? _); [by simplify_eq|].
  assert (Hp : Z.of_nat (size (nr_map (purge st now))) <= 100000).
  { unfold purge. destruct (10 <=? _); [|done]. cbn [nr_map].
    etransitivity; [|exact Hs]. apply Nat2Z.inj_le, map_size_filter. }
  destruct (_ || _) eqn:E in Hc; simplify_eq; [done|]. cbn [nr_map]. apply orb_false_iff in E as [E1 E2].
  reflect_bools. rewrite map_size_insert_None; [lia|]. by apply eq_None_not_Some.
Qed.

(** *** Leading zero bits *)
Lemma count_leading_zero_bits_nonneg l : is_bytes l -> 0 <= count_leading_zero_bits l.
Proof.
  induction 1 as [|b l Hb _ IH]; cbn [count_leading_zero_bits]; [lia|]. destruct (Z.eqb_spec b 0); [lia|].
  unfold leading_zeros_u8. assert (Z.log2 b < 8); [apply Z.log2_lt_pow2|]; unfold_ints; lia.
Qed.

(** Enough leading zero bits means a small enough number. *)
Lemma leading_zeros_target l d :
  is_bytes l -> 0 <= d <= 8 * Z.of_nat (length l) ->
  d <= count_leading_zero_bits l <-> from_be l < 2 ^ (8 * Z.of_nat (length l) - d).
Proof.
  intros Hl. revert d. induction Hl as [|b l Hb Hl IH]; intros d Hd; cbn [count_leading_zero_bits length] in *.
  { change (from_be []) with 0. replace (8 * Z.of_nat 0 - d) with 0 by lia. lia. }
  rewrite from_be_cons. rewrite Nat2Z.inj_succ in *. set (n := Z.of_nat (length l)) in *.
  pose proof (from_be_bound l Hl) as Hr. change 256 with (2 ^ 8) in *. rewrite <- Z.pow_mul_r in * by lia.
  fold n in Hr. replace (8 * Z.succ n - d) with (8 * n + (8 - d)) by lia.
  pose proof (count_leading_zero_bits_nonneg l Hl). destruct (Z.eqb_spec b 0) as [->|Hne].
  - destruct (decide (d < 8)).
    + assert (2 ^ (8 * n) <= 2 ^ (8 * n + (8 - d))) by (apply Z.pow_le_mono_r; lia). lia.
    + specialize (IH (d - 8) ltac:(lia)). replace (8 * n + (8 - d)) with (8 * n - (d - 8)) by lia. lia.
  - unfold leading_zeros_u8. unfold_ints. assert (0 < 2 ^ (8 * n)) by (apply Z.pow_pos_nonneg; lia).
    destruct (decide (d <= 8)).
    + rewrite Z.pow_add_r by lia. pose proof (Z.log2_lt_pow2 b (8 - d) ltac:(lia)). nia.
    + assert (2 ^ (8 * n + (8 - d)) <= 2 ^ (8 * n)) by (apply Z.pow_le_mono_r; lia).
      pose proof (Z.log2_nonneg b). nia.
Qed.

(** *** Diversity *)
Definition host_subnet (h : list Z) (s : Subnet) : Prop :=
  exists ip, parse_ip (trim_brackets h) = Some ip /\ address_subnet ip = s.

(** The loop over one list of subnets of either kind. *)
Fixpoint diverse (seen : list Subnet) (seen_hosts hosts : list bytes) : Prop :=
  match hosts with
  | [] => True
  | h :: rest => (h ∉ seen_hosts) /\
      exists s, host_subnet h s /\ (s ∉ seen) /\ diverse (seen ++ [s]) (seen_hosts ++ [h]) rest
  end.

Definition same_subnets (seen4 seen6 : list bytes) (seen : list Subnet) : Prop :=
  forall s, s ∈ seen <-> match s with Subnet4 p => p ∈ seen4 | Subnet6 p => p ∈ seen6 end.

Lemma same_subnets_add seen4 seen6 seen s :
  same_subnets seen4 seen6 seen ->
  match s with
  | Subnet4 p => same_subnets (seen4 ++ [p]) seen6 (seen ++ [s])
  | Subnet6 p => same_subnets seen4 (seen6 ++ [p]) (seen ++ [s])
  end.
Proof.
  intros HS. destruct s as [p|p]; intros [q|q].
  all: rewrite elem_of_app, (HS _), list_elem_of_singleton, ?elem_of_app, ?list_elem_of_singleton; intuition congruence.
Qed.

Lemma host_subnet_fun h s s' : host_subnet h s -> host_subnet h s' -> s = s'.
Proof. intros (ip & H1 & <-) (ip' & H2 & <-). congruence. Qed.

Lemma diversity_loop_diverse seen4 seen6 seen seen_hosts hosts :
  same_subnets seen4 seen6 seen ->
  diversity_loop seen4 seen6 seen_hosts hosts = Ok tt <-> diverse seen seen_hosts hosts.
Proof.
  revert seen4 seen6 seen seen_hosts. induction hosts as [|h rest IH]; intros seen4 seen6 seen seen_hosts HS;
    cbn [diversity_loop diverse]; [done|].
  case_bool_decide as Hh; [split; [done|tauto]|].
  destruct (parse_ip (trim_brackets h)) as [ip|] eqn:Hip; cycle 1.
  { split; [done|]. intros (_ & s & (ip & Hip' & _) & _). congruence. }
  assert (Hhs : host_subnet h (address_subnet ip)) by (by exists ip).
  assert (Hiff : (exists s, host_subnet h s /\ (s ∉ seen) /\ diverse (seen ++ [s]) (seen_hosts ++ [h]) rest) <->
    (address_subnet ip ∉ seen) /\ diverse (seen ++ [address_subnet ip]) (seen_hosts ++ [h]) rest).
  { split; [|by eauto]. intros (s & Hs & Hr). by rewrite (host_subnet_fun _ _ _ Hhs Hs). }
  rewrite Hiff. pose proof (HS (address_subnet ip)) as Hseen.
  pose proof (same_subnets_add _ _ _ (address_subnet ip) HS) as Hadd.
  destruct (address_subnet ip) as [p|p]; (case_bool_decide; [split; [done|tauto]|]); rewrite (IH _ _ _ _ Hadd); tauto.
Qed.

Lemma diverse_spec seen seen_hosts hosts :
  diverse seen seen_hosts hosts <->
  exists subnets, Forall2 host_subnet hosts subnets /\ NoDup hosts /\ NoDup subnets /\
    (forall h, h ∈ hosts -> (h ∉ seen_hosts)) /\ (forall s, s ∈ subnets -> (s ∉ seen)).
Proof.
  revert seen seen_hosts. induction hosts as [|h rest IH]; intros seen seen_hosts; cbn [diverse].
  { split; [|done]. intros _. exists []. split_and!; try constructor; intros ? []%elem_of_nil. }
  split.
  - intros (Hh & s & Hs & Hns & (subs & HF & Hn1 & Hn2 & Hd1 & Hd2)%IH). exists (s :: subs).
    setoid_rewrite not_elem_of_app in Hd1. setoid_rewrite not_elem_of_app in Hd2.
    setoid_rewrite list_elem_of_singleton in Hd1. setoid_rewrite list_elem_of_singleton in Hd2.
    split_and!.
    + by constructor.
    + constructor; [|done]. intros Hin. by apply Hd1 in Hin as [_ ?].
    + constructor; [|done]. intros Hin. by apply Hd2 in Hin as [_ ?].
    + intros x [->|Hx]%elem_of_cons; [done|]. by apply Hd1.
    + intros x [->|Hx]%elem_of_cons; [done|]. by apply Hd2.
  - intros (subs & HF & Hn1 & Hn2 & Hd1 & Hd2). inversion HF as [|? s ? subs' Hs HF']; simplify_eq.
    apply NoDup_cons in Hn1 as [Hh1 Hn1], Hn2 as [Hs2 Hn2]. setoid_rewrite elem_of_cons in Hd1. setoid_rewrite elem_of_cons in Hd2.
    split; [by auto|]. exists s. split; [done|]. split; [by auto|]. apply IH. exists subs'.
    setoid_rewrite not_elem_of_app. setoid_rewrite list_elem_of_singleton.
    split_and!; try done; intros x Hx; split; auto; by intros ->.
Qed.

Lemma validate_diversity_spec hosts :
  validate_circuit_diversity hosts = Ok tt <->
  exists subnets, Forall2 host_subnet hosts subnets /\ NoDup hosts /\ NoDup subnets.
Proof.
  unfold validate_circuit_diversity. rewrite (diversity_loop_diverse [] [] []), diverse_spec.
  - split; [intros (subs & HF & H1 & H2 & _); eauto|]. intros (subs & HF & H1 & H2). exists subs.
    split_and!; try done; intros ? _; apply not_elem_of_nil.
  - intros [p|p]; split; by intros []%elem_of_nil.
Qed.

Lemma Forall2_sublist_l {A B} (R : A -> B -> Prop) l l' k : sublist l' l -> Forall2 R l k -> exists k', sublist k' k /\ Forall2 R l' k'.
Proof.
  intros Hs. revert k. induction Hs as [|x l1 l2 Hs IH|x l1 l2 Hs IH]; intros k HF; inversion HF as [|? y ? k2 HR HF']; subst.
  - by exists [].
  - destruct (IH _ HF') as (k' & ? & ?). exists (y :: k'). split; [by constructor|by constructor].
  - destruct (IH _ HF') as (k' & ? & ?). exists k'. split; [by constructor|done].
Qed.

(** Leaving hosts out keeps a path diverse. *)
Lemma diversity_sublist hosts hosts' :
  sublist hosts' hosts -> validate_circuit_diversity hosts = Ok tt -> validate_circuit_diversity hosts' = Ok tt.
Proof.
  rewrite !validate_diversity_spec. intros Hs (subs & HF & Hn1 & Hn2).
  destruct (Forall2_sublist_l _ _ _ _ Hs HF) as (subs' & Hs' & HF'). exists subs'.
  split_and!; [done|by eapply sublist_NoDup|by eapply sublist_NoDup].
Qed.

(** ** Properties *)

(** No proof of work is accepted twice. Whatever attempts are made, at
    whatever clock values (the clock may even run backwards), the triples of
    node id, timestamp and nonce that pass are pairwise distinct: an entry
    leaves the registry only after the proof it guards has expired. *)
Theorem pow_never_accepted_twice `{IdentityPrimitives} (difficulty : Z) (attempts : list PowAttempt) :
  NoDup (accepted difficulty NonceRegistry_new attempts).
Proof. apply accepted_NoDup. Qed.

(** The difficulty check is the intended target test. A proof verifies
    exactly when its timestamp is within five minutes of the clock and the
    hash, read as a 256-bit big-endian number, is below [2 ^ (256 - d)]; and a
    nonce the solver returns verifies at its own timestamp. *)
Theorem pow_target `{IdentityPrimitives} `{!IdentityLaws} (node : bytes) (ts nonce d now start : Z) :
  0 <= d <= 256 ->
  (verify_pow node ts nonce d now = true <->
     Z.abs (now - ts) <= MAX_TIMESTAMP_DRIFT_SECS /\ from_be (pow_hash node ts nonce) < 2 ^ (256 - d)) /\
  (solve_pow_bounded_from node ts d start = Some nonce -> verify_pow node ts nonce d ts = true).
Proof.
  intros Hd. pose proof (leading_zeros_target (pow_hash node ts nonce) d (sha256_bytes _)) as Ht.
  unfold pow_hash in Ht at 1 4. rewrite sha256_length in Ht. change (8 * Z.of_nat 32) with 256 in Ht.
  specialize (Ht Hd). fold (pow_hash node ts nonce) in Ht. split.
  - rewrite <- Ht. unfold verify_pow, abs_diff. destruct (Z.ltb_spec MAX_TIMESTAMP_DRIFT_SECS (Z.abs (now - ts))).
    + split; [done|lia].
    + rewrite Z.leb_le. intuition lia.
  - intros Hs%solve_loop_sound. unfold verify_pow, abs_diff. rewrite Z.sub_diag.
    change (MAX_TIMESTAMP_DRIFT_SECS <? Z.abs 0) with false. by apply Z.leb_le.
Qed.

(** The circuit diversity check accepts exactly the lists of pairwise
    distinct IP literals whose subnets are pairwise distinct, where an address
    that embeds an IPv4 address counts under that address's /16. *)
Theorem circuit_diversity_exact (hosts : list bytes) :
  validate_circuit_diversity hosts = Ok tt <->
  exists subnets, Forall2 host_subnet hosts subnets /\ NoDup hosts /\ NoDup subnets.
Proof.
  apply validate_diversity_spec.
Qed.

#[local] Existing Instance toy_identity.
#[local] Existing Instance toy_identity_laws.

Lemma pow_target_witness :
  0 <= 8 <= 256 /\ verify_pow [0] 1000 5 8 1200 = true /\
  Z.abs (1200 - 1000) <= MAX_TIMESTAMP_DRIFT_SECS /\ from_be (pow_hash [0] 1000 5) < 2 ^ (256 - 8).
Proof.
  split; [lia|]. assert (Hv : verify_pow [0] 1000 5 8 1200 = true) by (vm_compute; reflexivity).
  split; [exact Hv|]. apply (pow_target [0] 1000 5 8 1200 0); [lia|exact Hv].
Defined.
