(* ===== verification/Float.v ===== *)
(** * Floating-point numbers

    [f64] as IEEE 754 binary64 of the Standard Library's specification, for the
    receive budgets of links and sessions. *)
From Stdlib Require Export SpecFloat.
From S2P Require Import Prelude.

Definition f64_of (n : Z) : spec_float := binary_normalize 53 1024 n 0 false.
Definition f64_add : spec_float -> spec_float -> spec_float := SFadd 53 1024.
Definition f64_sub : spec_float -> spec_float -> spec_float := SFsub 53 1024.
Definition f64_mul : spec_float -> spec_float -> spec_float := SFmul 53 1024.
Definition f64_div : spec_float -> spec_float -> spec_float := SFdiv 53 1024.

(** [f64::min]: the other operand when one is not a number. *)
Definition f64_min (a b : spec_float) : spec_float :=
  match a, b with
  | S754_nan, _ => b
  | _, S754_nan => a
  | _, _ => if SFltb b a then b else a
  end.

(** [Duration::as_secs_f64] of nanoseconds. *)
Definition as_secs_f64 (nanos : Z) : spec_float :=
  f64_add (f64_of (nanos / 1000000000)) (f64_div (f64_of (nanos mod 1000000000)) (f64_of 1000000000)).

(** [Instant::duration_since], zero when the clock seems to go back. *)
Definition duration_between (now updated : Z) : Z := Z.max 0 (now - updated).

(** [(budget + elapsed.as_secs_f64() * rate).min(maximum)]. *)
Definition refill (budget : spec_float) (elapsed rate maximum : Z) : spec_float :=
  f64_min (f64_add budget (f64_mul (as_secs_f64 elapsed) (f64_of rate))) (f64_of maximum).
