(* ===== verification/LinkCover.v ===== *)
(** * Covered links (src/onion/link_cover.rs)

    A link end that emits one fixed-size envelope per time slot, data or noise.
    Three workers run next to the application: the producer cuts the
    application's bytes into cells and queues them, the writer sends one
    envelope per slot, and the reader of the other end unpacks envelopes within
    a receive budget. [Sender] and [Receiver] hold what the workers share;
    [link_step] interleaves the workers, the application and the failures. The
    duplex pipe, the queue and the transport underneath keep bytes in order;
    their answers (how much was accepted, where a write broke off, whether a
    deadline passed) are arguments. Floating-point numbers are those of IEEE
    754 as the Standard Library computes them. *)
From S2P Require Import Prelude Float Cell Identity Flow.

(** ** Data *)
Definition CELL : nat := ONION_CELL_SIZE.
Definition FRAME : nat := CELL + 4.
Definition QUEUE : nat := 64.

#[global] Arguments CELL : simpl never.
#[global] Arguments FRAME : simpl never.
#[global] Arguments QUEUE : simpl never.

Definition link_invalid (message : string) : IoError := mkIoError InvalidData message.

(** [ls_partial] is the cell the producer is reading, [ls_ready] a whole cell
    it waits to queue. *)
Record Sender := mkSender {
  ls_application : bytes;
  ls_app_shutdown : bool;
  ls_accepted : Z;
  ls_flushing : option Z;
  ls_shutting : bool;
  ls_shutdown_done : bool;
  ls_partial : bytes;
  ls_ready : option bytes;
  ls_producer_done : bool;
  ls_queue : list bytes;
  ls_clock : Z;
  ls_sent : Z;
  ls_progress : Z;
  ls_finished : bool;
  ls_cancel : bool;
}.

Record Receiver := mkReceiver {
  lr_credit : spec_float;
  lr_updated : Z;
  lr_application : bytes;
  lr_cancel : bool;
}.

(** ** The application's side *)
Definition fresh_sender (phase now : Z) : Sender :=
  mkSender [] false 0 None false false [] None false [] (now + phase) 0 0 false false.

(** [wrap]: the interval is in nanoseconds and [phase] the random draw. *)
Definition wrap (interval phase now : Z) : result IoError (Sender * Receiver) :=
  if negb ((10000000 <=? interval) && (interval <=? 1000000000)) then Err (link_invalid "Covered link interval out of bounds")
  else Ok (fresh_sender phase now, mkReceiver (f64_of 128) now [] false).

Definition accept (self : Sender) (b : bytes) : Sender :=
  mkSender (ls_application self ++ b) (ls_app_shutdown self) (wrapping_add u64_MAX (ls_accepted self) (Z.of_nat (length b)))
    None (ls_shutting self) (ls_shutdown_done self) (ls_partial self) (ls_ready self) (ls_producer_done self)
    (ls_queue self) (ls_clock self) (ls_sent self) (ls_progress self) (ls_finished self) (ls_cancel self).

(** [answer] is what the duplex pipe says: how many bytes it took. *)
Definition poll_write (self : Sender) (buf : bytes) (answer : Poll (result IoError nat)) : Sender * Poll (result IoError nat) :=
  if ls_shutting self || ls_shutdown_done self || ls_cancel self then
    (self, Ready (Err (mkIoError BrokenPipe "Covered link shutting down")))
  else
    match answer with
    | Ready (Ok count) => (accept self (take count buf), answer)
    | _ => (self, answer)
    end.

Definition set_flushing (self : Sender) (target : option Z) (cancel : bool) : Sender :=
  mkSender (ls_application self) (ls_app_shutdown self) (ls_accepted self) target (ls_shutting self) (ls_shutdown_done self)
    (ls_partial self) (ls_ready self) (ls_producer_done self) (ls_queue self) (ls_clock self) (ls_sent self) (ls_progress self)
    (ls_finished self) cancel.

(** [failure] is the error of the pending future, if any: the deadline passed or
    the writer is gone. *)
Definition poll_flush (self : Sender) (failure : option IoError) : Sender * Poll (result IoError unit) :=
  if negb (ls_accepted self mod Z.of_nat CELL =? 0) then (self, Ready (Err (link_invalid "Cannot flush a partial onion cell")))
  else
    let target := default (ls_accepted self) (ls_flushing self) in
    if target <=? ls_progress self then (set_flushing self None (ls_cancel self), Ready (Ok tt))
    else
      match failure with
      | Some e => (set_flushing self None true, Ready (Err e))
      | None => (set_flushing self (Some target) (ls_cancel self), Pending)
      end.

Definition set_shutdown (self : Sender) (app_shutdown shutting shutdown_done cancel : bool) : Sender :=
  mkSender (ls_application self) app_shutdown (ls_accepted self) (ls_flushing self) shutting shutdown_done
    (ls_partial self) (ls_ready self) (ls_producer_done self) (ls_queue self) (ls_clock self) (ls_sent self) (ls_progress self)
    (ls_finished self) cancel.

(** [answer] is what shutting down the duplex pipe says, [failure] as above. *)
Definition poll_shutdown (self : Sender) (answer : Poll (result IoError unit)) (failure : option IoError) : Sender * Poll (result IoError unit) :=
  if ls_shutdown_done self then (self, Ready (Ok tt))
  else
    let poll self :=
      if ls_finished self then (set_shutdown self true true true (ls_cancel self), Ready (Ok tt))
      else
        match failure with
        | Some e => (set_shutdown self true false false true, Ready (Err e))
        | None => (self, Pending)
        end in
    if ls_shutting self then poll self
    else
      match answer with
      | Pending => (self, Pending)
      | Ready (Err e) => (self, Ready (Err e))
      | Ready (Ok _) => poll (set_shutdown self true true false (ls_cancel self))
      end.

(** ** The producer *)
Definition set_producer (self : Sender) (application partial : bytes) (ready : option bytes) (producer_done : bool)
    (queue : list bytes) (cancel : bool) : Sender :=
  mkSender application (ls_app_shutdown self) (ls_accepted self) (ls_flushing self) (ls_shutting self) (ls_shutdown_done self)
    partial ready producer_done queue (ls_clock self) (ls_sent self) (ls_progress self) (ls_finished self) cancel.

(** One read that takes [n] bytes: the first byte of a cell alone, then any
    part of the rest. *)
Definition producer_read (self : Sender) (n : nat) : Sender :=
  let wanted := if (length (ls_partial self) =? 0)%nat then 1%nat else (CELL - length (ls_partial self))%nat in
  let n := (n `min` wanted)%nat in
  match ls_application self with
  | [] =>
      if negb (ls_app_shutdown self) then self
      else if (length (ls_partial self) =? 0)%nat then
        set_producer self [] [] (ls_ready self) true (ls_queue self) (ls_cancel self)
      else set_producer self [] (ls_partial self) (ls_ready self) true (ls_queue self) true
  | application =>
      let partial := ls_partial self ++ take n application in
      if (length partial =? CELL)%nat
      then set_producer self (drop n application) [] (Some partial) (ls_producer_done self) (ls_queue self) (ls_cancel self)
      else set_producer self (drop n application) partial (ls_ready self) (ls_producer_done self) (ls_queue self) (ls_cancel self)
  end.

(** Queueing the cell once there is room. *)
Definition producer_send (self : Sender) : Sender :=
  match ls_ready self with
  | None => self
  | Some cell =>
      if (length (ls_queue self) <? QUEUE)%nat
      then set_producer self (ls_application self) (ls_partial self) None (ls_producer_done self) (ls_queue self ++ [cell]) (ls_cancel self)
      else self
  end.

(** ** The writer *)
Definition envelope (kind : Z) (body : bytes) : bytes := [1; kind; 0; 0] ++ body.

Definition set_writer (self : Sender) (queue : list bytes) (clock sent : Z) (finished cancel : bool) : Sender :=
  mkSender (ls_application self) (ls_app_shutdown self) (ls_accepted self) (ls_flushing self) (ls_shutting self) (ls_shutdown_done self)
    (ls_partial self) (ls_ready self) (ls_producer_done self) queue clock sent sent finished cancel.

(** One slot: the bytes put on the wire. [noise] is the random padding,
    [broken] how many bytes went out when the write failed, [now] the time
    after the write. *)
Definition writer_slot (self : Sender) (interval now : Z) (noise : bytes) (broken : option nat) : Sender * bytes :=
  let next := default (ls_clock self) (next_deadline (ls_clock self) now interval) in
  match ls_queue self with
  | cell :: rest =>
      let frame := envelope 1 cell in
      match broken with
      | Some k => (set_writer self rest (ls_clock self) (ls_sent self) false true, take k frame)
      | None => (set_writer self rest next (wrapping_add u64_MAX (ls_sent self) (Z.of_nat CELL)) false (ls_cancel self), frame)
      end
  | [] =>
      if ls_producer_done self then
        match broken with
        | Some _ => (set_writer self [] (ls_clock self) (ls_sent self) false true, [])
        | None => (set_writer self [] (ls_clock self) (ls_sent self) true true, [])
        end
      else
        match broken with
        | Some k => (set_writer self [] (ls_clock self) (ls_sent self) false true, take k (envelope 2 noise))
        | None => (set_writer self [] next (ls_sent self) false (ls_cancel self), envelope 2 noise)
        end
  end.

(** ** The reader *)
(** One frame of exactly [FRAME] bytes. [broken] is how much of its data the
    application took when it closed its end or the deadline passed. *)
Definition reader_frame (self : Receiver) (now : Z) (frame : bytes) (broken : option (nat * IoError)) : Receiver * result IoError unit :=
  let credit := refill (lr_credit self) (duration_between now (lr_updated self)) 200 128 in
  let fail credit e := (mkReceiver credit now (lr_application self) true, Err (link_invalid e)) in
  if SFltb credit (f64_of 1) then fail credit "Covered link receive budget exhausted"%string
  else
    let credit := f64_sub credit (f64_of 1) in
    if negb (frame !!! 0%nat =? 1) || negb (bool_decide (slice 2 4 frame = [0; 0])) then fail credit "Invalid covered envelope"%string
    else
      match frame !!! 1%nat with
      | 1 =>
          match broken with
          | Some (n, e) => (mkReceiver credit now (lr_application self ++ take n (drop 4 frame)) true, Err e)
          | None => (mkReceiver credit now (lr_application self ++ drop 4 frame) (lr_cancel self), Ok tt)
          end
      | 2 => (mkReceiver credit now (lr_application self) (lr_cancel self), Ok tt)
      | _ => fail credit "Unknown covered envelope kind"%string
      end.

(** ** A link in one direction *)

(** What a frame on the wire carries. *)
Inductive Envelope := DataFrame (cell : bytes) | NoiseFrame (noise : bytes).
Definition frame_bytes (f : Envelope) : bytes :=
  match f with DataFrame cell => envelope 1 cell | NoiseFrame noise => envelope 2 noise end.
Definition frame_data (f : Envelope) : bytes := match f with DataFrame cell => cell | NoiseFrame _ => [] end.
Definition frame_ok (f : Envelope) : Prop := match f with DataFrame b | NoiseFrame b => length b = CELL end.

(** The frame of a slot. *)
Definition slot_frame (s : Sender) (noise : bytes) : list Envelope :=
  match ls_queue s with
  | cell :: _ => [DataFrame cell]
  | [] => if ls_producer_done s then [] else [NoiseFrame noise]
  end.

(** Both ends, the bytes on the wire, and four histories: the bytes the
    application got accepted, the frames written in full, the times of their
    slots, and how many of them the reader has taken. *)
Record Link := mkLink {
  lk_sender : Sender;
  lk_wire : bytes;
  lk_receiver : Receiver;
  lk_input : bytes;
  lk_frames : list Envelope;
  lk_times : list Z;
  lk_taken : nat;
}.

Definition set_sender (l : Link) (s : Sender) : Link :=
  mkLink s (lk_wire l) (lk_receiver l) (lk_input l) (lk_frames l) (lk_times l) (lk_taken l).

Inductive link_step (interval : Z) : Link -> Link -> Prop :=
| step_write l buf count s :
    poll_write (lk_sender l) buf (Ready (Ok count)) = (s, Ready (Ok count)) ->
    link_step interval l
      (mkLink s (lk_wire l) (lk_receiver l) (lk_input l ++ take count buf) (lk_frames l) (lk_times l) (lk_taken l))
| step_flush l failure : link_step interval l (set_sender l (poll_flush (lk_sender l) failure).1)
| step_shutdown l answer failure : link_step interval l (set_sender l (poll_shutdown (lk_sender l) answer failure).1)
| step_read l n :
    ls_cancel (lk_sender l) = false -> ls_producer_done (lk_sender l) = false -> ls_ready (lk_sender l) = None ->
    link_step interval l (set_sender l (producer_read (lk_sender l) n))
| step_send l :
    ls_cancel (lk_sender l) = false -> link_step interval l (set_sender l (producer_send (lk_sender l)))
| step_slot l now noise broken s out :
    ls_cancel (lk_sender l) = false -> ls_clock (lk_sender l) <= now -> length noise = CELL ->
    (forall k, broken = Some k -> (k <= FRAME)%nat) ->
    writer_slot (lk_sender l) interval now noise broken = (s, out) ->
    let full := (length out =? FRAME)%nat in
    link_step interval l
      (mkLink s (lk_wire l ++ out) (lk_receiver l) (lk_input l)
         (if full then lk_frames l ++ slot_frame (lk_sender l) noise else lk_frames l)
         (if full then lk_times l ++ [now] else lk_times l) (lk_taken l))
| step_frame l now broken :
    lr_cancel (lk_receiver l) = false -> (FRAME <= length (lk_wire l))%nat ->
    link_step interval l
      (mkLink (lk_sender l) (drop FRAME (lk_wire l)) (reader_frame (lk_receiver l) now (take FRAME (lk_wire l)) broken).1
         (lk_input l) (lk_frames l) (lk_times l) (S (lk_taken l)))
| step_cancel l :
    link_step interval l (set_sender l (set_flushing (lk_sender l) (ls_flushing (lk_sender l)) true)).

Definition fresh_link (phase now : Z) : Link :=
  mkLink (fresh_sender phase now) [] (mkReceiver (f64_of 128) now [] false) [] [] [] 0.

(** ** Invariant *)

(** The data the sender still holds, in order. *)
Definition held (s : Sender) : bytes :=
  concat (ls_queue s) ++ default [] (ls_ready s) ++ ls_partial s ++ ls_application s.

(** The clock after slots at the given times. *)
Definition slot_clock (interval start : Z) (times : list Z) : Z :=
  fold_left (fun clock now => default clock (next_deadline clock now interval)) times start.

(** [rest] is the accepted data that no full frame carries. *)
Record sender_inv (interval start : Z) (s : Sender) (input : bytes) (frames : list Envelope) (times : list Z) (rest : bytes)
    : Prop := {
  si_frames : Forall frame_ok frames;
  si_data : input = (frames ≫= frame_data) ++ rest;
  si_sent : Z.of_nat (length input) <= u64_MAX -> 0 <= ls_sent s <= Z.of_nat (length (frames ≫= frame_data));
  si_progress : ls_progress s = ls_sent s;
  si_accepted : Z.of_nat (length input) <= u64_MAX -> ls_accepted s = Z.of_nat (length input);
  si_flushing : forall t, ls_flushing s = Some t -> t = ls_accepted s;
  si_cells : Forall (fun c => length c = CELL) (ls_queue s ++ option_list (ls_ready s));
  si_queue : (length (ls_queue s) <= QUEUE)%nat;
  si_partial : (length (ls_partial s) < CELL)%nat;
  si_closed : ls_app_shutdown s = true -> ls_shutting s || ls_shutdown_done s || ls_cancel s = true;
  si_done : ls_producer_done s = true -> ls_cancel s = false ->
    ls_app_shutdown s = true /\ ls_application s = [] /\ ls_partial s = [] /\ ls_ready s = None;
  si_finished : ls_finished s = true -> rest = [] /\ ls_cancel s = true;
  si_shutdown : ls_shutdown_done s = true -> ls_finished s = true;
  si_running : ls_cancel s = false ->
    rest = held s /\ length times = length frames /\ ls_clock s = slot_clock interval start times;
}.

Record wire_inv (l : Link) (tail : bytes) : Prop := {
  wi_wire : lk_wire l = (drop (lk_taken l) (lk_frames l) ≫= frame_bytes) ++ tail;
  wi_tail : (length tail < FRAME)%nat;
  wi_running : ls_cancel (lk_sender l) = false -> tail = [];
  wi_taken : (lk_taken l <= length (lk_frames l))%nat;
  wi_delivered : lr_application (lk_receiver l) `prefix_of` (take (lk_taken l) (lk_frames l) ≫= frame_data);
  wi_exact : lr_cancel (lk_receiver l) = false ->
    lr_application (lk_receiver l) = (take (lk_taken l) (lk_frames l) ≫= frame_data);
}.

Definition link_inv (interval start : Z) (l : Link) : Prop :=
  (exists rest, sender_inv interval start (lk_sender l) (lk_input l) (lk_frames l) (lk_times l) rest) /\
  (exists tail, wire_inv l tail).

(** ** Preservation *)
Section SenderSteps.
Context (interval start : Z).

Ltac sender_cbn :=
  cbn [accept set_flushing set_shutdown set_producer set_writer ls_application ls_app_shutdown ls_accepted ls_flushing ls_shutting
       ls_shutdown_done ls_partial ls_ready ls_producer_done ls_queue ls_clock ls_sent ls_progress ls_finished ls_cancel] in *.

Lemma write_inv s input frames times rest b :
  sender_inv interval start s input frames times rest ->
  ls_shutting s || ls_shutdown_done s || ls_cancel s = false ->
  exists rest', sender_inv interval start (accept s b) (input ++ b) frames times rest'.
Proof.
  intros I Hopen. destruct (orb_false_elim _ _ Hopen) as [_ Hc]. destruct (si_running _ _ _ _ _ _ _ I Hc) as (-> & Ht & Hk).
  assert (Hns : ls_app_shutdown s = false).
  { destruct (ls_app_shutdown s) eqn:E; [|done]. by rewrite (si_closed _ _ _ _ _ _ _ I E) in Hopen. }
  exists (held s ++ b). destruct I. constructor; sender_cbn; try done.
  - by rewrite si_data0, app_assoc.
  - intros Hl. rewrite length_app in Hl. apply si_sent0. lia.
  - intros Hl. rewrite length_app in Hl |- *. rewrite si_accepted0 by lia. unfold wrapping_add. rewrite Z.mod_small; lia.
  - intros Hd _. destruct (si_done0 Hd Hc) as [? _]. congruence.
  - intros Hf. destruct (si_finished0 Hf). congruence.
  - intros _. split_and!; try done. unfold held. sender_cbn. by rewrite <- !app_assoc.
Qed.

(** Changing the flush target and cancelling. *)
Lemma flushing_inv s input frames times rest target c :
  sender_inv interval start s input frames times rest ->
  (forall t, target = Some t -> t = ls_accepted s) -> (ls_cancel s = true -> c = true) ->
  sender_inv interval start (set_flushing s target c) input frames times rest.
Proof.
  intros I Ht Hc. destruct I. constructor; sender_cbn; try done.
  - intros E. specialize (si_closed0 E). apply orb_true_iff in si_closed0 as [->| ->%Hc]; [done|by rewrite orb_true_r].
  - intros Hd Hcf. apply si_done0; [done|]. destruct (ls_cancel s); [by rewrite Hc in Hcf|done].
  - intros Hf. destruct (si_finished0 Hf) as [? Hcs]. auto.
  - intros Hcf. apply si_running0. destruct (ls_cancel s); [by rewrite Hc in Hcf|done].
Qed.

Lemma flush_inv s input frames times rest failure :
  sender_inv interval start s input frames times rest ->
  sender_inv interval start (poll_flush s failure).1 input frames times rest.
Proof.
  intros I. unfold poll_flush. destruct (negb _); [done|]. destruct (_ <=? _); [by apply flushing_inv|].
  destruct failure; apply flushing_inv; try done. intros t [= <-].
  destruct (ls_flushing s) as [t|] eqn:E; [|done]. by apply (si_flushing _ _ _ _ _ _ _ I).
Qed.

Lemma shutdown_inv s input frames times rest answer failure :
  sender_inv interval start s input frames times rest ->
  sender_inv interval start (poll_shutdown s answer failure).1 input frames times rest.
Proof.
  intros I. unfold poll_shutdown. destruct (ls_shutdown_done s) eqn:Hsd; [done|].
  assert (Hbegin : sender_inv interval start (set_shutdown s true true false (ls_cancel s)) input frames times rest).
  { destruct I. constructor; sender_cbn; try done. intros Hd Hc. destruct (si_done0 Hd Hc) as (_ & ?). done. }
  assert (Hpoll : forall s', sender_inv interval start s' input frames times rest ->
    sender_inv interval start (if ls_finished s' then (set_shutdown s' true true true (ls_cancel s'), Ready (Ok tt)) else
      match failure with Some e => (set_shutdown s' true false false true, Ready (Err e)) | None => (s', Pending) end).1
      input frames times rest).
  { intros s' I'. destruct (ls_finished s') eqn:Hf; [|destruct failure; [|done]]; destruct I'; constructor; sender_cbn; try done.
    - intros Hd Hc. destruct (si_done0 Hd Hc) as (_ & ?). done.
    - intros Hf'. destruct (si_finished0 Hf'). done. }
  destruct (ls_shutting s); [by apply Hpoll|]. destruct answer as [|[|]]; [done|by apply Hpoll|done].
Qed.

Lemma read_inv s input frames times rest n :
  sender_inv interval start s input frames times rest ->
  ls_cancel s = false -> ls_producer_done s = false -> ls_ready s = None ->
  sender_inv interval start (producer_read s n) input frames times rest.
Proof.
  intros I Hc Hpd Hr. unfold producer_read. set (m := (n `min` _)%nat). assert (Hheld := si_running _ _ _ _ _ _ _ I Hc).
  destruct (ls_application s) as [|x more] eqn:Ea.
  - destruct (ls_app_shutdown s) eqn:Hs; cbn [negb]; [|done]. destruct (_ =? 0)%nat eqn:Hp.
    + apply Nat.eqb_eq, length_zero_iff_nil in Hp. destruct I. constructor; sender_cbn; try done; try congruence.
      * intros _. destruct Hheld as (-> & ? & ?). split_and!; try done. unfold held. sender_cbn. by rewrite Ea, Hp.
    + destruct I. constructor; sender_cbn; try done; try congruence.
      * intros _. by rewrite orb_true_r.
      * intros Hf. destruct (si_finished0 Hf). congruence.
  - set (full := x :: more) in *. destruct (_ =? CELL)%nat eqn:Hl.
    + apply Nat.eqb_eq in Hl. destruct I. constructor; sender_cbn; try done; try congruence.
      * rewrite Hr in si_cells0. cbn in *. rewrite app_nil_r in si_cells0. apply Forall_app_2; [done|by repeat constructor].
      * unfold CELL, ONION_CELL_SIZE. cbn [length]. lia.
      * intros _. destruct Hheld as (-> & ? & ?). split_and!; try done. unfold held. sender_cbn.
        rewrite Ea, Hr. cbn [from_option id]. rewrite !app_nil_l. by rewrite <- !app_assoc, (take_drop m full).
    + apply Nat.eqb_neq in Hl. destruct I. constructor; sender_cbn; try done; try congruence.
      * rewrite length_app, length_take in Hl |- *. subst m. destruct (_ =? 0)%nat eqn:Hz; reflect_bools; lia.
      * intros _. destruct Hheld as (-> & ? & ?). split_and!; try done. unfold held. sender_cbn.
        rewrite Ea. by rewrite <- !app_assoc, (take_drop m full).
Qed.

Lemma send_inv s input frames times rest :
  sender_inv interval start s input frames times rest -> ls_cancel s = false ->
  sender_inv interval start (producer_send s) input frames times rest.
Proof.
  intros I Hc. unfold producer_send. destruct (ls_ready s) as [cell|] eqn:Hr; [|done].
  destruct (_ <? QUEUE)%nat eqn:Hq; [|done]. apply Nat.ltb_lt in Hq. assert (Hheld := si_running _ _ _ _ _ _ _ I Hc).
  destruct I. constructor; sender_cbn; try done.
  - rewrite Hr in si_cells0. by rewrite app_nil_r.
  - rewrite length_app. cbn. lia.
  - intros Hd Hcf. destruct (si_done0 Hd Hcf) as (? & ? & ? & ?). done.
  - intros _. destruct Hheld as (-> & ? & ?). split_and!; try done. unfold held. sender_cbn. rewrite Hr, concat_app. cbn.
    by rewrite app_nil_r, <- !app_assoc.
Qed.

Lemma frame_bytes_length f : frame_ok f -> length (frame_bytes f) = FRAME.
Proof. destruct f; cbn; intros ->; unfold FRAME; lia. Qed.

Lemma CELL_pos : (0 < CELL)%nat.
Proof. unfold CELL, ONION_CELL_SIZE. lia. Qed.

Lemma FRAME_pos : (0 < FRAME)%nat.
Proof. unfold FRAME. lia. Qed.

Lemma slot_frame_ok s input frames times rest noise f :
  sender_inv interval start s input frames times rest -> length noise = CELL -> slot_frame s noise = [f] -> frame_ok f.
Proof.
  intros I Hn. unfold slot_frame. destruct (ls_queue s) as [|cell q] eqn:Eq.
  - destruct (ls_producer_done s); [done|]. by intros [= <-].
  - intros [= <-]. pose proof (si_cells _ _ _ _ _ _ _ I) as Hc. rewrite Eq in Hc. by apply Forall_cons in Hc as [? _].
Qed.

(** A slot puts a whole frame on the wire, or the link is given up. *)
Lemma slot_out s noise now broken s' out :
  writer_slot s interval now noise broken = (s', out) -> (forall k, broken = Some k -> (k <= FRAME)%nat) ->
  (forall f, slot_frame s noise = [f] -> frame_ok f) ->
  (length out = FRAME /\ exists f, slot_frame s noise = [f] /\ out = frame_bytes f) \/
  ((length out < FRAME)%nat /\ ls_cancel s' = true).
Proof.
  intros Hw Hk Hf. unfold writer_slot, slot_frame in *.
  assert (Hbroken : forall f k, frame_ok f -> broken = Some k ->
    (length (take k (frame_bytes f)) = FRAME /\ take k (frame_bytes f) = frame_bytes f) \/ (length (take k (frame_bytes f)) < FRAME)%nat).
  { intros f k Hok Hb%Hk. pose proof (frame_bytes_length f Hok) as Hl. rewrite length_take, Hl.
    destruct (decide (k = FRAME)) as [->|]; [left|right; lia]. split; [lia|]. by rewrite take_ge by lia. }
  destruct (ls_queue s) as [|cell q]; [destruct (ls_producer_done s)|].
  - right. unfold FRAME. pose proof CELL_pos. destruct broken; injection Hw as <- <-; sender_cbn; cbn [length]; split; (done || lia).
  - specialize (Hf _ eq_refl). destruct broken as [k|]; injection Hw as <- <-; sender_cbn.
    + destruct (Hbroken (NoiseFrame noise) k Hf eq_refl) as [[Hl E]|Hl]; [left; eauto|right; auto].
    + left. split; [by apply (frame_bytes_length (NoiseFrame noise))|]. eauto.
  - specialize (Hf _ eq_refl). destruct broken as [k|]; injection Hw as <- <-; sender_cbn.
    + destruct (Hbroken (DataFrame cell) k Hf eq_refl) as [[Hl E]|Hl]; [left; eauto|right; auto].
    + left. split; [by apply (frame_bytes_length (DataFrame cell))|]. eauto.
Qed.

(** Giving up on a slot: data popped from the queue may be lost. *)
Lemma broken_inv s input frames times rest q frames' times' rest' :
  sender_inv interval start s input frames times rest -> ls_cancel s = false ->
  (q = ls_queue s \/ exists c, ls_queue s = c :: q) -> Forall frame_ok frames' ->
  input = (frames' ≫= frame_data) ++ rest' ->
  (length (frames ≫= frame_data) <= length (frames' ≫= frame_data))%nat ->
  sender_inv interval start (set_writer s q (ls_clock s) (ls_sent s) false true) input frames' times' rest'.
Proof.
  intros I Hc Hq Hf Hd Hl. destruct I. constructor; sender_cbn; try done.
  - intros Hi. specialize (si_sent0 Hi). lia.
  - destruct Hq as [->|[c E]]; [done|]. rewrite E in si_cells0. by apply Forall_cons in si_cells0 as [_ ?].
  - destruct Hq as [->|[c E]]; [done|]. rewrite E in si_queue0. cbn in si_queue0. lia.
  - intros _. by rewrite orb_true_r.
  - intros Hs. destruct (si_finished0 (si_shutdown0 Hs)). congruence.
Qed.

Lemma bind_snoc {A B} (f : A -> list B) l x : (l ++ [x]) ≫= f = (l ≫= f) ++ f x.
Proof. rewrite bind_app. cbn. by rewrite app_nil_r. Qed.

(** A slot in which the whole frame goes out and the writer goes on. *)
Lemma emit_inv s input frames times f q sent now :
  sender_inv interval start s input frames times (held s) -> ls_cancel s = false -> ls_producer_done s = false \/ ls_queue s <> [] ->
  frame_ok f -> held s = frame_data f ++ concat q ++ default [] (ls_ready s) ++ ls_partial s ++ ls_application s ->
  (q = ls_queue s \/ exists c, ls_queue s = c :: q) ->
  (Z.of_nat (length input) <= u64_MAX -> 0 <= sent <= Z.of_nat (length ((frames ++ [f]) ≫= frame_data))) ->
  sender_inv interval start
    (set_writer s q (default (ls_clock s) (next_deadline (ls_clock s) now interval)) sent false (ls_cancel s))
    input (frames ++ [f]) (times ++ [now]) (concat q ++ default [] (ls_ready s) ++ ls_partial s ++ ls_application s).
Proof.
  intros I Hc _ Hf Hheld Hq Hsent. destruct (si_running _ _ _ _ _ _ _ I Hc) as (_ & Ht & Hk).
  destruct I. constructor; sender_cbn; try done.
  - apply Forall_app_2; [done|by constructor].
  - by rewrite si_data0, Hheld, bind_snoc, <- app_assoc.
  - destruct Hq as [->|[c E]]; [done|]. rewrite E in si_cells0. by apply Forall_cons in si_cells0 as [_ ?].
  - destruct Hq as [->|[c E]]; [done|]. rewrite E in si_queue0. cbn in si_queue0. lia.
  - intros Hs. destruct (si_finished0 (si_shutdown0 Hs)). congruence.
  - intros _. split_and!; [done|rewrite !length_app, Ht; done|]. unfold slot_clock. by rewrite fold_left_app, Hk.
Qed.

Lemma slot_inv s input frames times rest noise now broken s' out :
  sender_inv interval start s input frames times rest -> ls_cancel s = false -> length noise = CELL ->
  (forall k, broken = Some k -> (k <= FRAME)%nat) -> writer_slot s interval now noise broken = (s', out) ->
  exists rest', sender_inv interval start s' input
    (if (length out =? FRAME)%nat then frames ++ slot_frame s noise else frames)
    (if (length out =? FRAME)%nat then times ++ [now] else times) rest'.
Proof.
  intros I Hc Hn Hk Hw. destruct (si_running _ _ _ _ _ _ _ I Hc) as (-> & Ht & _).
  pose proof (slot_out s noise now broken s' out Hw Hk (fun f => slot_frame_ok _ _ _ _ _ _ f I Hn)) as Hout.
  pose proof (si_data _ _ _ _ _ _ _ I) as Hd. unfold writer_slot in Hw. unfold slot_frame in *.
  destruct (ls_queue s) as [|cell q] eqn:Eq; [destruct (ls_producer_done s) eqn:Epd|].
  - assert (Hnot : (length out =? FRAME)%nat = false).
    { apply Nat.eqb_neq. destruct Hout as [(_ & f & ? & _)|[? _]]; [done|lia]. }
    rewrite Hnot. exists (held s). destruct broken; injection Hw as <- <-.
    + apply (broken_inv s input frames times (held s)); [done|done|by left|apply I|done|done].
    + assert (Hheld : held s = []).
      { destruct (si_done _ _ _ _ _ _ _ I Epd Hc) as (_ & Ha & Hp & Hr). unfold held. by rewrite Eq, Ha, Hp, Hr. }
      destruct I. constructor; sender_cbn; try done; [|cbn; lia|intros _; by rewrite orb_true_r].
      rewrite Eq in si_cells0. done.
  - assert (Hok : frame_ok (NoiseFrame noise)) by done. destruct broken as [k|]; injection Hw as <- <-.
    + exists (held s). destruct (_ =? FRAME)%nat.
      * apply (broken_inv s input frames times (held s)); [done|done|by left| | |].
        -- apply Forall_app_2; [apply I|by constructor].
        -- rewrite bind_snoc. cbn. by rewrite app_nil_r.
        -- rewrite bind_snoc, length_app. lia.
      * apply (broken_inv s input frames times (held s)); [done|done|by left|apply I|done|done].
    + destruct Hout as [(Hl & _)|[Hl _]]; [|pose proof (frame_bytes_length _ Hok) as E; cbn [frame_bytes] in E; lia].
      rewrite Hl, Nat.eqb_refl. eexists. apply emit_inv; try done; [by left|by unfold held; rewrite Eq|by left|].
      intros Hi. rewrite bind_snoc, length_app. pose proof (si_sent _ _ _ _ _ _ _ I Hi). lia.
  - assert (Hok : frame_ok (DataFrame cell)).
    { apply (slot_frame_ok s input frames times (held s) noise); [done|done|]. unfold slot_frame. by rewrite Eq. }
    assert (Hheld : held s = cell ++ concat q ++ default [] (ls_ready s) ++ ls_partial s ++ ls_application s).
    { unfold held. rewrite Eq. cbn. by rewrite <- app_assoc. }
    destruct broken as [k|]; injection Hw as <- <-.
    + destruct (_ =? FRAME)%nat.
      * eexists. apply (broken_inv s input frames times (held s)); [done|done|by right; exists cell| | |].
        -- apply Forall_app_2; [apply I|by constructor].
        -- rewrite Hd, Hheld, bind_snoc, <- app_assoc. done.
        -- rewrite bind_snoc, length_app. lia.
      * eexists. apply (broken_inv s input frames times (held s)); [done|done|by right; exists cell|apply I|done|done].
    + destruct Hout as [(Hl & _)|[Hl _]]; [|pose proof (frame_bytes_length _ Hok) as E; cbn [frame_bytes] in E; lia].
      rewrite Hl, Nat.eqb_refl. eexists. apply emit_inv; try done; [by right; rewrite Eq|by right; exists cell|].
      intros Hi. pose proof (si_sent _ _ _ _ _ _ _ I Hi) as Hs. rewrite bind_snoc, length_app. cbn [frame_data].
      rewrite Hd, Hheld, !length_app in Hi. cbn in Hok. unfold wrapping_add. rewrite Z.mod_small; lia.
Qed.
End SenderSteps.

Section LinkSteps.
Context (interval start : Z).

Lemma frames_length frames : Forall frame_ok frames -> length (frames ≫= frame_bytes) = (length frames * FRAME)%nat.
Proof.
  induction 1 as [|f frames Hf _ IH]; [done|]. rewrite bind_cons, length_app, IH, (frame_bytes_length f Hf). cbn. lia.
Qed.

(** Taking a frame off the wire takes the next frame that was sent. *)
Lemma take_frame l tail rest :
  sender_inv interval start (lk_sender l) (lk_input l) (lk_frames l) (lk_times l) rest -> wire_inv l tail ->
  (FRAME <= length (lk_wire l))%nat ->
  exists f, lk_frames l !! lk_taken l = Some f /\ frame_ok f /\ take FRAME (lk_wire l) = frame_bytes f /\
    drop FRAME (lk_wire l) = (drop (S (lk_taken l)) (lk_frames l) ≫= frame_bytes) ++ tail.
Proof.
  intros I W Hlen. pose proof (si_frames _ _ _ _ _ _ _ I) as Hok. pose proof (wi_wire _ _ W) as Hw. pose proof (wi_tail _ _ W) as Ht.
  destruct (lk_frames l !! lk_taken l) as [f|] eqn:Hf.
  - exists f. assert (Hfo : frame_ok f) by (by eapply Forall_lookup_1). split_and!; [done|done|..];
      rewrite Hw, (drop_S _ _ _ Hf), bind_cons, <- app_assoc.
    + by rewrite <- (frame_bytes_length f Hfo), take_app_length.
    + by rewrite <- (frame_bytes_length f Hfo), drop_app_length.
  - apply lookup_ge_None in Hf. rewrite Hw, drop_ge in Hlen by done. cbn in Hlen. lia.
Qed.

Lemma reader_frame_ok r now f broken :
  frame_ok f -> lr_cancel r = false ->
  let r' := (reader_frame r now (frame_bytes f) broken).1 in
  (lr_cancel r' = false /\ lr_application r' = lr_application r ++ frame_data f) \/
  (lr_cancel r' = true /\ exists n, lr_application r' = lr_application r ++ take n (frame_data f)).
Proof.
  intros Hf Hc. unfold reader_frame. destruct (SFltb _ _); [right; split; [done|]; exists 0%nat; by rewrite app_nil_r|].
  assert (E0 : frame_bytes f !!! 0%nat = 1) by (by destruct f).
  assert (E2 : slice 2 4 (frame_bytes f) = [0; 0]) by (by destruct f).
  rewrite E0, E2, bool_decide_true by done. cbn [negb orb].
  destruct f as [cell|noise]; cbn [frame_bytes frame_data].
  - destruct broken as [[n e]|]; [right; split; [done|]; by exists n|by left].
  - left. split; [done|]. cbn. by rewrite app_nil_r.
Qed.

Lemma link_inv_step l l' : link_step interval l l' -> link_inv interval start l -> link_inv interval start l'.
Proof.
  intros Hstep [[rest I] [tail W]]. assert (Hsame : forall s, (ls_cancel s = false -> ls_cancel (lk_sender l) = false) ->
    wire_inv (set_sender l s) tail).
  { intros s Hs. destruct W. constructor; cbn; auto. }
  destruct Hstep as [l buf count s Hp|l failure|l answer failure|l n Hc Hpd Hr|l Hc|l now noise broken s out Hc Hclk Hn Hk Hw full|l now broken Hc Hlen|l].
  - unfold poll_write in Hp. destruct (ls_shutting _ || _ || _) eqn:Ho; [done|]. injection Hp as <-. split; cbn.
    + by eapply write_inv.
    + exists tail. destruct W. constructor; cbn; auto.
  - split; [exists rest; by apply flush_inv|]. exists tail. apply Hsame. unfold poll_flush.
    destruct (negb _); [done|]. destruct (_ <=? _); [done|]. by destruct failure.
  - split; [exists rest; by apply shutdown_inv|]. exists tail. apply Hsame. unfold poll_shutdown.
    destruct (ls_shutdown_done _); [done|]. destruct (ls_shutting _), (ls_finished _) eqn:Ef, answer as [|[|]], failure; cbn;
      rewrite ?Ef; done.
  - split; [exists rest; by apply read_inv|]. exists tail. apply Hsame. done.
  - split; [exists rest; by apply send_inv|]. exists tail. apply Hsame. done.
  - split; cbn; [by eapply slot_inv|].
    destruct (slot_out interval (lk_sender l) noise now broken s out Hw Hk (fun f => slot_frame_ok _ _ _ _ _ _ _ _ f I Hn))
      as [(Hl & f & Hf & ->)|[Hl Hcs]]; destruct W; pose proof (wi_running0 Hc) as ->.
    + subst full. rewrite Hl, Nat.eqb_refl, Hf. exists []. constructor; cbn; try done.
      * rewrite drop_app_le, bind_snoc, wi_wire0, !app_nil_r by done. done.
      * rewrite length_app. cbn. lia.
      * by rewrite take_app_le.
      * intros Hrc. by rewrite take_app_le, wi_exact0.
    + subst full. rewrite (proj2 (Nat.eqb_neq _ _)) by lia. exists out. constructor; cbn; try done.
      * by rewrite wi_wire0, app_nil_r.
      * congruence.
  - split; [by exists rest|]. exists tail. destruct (take_frame l tail rest I W Hlen) as (f & Hf & Hok & Htake & Hdrop).
    rewrite Htake. pose proof (reader_frame_ok (lk_receiver l) now f broken Hok Hc) as Hrf. destruct W.
    assert (Htk : take (S (lk_taken l)) (lk_frames l) ≫= frame_data = (take (lk_taken l) (lk_frames l) ≫= frame_data) ++ frame_data f).
    { by rewrite (take_S_r _ _ _ Hf), bind_snoc. }
    constructor; cbn; try done.
    + apply lookup_lt_Some in Hf. lia.
    + rewrite Htk. destruct Hrf as [[_ ->]|[_ [n ->]]]; rewrite wi_exact0 by done; [done|]. apply prefix_app, prefix_take.
    + intros Hcf. destruct Hrf as [[_ ->]|[? _]]; [|congruence]. by rewrite Htk, wi_exact0.
  - split; [exists rest; apply flushing_inv; [done|apply I|done]|]. exists tail. apply Hsame. done.
Qed.

Lemma link_inv_fresh phase now : start = now + phase -> link_inv interval start (fresh_link phase now).
Proof.
  intros ->. split.
  - exists []. constructor; cbn; try done; try (intros; lia); try constructor; try apply CELL_pos. unfold QUEUE. lia.
  - exists []. constructor; cbn; try done. apply FRAME_pos.
Qed.

Lemma link_inv_reachable phase now l :
  start = now + phase -> rtc (link_step interval) (fresh_link phase now) l -> link_inv interval start l.
Proof.
  intros Hs Hr. assert (Hf := link_inv_fresh phase now Hs). induction Hr as [|l1 l2 l3 Hstep _ IH]; [done|].
  apply IH. by eapply link_inv_step.
Qed.
End LinkSteps.

(** ** Properties *)
Lemma slot_clock_bound interval start times :
  0 < interval -> start + interval * Z.of_nat (length times) <= slot_clock interval start times.
Proof.
  intros Hi. induction times as [|now times IH] using rev_ind; [cbn; lia|]. unfold slot_clock in *. rewrite fold_left_app, length_app.
  cbn [fold_left length]. destruct (next_deadline_cases (fold_left (fun clock now => default clock (next_deadline clock now interval)) times start) now interval Hi)
    as (d & -> & _ & Hd & _). cbn [from_option id]. lia.
Qed.

Section Properties.
Context (interval phase now0 : Z).

(** C23: a covered link delivers what the application wrote and nothing else.
    However writes, reads, slots, failed or torn writes, deadlines, exhausted
    receive budgets and shutdowns interleave, the bytes handed to the remote
    application are at any time a prefix of the bytes accepted from the local
    one: noise is never delivered, and nothing is reordered, repeated or
    invented. While neither end has given up nothing is
    lost either: the accepted bytes are those delivered, those in frames on
    the wire and those the sender holds, in this order, with at most [QUEUE]
    cells queued. *)
Theorem cover_delivery (l : Link) :
  rtc (link_step interval) (fresh_link phase now0) l ->
  lr_application (lk_receiver l) `prefix_of` lk_input l /\
  (ls_cancel (lk_sender l) = false -> lr_cancel (lk_receiver l) = false ->
     exists flight, Forall frame_ok flight /\ lk_wire l = flight ≫= frame_bytes /\
       lk_input l = lr_application (lk_receiver l) ++ (flight ≫= frame_data) ++ held (lk_sender l) /\
       (length (ls_queue (lk_sender l)) <= QUEUE)%nat).
Proof.
  intros Hr. destruct (link_inv_reachable interval (now0 + phase) phase now0 l eq_refl Hr) as [[rest I] [tail W]].
  pose proof (si_data _ _ _ _ _ _ _ I) as Hd. pose proof (take_drop (lk_taken l) (lk_frames l)) as Htd.
  rewrite <- Htd, bind_app, <- app_assoc in Hd. split.
  - rewrite Hd. apply prefix_app_r, W.
  - intros Hc Hrc. exists (drop (lk_taken l) (lk_frames l)). destruct (si_running _ _ _ _ _ _ _ I Hc) as (-> & _).
    split_and!; [apply Forall_drop, I| | |apply I].
    + by rewrite (wi_wire _ _ W), (wi_running _ _ W Hc), app_nil_r.
    + by rewrite (wi_exact _ _ W Hrc), <- Hd.
Qed.

(** A flush that succeeds, and a shutdown that succeeds, mean that every
    byte the application wrote is in frames that were written in full to the
    wire, whatever happened before. *)
Theorem cover_flush (l : Link) (failure : option IoError) (answer : Poll (result IoError unit)) :
  rtc (link_step interval) (fresh_link phase now0) l -> Z.of_nat (length (lk_input l)) <= u64_MAX ->
  (poll_flush (lk_sender l) failure).2 = Ready (Ok tt) \/ (poll_shutdown (lk_sender l) answer failure).2 = Ready (Ok tt) ->
  lk_input l = lk_frames l ≫= frame_data /\ Forall frame_ok (lk_frames l).
Proof.
  intros Hr Hlen Hok. destruct (link_inv_reachable interval (now0 + phase) phase now0 l eq_refl Hr) as [[rest I] _].
  pose proof (si_data _ _ _ _ _ _ _ I) as Hd. assert (Hrest : rest = []); [|by rewrite Hd, Hrest, app_nil_r; split; [|apply I]].
  destruct Hok as [Hok|Hok].
  - unfold poll_flush in Hok. destruct (negb _); [discriminate Hok|]. destruct (_ <=? _) eqn:Hle; [|by destruct failure].
    apply Z.leb_le in Hle. rewrite (si_progress _ _ _ _ _ _ _ I) in Hle. pose proof (si_sent _ _ _ _ _ _ _ I Hlen) as Hs.
    assert (Ht : default (ls_accepted (lk_sender l)) (ls_flushing (lk_sender l)) = ls_accepted (lk_sender l)).
    { destruct (ls_flushing (lk_sender l)) as [t|] eqn:E; [|done]. by apply (si_flushing _ _ _ _ _ _ _ I). }
    rewrite Ht, (si_accepted _ _ _ _ _ _ _ I Hlen), Hd, length_app in Hle.
    apply length_zero_iff_nil. lia.
  - assert (Hf : ls_finished (lk_sender l) = true).
    { unfold poll_shutdown in Hok. destruct (ls_shutdown_done _) eqn:Esd; [by apply (si_shutdown _ _ _ _ _ _ _ I)|].
      destruct (ls_shutting _), (ls_finished _) eqn:Ef, answer as [|[|]], failure; cbn in Hok; rewrite ?Ef in Hok; try discriminate Hok; done. }
    by apply (si_finished _ _ _ _ _ _ _ I).
Qed.

(** What an observer of the wire sees does not depend on the traffic. As
    long as the sender runs, it has put exactly one frame of [FRAME] bytes on
    the wire per slot, data or not; the time of the next slot is a function of
    the times of the past slots alone; and slots are never repaid in a burst,
    since [n] slots move the clock by at least [n] intervals. *)
Theorem cover_shape (l : Link) :
  0 < interval -> rtc (link_step interval) (fresh_link phase now0) l -> ls_cancel (lk_sender l) = false ->
  (length (lk_wire l) + lk_taken l * FRAME = length (lk_times l) * FRAME)%nat /\
  ls_clock (lk_sender l) = slot_clock interval (now0 + phase) (lk_times l) /\
  now0 + phase + interval * Z.of_nat (length (lk_times l)) <= ls_clock (lk_sender l).
Proof.
  intros Hi Hr Hc. destruct (link_inv_reachable interval (now0 + phase) phase now0 l eq_refl Hr) as [[rest I] [tail W]].
  destruct (si_running _ _ _ _ _ _ _ I Hc) as (_ & Ht & Hk). split_and!; [|done|rewrite Hk; by apply slot_clock_bound].
  rewrite (wi_wire _ _ W), (wi_running _ _ W Hc), app_nil_r, (frames_length (drop (lk_taken l) (lk_frames l))), length_drop, Ht
    by apply Forall_drop, I.
  pose proof (wi_taken _ _ W). nia.
Qed.
End Properties.

(** ** Witnesses

    One cell is written, cut, queued and sent in the second of two slots. *)
Definition example_data : bytes := replicate CELL 7.
Definition example_noise : bytes := replicate CELL 0.
Definition example_l0 : Link := fresh_link 5000000 0.
Definition example_l1 : Link :=
  mkLink (accept (lk_sender example_l0) (take CELL example_data)) [] (lk_receiver example_l0) ([] ++ take CELL example_data) [] [] 0.
Definition example_l2 : Link := set_sender example_l1 (producer_read (lk_sender example_l1) 1).
Definition example_slot (l : Link) (now : Z) : Link :=
  let w := writer_slot (lk_sender l) 20000000 now example_noise None in
  let full := (length w.2 =? FRAME)%nat in
  mkLink w.1 (lk_wire l ++ w.2) (lk_receiver l) (lk_input l)
    (if full then lk_frames l ++ slot_frame (lk_sender l) example_noise else lk_frames l)
    (if full then lk_times l ++ [now] else lk_times l) (lk_taken l).
Definition example_l3 : Link := example_slot example_l2 6000000.
Definition example_l4 : Link := set_sender example_l3 (producer_read (lk_sender example_l3) CELL).
Definition example_l5 : Link := set_sender example_l4 (producer_send (lk_sender example_l4)).
Definition example_l6 : Link := example_slot example_l5 26000000.
Definition example_l7 : Link :=
  mkLink (lk_sender example_l6) (drop FRAME (lk_wire example_l6))
    (reader_frame (lk_receiver example_l6) 30000000 (take FRAME (lk_wire example_l6)) None).1
    (lk_input example_l6) (lk_frames example_l6) (lk_times example_l6) 1.

Lemma example_run : rtc (link_step 20000000) example_l0 example_l7.
Proof.
  assert (Hslot : forall l now, ls_cancel (lk_sender l) = false -> ls_clock (lk_sender l) <= now ->
    link_step 20000000 l (example_slot l now)).
  { intros l now Hc Hk. apply (step_slot 20000000 l now example_noise None); [done|done|apply length_replicate|done|apply surjective_pairing]. }
  apply (rtc_l _ _ example_l1); [by apply (step_write 20000000 example_l0 example_data CELL)|].
  apply (rtc_l _ _ example_l2); [by apply (step_read 20000000 example_l1 1)|].
  apply (rtc_l _ _ example_l3); [apply Hslot; [reflexivity|vm_compute; discriminate]|].
  apply (rtc_l _ _ example_l4); [by apply (step_read 20000000 example_l3 CELL)|].
  apply (rtc_l _ _ example_l5); [by apply (step_send 20000000 example_l4)|].
  apply (rtc_l _ _ example_l6); [apply Hslot; [vm_compute; reflexivity|vm_compute; discriminate]|].
  apply rtc_once. apply (step_frame 20000000 example_l6 30000000); [reflexivity|].
  apply Nat.leb_le. vm_compute. reflexivity.
Qed.

Lemma cover_delivery_witness :
  exists flight, Forall frame_ok flight /\
    lk_input example_l7 = lr_application (lk_receiver example_l7) ++ (flight ≫= frame_data) ++ held (lk_sender example_l7).
Proof.
  destruct (cover_delivery 20000000 5000000 0 example_l7 example_run) as [_ Hd].
  destruct Hd as (flight & Hok & _ & Hdata & _); [vm_compute; reflexivity..|]. exists flight. split; [exact Hok|exact Hdata].
Defined.

Lemma cover_flush_witness :
  length (lk_input example_l7) = CELL /\ lk_input example_l7 = lk_frames example_l7 ≫= frame_data.
Proof.
  split; [vm_compute; reflexivity|].
  refine (proj1 (cover_flush 20000000 5000000 0 example_l7 None Pending example_run _ (or_introl _))).
  - vm_compute. discriminate.
  - vm_compute. reflexivity.
Defined.

Lemma cover_shape_witness :
  length (lk_times example_l7) = 2%nat /\ 5000000 + 20000000 * 2 <= ls_clock (lk_sender example_l7).
Proof.
  split; [vm_compute; reflexivity|].
  refine (proj2 (proj2 (cover_shape 20000000 5000000 0 example_l7 _ example_run _))); [lia|vm_compute; reflexivity].
Defined.
