(* ===== verification/Link.v ===== *)
(** * Authenticated links (src/onion/link.rs)

    A link between two hops is a TLS 1.3 connection whose server certificate
    carries the composite identity of the relay, followed by a proof of that
    identity over a fresh challenge and the exported keying material of this
    very connection. The negotiated application protocol fixes the cover
    profile. TLS, certificates and their parser come from libraries: they are
    the interface [LinkPrimitives], and a TLS connection is what a handshake
    yields, the negotiated protocol, the exporter and the stream. Challenges
    and clocks are arguments. *)
From S2P Require Import Prelude Float Text Cell Identity LinkCover Transport.

(** ** Cover profiles *)
Definition ALPN : bytes := str "anonguard/6".
Definition TRACKER_ALPN : bytes := str "anonguard-tracker/2".

Inductive CoverProfile := Strict | Economy.
#[global] Instance CoverProfile_eq_dec : EqDecision CoverProfile.
Proof. solve_decision. Defined.

Definition CoverProfile_default : CoverProfile := Strict.

Definition CoverProfile_parse (value : bytes) : result IoError CoverProfile :=
  if bool_decide (value = str "strict") then Ok Strict
  else if bool_decide (value = str "economy") then Ok Economy
  else Err (link_invalid "Unknown link cover profile").

(** In nanoseconds. *)
Definition CoverProfile_interval (self : CoverProfile) : Z :=
  1000000 * match self with Strict => 20 | Economy => 40 end.

Definition alpn (self : CoverProfile) : bytes :=
  match self with Strict => ALPN | Economy => str "anonguard/6-cover40" end.

(** ** Certificates *)
Record Certificate := mkCertificate {
  x_algorithm : string;
  x_parameters : bool;
  x_unused_bits : Z;
  x_public_key : bytes;
  x_extensions : list (string * bytes);
  x_valid_at : Z -> bool;
}.

(** A certificate request: subject names and extensions by object id. *)
Class LinkPrimitives := {
  parse_x509 : bytes -> option (bytes * Certificate);
  asn1_time : Z -> option Z;
  self_signed : bytes -> list string -> list (list Z * bytes) -> result IoError bytes;
}.

Definition IDENTITY_OID : string := "2.25.2676937280591097606".
Definition IDENTITY_OID_ARCS : list Z := [2; 25; 2676937280591097606].

(** [to_id_string]: the arcs with dots between. *)
Fixpoint oid_string (arcs : list Z) : string :=
  match arcs with
  | [] => ""
  | [a] => pretty a
  | a :: arcs => pretty a +:+ "." +:+ oid_string arcs
  end.

(** The DER prefix of an Ed25519 private key. *)
Definition PKCS8_PREFIX : bytes := [48; 46; 2; 1; 0; 48; 5; 6; 3; 43; 101; 112; 4; 34; 4; 32].
Definition RELAY_NAME : string := "relay.anonguard.invalid".

(** What the libraries promise: the certificate made from an Ed25519 key parses
    to that key, with the extensions asked for, within its default validity. *)
Class LinkLaws `{IdentityPrimitives} `{LinkPrimitives} : Prop := {
  self_signed_ok : forall seed content, length seed = 32%nat -> exists der,
    self_signed (PKCS8_PREFIX ++ seed) [RELAY_NAME] [(IDENTITY_OID_ARCS, content)] = Ok der /\
    exists cert, parse_x509 der = Some ([], cert) /\
      x_algorithm cert = "1.3.101.112"%string /\ x_parameters cert = false /\ x_unused_bits cert = 0 /\
      x_public_key cert = ed_public seed /\
      filter (fun ext => ext.1 = oid_string IDENTITY_OID_ARCS) (x_extensions cert) = [(oid_string IDENTITY_OID_ARCS, content)] /\
      forall t, 157766400 <= t < 67090118400 -> exists time, asn1_time t = Some time /\ x_valid_at cert time = true;
}.

Section Link.
Context `{IdentityPrimitives} `{LinkPrimitives}.

Definition certificate_identity_matches (cert : Certificate) (pin : bytes) : bool :=
  match filter (fun ext => ext.1 = IDENTITY_OID) (x_extensions cert) with
  | [extension] =>
      match hybrid_decode extension.2 with
      | Ok identity => bool_decide (fingerprint identity = pin) && bool_decide (x_public_key cert = hpk_classical identity)
      | Err _ => false
      end
  | _ => false
  end.

Definition verify_server_cert (pinned cert : bytes) (chain : list bytes) (now : Z) : result string unit :=
  match parse_x509 cert with
  | None => Err "Invalid certificate"%string
  | Some (rest, parsed) =>
      match asn1_time now with
      | None => Err "Invalid time"%string
      | Some time =>
          if negb (bool_decide (rest = [])) || negb (bool_decide (chain = [])) || negb (bool_decide (x_algorithm parsed = "1.3.101.112"%string))
             || x_parameters parsed || negb (x_unused_bits parsed =? 0)
             || negb (certificate_identity_matches parsed pinned) || negb (x_valid_at parsed time)
          then Err "Relay identity or certificate validity mismatch"%string
          else Ok tt
      end
  end.

Record RelayAcceptor := mkAcceptor { ra_certificate : bytes; ra_identity : HybridSigningKey; ra_protocol : bytes }.

Definition acceptor_for (identity : HybridSigningKey) (protocol : bytes) : result IoError RelayAcceptor :=
  let private := PKCS8_PREFIX ++ classical_seed identity in
  let? cert := self_signed private [RELAY_NAME] [(IDENTITY_OID_ARCS, hpk_encoded (public_key identity))] in
  Ok (mkAcceptor cert identity protocol).

Definition acceptor_with_profile (identity : HybridSigningKey) (profile : CoverProfile) : result IoError RelayAcceptor :=
  acceptor_for identity (alpn profile).
Definition acceptor (identity : HybridSigningKey) : result IoError RelayAcceptor := acceptor_with_profile identity Strict.
Definition tracker_acceptor (identity : HybridSigningKey) : result IoError RelayAcceptor := acceptor_for identity TRACKER_ALPN.

Definition channel_auth_message (protocol challenge exporter : bytes) : bytes :=
  str "AnonGuard-relay-channel-auth-v6" ++ protocol ++ challenge ++ exporter.

(** ** TLS connections *)
Record TlsStream := mkTls {
  tls_alpn : option bytes;
  tls_export : bytes -> bytes -> result IoError bytes;
  tls_conn : Conn;
}.

Definition EXPORT_LABEL : bytes := str "AnonGuard-link-auth-v6".

(** What a client meets: the certificate with its chain, the clock, and how the
    handshake goes on once the certificate is accepted. *)
Record TlsServer := mkTlsServer {
  srv_certificate : bytes;
  srv_chain : list bytes;
  srv_now : Z;
  srv_outcome : result IoError TlsStream;
}.

Definition tls_connect (pinned : bytes) (server : TlsServer) : result IoError TlsStream :=
  match verify_server_cert pinned (srv_certificate server) (srv_chain server) (srv_now server) with
  | Err m => Err (mkIoError InvalidData m)
  | Ok _ => srv_outcome server
  end.

Definition with_conn (tls : TlsStream) (c : Conn) : TlsStream := mkTls (tls_alpn tls) (tls_export tls) c.

Definition prove_link (tls : TlsStream) (pinned protocol challenge : bytes) : M Conn unit :=
  let* _ := write_all challenge in
  let* proof := read_exact PROOF_SIZE in
  let* exporter := of_result (tls_export tls EXPORT_LABEL challenge) in
  let message := channel_auth_message protocol challenge exporter in
  let* key := of_result (VerifyingKey_from_bytes pinned) in
  let* signature := of_result (Signature_from_slice proof) in
  of_result (verify_strict key message signature).

Definition connect_authenticated (pinned protocol challenge : bytes) (server : TlsServer) : result Fault TlsStream :=
  if bool_decide (pinned = replicate 32 0) then Err (Io (link_invalid "Relay link requires a directory identity pin"))
  else
    match tls_connect pinned server with
    | Err e => Err (Io e)
    | Ok tls =>
        if negb (bool_decide (tls_alpn tls = Some protocol)) then Err (Io (link_invalid "Relay protocol version mismatch"))
        else
          match prove_link tls pinned protocol challenge (tls_conn tls) with
          | (_, Err e) => Err e
          | (c, Ok _) => Ok (with_conn tls c)
          end
    end.

(** The answer: the proof of this end's identity. [Panics] is the [expect] in
    [sign]. *)
Definition answer_link (tls : TlsStream) (identity : HybridSigningKey) (protocol : bytes) : M Conn unit :=
  let* challenge := read_exact 32 in
  let* exporter := of_result (tls_export tls EXPORT_LABEL challenge) in
  let message := channel_auth_message protocol challenge exporter in
  let* proof := (match identity_sign identity message with Some proof => ret proof | None => fun c => (c, Err Panics) end) in
  write_all proof.

Definition accept_authenticated (acceptor : RelayAcceptor) (accepted : result IoError TlsStream) : result Fault TlsStream :=
  match accepted with
  | Err e => Err (Io e)
  | Ok tls =>
      if negb (bool_decide (tls_alpn tls = Some (ra_protocol acceptor))) then Err (Io (link_invalid "Relay protocol version mismatch"))
      else
        match answer_link tls (ra_identity acceptor) (ra_protocol acceptor) (tls_conn tls) with
        | (_, Err e) => Err e
        | (c, Ok _) => Ok (with_conn tls c)
        end
  end.

(** Both ends wrap the stream into a covered link; [phase] is its random draw. *)
Definition covered (tls : TlsStream) (interval phase now : Z) : result Fault (TlsStream * Sender * Receiver) :=
  match wrap interval phase now with Err e => Err (Io e) | Ok (sender, receiver) => Ok (tls, sender, receiver) end.

Definition connect_guarded_with_profile (pinned : bytes) (profile : CoverProfile) (challenge : bytes) (server : TlsServer) (phase now : Z)
    : result Fault (TlsStream * Sender * Receiver) :=
  let? tls := connect_authenticated pinned (alpn profile) challenge server in
  covered tls (CoverProfile_interval profile) phase now.

Definition connect_guarded (pinned challenge : bytes) (server : TlsServer) (phase now : Z) :=
  connect_guarded_with_profile pinned Strict challenge server phase now.

Definition connect_tracker (pinned challenge : bytes) (server : TlsServer) : result Fault TlsStream :=
  connect_authenticated pinned TRACKER_ALPN challenge server.

Definition accept_link (acceptor : RelayAcceptor) (accepted : result IoError TlsStream) (phase now : Z)
    : result Fault (TlsStream * Sender * Receiver) :=
  let run profile :=
    let? tls := accept_authenticated acceptor accepted in
    covered tls (CoverProfile_interval profile) phase now in
  if bool_decide (ra_protocol acceptor = alpn Strict) then run Strict
  else if bool_decide (ra_protocol acceptor = alpn Economy) then run Economy
  else Err (Io (link_invalid "Wrong acceptor protocol")).

Definition accept_tracker (acceptor : RelayAcceptor) (accepted : result IoError TlsStream) : result Fault TlsStream :=
  if negb (bool_decide (ra_protocol acceptor = TRACKER_ALPN)) then Err (Io (link_invalid "Wrong acceptor protocol"))
  else accept_authenticated acceptor accepted.

(** ** Lemmas *)
Lemma identity_oid : oid_string IDENTITY_OID_ARCS = IDENTITY_OID.
Proof. vm_compute. reflexivity. Qed.

Lemma alpn_inj p q : alpn p = alpn q -> p = q.
Proof. destruct p, q; done. Qed.

Lemma channel_auth_inj p c e p' c' e' :
  length c = 32%nat -> length e = 32%nat -> length c' = 32%nat -> length e' = 32%nat ->
  channel_auth_message p c e = channel_auth_message p' c' e' -> p = p' /\ c = c' /\ e = e'.
Proof.
  intros Hc He Hc' He' E. unfold channel_auth_message in E. apply app_inv_head in E. rewrite !app_assoc in E.
  apply app_inj_2 in E as [E ->]; [|lia]. apply app_inj_2 in E as [-> ->]; [|lia]. done.
Qed.

Lemma verify_server_cert_inv pinned der chain now :
  verify_server_cert pinned der chain now = Ok tt ->
  exists cert content key time, parse_x509 der = Some ([], cert) /\ chain = [] /\ asn1_time now = Some time /\ x_valid_at cert time = true /\
    x_algorithm cert = "1.3.101.112"%string /\
    filter (fun ext => ext.1 = IDENTITY_OID) (x_extensions cert) = [(IDENTITY_OID, content)] /\
    hybrid_decode content = Ok key /\ fingerprint key = pinned /\ x_public_key cert = hpk_classical key.
Proof.
  unfold verify_server_cert. destruct (parse_x509 der) as [[rest cert]|]; [|done]. destruct (asn1_time now) as [time|]; [|done].
  destruct (_ || _) eqn:E; [done|]. intros _. reflect_bools. subst. unfold certificate_identity_matches in *.
  destruct (filter _ _) as [|[oid content] [|]] eqn:Ef; try done. cbn [snd] in *. destruct (hybrid_decode content) as [key|] eqn:Ed; [|done].
  assert (Ho : (oid, content) ∈ filter (fun ext => ext.1 = IDENTITY_OID) (x_extensions cert)) by (rewrite Ef; by apply list_elem_of_singleton).
  apply list_elem_of_filter in Ho as [Ho _]. cbn in Ho. subst. reflect_bools. exists cert, content, key, time. done.
Qed.

Lemma connect_alpn pinned protocol challenge server tls :
  connect_authenticated pinned protocol challenge server = Ok tls -> tls_alpn tls = Some protocol.
Proof.
  unfold connect_authenticated. destruct (bool_decide _); [done|]. destruct (tls_connect _ _) as [tls0|]; [|done].
  destruct (bool_decide _) eqn:Ea; cbn [negb]; [|done]. apply bool_decide_eq_true in Ea. destruct (prove_link _ _ _ _ _) as [c []]; [|done].
  by intros [= <-].
Qed.

Lemma connect_guarded_inv pinned profile challenge server phase now tls sender receiver :
  connect_guarded_with_profile pinned profile challenge server phase now = Ok (tls, sender, receiver) ->
  connect_authenticated pinned (alpn profile) challenge server = Ok tls.
Proof.
  unfold connect_guarded_with_profile, covered. destruct (connect_authenticated _ _ _ _) as [tc|]; [|done].
  destruct (wrap _ phase now) as [[]|]; [|done]. by intros [= -> _ _].
Qed.

Lemma accept_alpn a accepted tls : accept_authenticated a accepted = Ok tls -> tls_alpn tls = Some (ra_protocol a).
Proof.
  unfold accept_authenticated. destruct accepted as [tls0|]; [|done]. destruct (bool_decide _) eqn:Ea; cbn [negb]; [|done].
  apply bool_decide_eq_true in Ea. destruct (answer_link _ _ _ _) as [c []]; [|done]. by intros [= <-].
Qed.

(** C24: a link is to the pinned relay and to no other connection. When a
    client's link handshake succeeds, then the server showed a single valid
    Ed25519 certificate with exactly one identity extension, whose composite
    key has the pinned fingerprint and the certificate's key as its classical
    half; the protocol asked for was negotiated; and the pinned identity
    signed, with both of its keys, a message over that protocol, this client's
    challenge and the keying material of this TLS connection, a message no
    other protocol, challenge or connection gives. *)
Theorem link_authentic (pinned protocol challenge : bytes) (server : TlsServer) (tls : TlsStream) :
  connect_authenticated pinned protocol challenge server = Ok tls ->
  pinned <> replicate 32 0 /\ tls_alpn tls = Some protocol /\
  (exists cert content key time, parse_x509 (srv_certificate server) = Some ([], cert) /\ srv_chain server = [] /\
     asn1_time (srv_now server) = Some time /\ x_valid_at cert time = true /\ x_algorithm cert = "1.3.101.112"%string /\
     filter (fun ext => ext.1 = IDENTITY_OID) (x_extensions cert) = [(IDENTITY_OID, content)] /\
     hybrid_decode content = Ok key /\ fingerprint key = pinned /\ x_public_key cert = hpk_classical key) /\
  exists exporter proof, tls_export tls EXPORT_LABEL challenge = Ok exporter /\
    verify_strict pinned (channel_auth_message protocol challenge exporter) proof = Ok tt /\
    forall protocol' challenge' exporter', length challenge' = 32%nat -> length exporter' = 32%nat ->
      length challenge = 32%nat -> length exporter = 32%nat ->
      channel_auth_message protocol' challenge' exporter' = channel_auth_message protocol challenge exporter ->
      protocol' = protocol /\ challenge' = challenge /\ exporter' = exporter.
Proof.
  unfold connect_authenticated. case_bool_decide as Hz; [done|]. unfold tls_connect.
  destruct (verify_server_cert _ _ _ _) as [[]|] eqn:Ev; [|done]. destruct (srv_outcome server) as [tls0|] eqn:Eo; [|done].
  destruct (bool_decide _) eqn:Ea; cbn [negb]; [|done]. apply bool_decide_eq_true in Ea.
  destruct (prove_link _ _ _ _ _) as [c [[]|]] eqn:Ep; [|done]. intros [= <-]. split_and!; [done|done|by apply verify_server_cert_inv|].
  unfold prove_link in Ep. apply bind_inv in Ep as (c1 & [] & _ & Ep). apply bind_inv in Ep as (c2 & proof & _ & Ep).
  apply bind_inv in Ep as (c3 & exporter & Ee & Ep). apply of_result_inv in Ee as [Ee ->].
  apply bind_inv in Ep as (c4 & key & Ek & Ep). apply of_result_inv in Ek as [Ek ->].
  apply bind_inv in Ep as (c5 & sig & Es & Ep). apply of_result_inv in Es as [Es ->]. apply of_result_inv in Ep as [Ep _].
  unfold VerifyingKey_from_bytes in Ek. rewrite bool_decide_false in Ek by done. injection Ek as <-.
  exists exporter, sig. split_and!; [done|done|]. intros p' c' e' ? ? ? ? E. by apply channel_auth_inj.
Qed.

(** The cover profile is never negotiated down. When a client and a relay
    both complete a link over a connection on whose protocol TLS makes them
    agree, they were given the same profile, and so both send an envelope every
    20 or both every 40 milliseconds. *)
Theorem link_profiles_agree (pinned challenge : bytes) (client relay : CoverProfile) (identity : HybridSigningKey) (a : RelayAcceptor)
    (server : TlsServer) (accepted : result IoError TlsStream) (phase phase' now now' : Z) tls sender receiver tls' sender' receiver' :
  acceptor_with_profile identity relay = Ok a ->
  connect_guarded_with_profile pinned client challenge server phase now = Ok (tls, sender, receiver) ->
  accept_link a accepted phase' now' = Ok (tls', sender', receiver') -> tls_alpn tls = tls_alpn tls' ->
  client = relay /\ CoverProfile_interval client = CoverProfile_interval relay.
Proof.
  intros Ha Hc Hs E. assert (Hr : ra_protocol a = alpn relay).
  { unfold acceptor_with_profile, acceptor_for in Ha. destruct (self_signed _ _ _); [|done]. by injection Ha as <-. }
  apply connect_guarded_inv, connect_alpn in Hc as Ec.
  assert (Hs' : exists ts, accept_authenticated a accepted = Ok ts /\ ts = tls').
  { unfold accept_link in Hs. destruct (accept_authenticated a accepted) as [ts|] eqn:Es; [|by repeat case_bool_decide].
    exists ts. split; [done|]. unfold covered in Hs. repeat (case_bool_decide; [destruct (wrap _ _ _) as [[]|]; [by injection Hs|done]|]). done. }
  destruct Hs' as (ts & Es & ->). apply accept_alpn in Es. rewrite Hr in Es. rewrite Ec, Es in E. injection E as E. apply alpn_inj in E as ->. done.
Qed.

Lemma certificate_accepted `{!IdentityLaws} `{!LinkLaws} sk protocol now :
  length (classical_seed sk) = 32%nat -> 157766400 <= now < 67090118400 ->
  exists a, acceptor_for sk protocol = Ok a /\ ra_identity a = sk /\ ra_protocol a = protocol /\
    verify_server_cert (verifying_key sk) (ra_certificate a) [] now = Ok tt.
Proof.
  intros Hs Hnow. destruct (self_signed_ok (classical_seed sk) (hpk_encoded (public_key sk)) Hs)
    as (der & Ed & cert & Ep & Halg & Hpar & Hbits & Hkey & Hext & Hvalid).
  destruct (Hvalid now Hnow) as (time & Et & Hv). unfold acceptor_for. rewrite Ed. eexists. split_and!; [reflexivity..|].
  cbn [ra_certificate]. unfold verify_server_cert. rewrite Ep, Et, Halg, Hpar, Hbits, Hv. rewrite !bool_decide_true by done. cbn [negb orb].
  unfold certificate_identity_matches. rewrite <- identity_oid, Hext. cbn [snd]. rewrite decode_public.
  rewrite bool_decide_true, bool_decide_true by (done || by rewrite Hkey). done.
Qed.

Lemma link_completes `{!IdentityLaws} `{!LinkLaws} (sk : HybridSigningKey) (profile : CoverProfile) (challenge exporter : bytes)
    (export : bytes -> bytes -> result IoError bytes) (now phase phase' : Z) (dry fault : IoError) :
  length (classical_seed sk) = 32%nat -> verifying_key sk <> replicate 32 0 -> length challenge = 32%nat -> length exporter = 32%nat ->
  export EXPORT_LABEL challenge = Ok exporter -> 157766400 <= now < 67090118400 ->
  exists a proof sender receiver sender' receiver',
    let stream arrives sent := mkTls (Some (alpn profile)) export (mkConn arrives dry sent None fault) in
    acceptor_with_profile sk profile = Ok a /\
    connect_guarded_with_profile (verifying_key sk) profile challenge (mkTlsServer (ra_certificate a) [] now (Ok (stream proof []))) phase now
      = Ok (stream [] challenge, sender, receiver) /\
    accept_link a (Ok (stream challenge [])) phase' now = Ok (stream [] proof, sender', receiver').
Proof.
  intros Hseed Hpin Hc He Hx Hnow. destruct (certificate_accepted sk (alpn profile) now Hseed Hnow) as (a & Ha & Hid & Hpr & Hcert).
  set (message := channel_auth_message (alpn profile) challenge exporter).
  destruct (identity_sign_ok sk message) as [proof Hsig].
  { unfold message, channel_auth_message. rewrite !length_app, Hc, He. destruct profile; cbn [alpn]; vm_compute; discriminate. }
  destruct (identity_sign_verifies _ _ _ Hsig) as [Hpl Hv].
  assert (Hw : exists s r, wrap (CoverProfile_interval profile) phase now = Ok (s, r)) by (destruct profile; eexists _, _; reflexivity).
  assert (Hw' : exists s r, wrap (CoverProfile_interval profile) phase' now = Ok (s, r)) by (destruct profile; eexists _, _; reflexivity).
  destruct Hw as (sender & receiver & Hw). destruct Hw' as (sender' & receiver' & Hw').
  exists a, proof, sender, receiver, sender', receiver'. split_and!; [exact Ha| |].
  - unfold connect_guarded_with_profile, connect_authenticated. rewrite bool_decide_false by done.
    unfold tls_connect. cbn [srv_certificate srv_chain srv_now srv_outcome]. rewrite Hcert. cbn [tls_alpn]. rewrite bool_decide_true by done.
    cbn [negb]. unfold prove_link, bind. cbn [tls_conn tls_export]. rewrite run_write by done. cbv beta iota.
    rewrite (run_read PROOF_SIZE proof []) by (done || by rewrite app_nil_r). rewrite Hx. cbv beta iota delta [of_result ret].
    unfold VerifyingKey_from_bytes. rewrite bool_decide_false by done. cbv beta iota.
    unfold Signature_from_slice. rewrite Hpl, Nat.eqb_refl. cbn [negb]. cbv beta iota. fold message. rewrite Hv. cbv beta iota.
    unfold covered, with_conn. cbn [tls_alpn tls_export cn_dry cn_out cn_fault app]. by rewrite Hw.
  - assert (Hacc : accept_authenticated a (Ok (mkTls (Some (alpn profile)) export (mkConn challenge dry [] None fault)))
      = Ok (mkTls (Some (alpn profile)) export (mkConn [] dry proof None fault))).
    { unfold accept_authenticated. cbn [tls_alpn]. rewrite Hpr, Hid, bool_decide_true by done. cbn [negb]. unfold answer_link, bind.
      cbn [tls_conn tls_export]. rewrite (run_read 32 challenge []) by (done || by rewrite app_nil_r). rewrite Hx. cbv beta iota delta [of_result ret].
      fold message. rewrite Hsig. cbv beta iota. by rewrite run_write. }
    unfold accept_link. rewrite Hacc, Hpr. unfold covered.
    destruct profile; [rewrite bool_decide_true by done|rewrite bool_decide_false, bool_decide_true by done]; by rewrite Hw'.
Qed.

(** An honest client and relay complete a link. Given the pin of the relay,
    the same profile and a TLS connection that shows both ends the same
    exported keying material, each end succeeds on what the other one sends,
    with nothing left over, and both start covered. *)
Theorem link_agreement `{!IdentityLaws} `{!LinkLaws} (sk : HybridSigningKey) (profile : CoverProfile) (challenge exporter : bytes)
    (export : bytes -> bytes -> result IoError bytes) (now phase phase' : Z) (dry fault : IoError) :
  length (classical_seed sk) = 32%nat -> verifying_key sk <> replicate 32 0 -> length challenge = 32%nat -> length exporter = 32%nat ->
  export EXPORT_LABEL challenge = Ok exporter -> 157766400 <= now < 67090118400 ->
  exists a proof sender receiver sender' receiver',
    let stream arrives sent := mkTls (Some (alpn profile)) export (mkConn arrives dry sent None fault) in
    acceptor_with_profile sk profile = Ok a /\
    connect_guarded_with_profile (verifying_key sk) profile challenge (mkTlsServer (ra_certificate a) [] now (Ok (stream proof []))) phase now
      = Ok (stream [] challenge, sender, receiver) /\
    accept_link a (Ok (stream challenge [])) phase' now = Ok (stream [] proof, sender', receiver').
Proof. apply link_completes. Qed.
End Link.

(** ** Witnesses *)
#[local] Existing Instance toy_identity.
#[local] Existing Instance toy_identity_laws.

#[local] Instance toy_link : LinkPrimitives := {
  parse_x509 der := Some ([], mkCertificate "1.3.101.112" false 0 (ed_public (take 32 der)) [(oid_string IDENTITY_OID_ARCS, drop 32 der)] (fun _ => true));
  asn1_time t := Some t;
  self_signed private names exts :=
    match exts with [(_, content)] => Ok (drop 16 private ++ content) | _ => Err (link_invalid "Bad request") end;
}.

#[local] Instance toy_link_laws : LinkLaws.
Proof.
  split. intros seed content Hs. eexists. split; [reflexivity|]. eexists. split; [reflexivity|].
  cbn [x_algorithm x_parameters x_unused_bits x_public_key x_extensions x_valid_at].
  rewrite drop_app_length', take_app_length', drop_app_length' by done. split_and!; try reflexivity.
  - intros t _. by exists t.
Qed.

Definition toy_export (label context : bytes) : result IoError bytes := Ok (replicate 32 5).
Definition toy_challenge : bytes := replicate 32 9.

Lemma link_agreement_witness :
  exists a proof sender receiver tls,
    acceptor_with_profile toy_signer Economy = Ok a /\
    connect_guarded_with_profile (verifying_key toy_signer) Economy toy_challenge
      (mkTlsServer (ra_certificate a) [] 1700000000 (Ok (mkTls (Some (alpn Economy)) toy_export (mkConn proof eof [] None eof)))) 3 1700000000
      = Ok (tls, sender, receiver).
Proof.
  destruct (link_agreement toy_signer Economy toy_challenge (replicate 32 5) toy_export 1700000000 3 4 eof eof)
    as (a & proof & s & r & s' & r' & Ha & Hc & _); [reflexivity|vm_compute; discriminate|reflexivity..|lia|].
  exists a, proof, s, r. eexists. split; [exact Ha|exact Hc].
Defined.

Lemma toy_link_completes :
  exists a proof sender receiver sender' receiver',
    let stream arrives sent := mkTls (Some (alpn Strict)) toy_export (mkConn arrives eof sent None eof) in
    acceptor_with_profile toy_signer Strict = Ok a /\
    connect_guarded_with_profile (verifying_key toy_signer) Strict toy_challenge
      (mkTlsServer (ra_certificate a) [] 1700000000 (Ok (stream proof []))) 3 1700000000 = Ok (stream [] toy_challenge, sender, receiver) /\
    accept_link a (Ok (stream toy_challenge [])) 4 1700000000 = Ok (stream [] proof, sender', receiver').
Proof.
  apply (link_completes toy_signer Strict toy_challenge (replicate 32 5) toy_export 1700000000 3 4 eof eof);
    [reflexivity|vm_compute; discriminate|reflexivity..|lia].
Qed.

Lemma toy_link_connects :
  exists server tls, connect_authenticated (verifying_key toy_signer) (alpn Strict) toy_challenge server = Ok tls.
Proof.
  destruct toy_link_completes as (a & proof & s & r & s' & r' & Ha & Hc & _).
  eexists _, _. exact (connect_guarded_inv _ _ _ _ _ _ _ _ _ Hc).
Qed.

Lemma link_authentic_witness :
  exists server tls exporter proof,
    connect_authenticated (verifying_key toy_signer) (alpn Strict) toy_challenge server = Ok tls /\
    verify_strict (verifying_key toy_signer) (channel_auth_message (alpn Strict) toy_challenge exporter) proof = Ok tt.
Proof.
  destruct toy_link_connects as (server & tls & Ec).
  destruct (link_authentic (verifying_key toy_signer) (alpn Strict) toy_challenge server tls Ec) as (_ & _ & _ & exporter & pf & _ & Hv & _).
  exists server, tls, exporter, pf. exact (conj Ec Hv).
Defined.

Lemma link_profiles_agree_witness :
  exists a server accepted tls sender receiver, acceptor_with_profile toy_signer Strict = Ok a /\
    connect_guarded_with_profile (verifying_key toy_signer) Strict toy_challenge server 3 1700000000 = Ok (tls, sender, receiver) /\
    CoverProfile_interval Strict = CoverProfile_interval Strict /\ is_ok (accept_link a accepted 4 1700000000) = true.
Proof.
  destruct toy_link_completes as (a & proof & s & r & s' & r' & Ha & Hc & Hs).
  eexists a, _, _, _, s, r. split; [exact Ha|]. split; [exact Hc|].
  destruct (link_profiles_agree _ _ Strict Strict _ _ _ _ _ _ _ _ _ _ _ _ _ _ Ha Hc Hs eq_refl) as [_ E].
  split; [exact E|]. cbv zeta in Hs. rewrite Hs. reflexivity.
Defined.
