(* ===== verification/Session.v ===== *)
(** * Padded onion sessions (src/onion/session.rs)

    A session multiplexes up to sixteen streams over one circuit and emits one
    cell per time slot, data, control or dummy. [SessionState] holds the locals of
    the session loop, [Stream] one stream with the channels to its two workers.
    One handler per arm of the loop: the clock, an opening request, an event of
    a worker, a message of the peer. Clocks, socket outcomes and the random
    intervals of the research profiles are arguments. *)
From S2P Require Import Prelude Float Text Cell Replay Circuit Handshake Flow.

(** ** Data *)
Definition MAX_STREAMS : nat := 16.
Definition SESSION_QUEUE : nat := 32.
Definition MAX_CONTROLS : nat := 64.
Definition MAX_IDS : Z := 1024.
Definition LIFETIME : Z := 300 * NANOS_PER_SEC.
Definition BUCKET : Z := 64.

Inductive Profile := Balanced | LongTail | FixedWindow | Strict | Rmt | Poisson.

#[global] Instance Profile_eq_dec : EqDecision Profile.
Proof. solve_decision. Defined.

Definition Profile_parse (value : bytes) : result string Profile :=
  if bool_decide (value = str "balanced") then Ok Balanced
  else if bool_decide (value = str "balanced-longtail") then Ok LongTail
  else if bool_decide (value = str "fixed-window") then Ok FixedWindow
  else if bool_decide (value = str "strict") then Ok Strict
  else if bool_decide (value = str "research-rmt") then Ok Rmt
  else if bool_decide (value = str "research-poisson") then Ok Poisson
  else Err "Unknown privacy profile"%string.

Definition Profile_encode (self : Profile) : bytes :=
  [1; match self with Balanced => 1 | Strict => 2 | Rmt => 3 | Poisson => 4 | LongTail => 5 | FixedWindow => 6 end].

Definition Profile_decode (value : bytes) : result string Profile :=
  match value with
  | [1; 1] => Ok Balanced
  | [1; 2] => Ok Strict
  | [1; 3] => Ok Rmt
  | [1; 4] => Ok Poisson
  | [1; 5] => Ok LongTail
  | [1; 6] => Ok FixedWindow
  | _ => Err "Unsupported session profile/version"%string
  end.

(** [draw] is the interval a jitter engine draws. *)
Definition Profile_interval (self : Profile) (draw : Z) : Z :=
  match self with
  | Balanced | LongTail => 40 * 1000000
  | Strict | FixedWindow => 20 * 1000000
  | Rmt | Poisson => draw
  end.

Definition div_ceil (a b : Z) : Z := (a + b - 1) / b.

Definition can_finish (self : Profile) (age idle cells : Z) : bool :=
  if bool_decide (self = FixedWindow) then (120 * NANOS_PER_SEC <=? age) && ((cells + 1) mod 6000 =? 0)
  else
    let '(quantum, minimum_idle) := if bool_decide (self = LongTail) then (60, 20) else (30, 10) in
    let last_activity := saturating_sub age idle / NANOS_PER_SEC in
    (Z.max (div_ceil (last_activity + minimum_idle) quantum * quantum) quantum * NANOS_PER_SEC <=? age)
    && (minimum_idle * NANOS_PER_SEC <=? idle) && ((cells + 1) mod BUCKET =? 0).

(** What a cell says to the session at the other end. *)
Definition Message : Type := CellCommand * Z * bytes.

(** The chunks read from a socket and not yet sent; [og_closed] when the reader
    is gone. *)
Record Outgoing := mkOutgoing { og_receiver : list bytes; og_closed : bool; og_pending : option bytes }.

Inductive TryRecv := Received (data : bytes) | Empty | Disconnected.

(** [st_incoming] is what the writer of the socket has not taken yet, [None]
    the end of the stream; [st_writer] is whether that writer still runs and
    [st_count] how many chunks it has written. *)
Record Stream := mkStream {
  st_incoming : list (option bytes);
  st_writer : bool;
  st_count : Z;
  st_outgoing : Outgoing;
  st_window : SendWindow;
  st_received : Z;
  st_written : Z;
  st_ack : option Z;
  st_sent_end : bool;
  st_received_end : bool;
  st_ready : bool;
  st_reply : bool;
  st_reply_closed : bool;
  st_application : bool;
}.

Inductive Event := Written (id count : Z) | Connected (id : Z) (ok : bool) | Failed (id : Z).

Record SessionState := mkSession {
  ss_client : bool;
  ss_policy : bool;
  ss_streams : gmap Z Stream;
  ss_connecting : gset Z;
  ss_closed : gset Z;
  ss_receive_budget : spec_float;
  ss_receive_time : Z;
  ss_controls : list Message;
  ss_last_id : Z;
  ss_cursor : Z;
  ss_cells : Z;
  ss_start : Z;
  ss_activity : Z;
  ss_finishing : bool;
  ss_peer_finish : bool;
  ss_prefer_control : bool;
  ss_clock : Z;
}.

(** The errors a session ends with: its own, those of the circuit and of cell
    construction, and a failed write. *)
Inductive SessionError := Invalid (msg : string) | FromCircuit (e : CircuitError) | FromCell (msg : string) | FromIo.

(** How a pass through the loop ends. *)
Inductive Outcome := Continue (s : SessionState) | Finished | Abort (e : SessionError) | Panicked.

(** ** Packing *)
Definition try_recv (o : Outgoing) : Outgoing * TryRecv :=
  match og_receiver o with
  | data :: rest => (mkOutgoing rest (og_closed o) (og_pending o), Received data)
  | [] => (o, if og_closed o then Disconnected else Empty)
  end.

(** The packing loop with [fuel] rounds left. *)
Fixpoint pack (fuel : nat) (data : bytes) (o : Outgoing) : Outgoing * bytes :=
  match fuel with
  | O => (o, data)
  | S fuel' =>
      if (length data =? PAYLOAD_SIZE)%nat then (o, data)
      else
        match try_recv o with
        | (o, Received next) =>
            let room := (PAYLOAD_SIZE - length data)%nat in
            if (room <? length next)%nat then (mkOutgoing (og_receiver o) (og_closed o) (Some (drop room next)), data ++ take room next)
            else pack fuel' (data ++ next) o
        | (o, _) => (o, data)
        end
  end.

Definition try_next (self : Outgoing) : Outgoing * TryRecv :=
  match og_pending self with
  | Some data =>
      let '(o, data) := pack (SESSION_QUEUE - 1) data (mkOutgoing (og_receiver self) (og_closed self) None) in (o, Received data)
  | None =>
      match try_recv self with
      | (o, Received data) => let '(o, data) := pack (SESSION_QUEUE - 1) data o in (o, Received data)
      | (o, r) => (o, r)
      end
  end.

(** ** Streams *)

(** [attach]: both workers start with empty channels. *)
Definition attach : Stream :=
  mkStream [] true 0 (mkOutgoing [] false None) SendWindow_default 0 0 None false false true false false false.

Definition with_outgoing (s : Stream) (o : Outgoing) (w : SendWindow) (sent_end : bool) : Stream :=
  mkStream (st_incoming s) (st_writer s) (st_count s) o w (st_received s) (st_written s) (st_ack s) sent_end (st_received_end s)
    (st_ready s) (st_reply s) (st_reply_closed s) (st_application s).
Definition with_ack (s : Stream) (written : Z) (ack : option Z) : Stream :=
  mkStream (st_incoming s) (st_writer s) (st_count s) (st_outgoing s) (st_window s) (st_received s) written ack (st_sent_end s)
    (st_received_end s) (st_ready s) (st_reply s) (st_reply_closed s) (st_application s).
Definition with_incoming (s : Stream) (incoming : list (option bytes)) (received : Z) (received_end : bool) : Stream :=
  mkStream incoming (st_writer s) (st_count s) (st_outgoing s) (st_window s) received (st_written s) (st_ack s) (st_sent_end s)
    received_end (st_ready s) (st_reply s) (st_reply_closed s) (st_application s).
Definition with_writer (s : Stream) (incoming : list (option bytes)) (writer : bool) (count : Z) : Stream :=
  mkStream incoming writer count (st_outgoing s) (st_window s) (st_received s) (st_written s) (st_ack s) (st_sent_end s)
    (st_received_end s) (st_ready s) (st_reply s) (st_reply_closed s) (st_application s).
Definition with_ready (s : Stream) (ready reply reply_closed application : bool) : Stream :=
  mkStream (st_incoming s) (st_writer s) (st_count s) (st_outgoing s) (st_window s) (st_received s) (st_written s) (st_ack s)
    (st_sent_end s) (st_received_end s) ready reply reply_closed application.

(** [incoming.try_send]: refused when the channel is full or its reader gone. *)
Definition try_send (s : Stream) (item : option bytes) (received : Z) (received_end : bool) : option Stream :=
  if st_writer s && (length (st_incoming s) <? SESSION_QUEUE + 1)%nat
  then Some (with_incoming s (st_incoming s ++ [item]) received received_end) else None.

(** The task that writes a stream to its socket, one item: the stream, the
    bytes the socket got, whether it was shut down and the events sent.
    [failed] is [Some n] when the socket fails after [n] bytes. *)
Definition writer_step (id : Z) (s : Stream) (failed : option nat) : option (Stream * bytes * bool * list Event) :=
  match st_writer s, st_incoming s, failed with
  | false, _, _ | _, [], _ => None
  | true, Some data :: rest, Some n => Some (with_writer s rest false (st_count s), take n data, false, [Failed id])
  | true, Some data :: rest, None =>
      match checked_add u32_MAX (st_count s) 1 with
      | Some count => Some (with_writer s rest true count, data, false, [Written id count])
      | None => Some (with_writer s rest false (st_count s), data, false, [Failed id])
      end
  | true, None :: rest, Some _ => Some (with_writer s rest false (st_count s), [], false, [Failed id])
  | true, None :: rest, None => Some (with_writer s rest false (st_count s), [], true, [])
  end.

(** The task that reads it. A full queue holds it back. *)
Inductive ReadOutcome := ReadChunk (data : bytes) | ReadEof | ReadError.

Definition reader_step (id : Z) (s : Stream) (r : ReadOutcome) : option (Stream * bytes * list Event) :=
  let o := st_outgoing s in
  let closed := with_outgoing s (mkOutgoing (og_receiver o) true (og_pending o)) (st_window s) (st_sent_end s) in
  if og_closed o then None
  else
    match r with
    | ReadChunk data =>
        if (0 <? length data)%nat && (length data <=? PAYLOAD_SIZE)%nat && (length (og_receiver o) <? SESSION_QUEUE)%nat then
          Some (with_outgoing s (mkOutgoing (og_receiver o ++ [data]) false (og_pending o)) (st_window s) (st_sent_end s), data, [])
        else None
    | ReadEof => Some (closed, [], [])
    | ReadError => Some (closed, [], [Failed id])
    end.

(** ** Field updates of the session *)
Definition with_streams (s : SessionState) (streams : gmap Z Stream) (connecting closed : gset Z) (controls : list Message) : SessionState :=
  mkSession (ss_client s) (ss_policy s) streams connecting closed (ss_receive_budget s) (ss_receive_time s) controls (ss_last_id s)
    (ss_cursor s) (ss_cells s) (ss_start s) (ss_activity s) (ss_finishing s) (ss_peer_finish s) (ss_prefer_control s) (ss_clock s).
Definition with_activity (s : SessionState) (last_id activity : Z) : SessionState :=
  mkSession (ss_client s) (ss_policy s) (ss_streams s) (ss_connecting s) (ss_closed s) (ss_receive_budget s) (ss_receive_time s)
    (ss_controls s) last_id (ss_cursor s) (ss_cells s) (ss_start s) activity (ss_finishing s) (ss_peer_finish s)
    (ss_prefer_control s) (ss_clock s).
Definition with_finish (s : SessionState) (controls : list Message) (finishing peer_finish : bool) : SessionState :=
  mkSession (ss_client s) (ss_policy s) (ss_streams s) (ss_connecting s) (ss_closed s) (ss_receive_budget s) (ss_receive_time s)
    controls (ss_last_id s) (ss_cursor s) (ss_cells s) (ss_start s) (ss_activity s) finishing peer_finish
    (ss_prefer_control s) (ss_clock s).
Definition with_budget (s : SessionState) (budget : spec_float) (time : Z) : SessionState :=
  mkSession (ss_client s) (ss_policy s) (ss_streams s) (ss_connecting s) (ss_closed s) budget time
    (ss_controls s) (ss_last_id s) (ss_cursor s) (ss_cells s) (ss_start s) (ss_activity s) (ss_finishing s) (ss_peer_finish s)
    (ss_prefer_control s) (ss_clock s).
Definition with_slot (s : SessionState) (streams : gmap Z Stream) (controls : list Message) (cursor cells : Z) (prefer : bool) (clock : Z)
    : SessionState :=
  mkSession (ss_client s) (ss_policy s) streams (ss_connecting s) (ss_closed s) (ss_receive_budget s) (ss_receive_time s)
    controls (ss_last_id s) cursor cells (ss_start s) (ss_activity s) (ss_finishing s) (ss_peer_finish s) prefer clock.

Definition session_start (client policy : bool) (now interval : Z) : SessionState :=
  mkSession client policy ∅ ∅ ∅ (f64_of 512) now [] 0 0 0 now now false false false (now + interval).

(** A stream is taken out of service, with a reset for the peer. *)
Definition reset_stream (s : SessionState) (id : Z) : SessionState :=
  with_streams s (delete id (ss_streams s)) (ss_connecting s) ({[id]} ∪ ss_closed s) (ss_controls s ++ [(SessionReset, id, [])]).

(** ** The clock *)
Definition pop_front (l : list Message) : option Message * list Message :=
  match l with m :: rest => (Some m, rest) | [] => (None, []) end.

(** The keys of a [BTreeMap]. *)
Definition sorted_ids (streams : gmap Z Stream) : list Z := merge_sort Z.le (map_to_list streams).*1.

Definition round_robin (cursor : Z) (ids : list Z) : list Z := filter (fun id => cursor < id) ids ++ filter (fun id => id <= cursor) ids.

(** What one stream has to say in this slot. *)
Definition stream_message (id : Z) (stream : Stream) : result SessionError (Stream * option Message) :=
  if negb (st_ready stream) then Ok (stream, None)
  else
    match st_ack stream with
    | Some ack => Ok (with_ack stream (st_written stream) None, Some (DataAck, id, be_bytes 4 ack))
    | None =>
        if negb (st_sent_end stream) && available (st_window stream) then
          match try_next (st_outgoing stream) with
          | (o, Received data) =>
              match window_sent (st_window stream) with
              | (_, Err e) => Err (Invalid e)
              | (w, Ok _) => Ok (with_outgoing stream o w false, Some (Data, id, data))
              end
          | (o, Disconnected) => Ok (with_outgoing stream o (st_window stream) true, Some (End_, id, []))
          | (o, Empty) => Ok (with_outgoing stream o (st_window stream) (st_sent_end stream), None)
          end
        else Ok (stream, None)
    end.

Fixpoint pick_stream (ids : list Z) (streams : gmap Z Stream) : result SessionError (gmap Z Stream * option (Z * Message)) :=
  match ids with
  | [] => Ok (streams, None)
  | id :: rest =>
      match streams !! id with
      | None => Err (Invalid "Missing stream")
      | Some stream =>
          match stream_message id stream with
          | Err e => Err e
          | Ok (stream, Some m) => Ok (<[id := stream]> streams, Some (id, m))
          | Ok (stream, None) => pick_stream rest (<[id := stream]> streams)
          end
      end
  end.

Definition retirable (stream : Stream) : bool :=
  st_sent_end stream && st_received_end stream && drained (st_window stream)
  && (st_received stream =? st_written stream) && bool_decide (st_ack stream = None).

Definition retire (s : SessionState) : SessionState :=
  let retired := filter (fun id => from_option retirable false (ss_streams s !! id) = true) (sorted_ids (ss_streams s)) in
  with_streams s (foldr delete (ss_streams s) retired) (ss_connecting s) (list_to_set retired ∪ ss_closed s) (ss_controls s).

(** A stream whose requester no longer waits. *)
Definition abandoned (stream : Stream) : bool := st_reply stream && st_reply_closed stream.

Definition drop_abandoned (s : SessionState) : SessionState :=
  fold_left reset_stream (filter (fun id => from_option abandoned false (ss_streams s !! id) = true) (sorted_ids (ss_streams s))) s.

(** Whether the session may end, and what it then does: a client asks once, an
    exit that was asked confirms and is done. *)
Definition idle (s : SessionState) : bool :=
  bool_decide (ss_streams s = ∅) && bool_decide (ss_connecting s = ∅) && bool_decide (ss_controls s = []).

Definition ask_finish (s : SessionState) (profile : Profile) (now : Z) : SessionState * bool :=
  if idle s && can_finish profile (now - ss_start s) (now - ss_activity s) (ss_cells s) then
    (if ss_client s && negb (ss_finishing s)
     then with_finish s (ss_controls s ++ [(SessionFinish, 0, [])]) true (ss_peer_finish s) else s,
     negb (ss_client s) && ss_peer_finish s)
  else (s, false).

(** The message of the slot. *)
Definition select_message (s : SessionState) (now : Z) : result SessionError (SessionState * Message) :=
  let prefer := negb (ss_prefer_control s) in
  let '(selected, controls) := if prefer then pop_front (ss_controls s) else (None, ss_controls s) in
  match selected with
  | Some m => Ok (with_slot s (ss_streams s) controls (ss_cursor s) (ss_cells s) prefer (ss_clock s), m)
  | None =>
      let? picked :=
        if NANOS_PER_SEC <=? now - ss_start s
        then pick_stream (round_robin (ss_cursor s) (sorted_ids (ss_streams s))) (ss_streams s)
        else Ok (ss_streams s, None) in
      match picked with
      | (streams, Some (id, m)) => Ok (with_slot s streams controls id (ss_cells s) prefer (ss_clock s), m)
      | (streams, None) =>
          let '(next, controls) := pop_front controls in
          Ok (with_slot s streams controls (ss_cursor s) (ss_cells s) prefer (ss_clock s), default (Dummy, 0, []) next)
      end
  end.

(** After the write: next slot, cell count, retired and abandoned streams.
    [now] is read after the write and [interval] drawn for the next slot. *)
Definition after_write (s : SessionState) (now interval : Z) : Outcome :=
  match next_deadline (ss_clock s) now interval, checked_add u64_MAX (ss_cells s) 1 with
  | None, _ => Panicked
  | _, None => Abort (Invalid "Cell count exhausted")
  | Some clock, Some cells =>
      Continue (drop_abandoned (retire (with_slot s (ss_streams s) (ss_controls s) (ss_cursor s) cells (ss_prefer_control s) clock)))
  end.

(** ** Requests and events *)

(** A request of the local application, [None] when the handle is gone. The
    flag says whether a stream was reserved; the other requests are answered
    with an error. The arm is disabled once the session is finishing. *)
Definition on_open (s : SessionState) (now : Z) (open : option (bytes * Z)) : Outcome * bool :=
  match open with
  | None => (Abort (Invalid "Session owner closed"), false)
  | Some (host, port) =>
      if (MAX_STREAMS <=? size (ss_streams s))%nat || (MAX_IDS <=? ss_last_id s) then (Continue s, false)
      else if (port =? 0) || (length host =? 0)%nat then (Continue s, false)
      else
        match encode_relay_target host port with
        | Err _ => (Continue s, false)
        | Ok target =>
            let id := ss_last_id s + 1 in
            (Continue
               (with_activity
                  (with_streams s (<[id := with_ready attach false true false true]> (ss_streams s)) (ss_connecting s) (ss_closed s)
                     (ss_controls s ++ [(SessionOpen, id, target)])) id now), true)
        end
  end.

Definition on_event (s : SessionState) (event : Event) : Outcome :=
  match event with
  | Written id count =>
      match ss_streams s !! id with
      | None => Continue s
      | Some stream =>
          if negb (count =? wrapping_add u32_MAX (st_written stream) 1) || (st_received stream <? count) then
            Abort (Invalid "Invalid write acknowledgement")
          else Continue (with_streams s (<[id := with_ack stream count (Some count)]> (ss_streams s)) (ss_connecting s) (ss_closed s)
                           (ss_controls s))
      end
  | Connected id ok =>
      if ss_client s then Abort (Invalid "Unexpected connect completion")
      else if negb (bool_decide (id ∈ ss_connecting s)) then Continue s
      else if ok then
        Continue (with_streams s (<[id := attach]> (ss_streams s)) (ss_connecting s ∖ {[id]}) (ss_closed s)
                    (ss_controls s ++ [(SessionOpened, id, [])]))
      else
        Continue (with_streams s (ss_streams s) (ss_connecting s ∖ {[id]}) (ss_closed s)
                    (ss_controls s ++ [(SessionRefused, id, [1])]))
  | Failed id => Continue (if bool_decide (is_Some (ss_streams s !! id)) then reset_stream s id else s)
  end.

(** ** Messages of the peer *)
Definition update_stream (s : SessionState) (id : Z) (stream : Stream) : SessionState :=
  with_streams s (<[id := stream]> (ss_streams s)) (ss_connecting s) (ss_closed s) (ss_controls s).

(** The destination to connect to is the exit's task; its end is an event. *)
Definition on_session_open (s : SessionState) (now id : Z) (data : bytes) : Outcome :=
  let s := with_activity s id (ss_activity s) in
  if (MAX_STREAMS <=? size (ss_streams s) + size (ss_connecting s))%nat then
    Continue (with_streams s (ss_streams s) (ss_connecting s) (ss_closed s) (ss_controls s ++ [(SessionRefused, id, [1])]))
  else
    match decode_relay_target data with
    | Err e => Abort (FromCircuit e)
    | Ok (host, port) =>
        match (if (length host =? 0)%nat || (port =? 0) then Ok [] else encode_relay_target host port) with
        | Err e => Abort (FromCircuit e)
        | Ok canonical =>
            if (length host =? 0)%nat || (port =? 0) || negb (bool_decide (canonical = data)) then
              Abort (Invalid "Noncanonical session destination")
            else if negb (ss_policy s) then Abort (Invalid "Missing exit policy")
            else Continue (with_activity (with_streams s (ss_streams s) ({[id]} ∪ ss_connecting s) (ss_closed s) (ss_controls s)) id now)
        end
    end.

Definition on_session_opened (s : SessionState) (id : Z) : Outcome :=
  match ss_streams s !! id with
  | None => Abort (Invalid "Unknown opened stream")
  | Some stream =>
      if st_ready stream then Abort (Invalid "Duplicate stream open acknowledgement")
      else if negb (st_reply stream) then Abort (Invalid "Missing stream reply")
      else if negb (st_application stream) then Abort (Invalid "Missing application stream")
      else if st_reply_closed stream then Continue (reset_stream s id)
      else Continue (update_stream s id (with_ready stream true false false false))
  end.

Definition on_session_refused (s : SessionState) (id : Z) : Outcome :=
  match ss_streams s !! id with
  | None => Abort (Invalid "Unknown refused stream")
  | Some stream =>
      if st_ready stream then Abort (Invalid "Refusal after stream accepted")
      else Continue (with_streams s (delete id (ss_streams s)) (ss_connecting s) ({[id]} ∪ ss_closed s) (ss_controls s))
  end.

Definition on_data (s : SessionState) (now id : Z) (data : bytes) : Outcome :=
  match ss_streams s !! id with
  | None => Abort (Invalid "Data for unknown stream")
  | Some stream =>
      if negb (st_ready stream) || st_received_end stream || (length data =? 0)%nat
         || (WINDOW_CELLS <=? wrapping_sub u32_MAX (st_received stream) (st_written stream)) then
        Abort (Invalid "Stream receive credit violation")
      else
        match checked_add u32_MAX (st_received stream) 1 with
        | None => Abort (Invalid "Receive count exhausted")
        | Some received =>
            match try_send stream (Some data) received (st_received_end stream) with
            | None => Abort (Invalid "Stream receive queue exhausted")
            | Some stream => Continue (with_activity (update_stream s id stream) (ss_last_id s) now)
            end
        end
  end.

Definition on_data_ack (s : SessionState) (id : Z) (data : bytes) : Outcome :=
  match ss_streams s !! id with
  | None => Abort (Invalid "Ack for unknown stream")
  | Some stream =>
      if negb (st_ready stream) then Abort (Invalid "Ack before stream opened")
      else
        match acknowledge (st_window stream) data with
        | (_, Err e) => Abort (Invalid e)
        | (w, Ok _) => Continue (update_stream s id (with_outgoing stream (st_outgoing stream) w (st_sent_end stream)))
        end
  end.

Definition on_end (s : SessionState) (now id : Z) : Outcome :=
  match ss_streams s !! id with
  | None => Abort (Invalid "End for unknown stream")
  | Some stream =>
      if negb (st_ready stream) || st_received_end stream then Abort (Invalid "Duplicate/premature stream end")
      else
        match try_send stream None (st_received stream) true with
        | None => Abort (Invalid "End receive queue exhausted")
        | Some stream => Continue (with_activity (update_stream s id stream) (ss_last_id s) now)
        end
  end.

Definition no_data (data : bytes) : bool := (length data =? 0)%nat.

Definition late_command (command : CellCommand) : bool :=
  match command with Data | DataAck | End_ | SessionOpened | SessionRefused => true | _ => false end.

Definition on_message (s : SessionState) (now : Z) (m : Message) : Outcome :=
  let '(command, id, data) := m in
  if bool_decide (id ∈ ss_closed s) && late_command command then Continue s
  else
    match command with
    | Dummy => if (id =? 0) && no_data data then Continue s else Abort (Invalid "Invalid session command or state")
    | SessionOpen =>
        if negb (ss_client s) && negb (ss_peer_finish s) && (ss_last_id s <? id) && (id <=? MAX_IDS)
        then on_session_open s now id data else Abort (Invalid "Invalid session command or state")
    | SessionOpened =>
        if ss_client s && no_data data then on_session_opened s id else Abort (Invalid "Invalid session command or state")
    | SessionRefused =>
        if ss_client s && bool_decide (data = [1]) then on_session_refused s id
        else Abort (Invalid "Invalid session command or state")
    | Data => on_data s now id data
    | DataAck => on_data_ack s id data
    | End_ => if no_data data then on_end s now id else Abort (Invalid "Invalid session command or state")
    | SessionReset =>
        if (0 <? id) && (id <=? ss_last_id s) && no_data data then
          Continue (with_streams s (delete id (ss_streams s)) (ss_connecting s ∖ {[id]}) ({[id]} ∪ ss_closed s) (ss_controls s))
        else Abort (Invalid "Invalid session command or state")
    | SessionFinish =>
        if negb (ss_client s) && (id =? 0) && no_data data && bool_decide (ss_streams s = ∅) && bool_decide (ss_connecting s = ∅)
           && negb (ss_peer_finish s)
        then Continue (with_finish s (ss_controls s) (ss_finishing s) true)
        else Abort (Invalid "Invalid session command or state")
    | SessionFinished =>
        if ss_client s && ss_finishing s && (id =? 0) && no_data data then Finished
        else Abort (Invalid "Invalid session command or state")
    | _ => Abort (Invalid "Invalid session command or state")
    end.

(** The checks at the head of the loop. *)
Definition loop_head (s : SessionState) (now : Z) : option SessionError :=
  if LIFETIME <=? now - ss_start s then Some (Invalid "Session lifetime expired; no replay")
  else if (MAX_CONTROLS <? length (ss_controls s))%nat then Some (Invalid "Session control budget exhausted")
  else None.

(** ** Cells *)
Inductive Crypto := CryptoClient (c : OnionCircuit) | CryptoExit (c : RelayCircuitHop).

Definition Crypto_id (self : Crypto) : Z := match self with CryptoClient c => circ_id c | CryptoExit c => hop_circuit_id c end.

Section Cells.
Context `{OnionPrimitives}.

(** [rng] is the ephemeral key drawn for the cell. *)
Definition Crypto_outgoing (self : Crypto) (rng : bytes) (m : Message) : Crypto * result SessionError bytes :=
  let '(command, id, data) := m in
  match OnionCell_new rng (Crypto_id self) 0 command id data with
  | Err e => (self, Err (FromCell e))
  | Ok cell =>
      match self with
      | CryptoClient c =>
          match wrap_forward c cell with
          | (c, _, Ok wire) => (CryptoClient c, Ok wire)
          | (c, _, Err e) => (CryptoClient c, Err (FromCircuit e))
          end
      | CryptoExit c =>
          match wrap_backward_originate c (OnionCell_serialize cell) with
          | (c, wire, Ok _) => (CryptoExit c, Ok wire)
          | (c, _, Err e) => (CryptoExit c, Err (FromCircuit e))
          end
      end
  end.

Definition Crypto_incoming (self : Crypto) (wire : bytes) : Crypto * result SessionError OnionCell :=
  match self with
  | CryptoClient c =>
      match unwrap_backward c wire with
      | (c, _, Err e) => (CryptoClient c, Err (FromCircuit e))
      | (c, _, Ok (hop, cell)) =>
          if negb (hop + 1 =? Z.of_nat (length (circ_hops c))) then
            (CryptoClient c, Err (Invalid "Session cell originated before exit"))
          else (CryptoClient c, Ok cell)
      end
  | CryptoExit c =>
      match peel_forward c wire with
      | (c, _, Err e) => (CryptoExit c, Err (FromCircuit e))
      | (c, wire, Ok (AddressedToThisRelay _ _)) =>
          match OnionCell_parse wire with
          | Ok cell => (CryptoExit c, Ok cell)
          | Err e => (CryptoExit c, Err (FromCell e))
          end
      | (c, _, Ok ForwardDownstream) => (CryptoExit c, Err (Invalid "Unaddressed session cell"))
      end
  end.

(** The arm of the clock: the cell written, if any. [written] is whether the
    write succeeded, [later] the time after it. *)
Definition on_clock (s : SessionState) (crypto : Crypto) (profile : Profile) (rng : bytes) (now later interval : Z) (written : bool)
    : Crypto * option bytes * Outcome :=
  let '(s, done_) := ask_finish s profile now in
  if done_ then
    match Crypto_outgoing crypto rng (SessionFinished, 0, []) with
    | (crypto, Err e) => (crypto, None, Abort e)
    | (crypto, Ok wire) => (crypto, Some wire, if written then Finished else Abort FromIo)
    end
  else
    match select_message s now with
    | Err e => (crypto, None, Abort e)
    | Ok (s, m) =>
        match Crypto_outgoing crypto rng m with
        | (crypto, Err e) => (crypto, None, Abort e)
        | (crypto, Ok wire) => (crypto, Some wire, if written then after_write s later interval else Abort FromIo)
        end
    end.

Definition message_of (cell : OnionCell) : Message :=
  (cell_command cell, cell_stream_id cell, take (Z.to_nat (cell_length cell)) (cell_payload cell)).

(** The arm of an incoming frame, [None] when the reader is gone. *)
Definition on_frame (s : SessionState) (crypto : Crypto) (now : Z) (frame : option bytes) : Crypto * Outcome :=
  match frame with
  | None => (crypto, Abort (Invalid "Padded session truncated"))
  | Some frame =>
      let budget := refill (ss_receive_budget s) (duration_between now (ss_receive_time s)) 250 512 in
      if SFltb budget (f64_of 1) then (crypto, Abort (Invalid "Session receive rate budget exhausted"))
      else
        let s := with_budget s (f64_sub budget (f64_of 1)) now in
        match Crypto_incoming crypto frame with
        | (crypto, Err e) => (crypto, Abort e)
        | (crypto, Ok cell) => (crypto, on_message s now (message_of cell))
        end
  end.

(** ** The channel

    Messages sent one after the other, each with its ephemeral key, and frames
    heard one after the other. *)
Fixpoint say_all (self : Crypto) (l : list (bytes * Message)) : option (list bytes) :=
  match l with
  | [] => Some []
  | (rng, m) :: l =>
      match Crypto_outgoing self rng m with
      | (self, Ok wire) => wires ← say_all self l; Some (wire :: wires)
      | (_, Err _) => None
      end
  end.

Fixpoint hear_all (self : Crypto) (frames : list bytes) : option (list Message) :=
  match frames with
  | [] => Some []
  | frame :: frames =>
      match Crypto_incoming self frame with
      | (self, Ok cell) => ms ← hear_all self frames; Some (message_of cell :: ms)
      | (_, Err _) => None
      end
  end.

Definition sendable (rm : bytes * Message) : Prop :=
  let '(rng, (command, id, data)) := rm in
  length rng = 32%nat /\ is_bytes rng /\ is_u16 id /\ is_bytes data /\ (length data <= PAYLOAD_SIZE)%nat.

(** No relay on the way takes a cell for its own by accident. *)
Fixpoint unmistaken (circuit_id seq : Z) (relays : list (RelayCircuitHop * Z)) (exit : RelayCircuitHop) (l : list (bytes * Message)) : Prop :=
  match l with
  | [] => True
  | (rng, (command, id, data)) :: l =>
      match OnionCell_new rng circuit_id 0 command id data with
      | Ok cell =>
          let '(ct, tag) := seal_forward (hop_crypt exit) (build_nonce 1 0 seq) (be_bytes 4 seq) (cell_text cell) in
          spurious_free (build_nonce 1 0 seq) (be_bytes 4 seq) ((fun r => hop_crypt r.1) <$> relays) (ct ++ tag)
      | Err _ => True
      end /\ unmistaken circuit_id (seq + 1) relays exit l
  end.
End Cells.

Section Channel.
Context `{OnionPrimitivesLaws}.

Lemma linked_u32 id relays exit_id : linked id relays exit_id -> is_u32 exit_id -> is_u32 id.
Proof. destruct relays as [|[hop d] rest]; cbn; [by intros ->|]. by intros (_ & ? & _). Qed.

(** The circuit of the client and the exit's end of it are in step. *)
Definition in_step (c : OnionCircuit) (relays : list (RelayCircuitHop * Z)) (exit : RelayCircuitHop) : Prop :=
  circuit_wf c /\ circ_hops c = ((fun r => hop_crypt r.1) <$> relays) ++ [hop_crypt exit] /\
  linked (circ_id c) relays (hop_circuit_id exit) /\ is_u32 (hop_circuit_id exit) /\
  hop_expected_recv_seq exit <= circ_sequence_no c <= hop_expected_recv_seq exit + MAX_SEQ_GAP.

Lemma channel_one c relays exit rng command id data :
  in_step c relays exit -> circ_sequence_no c < u32_MAX -> sendable (rng, (command, id, data)) ->
  (forall cell, OnionCell_new rng (circ_id c) 0 command id data = Ok cell ->
   let seq := circ_sequence_no c in
   let '(ct, tag) := seal_forward (hop_crypt exit) (build_nonce 1 0 seq) (be_bytes 4 seq) (cell_text cell) in
   spurious_free (build_nonce 1 0 seq) (be_bytes 4 seq) ((fun r => hop_crypt r.1) <$> relays) (ct ++ tag)) ->
  exists c' exit' wire wire' cell,
    Crypto_outgoing (CryptoClient c) rng (command, id, data) = (CryptoClient c', Ok wire) /\
    path_forward relays wire = Some wire' /\
    Crypto_incoming (CryptoExit exit) wire' = (CryptoExit exit', Ok cell) /\ message_of cell = (command, id, data) /\
    in_step c' relays exit' /\ circ_id c' = circ_id c /\ circ_sequence_no c' = circ_sequence_no c + 1 /\ hop_crypt exit' = hop_crypt exit.
Proof.
  intros (Hc & Hh & Hl & Hx & Hs) Hlt (Hr & Hrb & Hid & Hd & Hlen) Hq.
  pose proof (linked_u32 _ _ _ Hl Hx) as Hcid. pose proof Hc as [H1 H2 H3].
  destruct (OnionCell_new rng (circ_id c) 0 command id data) as [cell|] eqn:En; [|by rewrite OnionCell_new_ok in En].
  assert (Hwf : cell_wf cell) by (eapply OnionCell_new_wf; [exact Hr|done|done| |done|exact Hd|exact En]; unfold_ints; lia).
  assert (Hm : cell_circuit_id cell = circ_id c /\ message_of cell = (command, id, data)).
  { rewrite OnionCell_new_ok in En by done. apply Ok_inj in En as <-. cbn. split; [done|]. unfold message_of. cbn.
    rewrite Nat2Z.id, take_app_length. done. }
  destruct Hm as [Hi Hm].
  destruct (forward_delivery c cell relays exit Hwf Hc Hlt Hi Hh Hl Hx Hs (Hq cell eq_refl)) as (raw & raw_exit & raw' & tag & Hw & Hp & Ho & Hparse).
  do 5 eexists. unfold Crypto_outgoing, Crypto_incoming, Crypto_id. rewrite En, Hw, Ho, Hparse. split_and!; try done.
  split; [constructor; cbn; [done|done|lia]|]. cbn. unfold MAX_SEQ_GAP. split_and!; try done; lia.
Qed.

(** ** Properties *)

(** C22: a session's messages cross the circuit. Whatever messages a client
    sends one after the other over its circuit, as long as its sequence numbers
    last and no relay on the way mistakes a cell for its own, each is wrapped
    into a cell, every relay passes the cells on, and the exit hears exactly
    these messages, commands, stream ids and data, in the same order. *)
Theorem session_channel (l : list (bytes * Message)) (c : OnionCircuit) (relays : list (RelayCircuitHop * Z)) (exit : RelayCircuitHop) :
  in_step c relays exit -> circ_sequence_no c + Z.of_nat (length l) <= u32_MAX -> Forall sendable l ->
  unmistaken (circ_id c) (circ_sequence_no c) relays exit l ->
  exists wires frames,
    say_all (CryptoClient c) l = Some wires /\ mapM (path_forward relays) wires = Some frames /\
    hear_all (CryptoExit exit) frames = Some l.*2.
Proof.
  revert c exit. induction l as [|[rng [[command id] data]] l IH]; intros c exit Hstep Hseq Hs Hq; [by exists [], []|].
  apply Forall_cons in Hs as [Hs Hsl]. destruct Hq as [Hq Hql]. cbn [length] in Hseq.
  destruct (channel_one c relays exit rng command id data Hstep ltac:(lia) Hs) as (c' & exit' & wire & wire' & cell & Ho & Hp & Hi & Hm & Hstep' & Eid & Eseq & Ek).
  { intros cell En. rewrite En in Hq. exact Hq. }
  assert (Hext : forall l seq, unmistaken (circ_id c) seq relays exit l -> unmistaken (circ_id c') seq relays exit' l).
  { clear -Eid Ek. induction l as [|[r [[co i] d]] l IH]; intros seq; [done|]. cbn [unmistaken]. rewrite Eid, Ek in *.
    intros [H1 H2]. split; [exact H1|by apply IH]. }
  destruct (IH c' exit') as (wires & frames & H1 & H2 & H3); [done|lia|done|rewrite Eseq; by apply Hext|].
  exists (wire :: wires), (wire' :: frames). cbn [say_all mapM hear_all fmap list_fmap]. rewrite Ho, H1, Hp, H2, Hi, H3. cbn. rewrite Hm. done.
Qed.
End Channel.

#[local] Existing Instance toy_primitives.
#[local] Existing Instance toy_laws.

Definition toy_messages : list (bytes * Message) :=
  [(replicate 32 7, (SessionOpen, 1, 3 :: str "foo" ++ [0; 80])); (replicate 32 8, (Data, 1, [1; 2; 3]))].

Lemma toy_sendable : Forall sendable toy_messages.
Proof.
  assert (H : forall data : bytes, (length data <= 100)%nat -> (length data <= PAYLOAD_SIZE)%nat).
  { intros data Hd. assert (100 <= PAYLOAD_SIZE)%nat by (apply Nat.leb_le; vm_compute; done). lia. }
  apply Forall_cons; split; [|apply Forall_cons; split; [|constructor]]; refine (conj eq_refl (conj _ (conj _ (conj _ (H _ _))))).
  all: first [by unfold_ints|by (apply (bool_decide_unpack _); vm_compute)|by (cbn; lia)].
Qed.

Lemma toy_unmistaken : unmistaken 7 1 toy_relays toy_exit toy_messages.
Proof. vm_compute. repeat split. Qed.

Lemma session_channel_witness :
  exists wires frames,
    say_all (CryptoClient toy_circuit) toy_messages = Some wires /\ mapM (path_forward toy_relays) wires = Some frames /\
    hear_all (CryptoExit toy_exit) frames = Some toy_messages.*2.
Proof.
  apply (session_channel toy_messages toy_circuit toy_relays toy_exit).
  - refine (conj toy_circuit_wf (conj eq_refl (conj _ (conj _ _)))).
    + cbn. change (circ_id toy_circuit) with 7. unfold_ints. lia.
    + cbn. unfold_ints. lia.
    + change (circ_sequence_no toy_circuit) with 1. cbn. unfold MAX_SEQ_GAP. lia.
  - change (circ_sequence_no toy_circuit) with 1. cbn. unfold_ints. lia.
  - exact toy_sendable.
  - exact toy_unmistaken.
Defined.
