(* ===== verification/Streams.v ===== *)
(** * Streams of a session end to end (src/onion/session.rs)

    One end of a session with its workers as a transition system: the slots of
    the clock, opening requests, events, messages of an arbitrary peer, and the
    tasks that read and write the sockets. Beside the state an [Endpoint] keeps
    what happened: the messages taken and sent in order, the bytes read from
    and written to the socket of each stream, the sockets shut down. *)
From S2P Require Import Prelude Float Text Cell Replay Circuit Handshake Flow Session.

(** ** What happened on a stream *)

(** The data of a stream in a log of messages, up to its end. *)
Fixpoint payload (id : Z) (log : list Message) : bytes :=
  match log with
  | [] => []
  | (Data, i, d) :: log => if i =? id then d ++ payload id log else payload id log
  | (End_, i, _) :: log => if i =? id then [] else payload id log
  | _ :: log => payload id log
  end.

Definition ends (id : Z) (m : Message) : bool := match m with (End_, i, _) => i =? id | _ => false end.

Definition ended (id : Z) (log : list Message) : bool := existsb (ends id) log.

(** The bytes of one stream in a log of socket operations. *)
Definition bytes_of (id : Z) (log : list (Z * bytes)) : bytes := mjoin (snd <$> filter (fun p => p.1 = id) log).

(** The write counts of a stream among the pending events. *)
Definition written_of (id : Z) (events : list Event) : list Z :=
  omap (fun e => match e with Written i count => if i =? id then Some count else None | _ => None end) events.

Record Endpoint := mkEndpoint {
  ep_session : SessionState;
  ep_events : list Event;
  ep_got : list Message;
  ep_sent : list Message;
  ep_read : list (Z * bytes);
  ep_wrote : list (Z * bytes);
  ep_shut : gset Z;
}.

Definition ep_stream (e : Endpoint) (id : Z) : option Stream := ss_streams (ep_session e) !! id.

Definition endpoint_start (client policy : bool) (now interval : Z) : Endpoint :=
  mkEndpoint (session_start client policy now interval) [] [] [] [] [] ∅.

(** A worker changed its stream. *)
Definition worker_moved (e : Endpoint) (id : Z) (stream : Stream) (events : list Event) (read wrote : bytes) (shut : bool) : Endpoint :=
  mkEndpoint (update_stream (ep_session e) id stream) (ep_events e ++ events) (ep_got e) (ep_sent e)
    (ep_read e ++ [(id, read)]) (ep_wrote e ++ [(id, wrote)]) (if shut then {[id]} ∪ ep_shut e else ep_shut e).

Definition stop_waiting (stream : Stream) : Stream := with_ready stream (st_ready stream) (st_reply stream) true (st_application stream).

Inductive endpoint_step (e : Endpoint) : Endpoint -> Prop :=
| step_slot profile now later interval s m s' :
    (ask_finish (ep_session e) profile now).2 = false ->
    select_message (ask_finish (ep_session e) profile now).1 now = Ok (s, m) -> after_write s later interval = Continue s' ->
    endpoint_step e (mkEndpoint s' (ep_events e) (ep_got e) (ep_sent e ++ [m]) (ep_read e) (ep_wrote e) (ep_shut e))
| step_open now open s' :
    ss_client (ep_session e) = true -> ss_finishing (ep_session e) = false -> (on_open (ep_session e) now open).1 = Continue s' ->
    endpoint_step e (mkEndpoint s' (ep_events e) (ep_got e) (ep_sent e) (ep_read e) (ep_wrote e) (ep_shut e))
| step_event event events s' :
    ep_events e = event :: events -> on_event (ep_session e) event = Continue s' ->
    endpoint_step e (mkEndpoint s' events (ep_got e) (ep_sent e) (ep_read e) (ep_wrote e) (ep_shut e))
| step_message budget time now m s' :
    on_message (with_budget (ep_session e) budget time) now m = Continue s' ->
    endpoint_step e (mkEndpoint s' (ep_events e) (ep_got e ++ [m]) (ep_sent e) (ep_read e) (ep_wrote e) (ep_shut e))
| step_writer id stream failed stream' data shut events :
    ep_stream e id = Some stream -> writer_step id stream failed = Some (stream', data, shut, events) ->
    endpoint_step e (worker_moved e id stream' events [] data shut)
| step_reader id stream r stream' data events :
    ep_stream e id = Some stream -> reader_step id stream r = Some (stream', data, events) ->
    endpoint_step e (worker_moved e id stream' events data [] false)
| step_connect id ok :
    id ∈ ss_connecting (ep_session e) ->
    endpoint_step e
      (mkEndpoint (ep_session e) (ep_events e ++ [Connected id ok]) (ep_got e) (ep_sent e) (ep_read e) (ep_wrote e) (ep_shut e))
| step_abandon id stream :
    ep_stream e id = Some stream -> endpoint_step e (worker_moved e id (stop_waiting stream) [] [] [] false).

(** The states an end can be in. *)
Definition endpoint_reachable (client policy : bool) : Endpoint -> Prop :=
  fun e => exists now interval, rtc endpoint_step (endpoint_start client policy now interval) e.

(** The same steps as a function of what happens. *)
Inductive Action :=
| ActSlot (profile : Profile) (now later interval : Z)
| ActOpen (now : Z) (open : option (bytes * Z))
| ActEvent
| ActMessage (now : Z) (m : Message)
| ActWriter (id : Z) (failed : option nat)
| ActReader (id : Z) (r : ReadOutcome)
| ActConnect (id : Z) (ok : bool).

Definition continue (o : Outcome) : option SessionState := match o with Continue s => Some s | _ => None end.

Definition act (e : Endpoint) (a : Action) : option Endpoint :=
  let s := ep_session e in
  match a with
  | ActSlot profile now later interval =>
      let '(s, done_) := ask_finish s profile now in
      match done_, select_message s now with
      | false, Ok (s, m) =>
          s' ← continue (after_write s later interval);
          Some (mkEndpoint s' (ep_events e) (ep_got e) (ep_sent e ++ [m]) (ep_read e) (ep_wrote e) (ep_shut e))
      | _, _ => None
      end
  | ActOpen now open =>
      if ss_client s && negb (ss_finishing s) then
        s' ← continue (on_open s now open).1;
        Some (mkEndpoint s' (ep_events e) (ep_got e) (ep_sent e) (ep_read e) (ep_wrote e) (ep_shut e))
      else None
  | ActEvent =>
      match ep_events e with
      | [] => None
      | event :: events =>
          s' ← continue (on_event s event);
          Some (mkEndpoint s' events (ep_got e) (ep_sent e) (ep_read e) (ep_wrote e) (ep_shut e))
      end
  | ActMessage now m =>
      s' ← continue (on_message (with_budget s (ss_receive_budget s) now) now m);
      Some (mkEndpoint s' (ep_events e) (ep_got e ++ [m]) (ep_sent e) (ep_read e) (ep_wrote e) (ep_shut e))
  | ActWriter id failed =>
      stream ← ep_stream e id;
      '(stream', data, shut, events) ← writer_step id stream failed;
      Some (worker_moved e id stream' events [] data shut)
  | ActReader id r =>
      stream ← ep_stream e id;
      '(stream', data, events) ← reader_step id stream r;
      Some (worker_moved e id stream' events data [] false)
  | ActConnect id ok =>
      if bool_decide (id ∈ ss_connecting s) then
        Some (mkEndpoint s (ep_events e ++ [Connected id ok]) (ep_got e) (ep_sent e) (ep_read e) (ep_wrote e) (ep_shut e))
      else None
  end.

Fixpoint acts (e : Endpoint) (l : list Action) : option Endpoint :=
  match l with [] => Some e | a :: l => e' ← act e a; acts e' l end.

(** ** The invariant *)
Record View := mkView {
  vw_got : bytes * bool;
  vw_sent : bytes * bool;
  vw_read : bytes;
  vw_wrote : bytes;
  vw_shut : bool;
  vw_events : list Z;
}.

Definition view (e : Endpoint) (id : Z) : View :=
  mkView (payload id (ep_got e), ended id (ep_got e)) (payload id (ep_sent e), ended id (ep_sent e))
    (bytes_of id (ep_read e)) (bytes_of id (ep_wrote e)) (bool_decide (id ∈ ep_shut e)) (written_of id (ep_events e)).

Definition chunk_ok (data : bytes) : Prop := (1 <= length data <= PAYLOAD_SIZE)%nat.

Record outgoing_ok (o : Outgoing) : Prop := {
  oo_chunks : Forall chunk_ok (og_receiver o);
  oo_pending : from_option chunk_ok True (og_pending o);
  oo_queue : (length (og_receiver o) <= SESSION_QUEUE)%nat;
}.

Definition backlog (o : Outgoing) : bytes := default [] (og_pending o) ++ mjoin (og_receiver o).

(** A stream in service. *)
Record live_ok (st : Stream) (v : View) : Prop := {
  lo_window : window_wf (st_window st);
  lo_outgoing : outgoing_ok (st_outgoing st);
  lo_counts : 0 <= st_written st <= st_count st /\ st_count st <= st_received st <= u32_MAX;
  lo_credit : st_received st - st_written st <= WINDOW_CELLS;
  lo_events : vw_events v = seqZ (st_written st + 1) (st_count st - st_written st);
  lo_queue : st_writer st = true -> exists q,
      st_incoming st = (Some <$> q) ++ (if st_received_end st then [None] else []) /\
      Z.of_nat (length q) = st_received st - st_count st /\ vw_wrote v ++ mjoin q = (vw_got v).1;
  lo_wrote : vw_wrote v `prefix_of` (vw_got v).1;
  lo_got_end : (vw_got v).2 = st_received_end st;
  lo_shut : vw_shut v = true -> st_writer st = false /\ st_received_end st = true /\ vw_wrote v = (vw_got v).1;
  lo_sent : (vw_sent v).1 ++ backlog (st_outgoing st) = vw_read v;
  lo_sent_end : (vw_sent v).2 = st_sent_end st;
  lo_done : st_sent_end st = true -> og_closed (st_outgoing st) = true /\ og_pending (st_outgoing st) = None /\ og_receiver (st_outgoing st) = [];
}.

(** A stream not in service: closed, or never opened. *)
Record gone_ok (closed : bool) (v : View) : Prop := {
  go_wrote : vw_wrote v `prefix_of` (vw_got v).1;
  go_shut : vw_shut v = true -> (vw_got v).2 = true /\ vw_wrote v = (vw_got v).1;
  go_sent : (vw_sent v).1 `prefix_of` vw_read v;
  go_sent_end : (vw_sent v).2 = true -> (vw_sent v).1 = vw_read v;
  go_fresh : closed = false -> v = mkView ([], false) ([], false) [] [] false [];
}.

Definition flow_ok (st : option Stream) (closed : bool) (v : View) : Prop :=
  match st with Some st => closed = false /\ live_ok st v | None => gone_ok closed v end.

(** Control messages carry no data. *)
Definition plain (m : Message) : bool := match m with (Data, _, _) | (End_, _, _) => false | _ => true end.

Definition control_ok (m : Message) : Prop := plain m = true /\ (length m.2 <= PAYLOAD_SIZE)%nat.

Record session_ok (s : SessionState) (V : Z -> View) : Prop := {
  so_last : 0 <= ss_last_id s <= MAX_IDS;
  so_ids : forall id, id ∈ dom (ss_streams s) ∪ ss_connecting s ∪ ss_closed s -> 1 <= id <= ss_last_id s;
  so_disj : ss_connecting s ## dom (ss_streams s) ∪ ss_closed s;
  so_size : (size (ss_streams s) + size (ss_connecting s) <= MAX_STREAMS)%nat;
  so_client : ss_client s = true -> ss_connecting s = ∅;
  so_controls : Forall control_ok (ss_controls s);
  so_flow : forall id, flow_ok (ss_streams s !! id) (bool_decide (id ∈ ss_closed s)) (V id);
}.

Definition endpoint_ok (e : Endpoint) : Prop :=
  session_ok (ep_session e) (view e) /\
  (ss_client (ep_session e) = true -> Forall (fun ev => match ev with Connected _ _ => False | _ => True end) (ep_events e)).

(** ** Logs *)
Lemma payload_app id l1 l2 : payload id (l1 ++ l2) = payload id l1 ++ (if ended id l1 then [] else payload id l2).
Proof.
  induction l1 as [|[[c i] d] l1 IH]; [done|]. unfold ended in *. destruct c; cbn [payload app existsb ends]; try exact IH.
  all: destruct (i =? id) eqn:E; cbn [orb]; rewrite ?IH, ?app_assoc; done.
Qed.

Lemma ended_app id l1 l2 : ended id (l1 ++ l2) = ended id l1 || ended id l2.
Proof. apply existsb_app. Qed.

Lemma bytes_of_app id l1 l2 : bytes_of id (l1 ++ l2) = bytes_of id l1 ++ bytes_of id l2.
Proof. unfold bytes_of. rewrite filter_app, fmap_app. apply join_app. Qed.

Lemma bytes_of_one id i d : bytes_of id [(i, d)] = if decide (i = id) then d else [].
Proof. unfold bytes_of. rewrite filter_cons. cbn. case_decide; cbn; rewrite ?app_nil_r; done. Qed.

Lemma written_of_app id l1 l2 : written_of id (l1 ++ l2) = written_of id l1 ++ written_of id l2.
Proof. apply omap_app. Qed.

(** One more message in a log. *)
Definition hear (id : Z) (h : bytes * bool) (m : Message) : bytes * bool :=
  (h.1 ++ (if h.2 then [] else payload id [m]), h.2 || ends id m).

Lemma heard_snoc id log m : (payload id (log ++ [m]), ended id (log ++ [m])) = hear id (payload id log, ended id log) m.
Proof. rewrite payload_app, ended_app. change (ended id [m]) with (ends id m || false). rewrite orb_false_r. done. Qed.

Lemma hear_other id h m : plain m = true \/ m.1.2 <> id -> hear id h m = h.
Proof.
  intros Hm. unfold hear. assert (payload id [m] = [] /\ ends id m = false) as [-> ->].
  { destruct m as [[c i] d]. cbn in *. destruct c; try done; (destruct Hm as [|Hm]; [done|]);
      (replace (i =? id) with false by (symmetry; apply Z.eqb_neq, Hm)); done. }
  destruct h as [p []]; cbn; rewrite app_nil_r; done.
Qed.

Definition say (id : Z) (v : View) (m : Message) : View :=
  mkView (vw_got v) (hear id (vw_sent v) m) (vw_read v) (vw_wrote v) (vw_shut v) (vw_events v).

Definition listen (id : Z) (v : View) (m : Message) : View :=
  mkView (hear id (vw_got v) m) (vw_sent v) (vw_read v) (vw_wrote v) (vw_shut v) (vw_events v).

(** ** Generic updates *)
Section Updates.
Context (s s' : SessionState) (V V' : Z -> View).
Hypothesis Hok : session_ok s V.
Hypothesis Hclient : ss_client s' = ss_client s.
Hypothesis Hcontrols : Forall control_ok (ss_controls s').

(** Nothing happens to the streams. *)
Lemma session_ok_same :
  ss_streams s' = ss_streams s -> ss_connecting s' = ss_connecting s -> ss_closed s' = ss_closed s -> ss_last_id s' = ss_last_id s ->
  (forall id, V' id = V id) -> session_ok s' V'.
Proof.
  destruct Hok. intros Es Ec Ed El EV. constructor; rewrite ?Es, ?Ec, ?Ed, ?El, ?Hclient; try done.
  intros id. rewrite EV. done.
Qed.

(** One stream in service changes. *)
Lemma session_ok_update id st st' :
  ss_streams s !! id = Some st -> live_ok st' (V' id) ->
  ss_streams s' = <[id := st']> (ss_streams s) -> ss_connecting s' = ss_connecting s -> ss_closed s' = ss_closed s ->
  ss_last_id s' = ss_last_id s -> (forall id', id' <> id -> V' id' = V id') -> session_ok s' V'.
Proof.
  destruct Hok. intros Hst Hlive Es Ec Ed El EV.
  assert (Hdom : dom (ss_streams s') = dom (ss_streams s)).
  { rewrite Es, dom_insert_L. apply elem_of_dom_2 in Hst. set_solver. }
  constructor; rewrite ?Hdom, ?Ec, ?Ed, ?El, ?Hclient; try done.
  - rewrite Es, map_size_insert_Some by eauto. done.
  - intros id'. specialize (so_flow0 id'). rewrite Es. destruct (decide (id' = id)) as [->|Hne].
    + rewrite lookup_insert_eq. rewrite Hst in so_flow0. destruct so_flow0. done.
    + rewrite lookup_insert_ne, EV by done. done.
Qed.

(** A connection ends without a stream, or a new one starts for an id not used
    before. *)
Lemma session_ok_connecting :
  ss_streams s' = ss_streams s -> ss_closed s' = ss_closed s ->
  ss_last_id s <= ss_last_id s' <= MAX_IDS ->
  (forall id, id ∈ ss_connecting s' -> id ∈ ss_connecting s \/ ss_last_id s < id <= ss_last_id s') ->
  (size (ss_streams s) + size (ss_connecting s') <= MAX_STREAMS)%nat -> (ss_client s = true -> ss_connecting s' = ∅) ->
  (forall id, V' id = V id) -> session_ok s' V'.
Proof.
  destruct Hok. intros Es Ed El Hin Hsz Hc EV.
  assert (Hno : forall id, id ∈ dom (ss_streams s) ∪ ss_closed s -> ~ id ∈ ss_connecting s').
  { intros id H1 H2. assert (1 <= id <= ss_last_id s) by (apply so_ids0; set_solver).
    destruct (Hin id H2) as [H3|H3]; [exact (so_disj0 id H3 H1)|lia]. }
  constructor; rewrite ?Es, ?Ed, ?Hclient; try done.
  - lia.
  - intros id Hid. destruct (decide (id ∈ ss_connecting s')) as [H1|H1].
    + destruct (Hin id H1) as [H2|H2]; [|lia]. specialize (so_ids0 id). assert (1 <= id <= ss_last_id s); [apply so_ids0; set_solver|lia].
    + specialize (so_ids0 id). assert (1 <= id <= ss_last_id s); [apply so_ids0; set_solver|lia].
  - intros id. rewrite EV. done.
Qed.

(** A new stream starts. *)
Lemma session_ok_add id st' :
  ss_streams s !! id = None -> id ∉ ss_closed s -> 1 <= id <= ss_last_id s' -> ss_last_id s <= ss_last_id s' <= MAX_IDS ->
  (size (ss_streams s) + size (ss_connecting s') < MAX_STREAMS)%nat ->
  live_ok st' (mkView ([], false) ([], false) [] [] false []) ->
  ss_streams s' = <[id := st']> (ss_streams s) -> ss_connecting s' = ss_connecting s ∖ {[id]} -> ss_closed s' = ss_closed s ->
  (forall id', V' id' = V id') -> session_ok s' V'.
Proof.
  destruct Hok. intros Hst Hcl Hid Hlast Hsize Hlive Es Ec Ed EV.
  constructor; rewrite ?Ed, ?Hclient; try done.
  - lia.
  - intros id'. rewrite Es, Ec, dom_insert_L. intros Hin. destruct (decide (id' = id)) as [->|]; [done|].
    specialize (so_ids0 id'). assert (1 <= id' <= ss_last_id s); [|lia]. apply so_ids0. set_solver.
  - rewrite Es, Ec, dom_insert_L. set_solver.
  - rewrite Es, map_size_insert_None by done. lia.
  - intros Hc. rewrite Ec, so_client0 by done. set_solver.
  - intros id'. specialize (so_flow0 id'). rewrite Es, EV. destruct (decide (id' = id)) as [->|Hne].
    + rewrite lookup_insert_eq. rewrite Hst in so_flow0. rewrite bool_decide_false in * by done.
      rewrite (go_fresh _ _ so_flow0 eq_refl). done.
    + rewrite lookup_insert_ne by done. done.
Qed.

(** Streams go out of service. *)
Lemma session_ok_drop (R : gset Z) :
  (forall id, id ∈ R -> 1 <= id <= ss_last_id s) ->
  (forall id, ss_streams s' !! id = if decide (id ∈ R) then None else ss_streams s !! id) ->
  ss_connecting s' = ss_connecting s ∖ R -> ss_closed s' = R ∪ ss_closed s -> ss_last_id s' = ss_last_id s ->
  (forall id, V' id = V id) -> session_ok s' V'.
Proof.
  destruct Hok. intros HR Hs Ec Ed El EV.
  assert (Hsub : ss_streams s' ⊆ ss_streams s).
  { apply map_subseteq_spec. intros id st. rewrite Hs. case_decide; done. }
  pose proof (subseteq_dom _ _ Hsub) as Hdom.
  constructor; rewrite ?Ec, ?Ed, ?El, ?Hclient; try done.
  - intros id Hin. destruct (decide (id ∈ R)); [auto|]. apply so_ids0. set_solver.
  - set_solver.
  - rewrite <- !size_dom. apply subseteq_size in Hdom. rewrite !size_dom in *.
    pose proof (subseteq_size (ss_connecting s ∖ R) (ss_connecting s) ltac:(set_solver)). lia.
  - intros Hc. rewrite so_client0 by done. set_solver.
  - intros id. specialize (so_flow0 id). rewrite Hs, EV. destruct (decide (id ∈ R)) as [Hin|Hin].
    + rewrite bool_decide_true by set_solver. destruct (ss_streams s !! id) as [st|]; cbn [flow_ok] in *.
      * destruct so_flow0 as [_ []]. constructor; try done.
        -- intros Hsh. rewrite lo_got_end0. destruct (lo_shut0 Hsh) as (_ & H1 & H2). done.
        -- eexists. symmetry. exact lo_sent0.
        -- intros He. rewrite lo_sent_end0 in He. destruct (lo_done0 He) as (_ & Hp & Hr).
           rewrite <- lo_sent0. unfold backlog. rewrite Hp, Hr. cbn. rewrite app_nil_r. done.
      * destruct so_flow0. constructor; done.
    + rewrite (bool_decide_ext (id ∈ R ∪ ss_closed s) (id ∈ ss_closed s)) by set_solver. done.
Qed.
End Updates.

(** ** Packing *)
Lemma pack_spec fuel data o :
  chunk_ok data -> outgoing_ok o -> og_pending o = None ->
  let '(o', data') := pack fuel data o in
  chunk_ok data' /\ outgoing_ok o' /\ og_closed o' = og_closed o /\ data' ++ backlog o' = data ++ backlog o /\
  (length data' = PAYLOAD_SIZE \/ backlog o' = [] \/ (exists l, length l = fuel /\ og_receiver o = l ++ og_receiver o')).
Proof.
  revert data o. induction fuel as [|fuel IH]; intros data o Hd Ho Hp; cbn [pack].
  { split_and!; try done. right; right. by exists []. }
  destruct (Nat.eqb_spec (length data) PAYLOAD_SIZE) as [E|Hne]; [split_and!; auto|].
  destruct o as [rx cl pend]. cbn in Hp. subst pend. unfold try_recv; cbn [og_receiver og_closed og_pending].
  destruct rx as [|next rest]; [destruct cl; split_and!; auto|].
  destruct Ho as [Hc _ Hl]. cbn in Hc, Hl. apply Forall_cons in Hc as [Hn Hc].
  unfold chunk_ok in *. destruct (Nat.ltb_spec (PAYLOAD_SIZE - length data) (length next)) as [Hlt|Hge].
  - split_and!; try done; rewrite ?length_app, ?length_take; try lia.
    + constructor; cbn; [done| |lia]. unfold chunk_ok. rewrite length_drop. lia.
    + unfold backlog; cbn. rewrite <- !app_assoc. f_equal. rewrite app_assoc, take_drop. done.
  - specialize (IH (data ++ next) (mkOutgoing rest cl None)). rewrite length_app in IH.
    destruct (pack fuel _ _) as [o' data'].
    destruct IH as (H1 & H2 & H3 & H4 & H5); [lia|constructor; cbn; [done|done|lia]|done|]. split_and!; try done; try lia.
    + rewrite H4. unfold backlog; cbn. rewrite <- app_assoc. done.
    + destruct H5 as [|[|(l & El & Er)]]; auto. right; right. exists (next :: l). cbn in *. rewrite El, Er. done.
Qed.

Lemma try_next_spec o :
  outgoing_ok o ->
  match try_next o with
  | (o', Received data) => chunk_ok data /\ outgoing_ok o' /\ og_closed o' = og_closed o /\ data ++ backlog o' = backlog o /\
      (length data = PAYLOAD_SIZE \/ backlog o' = [] \/
       (exists l, (SESSION_QUEUE - 1 <= length l)%nat /\ og_receiver o = l ++ og_receiver o'))
  | (o', Empty) => o' = o /\ backlog o = [] /\ og_closed o = false
  | (o', Disconnected) => o' = o /\ og_pending o = None /\ og_receiver o = [] /\ og_closed o = true
  end.
Proof.
  intros Ho. unfold try_next. destruct o as [rx cl [p|]]; unfold try_recv; cbn [og_receiver og_closed og_pending].
  - pose proof (pack_spec (SESSION_QUEUE - 1) p (mkOutgoing rx cl None)) as H. destruct (pack _ _ _) as [o' d].
    destruct Ho as [H1 H2 H3]. destruct H as (? & ? & ? & ? & H5); [done|by constructor|done|]. split_and!; try done.
    destruct H5 as [|[|(l & El & Er)]]; auto. right; right. exists l. split; [lia|done].
  - destruct rx as [|d rest]; [destruct cl; done|].
    destruct Ho as [H1 H2 H3]. cbn in H1, H3. apply Forall_cons in H1 as [Hd H1].
    pose proof (pack_spec (SESSION_QUEUE - 1) d (mkOutgoing rest cl None)) as H. destruct (pack _ _ _) as [o' d'].
    destruct H as (? & ? & ? & ? & H5); [done|constructor; cbn; [done|done|lia]|done|]. split_and!; try done.
    destruct H5 as [|[|(l & El & Er)]]; auto. right; right. exists (d :: l). cbn in *. rewrite Er. split; [lia|done].
Qed.

(** ** The slot *)
Lemma stream_message_spec id st v :
  live_ok st v ->
  match stream_message id st with
  | Err e => e = Invalid "Data counter exhausted"
  | Ok (st', None) => st' = st
  | Ok (st', Some m) => m.1.2 = id /\ (length m.2 <= PAYLOAD_SIZE)%nat /\ live_ok st' (say id v m)
  end.
Proof.
  intros Hl. unfold stream_message. destruct (st_ready st); [cbn [negb]|done].
  destruct (st_ack st) as [ack|] eqn:Ea.
  { split; [done|]. split; [cbn [snd]; rewrite be_bytes_length; vm_compute; lia|]. unfold say. rewrite hear_other by auto.
    destruct Hl. constructor; done. }
  destruct (st_sent_end st) eqn:Es; [done|]. destruct (available (st_window st)) eqn:Eav; [cbn [negb andb]|done].
  pose proof (try_next_spec _ (lo_outgoing _ _ Hl)) as Hn. destruct (try_next (st_outgoing st)) as [o' [d| |]].
  - destruct Hn as (Hd & Ho & Hc & Hb & _).
    destruct (window_sent (st_window st)) as [w [[]|e]] eqn:Ew.
    + pose proof (window_step_wf _ OpSend _ _ (lo_window _ _ Hl) Ew) as Hw.
      split; [done|]. split; [cbn; unfold chunk_ok in Hd; lia|].
      destruct Hl. constructor; try done; cbn; rewrite Es in lo_sent_end0; rewrite ?lo_sent_end0; cbn; rewrite ?Z.eqb_refl; try done.
      rewrite app_nil_r, <- app_assoc, Hb. done.
    + unfold window_sent in Ew. rewrite Eav in Ew. cbn in Ew. destruct (checked_add _ _ _); congruence.
  - destruct Hn as (-> & _). destruct st; cbn in *. subst. done.
  - destruct Hn as (-> & Hp & Hr & Hc). split; [done|]. split; [cbn; lia|].
    destruct Hl. rewrite Es in lo_sent_end0.
    constructor; try done; cbn; rewrite ?lo_sent_end0; cbn; rewrite ?Z.eqb_refl, ?app_nil_r; done.
Qed.

Lemma elem_of_sorted_ids streams id : id ∈ sorted_ids streams <-> is_Some (streams !! id).
Proof.
  unfold sorted_ids. rewrite merge_sort_Permutation, list_elem_of_fmap. split.
  - intros ([i st] & -> & Hin%elem_of_map_to_list). by exists st.
  - intros [st Hst]. exists (id, st). split; [done|]. by apply elem_of_map_to_list.
Qed.

Lemma elem_of_round_robin cursor ids id : id ∈ round_robin cursor ids <-> id ∈ ids.
Proof.
  unfold round_robin. rewrite elem_of_app, !list_elem_of_filter. destruct (decide (cursor < id)); intuition lia.
Qed.

Lemma pick_stream_spec ids streams (V : Z -> View) :
  (forall id, id ∈ ids -> exists st, streams !! id = Some st /\ live_ok st (V id)) ->
  match pick_stream ids streams with
  | Err e => e = Invalid "Data counter exhausted"
  | Ok (streams', None) => streams' = streams
  | Ok (streams', Some (id, m)) => exists st st', streams !! id = Some st /\ streams' = <[id := st']> streams /\
      m.1.2 = id /\ (length m.2 <= PAYLOAD_SIZE)%nat /\ live_ok st' (say id (V id) m)
  end.
Proof.
  induction ids as [|id ids IH]; [done|]. intros H. cbn [pick_stream].
  destruct (H id ltac:(left)) as (st & Hst & Hlive). rewrite Hst.
  pose proof (stream_message_spec id st _ Hlive) as Hm. destruct (stream_message id st) as [[st' [m|]]|e]; [| |done].
  - exists st, st'. destruct Hm as (? & ? & ?). done.
  - subst st'. rewrite insert_id by done. apply IH. intros id' Hin. apply H. by right.
Qed.

Lemma session_ok_live s V id st : session_ok s V -> ss_streams s !! id = Some st -> live_ok st (V id).
Proof. intros Hok Hst. pose proof (so_flow _ _ Hok id) as H. rewrite Hst in H. apply H. Qed.

Lemma say_plain id v m : plain m = true \/ m.1.2 <> id -> say id v m = v.
Proof. intros Hm. unfold say. rewrite hear_other by done. by destruct v. Qed.

Lemma listen_plain id v m : plain m = true \/ m.1.2 <> id -> listen id v m = v.
Proof. intros Hm. unfold listen. rewrite hear_other by done. by destruct v. Qed.

Lemma pop_front_ok P l m rest : Forall P l -> pop_front l = (m, rest) -> Forall P rest /\ from_option P True m.
Proof. destruct l; intros HP [= <- <-]; [done|]. apply Forall_cons in HP as []. done. Qed.

(** The slot finds a message, short enough for a cell, and the state stays
    sound with the message sent. *)
Lemma select_message_spec s V now :
  session_ok s V ->
  match select_message s now with
  | Err e => e = Invalid "Data counter exhausted"
  | Ok (s', m) => (length m.2 <= PAYLOAD_SIZE)%nat /\ ss_client s' = ss_client s /\ session_ok s' (fun id => say id (V id) m)
  end.
Proof.
  intros Hok. unfold select_message.
  destruct (if negb _ then _ else _) as [selected controls] eqn:Esel.
  assert (Hc : Forall control_ok controls /\
               from_option control_ok True selected).
  { destruct (negb _); [eapply pop_front_ok; [apply Hok|done]|]. injection Esel as <- <-. split; [apply Hok|done]. }
  destruct Hc as [Hc Hs]. destruct selected as [m|].
  { destruct Hs as [Hp Hlen]. split_and!; [done|done|]. apply (session_ok_same s _ V); try done. intros id. apply say_plain. auto. }
  assert (Hpick := pick_stream_spec (round_robin (ss_cursor s) (sorted_ids (ss_streams s))) (ss_streams s) V).
  destruct (if _ <=? _ then _ else _) as [[streams [[id m]|]]|e] eqn:Ep; cbn.
  - destruct (_ <=? _); [rewrite Ep in Hpick|done].
    destruct Hpick as (st & st' & Hst & -> & Hid & Hlen & Hlive).
    { intros i Hi%elem_of_round_robin%elem_of_sorted_ids. destruct Hi as [st Hst]. eauto using session_ok_live. }
    split_and!; [done|done|]. apply (session_ok_update s _ V) with (id := id) (st := st) (st' := st'); try done. intros id' Hne. apply say_plain. right. congruence.
  - assert (streams = ss_streams s) as ->.
    { destruct (_ <=? _); [rewrite Ep in Hpick|congruence]. apply Hpick.
      intros i Hi%elem_of_round_robin%elem_of_sorted_ids. destruct Hi as [st Hst]. eauto using session_ok_live. }
    destruct (pop_front controls) as [next rest] eqn:En. destruct (pop_front_ok _ _ _ _ Hc En) as [Hr Hn].
    assert (Hm : plain (default (Dummy, 0, []) next) = true /\ (length (default (Dummy, 0%Z, []) next).2 <= PAYLOAD_SIZE)%nat).
    { destruct next; [done|]. split; [done|]. cbn. lia. }
    destruct Hm as [Hp Hlen]. split_and!; [done|done|]. apply (session_ok_same s _ V); try done. intros id. apply say_plain. auto.
  - destruct (_ <=? _); [rewrite Ep in Hpick|done]. apply Hpick.
    intros i Hi%elem_of_round_robin%elem_of_sorted_ids. destruct Hi as [st Hst]. eauto using session_ok_live.
Qed.

Lemma controls_snoc s V m : session_ok s V -> control_ok m -> Forall control_ok (ss_controls s ++ [m]).
Proof. intros Hok Hm. apply Forall_app. split; [apply Hok|by constructor]. Qed.

(** Taking streams out of service. *)
Lemma session_ok_stream_id s V id : session_ok s V -> is_Some (ss_streams s !! id) -> 1 <= id <= ss_last_id s.
Proof. intros Hok Hst%elem_of_dom. apply (so_ids _ _ Hok). set_solver. Qed.

Lemma retire_ok s V : session_ok s V -> session_ok (retire s) V.
Proof.
  intros Hok. unfold retire. set (R := filter _ _).
  assert (HR : forall id, id ∈ R -> is_Some (ss_streams s !! id)).
  { intros id. unfold R. rewrite list_elem_of_filter, elem_of_sorted_ids. naive_solver. }
  apply (session_ok_drop s _ V) with (R := list_to_set R); try done; cbn.
  - apply Hok.
  - intros id Hin%elem_of_list_to_set. eauto using session_ok_stream_id.
  - intros id. destruct (decide _) as [Hin|Hin]; rewrite elem_of_list_to_set in Hin;
      [apply lookup_foldr_delete|apply lookup_foldr_delete_not_elem_of]; done.
  - pose proof (so_disj _ _ Hok) as Hd. symmetry. apply difference_disjoint_L. intros id H1 H2%elem_of_list_to_set.
    apply HR, elem_of_dom in H2. set_solver.
Qed.

Lemma reset_stream_ok s V id : session_ok s V -> is_Some (ss_streams s !! id) -> session_ok (reset_stream s id) V.
Proof.
  intros Hok Hst. apply (session_ok_drop s _ V) with (R := {[id]}); try done; cbn.
  - apply (controls_snoc _ V); [done|]. split; [done|]. cbn. lia.
  - intros id' ->%elem_of_singleton. eauto using session_ok_stream_id.
  - intros id'. destruct (decide _) as [Hin|Hin]; rewrite elem_of_singleton in Hin.
    + subst. apply lookup_delete_eq.
    + apply lookup_delete_ne. done.
  - pose proof (so_disj _ _ Hok) as Hd. apply elem_of_dom in Hst. symmetry. apply difference_disjoint_L. intros x Hx ->%elem_of_singleton. apply (Hd id Hx). by apply elem_of_union_l.
Qed.

Lemma drop_abandoned_ok s V : session_ok s V -> session_ok (drop_abandoned s) V.
Proof.
  intros Hok. unfold drop_abandoned. set (R := filter _ _).
  assert (HR : forall id, id ∈ R -> is_Some (ss_streams s !! id)).
  { intros id. unfold R. rewrite list_elem_of_filter, elem_of_sorted_ids. naive_solver. }
  assert (Hnd : NoDup R).
  { apply NoDup_filter. unfold sorted_ids. rewrite merge_sort_Permutation. apply NoDup_fst_map_to_list. }
  clearbody R. revert s Hok HR. induction R as [|id R IH]; intros s Hok HR; [done|]. cbn.
  apply NoDup_cons in Hnd as [Hni Hnd]. apply IH; [done| |].
  - apply reset_stream_ok; [done|]. apply HR. left.
  - intros id' Hin. cbn. rewrite lookup_delete_ne by (intros ->; done). apply HR. by right.
Qed.

Lemma after_write_ok s V later interval s' :
  session_ok s V -> after_write s later interval = Continue s' -> session_ok s' V.
Proof.
  intros Hok. unfold after_write. destruct (next_deadline _ _ _); [|done]. destruct (checked_add _ _ _); [|done].
  intros [= <-]. apply drop_abandoned_ok, retire_ok. apply (session_ok_same s _ V); try done. apply Hok.
Qed.

(** ** Requests, events and messages *)
Definition fresh_view : View := mkView ([], false) ([], false) [] [] false [].

Lemma attach_ok ready reply reply_closed application : live_ok (with_ready attach ready reply reply_closed application) fresh_view.
Proof.
  constructor; try done; cbn.
  - constructor; cbn; [done|done|]. unfold SESSION_QUEUE. lia.
  - intros _. exists []. done.
Qed.

Lemma payload_room : (1000 <= PAYLOAD_SIZE)%nat.
Proof. apply Nat.leb_le. vm_compute. done. Qed.

Lemma encode_relay_target_length host port target : encode_relay_target host port = Ok target -> (length target <= PAYLOAD_SIZE)%nat.
Proof.
  unfold encode_relay_target. destruct (Nat.ltb_spec 255 (length host)); [done|]. intros [= <-].
  pose proof payload_room. cbn [length]. rewrite length_app. cbn [length]. lia.
Qed.

Lemma on_open_ok s V now open s' :
  session_ok s V -> ss_client s = true -> (on_open s now open).1 = Continue s' -> session_ok s' V /\ ss_client s' = ss_client s.
Proof.
  intros Hok Hc. unfold on_open. destruct open as [[host port]|]; [|done].
  destruct (orb (_ <=? _)%nat _) eqn:Eb; [cbn; intros [= <-]; done|]. destruct ((port =? 0) || (length host =? 0)%nat); [cbn; intros [= <-]; done|].
  destruct (encode_relay_target host port) as [target|] eqn:Et; [|cbn; intros [= <-]; done]. cbn [fst]. intros [= <-]. split; [|done].
  apply orb_false_iff in Eb as [Eb1%Nat.leb_gt Eb2%Z.leb_gt]. pose proof (so_last _ _ Hok) as Hl.
  assert (Hnew : ss_last_id s + 1 ∉ dom (ss_streams s) ∪ ss_connecting s ∪ ss_closed s).
  { intros Hin%(so_ids _ _ Hok). lia. }
  apply (session_ok_add s _ V) with (id := ss_last_id s + 1) (st' := with_ready attach false true false true); try done; cbn.
  - apply (controls_snoc _ V); [done|]. split; [done|]. eauto using encode_relay_target_length.
  - apply not_elem_of_dom. set_solver.
  - set_solver.
  - lia.
  - lia.
  - rewrite (so_client _ _ Hok) by done. rewrite size_empty. lia.
  - apply attach_ok.
  - rewrite (so_client _ _ Hok) by done. set_solver.
Qed.

(** A view with one more event ahead. *)
Definition await (id : Z) (v : View) (ev : Event) : View :=
  mkView (vw_got v) (vw_sent v) (vw_read v) (vw_wrote v) (vw_shut v) (written_of id [ev] ++ vw_events v).

Lemma await_other id v ev : written_of id [ev] = [] -> await id v ev = v.
Proof. intros E. unfold await. rewrite E. by destruct v. Qed.

Lemma await_written id v i count : i <> id -> await id v (Written i count) = v.
Proof. intros Hne. apply await_other. unfold written_of. cbn. by rewrite (proj2 (Z.eqb_neq i id)). Qed.

Lemma written_ok st v id count :
  live_ok st (await id v (Written id count)) ->
  count = st_written st + 1 /\ count <= st_received st /\ live_ok (with_ack st count (Some count)) v.
Proof.
  intros []. unfold written_of in lo_events0. cbn in lo_events0. rewrite Z.eqb_refl in lo_events0. cbn in lo_events0.
  assert (Hpos : 0 < st_count st - st_written st).
  { destruct (Z.leb_spec (st_count st - st_written st) 0) as [Hle|]; [|lia]. rewrite seqZ_nil in lo_events0 by done. discriminate. }
  rewrite seqZ_cons in lo_events0 by done. injection lo_events0 as -> Hev. split_and!; [done|lia|].
  constructor; try done; cbn; try lia. rewrite Hev. f_equal; lia.
Qed.

Lemma on_event_ok s V ev :
  session_ok s (fun id => await id (V id) ev) ->
  (ss_client s = true -> match ev with Connected _ _ => False | _ => True end) ->
  exists s', on_event s ev = Continue s' /\ ss_client s' = ss_client s /\ session_ok s' V.
Proof.
  intros Hok Hcl. destruct ev as [id count|id ok|id]; cbn [on_event].
  - pose proof (so_flow _ _ Hok id) as Hf. destruct (ss_streams s !! id) as [st|] eqn:Est.
    + destruct Hf as [_ Hl]. apply written_ok in Hl as (-> & Hr & Hl). pose proof (lo_counts _ _ Hl) as Hn. cbn in Hn.
      unfold wrapping_add. rewrite Z.mod_small by (revert Hn; unfold_ints; lia). rewrite Z.eqb_refl, (proj2 (Z.ltb_ge _ _)) by done.
      cbn. eexists. split_and!; [done|done|].
      apply (session_ok_update s _ (fun i => await i (V i) (Written id (st_written st + 1)))) with (id := id) (st := st)
        (st' := with_ack st (st_written st + 1) (Some (st_written st + 1))); try done; [apply Hok|].
      intros id' Hne. by rewrite await_written.
    + exists s. split_and!; [done|done|]. destruct Hok. constructor; try done. intros i. specialize (so_flow0 i).
      destruct (decide (i = id)) as [->|Hne]; [|by rewrite await_written in so_flow0]. rewrite Est in *.
      destruct Hf as [? ? ? ? Hfr]. constructor; try done. intros E. specialize (Hfr E). unfold await, written_of in Hfr.
      cbn in Hfr. rewrite Z.eqb_refl in Hfr. discriminate.
  - assert (Hok' : session_ok s V) by (apply (session_ok_same s _ (fun i => await i (V i) (Connected id ok))); try done; [apply Hok|];
      intros i; by rewrite await_other).
    clear Hok. destruct (ss_client s) eqn:Ec; [by destruct Hcl|]. destruct (decide (id ∈ ss_connecting s)) as [Hin|Hin].
    2:{ rewrite bool_decide_false by done. cbn. rewrite <- Ec. eauto. }
    rewrite bool_decide_true by done. cbn [negb]. pose proof (so_disj _ _ Hok') as Hd. destruct ok; eexists; (split_and!; [done|done|]).
    + pose proof (so_size _ _ Hok') as Hs.
      assert (Hsz : (size (ss_connecting s ∖ {[id]}) + 1 = size (ss_connecting s))%nat).
      { rewrite size_difference by set_solver. rewrite size_singleton. assert (size (ss_connecting s) <> 0%nat); [|lia].
        intros E%size_empty_inv. set_solver. }
      apply (session_ok_add s _ V) with (id := id) (st' := attach); try done; cbn.
      * apply (controls_snoc _ V); [done|]. split; [done|]. cbn. lia.
      * apply not_elem_of_dom. set_solver.
      * set_solver.
      * apply (so_ids _ _ Hok'). set_solver.
      * pose proof (so_last _ _ Hok'). lia.
      * lia.
      * apply (attach_ok true false false false).
    + apply (session_ok_connecting s _ V); try done; cbn.
      * apply (controls_snoc _ V); [done|]. split; [done|]. cbn. pose proof payload_room. lia.
      * pose proof (so_last _ _ Hok'). lia.
      * set_solver.
      * pose proof (so_size _ _ Hok'). pose proof (subseteq_size (ss_connecting s ∖ {[id]}) (ss_connecting s) ltac:(set_solver)). lia.
      * congruence.
  - assert (Hok' : session_ok s V) by (apply (session_ok_same s _ (fun i => await i (V i) (Failed id))); try done; [apply Hok|];
      intros i; by rewrite await_other).
    case_bool_decide; eexists; (split_and!; [done|done|]); [by apply reset_stream_ok|done].
Qed.

Lemma gone_listen id v m : gone_ok true v -> gone_ok true (listen id v m).
Proof.
  intros []. constructor; try done; cbn.
  - by apply prefix_app_r.
  - intros Hs. destruct (go_shut0 Hs) as [He Hw]. rewrite He. cbn. rewrite app_nil_r. done.
Qed.

(** A message for a stream out of service. *)
Lemma listen_closed s V m : session_ok s V -> m.1.2 ∈ ss_closed s -> session_ok s (fun id => listen id (V id) m).
Proof.
  intros Hok Hin. pose proof Hok as []. constructor; try done. intros id. specialize (so_flow0 id).
  destruct (decide (m.1.2 = id)) as [<-|Hne]; [|rewrite listen_plain by auto; done].
  rewrite bool_decide_true in * by done. destruct (ss_streams s !! m.1.2); cbn in *; [naive_solver|]. by apply gone_listen.
Qed.

(** A message that is no data leaves the streams' logs alone. *)
Lemma listen_control s V m :
  session_ok s V -> plain m = true -> session_ok s (fun id => listen id (V id) m).
Proof. intros Hok Hm. apply (session_ok_same s _ V); try done; [apply Hok|]. intros id. apply listen_plain. auto. Qed.

Definition credit (st : Stream) : bool := wrapping_sub u32_MAX (st_received st) (st_written st) <? WINDOW_CELLS.

Lemma credit_spec st v : live_ok st v -> credit st = (st_received st - st_written st <? WINDOW_CELLS).
Proof. intros []. unfold credit, wrapping_sub. rewrite Z.mod_small; [done|]. revert lo_counts0. unfold_ints. lia. Qed.

Lemma live_data st v id d st' :
  live_ok st v -> st_received_end st = false -> credit st = true -> st_received st + 1 <= u32_MAX ->
  try_send st (Some d) (st_received st + 1) (st_received_end st) = Some st' -> live_ok st' (listen id v (Data, id, d)).
Proof.
  intros Hl He Hc Hmax. rewrite (credit_spec _ _ Hl) in Hc. apply Z.ltb_lt in Hc. unfold try_send.
  destruct (st_writer st) eqn:Ew; [|done]. destruct (_ <? _)%nat; [cbn [andb]|done]. intros [= <-].
  destruct Hl. rewrite He in *. constructor; try done; cbn; rewrite ?lo_got_end0; cbn; rewrite ?Z.eqb_refl, ?app_nil_r; try done; try lia.
  - intros _. destruct (lo_queue0 Ew) as (q & Hq & Hlen & Hb). exists (q ++ [d]). rewrite Hq, !app_nil_r, fmap_app. split; [done|].
    rewrite length_app. cbn. split; [lia|]. rewrite join_app. cbn. rewrite app_nil_r, app_assoc, Hb. done.
  - by apply prefix_app_r.
  - intros Hs. destruct (lo_shut0 Hs) as (_ & ? & _). done.
Qed.

Lemma live_end st v id st' :
  live_ok st v -> st_received_end st = false ->
  try_send st None (st_received st) true = Some st' -> live_ok st' (listen id v (End_, id, [])).
Proof.
  intros Hl He. unfold try_send.
  destruct (st_writer st) eqn:Ew; [|done]. destruct (_ <? _)%nat; [cbn [andb]|done]. intros [= <-].
  destruct Hl. rewrite He in *. constructor; try done; cbn; rewrite ?lo_got_end0; cbn; rewrite ?Z.eqb_refl, ?app_nil_r; try done.
  - intros _. destruct (lo_queue0 Ew) as (q & Hq & Hlen & Hb). exists q. rewrite Hq, app_nil_r. done.
  - intros Hs. destruct (lo_shut0 Hs) as (_ & ? & _). done.
Qed.

(** A writer that still runs always has room for what credit allows. *)
Lemma live_room st v item received received_end :
  live_ok st v -> st_received_end st = false -> st_writer st = true ->
  exists st', try_send st item received received_end = Some st'.
Proof.
  intros [] He Hw. destruct (lo_queue0 Hw) as (q & Hq & Hlen & _). unfold try_send. rewrite Hw, Hq, He, app_nil_r, length_fmap.
  assert ((length q <? SESSION_QUEUE + 1)%nat = true) as ->; [|by eexists].
  apply Nat.ltb_lt. unfold SESSION_QUEUE, WINDOW_CELLS in *. lia.
Qed.

Ltac continues := repeat case_match; try done; intros [= <-].

Lemma on_session_open_ok s V now id data s' :
  session_ok s V -> ss_client s = false -> ss_last_id s < id <= MAX_IDS ->
  on_session_open s now id data = Continue s' -> session_ok s' V /\ ss_client s' = ss_client s.
Proof.
  intros Hok Hc Hid. pose proof (so_last _ _ Hok). pose proof (so_size _ _ Hok). unfold on_session_open.
  destruct (Nat.leb_spec MAX_STREAMS (size (ss_streams (with_activity s id (ss_activity s))) + size (ss_connecting (with_activity s id (ss_activity s)))))
    as [Hfull|Hroom]; cbn in *.
  - intros [= <-]. split; [|done]. apply (session_ok_connecting s _ V); try done; cbn; [|lia|by left|congruence].
    apply (controls_snoc _ V); [done|]. split; [done|]. cbn. pose proof payload_room. lia.
  - continues. split; [|done]. apply (session_ok_connecting s _ V); try done; cbn; [apply Hok|lia| | |congruence].
    + intros i. rewrite elem_of_union, elem_of_singleton. intros [->|]; [right; lia|by left].
    + pose proof (size_union_alt {[id]} (ss_connecting s)) as E. rewrite E, size_singleton.
      pose proof (subseteq_size (ss_connecting s ∖ {[id]}) (ss_connecting s) ltac:(set_solver)). lia.
Qed.

Lemma on_session_opened_ok s V id s' :
  session_ok s V -> on_session_opened s id = Continue s' -> session_ok s' V /\ ss_client s' = ss_client s.
Proof.
  intros Hok. unfold on_session_opened. destruct (ss_streams s !! id) as [st|] eqn:Est; [|done].
  continues; (split; [|done]); [by apply reset_stream_ok; [|eexists]|].
  apply (session_ok_update s _ V) with (id := id) (st := st) (st' := with_ready st true false false false); try done; [apply Hok|].
  destruct (session_ok_live _ _ _ _ Hok Est). constructor; done.
Qed.

(** The stream is dropped without a word to the peer. *)
Lemma close_stream_ok s V id :
  session_ok s V -> 1 <= id <= ss_last_id s ->
  session_ok (with_streams s (delete id (ss_streams s)) (ss_connecting s ∖ {[id]}) ({[id]} ∪ ss_closed s) (ss_controls s)) V.
Proof.
  intros Hok Hid. apply (session_ok_drop s _ V) with (R := {[id]}); try done; cbn; [apply Hok| |].
  - intros i ->%elem_of_singleton. done.
  - intros i. destruct (decide _) as [Hin|Hin]; rewrite elem_of_singleton in Hin.
    + subst. apply lookup_delete_eq.
    + apply lookup_delete_ne. done.
Qed.

Lemma on_session_refused_ok s V id s' :
  session_ok s V -> ss_client s = true -> on_session_refused s id = Continue s' -> session_ok s' V /\ ss_client s' = ss_client s.
Proof.
  intros Hok Hc. unfold on_session_refused. destruct (ss_streams s !! id) as [st|] eqn:Est; [|done].
  continues. split; [|done]. assert (Hid : 1 <= id <= ss_last_id s) by (eapply session_ok_stream_id; eauto).
  pose proof (close_stream_ok s V id Hok Hid) as H'. rewrite (so_client _ _ Hok Hc) in *.
  replace (∅ ∖ {[id]} : gset Z) with (∅ : gset Z) in H' by set_solver. exact H'.
Qed.

Lemma on_data_ok s V now id data s' :
  session_ok s V -> on_data s now id data = Continue s' ->
  session_ok s' (fun i => listen i (V i) (Data, id, data)) /\ ss_client s' = ss_client s.
Proof.
  intros Hok. unfold on_data. destruct (ss_streams s !! id) as [st|] eqn:Est; [|done].
  destruct (st_ready st); [|done]. destruct (st_received_end st) eqn:Ee; [done|]. destruct (length data =? 0)%nat; [done|].
  cbn [negb orb]. rewrite Z.leb_antisym. fold (credit st). destruct (credit st) eqn:Ec; [|done]. cbn [negb].
  unfold checked_add. destruct (Z.leb_spec (st_received st + 1) u32_MAX) as [Hmax|]; [|done].
  rewrite <- Ee. destruct (try_send st _ _ _) as [st'|] eqn:Et; [|done]. intros [= <-]. split; [|done].
  apply (session_ok_update s _ V) with (id := id) (st := st) (st' := st'); try done; [apply Hok| |].
  - eapply live_data; eauto using session_ok_live.
  - intros i Hne. apply listen_plain. right. cbn. congruence.
Qed.

Lemma on_end_ok s V now id s' :
  session_ok s V -> on_end s now id = Continue s' ->
  session_ok s' (fun i => listen i (V i) (End_, id, [])) /\ ss_client s' = ss_client s.
Proof.
  intros Hok. unfold on_end. destruct (ss_streams s !! id) as [st|] eqn:Est; [|done].
  destruct (st_ready st); [|done]. destruct (st_received_end st) eqn:Ee; [done|]. cbn [negb orb].
  destruct (try_send st _ _ _) as [st'|] eqn:Et; [|done]. intros [= <-]. split; [|done].
  apply (session_ok_update s _ V) with (id := id) (st := st) (st' := st'); try done; [apply Hok| |].
  - eapply live_end; eauto using session_ok_live.
  - intros i Hne. apply listen_plain. right. cbn. congruence.
Qed.

Lemma on_data_ack_ok s V id data s' :
  session_ok s V -> on_data_ack s id data = Continue s' -> session_ok s' V /\ ss_client s' = ss_client s.
Proof.
  intros Hok. unfold on_data_ack. destruct (ss_streams s !! id) as [st|] eqn:Est; [|done].
  destruct (st_ready st); [|done]. destruct (acknowledge (st_window st) data) as [w [[]|]] eqn:Ea; [|done].
  intros [= <-]. split; [|done]. pose proof (session_ok_live _ _ _ _ Hok Est) as Hl.
  pose proof (window_step_wf _ (OpAck data) _ _ (lo_window _ _ Hl) Ea) as Hw.
  apply (session_ok_update s _ V) with (id := id) (st := st) (st' := with_outgoing st (st_outgoing st) w (st_sent_end st)); try done; [apply Hok|].
  destruct Hl. constructor; done.
Qed.

Lemma on_message_ok s V now m s' :
  session_ok s V -> on_message s now m = Continue s' -> session_ok s' (fun id => listen id (V id) m) /\ ss_client s' = ss_client s.
Proof.
  intros Hok. destruct m as [[c id] data]. unfold on_message.
  destruct (bool_decide (id ∈ ss_closed s) && late_command c) eqn:El.
  { intros [= <-]. apply andb_true_iff in El as [El%bool_decide_eq_true _]. split; [|done]. by apply listen_closed. }
  clear El. assert (Hplain : forall s1, plain (c, id, data) = true -> session_ok s1 V /\ ss_client s1 = ss_client s ->
    session_ok s1 (fun i => listen i (V i) (c, id, data)) /\ ss_client s1 = ss_client s).
  { intros s1 Hp [H1 H2]. split; [by apply listen_control|done]. }
  destruct c; try done.
  - apply on_data_ok, Hok.
  - intros Hm. apply Hplain; [done|]. by eapply on_data_ack_ok.
  - destruct (_ && _); [|done]. intros [= <-]. by apply Hplain.
  - destruct (no_data data) eqn:Ed; [|done]. destruct data; [|done]. apply on_end_ok, Hok.
  - destruct (negb (ss_client s) && _ && _ && _) eqn:Eg; [|done]. reflect_bools. intros Hm. apply Hplain; [done|].
    eapply on_session_open_ok; try done.
  - destruct (_ && _); [|done]. intros Hm. apply Hplain; [done|]. by eapply on_session_opened_ok.
  - destruct (ss_client s && _) eqn:Eg; [|done]. reflect_bools. intros Hm. apply Hplain; [done|]. by eapply on_session_refused_ok.
  - destruct (_ && _); [|done]. intros [= <-]. apply Hplain; [done|]. split; [|done]. apply (session_ok_same s _ V); try done. apply Hok.
  - destruct (_ && _); done.
  - destruct (_ && _) eqn:Eg; [|done]. reflect_bools. intros [= <-]. apply Hplain; [done|]. split; [|done]. apply close_stream_ok; [done|lia].
Qed.

(** ** Workers *)
Definition moved (id : Z) (v : View) (events : list Event) (read wrote : bytes) (shut : bool) : View :=
  mkView (vw_got v) (vw_sent v) (vw_read v ++ read) (vw_wrote v ++ wrote) (shut || vw_shut v) (vw_events v ++ written_of id events).

Lemma written_of_failed id : written_of id [Failed id] = [].
Proof. done. Qed.

(** A writer that stops short has written a prefix. *)
Lemma writer_stops st v data rest q n :
  live_ok st v -> st_writer st = true -> (vw_wrote v ++ mjoin (data :: q) = (vw_got v).1) ->
  live_ok (with_writer st rest false (st_count st)) (mkView (vw_got v) (vw_sent v) (vw_read v) (vw_wrote v ++ take n data) (vw_shut v) (vw_events v)).
Proof.
  intros Hl Hw Hb. destruct Hl. constructor; try done; cbn.
  - rewrite <- Hb. apply prefix_app. cbn. apply prefix_app_r. apply prefix_take.
  - intros Hs. destruct (lo_shut0 Hs). congruence.
Qed.

Lemma writer_live st v id failed st' data shut events :
  live_ok st v -> writer_step id st failed = Some (st', data, shut, events) -> live_ok st' (moved id v events [] data shut).
Proof.
  intros Hl. unfold writer_step. destruct (st_writer st) eqn:Ew; [|done]. pose proof Hl as [].
  destruct (lo_queue0 Ew) as (q & Hq & Hlen & Hb).
  unfold moved. rewrite app_nil_r. destruct q as [|d q].
  - rewrite Hq. cbn [fmap list_fmap app]. destruct (st_received_end st) eqn:Ee; [|done].
    destruct failed; intros [= <- <- <- <-]; cbn [orb]; rewrite ?written_of_failed, !app_nil_r.
    + constructor; try done; cbn; [congruence|]. intros Hs. destruct (lo_shut0 Hs). congruence.
    + constructor; try done; cbn; [congruence|]. intros _. cbn in Hb. rewrite app_nil_r in Hb. done.
  - rewrite Hq. cbn [fmap list_fmap app]. unfold checked_add.
    destruct failed as [n|]; [|destruct (Z.leb_spec (st_count st + 1) u32_MAX) as [Hmax|Hmax]]; intros [= <- <- <- <-];
      cbn [orb]; rewrite ?written_of_failed, ?app_nil_r.
    + by eapply writer_stops.
    + constructor; try done; cbn in *; try lia.
      * rewrite Z.eqb_refl, lo_events0. replace (st_count st + 1 - st_written st) with (st_count st - st_written st + 1) by lia.
        rewrite seqZ_app by lia. f_equal. replace (st_written st + 1 + (st_count st - st_written st)) with (st_count st + 1) by lia. done.
      * intros _. exists q. split; [done|]. split; [lia|]. rewrite <- Hb, app_assoc. done.
      * eexists. rewrite <- app_assoc. symmetry. exact Hb.
      * intros Hs. destruct (lo_shut0 Hs). congruence.
    + replace (vw_wrote v ++ d) with (vw_wrote v ++ take (length d) d) by (by rewrite take_ge). by eapply writer_stops.
Qed.

Lemma reader_live st v id r st' data events :
  live_ok st v -> reader_step id st r = Some (st', data, events) -> live_ok st' (moved id v events data [] false).
Proof.
  intros Hl. unfold reader_step, moved. destruct (og_closed (st_outgoing st)) eqn:Ec; [done|]. rewrite app_nil_r. cbn [orb].
  assert (He : st_sent_end st = false) by (destruct (st_sent_end st) eqn:Es; [destruct (lo_done _ _ Hl Es); congruence|done]).
  destruct r as [d| |].
  - destruct (_ && _) eqn:Eg; [|done]. reflect_bools. intros [= <- <- <-]. cbn. rewrite app_nil_r. destruct Hl. destruct lo_outgoing0.
    constructor; try done; cbn; [|rewrite <- lo_sent0|congruence].
    + constructor; cbn; [apply Forall_app; split; [done|constructor; [split; lia|done]]|done|rewrite length_app; cbn; lia].
    + unfold backlog. cbn. rewrite join_app. cbn. rewrite app_nil_r, !app_assoc. done.
  - intros [= <- <- <-]. cbn. rewrite !app_nil_r. destruct Hl, lo_outgoing0. constructor; try done; cbn; try congruence; by constructor.
  - intros [= <- <- <-]. rewrite written_of_failed, !app_nil_r. destruct Hl, lo_outgoing0.
    constructor; try done; cbn; try congruence; by constructor.
Qed.

(** ** Every step keeps the invariant *)
Lemma view_moved e id stream events read wrote shut i :
  (forall ev, ev ∈ events -> match ev with Written j _ => j = id | Connected _ _ => False | Failed _ => True end) ->
  view (worker_moved e id stream events read wrote shut) i =
  if decide (i = id) then moved id (view e id) events read wrote shut else view e i.
Proof.
  intros Hev. unfold view, moved, worker_moved. cbn [ep_got ep_sent ep_read ep_wrote ep_shut ep_events vw_got vw_sent vw_read vw_wrote vw_shut vw_events]. rewrite !bytes_of_app, !bytes_of_one, written_of_app.
  destruct (decide (i = id)) as [->|Hne].
  - rewrite !decide_True by done. f_equal. destruct shut; cbn; [|done]. apply bool_decide_true. set_solver.
  - rewrite !decide_False, !app_nil_r by congruence. f_equal; [destruct shut; [|done]; apply bool_decide_ext; set_solver|].
    assert (written_of i events = []) as ->; [|apply app_nil_r]. unfold written_of. induction events as [|ev events IH]; [done|].
    cbn. pose proof (Hev ev ltac:(left)) as H. destruct ev as [j c| |]; [|done|].
    + subst j. rewrite (proj2 (Z.eqb_neq id i)) by congruence. apply IH. intros ev' H'. apply Hev. by right.
    + apply IH. intros ev' H'. apply Hev. by right.
Qed.

Lemma worker_moved_ok e id st st' events read wrote shut :
  endpoint_ok e -> ep_stream e id = Some st -> live_ok st' (moved id (view e id) events read wrote shut) ->
  (forall ev, ev ∈ events -> match ev with Written j _ => j = id | Connected _ _ => False | Failed _ => True end) ->
  endpoint_ok (worker_moved e id st' events read wrote shut).
Proof.
  intros [Hok Hev] Hst Hl Hevs. split.
  - apply (session_ok_update (ep_session e) _ (view e)) with (id := id) (st := st) (st' := st'); try done; [apply Hok| |].
    + rewrite view_moved, decide_True by done. done.
    + intros i Hne. rewrite view_moved, decide_False by done. done.
  - cbn. intros Hc. apply Forall_app. split; [auto|]. apply Forall_forall. intros ev Hin. specialize (Hevs ev Hin). by destruct ev.
Qed.

Lemma writer_step_events id st failed st' data shut events ev :
  writer_step id st failed = Some (st', data, shut, events) -> ev ∈ events ->
  match ev with Written j _ => j = id | Connected _ _ => False | Failed _ => True end.
Proof.
  unfold writer_step. repeat case_match; intros [= <- <- <- <-]; rewrite ?list_elem_of_singleton, ?elem_of_nil; naive_solver.
Qed.

Lemma reader_step_events id st r st' data events ev :
  reader_step id st r = Some (st', data, events) -> ev ∈ events ->
  match ev with Written j _ => j = id | Connected _ _ => False | Failed _ => True end.
Proof.
  unfold reader_step. repeat case_match; intros [= <- <- <-]; rewrite ?list_elem_of_singleton, ?elem_of_nil; naive_solver.
Qed.

Lemma ask_finish_ok s V profile now :
  session_ok s V -> session_ok (ask_finish s profile now).1 V /\ ss_client (ask_finish s profile now).1 = ss_client s.
Proof.
  intros Hok. unfold ask_finish. destruct (idle s && _); [|done]. cbn [fst]. destruct (ss_client s && _); [|done]. split; [|done].
  apply (session_ok_same s _ V); try done. apply (controls_snoc _ V); [done|]. split; [done|]. cbn. lia.
Qed.

Lemma after_write_client s later interval s' : after_write s later interval = Continue s' -> ss_client s' = ss_client s.
Proof.
  unfold after_write. continues. unfold drop_abandoned. set (R := filter _ _). set (s1 := retire _).
  change (ss_client s) with (ss_client s1). clearbody R s1. revert s1. induction R as [|id R IH]; intros s1; [done|]. cbn. by rewrite IH.
Qed.

Lemma view_event e ev events id :
  ep_events e = ev :: events ->
  view e id = await id (view (mkEndpoint (ep_session e) events (ep_got e) (ep_sent e) (ep_read e) (ep_wrote e) (ep_shut e)) id) ev.
Proof. intros E. unfold view, await. cbn. rewrite E. f_equal. change (ev :: events) with ([ev] ++ events). apply written_of_app. Qed.

Lemma endpoint_step_ok e e' : endpoint_ok e -> endpoint_step e e' -> endpoint_ok e'.
Proof.
  intros Hep Hstep. pose proof Hep as [Hok Hev]. destruct Hstep as
    [profile now later interval s m s' _ Hsel Haw|now open s' Hc _ Ho|ev events s' Ee He|b t now m s' Hm
    |id st failed st' d sh evs Hst Hw|id st r st' d evs Hst Hr|id ok Hin|id st Hst].
  - destruct (ask_finish_ok _ _ profile now Hok) as [H1 H1c]. pose proof (select_message_spec _ _ now H1) as H2.
    rewrite Hsel in H2. destruct H2 as (_ & H2c & H2). pose proof (after_write_ok _ _ _ _ _ H2 Haw) as H3.
    pose proof (after_write_client _ _ _ _ Haw) as H3c. split; [|cbn; rewrite H3c, H2c, H1c; done].
    apply (session_ok_same s' _ _ _ H3); try done; [apply H3|]. intros id. unfold view, say. cbn [ep_sent]. rewrite heard_snoc. done.
  - destruct (on_open_ok _ _ _ _ _ Hok Hc Ho) as [H1 H1c]. split; [exact H1|]. cbn. rewrite H1c. done.
  - destruct (on_event_ok (ep_session e) _ ev (session_ok_same (ep_session e) (ep_session e) (view e) _ Hok eq_refl (so_controls _ _ Hok)
      eq_refl eq_refl eq_refl eq_refl (fun id => eq_sym (view_event e ev events id Ee)))) as (s1 & H1 & H1c & H1ok).
    { intros Hc. specialize (Hev Hc). rewrite Ee in Hev. by apply Forall_cons in Hev as []. }
    rewrite He in H1. injection H1 as <-. split; [exact H1ok|]. cbn. rewrite H1c. intros Hc. specialize (Hev Hc).
    rewrite Ee in Hev. by apply Forall_cons in Hev as [].
  - assert (Hb : session_ok (with_budget (ep_session e) b t) (view e)) by (apply (session_ok_same (ep_session e) _ (view e)); try done; apply Hok).
    destruct (on_message_ok _ _ _ _ _ Hb Hm) as [H1 H1c]. split; [|cbn; rewrite H1c; done].
    apply (session_ok_same s' _ _ _ H1); try done; [apply H1|]. intros id. unfold view, listen. cbn [ep_got]. rewrite heard_snoc. done.
  - eapply worker_moved_ok; [done|done| |intros ev; by eapply writer_step_events]. eapply writer_live; [|done]. by eapply session_ok_live.
  - eapply worker_moved_ok; [done|done| |intros ev; by eapply reader_step_events]. eapply reader_live; [|done]. by eapply session_ok_live.
  - split; [|cbn; intros Hc; rewrite (so_client _ _ Hok Hc) in Hin; set_solver].
    apply (session_ok_same (ep_session e) _ (view e)); try done; [apply Hok|]. intros i. unfold view. cbn [ep_got ep_sent ep_read ep_wrote ep_shut ep_events]. f_equal.
    rewrite written_of_app. apply app_nil_r.
  - eapply worker_moved_ok; [done|done| |set_solver]. unfold moved. cbn. rewrite !app_nil_r.
    pose proof (session_ok_live _ _ _ _ Hok Hst) as []. constructor; done.
Qed.

Lemma endpoint_start_ok client policy now interval : endpoint_ok (endpoint_start client policy now interval).
Proof.
  split; [|constructor]. constructor; try done. cbn. rewrite map_size_empty, size_empty. unfold MAX_STREAMS. lia.
Qed.

Lemma endpoint_reachable_ok client policy e : endpoint_reachable client policy e -> endpoint_ok e.
Proof.
  intros (now & interval & Hr). pose proof (endpoint_start_ok client policy now interval) as H0. revert H0.
  induction Hr as [|x y z Hxy _ IH]; eauto using endpoint_step_ok.
Qed.

(** ** Running an end *)
Lemma continue_Some o s : continue o = Some s -> o = Continue s.
Proof. destruct o; try done. by intros [= <-]. Qed.

Lemma act_step e a e' : act e a = Some e' -> endpoint_step e e'.
Proof.
  destruct a; cbn [act]; intros H.
  - destruct (ask_finish _ profile now) as [s d] eqn:Ea. destruct d; [done|].
    destruct (select_message s now) as [[s1 m]|] eqn:Es; [|done].
    apply bind_Some in H as (s' & Hs%continue_Some & [= <-]). apply (step_slot _ profile now later interval s1 m s'); [by rewrite Ea| |done].
    by rewrite Ea.
  - destruct (_ && _) eqn:Eg; [|done]. reflect_bools. apply bind_Some in H as (s' & Hs%continue_Some & [= <-]). by eapply step_open.
  - destruct (ep_events e) eqn:Ee; [done|]. apply bind_Some in H as (s' & Hs%continue_Some & [= <-]). by eapply step_event.
  - apply bind_Some in H as (s' & Hs%continue_Some & [= <-]). by eapply step_message.
  - apply bind_Some in H as (st & Hst & H). apply bind_Some in H as ([[[st' d] sh] evs] & Hw & [= <-]). by eapply step_writer.
  - apply bind_Some in H as (st & Hst & H). apply bind_Some in H as ([[st' d] evs] & Hw & [= <-]). by eapply step_reader.
  - case_bool_decide; [|done]. injection H as <-. by apply step_connect.
Qed.

Lemma acts_steps l e e' : acts e l = Some e' -> rtc endpoint_step e e'.
Proof.
  revert e. induction l as [|a l IH]; cbn; intros e H; [injection H as <-; done|].
  apply bind_Some in H as (e1 & H1%act_step & H2%IH). by eapply rtc_l.
Qed.

Lemma acts_reachable client policy now interval l e :
  acts (endpoint_start client policy now interval) l = Some e -> endpoint_reachable client policy e.
Proof. intros H%acts_steps. by exists now, interval. Qed.

(** ** The loop's arms are steps *)
Section Arms.
Context `{OnionPrimitives}.

Lemma clock_arm_step e crypto profile rng now later interval written crypto' wire s' :
  on_clock (ep_session e) crypto profile rng now later interval written = (crypto', wire, Continue s') ->
  exists m w, wire = Some w /\ Crypto_outgoing crypto rng m = (crypto', Ok w) /\
    endpoint_step e (mkEndpoint s' (ep_events e) (ep_got e) (ep_sent e ++ [m]) (ep_read e) (ep_wrote e) (ep_shut e)).
Proof.
  unfold on_clock. destruct (ask_finish _ profile now) as [s d] eqn:Ea. destruct d.
  { destruct (Crypto_outgoing _ _ _) as [? []]; [destruct written|]; done. }
  destruct (select_message s now) as [[s1 m]|] eqn:Es; [|done]. destruct (Crypto_outgoing crypto rng m) as [c1 [w|]] eqn:Eo; [|done].
  destruct written; [|done]. intros [= <- <- Haw]. exists m, w. split_and!; [done|done|].
  apply (step_slot _ profile now later interval s1 m s'); [by rewrite Ea|by rewrite Ea|done].
Qed.

Lemma frame_arm_step e crypto now frame crypto' s' :
  on_frame (ep_session e) crypto now frame = (crypto', Continue s') ->
  exists wire cell, frame = Some wire /\ Crypto_incoming crypto wire = (crypto', Ok cell) /\
    endpoint_step e (mkEndpoint s' (ep_events e) (ep_got e ++ [message_of cell]) (ep_sent e) (ep_read e) (ep_wrote e) (ep_shut e)).
Proof.
  unfold on_frame. destruct frame as [wire|]; [|done]. destruct (SFltb _ _); [done|].
  destruct (Crypto_incoming crypto wire) as [c1 [cell|]] eqn:Ei; [|done]. intros [= <- Hm]. exists wire, cell. split_and!; [done|done|]. eapply (step_message e _ _ now (message_of cell)). exact Hm.
Qed.
End Arms.

(** ** Properties *)

(** What an end has written to a socket was heard, and a clean shutdown comes
    after all of it. *)
Lemma wrote_heard e id :
  endpoint_ok e ->
  bytes_of id (ep_wrote e) `prefix_of` payload id (ep_got e) /\
  (id ∈ ep_shut e -> ended id (ep_got e) = true /\ bytes_of id (ep_wrote e) = payload id (ep_got e)).
Proof.
  intros [Hok _]. pose proof (so_flow _ _ Hok id) as Hf. destruct (ss_streams _ !! id).
  - destruct Hf as [_ []]. cbn in *. split; [done|]. intros Hs. rewrite bool_decide_true in lo_shut0 by done.
    destruct (lo_shut0 eq_refl) as (_ & He & Hw). rewrite lo_got_end0. done.
  - destruct Hf. cbn in *. split; [done|]. intros Hs. apply go_shut0. by apply bool_decide_true.
Qed.

(** What it has said was read, and an end comes after all of it. *)
Lemma said_read e id :
  endpoint_ok e ->
  payload id (ep_sent e) `prefix_of` bytes_of id (ep_read e) /\
  (ended id (ep_sent e) = true -> payload id (ep_sent e) = bytes_of id (ep_read e)).
Proof.
  intros [Hok _]. pose proof (so_flow _ _ Hok id) as Hf. destruct (ss_streams _ !! id).
  - destruct Hf as [_ []]. cbn in *. split; [by eexists|]. intros He. rewrite lo_sent_end0 in He.
    destruct (lo_done0 He) as (_ & Hp & Hr). rewrite <- lo_sent0. unfold backlog. rewrite Hp, Hr. cbn. by rewrite app_nil_r.
  - by destruct Hf.
Qed.

(** C21: a stream of a padded session arrives intact. Take any two ends of a
    session in any states they can reach, each under arbitrary messages, worker
    and socket outcomes, where one has processed a part of what the other has
    sent, in order. Then, on every stream, the bytes the one has written to its
    socket are the first bytes the other has read from its own: nothing is lost
    in between, repeated, reordered or taken from another stream. And where the
    socket was shut down in good order, they are all the bytes that were read:
    packing several reads into a cell, half-closing and dropping a stream never
    turn a cut stream into a complete one. *)
Theorem stream_integrity (c1 p1 c2 p2 : bool) (near far : Endpoint) (id : Z) :
  endpoint_reachable c1 p1 near -> endpoint_reachable c2 p2 far -> ep_got far `prefix_of` ep_sent near ->
  bytes_of id (ep_wrote far) `prefix_of` bytes_of id (ep_read near) /\
  (id ∈ ep_shut far -> bytes_of id (ep_wrote far) = bytes_of id (ep_read near)).
Proof.
  intros Hn%endpoint_reachable_ok Hf%endpoint_reachable_ok [l Hl].
  destruct (wrote_heard far id Hf) as [H1 H2]. destruct (said_read near id Hn) as [H3 H4].
  rewrite Hl, payload_app, ended_app in *. split.
  - etrans; [exact H1|]. etrans; [|exact H3]. by eexists.
  - intros Hs. destruct (H2 Hs) as [He ->]. rewrite He in *. rewrite app_nil_r in *. auto.
Qed.

(** A session stays within its budgets whatever the peer sends. In every
    reachable state at most 16 streams are open or being connected, no id above
    1024 was used, and every stream keeps to its share: at most 32 cells sent
    and not acknowledged, at most 32 received and not written, at most 33 items
    queued for a running writer and at most 32 reads and one remainder, each no
    longer than a cell, queued for sending. *)
Theorem session_bounded (client policy : bool) (e : Endpoint) :
  endpoint_reachable client policy e ->
  let s := ep_session e in
  (size (ss_streams s) + size (ss_connecting s) <= MAX_STREAMS)%nat /\ ss_last_id s <= MAX_IDS /\
  forall id st, ss_streams s !! id = Some st ->
    1 <= id <= ss_last_id s /\
    0 <= sw_sent (st_window st) - sw_acknowledged (st_window st) <= WINDOW_CELLS /\
    0 <= st_received st - st_written st <= WINDOW_CELLS /\
    (st_writer st = true -> (length (st_incoming st) <= SESSION_QUEUE + 1)%nat) /\
    (length (og_receiver (st_outgoing st)) <= SESSION_QUEUE)%nat /\
    (length (backlog (st_outgoing st)) <= (SESSION_QUEUE + 1) * PAYLOAD_SIZE)%nat.
Proof.
  intros [Hok _]%endpoint_reachable_ok s. pose proof (so_last _ _ Hok). split_and!; [apply Hok|apply Hok|]. intros id st Hst.
  pose proof (session_ok_live _ _ _ _ Hok Hst) as []. destruct lo_window0, lo_outgoing0.
  assert (Hid : 1 <= id <= ss_last_id s) by (eapply session_ok_stream_id; eauto).
  split_and!; try lia.
  - intros Hw. destruct (lo_queue0 Hw) as (q & -> & Hlen & _). rewrite length_app, length_fmap.
    unfold SESSION_QUEUE, WINDOW_CELLS in *. destruct (st_received_end st); cbn; lia.
  - unfold backlog. rewrite length_app. assert (length (default [] (og_pending (st_outgoing st))) <= PAYLOAD_SIZE)%nat.
    { destruct (og_pending _); cbn in *; [apply oo_pending0|lia]. }
    pose proof (join_bounded PAYLOAD_SIZE (og_receiver (st_outgoing st))) as Hj.
    assert (length (mjoin (og_receiver (st_outgoing st))) <= length (og_receiver (st_outgoing st)) * PAYLOAD_SIZE)%nat.
    { apply Hj. eapply Forall_impl; [exact oo_chunks0|]. intros x []. done. }
    nia.
Qed.

(** A session never fails by its own doing. In every reachable state the
    slot has a message that fits a cell, unless the 32-bit cell counter of a
    stream is used up; the next event of a worker is accepted, its write count
    is the one expected; and data within the credit of an open stream whose
    writer runs finds room in its queue. *)
Theorem session_runs (client policy : bool) (e : Endpoint) :
  endpoint_reachable client policy e ->
  let s := ep_session e in
  (forall profile now rng circuit_id,
     match select_message (ask_finish s profile now).1 now with
     | Ok (_, (command, id, data)) => exists cell, OnionCell_new rng circuit_id 0 command id data = Ok cell
     | Err e => e = Invalid "Data counter exhausted"
     end) /\
  (forall event events, ep_events e = event :: events -> exists s', on_event s event = Continue s') /\
  (forall id st now data, ss_streams s !! id = Some st -> st_ready st = true -> st_received_end st = false -> st_writer st = true ->
     st_received st - st_written st < WINDOW_CELLS -> st_received st < u32_MAX -> data <> [] ->
     exists s', on_data s now id data = Continue s').
Proof.
  intros Hep%endpoint_reachable_ok s. pose proof Hep as [Hok Hev]. split_and!.
  - intros profile now rng cid. destruct (ask_finish_ok _ _ profile now Hok) as [H1 _].
    pose proof (select_message_spec _ _ now H1) as H2. destruct (select_message _ now) as [[s' [[c id] d]]|]; [|done].
    destruct H2 as (Hlen & _). cbn in Hlen. unfold OnionCell_new. rewrite (proj2 (Nat.ltb_ge _ _)) by done. by eexists.
  - intros ev events Ee. destruct (on_event_ok s _ ev (session_ok_same s s (view e) _ Hok eq_refl (so_controls _ _ Hok)
      eq_refl eq_refl eq_refl eq_refl (fun id => eq_sym (view_event e ev events id Ee)))) as (s' & H1 & _); [|eauto].
    intros Hc. specialize (Hev Hc). rewrite Ee in Hev. by apply Forall_cons in Hev as [].
  - intros id st now data Hst Hr He Hw Hcr Hmax Hd. pose proof (session_ok_live _ _ _ _ Hok Hst) as Hl.
    unfold on_data. rewrite Hst, Hr, He, Z.leb_antisym. fold (credit st). rewrite (credit_spec _ _ Hl), (proj2 (Z.ltb_lt _ _) Hcr).
    destruct data as [|b data]; [done|]. cbn [negb orb length Nat.eqb]. unfold checked_add. rewrite (proj2 (Z.leb_le _ _)) by lia.
    destruct (live_room st _ (Some (b :: data)) (st_received st + 1) false Hl He Hw) as [st' ->]. by eexists.
Qed.

(** An exchange: the client opens a stream, the exit connects, the client sends
    five bytes and closes, the exit writes them and shuts its socket down. *)
Definition demo_target : bytes := 3 :: str "foo" ++ [0; 80].

Definition demo_client : list Action :=
  let t := 2 * NANOS_PER_SEC in
  [ActOpen t (Some (str "foo", 80)); ActSlot Balanced t t 40; ActMessage t (SessionOpened, 1, []); ActReader 1 (ReadChunk [1; 2]);
   ActReader 1 (ReadChunk [3; 4; 5]); ActReader 1 ReadEof; ActSlot Balanced t t 40; ActSlot Balanced t t 40].

Definition demo_exit : list Action :=
  let t := 2 * NANOS_PER_SEC in
  [ActMessage t (SessionOpen, 1, demo_target); ActConnect 1 true; ActEvent; ActSlot Balanced t t 40;
   ActMessage t (Data, 1, [1; 2; 3; 4; 5]); ActWriter 1 None; ActEvent; ActMessage t (End_, 1, []); ActWriter 1 None].

Definition demo_start (client : bool) : Endpoint := endpoint_start client (negb client) 0 40.
Definition run_demo (client : bool) (l : list Action) : Endpoint := default (demo_start client) (acts (demo_start client) l).

Lemma run_demo_reachable client l : is_Some (acts (demo_start client) l) -> endpoint_reachable client (negb client) (run_demo client l).
Proof. intros [e He]. unfold run_demo. rewrite He. by eapply acts_reachable. Qed.

Lemma stream_integrity_witness :
  let near := run_demo true demo_client in
  let far := run_demo false demo_exit in
  bytes_of 1 (ep_wrote far) = [1; 2; 3; 4; 5] /\ 1 ∈ ep_shut far /\ bytes_of 1 (ep_wrote far) = bytes_of 1 (ep_read near).
Proof.
  intros near far. assert (Hs : 1 ∈ ep_shut far) by (apply (bool_decide_unpack (1 ∈ ep_shut far)); vm_compute; done).
  split; [vm_compute; done|]. split; [exact Hs|].
  refine (proj2 (stream_integrity true false false true near far 1 _ _ _) Hs).
  - apply (run_demo_reachable true). vm_compute. by eexists.
  - apply (run_demo_reachable false). vm_compute. by eexists.
  - exists []. vm_compute. done.
Defined.

Lemma session_bounded_witness :
  let e := run_demo false (take 5 demo_exit) in
  ep_got e <> [] /\ (size (ss_streams (ep_session e)) + size (ss_connecting (ep_session e)) <= MAX_STREAMS)%nat.
Proof.
  intros e. split; [vm_compute; done|]. refine (proj1 (session_bounded false true e _)).
  apply (run_demo_reachable false). vm_compute. by eexists.
Defined.

Lemma session_runs_witness :
  let e := run_demo false (take 6 demo_exit) in
  ep_events e = [Written 1 1] /\ exists s', on_event (ep_session e) (Written 1 1) = Continue s'.
Proof.
  intros e. assert (He : ep_events e = [Written 1 1]) by (vm_compute; done). split; [exact He|].
  refine (proj1 (proj2 (session_runs false true e _)) (Written 1 1) [] He).
  apply (run_demo_reachable false). vm_compute. by eexists.
Defined.

(** A destination that speaks first: it greets as soon as the exit connects. *)
Definition greeting_exit : list Action :=
  let t := 2 * NANOS_PER_SEC in
  [ActSlot Balanced t t 40; ActMessage t (SessionOpen, 1, demo_target); ActConnect 1 true; ActEvent;
   ActReader 1 (ReadChunk (str "hello")); ActSlot Balanced t t 40].

Definition greeting_client : list Action :=
  let t := 2 * NANOS_PER_SEC in [ActOpen t (Some (str "foo", 80)); ActSlot Balanced t t 40; ActMessage t (Dummy, 0, [])].

(** Data can overtake the answer that opens its stream. Controls are only
    preferred in every other slot, and a stream the exit has just connected is
    ready at once. So there are states of an honest client and an honest exit,
    each having heard only what the other sent, where the exit's last cell is
    data of a stream whose opening is still queued behind it, and the client,
    which has not seen the stream opened, gives the whole session up for it. *)
Theorem data_overtakes_opened :
  exists client exit m,
    endpoint_reachable true false client /\ endpoint_reachable false true exit /\
    ep_got exit `prefix_of` ep_sent client /\ ep_sent exit = ep_got client ++ [m] /\
    (SessionOpened, m.1.2, []) ∈ ss_controls (ep_session exit) /\
    forall now, on_message (ep_session client) now m = Abort (Invalid "Stream receive credit violation").
Proof.
  exists (run_demo true greeting_client), (run_demo false greeting_exit), (Data, 1, str "hello"). split_and!.
  - apply (run_demo_reachable true). vm_compute. by eexists.
  - apply (run_demo_reachable false). vm_compute. by eexists.
  - exists []. vm_compute. done.
  - vm_compute. done.
  - replace (ss_controls (ep_session (run_demo false greeting_exit))) with [(SessionOpened, 1, [] : bytes)] by (vm_compute; done). left.
  - intros now. vm_compute. done.
Qed.
