(* ===== verification/Admission.v ===== *)
(** * Handshake rate limiting per source (src/mesh/admission.rs)

    [TokenBucket], the grouping of source addresses, and [SourceAdmission]:
    the bounded table of sources, each with a semaphore of four slots and a
    token bucket. Instants and durations are integer nanoseconds and the
    current time is an argument. A semaphore is shared between the table and
    the permits handed out, so semaphores live in a store ([Semaphores]) and a
    permit is the reference to its semaphore. *)
From S2P Require Import Prelude Net.

(** ** Data *)
Definition SOURCE_SLOTS : Z := 4.
Definition SOURCE_BURST : Z := 64.
Definition SOURCE_REFILL : Z := 83334000.
Definition SOURCE_IDLE : Z := 120000000000.
Definition MAX_SOURCES : Z := 4096.
Definition SWEEP_INTERVAL : Z := 1000000000.

Record TokenBucket := mkTokenBucket { tb_tokens : Z; tb_burst : Z; tb_refill : Z; tb_last : Z }.

Inductive SourceGroup := G4 (octets : list Z) | G6 (prefix : list Z).

#[global] Instance SourceGroup_eq_dec : EqDecision SourceGroup.
Proof. solve_decision. Defined.
#[global] Instance SourceGroup_countable : Countable SourceGroup.
Proof.
  refine (inj_countable' (fun g => match g with G4 o => inl o | G6 o => inr o end)
            (fun x => match x with inl o => G4 o | inr o => G6 o end) _).
  by intros [].
Defined.

Record Source := mkSource { src_slots : nat; src_rate : TokenBucket; src_seen : Z }.

Record SourceAdmission := mkSourceAdmission {
  sa_sources : gmap SourceGroup Source;
  sa_next_sweep : option Z;
}.

(** The semaphores allocated so far and the permits each has left. *)
Record Semaphores := mkSemaphores { sem_next : nat; sem_permits : gmap nat Z }.

(** ** Standard library operations *)

(** [Instant::saturating_duration_since]. *)
Definition duration_since (now earlier : Z) : Z := Z.max 0 (now - earlier).

(** [Arc::new(Semaphore::new(n))]. *)
Definition sem_new (n : Z) (st : Semaphores) : nat * Semaphores :=
  (sem_next st, {| sem_next := S (sem_next st); sem_permits := <[sem_next st := n]> (sem_permits st) |}).

(** [available_permits]. *)
Definition sem_available (st : Semaphores) (id : nat) : Z := default 0 (sem_permits st !! id).

Definition sem_set (st : Semaphores) (id : nat) (n : Z) : Semaphores :=
  {| sem_next := sem_next st; sem_permits := <[id := n]> (sem_permits st) |}.

(** [try_acquire_owned]: the permit is the semaphore it was taken from. *)
Definition try_acquire (st : Semaphores) (id : nat) : option Semaphores :=
  if 0 <? sem_available st id then Some (sem_set st id (sem_available st id - 1)) else None.

(** Dropping a permit. *)
Definition sem_release (st : Semaphores) (id : nat) : Semaphores := sem_set st id (sem_available st id + 1).

(** ** Operations *)

(** A bucket that passed the assertion of [TokenBucket::new]. *)
Definition full_bucket (burst refill now : Z) : TokenBucket := mkTokenBucket burst burst refill now.

(** [None] is the assertion failure. *)
Definition TokenBucket_new (burst refill now : Z) : option TokenBucket :=
  if (0 <? burst) && negb (refill =? 0) then Some (full_bucket burst refill now) else None.

Definition bucket_available (b : TokenBucket) (now : Z) : TokenBucket * bool :=
  let elapsed := duration_since now (tb_last b) in
  let refill := elapsed / tb_refill b in
  let b :=
    if tb_burst b <=? refill then mkTokenBucket (tb_burst b) (tb_burst b) (tb_refill b) now
    else if 0 <? refill then
      mkTokenBucket (Z.min (saturating_add u32_MAX (tb_tokens b) refill) (tb_burst b))
        (tb_burst b) (tb_refill b) (tb_last b + tb_refill b * refill)
    else b in
  (b, 0 <? tb_tokens b).

Definition bucket_take (b : TokenBucket) (now : Z) : TokenBucket * bool :=
  let '(b, ok) := bucket_available b now in
  if negb ok then (b, false)
  else (mkTokenBucket (tb_tokens b - 1) (tb_burst b) (tb_refill b) (tb_last b), true).

Definition source_group (ip : IpAddr) : SourceGroup :=
  match ip with
  | V4 ip => G4 (v4_octets ip)
  | V6 ip =>
      match to_ipv4_mapped ip with
      | Some v4 => G4 (v4_octets v4)
      | None => G6 (take 8 (v6_octets ip))
      end
  end.

Definition SourceAdmission_new : SourceAdmission := {| sa_sources := ∅; sa_next_sweep := None |}.

(** The closure of [sweep]'s [retain]. *)
Definition retained (st : Semaphores) (now : Z) (s : Source) : bool :=
  negb (sem_available st (src_slots s) =? SOURCE_SLOTS) || (duration_since now (src_seen s) <? SOURCE_IDLE).

Definition sweep (self : SourceAdmission) (st : Semaphores) (now : Z) : SourceAdmission :=
  {| sa_sources := filter (fun kv => retained st now kv.2 = true) (sa_sources self);
     sa_next_sweep := Some (now + SWEEP_INTERVAL) |}.

(** The sweep a new source triggers before the table is consulted. *)
Definition make_room (self : SourceAdmission) (st : Semaphores) (now : Z) : SourceAdmission :=
  if (MAX_SOURCES <=? Z.of_nat (size (sa_sources self)))
     || match sa_next_sweep self with None => true | Some next => next <=? now end
  then sweep self st now else self.

(** [entry(group).or_insert_with(..)]: the source, in the table. *)
Definition source_entry (self : SourceAdmission) (st : Semaphores) (group : SourceGroup) (now : Z)
    : Source * SourceAdmission * Semaphores :=
  match sa_sources self !! group with
  | Some s => (s, self, st)
  | None =>
      let '(id, st) := sem_new SOURCE_SLOTS st in
      let s := {| src_slots := id; src_rate := full_bucket SOURCE_BURST SOURCE_REFILL now; src_seen := now |} in
      (s, {| sa_sources := <[group := s]> (sa_sources self); sa_next_sweep := sa_next_sweep self |}, st)
  end.

Definition set_source (self : SourceAdmission) (group : SourceGroup) (s : Source) : SourceAdmission :=
  {| sa_sources := <[group := s]> (sa_sources self); sa_next_sweep := sa_next_sweep self |}.

Definition try_admit (self : SourceAdmission) (st : Semaphores) (ip : IpAddr) (now : Z)
    : SourceAdmission * Semaphores * option nat :=
  let group := source_group ip in
  let known := bool_decide (is_Some (sa_sources self !! group)) in
  let self := if known then self else make_room self st now in
  if negb known && (MAX_SOURCES <=? Z.of_nat (size (sa_sources self))) then (self, st, None)
  else
    let '(s, self, st) := source_entry self st group now in
    match try_acquire st (src_slots s) with
    | None => (self, st, None)
    | Some st =>
        let '(rate, ok) := bucket_take (src_rate s) now in
        if negb ok then
          (set_source self group (mkSource (src_slots s) rate (src_seen s)), sem_release st (src_slots s), None)
        else (set_source self group (mkSource (src_slots s) rate now), st, Some (src_slots s))
    end.

(** ** The listener: connections arrive, finish, and the timer sweeps

    [ls_live] records the permits held by open connections with the group
    they were granted to. *)
Record Listener := mkListener {
  ls_table : SourceAdmission;
  ls_sems : Semaphores;
  ls_live : list (SourceGroup * nat);
}.

Inductive ListenerEvent :=
| Arrive (ip : IpAddr) (now : Z)
| Leave (i : nat)
| Tick (now : Z).

Definition listener_init : Listener := mkListener SourceAdmission_new (mkSemaphores 0 ∅) [].

(** The new state and the group an arrival was granted to. *)
Definition listener_step (l : Listener) (ev : ListenerEvent) : Listener * option SourceGroup :=
  match ev with
  | Arrive ip now =>
      let '(table, sems, r) := try_admit (ls_table l) (ls_sems l) ip now in
      match r with
      | None => (mkListener table sems (ls_live l), None)
      | Some id => (mkListener table sems ((source_group ip, id) :: ls_live l), Some (source_group ip))
      end
  | Leave i =>
      match ls_live l !! i with
      | None => (l, None)
      | Some p => (mkListener (ls_table l) (sem_release (ls_sems l) p.2) (delete i (ls_live l)), None)
      end
  | Tick now => (mkListener (sweep (ls_table l) (ls_sems l) now) (ls_sems l) (ls_live l), None)
  end.

Fixpoint listener_run (l : Listener) (evs : list ListenerEvent) : Listener * list SourceGroup :=
  match evs with
  | [] => (l, [])
  | ev :: rest =>
      let '(l', r) := listener_step l ev in
      let '(lf, gs) := listener_run l' rest in
      (lf, match r with Some g => g :: gs | None => gs end)
  end.

Definition event_times (evs : list ListenerEvent) : list Z :=
  omap (fun ev => match ev with Arrive _ t => Some t | Tick t => Some t | Leave _ => None end) evs.

Definition held_by (g : SourceGroup) (live : list (SourceGroup * nat)) : Z :=
  Z.of_nat (length (filter (fun p => p.1 = g) live)).

Definition grants_to (g : SourceGroup) (gs : list SourceGroup) : Z :=
  Z.of_nat (length (filter (fun x => x = g) gs)).

(** ** The permit invariant *)
Definition held_from (id : nat) (live : list (SourceGroup * nat)) : Z :=
  Z.of_nat (length (filter (fun p => p.2 = id) live)).

Record permits_inv (table : gmap SourceGroup Source) (st : Semaphores) (live : list (SourceGroup * nat)) : Prop := {
  pi_count : forall g s, table !! g = Some s ->
    (src_slots s < sem_next st)%nat /\ 0 <= sem_available st (src_slots s) /\
    sem_available st (src_slots s) + held_from (src_slots s) live = SOURCE_SLOTS;
  pi_inj : forall g1 g2 s1 s2, table !! g1 = Some s1 -> table !! g2 = Some s2 ->
    src_slots s1 = src_slots s2 -> g1 = g2;
  pi_live : forall p, p ∈ live -> exists s, table !! p.1 = Some s /\ src_slots s = p.2;
}.

Lemma held_from_cons id p live : held_from id (p :: live) = held_from id live + (if decide (p.2 = id) then 1 else 0).
Proof. unfold held_from. rewrite filter_cons. case_decide; cbn [length]; lia. Qed.

Lemma held_from_perm id live live' : live ≡ₚ live' -> held_from id live = held_from id live'.
Proof. intros Hp. unfold held_from. by rewrite Hp. Qed.

Lemma sem_available_set st id n id' :
  sem_available (sem_set st id n) id' = if decide (id' = id) then n else sem_available st id'.
Proof.
  unfold sem_available, sem_set; cbn. case_decide; [subst; by rewrite lookup_insert_eq|by rewrite lookup_insert_ne].
Qed.

Lemma permits_empty live_st : permits_inv ∅ live_st [].
Proof. split; [done..|]. intros p Hp. by apply not_elem_of_nil in Hp. Qed.

(** The semaphore of a source with a live permit is not full, so its entry
    survives every sweep. *)
Lemma permits_sweep self st live now :
  permits_inv (sa_sources self) st live -> permits_inv (sa_sources (sweep self st now)) st live.
Proof.
  intros [Hc Hi Hl]. split; cbn.
  - intros g s [Hs _]%map_lookup_filter_Some. eauto.
  - intros g1 g2 s1 s2 [H1 _]%map_lookup_filter_Some [H2 _]%map_lookup_filter_Some. eauto.
  - intros p Hp. destruct (Hl p Hp) as (s & Hs & Hid). exists s. split; [|done].
    apply map_lookup_filter_Some_2; [done|]. cbn. unfold retained.
    destruct (Hc _ _ Hs) as (_ & _ & Hsum). apply orb_true_iff; left. apply negb_true_iff, Z.eqb_neq.
    enough (0 < held_from (src_slots s) live) by lia.
    unfold held_from. rewrite Hid.
    enough (length (filter (fun q => q.2 = p.2) live) <> 0%nat) by lia.
    intros E%length_zero_iff_nil. eapply not_elem_of_nil, (eq_ind _ (fun l => p ∈ l)); [|exact E].
    by apply list_elem_of_filter.
Qed.

Lemma permits_make_room self st live now :
  permits_inv (sa_sources self) st live -> permits_inv (sa_sources (make_room self st now)) st live.
Proof. intros Hp. unfold make_room. case_match; [by apply permits_sweep|done]. Qed.

Lemma permits_entry self st live g now s self' st' :
  permits_inv (sa_sources self) st live -> source_entry self st g now = (s, self', st') ->
  permits_inv (sa_sources self') st' live /\ sa_sources self' !! g = Some s.
Proof.
  intros Hp Hs. unfold source_entry in Hs. destruct (sa_sources self !! g) as [s0|] eqn:Eg; simplify_eq/=.
  { done. }
  split; [|by rewrite lookup_insert_eq]. destruct Hp as [Hc Hi Hl].
  assert (Hfresh : held_from (sem_next st) live = 0).
  { unfold held_from. enough (filter (fun p => p.2 = sem_next st) live = []) as -> by done.
    apply filter_none. intros p Hp E. destruct (Hl p Hp) as (s & Hs & Hid).
    destruct (Hc _ _ Hs) as (Hlt & _). lia. }
  assert (Hold : forall id, (id < sem_next st)%nat ->
            sem_available {| sem_next := S (sem_next st); sem_permits := <[sem_next st:=SOURCE_SLOTS]> (sem_permits st) |} id
            = sem_available st id).
  { intros id Hid. unfold sem_available; cbn. rewrite lookup_insert_ne; [done|lia]. }
  split; cbn.
  - intros g' s'. rewrite lookup_insert_Some. intros [[<- <-]|[Hne Hs']]; cbn.
    + unfold sem_available; cbn. rewrite lookup_insert_eq, Hfresh; cbn. unfold SOURCE_SLOTS. lia.
    + destruct (Hc _ _ Hs') as (? & ? & ?). rewrite Hold by done. lia.
  - intros g1 g2 s1 s2. rewrite !lookup_insert_Some. intros [[<- <-]|[Hn1 H1]] [[<- <-]|[Hn2 H2]] E; cbn in E; [done| | |eauto].
    + destruct (Hc _ _ H2). lia.
    + destruct (Hc _ _ H1). lia.
  - intros p Hp. destruct (Hl p Hp) as (s & Hs & Hid). exists s. rewrite lookup_insert_ne; [done|congruence].
Qed.

Lemma permits_acquire table st live g s st' :
  permits_inv table st live -> table !! g = Some s -> try_acquire st (src_slots s) = Some st' ->
  permits_inv table st' ((g, src_slots s) :: live).
Proof.
  intros [Hc Hi Hl] Hs Ha. unfold try_acquire in Ha. guards_in Ha. split.
  - intros g' s' Hs'. destruct (Hc _ _ Hs') as (? & ? & ?). rewrite sem_available_set, held_from_cons; cbn.
    destruct (decide (src_slots s' = src_slots s)) as [E'|E']; [rewrite E' in *; rewrite decide_True by done; lia|].
    rewrite decide_False by congruence. lia.
  - done.
  - intros p [->|Hp]%elem_of_cons; eauto.
Qed.

Lemma permits_release table st live i p :
  permits_inv table st live -> live !! i = Some p ->
  permits_inv table (sem_release st p.2) (delete i live).
Proof.
  intros [Hc Hi Hl] Hp. pose proof (delete_Permutation _ _ _ Hp) as Hperm. split.
  - intros g' s' Hs'. destruct (Hc _ _ Hs') as (? & ? & Hsum).
    rewrite (held_from_perm _ _ _ Hperm), held_from_cons in Hsum. unfold sem_release. rewrite sem_available_set.
    destruct (decide (src_slots s' = p.2)) as [E'|E'].
    + rewrite decide_True in Hsum by done. rewrite <- E' in *. cbn [sem_next sem_set]. lia.
    + rewrite decide_False in Hsum by congruence. cbn [sem_next sem_set]. lia.
  - done.
  - intros q Hq. apply Hl. rewrite Hperm. by right.
Qed.

Lemma permits_set self st live g s s' :
  permits_inv (sa_sources self) st live -> sa_sources self !! g = Some s -> src_slots s' = src_slots s ->
  permits_inv (sa_sources (set_source self g s')) st live.
Proof.
  intros [Hc Hi Hl] Hs E. split; cbn.
  - intros g' s0. rewrite lookup_insert_Some. intros [[<- <-]|[? ?]]; [rewrite E|]; eauto.
  - intros g1 g2 s1 s2. rewrite !lookup_insert_Some. intros [[<- <-]|[Hn1 H1]] [[<- <-]|[Hn2 H2]] E'; [done| | |eauto];
      [eapply Hi; [exact Hs|exact H2|congruence]|eapply Hi; [exact H1|exact Hs|congruence]].
  - intros p Hp. destruct (Hl p Hp) as (s0 & Hs0 & Hid). destruct (decide (p.1 = g)) as [<-|Hne].
    + exists s'. rewrite lookup_insert_eq. split; [done|congruence].
    + exists s0. by rewrite lookup_insert_ne.
Qed.

Lemma try_admit_permits self st live ip now self' st' r :
  permits_inv (sa_sources self) st live -> try_admit self st ip now = (self', st', r) ->
  permits_inv (sa_sources self') st' (match r with Some id => (source_group ip, id) :: live | None => live end).
Proof.
  intros Hp. unfold try_admit. set (known := bool_decide _). set (self0 := if known then self else make_room self st now).
  assert (Hp0 : permits_inv (sa_sources self0) st live) by (unfold self0; destruct known; [done|by apply permits_make_room]).
  destruct (negb known && _); [by intros [= <- <- <-]|]. destruct (source_entry _ _ _ _) as [[s self1] st1] eqn:Es.
  destruct (permits_entry _ _ _ _ _ _ _ _ Hp0 Es) as [Hp1 Hg]. destruct (try_acquire st1 (src_slots s)) as [st2|] eqn:Ea; [|by intros [= <- <- <-]].
  pose proof (permits_acquire _ _ _ _ _ _ Hp1 Hg Ea) as Hp2. destruct (bucket_take _ _) as [rate []]; intros [= <- <- <-].
  - by eapply permits_set.
  - eapply permits_set; [|done|done]. exact (permits_release _ _ ((source_group ip, src_slots s) :: live) 0 _ Hp2 eq_refl).
Qed.

(** ** The rate invariant *)
Record source_ok (now : Z) (s : Source) : Prop := {
  so_burst : tb_burst (src_rate s) = SOURCE_BURST;
  so_refill : tb_refill (src_rate s) = SOURCE_REFILL;
  so_tokens : 0 <= tb_tokens (src_rate s) <= SOURCE_BURST;
  so_last : tb_last (src_rate s) <= now;
  so_seen : src_seen s <= now;
  so_full : tb_tokens (src_rate s) = SOURCE_BURST \/
            tb_last (src_rate s) <= tb_tokens (src_rate s) * SOURCE_REFILL + src_seen s;
}.

(** [n] grants to [g] since [base] are paid for by elapsed time and what the
    bucket no longer holds. *)
Definition paid (base n : Z) (entry : option Source) (now : Z) : Prop :=
  match entry with
  | Some s => SOURCE_REFILL * n + tb_tokens (src_rate s) * SOURCE_REFILL - tb_last (src_rate s)
              <= SOURCE_BURST * SOURCE_REFILL - base
  | None => SOURCE_REFILL * n <= now - base
  end.

Record rate_inv (g : SourceGroup) (base n : Z) (table : gmap SourceGroup Source) (now : Z) : Prop := {
  ri_sources : map_Forall (fun _ s => source_ok now s) table;
  ri_base : base + SOURCE_REFILL <= now;
  ri_count : 0 <= n;
  ri_paid : n = 0 \/ paid base n (table !! g) now;
}.

Ltac rates := unfold SOURCE_BURST, SOURCE_REFILL, SOURCE_IDLE, duration_since in *.

Lemma rate_later g base n table now now' :
  now <= now' -> rate_inv g base n table now -> rate_inv g base n table now'.
Proof.
  intros Hle [Hs Hb Hn Hp]. split; [|lia|done|].
  - intros k s Hk. destruct (Hs k s Hk). split; try done; lia.
  - destruct Hp as [->|Hp]; [by left|right]. unfold paid in *. destruct (table !! g); lia.
Qed.

(** An idle source has a full bucket's worth of refill behind it, so that
    forgetting it gives nothing away. *)
Lemma rate_sweep g base n self st now :
  rate_inv g base n (sa_sources self) now -> rate_inv g base n (sa_sources (sweep self st now)) now.
Proof.
  intros [Hs Hb Hn Hp]. split; [by intros k s [Hk _]%map_lookup_filter_Some; eapply Hs|done..|]. destruct Hp as [->|Hp]; [by left|right]. cbn.
  rewrite map_lookup_filter. destruct (sa_sources self !! g) as [s|] eqn:Eg; cbn in *; [|done].
  case_guard as Hr; cbn; [done|]. unfold retained in Hr. apply not_true_is_false in Hr. reflect_bools.
  destruct (Hs _ _ Eg) as [? ? ? ? ? Hf]. rates. destruct Hf; lia.
Qed.

Lemma rate_make_room g base n self st now :
  rate_inv g base n (sa_sources self) now -> rate_inv g base n (sa_sources (make_room self st now)) now.
Proof. intros Hr. unfold make_room. case_match; [by apply rate_sweep|done]. Qed.

Lemma rate_entry g base n self st g' now s self' st' :
  rate_inv g base n (sa_sources self) now -> source_entry self st g' now = (s, self', st') ->
  rate_inv g base n (sa_sources self') now.
Proof.
  intros [Hs Hb Hn Hp] He. unfold source_entry in He.
  destruct (sa_sources self !! g') as [s0|] eqn:Eg; simplify_eq/=; [done|]. split; [|done..|].
  - apply map_Forall_insert_2; [|done]. split; cbn; rates; lia.
  - destruct Hp as [->|Hp]; [by left|right]. destruct (decide (g' = g)) as [<-|Hne].
    + rewrite lookup_insert_eq. rewrite Eg in Hp. cbn in *. rates. lia.
    + by rewrite lookup_insert_ne.
Qed.

(** Polling the bucket moves time into tokens, never more than one for each
    refill interval, and leaves less than one interval unaccounted for. *)
Lemma bucket_available_spec b now b' ok :
  tb_burst b = SOURCE_BURST -> tb_refill b = SOURCE_REFILL -> 0 <= tb_tokens b <= SOURCE_BURST -> tb_last b <= now ->
  bucket_available b now = (b', ok) ->
  tb_burst b' = SOURCE_BURST /\ tb_refill b' = SOURCE_REFILL /\ tb_tokens b <= tb_tokens b' <= SOURCE_BURST /\
  tb_last b <= tb_last b' <= now /\ now - tb_last b' < SOURCE_REFILL /\
  tb_tokens b' * SOURCE_REFILL - tb_last b' <= tb_tokens b * SOURCE_REFILL - tb_last b /\
  (tb_tokens b' = SOURCE_BURST \/
   tb_tokens b' * SOURCE_REFILL - tb_last b' = tb_tokens b * SOURCE_REFILL - tb_last b) /\
  ok = (0 <? tb_tokens b').
Proof.
  intros Hb Hr Ht Hl Ha. unfold bucket_available in Ha. rewrite Hb, Hr in Ha. apply pair_equal_spec in Ha as [<- <-].
  unfold duration_since, saturating_add, u32_MAX.
  pose proof (Z.div_mod (Z.max 0 (now - tb_last b)) SOURCE_REFILL ltac:(done)) as Hdm.
  pose proof (Z.mod_pos_bound (Z.max 0 (now - tb_last b)) SOURCE_REFILL ltac:(done)) as Hmod.
  rates. set (q := _ / _) in *. set (m := _ mod _) in *.
  destruct (64 <=? q) eqn:Eq; [|destruct (0 <? q) eqn:E0]; reflect_bools; cbn;
    (repeat split; [try done; lia..|try done]); lia.
Qed.

Lemma rate_take g base n self now g' s rate ok :
  rate_inv g base n (sa_sources self) now -> sa_sources self !! g' = Some s ->
  bucket_take (src_rate s) now = (rate, ok) ->
  rate_inv g base (n + (if ok && bool_decide (g' = g) then 1 else 0))
    (sa_sources (set_source self g' (mkSource (src_slots s) rate (if ok then now else src_seen s)))) now.
Proof.
  intros [Hs Hb Hn Hp] Hg Ht. destruct (Hs _ _ Hg) as [H1 H2 H3 H4 H5 H6].
  unfold bucket_take in Ht. destruct (bucket_available (src_rate s) now) as [b' ok'] eqn:Ea.
  apply bucket_available_spec in Ea as (B1 & B2 & B3 & B4 & B5 & B6 & B7 & ->); [|done..].
  assert (E : ok = (0 <? tb_tokens b')) by (destruct (0 <? tb_tokens b'); cbn in Ht; by simplify_eq).
  assert (Er : tb_burst rate = SOURCE_BURST /\ tb_refill rate = SOURCE_REFILL /\ tb_last rate = tb_last b' /\
               tb_tokens rate = tb_tokens b' - (if ok then 1 else 0)).
  { destruct (0 <? tb_tokens b'); cbn in Ht; simplify_eq; cbn; repeat split; try done; lia. }
  clear Ht. destruct Er as (E1 & E2 & E3 & E4). split; cbn.
  - apply map_Forall_insert_2; [|done]. destruct ok; symmetry in E; reflect_bools; split; cbn; rates; lia.
  - done.
  - destruct (_ && _); lia.
  - destruct (decide (g' = g)) as [<-|Hne].
    + rewrite bool_decide_true, andb_true_r, lookup_insert_eq by done. rewrite Hg in Hp. cbn in *. rewrite E3, E4.
      destruct ok; [right|destruct Hp; [left|right]]; rates; lia.
    + rewrite bool_decide_false, andb_false_r, Z.add_0_r, lookup_insert_ne by done. done.
Qed.

(** ** Runs of the listener *)
Definition table_size (self : SourceAdmission) : Z := Z.of_nat (size (sa_sources self)).

Lemma sweep_size self st now : table_size (sweep self st now) <= table_size self.
Proof. unfold table_size, sweep; cbn. apply inj_le, map_size_filter. Qed.

Lemma set_source_size self g s s' :
  sa_sources self !! g = Some s -> table_size (set_source self g s') = table_size self.
Proof. intros Hg. unfold table_size, set_source; cbn. by rewrite map_size_insert_Some. Qed.

(** Everything after the room has been made. *)
Lemma entry_step self st live g base n ip now :
  permits_inv (sa_sources self) st live -> rate_inv g base n (sa_sources self) now ->
  let '(s, self1, st1) := source_entry self st (source_group ip) now in
  sa_sources self1 !! source_group ip = Some s /\
  permits_inv (sa_sources self1) st1 live /\ rate_inv g base n (sa_sources self1) now /\
  (is_Some (sa_sources self !! source_group ip) \/ table_size self < MAX_SOURCES ->
   table_size self <= MAX_SOURCES -> table_size self1 <= MAX_SOURCES).
Proof.
  intros Hp Hr. destruct (source_entry _ _ _ _) as [[s self1] st1] eqn:Ee.
  pose proof (rate_entry _ _ _ _ _ _ _ _ _ _ Hr Ee) as Hr1.
  destruct (permits_entry _ _ _ _ _ _ _ _ Hp Ee) as [Hp1 Hg]. split_and!; try done.
  unfold source_entry in Ee. destruct (sa_sources self !! source_group ip) eqn:Eg; simplify_eq/=; [done|].
  intros [[? [=]]|Hlt] _. unfold table_size in *; cbn. rewrite map_size_insert_None by done. lia.
Qed.

Lemma try_admit_step self st live g base n ip now0 now self' st' r :
  permits_inv (sa_sources self) st live -> rate_inv g base n (sa_sources self) now0 -> now0 <= now ->
  table_size self <= MAX_SOURCES ->
  try_admit self st ip now = (self', st', r) ->
  permits_inv (sa_sources self') st' (match r with Some id => (source_group ip, id) :: live | None => live end) /\
  rate_inv g base (n + (if bool_decide (is_Some r) && bool_decide (source_group ip = g) then 1 else 0))
    (sa_sources self') now /\
  table_size self' <= MAX_SOURCES.
Proof.
  intros Hp Hr Hle Hsz Ht. split; [by eapply try_admit_permits|]. apply (rate_later _ _ _ _ _ now) in Hr; [|done]. unfold try_admit in Ht.
  set (known := bool_decide _) in Ht.
  set (self0 := if known then self else make_room self st now) in Ht.
  assert (Hp0 : permits_inv (sa_sources self0) st live) by (unfold self0; destruct known; [done|by apply permits_make_room]).
  assert (Hr0 : rate_inv g base n (sa_sources self0) now) by (unfold self0; destruct known; [done|by apply rate_make_room]).
  assert (Hs0 : table_size self0 <= MAX_SOURCES).
  { unfold self0. destruct known; [done|]. unfold make_room. destruct (_ || _); [|done].
    etransitivity; [apply sweep_size|done]. }
  destruct (negb known && _) eqn:Efull; simplify_eq/=.
  { rewrite Z.add_0_r. done. }
  pose proof (entry_step self0 st live g base n ip now Hp0 Hr0) as He.
  destruct (source_entry _ _ _ _) as [[s self1] st1] eqn:Es. destruct He as (Hg & Hp1 & Hr1 & Hs1).
  specialize (Hs1 ltac:(unfold self0, known, table_size in *; case_bool_decide; cbn in *; reflect_bools; auto; lia) Hs0).
  destruct (try_acquire st1 (src_slots s)) as [st2|] eqn:Ea; simplify_eq/=.
  2:{ rewrite Z.add_0_r. done. }
  destruct (bucket_take _ _) as [rate ok] eqn:Eb.
  pose proof (rate_take _ _ _ _ _ _ _ _ _ Hr1 Hg Eb) as Hr2. destruct ok; simplify_eq/=.
  - rewrite (set_source_size _ _ _ _ Hg). done.
  - rewrite (set_source_size _ _ _ _ Hg). done.
Qed.

Record listener_inv (g : SourceGroup) (base n : Z) (l : Listener) (now : Z) : Prop := {
  li_permits : permits_inv (sa_sources (ls_table l)) (ls_sems l) (ls_live l);
  li_rate : rate_inv g base n (sa_sources (ls_table l)) now;
  li_size : table_size (ls_table l) <= MAX_SOURCES;
}.

Lemma listener_step_inv g base n l now0 ev l' r :
  listener_inv g base n l now0 -> Forall (fun t => now0 <= t) (event_times [ev]) ->
  listener_step l ev = (l', r) ->
  listener_inv g base (n + grants_to g (option_list r)) l' (default now0 (head (event_times [ev]))).
Proof.
  intros [Hp Hr Hs] Ht Hst. destruct ev as [ip now|i|now]; cbn in *.
  - apply Forall_inv in Ht. destruct (try_admit _ _ _ _) as [[table sems] o] eqn:Ea.
    destruct (try_admit_step _ _ _ _ _ _ _ _ _ _ _ _ Hp Hr Ht Hs Ea) as (Hp' & Hr' & Hs').
    destruct o; simplify_eq/=; (split; cbn; [done| |done]); revert Hr'; unfold grants_to.
    + rewrite filter_cons, filter_nil. case_bool_decide; case_decide; done.
    + by rewrite filter_nil.
  - destruct (ls_live l !! i) as [p|] eqn:Ei; simplify_eq/=; rewrite Z.add_0_r; [|done].
    split; cbn; [by apply permits_release|done..].
  - apply Forall_inv in Ht. simplify_eq/=. rewrite Z.add_0_r. split; cbn; [by apply permits_sweep| |].
    + apply rate_sweep. by eapply rate_later.
    + etransitivity; [apply sweep_size|done].
Qed.

Lemma grants_to_app g gs1 gs2 : grants_to g (gs1 ++ gs2) = grants_to g gs1 + grants_to g gs2.
Proof. unfold grants_to. rewrite filter_app, length_app. lia. Qed.

(** The clock after a run. *)
Definition run_end (now0 : Z) (evs : list ListenerEvent) : Z := default now0 (last (event_times evs)).

Lemma run_end_cons now0 ev evs :
  run_end now0 (ev :: evs) = run_end (default now0 (head (event_times [ev]))) evs.
Proof.
  unfold run_end. destruct ev as [ip t|i|t]; [|done|];
    change (event_times (_ :: evs)) with (t :: event_times evs); rewrite last_cons; cbn; by destruct (last _).
Qed.

Lemma listener_run_inv g base n l now0 evs lf gs :
  listener_inv g base n l now0 -> StronglySorted Z.le (now0 :: event_times evs) ->
  listener_run l evs = (lf, gs) ->
  listener_inv g base (n + grants_to g gs) lf (run_end now0 evs).
Proof.
  revert n l now0 lf gs. induction evs as [|ev evs IH]; intros n l now0 lf gs Hi Hs Hrun; cbn in Hrun.
  { simplify_eq. by rewrite Z.add_0_r. }
  destruct (listener_step l ev) as [l1 r] eqn:E1. destruct (listener_run l1 evs) as [l2 gs2] eqn:E2. simplify_eq.
  assert (Hev : Forall (fun t => now0 <= t) (event_times [ev]) /\
                StronglySorted Z.le (default now0 (head (event_times [ev])) :: event_times evs)).
  { destruct ev; cbn in *; [|done|];
      inversion Hs as [|? ? Hs' Hf]; subst; (split; [constructor; [by inversion Hf|done]|done]). }
  destruct Hev as [Ht Hs']. pose proof (listener_step_inv _ _ _ _ _ _ _ _ Hi Ht E1) as Hi1.
  pose proof (IH _ _ _ _ _ Hi1 Hs' E2) as Hi2. rewrite run_end_cons.
  replace (n + grants_to g match r with Some g0 => g0 :: gs2 | None => gs2 end)
    with (n + grants_to g (option_list r) + grants_to g gs2); [done|].
  rewrite <- Z.add_assoc, <- grants_to_app. by destruct r.
Qed.

Lemma listener_init_inv g now : listener_inv g (now - SOURCE_REFILL) 0 listener_init now.
Proof.
  split; cbn; [apply permits_empty| |done]. split; [apply map_Forall_empty|lia|done|by left].
Qed.

(** A window opens at any moment with no grants counted yet. *)
Lemma rate_restart g base n table now :
  rate_inv g base n table now -> rate_inv g (now - SOURCE_REFILL) 0 table now.
Proof. intros [Hs _ _ _]. split; [done|lia|done|by left]. Qed.

Lemma held_bound g table st live : permits_inv table st live -> held_by g live <= SOURCE_SLOTS.
Proof.
  intros [Hc Hi Hl]. destruct (decide (held_by g live = 0)) as [->|Hne]; [done|].
  assert (exists p, p ∈ filter (fun p => p.1 = g) live) as [p Hp].
  { unfold held_by in Hne. destruct (filter _ live) as [|p ?]; [done|]. exists p. by left. }
  apply list_elem_of_filter in Hp as [<- Hp]. destruct (Hl p Hp) as (s & Hs & Hid).
  destruct (Hc _ _ Hs) as (_ & Hnn & Hsum). enough (held_by p.1 live = held_from (src_slots s) live) by lia.
  unfold held_by, held_from. do 2 f_equal. apply filter_agree. intros q Hq. destruct (Hl q Hq) as (s' & Hs' & Hid'). split.
  - intros E. rewrite E, Hs in Hs'. by simplify_eq.
  - intros E. eapply Hi; [done..|congruence].
Qed.

Lemma paid_bound g base n table now :
  rate_inv g base n table now -> SOURCE_REFILL * n <= SOURCE_BURST * SOURCE_REFILL + (now - base).
Proof.
  intros [Hs Hb Hn [->|Hp]]; [rates; lia|]. unfold paid in Hp. destruct (table !! g) eqn:Eg; [|rates; lia].
  destruct (Hs _ _ Eg). rates. lia.
Qed.

(** ** Properties *)

(** Concurrency per source. Over any run of a listener, whatever arrives,
    finishes and is swept, no source group ever holds more than four handshake
    slots at once: in particular forgetting an idle group never hands out a
    second set of slots. The table never exceeds its bound. *)
Theorem source_slots_bounded (evs : list ListenerEvent) (t0 : Z) (l : Listener) (gs : list SourceGroup) (g : SourceGroup) :
  StronglySorted Z.le (t0 :: event_times evs) -> listener_run listener_init evs = (l, gs) ->
  held_by g (ls_live l) <= SOURCE_SLOTS /\ table_size (ls_table l) <= MAX_SOURCES.
Proof.
  intros Hs Hrun. destruct (listener_run_inv g _ _ _ _ _ _ _ (listener_init_inv g t0) Hs Hrun) as [Hp _ Hsz].
  split; [by eapply held_bound|done].
Qed.

(** Rate per source. In any window of a run, that is from time [a] reached
    after the events [before] to the end of [window], a source group is granted
    at most [65 + (end - a) / 83.334 ms] handshakes, and forgetting idle sources
    does not change this. *)
Theorem source_rate_bounded (before window : list ListenerEvent) (t0 a : Z) (l lf : Listener)
    (gs0 gs : list SourceGroup) (g : SourceGroup) :
  StronglySorted Z.le (t0 :: event_times before) -> run_end t0 before <= a ->
  StronglySorted Z.le (a :: event_times window) ->
  listener_run listener_init before = (l, gs0) -> listener_run l window = (lf, gs) ->
  grants_to g gs <= SOURCE_BURST + 1 + (run_end a window - a) / SOURCE_REFILL.
Proof.
  intros Hs0 Ha Hs H0 H1. pose proof (listener_run_inv g _ _ _ _ _ _ _ (listener_init_inv g t0) Hs0 H0) as [Hp Hr Hsz].
  apply (rate_later _ _ _ _ _ a), rate_restart in Hr; [|done].
  destruct (listener_run_inv g _ _ _ _ _ _ _ (Build_listener_inv g _ _ l a Hp Hr Hsz) Hs H1) as [_ Hf _].
  apply paid_bound in Hf. rates. Z.to_euclidean_division_equations; lia.
Qed.

(** ** Witnesses *)
Definition example_peer : IpAddr := V4 (mkIpv4 93 184 216 34).
Definition example_arrivals : list ListenerEvent :=
  [Arrive example_peer 0; Arrive example_peer 5; Leave 0; Tick 1000; Arrive example_peer 2000].

Lemma source_slots_bounded_witness :
  let '(l, gs) := listener_run listener_init example_arrivals in
  length gs = 3%nat /\ held_by (source_group example_peer) (ls_live l) <= SOURCE_SLOTS.
Proof.
  destruct (listener_run listener_init example_arrivals) as [l gs] eqn:E. split.
  - vm_compute in E. by simplify_eq.
  - refine (proj1 (source_slots_bounded example_arrivals 0 l gs (source_group example_peer) _ E)).
    repeat constructor; lia.
Defined.

Lemma source_rate_bounded_witness :
  let '(l, _) := listener_run listener_init (take 2 example_arrivals) in
  let '(_, gs) := listener_run l (drop 2 example_arrivals) in
  grants_to (source_group example_peer) gs <= 65.
Proof.
  destruct (listener_run listener_init (take 2 example_arrivals)) as [l gs0] eqn:E0.
  destruct (listener_run l (drop 2 example_arrivals)) as [lf gs] eqn:E1.
  refine (source_rate_bounded (take 2 example_arrivals) (drop 2 example_arrivals) 0 5 l lf gs0 gs
            (source_group example_peer) _ _ _ E0 E1); [repeat constructor; lia|done|repeat constructor; lia].
Defined.
