(* ===== verification/Consensus.v ===== *)
(** * Directory consensus (src/mesh/consensus.rs)

    Signed relay descriptors and the consensus document that several directory
    authorities sign: canonical bytes, digests, signing, quorum verification
    and the client-side merge of signatures. Signing and hashing are those of
    [Identity]; a [HashMap] is a [gmap], a [HashSet] a [gset]. *)
From S2P Require Import Prelude Text Net Identity.

(** ** Data *)
Definition MAX_DIRECTORY_RELAYS : Z := 512.

Record RelayDescriptor := mkRelayDescriptor {
  rd_node_id : bytes;
  rd_host : bytes;
  rd_port : Z;
  rd_onion_key_x25519 : bytes;
  rd_identity_pin : bytes;
  rd_is_exit : bool;
  rd_pow_nonce : Z;
  rd_registered_at : Z;
  rd_signature : bytes;
}.

Record AuthoritySignature := mkAuthoritySignature { as_authority_id : bytes; as_signature_bytes : bytes }.

Record ConsensusDocument := mkConsensusDocument {
  cd_valid_after : Z;
  cd_valid_until : Z;
  cd_relays : list RelayDescriptor;
  cd_signatures : list AuthoritySignature;
}.

#[global] Instance RelayDescriptor_eq_dec : EqDecision RelayDescriptor.
Proof. solve_decision. Defined.
#[global] Instance AuthoritySignature_eq_dec : EqDecision AuthoritySignature.
Proof. solve_decision. Defined.

Definition RelayDescriptor_new (node_id host : bytes) (port : Z) (onion_key pin : bytes) (is_exit : bool)
    (pow_nonce registered_at : Z) : RelayDescriptor :=
  mkRelayDescriptor node_id host port onion_key pin is_exit pow_nonce registered_at [].

Definition ConsensusDocument_new (valid_after valid_until : Z) (relays : list RelayDescriptor) : ConsensusDocument :=
  mkConsensusDocument valid_after valid_until relays [].

(** ** Descriptors *)

(** [(len as u32).to_be_bytes()] and the bytes: [as u32] keeps the low 32 bits. *)
Definition length_prefixed (b : bytes) : bytes := be_bytes 4 (Z.of_nat (length b)) ++ b.

(** The fields a signature covers, in the order both [compute_signing_bytes]
    and [compute_digest] feed them. *)
Definition descriptor_bytes (r : RelayDescriptor) : bytes :=
  length_prefixed (rd_node_id r) ++ length_prefixed (rd_host r) ++ be_bytes 2 (rd_port r)
  ++ rd_onion_key_x25519 r ++ rd_identity_pin r ++ [if rd_is_exit r then 1 else 0]
  ++ be_bytes 8 (rd_pow_nonce r) ++ be_bytes 8 (rd_registered_at r).

Definition compute_signing_bytes (r : RelayDescriptor) : bytes :=
  str "AnonGuard-RelayDescriptor-v6" ++ descriptor_bytes r.

Definition set_pin (r : RelayDescriptor) (pin : bytes) : RelayDescriptor :=
  mkRelayDescriptor (rd_node_id r) (rd_host r) (rd_port r) (rd_onion_key_x25519 r) pin (rd_is_exit r)
    (rd_pow_nonce r) (rd_registered_at r) (rd_signature r).

Definition set_signature (r : RelayDescriptor) (sig : bytes) : RelayDescriptor :=
  mkRelayDescriptor (rd_node_id r) (rd_host r) (rd_port r) (rd_onion_key_x25519 r) (rd_identity_pin r) (rd_is_exit r)
    (rd_pow_nonce r) (rd_registered_at r) sig.

(** [str::split(c)]. *)
Fixpoint split_on (c : Z) (l : bytes) : list bytes :=
  match l with
  | [] => [[]]
  | b :: rest =>
      if b =? c then [] :: split_on c rest
      else match split_on c rest with
           | p :: ps => (b :: p) :: ps
           | [] => [[b]]
           end
  end.

Definition is_lower (b : Z) : bool := in_range 97 122 b.
Definition is_upper (b : Z) : bool := in_range 65 90 b.
Definition is_digit (b : Z) : bool := in_range 48 57 b.

Definition valid_label (label : bytes) : bool :=
  negb (length label =? 0)%nat && (length label <=? 63)%nat
  && negb (bool_decide (head label = Some 45)) && negb (bool_decide (last label = Some 45))
  && forallb (fun b => is_lower b || is_digit b || (b =? 45)) label.

Definition valid_host (host : bytes) : bool :=
  match parse_ip host with
  | Some ip => bool_decide (display_ip ip = host)
  | None => forallb valid_label (split_on 46 host)
  end.

Definition valid_node_id (id : bytes) : bool :=
  negb (length id =? 0)%nat && (length id <=? 128)%nat
  && forallb (fun b => is_lower b || is_upper b || is_digit b || (b =? 45) || (b =? 95) || (b =? 46)) id.

(** The size cases of a descriptor's host and port. *)
Definition valid_endpoint (r : RelayDescriptor) : bool :=
  negb (length (rd_host r) =? 0)%nat && (length (rd_host r) <=? 253)%nat && negb (rd_port r =? 0).

Section Consensus.
Context `{IdentityPrimitives}.

(** [None] is the panic of signing an oversized message. *)
Definition sign_with_key (r : RelayDescriptor) (key : HybridSigningKey) : option RelayDescriptor :=
  let r := set_pin r (verifying_key key) in
  match identity_sign key (compute_signing_bytes r) with
  | Some sig => Some (set_signature r sig)
  | None => None
  end.

Definition verify_identity (r : RelayDescriptor) : bool :=
  if negb (valid_host (rd_host r)) then false
  else if negb (valid_node_id (rd_node_id r)) || negb (valid_endpoint r)
          || negb (length (rd_signature r) =? PROOF_SIZE)%nat then false
  else
    match VerifyingKey_from_bytes (rd_identity_pin r) with
    | Err _ => false
    | Ok pin => is_ok (verify_strict pin (compute_signing_bytes r) (rd_signature r))
    end.

(** ** Consensus documents *)

(** What [compute_digest] hashes. *)
Definition digest_input (d : ConsensusDocument) : bytes :=
  str "AnonGuard-Consensus-v6" ++ be_bytes 8 (cd_valid_after d) ++ be_bytes 8 (cd_valid_until d)
  ++ (sort_by rd_node_id (cd_relays d) ≫= descriptor_bytes).

Definition compute_digest (d : ConsensusDocument) : bytes := sha256 (digest_input d).

Definition with_signatures (d : ConsensusDocument) (sigs : list AuthoritySignature) : ConsensusDocument :=
  mkConsensusDocument (cd_valid_after d) (cd_valid_until d) (cd_relays d) sigs.

Definition sign_with_authority (d : ConsensusDocument) (id : bytes) (key : HybridSigningKey) : option ConsensusDocument :=
  match identity_sign key (compute_digest d) with
  | Some sig => Some (with_signatures d (cd_signatures d ++ [mkAuthoritySignature id sig]))
  | None => None
  end.

(** The locals of [verify_quorum]'s loop; its count is the number of verified
    authorities. *)
Record QuorumState := mkQuorumState {
  qs_valid_auth_count : Z;
  qs_verified_authorities : list bytes;
  qs_verified_keys : gset bytes;
  qs_classical_keys : gset bytes;
  qs_pq_keys : gset bytes;
}.

Definition quorum_init : QuorumState := mkQuorumState 0 [] ∅ ∅ ∅.

(** One iteration; [None] is [return false]. *)
Definition quorum_step (digest : bytes) (trusted : gmap bytes bytes) (st : QuorumState) (sig : AuthoritySignature)
    : option QuorumState :=
  if bool_decide (as_authority_id sig ∈ qs_verified_authorities st) then Some st
  else
    match trusted !! as_authority_id sig, Signature_from_slice (as_signature_bytes sig) with
    | Some pubkey, Ok signature =>
        if is_ok (verify_strict pubkey digest signature) && negb (bool_decide (pubkey ∈ qs_verified_keys st)) then
          match component_pins signature with
          | Err _ => None
          | Ok (classical, pq) =>
              if bool_decide (classical ∈ qs_classical_keys st) || bool_decide (pq ∈ qs_pq_keys st) then None
              else Some (mkQuorumState (qs_valid_auth_count st + 1)
                     (qs_verified_authorities st ++ [as_authority_id sig])
                     ({[pubkey]} ∪ qs_verified_keys st) ({[classical]} ∪ qs_classical_keys st) ({[pq]} ∪ qs_pq_keys st))
          end
        else Some st
    | _, _ => Some st
    end.

Fixpoint quorum_loop (digest : bytes) (trusted : gmap bytes bytes) (st : QuorumState) (sigs : list AuthoritySignature)
    : option QuorumState :=
  match sigs with
  | [] => Some st
  | sig :: rest =>
      match quorum_step digest trusted st sig with
      | Some st => quorum_loop digest trusted st rest
      | None => None
      end
  end.

Definition verify_quorum (d : ConsensusDocument) (trusted : gmap bytes bytes) (quorum_threshold current_time : Z) : bool :=
  if (quorum_threshold =? 0) || (cd_valid_until d <=? cd_valid_after d) then false
  else if (current_time <? cd_valid_after d) || (cd_valid_until d <=? current_time) then false
  else
    match quorum_loop (compute_digest d) trusted quorum_init (cd_signatures d) with
    | None => false
    | Some st => quorum_threshold <=? qs_valid_auth_count st
    end.

Definition merge_signatures_from (self other : ConsensusDocument) : ConsensusDocument * Z :=
  if negb (bool_decide (compute_digest self = compute_digest other)) then (self, 0)
  else
    let existing : gset bytes := list_to_set (as_authority_id <$> cd_signatures self) in
    let new := filter (fun s => as_authority_id s ∉ existing) (cd_signatures other) in
    (with_signatures self (cd_signatures self ++ new), Z.of_nat (length new)).
End Consensus.

(** ** Canonical bytes *)
Record descriptor_wf (r : RelayDescriptor) : Prop := {
  dw_node_id : Z.of_nat (length (rd_node_id r)) <= u32_MAX;
  dw_host : Z.of_nat (length (rd_host r)) <= u32_MAX;
  dw_port : is_u16 (rd_port r);
  dw_onion : length (rd_onion_key_x25519 r) = 32%nat;
  dw_pin : length (rd_identity_pin r) = 32%nat;
  dw_nonce : is_u64 (rd_pow_nonce r);
  dw_registered : is_u64 (rd_registered_at r);
}.

(** A descriptor without its signature. *)
Definition unsigned (r : RelayDescriptor) : RelayDescriptor := set_signature r [].

Lemma be_bytes_app_inj n x y a b :
  0 <= x < 256 ^ Z.of_nat n -> 0 <= y < 256 ^ Z.of_nat n -> be_bytes n x ++ a = be_bytes n y ++ b -> x = y /\ a = b.
Proof.
  intros Hx Hy E. apply app_inj_1 in E as [E ->]; [|by rewrite !be_bytes_length]. split; [|done].
  by eapply be_bytes_inj.
Qed.

Lemma length_prefixed_inj a b x y :
  Z.of_nat (length a) <= u32_MAX -> Z.of_nat (length b) <= u32_MAX ->
  length_prefixed a ++ x = length_prefixed b ++ y -> a = b /\ x = y.
Proof.
  unfold length_prefixed, u32_MAX. intros Ha Hb E. rewrite <- !app_assoc in E.
  apply be_bytes_app_inj in E as [E1 E2]; [|change (256 ^ Z.of_nat 4) with 4294967296; lia..].
  apply app_inj_1 in E2; [done|lia].
Qed.

Lemma flag_app_inj (a b : bool) (x y : bytes) :
  [if a then 1 else 0] ++ x = [if b then 1 else 0] ++ y -> a = b /\ x = y.
Proof. intros [= E ->]. by destruct a, b. Qed.

(** The bytes of a descriptor delimit themselves and determine every field
    but the signature. *)
Lemma descriptor_bytes_inj r1 r2 x y :
  descriptor_wf r1 -> descriptor_wf r2 ->
  descriptor_bytes r1 ++ x = descriptor_bytes r2 ++ y -> unsigned r1 = unsigned r2 /\ x = y.
Proof.
  intros [H1 H2 H3 H4 H5 H6 H7] [K1 K2 K3 K4 K5 K6 K7] E. unfold descriptor_bytes in E. rewrite <- !app_assoc in E.
  assert (Hw : forall n v, is_u64 v -> n = 8%nat -> 0 <= v < 256 ^ Z.of_nat n).
  { intros ? v Hv ->. change (256 ^ Z.of_nat 8) with 18446744073709551616. unfold_ints. lia. }
  apply length_prefixed_inj in E as [E1 E]; [|done..].
  apply length_prefixed_inj in E as [E2 E]; [|done..].
  apply be_bytes_app_inj in E as [E3 E]; [|change (256 ^ Z.of_nat 2) with 65536; unfold_ints; lia..].
  apply app_inj_1 in E as [E4 E]; [|congruence]. apply app_inj_1 in E as [E5 E]; [|congruence].
  apply flag_app_inj in E as [E6 E].
  apply be_bytes_app_inj in E as [E7 E]; [|by apply Hw..].
  apply be_bytes_app_inj in E as [E8 E]; [|by apply Hw..].
  split; [|done]. unfold unsigned, set_signature. by f_equal.
Qed.

Lemma descriptor_bytes_length r : (4 <= length (descriptor_bytes r))%nat.
Proof. unfold descriptor_bytes, length_prefixed. rewrite !length_app, be_bytes_length. lia. Qed.

Lemma descriptors_bytes_inj l1 l2 :
  Forall descriptor_wf l1 -> Forall descriptor_wf l2 ->
  l1 ≫= descriptor_bytes = l2 ≫= descriptor_bytes -> unsigned <$> l1 = unsigned <$> l2.
Proof.
  intros H1. revert l2. induction H1 as [|r1 l1 Hr1 _ IH]; intros l2 H2 E; destruct H2 as [|r2 l2 Hr2 H2];
    rewrite ?bind_cons in E.
  - done.
  - apply (f_equal length) in E. rewrite length_app in E. pose proof (descriptor_bytes_length r2). cbn in E. lia.
  - apply (f_equal length) in E. rewrite length_app in E. pose proof (descriptor_bytes_length r1). cbn in E. lia.
  - apply descriptor_bytes_inj in E as [E1 E2]; [|done..]. rewrite !fmap_cons, E1. f_equal. by apply IH.
Qed.

Lemma descriptor_bytes_unsigned r : descriptor_bytes (unsigned r) = descriptor_bytes r.
Proof. by destruct r. Qed.

Lemma bind_unsigned l : (unsigned <$> l) ≫= descriptor_bytes = l ≫= descriptor_bytes.
Proof.
  induction l as [|r l IH]; [done|]. by rewrite fmap_cons, !bind_cons, IH, descriptor_bytes_unsigned.
Qed.

Lemma insert_by_unsigned r l : unsigned <$> insert_by rd_node_id r l = insert_by rd_node_id (unsigned r) (unsigned <$> l).
Proof. induction l as [|r' l IH]; cbn; [done|]. case_match; cbn; [done|by rewrite IH]. Qed.

Lemma sort_by_unsigned l : unsigned <$> sort_by rd_node_id l = sort_by rd_node_id (unsigned <$> l).
Proof.
  induction l as [|r l IH]; [done|].
  change (sort_by rd_node_id (r :: l)) with (insert_by rd_node_id r (sort_by rd_node_id l)).
  by rewrite insert_by_unsigned, IH.
Qed.

Lemma node_id_unsigned (l : list RelayDescriptor) : rd_node_id <$> (unsigned <$> l) = rd_node_id <$> l.
Proof. rewrite <- list_fmap_compose. by apply list_fmap_ext. Qed.

(** What a digest covers: the validity window and the relays, as a set of
    unsigned descriptors. *)
Definition same_content (d1 d2 : ConsensusDocument) : Prop :=
  cd_valid_after d1 = cd_valid_after d2 /\ cd_valid_until d1 = cd_valid_until d2 /\
  unsigned <$> cd_relays d1 ≡ₚ unsigned <$> cd_relays d2.

Record document_wf (d : ConsensusDocument) : Prop := {
  cw_after : is_u64 (cd_valid_after d);
  cw_until : is_u64 (cd_valid_until d);
  cw_relays : Forall descriptor_wf (cd_relays d);
}.

Lemma digest_input_inj d1 d2 :
  document_wf d1 -> document_wf d2 -> digest_input d1 = digest_input d2 -> same_content d1 d2.
Proof.
  intros [A1 U1 R1] [A2 U2 R2] E. unfold digest_input in E. apply app_inv_head in E.
  assert (Hw : forall v, is_u64 v -> 0 <= v < 256 ^ Z.of_nat 8).
  { intros v. change (256 ^ Z.of_nat 8) with 18446744073709551616. unfold_ints. lia. }
  apply be_bytes_app_inj in E as [E1 E]; [|by apply Hw..].
  apply be_bytes_app_inj in E as [E2 E]; [|by apply Hw..].
  apply descriptors_bytes_inj in E; [|by rewrite sort_by_perm..].
  split_and!; [done..|]. by rewrite <- (sort_by_perm rd_node_id (cd_relays d1)), E, sort_by_perm.
Qed.

Lemma digest_input_content d1 d2 :
  NoDup (rd_node_id <$> cd_relays d1) -> same_content d1 d2 -> digest_input d1 = digest_input d2.
Proof.
  intros Hnd (E1 & E2 & Hp). unfold digest_input. rewrite E1, E2. do 3 f_equal.
  rewrite <- (bind_unsigned (sort_by _ (cd_relays d1))), <- (bind_unsigned (sort_by _ (cd_relays d2))), !sort_by_unsigned.
  f_equal. apply sort_by_canonical; [by rewrite node_id_unsigned|done].
Qed.

(** ** Quorums *)
Record Vote := mkVote { v_sig : AuthoritySignature; v_key : bytes; v_classical : bytes; v_pq : bytes }.
Definition v_id (v : Vote) : bytes := as_authority_id (v_sig v).

(** Votes of different authorities that share no identity component. *)
Record distinct_votes (votes : list Vote) : Prop := {
  dv_ids : NoDup (v_id <$> votes);
  dv_keys : NoDup (v_key <$> votes);
  dv_classical : NoDup (v_classical <$> votes);
  dv_pq : NoDup (v_pq <$> votes);
}.

Lemma distinct_app votes v :
  distinct_votes (votes ++ [v]) <->
  distinct_votes votes /\ (v_id v ∉ v_id <$> votes) /\ (v_key v ∉ v_key <$> votes) /\
  (v_classical v ∉ v_classical <$> votes) /\ (v_pq v ∉ v_pq <$> votes).
Proof.
  assert (Hone : forall {A} (f : Vote -> A), NoDup (f <$> (votes ++ [v])) <-> NoDup (f <$> votes) /\ (f v ∉ f <$> votes)).
  { intros A f. rewrite fmap_app, NoDup_app. cbn. split.
    - intros (H1 & H2 & _). split; [done|]. intros Hin. apply (H2 _ Hin). by left.
    - intros [H1 H2]. split_and!; [done| |apply NoDup_singleton]. intros x Hx ->%list_elem_of_singleton. done. }
  split.
  - intros [H1 H2 H3 H4]. rewrite Hone in H1, H2, H3, H4. destruct H1, H2, H3, H4. done.
  - intros ([] & ? & ? & ? & ?). split; by rewrite Hone.
Qed.

Lemma distinct_prefix votes votes' : distinct_votes (votes ++ votes') -> distinct_votes votes.
Proof.
  intros [H1 H2 H3 H4]. rewrite !fmap_app, !NoDup_app in *. split; tauto.
Qed.

Section Quorum.
Context `{IdentityPrimitives}.

Definition valid_vote (digest : bytes) (trusted : gmap bytes bytes) (v : Vote) : Prop :=
  trusted !! v_id v = Some (v_key v) /\
  length (as_signature_bytes (v_sig v)) = PROOF_SIZE /\
  verify_strict (v_key v) digest (as_signature_bytes (v_sig v)) = Ok tt /\
  component_pins (as_signature_bytes (v_sig v)) = Ok (v_classical v, v_pq v).

(** The vote a signature of the document amounts to, if any. *)
Definition vote_of (digest : bytes) (trusted : gmap bytes bytes) (sig : AuthoritySignature) : option Vote :=
  match trusted !! as_authority_id sig with
  | Some key =>
      if bool_decide (length (as_signature_bytes sig) = PROOF_SIZE)
         && is_ok (verify_strict key digest (as_signature_bytes sig)) then
        match component_pins (as_signature_bytes sig) with
        | Ok (classical, pq) => Some (mkVote sig key classical pq)
        | Err _ => None
        end
      else None
  | None => None
  end.

Lemma vote_of_spec digest trusted sig v :
  vote_of digest trusted sig = Some v <-> v_sig v = sig /\ valid_vote digest trusted v.
Proof.
  unfold vote_of, valid_vote, v_id. split.
  - intros Hv. destruct (trusted !! _) as [key|] eqn:Ek; [|done]. case_bool_decide as El; [|done].
    destruct (verify_strict _ _ _) as [[]|] eqn:Ev; [|done]. destruct (component_pins _) as [[c p]|] eqn:Ec; [|done].
    cbn in Hv. simplify_eq. cbn. done.
  - intros (<- & -> & El & Ev & Ec). rewrite bool_decide_true, Ev, Ec by done. by destruct v.
Qed.

(** A verified proof always has component pins, so that the loop's early
    return is taken only on an aliased component. *)
Lemma verified_has_pins key digest sig :
  verify_strict key digest sig = Ok tt -> exists c p, component_pins sig = Ok (c, p).
Proof.
  unfold verify_strict, component_pins. destruct (signature_public_key sig) as [k|]; [|done]. eauto.
Qed.

(** The loop's locals after counting [votes]. *)
Definition counted (votes : list Vote) : QuorumState :=
  mkQuorumState (Z.of_nat (length votes)) (v_id <$> votes)
    (list_to_set (v_key <$> votes)) (list_to_set (v_classical <$> votes)) (list_to_set (v_pq <$> votes)).

Lemma counted_app votes v :
  counted (votes ++ [v]) =
  mkQuorumState (qs_valid_auth_count (counted votes) + 1) (qs_verified_authorities (counted votes) ++ [v_id v])
    ({[v_key v]} ∪ qs_verified_keys (counted votes)) ({[v_classical v]} ∪ qs_classical_keys (counted votes))
    ({[v_pq v]} ∪ qs_pq_keys (counted votes)).
Proof.
  unfold counted; cbn. rewrite length_app, !fmap_app, !list_to_set_app_L. cbn.
  f_equal; [lia|rewrite union_empty_r_L; apply (comm_L _)..].
Qed.

Lemma quorum_step_spec digest trusted votes sig :
  match quorum_step digest trusted (counted votes) sig with
  | Some st' => st' = counted votes \/
      exists v, vote_of digest trusted sig = Some v /\ st' = counted (votes ++ [v]) /\
        (distinct_votes votes -> distinct_votes (votes ++ [v]))
  | None => exists v, vote_of digest trusted sig = Some v /\ ~ distinct_votes (votes ++ [v])
  end.
Proof.
  unfold quorum_step. case_bool_decide as Hid; [by left|]. cbn in Hid.
  destruct (trusted !! as_authority_id sig) as [key|] eqn:Ek; [|by left].
  unfold Signature_from_slice. destruct (Nat.eqb_spec (length (as_signature_bytes sig)) PROOF_SIZE) as [El|]; [|by left].
  cbn [negb]. destruct (verify_strict key digest _) as [[]|] eqn:Ev; [|by left]. cbn [is_ok andb].
  case_bool_decide as Hkey; [by left|]. cbn [negb].
  destruct (verified_has_pins _ _ _ Ev) as (c & p & Ec). rewrite Ec.
  assert (Hv : vote_of digest trusted sig = Some (mkVote sig key c p)).
  { apply vote_of_spec. unfold valid_vote, v_id. cbn. done. }
  destruct (bool_decide (c ∈ _) || _) eqn:Ealias.
  - eexists. split; [exact Hv|]. intros Hd. apply distinct_app in Hd as (_ & _ & _ & Hc & Hp).
    cbn in Hc, Hp. apply orb_true_iff in Ealias as [E|E]; reflect_bools; cbn in E; by apply elem_of_list_to_set in E.
  - right. eexists. split; [exact Hv|]. rewrite counted_app. split; [done|]. intros Hd. apply distinct_app.
    reflect_bools. cbn in *. rewrite elem_of_list_to_set in *. done.
Qed.

Lemma quorum_loop_sound digest trusted votes sigs st :
  distinct_votes votes -> quorum_loop digest trusted (counted votes) sigs = Some st ->
  exists new, st = counted (votes ++ new) /\ distinct_votes (votes ++ new) /\
    Forall (fun v => v_sig v ∈ sigs /\ valid_vote digest trusted v) new.
Proof.
  revert votes. induction sigs as [|sig sigs IH]; intros votes Hd Hl; cbn in Hl.
  { exists []. simplify_eq. by rewrite app_nil_r. }
  pose proof (quorum_step_spec digest trusted votes sig) as Hs.
  destruct (quorum_step _ _ _ _) as [st'|]; [|done]. destruct Hs as [->|(v & Hv & -> & Hd')].
  - destruct (IH votes Hd Hl) as (new & -> & Hdn & Hf). exists new. split_and!; [done..|].
    eapply Forall_impl; [exact Hf|]. cbn. intros v [Hin ?]. split; [by right|done].
  - destruct (IH _ (Hd' Hd) Hl) as (new & -> & Hdn & Hf). exists (v :: new).
    rewrite <- app_assoc in Hdn. cbn in Hdn. rewrite <- app_assoc. split_and!; [done..|].
    apply vote_of_spec in Hv as [Hsig Hval]. constructor; [split; [rewrite Hsig; by left|done]|].
    eapply Forall_impl; [exact Hf|]. cbn. intros w [Hin ?]. split; [by right|done].
Qed.

(** Distinct votes are all counted. *)
Lemma quorum_loop_complete digest trusted votes sigs :
  distinct_votes (votes ++ omap (vote_of digest trusted) sigs) ->
  quorum_loop digest trusted (counted votes) sigs = Some (counted (votes ++ omap (vote_of digest trusted) sigs)).
Proof.
  revert votes. induction sigs as [|sig sigs IH]; intros votes Hd; cbn.
  { by rewrite app_nil_r. }
  cbn in Hd. pose proof (quorum_step_spec digest trusted votes sig) as Hs.
  destruct (vote_of digest trusted sig) as [v|] eqn:Ev.
  - assert (Hd' : distinct_votes (votes ++ [v])).
    { eapply distinct_prefix. rewrite <- app_assoc. exact Hd. }
    assert (Hstep : quorum_step digest trusted (counted votes) sig = Some (counted (votes ++ [v]))).
    { apply vote_of_spec in Ev as [Hsig (Hk & Hlen & Hver & Hpins)]. unfold v_id in *. rewrite Hsig in *.
      apply distinct_app in Hd' as (_ & H1 & H2 & H3 & H4). unfold v_id in H1. rewrite Hsig in H1.
      rewrite counted_app. unfold quorum_step, v_id. cbn [counted qs_verified_authorities qs_verified_keys qs_classical_keys qs_pq_keys qs_valid_auth_count].
      rewrite Hsig, bool_decide_false, Hk by done. unfold Signature_from_slice. rewrite Hlen, Nat.eqb_refl. cbn [negb].
      rewrite Hver, Hpins. rewrite !bool_decide_false by (rewrite elem_of_list_to_set; done). done. }
    rewrite Hstep. replace (votes ++ v :: omap (vote_of digest trusted) sigs)
      with ((votes ++ [v]) ++ omap (vote_of digest trusted) sigs) in * by (by rewrite <- app_assoc).
    by apply IH.
  - destruct (quorum_step _ _ _ _) as [st'|].
    + destruct Hs as [->|(v & Hv & _)]; [by apply IH|done].
    + by destruct Hs as (v & Hv & _).
Qed.

Lemma counted_nil : counted [] = quorum_init.
Proof. done. Qed.

Lemma verify_quorum_votes d trusted q now :
  verify_quorum d trusted q now = true ->
  q <> 0 /\ cd_valid_after d <= now < cd_valid_until d /\
  exists votes, distinct_votes votes /\ q <= Z.of_nat (length votes) /\
    Forall (fun v => v_sig v ∈ cd_signatures d /\ valid_vote (compute_digest d) trusted v) votes.
Proof.
  unfold verify_quorum. intros Hq. destruct (_ || _) eqn:E1 in Hq; [done|]. destruct (_ || _) eqn:E2 in Hq; [done|].
  rewrite <- counted_nil in Hq.
  destruct (quorum_loop _ _ _ _) as [st|] eqn:El; [|done]. reflect_bools. split; [done|]. split; [lia|].
  apply quorum_loop_sound in El as (votes & -> & Hd & Hf); [|by split; constructor].
  exists votes. done.
Qed.

Lemma votes_in_trusted digest trusted votes :
  distinct_votes votes -> Forall (valid_vote digest trusted) votes ->
  (list_to_set (v_id <$> votes) : gset bytes) ⊆ dom trusted /\
  size (list_to_set (v_id <$> votes) : gset bytes) = length votes.
Proof.
  intros [Hd _ _ _] Hf. split.
  - intros x. rewrite elem_of_list_to_set, list_elem_of_fmap. intros (v & -> & Hv).
    rewrite Forall_forall in Hf. destruct (Hf _ Hv) as [Hk _]. by apply elem_of_dom_2 in Hk.
  - by rewrite size_list_to_set, length_fmap.
Qed.

Lemma votes_intersection digest1 digest2 trusted votes1 votes2 q :
  distinct_votes votes1 -> Forall (valid_vote digest1 trusted) votes1 -> q <= Z.of_nat (length votes1) ->
  distinct_votes votes2 -> Forall (valid_vote digest2 trusted) votes2 -> q <= Z.of_nat (length votes2) ->
  exists both : gset bytes, 2 * q - Z.of_nat (size trusted) <= Z.of_nat (size both) /\
    (2 * Z.of_nat (size trusted) / 3 < q -> Z.of_nat (size trusted) < 3 * Z.of_nat (size both)) /\
    forall id, id ∈ both -> exists v1 v2, v_id v1 = id /\ v_id v2 = id /\
      valid_vote digest1 trusted v1 /\ valid_vote digest2 trusted v2.
Proof.
  intros Hd1 Hv1 Hq1 Hd2 Hv2 Hq2.
  destruct (votes_in_trusted _ _ _ Hd1 Hv1) as [Hsub1 Hsz1]. destruct (votes_in_trusted _ _ _ Hd2 Hv2) as [Hsub2 Hsz2].
  set (A := list_to_set (v_id <$> votes1) : gset bytes) in *. set (B := list_to_set (v_id <$> votes2) : gset bytes) in *.
  assert (Hcount : Z.of_nat (size A) + Z.of_nat (size B) <= Z.of_nat (size trusted) + Z.of_nat (size (A ∩ B))).
  { rewrite <- (size_dom trusted). pose proof (subseteq_size (A ∪ B) (dom trusted) ltac:(by apply union_least)) as Hu.
    rewrite size_union_alt in Hu. pose proof (size_difference_alt B A). rewrite (intersection_comm_L A B). lia. }
  exists (A ∩ B). split; [lia|]. split; [Z.to_euclidean_division_equations; lia|].
  intros id [HA HB]%elem_of_intersection. unfold A, B in HA, HB.
  rewrite elem_of_list_to_set in HA, HB. apply list_elem_of_fmap in HA as (v1 & -> & Hin1), HB as (v2 & E2 & Hin2).
  rewrite Forall_forall in Hv1, Hv2. exists v1, v2. split_and!; [done|done|by apply Hv1|by apply Hv2].
Qed.

Lemma merge_signatures d sigs d' :
  compute_digest d = compute_digest d' -> cd_signatures d = sigs ->
  (forall s, s ∈ cd_signatures d' -> as_authority_id s ∉ as_authority_id <$> sigs) ->
  (merge_signatures_from d d').1 = with_signatures d (sigs ++ cd_signatures d').
Proof.
  intros Hd <- Hs. unfold merge_signatures_from. rewrite bool_decide_true by done. cbn. do 2 f_equal.
  induction (cd_signatures d') as [|s l IH]; [done|].
  rewrite filter_cons_True, IH; [done| |].
  - intros s' Hin. apply Hs. by right.
  - rewrite elem_of_list_to_set. apply Hs. by left.
Qed.
End Quorum.

(** ** Aggregation *)
Section Aggregation.
Context `{IdentityPrimitives} `{!IdentityLaws}.

(** Authority [s.1] with key [s.2] signed its own copy of the content of [d]. *)
Definition signed_copy (d : ConsensusDocument) (s : bytes * HybridSigningKey) (doc : ConsensusDocument) : Prop :=
  exists base, cd_signatures base = [] /\ same_content d base /\ sign_with_authority base s.1 s.2 = Some doc.

(** What the client does with the documents it fetched. *)
Definition merge_all (first : ConsensusDocument) (rest : list ConsensusDocument) : ConsensusDocument :=
  foldl (fun acc doc => (merge_signatures_from acc doc).1) first rest.

Record authorities_wf (trusted : gmap bytes bytes) (signers : list (bytes * HybridSigningKey)) : Prop := {
  aw_trusted : Forall (fun s => trusted !! s.1 = Some (verifying_key s.2)) signers;
  aw_ids : NoDup signers.*1;
  aw_pins : NoDup (verifying_key <$> signers.*2);
  aw_classical : NoDup ((fun k => ed_public (classical_seed k)) <$> signers.*2);
  aw_pq : NoDup ((fun k => sha256 (pq_public (post_quantum_seed k))) <$> signers.*2);
}.

Lemma signed_copy_inv d s doc :
  NoDup (rd_node_id <$> cd_relays d) -> signed_copy d s doc ->
  exists sig, identity_sign s.2 (compute_digest d) = Some sig /\ cd_signatures doc = [mkAuthoritySignature s.1 sig] /\
    compute_digest doc = compute_digest d /\ same_content d doc.
Proof.
  intros Hnd (base & Hb & Hc & Hs). unfold sign_with_authority in Hs.
  assert (Hdig : compute_digest base = compute_digest d).
  { unfold compute_digest. f_equal. symmetry. by apply digest_input_content. }
  rewrite Hdig in Hs. destruct (identity_sign s.2 _) as [sig|] eqn:Es; simplify_eq. exists sig.
  rewrite Hb. cbn. done.
Qed.

(** The signatures of the copies, in order. *)
Lemma merge_all_signatures d signers docs first sigs :
  NoDup (rd_node_id <$> cd_relays d) -> Forall2 (signed_copy d) signers docs ->
  compute_digest first = compute_digest d -> cd_signatures first = sigs ->
  NoDup ((as_authority_id <$> sigs) ++ signers.*1) ->
  exists new, merge_all first docs = with_signatures first (sigs ++ new) /\
    Forall2 (fun s sig => as_authority_id sig = s.1 /\ identity_sign s.2 (compute_digest d) = Some (as_signature_bytes sig))
      signers new.
Proof.
  intros Hnd Hdocs. revert first sigs. induction Hdocs as [|s doc signers docs Hs _ IH]; intros first sigs Hdig Hsig Hids.
  { exists []. cbn. rewrite app_nil_r. split; [|constructor]. subst. by destruct first. }
  destruct (signed_copy_inv _ _ _ Hnd Hs) as (sig & Hsign & Hdoc & Hddoc & _). cbn in Hids. cbn [merge_all foldl].
  rewrite (merge_signatures _ sigs); [|congruence|done|].
  2:{ intros s'. rewrite Hdoc, list_elem_of_singleton. intros -> Hin. cbn in Hin. apply NoDup_app in Hids as (_ & Hx & _).
      apply (Hx _ Hin). by left. }
  rewrite Hdoc. destruct (IH (with_signatures first (sigs ++ [mkAuthoritySignature s.1 sig])) (sigs ++ [mkAuthoritySignature s.1 sig]))
    as (new & Hm & Hnew); [done|done| |].
  { rewrite fmap_app, <- app_assoc. exact Hids. }
  exists (mkAuthoritySignature s.1 sig :: new). split.
  - unfold merge_all in Hm. rewrite Hm. unfold with_signatures. cbn. by rewrite <- app_assoc.
  - constructor; done.
Qed.

(** Honest signatures of distinct authorities are distinct valid votes. *)
Lemma honest_votes digest trusted signers sigs :
  authorities_wf trusted signers ->
  Forall2 (fun s sig => as_authority_id sig = s.1 /\ identity_sign s.2 digest = Some (as_signature_bytes sig)) signers sigs ->
  distinct_votes (omap (vote_of digest trusted) sigs) /\
  length (omap (vote_of digest trusted) sigs) = length signers.
Proof.
  intros [Ht H1 H2 H3 H4] Hs.
  set (vote := fun (p : (bytes * HybridSigningKey) * AuthoritySignature) =>
         mkVote p.2 (verifying_key p.1.2) (ed_public (classical_seed p.1.2)) (sha256 (pq_public (post_quantum_seed p.1.2)))).
  assert (Hv : omap (vote_of digest trusted) sigs = vote <$> zip signers sigs).
  { clear H1 H2 H3 H4. induction Hs as [|s sig signers sigs [Hid Hsg] Hs IH]; [done|].
    apply Forall_cons in Ht as [Hts Ht]. cbn. rewrite (IH Ht).
    destruct (identity_sign_verifies _ _ _ Hsg) as [Hl Hver]. pose proof (component_pins_sign _ _ _ Hsg) as Hpins.
    assert (vote_of digest trusted sig = Some (vote (s, sig))) as ->; [|done].
    apply vote_of_spec. unfold valid_vote, v_id. cbn. rewrite Hid. done. }
  assert (Hlen : length signers = length sigs) by (by eapply Forall2_length).
  rewrite Hv. split; [|rewrite length_fmap, length_zip_with; lia].
  assert (Hz : (zip signers sigs).*1 = signers) by (apply fst_zip; lia).
  assert (Hids : v_id <$> (vote <$> zip signers sigs) = signers.*1).
  { clear -Hs. induction Hs as [|s sig signers sigs [Hid _] _ IH]; [done|]. cbn. rewrite IH. unfold v_id. cbn. by rewrite Hid. }
  assert (Hf : forall {A} (f : HybridSigningKey -> A), (fun p => f p.1.2) <$> zip signers sigs = f <$> signers.*2).
  { intros A f. rewrite <- Hz at 2. by rewrite <- !list_fmap_compose. }
  split; [by rewrite Hids|..]; rewrite <- list_fmap_compose.
  - by rewrite <- Hf in H2.
  - by rewrite <- Hf in H3.
  - by rewrite <- Hf in H4.
Qed.

Lemma merge_verified (d first : ConsensusDocument) (rest : list ConsensusDocument)
    (signers : list (bytes * HybridSigningKey)) (trusted : gmap bytes bytes) (q now : Z) :
  NoDup (rd_node_id <$> cd_relays d) -> authorities_wf trusted signers ->
  Forall2 (signed_copy d) signers (first :: rest) ->
  cd_valid_after d <= now < cd_valid_until d -> 0 < q <= Z.of_nat (length signers) ->
  verify_quorum (merge_all first rest) trusted q now = true.
Proof.
  intros Hnd Haw Hcopies Hwin Hq. destruct signers as [|s signers]; [by inversion Hcopies|].
  apply Forall2_cons in Hcopies as [Hfirst Hrest].
  destruct (signed_copy_inv _ _ _ Hnd Hfirst) as (sig & Hsign & Hsigs & Hdig & (Ha & Hu & _)).
  destruct (merge_all_signatures d signers rest first [mkAuthoritySignature s.1 sig]) as (new & Hm & Hnew);
    [done|done|done|done|apply (aw_ids _ _ Haw)|].
  destruct (honest_votes (compute_digest d) trusted (s :: signers) (mkAuthoritySignature s.1 sig :: new) Haw)
    as [Hdist Hlen]; [by constructor|].
  rewrite Hm. unfold verify_quorum. cbn [with_signatures cd_valid_after cd_valid_until cd_signatures].
  assert (Hd' : compute_digest (with_signatures first ([mkAuthoritySignature s.1 sig] ++ new)) = compute_digest d) by done.
  rewrite Hd', <- Ha, <- Hu, <- counted_nil.
  rewrite (proj2 (orb_false_iff _ _)); [|split; [apply Z.eqb_neq|apply Z.leb_gt]; lia].
  rewrite (proj2 (orb_false_iff _ _)); [|split; [apply Z.ltb_ge|apply Z.leb_gt]; lia].
  rewrite quorum_loop_complete by exact Hdist. cbn [app counted qs_valid_auth_count]. apply Z.leb_le.
  cbn [app] in Hlen. rewrite Hlen. lia.
Qed.
(** A descriptor signed with a key verifies when its fields are valid. *)
Lemma signed_descriptor_verifies (r r' : RelayDescriptor) (key : HybridSigningKey) :
  verifying_key key <> replicate 32 0 -> sign_with_key r key = Some r' ->
  verify_identity r' = valid_host (rd_host r) && valid_node_id (rd_node_id r) && valid_endpoint r.
Proof.
  intros Hz Hs. unfold sign_with_key in Hs.
  destruct (identity_sign key _) as [sig|] eqn:Es; [|discriminate Hs]. apply Some_inj' in Hs as <-.
  destruct (identity_sign_verifies _ _ _ Es) as [Hl Hv]. unfold verify_identity.
  change (rd_host (set_signature _ _)) with (rd_host r). change (rd_node_id (set_signature _ _)) with (rd_node_id r).
  change (valid_endpoint (set_signature _ _)) with (valid_endpoint r).
  cbn [rd_signature set_signature set_pin rd_identity_pin]. rewrite Hl, Nat.eqb_refl, orb_false_r.
  unfold VerifyingKey_from_bytes. rewrite bool_decide_false by done.
  change (compute_signing_bytes (set_signature (set_pin r (verifying_key key)) sig))
    with (compute_signing_bytes (set_pin r (verifying_key key))).
  rewrite Hv. by destruct (valid_host _), (valid_node_id _), (valid_endpoint _).
Qed.
End Aggregation.

(** ** Properties *)
Section Properties.
Context `{IdentityPrimitives}.

(** A consensus digest binds the content. Two well-formed documents hash
    the same byte string only if they have the same validity window and the
    same relays in every signed field, and documents that list the same relays
    in any order hash the same byte string. *)
Theorem consensus_digest_binds (d1 d2 : ConsensusDocument) :
  document_wf d1 -> document_wf d2 -> NoDup (rd_node_id <$> cd_relays d1) ->
  digest_input d1 = digest_input d2 <-> same_content d1 d2.
Proof. intros H1 H2 Hnd. split; [by apply digest_input_inj|by apply digest_input_content]. Qed.

(** A verified quorum is one. If a document passes [verify_quorum], the
    clock is inside its validity window and it carries signatures over its own
    digest, valid under the pinned keys, of at least the threshold many
    authorities, no two of which share an id, a pin, a classical key or a
    post-quantum key. *)
Theorem verify_quorum_sound (d : ConsensusDocument) (trusted : gmap bytes bytes) (q now : Z) :
  verify_quorum d trusted q now = true ->
  q <> 0 /\ cd_valid_after d <= now < cd_valid_until d /\
  exists votes, distinct_votes votes /\ q <= Z.of_nat (length votes) /\
    Forall (fun v => v_sig v ∈ cd_signatures d /\ valid_vote (compute_digest d) trusted v) votes.
Proof. apply verify_quorum_votes. Qed.

(** No fork without equivocation. If two documents both pass with quorum
    [q] among [n] pinned authorities, at least [2q - n] authorities validly
    signed both digests; with the required quorum of more than two thirds that
    is more than a third of them. *)
Theorem quorum_intersection (d1 d2 : ConsensusDocument) (trusted : gmap bytes bytes) (q t1 t2 : Z) :
  verify_quorum d1 trusted q t1 = true -> verify_quorum d2 trusted q t2 = true ->
  exists both : gset bytes, 2 * q - Z.of_nat (size trusted) <= Z.of_nat (size both) /\
    (2 * Z.of_nat (size trusted) / 3 < q -> Z.of_nat (size trusted) < 3 * Z.of_nat (size both)) /\
    forall id, id ∈ both -> exists v1 v2, v_id v1 = id /\ v_id v2 = id /\
      valid_vote (compute_digest d1) trusted v1 /\ valid_vote (compute_digest d2) trusted v2.
Proof.
  intros H1 H2. apply verify_quorum_votes in H1 as (_ & _ & votes1 & Hd1 & Hq1 & Hf1).
  apply verify_quorum_votes in H2 as (_ & _ & votes2 & Hd2 & Hq2 & Hf2).
  eapply votes_intersection; [exact Hd1| |done|exact Hd2| |done]; (eapply Forall_impl; [eassumption|by intros ? []]).
Qed.

(** Client-side aggregation reaches quorum. If honest authorities with
    distinct ids and keys each sign their own copy of the same content (their
    relay lists may be ordered differently), merging the copies gives a
    document that passes [verify_quorum] for any threshold up to their number,
    inside the validity window. *)
Theorem merge_reaches_quorum `{!IdentityLaws} (d first : ConsensusDocument) (rest : list ConsensusDocument)
    (signers : list (bytes * HybridSigningKey)) (trusted : gmap bytes bytes) (q now : Z) :
  NoDup (rd_node_id <$> cd_relays d) -> authorities_wf trusted signers ->
  Forall2 (signed_copy d) signers (first :: rest) ->
  cd_valid_after d <= now < cd_valid_until d -> 0 < q <= Z.of_nat (length signers) ->
  verify_quorum (merge_all first rest) trusted q now = true.
Proof. apply merge_verified. Qed.

(** Signed descriptors. A descriptor signed by its relay verifies exactly
    when its host is canonical, its id is well-formed and its host and port are
    in range; and the signed bytes determine every field, so that no signature
    carries over to a descriptor that differs anywhere. *)
Theorem descriptor_sign_verify `{!IdentityLaws} (r r' : RelayDescriptor) (key : HybridSigningKey) :
  verifying_key key <> replicate 32 0 -> sign_with_key r key = Some r' ->
  rd_identity_pin r' = verifying_key key /\
  verify_identity r' = valid_host (rd_host r) && valid_node_id (rd_node_id r) && valid_endpoint r /\
  forall r2, descriptor_wf r' -> descriptor_wf r2 -> compute_signing_bytes r2 = compute_signing_bytes r' ->
    unsigned r2 = unsigned r'.
Proof.
  intros Hz Hs. unfold sign_with_key in Hs.
  destruct (identity_sign key _) as [sig|] eqn:Es; [|discriminate Hs]. apply Some_inj' in Hs as <-. split; [done|]. split.
  - refine (signed_descriptor_verifies r _ key Hz _). unfold sign_with_key. by rewrite Es.
  - intros r2 Hw Hw2 E. unfold compute_signing_bytes in E. apply app_inv_head in E.
    refine (proj1 (descriptor_bytes_inj _ _ [] [] Hw2 Hw _)). by rewrite E.
Qed.
End Properties.

(** ** Witnesses *)
#[local] Existing Instance toy_identity.
#[local] Existing Instance toy_identity_laws.

Definition toy_authority (n : Z) : HybridSigningKey := mkHybridSigningKey (replicate 32 n) (replicate 32 (n + 100)).
Definition toy_relay (n : Z) : RelayDescriptor :=
  RelayDescriptor_new (str "relay-" ++ [48 + n]) (str "93.184.216.34") 9001 (replicate 32 n) (replicate 32 (n + 1)) false 7 1000.
Definition toy_document : ConsensusDocument := ConsensusDocument_new 1000 4600 [toy_relay 1; toy_relay 2].
(** The same relays in another order. *)
Definition toy_document' : ConsensusDocument := ConsensusDocument_new 1000 4600 [toy_relay 2; toy_relay 1].
Definition toy_signers : list (bytes * HybridSigningKey) :=
  [(str "auth-a", toy_authority 1); (str "auth-b", toy_authority 2); (str "auth-c", toy_authority 3)].
Definition toy_trusted : gmap bytes bytes := list_to_map ((fun s => (s.1, verifying_key s.2)) <$> toy_signers).

Definition toy_copy (d : ConsensusDocument) (i : nat) : ConsensusDocument :=
  match toy_signers !! i with
  | Some s => default d (sign_with_authority d s.1 s.2)
  | None => d
  end.

Lemma toy_relay_wf n : 0 <= n <= 9 -> descriptor_wf (toy_relay n).
Proof. intros Hn. split; cbn; unfold_ints; try done; lia. Qed.

Lemma toy_document_wf : document_wf toy_document /\ document_wf toy_document'.
Proof.
  assert (H1 : descriptor_wf (toy_relay 1)) by (apply toy_relay_wf; lia).
  assert (H2 : descriptor_wf (toy_relay 2)) by (apply toy_relay_wf; lia).
  split; (split; [unfold toy_document, toy_document', ConsensusDocument_new; cbn [cd_valid_after cd_valid_until]; unfold_ints; lia..|]);
    (constructor; [assumption|constructor; [assumption|constructor]]).
Qed.

Lemma toy_same_content : same_content toy_document toy_document'.
Proof. split_and!; [done..|]. cbn. constructor. Qed.

Lemma toy_authorities_wf : authorities_wf toy_trusted toy_signers.
Proof.
  assert (Hids : NoDup toy_signers.*1) by (apply (bool_decide_unpack _); vm_compute; exact I).
  split; [|exact Hids|..]; [|apply (bool_decide_unpack _); vm_compute; exact I..].
  apply Forall_forall. intros s Hs. unfold toy_trusted. apply elem_of_list_to_map_1.
  - rewrite <- list_fmap_compose. exact Hids.
  - apply list_elem_of_fmap. eauto.
Qed.

Lemma toy_copy_signed d i s : toy_signers !! i = Some s -> sign_with_authority d s.1 s.2 = Some (toy_copy d i).
Proof.
  intros Hs. unfold toy_copy. rewrite Hs. unfold sign_with_authority.
  destruct (identity_sign_ok s.2 (compute_digest d)) as [sig ->]; [|done].
  unfold compute_digest, MAX_MESSAGE. rewrite sha256_length. lia.
Qed.

Lemma toy_copies :
  Forall2 (signed_copy toy_document) toy_signers [toy_copy toy_document 0; toy_copy toy_document' 1; toy_copy toy_document 2].
Proof.
  assert (Hself : same_content toy_document toy_document) by done. repeat constructor.
  - exists toy_document. split_and!; [done|done|by apply toy_copy_signed].
  - exists toy_document'. split_and!; [done|apply toy_same_content|by apply toy_copy_signed].
  - exists toy_document. split_and!; [done|done|by apply toy_copy_signed].
Qed.

Lemma toy_ids : NoDup (rd_node_id <$> cd_relays toy_document).
Proof. apply (bool_decide_unpack _). vm_compute. exact I. Qed.

Definition toy_merged : ConsensusDocument := merge_all (toy_copy toy_document 0) [toy_copy toy_document' 1; toy_copy toy_document 2].

Lemma toy_merged_verified : verify_quorum toy_merged toy_trusted 3 2000 = true.
Proof. apply (merge_verified toy_document _ _ toy_signers); [apply toy_ids|apply toy_authorities_wf|apply toy_copies|cbn; lia..]. Qed.

Lemma consensus_digest_binds_witness : digest_input toy_document = digest_input toy_document'.
Proof.
  refine (proj2 (consensus_digest_binds toy_document toy_document' (proj1 toy_document_wf) (proj2 toy_document_wf) _)
            toy_same_content).
  exact toy_ids.
Defined.

Lemma verify_quorum_sound_witness :
  exists votes, distinct_votes votes /\ 3 <= Z.of_nat (length votes).
Proof.
  destruct (verify_quorum_sound toy_merged toy_trusted 3 2000) as (_ & _ & votes & Hd & Hl & _); [apply toy_merged_verified|].
  exists votes. split; [exact Hd|exact Hl].
Defined.

Lemma quorum_intersection_witness :
  exists both : gset bytes, 3 <= Z.of_nat (size both) /\
    forall id, id ∈ both -> exists v, v_id v = id /\ valid_vote (compute_digest toy_merged) toy_trusted v.
Proof.
  destruct (quorum_intersection toy_merged toy_merged toy_trusted 3 2000 2000) as (both & Hn & _ & Hb);
    [apply toy_merged_verified..|].
  exists both. split; [replace (Z.of_nat (size toy_trusted)) with 3 in Hn by (vm_compute; reflexivity); lia|]. intros id Hid. destruct (Hb id Hid) as (v & _ & Hv & _ & Hval & _). eauto.
Defined.

Lemma merge_reaches_quorum_witness : verify_quorum toy_merged toy_trusted 3 2000 = true.
Proof.
  refine (merge_reaches_quorum toy_document (toy_copy toy_document 0) [toy_copy toy_document' 1; toy_copy toy_document 2]
            toy_signers toy_trusted 3 2000 toy_ids toy_authorities_wf toy_copies _ _); cbn; lia.
Defined.

Lemma descriptor_sign_verify_witness :
  exists r', sign_with_key (toy_relay 1) (toy_authority 1) = Some r' /\ verify_identity r' = true.
Proof.
  destruct (identity_sign_ok (toy_authority 1) (compute_signing_bytes (set_pin (toy_relay 1) (verifying_key (toy_authority 1)))))
    as [sig Hs]; [vm_compute; discriminate|].
  exists (set_signature (set_pin (toy_relay 1) (verifying_key (toy_authority 1))) sig).
  assert (Hr : sign_with_key (toy_relay 1) (toy_authority 1)
               = Some (set_signature (set_pin (toy_relay 1) (verifying_key (toy_authority 1))) sig))
    by (unfold sign_with_key; by rewrite Hs).
  assert (Hz : verifying_key (toy_authority 1) <> replicate 32 0) by (vm_compute; discriminate).
  split; [exact Hr|].
  exact (eq_trans (proj1 (proj2 (descriptor_sign_verify (toy_relay 1) _ (toy_authority 1) Hz Hr)))
           (eq_refl : valid_host (rd_host (toy_relay 1)) && valid_node_id (rd_node_id (toy_relay 1))
                      && valid_endpoint (toy_relay 1) = true)).
Defined.
