(* ===== verification/Revocation.v ===== *)
(** * Identity retirement (src/core/revocation.rs)

    Quorum-signed policies that retire identities, and [load_and_commit], which
    accepts a policy against the journal of the last accepted one. The files
    are a small state ([Fs]); whether each file operation succeeds is an input
    ([IoEnv]). JSON coding is serde's: a parameter with its round trip. *)
From S2P Require Import Prelude Text Identity Storage Consensus.

(** ** Data *)
Definition MAX_REVOKED_IDENTITIES : Z := 512.
Definition MAX_POLICY_BYTES : Z := 512 * 1024.

Record RevocationPolicy := mkRevocationPolicy {
  rp_version : Z;
  rp_generation : Z;
  rp_authority_set : bytes;
  rp_revoked : list bytes;
  rp_signatures : list AuthoritySignature;
}.

Record AcceptedPolicy := mkAcceptedPolicy { ap_generation : Z; ap_digest : bytes; ap_revoked : list bytes }.

(** ** Files *)

(** The lock file exists; the journal's contents. *)
Record Fs := mkFs { fs_lock : bool; fs_journal : option bytes }.

Record IoEnv := mkIoEnv {
  io_dir : bool;               (* [create_dir_all] *)
  io_lock : bool;              (* opening the lock, if it does not exist *)
  io_lock_stat : bool;         (* [symlink_metadata] of the lock answers *)
  io_journal : bool;           (* opening and reading the journal, if it exists *)
  io_policy : option bytes;    (* the policy file, if it can be opened and read *)
  io_write : WriteOutcome;
}.

Section Revocation.
Context `{IdentityPrimitives}.

(** ** Policies *)
Definition authority_set_digest (keys : gmap bytes bytes) : bytes :=
  let sorted := sort_by fst (map_to_list keys) in
  sha256 (str "AnonGuard-RevocationAuthoritySet-v1" ++ be_bytes 4 (Z.of_nat (length sorted))
          ++ (sorted ≫= fun kv => length_prefixed kv.1 ++ kv.2)).

Definition RevocationPolicy_new (generation : Z) (keys : gmap bytes bytes) (revoked : list bytes) : RevocationPolicy :=
  mkRevocationPolicy 2 generation (authority_set_digest keys) revoked [].

Definition is_weak (pin : bytes) : bool := bool_decide (pin = replicate 32 0).

Fixpoint revoked_shape (identities : gset bytes) (revoked : list bytes) : result string unit :=
  match revoked with
  | [] => Ok tt
  | identity :: rest =>
      match VerifyingKey_from_bytes identity with
      | Err _ => Err "Invalid retired identity"%string
      | Ok key =>
          if is_weak key || bool_decide (identity ∈ identities) then Err "Weak or duplicate retired identity"%string
          else revoked_shape ({[identity]} ∪ identities) rest
      end
  end.

Definition signature_shape (s : AuthoritySignature) : bool :=
  negb ((length (as_authority_id s) =? 0)%nat || (128 <? length (as_authority_id s))%nat
        || negb (length (as_signature_bytes s) =? PROOF_SIZE)%nat).

Definition validate_shape (p : RevocationPolicy) : result string unit :=
  if negb (rp_version p =? 2) || (rp_generation p =? 0)
     || (MAX_REVOKED_IDENTITIES <? Z.of_nat (length (rp_revoked p))) || (16 <? length (rp_signatures p))%nat
  then Err "Unsupported or oversized identity retirement policy"%string
  else
    let? _ := revoked_shape ∅ (rp_revoked p) in
    if forallb signature_shape (rp_signatures p) then Ok tt else Err "Invalid retirement signature shape"%string.

Definition policy_input (p : RevocationPolicy) : bytes :=
  let identities := sort_by id (rp_revoked p) in
  str "AnonGuard-IdentityRetirement-v1" ++ be_bytes 4 (rp_version p) ++ be_bytes 8 (rp_generation p)
  ++ rp_authority_set p ++ be_bytes 4 (Z.of_nat (length identities)) ++ concat identities.

Definition policy_digest (p : RevocationPolicy) : bytes := sha256 (policy_input p).

(** [None] is the panic of signing. *)
Definition policy_sign (p : RevocationPolicy) (authority_id : bytes) (key : HybridSigningKey)
    : option (result string RevocationPolicy) :=
  match validate_shape p with
  | Err e => Some (Err e)
  | Ok _ =>
      if (length authority_id =? 0)%nat || (128 <? length authority_id)%nat
         || existsb (fun s => bool_decide (as_authority_id s = authority_id)) (rp_signatures p)
         || (length (rp_signatures p) =? 16)%nat
      then Some (Err "Invalid or duplicate retirement signer"%string)
      else
        match identity_sign key (policy_digest p) with
        | None => None
        | Some sig =>
            Some (Ok (mkRevocationPolicy (rp_version p) (rp_generation p) (rp_authority_set p) (rp_revoked p)
                        (rp_signatures p ++ [mkAuthoritySignature authority_id sig])))
        end
  end.

(** The locals of [verify]'s loop. *)
Record SignerState := mkSignerState { ss_signers : gset bytes; ss_classical : gset bytes; ss_pq : gset bytes }.

Definition signer_step (digest : bytes) (keys : gmap bytes bytes) (st : SignerState) (s : AuthoritySignature)
    : result string SignerState :=
  match keys !! as_authority_id s with
  | None => Ok st
  | Some key =>
      match Signature_from_slice (as_signature_bytes s) with
      | Err _ => Err "Invalid retirement signature"%string
      | Ok proof =>
          if is_ok (verify_strict key digest proof) then
            match component_pins proof with
            | Err _ => Err "Invalid retirement identity"%string
            | Ok (classical, pq) =>
                if bool_decide (classical ∈ ss_classical st) || bool_decide (pq ∈ ss_pq st) then
                  Err "Retirement signers alias an identity component"%string
                else Ok (mkSignerState ({[key]} ∪ ss_signers st) ({[classical]} ∪ ss_classical st) ({[pq]} ∪ ss_pq st))
            end
          else Ok st
      end
  end.

Fixpoint signer_loop (digest : bytes) (keys : gmap bytes bytes) (st : SignerState) (sigs : list AuthoritySignature)
    : result string SignerState :=
  match sigs with
  | [] => Ok st
  | s :: rest => let? st := signer_step digest keys st s in signer_loop digest keys st rest
  end.

Definition policy_verify (p : RevocationPolicy) (keys : gmap bytes bytes) (quorum : Z) : result string unit :=
  let? _ := validate_shape p in
  let n := Z.of_nat (size keys) in
  let values := (map_to_list keys).*2 in
  let distinct : gset bytes := list_to_set values in
  if (n =? 0) || (16 <? n) || negb (Z.of_nat (size distinct) =? n) || existsb is_weak values
     || (quorum <=? 2 * n / 3) || (n <? quorum) || negb (bool_decide (rp_authority_set p = authority_set_digest keys))
  then Err "Identity retirement requires the exact pinned authority set and >2/3 quorum"%string
  else
    let? st := signer_loop (policy_digest p) keys (mkSignerState ∅ ∅ ∅) (rp_signatures p) in
    if Z.of_nat (size (ss_signers st)) <? quorum then
      Err "Identity retirement policy lacks a valid authority quorum"%string
    else Ok tt.

(** ** Quorums *)

(** What the loop has gathered: the keys of [votes], whose components are
    among those seen. *)
Record gathered (digest : bytes) (keys : gmap bytes bytes) (st : SignerState) (votes : list Vote) : Prop := {
  ga_valid : Forall (valid_vote digest keys) votes;
  ga_keys : NoDup (v_key <$> votes);
  ga_classical : NoDup (v_classical <$> votes) /\ forall v, v ∈ votes -> v_classical v ∈ ss_classical st;
  ga_pq : NoDup (v_pq <$> votes) /\ forall v, v ∈ votes -> v_pq v ∈ ss_pq st;
  ga_signers : ss_signers st = list_to_set (v_key <$> votes);
}.

Lemma signer_step_gathered digest keys st votes s st' :
  gathered digest keys st votes -> signer_step digest keys st s = Ok st' ->
  exists votes', gathered digest keys st' votes' /\
    Forall (fun v => v ∈ votes \/ v_sig v = s) votes'.
Proof.
  intros Hg Hst. assert (Hself : Forall (fun v => v ∈ votes \/ v_sig v = s) votes) by (apply Forall_forall; by left).
  unfold signer_step in Hst. destruct (keys !! as_authority_id s) as [key|] eqn:Ek; [|apply Ok_inj in Hst as <-; eauto].
  unfold Signature_from_slice in Hst.
  destruct (Nat.eqb_spec (length (as_signature_bytes s)) PROOF_SIZE) as [El|]; [cbn [negb] in Hst|discriminate Hst].
  destruct (verify_strict key digest _) as [[]|] eqn:Ev; cbn [is_ok] in Hst; [|apply Ok_inj in Hst as <-; eauto].
  destruct (component_pins _) as [[c p]|] eqn:Ec; [|discriminate Hst].
  destruct (_ || _) eqn:Ealias in Hst; [discriminate Hst|]. apply Ok_inj in Hst as <-. reflect_bools.
  destruct Hg as [Hv Hk [Hc Hcs] [Hp Hps] Hs].
  destruct (decide (key ∈ v_key <$> votes)) as [Hin|Hnin].
  - exists votes. split; [|done]. split; cbn; [done|done|split; [done|]|split; [done|]|].
    + intros v Hvv. apply elem_of_union_r. by apply Hcs.
    + intros v Hvv. apply elem_of_union_r. by apply Hps.
    + rewrite Hs. apply subseteq_union_1_L, singleton_subseteq_l. by apply elem_of_list_to_set.
  - exists (mkVote s key c p :: votes). split; [|constructor; [by right|done]]. split; cbn.
    + constructor; [|done]. unfold valid_vote, v_id. cbn. done.
    + by constructor.
    + split; [constructor; [|done]|].
      * intros (v & E & Hvv)%list_elem_of_fmap. apply Hcs in Hvv. by rewrite <- E in Hvv.
      * intros v [->|Hvv]%elem_of_cons; [apply elem_of_union_l; by apply elem_of_singleton|].
        apply elem_of_union_r. by apply Hcs.
    + split; [constructor; [|done]|].
      * intros (v & E & Hvv)%list_elem_of_fmap. apply Hps in Hvv. by rewrite <- E in Hvv.
      * intros v [->|Hvv]%elem_of_cons; [apply elem_of_union_l; by apply elem_of_singleton|].
        apply elem_of_union_r. by apply Hps.
    + by rewrite Hs.
Qed.

Lemma signer_loop_gathered digest keys st votes sigs st' :
  gathered digest keys st votes -> signer_loop digest keys st sigs = Ok st' ->
  exists votes', gathered digest keys st' votes' /\ Forall (fun v => v ∈ votes \/ v_sig v ∈ sigs) votes'.
Proof.
  revert st votes. induction sigs as [|s sigs IH]; intros st votes Hg Hl; cbn in Hl.
  { apply Ok_inj in Hl as <-. exists votes. split; [done|]. apply Forall_forall. by left. }
  destruct (signer_step digest keys st s) as [st1|] eqn:Es; [|discriminate Hl].
  destruct (signer_step_gathered _ _ _ _ _ _ Hg Es) as (votes1 & Hg1 & Hf1).
  destruct (IH _ _ Hg1 Hl) as (votes' & Hg' & Hf'). exists votes'. split; [done|].
  rewrite Forall_forall in Hf1. eapply Forall_impl; [exact Hf'|]. intros v [Hv|Hv]; [|right; by right].
  destruct (Hf1 _ Hv) as [?|<-]; [by left|right; left].
Qed.

Lemma policy_verify_votes p keys quorum :
  policy_verify p keys quorum = Ok tt ->
  2 * Z.of_nat (size keys) / 3 < quorum /\ rp_authority_set p = authority_set_digest keys /\
  exists votes, distinct_votes votes /\ quorum <= Z.of_nat (length votes) /\
    Forall (fun v => v_sig v ∈ rp_signatures p /\ valid_vote (policy_digest p) keys v) votes.
Proof.
  unfold policy_verify. destruct (validate_shape p); [|done]. intros Hv.
  destruct (_ || _) eqn:E in Hv; [discriminate Hv|].
  destruct (signer_loop _ _ _ _) as [st|] eqn:Es; [|discriminate Hv].
  destruct (_ <? _) eqn:Eq in Hv; [discriminate Hv|]. reflect_bools. split_and!; [done|done|].
  eapply (signer_loop_gathered _ _ _ []) in Es as (votes & [Gv Gk [Gc _] [Gp _] Gs] & Hf);
    [|split; [constructor|constructor|split; [constructor|by intros ? ?%not_elem_of_nil]..|done]].
  exists votes. split_and!.
  - split; [|done..]. apply NoDup_fmap_2_strong; [|by eapply NoDup_fmap_1].
    intros v w Hv1 Hw E'. rewrite Forall_forall in Gv. apply list_elem_of_lookup in Hv1 as [i Hi], Hw as [j Hj].
    destruct (Gv v) as [Kv _]; [by eapply list_elem_of_lookup_2|]. destruct (Gv w) as [Kw _]; [by eapply list_elem_of_lookup_2|].
    rewrite E' in Kv. assert (i = j) as ->; [|congruence].
    eapply NoDup_lookup; [exact Gk|..]; rewrite list_lookup_fmap; [by rewrite Hi|rewrite Hj; cbn; congruence].
  - rewrite Gs, size_list_to_set, length_fmap in Eq by done. done.
  - rewrite Forall_forall in Hf, Gv |- *. intros v Hin. split; [|by apply Gv].
    destruct (Hf v Hin) as [?%not_elem_of_nil|?]; done.
Qed.

(** ** Accepting a policy *)
Context (parse_policy : bytes -> option RevocationPolicy).
Context (parse_accepted : bytes -> option AcceptedPolicy) (encode_accepted : AcceptedPolicy -> bytes).

(** The check of a verified policy against the journal. *)
Definition rollback_check (p : RevocationPolicy) (previous : AcceptedPolicy) : result string unit :=
  let identities : gset bytes := list_to_set (rp_revoked p) in
  let distinct : gset bytes := list_to_set (ap_revoked previous) in
  if (ap_generation previous =? 0) || (MAX_REVOKED_IDENTITIES <? Z.of_nat (length (ap_revoked previous)))
     || negb (size distinct =? length (ap_revoked previous))%nat
  then Err "Invalid retirement rollback state"%string
  else if (rp_generation p <? ap_generation previous)
          || ((rp_generation p =? ap_generation previous) && negb (bool_decide (policy_digest p = ap_digest previous)))
          || existsb (fun i => negb (bool_decide (i ∈ identities))) (ap_revoked previous)
  then Err "Retirement rollback, equivocation or identity resurrection rejected"%string
  else Ok tt.

Definition read_journal (env : IoEnv) (fs : Fs) : result string (option AcceptedPolicy) :=
  match read_bounded_file (io_journal env) (fs_journal fs) MAX_POLICY_BYTES with
  | Ok b =>
      match parse_accepted b with
      | Some a => Ok (Some a)
      | None => Err "Invalid retirement rollback state"%string
      end
  | Err e => if bool_decide (io_kind e = NotFound) then Ok None else Err "Cannot read retirement rollback state"%string
  end.

(** Without a policy: only a deployment that never enrolled may start. *)
Definition load_unenrolled (env : IoEnv) (fs : Fs) : result string (gset bytes) :=
  let? previous := read_journal env fs in
  if fs_lock fs || negb (io_lock_stat env) then
    Err "Retirement enrollment is in progress or interrupted; inspect persistent state"%string
  else
    match previous with
    | Some _ => Err "Enrolled deployment requires its signed identity retirement policy"%string
    | None => Ok ∅
    end.

(** With a policy, while the lock is held. *)
Definition commit_locked (env : IoEnv) (fs : Fs) (keys : gmap bytes bytes) (quorum : Z) : Fs * result string (gset bytes) :=
  match
    (let? previous := read_journal env fs in
     match read_bounded_file true (io_policy env) MAX_POLICY_BYTES with
     | Err _ => Err "Cannot read identity retirement policy"%string
     | Ok b =>
         match parse_policy b with
         | None => Err "Invalid identity retirement policy JSON"%string
         | Some p =>
             let? _ := policy_verify p keys quorum in
             let? _ := match previous with Some a => rollback_check p a | None => Ok tt end in
             Ok p
         end
     end)
  with
  | Err e => (fs, Err e)
  | Ok p =>
      let accepted := mkAcceptedPolicy (rp_generation p) (policy_digest p) (rp_revoked p) in
      let '(journal, ok) := atomic_write (fs_journal fs) (io_write env) (encode_accepted accepted) in
      (mkFs (fs_lock fs) journal, if ok then Ok (list_to_set (rp_revoked p)) else Err "Cannot persist identity retirement policy"%string)
  end.

(** [policy] says whether a policy path is configured. The lock is released
    when the function returns. *)
Definition load_and_commit (env : IoEnv) (fs : Fs) (policy : bool) (keys : gmap bytes bytes) (quorum : Z)
    : Fs * result string (gset bytes) :=
  if negb policy then (fs, load_unenrolled env fs)
  else if negb (io_dir env) then (fs, Err "Cannot prepare retirement state directory"%string)
  else if fs_lock fs || negb (io_lock env) then
    (fs, Err "Retirement state is locked; inspect concurrent process or interrupted startup"%string)
  else
    let '(fs, r) := commit_locked env (mkFs true (fs_journal fs)) keys quorum in
    (mkFs false (fs_journal fs), r).

(** ** Startups *)
Record Startup := mkStartup { su_env : IoEnv; su_policy : bool; su_keys : gmap bytes bytes; su_quorum : Z }.

Definition boot (fs : Fs) (c : Startup) : Fs * result string (gset bytes) :=
  load_and_commit (su_env c) fs (su_policy c) (su_keys c) (su_quorum c).

Definition boot_all (fs : Fs) (cs : list Startup) : Fs := foldl (fun fs c => (boot fs c).1) fs cs.

(** The policy a startup was given. *)
Definition startup_policy (c : Startup) : option RevocationPolicy := io_policy (su_env c) ≫= parse_policy.

Definition journal_policy (fs : Fs) : option AcceptedPolicy := fs_journal fs ≫= parse_accepted.

Definition supersedes (a a' : AcceptedPolicy) : Prop :=
  ap_generation a <= ap_generation a' /\ (ap_generation a = ap_generation a' -> ap_digest a = ap_digest a') /\
  (list_to_set (ap_revoked a) : gset bytes) ⊆ list_to_set (ap_revoked a').

Definition later_journal (fs fs' : Fs) : Prop :=
  forall a, journal_policy fs = Some a -> exists a', journal_policy fs' = Some a' /\ supersedes a a'.

Definition accepted_of (p : RevocationPolicy) : AcceptedPolicy :=
  mkAcceptedPolicy (rp_generation p) (policy_digest p) (rp_revoked p).

Lemma supersedes_trans a b c : supersedes a b -> supersedes b c -> supersedes a c.
Proof.
  intros (G1 & D1 & S1) (G2 & D2 & S2). split_and!; [lia| |by transitivity (list_to_set (ap_revoked b) : gset bytes)].
  intros E. rewrite D1, D2; [done|lia..].
Qed.

Lemma later_journal_trans fs1 fs2 fs3 : later_journal fs1 fs2 -> later_journal fs2 fs3 -> later_journal fs1 fs3.
Proof.
  intros H1 H2 a Ha. destruct (H1 a Ha) as (b & Hb & Hab). destruct (H2 b Hb) as (c & Hc & Hbc).
  exists c. split; [done|by eapply supersedes_trans].
Qed.

Lemma later_journal_refl fs fs' : fs_journal fs = fs_journal fs' -> later_journal fs fs'.
Proof. intros E a Ha. exists a. unfold journal_policy in *. rewrite <- E. split; [done|]. by split_and!. Qed.

Lemma rollback_check_supersedes p a : rollback_check p a = Ok tt -> supersedes a (accepted_of p).
Proof.
  unfold rollback_check. intros Hr. destruct (_ || _) eqn:E1 in Hr; [done|]. destruct (_ || _) eqn:E2 in Hr; [done|].
  reflect_bools. split_and!; cbn; [done| |].
  - intros E. rewrite E, Z.eqb_refl in *. cbn in *. reflect_bools. done.
  - intros x. rewrite !elem_of_list_to_set. intros Hx. destruct (decide (x ∈ rp_revoked p)) as [|Hn]; [done|].
    exfalso. match goal with H : existsb _ _ = false |- _ => apply not_true_iff_false in H; apply H end.
    apply existsb_exists. exists x. split; [by apply list_elem_of_In|].
    rewrite bool_decide_false; [done|]. by rewrite elem_of_list_to_set.
Qed.

Lemma read_journal_inv env fs previous :
  read_journal env fs = Ok previous ->
  match previous with Some a => journal_policy fs = Some a | None => fs_journal fs = None end.
Proof.
  unfold read_journal, journal_policy. intros Hr. destruct (read_bounded_file _ _ _) as [b|e] eqn:Eb.
  - apply read_bounded_some in Eb. rewrite Eb. destruct (parse_accepted b) eqn:Ea; simplify_eq; done.
  - case_bool_decide as Hk; simplify_eq. by eapply read_bounded_not_found in Eb; [|unfold MAX_POLICY_BYTES, u64_MAX; lia|].
Qed.

Context (parse_encode : forall a, parse_accepted (encode_accepted a) = Some a).

Lemma commit_locked_spec env fs keys quorum fs' r :
  commit_locked env fs keys quorum = (fs', r) ->
  later_journal fs fs' /\
  forall S, r = Ok S -> exists p, io_policy env ≫= parse_policy = Some p /\ policy_verify p keys quorum = Ok tt /\
    journal_policy fs' = Some (accepted_of p) /\ S = list_to_set (rp_revoked p).
Proof.
  unfold commit_locked. destruct (read_journal env fs) as [previous|e] eqn:Ej.
  2:{ intros [= <- <-]. split; [by apply later_journal_refl|done]. }
  apply read_journal_inv in Ej. destruct (read_bounded_file true _ _) as [b|] eqn:Eb.
  2:{ intros [= <- <-]. split; [by apply later_journal_refl|done]. }
  apply read_bounded_some in Eb. rewrite Eb. destruct (parse_policy b) as [p|] eqn:Ep.
  2:{ intros [= <- <-]. split; [by apply later_journal_refl|done]. }
  destruct (policy_verify p keys quorum) as [[]|e] eqn:Ev.
  2:{ intros [= <- <-]. split; [by apply later_journal_refl|done]. }
  destruct (match previous with Some a => rollback_check p a | None => Ok tt end) as [[]|e] eqn:Er.
  2:{ intros [= <- <-]. split; [by apply later_journal_refl|done]. }
  assert (Hnew : forall lock, journal_policy (mkFs lock (Some (encode_accepted (accepted_of p)))) = Some (accepted_of p))
    by (intros lock; unfold journal_policy; cbn; apply parse_encode).
  assert (Hlater : forall lock, later_journal fs (mkFs lock (Some (encode_accepted (accepted_of p))))).
  { intros lock a Ha. exists (accepted_of p). split; [apply Hnew|]. destruct previous as [a'|].
    - assert (a' = a) as -> by congruence. by apply rollback_check_supersedes.
    - unfold journal_policy in Ha. by rewrite Ej in Ha. }
  fold (accepted_of p). destruct (io_write env); cbn; intros [= <- <-];
    (split; [first [apply Hlater|by apply later_journal_refl]|]); intros S HS; simplify_eq. exists p. by split_and!.
Qed.

Lemma boot_spec fs c fs' r :
  boot fs c = (fs', r) ->
  later_journal fs fs' /\
  forall S, r = Ok S ->
    (su_policy c = false /\ fs_journal fs = None) \/
    exists p, su_policy c = true /\ startup_policy c = Some p /\ policy_verify p (su_keys c) (su_quorum c) = Ok tt /\
      journal_policy fs' = Some (accepted_of p) /\ S = list_to_set (rp_revoked p).
Proof.
  unfold boot, load_and_commit. destruct (su_policy c); cbn [negb].
  - destruct (negb (io_dir _)); [intros [= <- <-]; split; [by apply later_journal_refl|done]|].
    destruct (fs_lock fs || _); [intros [= <- <-]; split; [by apply later_journal_refl|done]|].
    destruct (commit_locked _ _ _ _) as [fs1 r1] eqn:Ec. intros [= <- <-].
    apply commit_locked_spec in Ec as [Hl Hr]. split.
    + intros a Ha. destruct (Hl a Ha) as (a' & Ha' & Hs). exists a'. done.
    + intros S HS. right. destruct (Hr S HS) as (p & Hp & Hv & Hj & ->). exists p. done.
  - intros [= <- <-]. split; [by apply later_journal_refl|]. intros S HS. left. split; [done|].
    unfold load_unenrolled in HS. destruct (read_journal _ _) as [previous|] eqn:Ej; [|done].
    apply read_journal_inv in Ej. destruct (_ || _); [done|]. by destruct previous.
Qed.

Lemma boot_all_later fs cs : later_journal fs (boot_all fs cs).
Proof.
  revert fs. induction cs as [|c cs IH]; intros fs; cbn; [by apply later_journal_refl|].
  destruct (boot fs c) as [fs' r] eqn:E. apply boot_spec in E as [Hl _]. eapply later_journal_trans; [exact Hl|apply IH].
Qed.

(** A startup whose files work accepts a quorum-signed policy that does not
    roll back the journal. *)
Lemma boot_accepts fs c b p :
  su_policy c = true -> fs_lock fs = false ->
  io_dir (su_env c) && io_lock (su_env c) && io_journal (su_env c) = true -> io_write (su_env c) = Written ->
  io_policy (su_env c) = Some b -> Z.of_nat (length b) <= MAX_POLICY_BYTES -> parse_policy b = Some p ->
  policy_verify p (su_keys c) (su_quorum c) = Ok tt ->
  match fs_journal fs with
  | None => True
  | Some j => Z.of_nat (length j) <= MAX_POLICY_BYTES /\ exists a, parse_accepted j = Some a /\ rollback_check p a = Ok tt
  end ->
  boot fs c = (mkFs false (Some (encode_accepted (accepted_of p))), Ok (list_to_set (rp_revoked p))).
Proof.
  intros Hpol Hlock Hio Hw Hb Hlen Hp Hv Hj. reflect_bools. unfold boot, load_and_commit, commit_locked, read_journal.
  rewrite Hpol, Hlock, Hw, Hb. cbn [negb orb fs_journal].
  repeat match goal with H : _ (su_env c) = true |- _ => rewrite H end. cbn [negb].
  assert (Hread : forall x, Z.of_nat (length x) <= MAX_POLICY_BYTES -> read_bounded_file true (Some x) MAX_POLICY_BYTES = Ok x).
  { intros x Hx. unfold read_bounded_file. change (checked_add u64_MAX MAX_POLICY_BYTES 1) with (Some 524289). cbn [negb].
    rewrite (proj2 (Z.ltb_ge _ _)) by done. done. }
  rewrite (Hread b), Hp, Hv by done. destruct (fs_journal fs) as [j|].
  - destruct Hj as (Hj & a & Ha & Hr). rewrite (Hread j), Ha, Hr by done. done.
  - done.
Qed.

(** Retirement needs an honest quorum. A policy that verifies carries
    signatures over its digest, valid under the pinned keys and sharing no
    identity component, of more than two thirds of the exact authority set it
    names; and two policies that both verify were both signed by more than a
    third of the authorities. *)
Theorem retirement_quorum (p1 p2 : RevocationPolicy) (keys : gmap bytes bytes) (quorum : Z) :
  policy_verify p1 keys quorum = Ok tt -> policy_verify p2 keys quorum = Ok tt ->
  rp_authority_set p1 = authority_set_digest keys /\
  (exists votes, distinct_votes votes /\ 2 * Z.of_nat (size keys) / 3 < Z.of_nat (length votes) /\
     Forall (fun v => v_sig v ∈ rp_signatures p1 /\ valid_vote (policy_digest p1) keys v) votes) /\
  exists both : gset bytes, Z.of_nat (size keys) < 3 * Z.of_nat (size both) /\
    forall id, id ∈ both -> exists v1 v2, v_id v1 = id /\ v_id v2 = id /\
      valid_vote (policy_digest p1) keys v1 /\ valid_vote (policy_digest p2) keys v2.
Proof.
  intros H1 H2. apply policy_verify_votes in H1 as (Hq & Hset & votes1 & Hd1 & Hn1 & Hf1).
  apply policy_verify_votes in H2 as (_ & _ & votes2 & Hd2 & Hn2 & Hf2). split; [done|]. split.
  - exists votes1. split_and!; [done|lia|done].
  - destruct (votes_intersection (policy_digest p1) (policy_digest p2) keys votes1 votes2 quorum) as (both & _ & Hn & Hb);
      [done|by eapply Forall_impl; [exact Hf1|intros ? []]|done|done|by eapply Forall_impl; [exact Hf2|intros ? []]|done|].
    exists both. split; [by apply Hn|done].
Qed.

(** C33: retirement is monotone. Once a startup has accepted a policy, whatever
    happens in between (other startups, with or without a policy, failing file
    operations, a failed sync after the rename), a later startup succeeds only
    with a quorum-signed policy whose generation is not smaller, that has the
    same digest if the generation is equal, and whose retired identities include
    every identity retired before. The JSON of the journal reads back as what was
    written. *)
Theorem retirement_monotone (fs fs1 fs2 : Fs) (c1 c2 : Startup) (between : list Startup) (S1 S2 : gset bytes) :
  su_policy c1 = true -> boot fs c1 = (fs1, Ok S1) -> boot (boot_all fs1 between) c2 = (fs2, Ok S2) ->
  S1 ⊆ S2 /\ exists p1 p2, startup_policy c1 = Some p1 /\ startup_policy c2 = Some p2 /\
    policy_verify p2 (su_keys c2) (su_quorum c2) = Ok tt /\
    rp_generation p1 <= rp_generation p2 /\
    (rp_generation p1 = rp_generation p2 -> policy_digest p1 = policy_digest p2).
Proof.
  intros Hp H1 H2. apply boot_spec in H1 as [_ H1], H2 as [Hl2 H2].
  destruct (H1 _ eq_refl) as [[? _]|(p1 & _ & Hp1 & _ & Hj1 & ->)]; [congruence|].
  destruct (boot_all_later fs1 between _ Hj1) as (a & Ha & Hs1).
  destruct (H2 _ eq_refl) as [[_ Hn]|(p2 & _ & Hp2 & Hv2 & Hj2 & ->)].
  { unfold journal_policy in Ha. by rewrite Hn in Ha. }
  destruct (Hl2 a Ha) as (a2 & Ha2 & Hs2). assert (a2 = accepted_of p2) as -> by congruence.
  destruct (supersedes_trans _ _ _ Hs1 Hs2) as (Hg & Hd & Hset). split; [done|]. exists p1, p2. done.
Qed.
End Revocation.

(** ** Witnesses

    One authority, and a JSON stand-in that keeps each value in one number. *)
#[local] Existing Instance toy_identity.
#[local] Existing Instance toy_identity_laws.

Definition toy_encode (a : AcceptedPolicy) : bytes := [Z.pos (encode (ap_generation a, ap_digest a, ap_revoked a))].
Definition toy_parse (b : bytes) : option AcceptedPolicy :=
  match b with
  | [Z.pos p] =>
      match decode p : option (Z * bytes * list bytes) with
      | Some (g, d, r) => Some (mkAcceptedPolicy g d r)
      | None => None
      end
  | _ => None
  end.

Lemma toy_parse_encode a : toy_parse (toy_encode a) = Some a.
Proof. unfold toy_parse, toy_encode. rewrite decode_encode. by destruct a. Qed.

Definition toy_keys : gmap bytes bytes := {[str "auth-a" := verifying_key (toy_authority 1)]}.
Definition toy_policy (generation : Z) (revoked : list bytes) : RevocationPolicy :=
  let p := RevocationPolicy_new generation toy_keys revoked in
  match policy_sign p (str "auth-a") (toy_authority 1) with Some (Ok p') => p' | _ => p end.
Definition toy_policy_1 : RevocationPolicy := toy_policy 1 [replicate 32 9].
Definition toy_policy_2 : RevocationPolicy := toy_policy 2 [replicate 32 9; replicate 32 10].
Definition toy_parse_policy (b : bytes) : option RevocationPolicy :=
  match b with [1] => Some toy_policy_1 | [2] => Some toy_policy_2 | _ => None end.
Definition toy_startup (n : Z) : Startup := mkStartup (mkIoEnv true true true true (Some [n]) Written) true toy_keys 1.

Lemma toy_policy_1_verifies : policy_verify toy_policy_1 toy_keys 1 = Ok tt.
Proof. vm_compute. reflexivity. Qed.
Lemma toy_policy_2_verifies : policy_verify toy_policy_2 toy_keys 1 = Ok tt.
Proof. vm_compute. reflexivity. Qed.

Lemma retirement_quorum_witness : exists both : gset bytes, 1 < 3 * Z.of_nat (size both).
Proof.
  destruct (retirement_quorum toy_policy_1 toy_policy_2 toy_keys 1 toy_policy_1_verifies toy_policy_2_verifies)
    as (_ & _ & both & Hb & _).
  exists both. exact Hb.
Defined.

Definition toy_fs_1 : Fs := mkFs false (Some (toy_encode (accepted_of toy_policy_1))).

Lemma toy_boot_1 :
  boot toy_parse_policy toy_parse toy_encode (mkFs false None) (toy_startup 1) = (toy_fs_1, Ok (list_to_set (rp_revoked toy_policy_1))).
Proof.
  apply (boot_accepts toy_parse_policy toy_parse toy_encode (mkFs false None) (toy_startup 1) [1] toy_policy_1);
    [reflexivity..|vm_compute; discriminate|reflexivity|apply toy_policy_1_verifies|exact I].
Qed.

Lemma toy_boot_2 :
  boot toy_parse_policy toy_parse toy_encode (boot_all toy_parse_policy toy_parse toy_encode toy_fs_1 []) (toy_startup 2)
  = (mkFs false (Some (toy_encode (accepted_of toy_policy_2))), Ok (list_to_set (rp_revoked toy_policy_2))).
Proof.
  change (boot_all toy_parse_policy toy_parse toy_encode toy_fs_1 []) with toy_fs_1.
  apply (boot_accepts toy_parse_policy toy_parse toy_encode toy_fs_1 (toy_startup 2) [2] toy_policy_2);
    [reflexivity..|vm_compute; discriminate|reflexivity|apply toy_policy_2_verifies|]. cbn [toy_fs_1 fs_journal].
  split; [vm_compute; discriminate|]. exists (accepted_of toy_policy_1). split; [apply toy_parse_encode|].
  vm_compute. reflexivity.
Qed.

Lemma retirement_monotone_witness :
  (list_to_set (rp_revoked toy_policy_1) : gset bytes) ⊆ list_to_set (rp_revoked toy_policy_2).
Proof.
  exact (proj1 (retirement_monotone toy_parse_policy toy_parse toy_encode toy_parse_encode (mkFs false None) toy_fs_1
                  (mkFs false (Some (toy_encode (accepted_of toy_policy_2)))) (toy_startup 1) (toy_startup 2) []
                  (list_to_set (rp_revoked toy_policy_1)) (list_to_set (rp_revoked toy_policy_2))
                  eq_refl toy_boot_1 toy_boot_2)).
Defined.
