(* ===== verification/Authority.v ===== *)
(** * Directory authorities (src/mesh/authority.rs)

    A directory authority registers relays, exchanges relay lists with its
    peers, signs at most one document per epoch and asks its peers to sign it
    too. [DirectoryAuthority] holds what is fixed after start-up,
    [DirectoryState] what the locks protect and the vote file on disk. The
    handlers take the clock, the answers of peers and the outcome of file
    operations as arguments; reconciliation is split where it waits for its
    peers, so that other handlers can run in between. JSON and hex coding are
    parameters. *)
From S2P Require Import Prelude Text Identity Storage Sybil Consensus.

(** ** Data *)
Definition RELAY_TTL_SECS : Z := 7200.
Definition EPOCH_SECS : Z := 300.
Definition VOTE_FILE_MAX : Z := 64 * 1024 * 1024.

Record DirectoryAuthority := mkDirectoryAuthority {
  da_revoked : gset bytes;
  da_authority_id : bytes;
  da_signing_key : HybridSigningKey;
  da_listen_addr : bytes;
  da_pow_difficulty : Z;
  da_peer_authorities : list (bytes * option bytes);
  da_allow_unauthenticated_registration : bool;
  da_require_usable_snapshot : bool;
  da_persistent : bool;   (* [vote_path] is set *)
}.

Record DirectoryState := mkDirectoryState {
  ds_active_relays : gmap bytes RelayDescriptor;
  ds_nonce_registry : NonceRegistry;
  ds_signed_epochs : gmap Z ConsensusDocument;
  ds_vote_file : option bytes;
}.

Inductive RegistrationError :=
| RelayRetired | BadIdentitySignature | BadProofOfWork | DuplicateRelay | CapacityExceeded
| Impersonation (node_id : bytes) | StaleTimestamp | PowReplay.

Definition set_relays (st : DirectoryState) (relays : gmap bytes RelayDescriptor) : DirectoryState :=
  mkDirectoryState relays (ds_nonce_registry st) (ds_signed_epochs st) (ds_vote_file st).

(** ** The relay table *)

(** Two relays under different ids that share an identity, one component of
    it, or an endpoint. *)
Definition conflicting (existing candidate : RelayDescriptor) : bool :=
  negb (bool_decide (rd_node_id existing = rd_node_id candidate))
  && (bool_decide (rd_identity_pin existing = rd_identity_pin candidate)
      || ((length (rd_signature existing) =? PROOF_SIZE)%nat && (length (rd_signature candidate) =? PROOF_SIZE)%nat
          && (bool_decide (slice 8 40 (rd_signature existing) = slice 8 40 (rd_signature candidate))
              || bool_decide (slice 40 PUBLIC_KEY_SIZE (rd_signature existing)
                              = slice 40 PUBLIC_KEY_SIZE (rd_signature candidate))))
      || (bool_decide (rd_host existing = rd_host candidate) && (rd_port existing =? rd_port candidate))).

Definition relay_conflicts (relays : gmap bytes RelayDescriptor) (candidate : RelayDescriptor) : bool :=
  existsb (fun kv => conflicting kv.2 candidate) (map_to_list relays).

Definition table_full (relays : gmap bytes RelayDescriptor) (id : bytes) : bool :=
  bool_decide (relays !! id = None) && (MAX_DIRECTORY_RELAYS <=? Z.of_nat (size relays)).

Section Authority.
Context `{IdentityPrimitives} `{HashOrder}.
Context (encode_votes : list ConsensusDocument -> bytes) (parse_votes : bytes -> option (list ConsensusDocument)).

(** The relay the table already has under the descriptor's id. *)
Definition check_existing (relays : gmap bytes RelayDescriptor) (d : RelayDescriptor) : result RegistrationError unit :=
  match relays !! rd_node_id d with
  | None => Ok tt
  | Some existing =>
      if negb (bool_decide (rd_identity_pin existing = rd_identity_pin d)) then Err (Impersonation (rd_node_id d))
      else if rd_registered_at d <=? rd_registered_at existing then Err StaleTimestamp
      else Ok tt
  end.

Definition register_relay (self : DirectoryAuthority) (st : DirectoryState) (d : RelayDescriptor) (now : Z)
    : DirectoryState * result RegistrationError unit :=
  if bool_decide (rd_identity_pin d ∈ da_revoked self) then (st, Err RelayRetired)
  else if negb (verify_identity d) then (st, Err BadIdentitySignature)
  else if negb (verify_pow (rd_node_id d) (rd_registered_at d) (rd_pow_nonce d) (da_pow_difficulty self) now) then
    (st, Err BadProofOfWork)
  else
    let relays := ds_active_relays st in
    if relay_conflicts relays d then (st, Err DuplicateRelay)
    else if table_full relays (rd_node_id d) then (st, Err CapacityExceeded)
    else
      match check_existing relays d with
      | Err e => (st, Err e)
      | Ok _ =>
          let '(reg, replay) := check_and_record (ds_nonce_registry st) (rd_node_id d) (rd_pow_nonce d) now in
          let st := mkDirectoryState relays reg (ds_signed_epochs st) (ds_vote_file st) in
          if replay then (st, Err PowReplay) else (set_relays st (<[rd_node_id d := d]> relays), Ok tt)
      end.

(** The periodic eviction task keeps relays younger than the TTL, the one of
    [generate_consensus] also those of exactly that age. *)
Definition evict_periodic (st : DirectoryState) (now : Z) : DirectoryState :=
  set_relays st (filter (fun kv => saturating_sub now (rd_registered_at kv.2) < RELAY_TTL_SECS) (ds_active_relays st)).

Definition evict_stale (st : DirectoryState) (now : Z) : DirectoryState :=
  set_relays st (filter (fun kv => saturating_sub now (rd_registered_at kv.2) <= RELAY_TTL_SECS) (ds_active_relays st)).

(** ** Reconciliation *)
Definition drop_revoked (self : DirectoryAuthority) (relays : gmap bytes RelayDescriptor) : gmap bytes RelayDescriptor :=
  filter (fun kv => rd_identity_pin kv.2 ∉ da_revoked self) relays.

(** The peers asked for their relay lists. *)
Definition reconcile_peers (self : DirectoryAuthority) : list (bytes * option bytes) :=
  filter (fun p => p.1 <> da_listen_addr self /\
                   (is_Some p.2 \/ da_allow_unauthenticated_registration self = true)) (da_peer_authorities self).

Definition merge_descriptor (self : DirectoryAuthority) (now : Z) (local : gmap bytes RelayDescriptor) (d : RelayDescriptor)
    : gmap bytes RelayDescriptor :=
  if relay_conflicts local d then local
  else if table_full local (rd_node_id d) then local
  else if negb (bool_decide (rd_identity_pin d ∈ da_revoked self)) && verify_identity d then
    if negb (verify_pow (rd_node_id d) (rd_registered_at d) (rd_pow_nonce d) (da_pow_difficulty self) now) then local
    else
      match local !! rd_node_id d with
      | Some existing =>
          if negb (bool_decide (rd_identity_pin d = rd_identity_pin existing)) then local
          else if rd_registered_at existing <? rd_registered_at d then <[rd_node_id d := d]> local
          else local
      | None => <[rd_node_id d := d]> local
      end
  else local.

(** The answer of one peer and the clock when it is processed; [None] is a
    failure or a timeout. *)
Definition merge_answer (self : DirectoryAuthority) (local : gmap bytes RelayDescriptor)
    (answer : option (list RelayDescriptor) * Z) : gmap bytes RelayDescriptor :=
  match answer.1 with
  | None => local
  | Some ds => foldl (merge_descriptor self answer.2) local ds
  end.

(** The first half of [reconcile_relays], on a snapshot of the table. *)
Definition reconcile_collect (self : DirectoryAuthority) (snapshot : gmap bytes RelayDescriptor)
    (answers : list (option (list RelayDescriptor) * Z)) : gmap bytes RelayDescriptor :=
  foldl (merge_answer self) (drop_revoked self snapshot) answers.

Definition persist_descriptor (active : gmap bytes RelayDescriptor) (kv : bytes * RelayDescriptor)
    : gmap bytes RelayDescriptor :=
  let '(id, d) := kv in
  if relay_conflicts active d then active
  else
    match active !! id with
    | Some existing =>
        if negb (bool_decide (rd_identity_pin existing = rd_identity_pin d)) then active
        else if rd_registered_at d <=? rd_registered_at existing then active
        else <[id := d]> active
    | None => if table_full active id then active else <[id := d]> active
    end.

(** The second half, on the table as it is by then; the admitted relays. *)
Definition reconcile_persist (self : DirectoryAuthority) (st : DirectoryState) (local : gmap bytes RelayDescriptor)
    : DirectoryState * list RelayDescriptor :=
  let active := foldl persist_descriptor (drop_revoked self (ds_active_relays st)) (hash_iter local) in
  (set_relays st active, hash_values active).

(** ** Voting *)
Definition usable (relays : list RelayDescriptor) : bool :=
  negb ((length relays <? 3)%nat || negb (existsb rd_is_exit relays)).

Definition relay_eligible (self : DirectoryAuthority) (now : Z) (r : RelayDescriptor) : bool :=
  negb (bool_decide (rd_identity_pin r ∈ da_revoked self)) && verify_identity r
  && (rd_registered_at r <=? now) && (now - rd_registered_at r <=? RELAY_TTL_SECS).

(** [None] is the panic of signing. *)
Definition frozen_view (self : DirectoryAuthority) (st : DirectoryState) (relays : list RelayDescriptor) (now : Z)
    (w : WriteOutcome) : DirectoryState * option (result string ConsensusDocument) :=
  let epoch := now / EPOCH_SECS * EPOCH_SECS in
  let votes := ds_signed_epochs st in
  if existsb (fun kv => epoch <? kv.1) (map_to_list votes) then (st, Some (Err "Authority clock rollback rejected"%string))
  else
    match votes !! epoch with
    | Some doc =>
        if existsb (fun r => bool_decide (rd_identity_pin r ∈ da_revoked self)) (cd_relays doc) then
          (st, Some (Err "Frozen vote contains a retired identity; waiting for next epoch"%string))
        else if da_require_usable_snapshot self && negb (usable (cd_relays doc)) then
          (st, Some (Err "Persisted epoch snapshot cannot support a usable circuit; waiting for next epoch"%string))
        else (st, Some (Ok doc))
    | None =>
        if MAX_DIRECTORY_RELAYS <? Z.of_nat (length relays) then (st, Some (Err "Directory capacity exceeded"%string))
        else
          let relays := filter (fun r => relay_eligible self now r = true) relays in
          if da_require_usable_snapshot self && negb (usable relays) then
            (st, Some (Err "Directory has no usable three-hop circuit with an exit; voting deferred"%string))
          else
            match sign_with_authority (ConsensusDocument_new epoch (wrapping_add u64_MAX epoch 600) relays)
                    (da_authority_id self) (da_signing_key self) with
            | None => (st, None)
            | Some doc =>
                let next := <[epoch := doc]> (filter (fun kv => epoch <= saturating_add u64_MAX kv.1 3600) votes) in
                let '(file, ok) :=
                  if da_persistent self then atomic_write (ds_vote_file st) w (encode_votes (hash_values next))
                  else (ds_vote_file st, true) in
                if ok then
                  (mkDirectoryState (ds_active_relays st) (ds_nonce_registry st) next file, Some (Ok doc))
                else
                  (mkDirectoryState (ds_active_relays st) (ds_nonce_registry st) votes file,
                   Some (Err "Cannot persist authority vote"%string))
            end
    end.

(** ** Cross-checking *)
Inductive CrossCheck := PeerSigned (sig : AuthoritySignature) | PeerRejected | PeerFailed.

(** The peers asked to sign. *)
Definition cross_check_peers (self : DirectoryAuthority) : list (bytes * option bytes) :=
  filter (fun p => p.1 <> da_listen_addr self) (da_peer_authorities self).

(** Appends one peer's signature if it verifies under the pinned key and that
    key has not signed yet. *)
Definition add_signature (digest : bytes) (acc : list AuthoritySignature * gset bytes) (reply : option bytes * CrossCheck)
    : list AuthoritySignature * gset bytes :=
  match reply with
  | (Some key, PeerSigned sig) =>
      match Signature_from_slice (as_signature_bytes sig) with
      | Ok s =>
          if is_ok (verify_strict key digest s) && negb (bool_decide (key ∈ acc.2)) then
            (acc.1 ++ [sig], {[key]} ∪ acc.2)
          else acc
      | Err _ => acc
      end
  | _ => acc
  end.

Definition all_pinned (self : DirectoryAuthority) : bool :=
  forallb (fun p => bool_decide (is_Some p.2)) (da_peer_authorities self).

Definition independent_keys (self : DirectoryAuthority) : gset bytes :=
  {[verifying_key (da_signing_key self)]} ∪ list_to_set (omap snd (da_peer_authorities self)).

Definition required_signatures (self : DirectoryAuthority) : Z :=
  2 * Z.of_nat (size (independent_keys self)) / 3 + 1.

(** The end of [generate_consensus]: the frozen document, with the replies of
    the peers in order. *)
Definition cross_check (self : DirectoryAuthority) (doc : ConsensusDocument) (replies : list CrossCheck)
    : result string ConsensusDocument :=
  if negb (all_pinned self) then Err "Authority peer lacks an identity pin"%string
  else
    let own : gset bytes := {[verifying_key (da_signing_key self)]} in
    let '(sigs, _) := foldl (add_signature (compute_digest doc)) (cd_signatures doc, own)
                        (zip (cross_check_peers self).*2 replies) in
    if required_signatures self <=? Z.of_nat (length sigs) then Ok (with_signatures doc sigs)
    else Err "BFT Cross-check failed"%string.

(** [generate_consensus] when nothing else runs while it waits for its peers. *)
Definition generate_consensus (self : DirectoryAuthority) (st : DirectoryState) (now now_view : Z)
    (answers : list (option (list RelayDescriptor) * Z)) (w : WriteOutcome) (replies : list CrossCheck)
    : DirectoryState * option (result string ConsensusDocument) :=
  let st := evict_stale st now in
  let '(st, relays) := reconcile_persist self st (reconcile_collect self (ds_active_relays st) answers) in
  match frozen_view self st relays now_view w with
  | (st, Some (Ok doc)) => (st, Some (cross_check self doc replies))
  | (st, r) => (st, r)
  end.

(** ** Requests *)

(** What arrives while a request is served: the clocks, the answers and
    replies of peers, the outcome of writing the vote file. *)
Record RoundEnv := mkRoundEnv {
  re_now : Z;
  re_now_view : Z;
  re_answers : list (option (list RelayDescriptor) * Z);
  re_write : WriteOutcome;
  re_replies : list CrossCheck;
}.

Inductive AuthorityReply :=
| ReplyConsensus (doc : ConsensusDocument)
| ReplyRelayList (relays : list RelayDescriptor)
| ReplySigned (sig : AuthoritySignature)
| ReplyText (text : bytes)
| NoReply.

Context (hex_encode : bytes -> bytes) (parse_descriptor : bytes -> option RelayDescriptor).

(** [BFT_CROSS_CHECK]: sign if our own frozen view has the same digest. *)
Definition handle_cross_check (self : DirectoryAuthority) (st : DirectoryState) (env : RoundEnv) (digest_hex : bytes)
    : DirectoryState * AuthorityReply :=
  let '(st, relays) := reconcile_persist self st (reconcile_collect self (ds_active_relays st) (re_answers env)) in
  match frozen_view self st relays (re_now_view env) (re_write env) with
  | (st, Some (Ok doc)) =>
      if bool_decide (hex_encode (compute_digest doc) = digest_hex) then
        (st, match last (cd_signatures doc) with Some sig => ReplySigned sig | None => NoReply end)
      else (st, ReplyText (str "ERROR_DIGEST_MISMATCH"))
  | (st, Some (Err _)) => (st, ReplyText (str "ERROR_EPOCH_STATE"))
  | (st, None) => (st, NoReply)
  end.

(** One frame of an authenticated connection. The requests are ASCII prefixes,
    which lossy UTF-8 decoding leaves alone. *)
Definition handle_frame (self : DirectoryAuthority) (st : DirectoryState) (env : RoundEnv) (frame : bytes)
    : DirectoryState * AuthorityReply :=
  if starts_with frame (str "GET_CONSENSUS") then
    match generate_consensus self st (re_now env) (re_now_view env) (re_answers env) (re_write env) (re_replies env) with
    | (st, Some (Ok doc)) => (st, ReplyConsensus doc)
    | (st, Some (Err _)) => (st, ReplyText (str "ERROR_BFT_QUORUM_NOT_REACHED"))
    | (st, None) => (st, NoReply)
    end
  else if starts_with frame (str "GET_RELAY_LIST") then (st, ReplyRelayList (hash_values (ds_active_relays st)))
  else if starts_with frame (str "BFT_CROSS_CHECK ") then
    handle_cross_check self st env (drop (length (str "BFT_CROSS_CHECK ")) frame)
  else if starts_with frame (str "REGISTER_RELAY ") then
    match parse_descriptor (drop (length (str "REGISTER_RELAY ")) frame) with
    | Some d =>
        let '(st, r) := register_relay self st d (re_now env) in
        (st, ReplyText (if is_ok r then str "OK_REGISTERED" else str "ERROR_REGISTRATION_REJECTED"))
    | None => (st, ReplyText (str "ERROR_MALFORMED_JSON"))
    end
  else (st, NoReply).

(** ** Start-up *)
Fixpoint load_votes (own : gmap bytes bytes) (votes : gmap Z ConsensusDocument) (docs : list ConsensusDocument)
    : option (gmap Z ConsensusDocument) :=
  match docs with
  | [] => Some votes
  | doc :: rest =>
      if (MAX_DIRECTORY_RELAYS <? Z.of_nat (length (cd_relays doc))) || (16 <? length (cd_signatures doc))%nat
         || existsb (fun r => negb (verify_identity r)) (cd_relays doc)
         || negb (verify_quorum doc own 1 (cd_valid_after doc))
         || bool_decide (is_Some (votes !! cd_valid_after doc))
      then None
      else load_votes own (<[cd_valid_after doc := doc]> votes) rest
  end.

(** [with_persistent_key] on the vote file; [None] is the process exiting. *)
Definition with_persistent_key (self : DirectoryAuthority) (io : bool) (file : option bytes) : option DirectoryState :=
  let docs :=
    match read_bounded_file io file VOTE_FILE_MAX with
    | Ok b => parse_votes b
    | Err e => if bool_decide (io_kind e = NotFound) then Some [] else None
    end in
  match docs with
  | None => None
  | Some docs =>
      if (13 <? length docs)%nat then None
      else
        match load_votes {[da_authority_id self := verifying_key (da_signing_key self)]} ∅ docs with
        | None => None
        | Some votes => Some (mkDirectoryState ∅ NonceRegistry_new votes file)
        end
  end.

(** ** The table invariant *)
Record directory_ok (self : DirectoryAuthority) (relays : gmap bytes RelayDescriptor) : Prop := {
  do_entry : forall id r, relays !! id = Some r ->
    rd_node_id r = id /\ verify_identity r = true /\ (rd_identity_pin r ∉ da_revoked self);
  do_distinct : forall id1 id2 r1 r2, relays !! id1 = Some r1 -> relays !! id2 = Some r2 -> conflicting r1 r2 = false;
  do_size : Z.of_nat (size relays) <= MAX_DIRECTORY_RELAYS;
}.

Lemma conflicting_sym r1 r2 : conflicting r1 r2 = conflicting r2 r1.
Proof.
  unfold conflicting.
  assert (Hsym : forall {A} `{EqDecision A} (x y : A), bool_decide (x = y) = bool_decide (y = x))
    by (intros; apply bool_decide_ext; split; congruence).
  rewrite (Hsym _ _ (rd_node_id r1)), (Hsym _ _ (rd_identity_pin r1)), (Hsym _ _ (slice 8 40 _)),
    (Hsym _ _ (slice 40 PUBLIC_KEY_SIZE (rd_signature r1))), (Hsym _ _ (rd_host r1)), (Z.eqb_sym (rd_port r1)).
  by rewrite (andb_comm (length (rd_signature r1) =? PROOF_SIZE)%nat).
Qed.

Lemma conflicting_same r1 r2 : rd_node_id r1 = rd_node_id r2 -> conflicting r1 r2 = false.
Proof. intros E. unfold conflicting. by rewrite bool_decide_true. Qed.

Lemma relay_conflicts_false relays d :
  relay_conflicts relays d = false -> forall id r, relays !! id = Some r -> conflicting r d = false.
Proof.
  intros Hc id r Hr. apply not_true_iff_false. intros Ht. apply not_true_iff_false in Hc. apply Hc.
  apply existsb_exists. exists (id, r). split; [|done]. by apply list_elem_of_In, elem_of_map_to_list.
Qed.

Lemma table_full_size relays id (d : RelayDescriptor) :
  table_full relays id = false -> Z.of_nat (size relays) <= MAX_DIRECTORY_RELAYS ->
  Z.of_nat (size (<[id := d]> relays)) <= MAX_DIRECTORY_RELAYS.
Proof.
  intros Hf Hs. destruct (relays !! id) as [r|] eqn:E.
  - rewrite map_size_insert_Some; [done|by eauto].
  - unfold table_full in Hf. rewrite bool_decide_true in Hf by done. cbn in Hf. reflect_bools.
    rewrite map_size_insert_None by done. lia.
Qed.

Lemma insert_ok self relays d :
  directory_ok self relays -> verify_identity d = true -> (rd_identity_pin d ∉ da_revoked self) ->
  relay_conflicts relays d = false -> table_full relays (rd_node_id d) = false ->
  directory_ok self (<[rd_node_id d := d]> relays).
Proof.
  intros [He Hd Hs] Hv Hr Hc Hf. pose proof (relay_conflicts_false _ _ Hc) as Hnc. split.
  - intros id r. rewrite lookup_insert_Some. intros [[<- <-]|[_ ?]]; [done|by apply He].
  - intros id1 id2 r1 r2. rewrite !lookup_insert_Some.
    intros [[<- <-]|[_ H1]] [[<- <-]|[_ H2]]; [by apply conflicting_same| | |by eapply Hd].
    + rewrite conflicting_sym. by eapply Hnc.
    + by eapply Hnc.
  - by apply table_full_size.
Qed.

Lemma filter_ok self relays (P : bytes * RelayDescriptor -> Prop) `{!forall x, Decision (P x)} :
  directory_ok self relays -> directory_ok self (filter P relays).
Proof.
  intros [He Hd Hs]. split.
  - intros id r [Hr _]%map_lookup_filter_Some. by apply He.
  - intros id1 id2 r1 r2 [K1 _]%map_lookup_filter_Some [K2 _]%map_lookup_filter_Some. by eapply Hd.
  - pose proof (map_size_filter P relays). lia.
Qed.

Lemma drop_revoked_ok self relays : directory_ok self relays -> drop_revoked self relays = relays.
Proof. intros [He _ _]. apply map_filter_id. intros id r Hr. cbn. by apply He in Hr as (_ & _ & ?). Qed.

(** [R'] keeps every relay of [R], with its identity and a timestamp that is
    not older. *)
Definition advances (R R' : gmap bytes RelayDescriptor) : Prop :=
  forall id r, R !! id = Some r -> exists r', R' !! id = Some r' /\
    rd_identity_pin r' = rd_identity_pin r /\ rd_registered_at r <= rd_registered_at r'.

Lemma advances_refl R : advances R R.
Proof. intros id r Hr. exists r. split_and!; [done..|lia]. Qed.

Lemma advances_trans R1 R2 R3 : advances R1 R2 -> advances R2 R3 -> advances R1 R3.
Proof.
  intros H12 H23 id r Hr. destruct (H12 _ _ Hr) as (r2 & H2 & E2 & L2). destruct (H23 _ _ H2) as (r3 & H3 & E3 & L3).
  exists r3. split_and!; [done|congruence|lia].
Qed.

Lemma advances_insert R d :
  (forall r, R !! rd_node_id d = Some r -> rd_identity_pin d = rd_identity_pin r /\ rd_registered_at r <= rd_registered_at d) ->
  advances R (<[rd_node_id d := d]> R).
Proof.
  intros Hd id r Hr. destruct (decide (id = rd_node_id d)) as [->|Hne].
  - exists d. rewrite lookup_insert_eq. destruct (Hd r Hr). done.
  - exists r. rewrite lookup_insert_ne by done. split_and!; [done..|lia].
Qed.

Lemma merge_descriptor_ok self now local d :
  directory_ok self local -> directory_ok self (merge_descriptor self now local d).
Proof.
  intros Hok. unfold merge_descriptor. destruct (relay_conflicts local d) eqn:Ec; [done|].
  destruct (table_full local _) eqn:Ef; [done|]. destruct (_ && _) eqn:Ev; [|done]. reflect_bools.
  destruct (negb _); [done|].
  assert (Hins : directory_ok self (<[rd_node_id d := d]> local)) by (by apply insert_ok).
  destruct (local !! rd_node_id d); [|done]. destruct (negb _); [done|]. by destruct (_ <? _).
Qed.

Lemma reconcile_collect_ok self snapshot answers :
  directory_ok self snapshot -> directory_ok self (reconcile_collect self snapshot answers).
Proof.
  intros Hok. unfold reconcile_collect. apply (filter_ok _ _ (fun kv => rd_identity_pin kv.2 ∉ da_revoked self)) in Hok.
  change (directory_ok self (drop_revoked self snapshot)) in Hok. revert Hok.
  generalize (drop_revoked self snapshot). induction answers as [|[o t] answers IH]; intros local Hok; cbn; [done|].
  apply IH. destruct o as [ds|]; unfold merge_answer; cbn; [|done].
  clear IH. revert local Hok. induction ds as [|d ds IHd]; intros local Hok; cbn; [done|].
  apply IHd. by apply merge_descriptor_ok.
Qed.

Lemma persist_descriptor_step self active id d :
  directory_ok self active -> rd_node_id d = id -> verify_identity d = true -> (rd_identity_pin d ∉ da_revoked self) ->
  directory_ok self (persist_descriptor active (id, d)) /\ advances active (persist_descriptor active (id, d)).
Proof.
  intros Hok <- Hv Hr. unfold persist_descriptor.
  destruct (relay_conflicts active d) eqn:Ec; [split; [done|apply advances_refl]|].
  destruct (active !! rd_node_id d) as [existing|] eqn:Ee.
  - destruct (negb _) eqn:Ep; [split; [done|apply advances_refl]|].
    destruct (_ <=? _) eqn:Et; [split; [done|apply advances_refl]|]. reflect_bools. split.
    + apply insert_ok; try done. unfold table_full. by rewrite bool_decide_false by congruence.
    + apply advances_insert. intros r Hr'. simplify_eq. split; [done|lia].
  - destruct (table_full _ _) eqn:Ef; [split; [done|apply advances_refl]|]. split; [by apply insert_ok|].
    apply advances_insert. intros r Hr'. congruence.
Qed.

Lemma persist_all_ok `{!HashOrderLaws} self active local :
  directory_ok self active -> directory_ok self local ->
  directory_ok self (foldl persist_descriptor active (hash_iter local)) /\
  advances active (foldl persist_descriptor active (hash_iter local)).
Proof.
  intros Hok [He _ _].
  assert (Hall : Forall (fun kv => local !! kv.1 = Some kv.2) (hash_iter local)).
  { rewrite hash_iter_perm. apply Forall_forall. intros [id d]. by rewrite elem_of_map_to_list. }
  revert active Hok. induction Hall as [|[id d] l Hd _ IH]; intros active Hok; cbn; [split; [done|apply advances_refl]|].
  cbn in Hd. destruct (He _ _ Hd) as (Hid & Hv & Hr).
  destruct (persist_descriptor_step self active id d Hok Hid Hv Hr) as [Hok' Hadv].
  destruct (IH _ Hok') as [Ho Ha]. split; [done|by eapply advances_trans].
Qed.

Lemma reconcile_persist_ok `{!HashOrderLaws} self st local st' relays :
  directory_ok self (ds_active_relays st) -> directory_ok self local ->
  reconcile_persist self st local = (st', relays) ->
  directory_ok self (ds_active_relays st') /\ advances (ds_active_relays st) (ds_active_relays st').
Proof.
  intros Hok Hl Hp. unfold reconcile_persist in Hp. rewrite (drop_revoked_ok _ _ Hok) in Hp. simplify_eq/=.
  by apply persist_all_ok.
Qed.

Lemma register_relay_ok self st d now st' r :
  directory_ok self (ds_active_relays st) -> register_relay self st d now = (st', r) ->
  directory_ok self (ds_active_relays st') /\ advances (ds_active_relays st) (ds_active_relays st') /\
  ds_signed_epochs st' = ds_signed_epochs st /\ ds_vote_file st' = ds_vote_file st.
Proof.
  intros Hok Hr. unfold register_relay in Hr.
  pose proof (advances_refl (ds_active_relays st)).
  destruct (bool_decide _) eqn:E1 in Hr; [by simplify_eq|]. destruct (negb (verify_identity d)) eqn:E2; [by simplify_eq|].
  destruct (negb _) eqn:E3 in Hr; [by simplify_eq|]. destruct (relay_conflicts _ d) eqn:E4; [by simplify_eq|].
  destruct (table_full _ _) eqn:E5; [by simplify_eq|]. destruct (check_existing _ d) as [[]|e] eqn:E6; [|by simplify_eq].
  destruct (check_and_record _ _ _ _) as [reg []]; simplify_eq/=; [done|]. reflect_bools.
  split; [by apply insert_ok|]. split; [|done]. apply advances_insert. intros r' Hr'.
  unfold check_existing in E6. rewrite Hr' in E6. destruct (negb _) eqn:E7 in E6; [done|].
  destruct (_ <=? _) eqn:E8 in E6; [done|]. reflect_bools. split; [done|lia].
Qed.

(** ** The authority as a process

    Handlers run one at a time except that a reconciliation waits for its
    peers between its two halves ([nd_inflight]); the process may stop at any
    point and start again from the vote file. A step also yields the document
    the authority hands out, if any. *)
Record Node := mkNode {
  nd_running : bool;
  nd_state : DirectoryState;
  nd_inflight : list (gmap bytes RelayDescriptor);
}.

Inductive AuthorityOp :=
| OpRegister (d : RelayDescriptor) (now : Z)
| OpEvictPeriodic (now : Z)
| OpEvictStale (now : Z)
| OpCollect (answers : list (option (list RelayDescriptor) * Z))
| OpPersist (i : nat)
| OpVote (relays : list RelayDescriptor) (now : Z) (w : WriteOutcome)
| OpStop
| OpStart (io : bool).

Definition with_state (nd : Node) (st : DirectoryState) : Node := mkNode (nd_running nd) st (nd_inflight nd).

Definition authority_step (self : DirectoryAuthority) (nd : Node) (op : AuthorityOp) : Node * option ConsensusDocument :=
  let st := nd_state nd in
  if nd_running nd then
    match op with
    | OpRegister d now => (with_state nd (register_relay self st d now).1, None)
    | OpEvictPeriodic now => (with_state nd (evict_periodic st now), None)
    | OpEvictStale now => (with_state nd (evict_stale st now), None)
    | OpCollect answers =>
        (mkNode true st (reconcile_collect self (ds_active_relays st) answers :: nd_inflight nd), None)
    | OpPersist i =>
        match nd_inflight nd !! i with
        | None => (nd, None)
        | Some local => (mkNode true (reconcile_persist self st local).1 (delete i (nd_inflight nd)), None)
        end
    | OpVote relays now w =>
        let '(st, r) := frozen_view self st relays now w in
        (with_state nd st, match r with Some (Ok doc) => Some doc | _ => None end)
    | OpStop => (mkNode false st [], None)
    | OpStart _ => (nd, None)
    end
  else
    match op with
    | OpStart io =>
        match with_persistent_key self io (ds_vote_file st) with
        | Some st => (mkNode true st [], None)
        | None => (nd, None)
        end
    | _ => (nd, None)
    end.

Fixpoint authority_run (self : DirectoryAuthority) (nd : Node) (ops : list AuthorityOp) : Node * list ConsensusDocument :=
  match ops with
  | [] => (nd, [])
  | op :: rest =>
      let '(nd, o) := authority_step self nd op in
      let '(nd, docs) := authority_run self nd rest in
      (nd, option_list o ++ docs)
  end.

(** A machine on which the authority never ran. *)
Definition fresh_node : Node := mkNode false (mkDirectoryState ∅ NonceRegistry_new ∅ None) [].

Record node_ok (self : DirectoryAuthority) (nd : Node) : Prop := {
  no_table : directory_ok self (ds_active_relays (nd_state nd));
  no_inflight : Forall (directory_ok self) (nd_inflight nd);
}.

Lemma directory_empty self : directory_ok self ∅.
Proof. split; [done..|]. rewrite map_size_empty. done. Qed.

Lemma frozen_view_relays self st relays now w st' r :
  frozen_view self st relays now w = (st', r) -> ds_active_relays st' = ds_active_relays st.
Proof.
  unfold frozen_view. intros Hf. repeat (split_in Hf; simplify_eq/=); try done.
Qed.

(** No relay that is in both tables changed its identity or went back in
    time. *)
Definition no_takeover (R R' : gmap bytes RelayDescriptor) : Prop :=
  forall id r r', R !! id = Some r -> R' !! id = Some r' ->
    rd_identity_pin r' = rd_identity_pin r /\ rd_registered_at r <= rd_registered_at r'.

Lemma no_takeover_subset R R' : R' ⊆ R -> no_takeover R R'.
Proof. intros HR id r r' Hr Hr'. eapply lookup_weaken in Hr'; [|done]. simplify_eq. split; [done|lia]. Qed.

Lemma no_takeover_advances R R' : advances R R' -> no_takeover R R'.
Proof. intros HR id r r' Hr Hr'. destruct (HR _ _ Hr) as (r2 & E & ?). simplify_eq. done. Qed.

Lemma running_step_ok `{!HashOrderLaws} self nd op nd' o :
  node_ok self nd -> nd_running nd = true -> authority_step self nd op = (nd', o) ->
  node_ok self nd' /\ no_takeover (ds_active_relays (nd_state nd)) (ds_active_relays (nd_state nd')).
Proof.
  intros [Ht Hi] Er Hs. unfold authority_step in Hs. rewrite Er in Hs.
  destruct op as [d now|now|now|answers|i|relays now w| |io]; simplify_eq/=.
  - destruct (register_relay self (nd_state nd) d now) as [st' r] eqn:Eg.
    destruct (register_relay_ok _ _ _ _ _ _ Ht Eg) as (Hok & Ha & _). split; [by split|by apply no_takeover_advances].
  - split; [split; [by apply filter_ok|done]|]. apply no_takeover_subset, map_filter_subseteq.
  - split; [split; [by apply filter_ok|done]|]. apply no_takeover_subset, map_filter_subseteq.
  - split; [split; [done|constructor; [by apply reconcile_collect_ok|done]]|]. by apply no_takeover_subset.
  - destruct (nd_inflight nd !! i) as [local|] eqn:El; simplify_eq; [|split; [by split|by apply no_takeover_subset]].
    assert (Hl : directory_ok self local) by (by eapply Forall_lookup_1).
    destruct (reconcile_persist_ok _ _ _ _ _ Ht Hl (surjective_pairing _)) as [Hok Ha].
    split; [split; [exact Hok|]|exact (no_takeover_advances _ _ Ha)].
    cbn. rewrite (delete_Permutation _ _ _ El) in Hi. by apply Forall_cons in Hi as [_ ?].
  - destruct (frozen_view self (nd_state nd) relays now w) as [st' r] eqn:Ef. simplify_eq/=.
    apply frozen_view_relays in Ef. rewrite Ef. split; [split; cbn; [by rewrite Ef|done]|by apply no_takeover_subset].
  - split; [by split; [|constructor]|by apply no_takeover_subset].
  - split; [by split|by apply no_takeover_subset].
Qed.

Lemma authority_step_ok `{!HashOrderLaws} self nd op nd' o :
  node_ok self nd -> authority_step self nd op = (nd', o) -> node_ok self nd'.
Proof.
  intros Hok Hs. destruct (nd_running nd) eqn:Er; [by eapply running_step_ok in Hs as [? _]|].
  unfold authority_step in Hs. rewrite Er in Hs. destruct op; simplify_eq; try done.
  destruct (with_persistent_key self io _) as [st'|] eqn:Ew; simplify_eq; [|done].
  unfold with_persistent_key in Ew. repeat (split_in Ew; simplify_eq/=); (split; [apply directory_empty|constructor]).
Qed.

Lemma authority_run_ok `{!HashOrderLaws} self nd ops nd' docs :
  node_ok self nd -> authority_run self nd ops = (nd', docs) -> node_ok self nd'.
Proof.
  revert nd docs. induction ops as [|op ops IH]; intros nd docs Hok Hr; cbn in Hr; [by simplify_eq|].
  destruct (authority_step self nd op) as [nd1 o] eqn:E1. destruct (authority_run self nd1 ops) as [nd2 ds] eqn:E2.
  simplify_eq. eapply IH; [|exact E2]. by eapply authority_step_ok.
Qed.

(** ** One vote per epoch *)

(** A document this authority signed alone, filed under its epoch. *)
Definition own_vote (self : DirectoryAuthority) (e : Z) (d : ConsensusDocument) : Prop :=
  cd_valid_after d = e /\
  exists sig, cd_signatures d = [mkAuthoritySignature (da_authority_id self) sig] /\
    identity_sign (da_signing_key self) (compute_digest d) = Some sig.

(** The votes [m] still hold each document of [R], or have moved past it. *)
Definition covers (R : list ConsensusDocument) (m : gmap Z ConsensusDocument) : Prop :=
  forall d, d ∈ R -> m !! cd_valid_after d = Some d \/
    (m !! cd_valid_after d = None /\ exists e d', m !! e = Some d' /\ cd_valid_after d < e).

(** [R] holds every document the authority may have handed out. *)
Record vote_inv (self : DirectoryAuthority) (R : list ConsensusDocument) (nd : Node) : Prop := {
  vi_agree : forall d1 d2, d1 ∈ R -> d2 ∈ R -> cd_valid_after d1 = cd_valid_after d2 -> d1 = d2;
  vi_own : Forall (fun d => own_vote self (cd_valid_after d) d) R;
  vi_mem : nd_running nd = true ->
    (forall e d, ds_signed_epochs (nd_state nd) !! e = Some d -> d ∈ R /\ cd_valid_after d = e) /\
    covers R (ds_signed_epochs (nd_state nd));
  vi_disk : match ds_vote_file (nd_state nd) with
            | None => R = []
            | Some b => exists m, b = encode_votes (hash_values m) /\
                (forall e d, m !! e = Some d -> own_vote self e d) /\ covers R m
            end;
}.

Lemma no_later_vote (votes : gmap Z ConsensusDocument) epoch :
  existsb (fun kv => epoch <? kv.1) (map_to_list votes) = false -> forall e d, votes !! e = Some d -> e <= epoch.
Proof.
  intros Hx e d He. apply not_true_iff_false in Hx. destruct (Z.le_gt_cases e epoch) as [|Hgt]; [done|].
  exfalso. apply Hx, existsb_exists. exists (e, d). split; [by apply list_elem_of_In, elem_of_map_to_list|].
  by apply Z.ltb_lt.
Qed.

(** A new vote replaces only votes of earlier epochs. *)
Lemma covers_next R votes epoch doc (P : Z * ConsensusDocument -> Prop) `{!forall x, Decision (P x)} :
  covers R votes -> (forall e d, votes !! e = Some d -> cd_valid_after d = e /\ e <= epoch) -> votes !! epoch = None ->
  covers R (<[epoch := doc]> (filter P votes)) /\ forall d, d ∈ R -> cd_valid_after d < epoch.
Proof.
  intros Hc Hle Hn.
  assert (Hlt : forall d, d ∈ R -> cd_valid_after d < epoch).
  { intros d Hd. destruct (Hc d Hd) as [He|(He & e & d' & He' & Hlt)].
    - destruct (Hle _ _ He). destruct (decide (cd_valid_after d = epoch)) as [E|]; [|lia]. rewrite E, Hn in He. done.
    - apply Hle in He' as [_ ?]. lia. }
  split; [|done]. intros d Hd. pose proof (Hlt d Hd) as Hl. rewrite !lookup_insert_ne by lia.
  destruct (filter P votes !! cd_valid_after d) as [d'|] eqn:Ef; [left|right].
  - apply map_lookup_filter_Some in Ef as [Ef _]. destruct (Hc d Hd) as [He|(He & _)]; congruence.
  - split; [done|]. exists epoch, doc. by rewrite lookup_insert_eq.
Qed.

Lemma frozen_view_votes self st relays now w st' r R :
  da_persistent self = true ->
  (forall e d, ds_signed_epochs st !! e = Some d -> d ∈ R /\ cd_valid_after d = e) -> covers R (ds_signed_epochs st) ->
  frozen_view self st relays now w = (st', r) ->
  (st' = st /\ forall doc, r = Some (Ok doc) -> exists e, ds_signed_epochs st !! e = Some doc) \/
  exists epoch doc next, ds_signed_epochs st !! epoch = None /\ own_vote self epoch doc /\
    (forall e d, next !! e = Some d -> (e = epoch /\ d = doc) \/ ds_signed_epochs st !! e = Some d) /\
    covers (doc :: R) next /\ (forall d, d ∈ R -> cd_valid_after d < epoch) /\
    ((ds_signed_epochs st' = next /\ ds_vote_file st' = Some (encode_votes (hash_values next)) /\ r = Some (Ok doc)) \/
     (ds_signed_epochs st' = ds_signed_epochs st /\ (forall d, r <> Some (Ok d)) /\
      (ds_vote_file st' = ds_vote_file st \/ ds_vote_file st' = Some (encode_votes (hash_values next))))).
Proof.
  intros Hp Hin Hc Hf. unfold frozen_view in Hf. set (epoch := now / EPOCH_SECS * EPOCH_SECS) in *.
  destruct (existsb _ _) eqn:Eroll in Hf; [simplify_eq; left; split; [done|by intros]|].
  destruct (ds_signed_epochs st !! epoch) as [doc|] eqn:Ev.
  { left. repeat (split_in Hf; simplify_eq/=); (split; [done|]); intros d [=]; subst; eauto. }
  destruct (MAX_DIRECTORY_RELAYS <? _) in Hf; [simplify_eq; left; split; [done|by intros]|].
  destruct (_ && _) in Hf; [simplify_eq; left; split; [done|by intros]|].
  destruct (sign_with_authority _ _ _) as [doc|] eqn:Es; [|simplify_eq; left; split; [done|by intros]].
  right. rewrite Hp in Hf. set (next := <[epoch := doc]> _) in Hf.
  assert (Hown : own_vote self epoch doc).
  { unfold sign_with_authority in Es. destruct (identity_sign _ _) as [sig|] eqn:Ei; [|done]. simplify_eq/=.
    split; [done|]. exists sig. split; [done|exact Ei]. }
  destruct (covers_next R (ds_signed_epochs st) epoch doc (fun kv => epoch <= saturating_add u64_MAX kv.1 3600))
    as [Hcov Hlt]; [done| |done|].
  { intros e d He. split; [by apply Hin|]. by eapply no_later_vote. }
  exists epoch, doc, next. split_and!; [done|done| | |done|].
  - intros e d. unfold next. rewrite lookup_insert_Some. intros [[<- <-]|[_ [? _]%map_lookup_filter_Some]]; auto.
  - intros d [->|Hd]%elem_of_cons; [left|by apply Hcov]. destruct Hown as [-> _]. unfold next. by rewrite lookup_insert_eq.
  - destruct (atomic_write _ _ _) as [file ok] eqn:Ew. destruct ok; simplify_eq/=.
    + left. split; [done|]. apply atomic_write_content in Ew as [->|[_ ?]]; done.
    + right. split; [done|]. split; [done|]. apply atomic_write_content in Ew as [->|[-> _]]; auto.
Qed.

Lemma load_votes_spec own votes docs votes' :
  load_votes own votes docs = Some votes' ->
  forall e d, votes' !! e = Some d <-> votes !! e = Some d \/ (d ∈ docs /\ cd_valid_after d = e).
Proof.
  revert votes. induction docs as [|doc docs IH]; intros votes Hl e d; cbn in Hl.
  { simplify_eq. split; [auto|]. by intros [?|[?%not_elem_of_nil _]]. }
  destruct (_ || _) eqn:Eb in Hl; [done|]. reflect_bools. rewrite (IH _ Hl e d), lookup_insert_Some, elem_of_cons.
  split.
  - intros [[[<- <-]|[_ ?]]|[? ?]]; auto.
  - intros [He|[[->|?] <-]]; [|auto..]. left. right. split; [|done]. intros <-.
    match goal with Hn : ~ is_Some _ |- _ => apply Hn end. by exists d.
Qed.

Section Votes.
Context `{HOL : !HashOrderLaws} (parse_encode_votes : forall docs, parse_votes (encode_votes docs) = Some docs).

(** Starting up restores the votes on disk. *)
Lemma start_restores self io b m st :
  b = encode_votes (hash_values m) -> (forall e d, m !! e = Some d -> own_vote self e d) ->
  with_persistent_key self io (Some b) = Some st ->
  ds_signed_epochs st = m /\ ds_vote_file st = Some b /\ ds_active_relays st = ∅.
Proof.
  intros Hb Hm Hw. unfold with_persistent_key in Hw.
  destruct (read_bounded_file io (Some b) VOTE_FILE_MAX) as [b'|e] eqn:Er.
  2:{ case_bool_decide as Hk; [|done]. apply read_bounded_not_found in Er; [done|done|done]. }
  apply read_bounded_some in Er. simplify_eq. rewrite parse_encode_votes in Hw. destruct (13 <? _)%nat; [done|].
  destruct (load_votes _ _ _) as [votes|] eqn:El; [|done]. simplify_eq/=. split_and!; [|done|done].
  apply map_eq. intros e. apply option_eq. intros d. rewrite (load_votes_spec _ _ _ _ El), elem_of_hash_values. split.
  - intros [?|[[e' He'] <-]]; [done|]. by destruct (Hm _ _ He') as [-> _].
  - intros He. right. split; [eauto|]. by destruct (Hm _ _ He).
Qed.

Lemma vote_inv_start self R nd io st :
  vote_inv self R nd -> with_persistent_key self io (ds_vote_file (nd_state nd)) = Some st ->
  exists R', R ⊆ R' /\ vote_inv self R' (mkNode true st []).
Proof.
  intros [Hag Hown Hmem Hdisk] Hst. destruct (ds_vote_file (nd_state nd)) as [b|] eqn:Ef.
  - destruct Hdisk as (m & -> & Hm & Hc). destruct (start_restores _ _ _ m _ eq_refl Hm Hst) as (Hv & Hf & _).
    exists (R ++ hash_values m). split; [apply list_subseteq_app_l; done|].
    assert (Hmv : forall d, d ∈ hash_values m -> m !! cd_valid_after d = Some d).
    { intros d [e He]%elem_of_hash_values. by destruct (Hm _ _ He) as [-> _]. }
    assert (Hcross : forall d1 d2, d1 ∈ R -> d2 ∈ hash_values m -> cd_valid_after d1 = cd_valid_after d2 -> d1 = d2).
    { intros d1 d2 H1 H2%Hmv E. rewrite <- E in H2. destruct (Hc d1 H1) as [?|[? _]]; congruence. }
    assert (Hcov : covers (R ++ hash_values m) m).
    { intros d [Hd|Hd]%elem_of_app; [by apply Hc|left; by apply Hmv]. }
    split; cbn.
    + intros d1 d2 [H1|H1]%elem_of_app [H2|H2]%elem_of_app E; [by apply Hag|by apply Hcross|symmetry; by apply Hcross|].
      apply Hmv in H1, H2. congruence.
    + apply Forall_app. split; [done|]. apply Forall_forall. intros d Hd. apply Hmv in Hd. by apply Hm.
    + intros _. rewrite Hv. split; [|done]. intros e d He. split; [|by apply (Hm _ _ He)].
      apply elem_of_app. right. apply elem_of_hash_values. eauto.
    + rewrite Hf. exists m. done.
  - subst R. exists []. split; [done|]. unfold with_persistent_key in Hst.
    change (read_bounded_file io None VOTE_FILE_MAX) with (@Err IoError bytes (mkIoError NotFound "open")) in Hst.
    cbv beta iota in Hst. rewrite bool_decide_true in Hst by done. cbn in Hst. simplify_eq.
    split; cbn; [by intros ? ? ?%not_elem_of_nil|constructor| |done].
    intros _. split; [done|]. by intros d ?%not_elem_of_nil.
Qed.

Lemma vote_inv_same self R nd nd' :
  ds_signed_epochs (nd_state nd') = ds_signed_epochs (nd_state nd) -> ds_vote_file (nd_state nd') = ds_vote_file (nd_state nd) ->
  (nd_running nd' = true -> nd_running nd = true) -> vote_inv self R nd -> vote_inv self R nd'.
Proof. intros Ev Ef Hr [Hag Hown Hmem Hdisk]. split; [done|done|rewrite Ev; auto|by rewrite Ef]. Qed.

Lemma vote_inv_vote self R nd relays now w st' r :
  da_persistent self = true -> nd_running nd = true -> vote_inv self R nd ->
  frozen_view self (nd_state nd) relays now w = (st', r) ->
  exists R', R ⊆ R' /\ vote_inv self R' (with_state nd st') /\ forall d, r = Some (Ok d) -> d ∈ R'.
Proof.
  intros Hp Hrun Hinv Hf. destruct Hinv as [Hag Hown Hmem Hdisk]. destruct (Hmem Hrun) as [Hin Hc].
  destruct (frozen_view_votes _ _ _ _ _ _ _ R Hp Hin Hc Hf) as [[-> Hr]|(epoch & doc & next & Hn & Hdoc & Hnext & Hcov & Hlt & Hcase)].
  { exists R. split; [done|]. split; [by split|]. intros d Hd. destruct (Hr d Hd) as [e He]. by apply Hin in He as [? _]. }
  assert (Hnown : forall e d, next !! e = Some d -> own_vote self e d).
  { intros e d [[-> ->]|He]%Hnext; [done|]. apply Hin in He as [Hd <-]. rewrite Forall_forall in Hown. by apply Hown. }
  destruct Hcase as [(Ev & Ef & ->)|(Ev & Hr & Ef)].
  - exists (doc :: R). split; [by intros d Hd; right|]. split; [|intros d [= ->]; by left].
    assert (Hsep : forall d, d ∈ R -> cd_valid_after d <> cd_valid_after doc).
    { intros d Hd E. apply Hlt in Hd. destruct Hdoc as [? _]. lia. }
    split; cbn.
    + intros d1 d2 [->|H1]%elem_of_cons [->|H2]%elem_of_cons E; [done| |..|by apply Hag]; exfalso; [by apply (Hsep d2 H2)|by apply (Hsep d1 H1)].
    + constructor; [|done]. destruct Hdoc as [_ Hs]. by split.
    + intros _. rewrite Ev. split; [|done]. intros e d He. apply Hnext in He as [[-> ->]|He].
      * split; [by left|]. by destruct Hdoc.
      * apply Hin in He as [? ?]. split; [by right|done].
    + rewrite Ef. exists next. done.
  - exists R. split; [done|]. split; [|by intros d Hd; destruct (Hr d)]. split; cbn; [done|done|by rewrite Ev|].
    destruct Ef as [->| ->]; [done|]. exists next. split_and!; [done|done|]. intros d Hd. apply Hcov. by right.
Qed.

Lemma vote_inv_step self R nd op nd' o :
  da_persistent self = true -> vote_inv self R nd -> authority_step self nd op = (nd', o) ->
  exists R', R ⊆ R' /\ vote_inv self R' nd' /\ forall d, o = Some d -> d ∈ R'.
Proof.
  intros Hp Hinv Hs. unfold authority_step in Hs. destruct (nd_running nd) eqn:Er.
  - assert (Hsame : forall nd1, ds_signed_epochs (nd_state nd1) = ds_signed_epochs (nd_state nd) ->
              ds_vote_file (nd_state nd1) = ds_vote_file (nd_state nd) ->
              exists R', R ⊆ R' /\ vote_inv self R' nd1 /\ forall d, None = Some d -> d ∈ R').
    { intros nd1 E1 E2. exists R. split; [done|]. split; [|done]. by eapply vote_inv_same. }
    destruct op as [d now|now|now|answers|i|relays now w| |io]; simplify_eq; try (by apply Hsame).
    + apply Hsame; cbn; unfold register_relay; repeat (split_goal; cbn; try done).
    + destruct (nd_inflight nd !! i); simplify_eq; by apply Hsame.
    + destruct (frozen_view self (nd_state nd) relays now w) as [st' r] eqn:Ef. simplify_eq.
      destruct (vote_inv_vote _ _ _ _ _ _ _ _ Hp Er Hinv Ef) as (R' & Hsub & Hi & Hd). exists R'. split_and!; [done|done|].
      intros d. destruct r as [[doc|]|]; [|done..]. intros [= ->]. by apply Hd.
  - destruct op; simplify_eq; try (exists R; split; [done|split; [done|by intros]]).
    destruct (with_persistent_key self io _) as [st'|] eqn:Ew; simplify_eq; [|exists R; split; [done|split; [done|by intros]]].
    destruct (vote_inv_start _ _ _ _ _ Hinv Ew) as (R' & Hsub & Hi). exists R'. done.
Qed.

Lemma vote_inv_run self R nd ops nd' docs :
  da_persistent self = true -> vote_inv self R nd -> authority_run self nd ops = (nd', docs) ->
  exists R', R ⊆ R' /\ vote_inv self R' nd' /\ docs ⊆ R'.
Proof.
  intros Hp. revert R nd docs. induction ops as [|op ops IH]; intros R nd docs Hinv Hr; cbn in Hr.
  { simplify_eq. exists R. split; [done|]. split; [done|]. apply list_subseteq_nil. }
  destruct (authority_step self nd op) as [nd1 o] eqn:E1. destruct (authority_run self nd1 ops) as [nd2 ds] eqn:E2.
  simplify_eq. destruct (vote_inv_step _ _ _ _ _ _ Hp Hinv E1) as (R1 & Hs1 & Hi1 & Ho).
  destruct (IH _ _ _ Hi1 E2) as (R2 & Hs2 & Hi2 & Hd). exists R2. split; [by transitivity R1|]. split; [done|].
  intros d [Hx|Hx]%elem_of_app; [|by apply Hd]. apply Hs2, Ho. destruct o; cbn in Hx; [by apply list_elem_of_singleton in Hx as ->|by apply not_elem_of_nil in Hx].
Qed.

Lemma vote_inv_fresh self : vote_inv self [] fresh_node.
Proof. split; cbn; [by intros ? ? ?%not_elem_of_nil|constructor|done|done]. Qed.
End Votes.

(** An authority's own vote passes the check that guards its vote file. *)
Lemma own_vote_verifies `{!IdentityLaws} self e d now :
  own_vote self e d -> cd_valid_after d <= now < cd_valid_until d ->
  verify_quorum d {[da_authority_id self := verifying_key (da_signing_key self)]} 1 now = true.
Proof.
  intros (_ & sig & Hsig & Hsign) Hw.
  destruct (honest_votes (compute_digest d) {[da_authority_id self := verifying_key (da_signing_key self)]}
              [(da_authority_id self, da_signing_key self)] [mkAuthoritySignature (da_authority_id self) sig]) as [Hd Hl].
  { split; cbn; try apply NoDup_singleton. constructor; [|constructor]. by rewrite lookup_singleton_eq. }
  { constructor; [done|constructor]. }
  unfold verify_quorum. rewrite Hsig.
  rewrite (proj2 (orb_false_iff _ _)); [|split; [done|apply Z.leb_gt; lia]].
  rewrite (proj2 (orb_false_iff _ _)); [|split; [apply Z.ltb_ge|apply Z.leb_gt]; lia].
  rewrite <- counted_nil, quorum_loop_complete by exact Hd. cbn [app counted qs_valid_auth_count]. apply Z.leb_le.
  rewrite Hl. done.
Qed.

(** ** Cross-check *)

(** The signatures gathered so far, each with the key it verifies under. *)
Definition gathered_by (self : DirectoryAuthority) (digest : bytes) (acc : list AuthoritySignature * gset bytes) : Prop :=
  exists keys, length keys = length acc.1 /\ NoDup keys /\ acc.2 = list_to_set keys /\
    Forall2 (fun k sig => k ∈ independent_keys self /\ verify_strict k digest (as_signature_bytes sig) = Ok tt) keys acc.1.

Lemma add_signature_gathered self digest acc key reply :
  gathered_by self digest acc -> (forall k, key = Some k -> k ∈ independent_keys self) ->
  gathered_by self digest (add_signature digest acc (key, reply)).
Proof.
  intros Hg Hk. unfold add_signature. destruct key as [k|]; [|done]. destruct reply as [sig| |]; [|done..].
  destruct (Signature_from_slice _) as [s|] eqn:Es; [|done]. destruct (_ && _) eqn:Ev; [|done].
  unfold Signature_from_slice in Es. destruct (negb (length (as_signature_bytes sig) =? PROOF_SIZE)%nat) in Es; [done|].
  apply Ok_inj in Es as <-. apply andb_true_iff in Ev as [Ev Hn]. reflect_bools.
  destruct Hg as (keys & Hl & Hnd & Hs & Hf). exists (keys ++ [k]). cbn. split_and!.
  - rewrite !length_app, Hl. done.
  - apply NoDup_app. split_and!; [done| |apply NoDup_singleton]. intros x Hx ->%list_elem_of_singleton.
    apply Hn. rewrite Hs. by apply elem_of_list_to_set.
  - rewrite Hs, list_to_set_app_L. cbn. rewrite union_empty_r_L. apply (comm_L _).
  - apply Forall2_app; [done|]. constructor; [|constructor]. split; [by apply Hk|].
    by destruct (verify_strict k digest _) as [[]|].
Qed.

Lemma add_signatures_gathered self digest acc replies :
  gathered_by self digest acc -> Forall (fun p => forall k, p.1 = Some k -> k ∈ independent_keys self) replies ->
  gathered_by self digest (foldl (add_signature digest) acc replies).
Proof.
  intros Hg Hf. revert acc Hg. induction Hf as [|[key reply] replies Hk _ IH]; intros acc Hg; cbn; [done|].
  apply IH. by apply add_signature_gathered.
Qed.

Lemma peer_keys_independent self (replies : list CrossCheck) :
  Forall (fun p => forall k, p.1 = Some k -> k ∈ independent_keys self) (zip (cross_check_peers self).*2 replies).
Proof.
  apply Forall_forall. intros [key reply] Hin%elem_of_zip_l k E. cbn in E. subst.
  apply list_elem_of_fmap in Hin as ([a key'] & E & Hp). cbn in E. subst. apply list_elem_of_filter in Hp as [_ Hp].
  unfold independent_keys. apply elem_of_union_r, elem_of_list_to_set, list_elem_of_omap. eauto.
Qed.

Lemma cross_check_gathered `{!IdentityLaws} self doc replies doc' :
  own_vote self (cd_valid_after doc) doc -> cross_check self doc replies = Ok doc' ->
  compute_digest doc' = compute_digest doc /\ cd_valid_after doc' = cd_valid_after doc /\
  exists keys, NoDup keys /\ required_signatures self <= Z.of_nat (length keys) /\
    Forall2 (fun k sig => k ∈ independent_keys self /\ verify_strict k (compute_digest doc') (as_signature_bytes sig) = Ok tt)
      keys (cd_signatures doc').
Proof.
  intros (_ & sig & Hsig & Hsign) Hc. unfold cross_check in Hc. destruct (negb _) in Hc; [done|].
  set (own := {[verifying_key (da_signing_key self)]} : gset bytes) in Hc.
  assert (H0' : gathered_by self (compute_digest doc) (cd_signatures doc, own)).
  { exists [verifying_key (da_signing_key self)]. rewrite Hsig. cbn. split_and!; [done|apply NoDup_singleton| |].
    - by rewrite union_empty_r_L.
    - constructor; [|constructor]. split; [apply elem_of_union_l; by apply elem_of_singleton|].
      by apply identity_sign_verifies in Hsign as [_ ?]. }
  pose proof (add_signatures_gathered _ _ _ _ H0' (peer_keys_independent self replies)) as Hg.
  destruct (foldl _ _ _) as [sigs keyset]. destruct (_ <=? _) eqn:Eq in Hc; [|done]. apply Ok_inj in Hc as <-.
  split; [done|]. split; [done|]. destruct Hg as (keys & Hl & Hnd & _ & Hf). reflect_bools. exists keys. cbn in *.
  split_and!; [done|lia|exact Hf].
Qed.

(** What a running authority freezes after a reconciliation is its own vote. *)
Lemma reconciled_vote `{HOL : !HashOrderLaws} self R nd st0 local st1 relays now w st2 doc :
  da_persistent self = true -> nd_running nd = true -> vote_inv self R nd ->
  ds_signed_epochs st0 = ds_signed_epochs (nd_state nd) -> ds_vote_file st0 = ds_vote_file (nd_state nd) ->
  reconcile_persist self st0 local = (st1, relays) -> frozen_view self st1 relays now w = (st2, Some (Ok doc)) ->
  own_vote self (cd_valid_after doc) doc.
Proof.
  intros Hp Hrun Hinv Ev Ef Hr Hf. unfold reconcile_persist in Hr. apply pair_equal_spec in Hr as [<- _].
  destruct (vote_inv_vote self R (with_state nd (set_relays st0 (foldl persist_descriptor
              (drop_revoked self (ds_active_relays st0)) (hash_iter local)))) relays now w st2 (Some (Ok doc)) Hp Hrun)
    as (R' & _ & [_ Hown _ _] & Hd); [by apply (vote_inv_same _ _ nd)|exact Hf|].
  rewrite Forall_forall in Hown. exact (Hown doc (Hd _ eq_refl)).
Qed.

(** A peer only ever signs the digest it was asked about, with its own vote's
    signature. *)
Lemma cross_check_reply `{HOL : !HashOrderLaws} self R nd env digest_hex st' sig :
  da_persistent self = true -> nd_running nd = true -> vote_inv self R nd ->
  handle_cross_check self (nd_state nd) env digest_hex = (st', ReplySigned sig) ->
  exists doc, own_vote self (cd_valid_after doc) doc /\ hex_encode (compute_digest doc) = digest_hex /\
    cd_signatures doc = [sig].
Proof.
  intros Hp Hrun Hinv Hc. unfold handle_cross_check in Hc. destruct (reconcile_persist _ _ _) as [st1 relays] eqn:Ep.
  destruct (frozen_view self st1 relays _ _) as [st2 [[doc|]|]] eqn:Ef; [|by simplify_eq..].
  pose proof (reconciled_vote _ _ _ _ _ _ _ _ _ _ _ Hp Hrun Hinv eq_refl eq_refl Ep Ef) as Hown. case_bool_decide as Hh; [|by simplify_eq].
  destruct Hown as (Ha & sig' & Hs & Hsign). rewrite Hs in Hc. cbn in Hc. simplify_eq. exists doc.
  split_and!; [|done|done]. split; [done|]. eauto.
Qed.

(** ** Properties *)

(** The relay table of an authority. Whatever is registered, evicted,
    gossiped and voted on, in any interleaving (a reconciliation may finish
    long after its snapshot) and across restarts, every listed relay has a
    verified identity that is not retired, no two share an identity, a key
    component or an endpoint, the table stays within 512 relays, and no step
    replaces a listed relay by another identity or by an older descriptor. *)
Theorem authority_directory_sound `{!HashOrderLaws} (self : DirectoryAuthority) (ops : list AuthorityOp) (op : AuthorityOp)
    (nd nd' : Node) (docs : list ConsensusDocument) (o : option ConsensusDocument) :
  authority_run self fresh_node ops = (nd, docs) -> authority_step self nd op = (nd', o) ->
  directory_ok self (ds_active_relays (nd_state nd)) /\
  (nd_running nd = true -> no_takeover (ds_active_relays (nd_state nd)) (ds_active_relays (nd_state nd'))).
Proof.
  intros Hr Hs. apply authority_run_ok in Hr; [|split; [apply directory_empty|constructor]].
  split; [by destruct Hr|]. intros Hrun. by destruct (running_step_ok _ _ _ _ _ Hr Hrun Hs).
Qed.

(** C32: one vote per epoch. A persistent authority never hands out two
    different documents for the same epoch, whatever the clock does, however
    often it is stopped and started, and whichever writes of the vote file fail
    (even a write that replaces the file and then reports failure); and each
    document it hands out carries exactly its own signature. The JSON of the vote
    file reads back as what was written. *)
Theorem one_vote_per_epoch `{HOL : !HashOrderLaws} (self : DirectoryAuthority) (ops : list AuthorityOp) (nd : Node)
    (docs : list ConsensusDocument) (d1 d2 : ConsensusDocument) :
  (forall l, parse_votes (encode_votes l) = Some l) ->
  da_persistent self = true -> authority_run self fresh_node ops = (nd, docs) ->
  d1 ∈ docs -> d2 ∈ docs -> cd_valid_after d1 = cd_valid_after d2 ->
  d1 = d2 /\ own_vote self (cd_valid_after d1) d1.
Proof.
  intros Hpe Hp Hr H1 H2 E. destruct (vote_inv_run Hpe _ _ _ _ _ _ Hp (vote_inv_fresh self) Hr) as (R & _ & [Hag Hown _ _] & Hd).
  rewrite Forall_forall in Hown. split; [apply Hag; auto|apply Hown; auto].
Qed.

(** What an authority publishes is co-signed. If [generate_consensus] on a
    reachable state returns a document, it is the authority's own vote for the
    epoch carrying signatures over its digest that verify under at least
    [2n/3 + 1] distinct keys among its own and its peers' [n] pinned keys. *)
Theorem generate_consensus_cosigned `{HOL : !HashOrderLaws} `{!IdentityLaws} (self : DirectoryAuthority)
    (ops : list AuthorityOp) (nd : Node) (docs : list ConsensusDocument) (now now_view : Z)
    (answers : list (option (list RelayDescriptor) * Z)) (w : WriteOutcome) (replies : list CrossCheck)
    (st' : DirectoryState) (doc : ConsensusDocument) :
  (forall l, parse_votes (encode_votes l) = Some l) ->
  da_persistent self = true -> authority_run self fresh_node ops = (nd, docs) -> nd_running nd = true ->
  generate_consensus self (nd_state nd) now now_view answers w replies = (st', Some (Ok doc)) ->
  exists own keys, own_vote self (cd_valid_after own) own /\ compute_digest own = compute_digest doc /\
    NoDup keys /\ 2 * Z.of_nat (size (independent_keys self)) / 3 < Z.of_nat (length keys) /\
    Forall2 (fun k sig => k ∈ independent_keys self /\ verify_strict k (compute_digest doc) (as_signature_bytes sig) = Ok tt)
      keys (cd_signatures doc).
Proof.
  intros Hpe Hp Hr Hrun Hg. destruct (vote_inv_run Hpe _ _ _ _ _ _ Hp (vote_inv_fresh self) Hr) as (R & _ & Hinv & _).
  unfold generate_consensus in Hg. destruct (reconcile_persist _ _ _) as [st1 relays] eqn:Ep.
  destruct (frozen_view self st1 relays now_view w) as [st2 [[own|]|]] eqn:Ef; simplify_eq.
  pose proof (reconciled_vote self R nd (evict_stale (nd_state nd) now) _ _ _ _ _ _ _ Hp Hrun Hinv eq_refl eq_refl Ep Ef) as Hown.
  destruct (cross_check_gathered _ _ _ _ Hown ltac:(eassumption)) as (E1 & _ & keys & Hnd & Hlen & Hf).
  exists own, keys. unfold required_signatures in Hlen. split_and!; [done|done|done|lia|done].
Qed.

(** C11: agreement. Let some of the pinned authorities be honest: each ran this
    code from a fresh machine, and a valid vote of theirs on one of two
    documents is on a document they handed out (their signatures cannot be
    forged and the digests of these documents do not collide). If at most a
    third of the authorities are not honest, two documents for the same epoch
    that both verify with a quorum above two thirds have the same content. The
    JSON of a vote file reads back as what was written. *)
Theorem consensus_agreement `{HOL : !HashOrderLaws} (trusted : gmap bytes bytes) (honest : gset bytes)
    (released : bytes -> list ConsensusDocument) (d1 d2 : ConsensusDocument) (q t1 t2 : Z) :
  (forall l, parse_votes (encode_votes l) = Some l) ->
  (forall id, id ∈ honest -> Forall document_wf (released id) /\ exists self ops nd,
     da_persistent self = true /\ authority_run self fresh_node ops = (nd, released id)) ->
  (forall id v d, id ∈ honest -> d = d1 \/ d = d2 -> valid_vote (compute_digest d) trusted v -> v_id v = id ->
     exists doc, doc ∈ released id /\ digest_input doc = digest_input d) ->
  document_wf d1 -> document_wf d2 ->
  3 * Z.of_nat (size (dom trusted ∖ honest)) <= Z.of_nat (size trusted) ->
  2 * Z.of_nat (size trusted) / 3 < q ->
  verify_quorum d1 trusted q t1 = true -> verify_quorum d2 trusted q t2 = true ->
  cd_valid_after d1 = cd_valid_after d2 -> same_content d1 d2.
Proof.
  intros Hpe Hhon Huf W1 W2 Hbyz Hq V1 V2 E.
  apply verify_quorum_votes in V1 as (_ & _ & votes1 & Hd1 & Hq1 & Hf1).
  apply verify_quorum_votes in V2 as (_ & _ & votes2 & Hd2 & Hq2 & Hf2).
  destruct (votes_intersection (compute_digest d1) (compute_digest d2) trusted votes1 votes2 q) as (both & _ & Hn & Hb);
    [done|by eapply Forall_impl; [exact Hf1|intros ? []]|done|done|by eapply Forall_impl; [exact Hf2|intros ? []]|done|].
  destruct (decide (both ⊆ dom trusted ∖ honest)) as [Hsub|Hnsub].
  { apply subseteq_size in Hsub. specialize (Hn Hq). lia. }
  assert (exists id, id ∈ both /\ id ∈ honest) as (id & Hid & Hh).
  { destruct (set_choose_or_empty (both ∩ honest)) as [[id Hid]|Hem]; [exists id; by apply elem_of_intersection in Hid|].
    exfalso. apply Hnsub. intros id Hid. apply elem_of_difference. split.
    - destruct (Hb id Hid) as (v1 & _ & <- & _ & [Hk _] & _). by apply elem_of_dom_2 in Hk.
    - intros Hh. apply (not_elem_of_empty (C := gset bytes) id). rewrite <- Hem. by apply elem_of_intersection. }
  destruct (Hb id Hid) as (v1 & v2 & Hv1 & Hv2 & Hval1 & Hval2). destruct (Hhon id Hh) as (Hwf & self & ops & nd & Hp & Hrun).
  destruct (Huf id v1 d1 Hh (or_introl eq_refl) Hval1 Hv1) as (doc1 & Hin1 & Hdi1).
  destruct (Huf id v2 d2 Hh (or_intror eq_refl) Hval2 Hv2) as (doc2 & Hin2 & Hdi2).
  destruct (vote_inv_run Hpe _ _ _ _ _ _ Hp (vote_inv_fresh self) Hrun) as (R & _ & [Hag _ _ _] & HR).
  rewrite Forall_forall in Hwf.
  pose proof (digest_input_inj _ _ (Hwf _ Hin1) W1 Hdi1) as (Ea1 & _). pose proof (digest_input_inj _ _ (Hwf _ Hin2) W2 Hdi2) as (Ea2 & _).
  assert (doc1 = doc2) as -> by (apply Hag; [by apply HR|by apply HR|congruence]).
  apply digest_input_inj; [done|done|congruence].
Qed.
End Authority.

(** ** Witnesses *)
#[local] Existing Instance toy_identity.
#[local] Existing Instance toy_identity_laws.
#[local] Existing Instance map_order.
#[local] Existing Instance map_order_laws.

(** A JSON stand-in: every value in one number. *)
#[local] Instance RelayDescriptor_countable : Countable RelayDescriptor.
Proof.
  refine (inj_countable'
    (fun r => (rd_node_id r, rd_host r, rd_port r, rd_onion_key_x25519 r, rd_identity_pin r, rd_is_exit r,
               rd_pow_nonce r, rd_registered_at r, rd_signature r))
    (fun '(a, b, c, d, e, f, g, h, i) => mkRelayDescriptor a b c d e f g h i) _).
  by intros [].
Defined.
#[local] Instance AuthoritySignature_countable : Countable AuthoritySignature.
Proof.
  refine (inj_countable' (fun s => (as_authority_id s, as_signature_bytes s)) (fun '(a, b) => mkAuthoritySignature a b) _).
  by intros [].
Defined.
#[local] Instance ConsensusDocument_eq_dec : EqDecision ConsensusDocument.
Proof. solve_decision. Defined.
#[local] Instance ConsensusDocument_countable : Countable ConsensusDocument.
Proof.
  refine (inj_countable' (fun d => (cd_valid_after d, cd_valid_until d, cd_relays d, cd_signatures d))
            (fun '(a, b, c, d) => mkConsensusDocument a b c d) _).
  by intros [].
Defined.

Definition toy_encode_votes (docs : list ConsensusDocument) : bytes := [Z.pos (encode docs)].
Definition toy_parse_votes (b : bytes) : option (list ConsensusDocument) :=
  match b with [Z.pos p] => decode p | _ => None end.

Lemma toy_votes_roundtrip docs : toy_parse_votes (toy_encode_votes docs) = Some docs.
Proof. apply decode_encode. Qed.

Definition toy_directory : DirectoryAuthority :=
  mkDirectoryAuthority ∅ (str "auth-a") (toy_authority 1) (str "10.0.0.1:7000") 0 [] false false true.

Definition toy_registration : RelayDescriptor := default (toy_relay 1) (sign_with_key (toy_relay 1) (toy_authority 5)).
Definition toy_register_ops : list AuthorityOp :=
  [OpStart true; OpRegister toy_registration 1000; OpCollect []; OpEvictPeriodic 1100].
Definition toy_vote_ops : list AuthorityOp := [OpStart true; OpVote [] 600 Written; OpVote [] 650 Written].

Definition toy_run := authority_run toy_encode_votes toy_parse_votes toy_directory fresh_node.
Definition toy_step := authority_step toy_encode_votes toy_parse_votes toy_directory.

Lemma authority_directory_sound_witness :
  let nd := (toy_run toy_register_ops).1 in
  is_Some (ds_active_relays (nd_state nd) !! rd_node_id (toy_relay 1)) /\
  directory_ok toy_directory (ds_active_relays (nd_state nd)).
Proof.
  split; [apply (bool_decide_unpack _); vm_compute; exact I|].
  refine (proj1 (authority_directory_sound toy_encode_votes toy_parse_votes toy_directory toy_register_ops (OpPersist 0)
            (toy_run toy_register_ops).1 (toy_step (toy_run toy_register_ops).1 (OpPersist 0)).1
            (toy_run toy_register_ops).2 (toy_step (toy_run toy_register_ops).1 (OpPersist 0)).2 _ _));
    apply surjective_pairing.
Defined.

(** Both votes of the run, without their signatures. *)
Lemma toy_votes :
  (fun d => (cd_valid_after d, cd_valid_until d, cd_relays d)) <$> (toy_run toy_vote_ops).2 = [(600, 1200, []); (600, 1200, [])].
Proof. exact_no_check (@eq_refl (list (Z * Z * list RelayDescriptor)) [(600, 1200, []); (600, 1200, [])]). Qed.

Lemma toy_votes_docs :
  exists d1 d2, (toy_run toy_vote_ops).2 = [d1; d2] /\
    Forall (fun d => cd_valid_after d = 600 /\ cd_valid_until d = 1200 /\ cd_relays d = []) [d1; d2].
Proof.
  pose proof toy_votes as Hv. destruct (toy_run toy_vote_ops).2 as [|d1 [|d2 [|]]]; try discriminate Hv.
  exists d1, d2. split; [done|]. injection Hv as E1 E2 E3 E4 E5 E6. by repeat constructor.
Qed.

Lemma one_vote_per_epoch_witness :
  exists d1 d2, (toy_run toy_vote_ops).2 = [d1; d2] /\ d1 = d2 /\ own_vote toy_directory 600 d1.
Proof.
  destruct toy_votes_docs as (d1 & d2 & Hd & Hf). exists d1, d2. split; [exact Hd|].
  apply Forall_cons in Hf as [(E1 & _) Hf]. apply Forall_cons in Hf as [(E2 & _) _]. rewrite <- E1.
  refine (one_vote_per_epoch toy_encode_votes toy_parse_votes toy_directory toy_vote_ops (toy_run toy_vote_ops).1
            (toy_run toy_vote_ops).2 d1 d2 toy_votes_roundtrip eq_refl (surjective_pairing _) _ _ _).
  - rewrite Hd. left.
  - rewrite Hd. right. left.
  - congruence.
Defined.

Definition toy_trust : gmap bytes bytes := {[da_authority_id toy_directory := verifying_key (da_signing_key toy_directory)]}.

Lemma toy_vote_facts d :
  d ∈ (toy_run toy_vote_ops).2 -> cd_valid_after d = 600 /\ document_wf d /\ verify_quorum d toy_trust 1 700 = true.
Proof.
  intros Hin. destruct toy_votes_docs as (d1 & d2 & Hd & Hf).
  assert (Hown : own_vote toy_directory (cd_valid_after d) d).
  { destruct (vote_inv_run toy_encode_votes toy_parse_votes toy_votes_roundtrip toy_directory [] fresh_node toy_vote_ops
                (toy_run toy_vote_ops).1 (toy_run toy_vote_ops).2) as (R & _ & [_ Hown _ _] & HR);
      [done|apply vote_inv_fresh|apply surjective_pairing|].
    rewrite Forall_forall in Hown. by apply Hown, HR. }
  rewrite <- Hd, Forall_forall in Hf. destruct (Hf d Hin) as (E1 & E2 & E3). split; [done|]. split.
  - split; [rewrite E1; unfold_ints; lia|rewrite E2; unfold_ints; lia|rewrite E3; constructor].
  - apply (own_vote_verifies _ _ _ _ Hown). rewrite E1, E2. lia.
Qed.

Lemma consensus_agreement_witness :
  exists d1 d2, (toy_run toy_vote_ops).2 = [d1; d2] /\ same_content d1 d2.
Proof.
  destruct toy_votes_docs as (d1 & d2 & Hd & _). exists d1, d2. split; [exact Hd|].
  assert (H1 : d1 ∈ (toy_run toy_vote_ops).2) by (rewrite Hd; left).
  assert (H2 : d2 ∈ (toy_run toy_vote_ops).2) by (rewrite Hd; right; left).
  destruct (toy_vote_facts d1 H1) as (E1 & W1 & V1). destruct (toy_vote_facts d2 H2) as (E2 & W2 & V2).
  refine (consensus_agreement toy_encode_votes toy_parse_votes toy_trust {[str "auth-a"]} (fun _ => (toy_run toy_vote_ops).2)
            d1 d2 1 700 700 toy_votes_roundtrip _ _ W1 W2 _ _ V1 V2 (eq_trans E1 (eq_sym E2))).
  - intros id _. split; [apply Forall_forall; intros d Hin; exact (proj1 (proj2 (toy_vote_facts d Hin)))|].
    exists toy_directory, toy_vote_ops, (toy_run toy_vote_ops).1. split; [reflexivity|apply surjective_pairing].
  - intros id v d _ Hor _ _. exists d. split; [|reflexivity]. destruct Hor as [->| ->]; assumption.
  - unfold toy_trust. rewrite map_size_singleton, dom_singleton_L.
    change (da_authority_id toy_directory) with (str "auth-a"). rewrite difference_diag_L, size_empty. lia.
  - unfold toy_trust. rewrite map_size_singleton. reflexivity.
Defined.

Definition toy_generated :=
  generate_consensus toy_encode_votes toy_directory (nd_state (toy_run toy_vote_ops).1) 660 660 [] Written [].

Lemma toy_generated_ok : match toy_generated.2 with Some (Ok _) => true | _ => false end = true.
Proof. exact_no_check (@eq_refl bool true). Qed.

Lemma toy_running : nd_running (toy_run toy_vote_ops).1 = true.
Proof. exact_no_check (@eq_refl bool true). Qed.

Lemma toy_keys_size : size (independent_keys toy_directory) = 1%nat.
Proof.
  unfold independent_keys. change (list_to_set (omap snd (da_peer_authorities toy_directory)) : gset bytes) with (∅ : gset bytes).
  rewrite union_empty_r_L. apply size_singleton.
Qed.

Lemma generate_consensus_cosigned_witness :
  exists st' doc, toy_generated = (st', Some (Ok doc)) /\ (1 <= length (cd_signatures doc))%nat.
Proof.
  pose proof toy_generated_ok as Hr. destruct toy_generated as [st' r] eqn:Eg. cbn in Hr.
  destruct r as [[doc|]|]; [|discriminate Hr..]. exists st', doc. split; [reflexivity|].
  destruct (generate_consensus_cosigned toy_encode_votes toy_parse_votes toy_directory toy_vote_ops (toy_run toy_vote_ops).1
              (toy_run toy_vote_ops).2 660 660 [] Written [] st' doc toy_votes_roundtrip eq_refl (surjective_pairing _)
              toy_running Eg)
    as (own & keys & _ & _ & _ & Hn & Hf).
  apply Forall2_length in Hf. rewrite <- Hf. rewrite toy_keys_size in Hn. change (2 * Z.of_nat 1 / 3) with 0 in Hn. lia.
Defined.
