(* ===== verification/Node.v ===== *)
(** * Proxy nodes and guard state (src/mesh/node.rs, src/mesh/guards.rs)

    Parsing of a proxy endpoint around the [url] crate, whose parser is a
    parameter, and the persistent guard list with its checked loading. *)
From S2P Require Import Prelude Text Net Identity Storage ExitPolicy Sybil.

(** ** Data *)
Inductive ProxyProtocol := Http | Https | Socks4 | Socks4a | Socks5 | Socks5h | Reverse.

#[global] Instance ProxyProtocol_eq_dec : EqDecision ProxyProtocol.
Proof. solve_decision. Defined.

Definition display_protocol (p : ProxyProtocol) : bytes :=
  match p with
  | Http => str "http" | Https => str "https" | Socks4 => str "socks4" | Socks4a => str "socks4a"
  | Socks5 => str "socks5" | Socks5h => str "socks5h" | Reverse => str "reverse"
  end.

(** The latency is never assigned in this code base; its unit does not matter. *)
Record ProxyNode := mkProxyNode {
  pn_raw_url : bytes;
  pn_protocol : ProxyProtocol;
  pn_host : bytes;
  pn_port : Z;
  pn_username : option bytes;
  pn_password : option bytes;
  pn_latency_ms : option Z;
  pn_is_alive : bool;
  pn_failure_count : Z;
  pn_is_exit : bool;
}.

#[global] Instance ProxyNode_eq_dec : EqDecision ProxyNode.
Proof. solve_decision. Defined.

(** What [url::Url] gives access to. *)
Record Url := mkUrl {
  url_scheme : bytes;
  url_host_str : option bytes;
  url_port : option Z;
  url_username : bytes;
  url_password : option bytes;
}.

Inductive NodeError := InvalidUrl | UnsupportedProtocol (scheme : bytes) | MissingHost.

Definition default_port (p : ProxyProtocol) : Z :=
  match p with
  | Http => 8080
  | Https => 443
  | Socks4 | Socks4a | Socks5 | Socks5h => 1080
  | Reverse => 0
  end.

Definition protocol_of_scheme (scheme : bytes) : result NodeError ProxyProtocol :=
  if bool_decide (scheme = str "http") then Ok Http
  else if bool_decide (scheme = str "https") then Ok Https
  else if bool_decide (scheme = str "socks4") then Ok Socks4
  else if bool_decide (scheme = str "socks4a") then Ok Socks4a
  else if bool_decide (scheme = str "socks5") then Ok Socks5
  else if bool_decide (scheme = str "socks5h") then Ok Socks5h
  else if bool_decide (scheme = str "reverse") then Ok Reverse
  else Err (UnsupportedProtocol scheme).

(** [u16]'s [Display]. *)
Definition display_dec (n : Z) : bytes := str (pretty (Z.to_N n)).

(** [format!("{}:{}", host, port)]. *)
Definition endpoint_key (host : bytes) (port : Z) : bytes := host ++ [58] ++ display_dec port.

Definition node_key (n : ProxyNode) : bytes := endpoint_key (pn_host n) (pn_port n).

(** Upgrades socks5 and socks4 to the variants that resolve remotely. *)
Definition enforce_remote_dns (n : ProxyNode) : ProxyNode :=
  let protocol :=
    if bool_decide (pn_protocol n = Socks5) then Socks5h
    else if bool_decide (pn_protocol n = Socks4) then Socks4a else pn_protocol n in
  mkProxyNode (pn_raw_url n) protocol (pn_host n) (pn_port n) (pn_username n) (pn_password n) (pn_latency_ms n)
    (pn_is_alive n) (pn_failure_count n) (pn_is_exit n).

Section Node.
Context (unicode_lowercase : bytes -> bytes) (url_parse : bytes -> option Url).

Definition ProxyNode_parse (raw : bytes) : result NodeError ProxyNode :=
  let input := trim raw in
  let formatted := if negb (contains input (str "://")) then str "http://" ++ input else input in
  match url_parse formatted with
  | None => Err InvalidUrl
  | Some parsed =>
      let? protocol := protocol_of_scheme (to_lowercase unicode_lowercase (url_scheme parsed)) in
      match url_host_str parsed with
      | None => Err MissingHost
      | Some host =>
          Ok {| pn_raw_url := raw;
                pn_protocol := protocol;
                pn_host := trim_brackets host;
                pn_port := default (default_port protocol) (url_port parsed);
                pn_username := if (length (url_username parsed) =? 0)%nat then None else Some (url_username parsed);
                pn_password := url_password parsed;
                pn_latency_ms := None;
                pn_is_alive := true;
                pn_failure_count := 0;
                pn_is_exit := false |}
      end
  end.
End Node.

(** ** Guard state *)
Record GuardState := mkGuardState {
  gs_protocol_version : Z;
  gs_guards : list bytes;
  gs_identities : gmap bytes bytes;
}.

Definition GuardState_default : GuardState := {| gs_protocol_version := 6; gs_guards := []; gs_identities := ∅ |}.

Section Guards.
Context (parse_guards : bytes -> option GuardState).

Definition load_checked (io : bool) (content : option bytes) : result string GuardState :=
  match read_bounded_file io content 65536 with
  | Ok b =>
      match parse_guards b with
      | None => Err "Invalid persistent guard state; explicit v6 migration required"%string
      | Some state =>
          if negb (gs_protocol_version state =? 6) then
            Err "Unsupported guard identity format; explicit migration required"%string
          else Ok state
      end
  | Err e =>
      if bool_decide (io_kind e = NotFound) then Ok GuardState_default
      else Err "Cannot read persistent guard state"%string
  end.

Definition load (io : bool) (content : option bytes) : GuardState :=
  match load_checked io content with Ok s => s | Err _ => GuardState_default end.
End Guards.

(** ** Lemmas *)
Lemma load_checked_spec pg io f st :
  load_checked pg io f = Ok st -> match f with Some b => pg b = Some st | None => st = GuardState_default end.
Proof.
  unfold load_checked. destruct (read_bounded_file io f 65536) as [b|e] eqn:Hr.
  - apply read_bounded_some in Hr as ->. destruct (pg b); [|done]. destruct (negb _); [done|]. by intros <-%Ok_inj.
  - case_bool_decide; [|done]. apply read_bounded_not_found in Hr as ->; [|done..]. by intros <-%Ok_inj.
Qed.

Lemma str_inj s t : str s = str t -> s = t.
Proof.
  unfold str. intros E. rewrite <- (String.string_of_list_ascii_of_string s), <- (String.string_of_list_ascii_of_string t).
  f_equal. revert E. generalize (String.list_ascii_of_string s), (String.list_ascii_of_string t). clear.
  intros l1. induction l1 as [|c l1 IH]; intros [|c' l2] E; cbn in E; try done.
  injection E as Ec El. f_equal; [|by apply IH].
  apply Nat2Z.inj in Ec. by rewrite <- (Ascii.ascii_nat_embedding c), <- (Ascii.ascii_nat_embedding c'), Ec.
Qed.

Lemma display_dec_inj a b : 0 <= a -> 0 <= b -> display_dec a = display_dec b -> a = b.
Proof.
  intros Ha Hb E. apply str_inj, (inj pretty) in E. by apply Z2N.inj in E.
Qed.
