(* ===== verification/Pool.v ===== *)
(** * The client's relay pool (src/mesh/pool.rs)

    The relays a client may use, as accepted from quorum-signed directory
    documents, the rollback protection of that directory, the persistent entry
    guards and the selection of circuits. [ProxyPool] holds what the locks
    protect and the contents of the two files next to [guard_state_path]; each
    method is a function to the new pool and its answer. The clocks, the
    outcome of file operations and the iteration order of an [IndexMap] are
    arguments; JSON coding, the [url] crate and the random generator are
    parameters. *)
From S2P Require Import Prelude Text Net Replay Identity Storage ExitPolicy Sybil Consensus Node.

(** ** Data *)
Record AcceptedSnapshot := mkAcceptedSnapshot {
  sn_protocol_version : Z;
  sn_epoch : Z;
  sn_digest : bytes;
}.

Record ProxyPool := mkProxyPool {
  pl_revoked : gset bytes;
  pl_nodes : gmap bytes ProxyNode;
  pl_cursor : Z;
  pl_guard_cooldowns : gmap bytes Z;
  pl_consensus_deadline : Z;
  pl_accepted_snapshot : option AcceptedSnapshot;
  pl_identity_keys : gmap bytes bytes;
  pl_guard_state : GuardState;
  pl_guard_state_path : option bytes;   (* [snapshot_path] is set and cleared with it *)
  pl_snapshot_file : option bytes;      (* what the two files hold *)
  pl_guard_file : option bytes;
}.

(** The address parts the pool uses: flow label and scope of a V6 address are
    left out. *)
Record SocketAddr := mkSocketAddr { sa_ip : IpAddr; sa_port : Z }.

Definition display_socket (a : SocketAddr) : bytes :=
  match sa_ip a with
  | V4 _ => display_ip (sa_ip a) ++ [58] ++ display_dec (sa_port a)
  | V6 _ => [91] ++ display_ip (sa_ip a) ++ [93; 58] ++ display_dec (sa_port a)
  end.

Record BridgeTransport := mkBridgeTransport {
  bt_identity : bytes;
  bt_proxy : SocketAddr;
  bt_bridge : SocketAddr;
  bt_arguments : gmap bytes bytes;
}.

(** [format!("{}:{}", bridge.ip(), bridge.port())]. *)
Definition bridge_key (b : BridgeTransport) : bytes := endpoint_key (display_ip (sa_ip (bt_bridge b))) (sa_port (bt_bridge b)).

Inductive PoolError :=
| StatePathChanged | InvalidRollbackState | RollbackMigration | CannotReadRollback | GuardLoad (e : string)
| BadNode (e : NodeError) | ReadProxyFile | ReadProxyLine (n : nat) | InvalidProxyLine (n : nat)
| InvalidQuorum | DependentAuthorities | NoQuorum | ConflictingSnapshots | DirectoryRollback
| InvalidDescriptors | ConflictingEndpoint | InvalidProof | AliasedComponent | DuplicateIdentifier
| DuplicateEndpoint | NoRelays | CannotPersist.

(** ** Field updates *)
Definition set_nodes (p : ProxyPool) (nodes : gmap bytes ProxyNode) : ProxyPool :=
  mkProxyPool (pl_revoked p) nodes (pl_cursor p) (pl_guard_cooldowns p) (pl_consensus_deadline p) (pl_accepted_snapshot p)
    (pl_identity_keys p) (pl_guard_state p) (pl_guard_state_path p) (pl_snapshot_file p) (pl_guard_file p).
Definition set_cursor (p : ProxyPool) (c : Z) : ProxyPool :=
  mkProxyPool (pl_revoked p) (pl_nodes p) c (pl_guard_cooldowns p) (pl_consensus_deadline p) (pl_accepted_snapshot p)
    (pl_identity_keys p) (pl_guard_state p) (pl_guard_state_path p) (pl_snapshot_file p) (pl_guard_file p).
Definition set_snapshot_file (p : ProxyPool) (f : option bytes) : ProxyPool :=
  mkProxyPool (pl_revoked p) (pl_nodes p) (pl_cursor p) (pl_guard_cooldowns p) (pl_consensus_deadline p) (pl_accepted_snapshot p)
    (pl_identity_keys p) (pl_guard_state p) (pl_guard_state_path p) f (pl_guard_file p).
Definition set_guards (p : ProxyPool) (state : GuardState) (f : option bytes) : ProxyPool :=
  mkProxyPool (pl_revoked p) (pl_nodes p) (pl_cursor p) (pl_guard_cooldowns p) (pl_consensus_deadline p) (pl_accepted_snapshot p)
    (pl_identity_keys p) state (pl_guard_state_path p) (pl_snapshot_file p) f.

(** ** Construction and simple queries *)

(** [with_revoked_identities], beside files left by earlier runs. *)
Definition with_revoked_identities (revoked : gset bytes) (snapshot_file guard_file : option bytes) : ProxyPool :=
  mkProxyPool revoked ∅ 0 ∅ 0 None ∅ GuardState_default None snapshot_file guard_file.

Definition directory_expired (self : ProxyPool) (now_secs : Z) : bool :=
  negb (pl_consensus_deadline self =? 0) && (pl_consensus_deadline self <=? now_secs).

Definition is_mesh_target (self : ProxyPool) (now_secs : Z) (host : bytes) (port : Z) : bool :=
  if directory_expired self now_secs then false
  else bool_decide (is_Some (pl_identity_keys self !! endpoint_key host port)).

Definition ZERO_PIN : bytes := replicate 32 0.

Definition get_identity_keys (self : ProxyPool) (now_secs : Z) (chain : list ProxyNode) : list bytes :=
  if directory_expired self now_secs then replicate (length chain) ZERO_PIN
  else (fun n => default ZERO_PIN (pl_identity_keys self !! node_key n)) <$> chain.

Definition note_guard_link_failure (self : ProxyPool) (now : Z) (identity : bytes) : ProxyPool :=
  mkProxyPool (pl_revoked self) (pl_nodes self) (pl_cursor self)
    (<[identity := now + 60]> (filter (fun kv => now < kv.2) (pl_guard_cooldowns self))) (pl_consensus_deadline self)
    (pl_accepted_snapshot self) (pl_identity_keys self) (pl_guard_state self) (pl_guard_state_path self)
    (pl_snapshot_file self) (pl_guard_file self).

Definition total_count (self : ProxyPool) : nat := size (pl_nodes self).

Definition usize_MAX : Z := u64_MAX.

(** [BufRead::lines] on the raw bytes: a line that ends in a line feed loses it
    and a carriage return before it; an empty rest is no line. *)
Definition strip_cr (l : bytes) : bytes := if bool_decide (last l = Some 13) then take (length l - 1) l else l.
Fixpoint lines_of (parts : list bytes) : list bytes :=
  match parts with
  | [] => []
  | [rest] => if (length rest =? 0)%nat then [] else [rest]
  | line :: parts => strip_cr line :: lines_of parts
  end.
Definition lines (content : bytes) : list bytes := lines_of (split_on 10 content).

(** ** Directory documents *)

(** Stable sort, latest [valid_after] first. *)
Fixpoint insert_latest (d : ConsensusDocument) (l : list ConsensusDocument) : list ConsensusDocument :=
  match l with
  | [] => [d]
  | d' :: rest => if cd_valid_after d' <=? cd_valid_after d then d :: l else d' :: insert_latest d rest
  end.
Definition sort_latest (l : list ConsensusDocument) : list ConsensusDocument := foldr insert_latest [] l.

(** What the loop over the relays builds. *)
Record Replacement := mkReplacement {
  rp_nodes : gmap bytes ProxyNode;
  rp_keys : gmap bytes bytes;
  rp_identities : gset bytes;
  rp_signing_keys : gset bytes;
  rp_classical : gset bytes;
  rp_pq : gset bytes;
}.
Definition replacement_init : Replacement := mkReplacement ∅ ∅ ∅ ∅ ∅ ∅.

Fixpoint endpoints_consistent (seen : gmap (bytes * Z) bytes) (relays : list RelayDescriptor) : bool :=
  match relays with
  | [] => true
  | r :: rest =>
      match seen !! (rd_host r, rd_port r) with
      | Some previous =>
          bool_decide (previous = rd_identity_pin r)
          && endpoints_consistent (<[(rd_host r, rd_port r) := rd_identity_pin r]> seen) rest
      | None => endpoints_consistent (<[(rd_host r, rd_port r) := rd_identity_pin r]> seen) rest
      end
  end.

Definition relay_url (r : RelayDescriptor) : bytes :=
  if starts_with (rd_host r) (str "reverse://") then rd_host r
  else if bool_decide (58 ∈ rd_host r) then
    str "socks5://[" ++ rd_host r ++ str "]:" ++ display_dec (rd_port r)
  else str "socks5://" ++ rd_host r ++ str ":" ++ display_dec (rd_port r).

Definition set_exit (n : ProxyNode) (b : bool) : ProxyNode :=
  mkProxyNode (pn_raw_url n) (pn_protocol n) (pn_host n) (pn_port n) (pn_username n) (pn_password n) (pn_latency_ms n)
    (pn_is_alive n) (pn_failure_count n) b.

Definition set_health (n : ProxyNode) (alive : bool) (failures : Z) : ProxyNode :=
  mkProxyNode (pn_raw_url n) (pn_protocol n) (pn_host n) (pn_port n) (pn_username n) (pn_password n) (pn_latency_ms n)
    alive failures (pn_is_exit n).

Section Pool.
Context `{IdentityPrimitives} (unicode_lowercase : bytes -> bytes) (url_parse : bytes -> option Url).
Context (parse_snapshot : bytes -> option AcceptedSnapshot) (write_snapshot : AcceptedSnapshot -> bytes).
Context (parse_guards : bytes -> option GuardState) (write_guards : GuardState -> bytes).

Definition init_guard_state (self : ProxyPool) (path : bytes) (snapshot_io guard_io : bool) : ProxyPool * result PoolError unit :=
  match pl_guard_state_path self with
  | Some existing => (self, if bool_decide (existing = path) then Ok tt else Err StatePathChanged)
  | None =>
      let accepted :=
        match read_bounded_file snapshot_io (pl_snapshot_file self) 4096 with
        | Ok b =>
            match parse_snapshot b with
            | None => Err InvalidRollbackState
            | Some state => if negb (sn_protocol_version state =? 6) then Err RollbackMigration else Ok (Some state)
            end
        | Err e => if bool_decide (io_kind e = NotFound) then Ok None else Err CannotReadRollback
        end in
      match accepted with
      | Err e => (self, Err e)
      | Ok accepted =>
          match load_checked parse_guards guard_io (pl_guard_file self) with
          | Err e => (self, Err (GuardLoad e))
          | Ok state =>
              (mkProxyPool (pl_revoked self) (pl_nodes self) (pl_cursor self) (pl_guard_cooldowns self)
                 (pl_consensus_deadline self) accepted (pl_identity_keys self) state (Some path)
                 (pl_snapshot_file self) (pl_guard_file self), Ok tt)
          end
      end
  end.

Definition add_proxy (self : ProxyPool) (raw : bytes) : ProxyPool * result PoolError unit :=
  match ProxyNode_parse unicode_lowercase url_parse raw with
  | Err e => (self, Err (BadNode e))
  | Ok node =>
      let node := enforce_remote_dns node in
      (set_nodes self (<[node_key node := node]> (pl_nodes self)), Ok tt)
  end.

(** The loop over the numbered lines of a proxy file. *)
Fixpoint stage_lines (index : nat) (staged : gmap bytes ProxyNode) (ls : list bytes) : result PoolError (gmap bytes ProxyNode) :=
  match ls with
  | [] => Ok staged
  | line :: rest =>
      match from_utf8 line with
      | None => Err (ReadProxyLine (index + 1))
      | Some l =>
          let trimmed := trim l in
          if (length trimmed =? 0)%nat || starts_with trimmed (str "#") then stage_lines (index + 1) staged rest
          else
            match ProxyNode_parse unicode_lowercase url_parse trimmed with
            | Err _ => Err (InvalidProxyLine (index + 1))
            | Ok node =>
                let node := enforce_remote_dns node in
                stage_lines (index + 1) (<[node_key node := node]> staged) rest
            end
      end
  end.

Definition load_file (self : ProxyPool) (io : bool) (content : option bytes) : ProxyPool * result PoolError nat :=
  match read_bounded_file io content (1024 * 1024) with
  | Err _ => (self, Err ReadProxyFile)
  | Ok b =>
      match stage_lines 0 ∅ (lines b) with
      | Err e => (self, Err e)
      | Ok staged => (set_nodes self (staged ∪ pl_nodes self), Ok (size staged))
      end
  end.

(** One document joins the snapshot with its digest. *)
Definition admissible (current_time : Z) (doc : ConsensusDocument) : bool :=
  negb ((MAX_DIRECTORY_RELAYS <? Z.of_nat (length (cd_relays doc)))
        || (16 <? Z.of_nat (length (cd_signatures doc)))
        || (cd_valid_until doc <=? cd_valid_after doc)
        || (current_time <? cd_valid_after doc)
        || (cd_valid_until doc <=? current_time)).

Definition collect_snapshot (current_time : Z) (snapshots : gmap bytes ConsensusDocument) (doc : ConsensusDocument)
    : gmap bytes ConsensusDocument :=
  if negb (admissible current_time doc) then snapshots
  else
    let digest := compute_digest doc in
    match snapshots !! digest with
    | Some d => <[digest := (merge_signatures_from d doc).1]> snapshots
    | None => <[digest := doc]> snapshots
    end.

Definition collect_snapshots (current_time : Z) (docs : list ConsensusDocument) : gmap bytes ConsensusDocument :=
  fold_left (collect_snapshot current_time) docs ∅.

Definition quorum_candidates `{HashOrder} (docs : list ConsensusDocument) (authorities : gmap bytes bytes)
    (quorum_threshold current_time : Z) : list ConsensusDocument :=
  sort_latest (filter (fun d => verify_quorum d authorities quorum_threshold current_time = true)
                 (hash_values (collect_snapshots current_time docs))).

Definition select_snapshot `{HashOrder} (docs : list ConsensusDocument) (authorities : gmap bytes bytes)
    (quorum_threshold current_time : Z) : result PoolError ConsensusDocument :=
  let candidates := quorum_candidates docs authorities quorum_threshold current_time in
  match candidates with
  | [] => Err NoQuorum
  | selected :: _ =>
      if existsb (fun d => (cd_valid_after d =? cd_valid_after selected)
                           && negb (bool_decide (compute_digest d = compute_digest selected))) candidates
      then Err ConflictingSnapshots
      else Ok selected
  end.

(** Rollback or equivocation against the last accepted snapshot. *)
Definition rolls_back (accepted : option AcceptedSnapshot) (selected : ConsensusDocument) : bool :=
  match accepted with
  | Some previous =>
      (cd_valid_after selected <? sn_epoch previous)
      || ((cd_valid_after selected =? sn_epoch previous)
          && negb (bool_decide (compute_digest selected = sn_digest previous)))
  | None => false
  end.

(** The pins and node id of a relay must all be new. *)
Definition note_identity (acc : Replacement) (r : RelayDescriptor) : result PoolError Replacement :=
  match Signature_from_slice (rd_signature r) with
  | Err _ => Err InvalidProof
  | Ok proof =>
      match component_pins proof with
      | Err _ => Err InvalidProof
      | Ok (classical, pq) =>
          if bool_decide (classical ∈ rp_classical acc) || bool_decide (pq ∈ rp_pq acc) then Err AliasedComponent
          else if bool_decide (rd_node_id r ∈ rp_identities acc) || bool_decide (rd_identity_pin r ∈ rp_signing_keys acc)
          then Err DuplicateIdentifier
          else Ok (mkReplacement (rp_nodes acc) (rp_keys acc) ({[rd_node_id r]} ∪ rp_identities acc)
                     ({[rd_identity_pin r]} ∪ rp_signing_keys acc) ({[classical]} ∪ rp_classical acc) ({[pq]} ∪ rp_pq acc))
      end
  end.

(** One relay of the selected document. *)
Definition replace_relay (revoked : gset bytes) (acc : Replacement) (r : RelayDescriptor) : result PoolError Replacement :=
  let? acc := note_identity acc r in
  if bool_decide (rd_identity_pin r ∈ revoked) then Ok acc
  else
    match ProxyNode_parse unicode_lowercase url_parse (relay_url r) with
    | Err e => Err (BadNode e)
    | Ok node =>
        let node := set_exit (enforce_remote_dns node) (rd_is_exit r) in
        let key := node_key node in
        if bool_decide (is_Some (rp_nodes acc !! key)) then Err DuplicateEndpoint
        else Ok (mkReplacement (<[key := node]> (rp_nodes acc)) (<[key := rd_identity_pin r]> (rp_keys acc))
                   (rp_identities acc) (rp_signing_keys acc) (rp_classical acc) (rp_pq acc))
    end.

Fixpoint replace_relays (revoked : gset bytes) (acc : Replacement) (relays : list RelayDescriptor) : result PoolError Replacement :=
  match relays with
  | [] => Ok acc
  | r :: rest => let? acc := replace_relay revoked acc r in replace_relays revoked acc rest
  end.

(** The document to publish, with its replacement tables; nothing is written
    yet. *)
Definition prepare_replacement (self : ProxyPool) (selected : ConsensusDocument) : result PoolError Replacement :=
  if rolls_back (pl_accepted_snapshot self) selected then Err DirectoryRollback
  else if (length (cd_relays selected) =? 0)%nat || existsb (fun r => negb (verify_identity r)) (cd_relays selected)
  then Err InvalidDescriptors
  else if negb (endpoints_consistent ∅ (cd_relays selected)) then Err ConflictingEndpoint
  else
    let? rp := replace_relays (pl_revoked self) replacement_init (cd_relays selected) in
    if bool_decide (rp_nodes rp = ∅) then Err NoRelays else Ok rp.

Definition snapshot_of (d : ConsensusDocument) : AcceptedSnapshot := mkAcceptedSnapshot 6 (cd_valid_after d) (compute_digest d).

Definition publish (self : ProxyPool) (selected : ConsensusDocument) (rp : Replacement) : ProxyPool :=
  mkProxyPool (pl_revoked self) (rp_nodes rp) (pl_cursor self) (pl_guard_cooldowns self) (cd_valid_until selected)
    (Some (snapshot_of selected)) (rp_keys rp) (pl_guard_state self) (pl_guard_state_path self)
    (pl_snapshot_file self) (pl_guard_file self).

Definition load_from_multi_consensus `{HashOrder} (self : ProxyPool) (docs : list ConsensusDocument)
    (authorities : gmap bytes bytes) (quorum_threshold current_time : Z) (outcome : WriteOutcome)
    : ProxyPool * result PoolError nat :=
  if (quorum_threshold =? 0) || (Z.of_nat (size authorities) <? quorum_threshold) then (self, Err InvalidQuorum)
  else if negb (size (list_to_set (map_to_list authorities).*2 : gset bytes) =? size authorities)%nat then
    (self, Err DependentAuthorities)
  else
    match select_snapshot docs authorities quorum_threshold current_time with
    | Err e => (self, Err e)
    | Ok selected =>
        match prepare_replacement self selected with
        | Err e => (self, Err e)
        | Ok rp =>
            let '(file, ok) :=
              if bool_decide (is_Some (pl_guard_state_path self))
              then atomic_write (pl_snapshot_file self) outcome (write_snapshot (snapshot_of selected))
              else (pl_snapshot_file self, true) in
            let self := set_snapshot_file self file in
            if negb ok then (self, Err CannotPersist)
            else (publish self selected rp, Ok (size (rp_nodes rp)))
        end
    end.
End Pool.

(** ** Selection *)

(** The random generator of the [rand] crate: what the [n]th shuffle and the
    [n]th draw from an inclusive range of one call answer. *)
Class Rng := {
  shuffle : nat -> list ProxyNode -> list ProxyNode;
  gen_range : nat -> nat -> nat -> nat;
}.

Class RngLaws `{Rng} : Prop := {
  shuffle_perm : forall n l, shuffle n l ≡ₚ l;
  gen_range_bounds : forall n a b, (a <= b)%nat -> (a <= gen_range n a b <= b)%nat;
}.

Definition find_map {A B} (f : A -> option B) (l : list A) : option B := head (omap f l).

(** [validate_circuit_diversity] on the hosts of a path, unless switched off. *)
Definition diverse_path (enforce_diversity : bool) (path : list ProxyNode) : bool :=
  negb enforce_diversity || is_ok (validate_circuit_diversity (pn_host <$> path)).

Definition node_pin (self : ProxyPool) (n : ProxyNode) : option bytes := pl_identity_keys self !! node_key n.

Definition cooling (self : ProxyPool) (now : Z) (pin : bytes) : bool :=
  match pl_guard_cooldowns self !! pin with Some until => now <? until | None => false end.

Definition add_guard (state : GuardState) (endpoint : bytes) (pin : option bytes) : GuardState :=
  mkGuardState (gs_protocol_version state) (gs_guards state ++ [endpoint])
    (match pin with Some key => <[endpoint := key]> (gs_identities state) | None => gs_identities state end).

Section Selection.
Context `{HashOrder} `{Rng} (write_guards : GuardState -> bytes).

Definition alive_count (self : ProxyPool) : nat := length (filter (fun n => pn_is_alive n = true) (hash_values (pl_nodes self))).

(** The loop of [get_next] over [fuel] further positions. *)
Fixpoint next_alive (fuel : nat) (nodes : list ProxyNode) (cursor : Z) : Z * option ProxyNode :=
  let idx := Z.to_nat (cursor mod Z.of_nat (length nodes)) in
  let cursor' := wrapping_add usize_MAX cursor 1 in
  match fuel with
  | O => (cursor', nodes !! idx)
  | S fuel' =>
      match nodes !! idx with
      | Some node => if pn_is_alive node then (cursor', Some node) else next_alive fuel' nodes cursor'
      | None => next_alive fuel' nodes cursor'
      end
  end.

Definition get_next (self : ProxyPool) (now_secs : Z) : ProxyPool * option ProxyNode :=
  if directory_expired self now_secs then (self, None)
  else
    let nodes := hash_values (pl_nodes self) in
    if (length nodes =? 0)%nat then (self, None)
    else
      let '(cursor, node) := next_alive (length nodes) nodes (pl_cursor self) in
      (set_cursor self cursor, node).

Definition rotate_on_block (self : ProxyPool) (now_secs : Z) (blocked_url : bytes) : ProxyPool * option ProxyNode :=
  let self :=
    match List.find (fun kv => bool_decide (pn_raw_url kv.2 = blocked_url)) (hash_iter (pl_nodes self)) with
    | Some (key, node) =>
        let failures := wrapping_add u32_MAX (pn_failure_count node) 1 in
        set_nodes self (<[key := set_health node (if 3 <=? failures then false else pn_is_alive node) failures]> (pl_nodes self))
    | None => self
    end in
  get_next self now_secs.

Definition get_random_chain (self : ProxyPool) (now_secs : Z) (min_hops max_hops : nat) : list ProxyNode :=
  if directory_expired self now_secs then []
  else
    let nodes := hash_values (pl_nodes self) in
    let healthy := filter (fun n => pn_is_alive n = true) nodes in
    let healthy := if (length healthy =? 0)%nat then nodes else healthy in
    if (min_hops =? 0)%nat || (max_hops <? min_hops)%nat || (length healthy <? min_hops)%nat then []
    else
      let max_possible := (length healthy `min` max_hops)%nat in
      let min_possible := (min_hops `min` max_possible)%nat in
      let path_len :=
        if (min_possible <? max_possible)%nat then gen_range 0 min_possible max_possible
        else ((min_possible `max` 1) `min` length healthy)%nat in
      take path_len (shuffle 0 healthy).

(** Writing a new guard choice; on failure the old one is restored. *)
Definition save_guards (self : ProxyPool) (state : GuardState) (outcome : WriteOutcome) : ProxyPool * bool :=
  if bool_decide (is_Some (pl_guard_state_path self)) then
    let '(file, ok) := atomic_write (pl_guard_file self) outcome (write_guards state) in
    (set_guards self (if ok then state else pl_guard_state self) file, ok)
  else (set_guards self state (pl_guard_file self), true).

(** *** Public circuits *)

Definition entry_allowed (self : ProxyPool) (entry_pins : list bytes) (n : ProxyNode) : bool :=
  bool_decide (entry_pins = [])
  || match node_pin self n with Some pin => bool_decide (pin ∈ entry_pins) | None => false end.

Definition choose_guards (self : ProxyPool) (entry_pins : list bytes) (nodes : list ProxyNode) : GuardState :=
  fold_left (fun state n => add_guard state (node_key n) (node_pin self n))
    (take 3 (filter (fun n => entry_allowed self entry_pins n = true) nodes)) (pl_guard_state self).

Definition is_guard (self : ProxyPool) (entry_pins : list bytes) (endpoint : bytes) (n : ProxyNode) : bool :=
  match gs_identities (pl_guard_state self) !! endpoint with
  | Some pin => bool_decide (node_pin self n = Some pin) && (bool_decide (entry_pins = []) || bool_decide (pin ∈ entry_pins))
  | None => bool_decide (entry_pins = []) && bool_decide (pl_identity_keys self = ∅) && bool_decide (node_key n = endpoint)
  end.

Definition find_guard (self : ProxyPool) (entry_pins : list bytes) (nodes : list ProxyNode) : option ProxyNode :=
  find_map (fun endpoint => List.find (is_guard self entry_pins endpoint) nodes) (gs_guards (pl_guard_state self)).

(** The guard to use, choosing the guard set first when there is none. *)
Definition pick_guard (self : ProxyPool) (entry_pins : list bytes) (nodes : list ProxyNode) (outcome : WriteOutcome)
    : ProxyPool * option ProxyNode :=
  let '(self, ok) :=
    if (length (gs_guards (pl_guard_state self)) =? 0)%nat
    then save_guards self (choose_guards self entry_pins nodes) outcome else (self, true) in
  if negb ok then (self, None) else (self, find_guard self entry_pins nodes).

(** Greedy choice of middle hops that leaves room for the reserved exit. *)
Fixpoint fill_middles (enforce_diversity : bool) (exit : option ProxyNode) (count : nat) (selected pool : list ProxyNode)
    : list ProxyNode :=
  match pool with
  | [] => selected
  | candidate :: rest =>
      if (count <=? length selected)%nat then selected
      else if diverse_path enforce_diversity (selected ++ [candidate] ++ option_list exit)
      then fill_middles enforce_diversity exit count (selected ++ [candidate]) rest
      else fill_middles enforce_diversity exit count selected rest
  end.

(** From the reserved entry on: exit, middles and the final length. *)
Definition complete_path (min_hops : nat) (enforce_diversity require_exit : bool) (count : nat)
    (selected pool exits : list ProxyNode) : list ProxyNode :=
  let exit :=
    if require_exit then
      match List.find (fun n => diverse_path enforce_diversity (selected ++ [n])) (shuffle 1 exits) with
      | None => None
      | Some n => Some (Some n)
      end
    else Some None in
  match exit with
  | None => []
  | Some exit =>
      let selected := fill_middles enforce_diversity exit count selected pool in
      let reserved := length (option_list exit) in
      let available := (length selected + reserved)%nat in
      if (available <? min_hops)%nat then []
      else
        let len := gen_range 0 min_hops available in
        take (len - reserved) selected ++ option_list exit
  end.

Definition usable_node (self : ProxyPool) (now : Z) (n : ProxyNode) : bool :=
  pn_is_alive n && match node_pin self n with Some pin => negb (cooling self now pin) | None => true end.

Definition get_onion_chain_with_entry_pins (self : ProxyPool) (now_secs now : Z) (outcome : WriteOutcome)
    (min_hops max_hops : nat) (enforce_diversity require_exit_at_last : bool) (entry_pins : list bytes)
    : ProxyPool * list ProxyNode :=
  if directory_expired self now_secs then (self, [])
  else
    let all_healthy := filter (fun n => usable_node self now n = true) (hash_values (pl_nodes self)) in
    if (min_hops =? 0)%nat || (max_hops <? min_hops)%nat || (length all_healthy <? min_hops)%nat then (self, [])
    else
      let exit_nodes := if require_exit_at_last then filter (fun n => pn_is_exit n = true) all_healthy else all_healthy in
      let middle_nodes := if require_exit_at_last then filter (fun n => pn_is_exit n = false) all_healthy else all_healthy in
      if require_exit_at_last && (length exit_nodes =? 0)%nat then (self, [])
      else
        let capacity :=
          if require_exit_at_last then (length middle_nodes + (if (length exit_nodes =? 0)%nat then 0 else 1))%nat
          else length middle_nodes in
        let ceiling := ((max_hops `min` capacity) `min` Z.to_nat MAX_HOPS)%nat in
        if (min_hops =? 0)%nat || (ceiling <? min_hops)%nat || (Z.to_nat MAX_HOPS <? max_hops)%nat then (self, [])
        else
          let path_len := ceiling in
          let middle_count := if require_exit_at_last then (path_len - 1)%nat else path_len in
          let pool_for_middles := shuffle 0 middle_nodes in
          if (0 <? middle_count)%nat then
            match pick_guard self entry_pins pool_for_middles outcome with
            | (self, None) => (self, [])
            | (self, Some guard) =>
                let rest := filter (fun n => pn_host n <> pn_host guard \/ pn_port n <> pn_port guard) pool_for_middles in
                (self, complete_path min_hops enforce_diversity require_exit_at_last middle_count [guard] rest exit_nodes)
            end
          else (self, complete_path min_hops enforce_diversity require_exit_at_last middle_count [] pool_for_middles exit_nodes).

Definition get_diverse_onion_chain_with_exit (self : ProxyPool) (now_secs now : Z) (outcome : WriteOutcome)
    (min_hops max_hops : nat) (enforce_diversity require_exit_at_last : bool) : ProxyPool * list ProxyNode :=
  get_onion_chain_with_entry_pins self now_secs now outcome min_hops max_hops enforce_diversity require_exit_at_last [].

Definition get_diverse_onion_chain (self : ProxyPool) (now_secs now : Z) (outcome : WriteOutcome)
    (min_hops max_hops : nat) (enforce_diversity : bool) : ProxyPool * list ProxyNode :=
  get_diverse_onion_chain_with_exit self now_secs now outcome min_hops max_hops enforce_diversity true.
End Selection.

(** *** Circuits behind a private bridge *)
Section Private.
Context `{HashOrder} `{Rng} (write_guards : GuardState -> bytes).
Context (unicode_lowercase : bytes -> bytes) (url_parse : bytes -> option Url).

Definition choose_bridges (self : ProxyPool) (bindings : list BridgeTransport) : GuardState :=
  fold_left (fun state b => add_guard state (bridge_key b) (Some (bt_identity b))) (take 3 bindings) (pl_guard_state self).

Definition find_bridge (self : ProxyPool) (now : Z) (bindings : list BridgeTransport) : option BridgeTransport :=
  find_map (fun endpoint =>
    List.find (fun b => bool_decide (endpoint = bridge_key b)
                        && bool_decide (gs_identities (pl_guard_state self) !! endpoint = Some (bt_identity b))
                        && negb (cooling self now (bt_identity b))) bindings)
    (gs_guards (pl_guard_state self)).

(** Certified relays that are none of the bridges. *)
Definition behind_bridge (self : ProxyPool) (bindings : list BridgeTransport) (n : ProxyNode) : bool :=
  pn_is_alive n
  && match node_pin self n with
     | Some pin => negb (bool_decide (pin = ZERO_PIN)) && negb (existsb (fun b => bool_decide (bt_identity b = pin)) bindings)
     | None => false
     end
  && negb (existsb (fun b => bool_decide (display_ip (sa_ip (bt_bridge b)) = pn_host n)) bindings).

(** The inner loop stops at exactly [count] hops. *)
Fixpoint fill_behind (enforce_diversity : bool) (exit : ProxyNode) (count : nat) (selected pool : list ProxyNode)
    : list ProxyNode :=
  match pool with
  | [] => selected
  | middle :: rest =>
      if (length selected =? count)%nat then selected
      else if diverse_path enforce_diversity (selected ++ [middle; exit])
      then fill_behind enforce_diversity exit count (selected ++ [middle]) rest
      else fill_behind enforce_diversity exit count selected rest
  end.

(** The loop over the exits; [n] numbers the random draws. *)
Fixpoint try_exits (n : nat) (enforce_diversity : bool) (min_hops len : nat) (entry : ProxyNode)
    (middles exits : list ProxyNode) : list ProxyNode :=
  match exits with
  | [] => []
  | exit :: rest =>
      if negb (diverse_path enforce_diversity [entry; exit]) then try_exits (S n) enforce_diversity min_hops len entry middles rest
      else
        let selected := fill_behind enforce_diversity exit (len - 1) [entry] middles in
        if (min_hops <=? length selected + 1)%nat then
          let actual_length := gen_range n min_hops (length selected + 1) in
          take (actual_length - 1) selected ++ [exit]
        else try_exits (S n) enforce_diversity min_hops len entry middles rest
  end.

Definition get_private_bridge_chain_with_bounds (self : ProxyPool) (now_secs now : Z) (outcome : WriteOutcome)
    (bindings : list BridgeTransport) (enforce_diversity : bool) (min_hops max_hops : nat)
    : ProxyPool * list ProxyNode :=
  if (min_hops <? 3)%nat || (max_hops <? min_hops)%nat || (Z.to_nat MAX_HOPS <? max_hops)%nat then (self, [])
  else if (length bindings =? 0)%nat
       || existsb (fun b => bool_decide (bt_identity b ∈ pl_revoked self)) bindings
       || (pl_consensus_deadline self =? 0) || directory_expired self now_secs then (self, [])
  else
    let '(self, ok) :=
      if (length (gs_guards (pl_guard_state self)) =? 0)%nat
      then save_guards write_guards self (choose_bridges self bindings) outcome else (self, true) in
    if negb ok then (self, [])
    else
      match find_bridge self now bindings with
      | None => (self, [])
      | Some binding =>
          match ProxyNode_parse unicode_lowercase url_parse (str "socks5://" ++ display_socket (bt_bridge binding)) with
          | Err _ => (self, [])
          | Ok entry =>
              let candidates := shuffle 0 (filter (fun n => behind_bridge self bindings n = true) (hash_values (pl_nodes self))) in
              let middles := filter (fun n => pn_is_exit n = false) candidates in
              let ceiling := (max_hops `min` (length middles + 2))%nat in
              if (ceiling <? min_hops)%nat then (self, [])
              else (self, try_exits 0 enforce_diversity min_hops ceiling entry middles
                            (filter (fun n => pn_is_exit n = true) candidates))
          end
      end.

Definition get_private_bridge_chain (self : ProxyPool) (now_secs now : Z) (outcome : WriteOutcome)
    (bindings : list BridgeTransport) (enforce_diversity : bool) : ProxyPool * list ProxyNode :=
  get_private_bridge_chain_with_bounds self now_secs now outcome bindings enforce_diversity 3 3.
End Private.

(** ** Lemmas on paths *)
Definition keyed (nodes : gmap bytes ProxyNode) : Prop := forall k n, nodes !! k = Some n -> node_key n = k.

Lemma find_map_some {A B} (f : A -> option B) (l : list A) b : find_map f l = Some b -> exists a, a ∈ l /\ f a = Some b.
Proof.
  unfold find_map. intros Hh. apply list_elem_of_omap.
  destruct (omap f l) as [|x l']; [done|]. simplify_eq/=. by apply list_elem_of_here.
Qed.

Lemma find_elem {A} (f : A -> bool) (l : list A) a : List.find f l = Some a -> a ∈ l /\ f a = true.
Proof. intros [Hin Hf]%List.find_some. by rewrite list_elem_of_In. Qed.

Lemma sublist_map {A B} (f : A -> B) l l' : sublist l' l -> sublist (f <$> l') (f <$> l).
Proof. induction 1; cbn; by constructor. Qed.

Lemma diverse_path_sublist e l l' : sublist l' l -> diverse_path e l = true -> diverse_path e l' = true.
Proof.
  intros Hs. unfold diverse_path. destruct e; [|done]. cbn. intros Hl.
  destruct (validate_circuit_diversity (pn_host <$> l)) as [[]|] eqn:E; [|done].
  rewrite (diversity_sublist (pn_host <$> l)); [done| |done]. by apply sublist_map.
Qed.

Lemma fill_middles_spec e exit count selected pool :
  exists added, fill_middles e exit count selected pool = selected ++ added /\ sublist added pool /\
    (length (selected ++ added) <= length selected `max` count)%nat /\
    (added = [] \/ diverse_path e (selected ++ added ++ option_list exit) = true).
Proof.
  revert selected. induction pool as [|c pool IH]; intros selected; cbn [fill_middles].
  { exists []. rewrite app_nil_r. split_and!; [done|constructor|lia|by left]. }
  case_match eqn:Hc; [exists []; rewrite app_nil_r; split_and!; [done|apply sublist_nil_l|lia|by left]|].
  apply Nat.leb_gt in Hc. case_match eqn:Hd.
  - destruct (IH (selected ++ [c])) as (added & -> & Hs & Hl & Hdiv). exists (c :: added).
    rewrite !length_app in Hl. rewrite length_app. cbn [length] in *. split_and!; [by rewrite <- app_assoc|by constructor|lia|].
    right. destruct Hdiv as [->|Hdiv]; [done|]. by rewrite <- app_assoc in Hdiv.
  - destruct (IH selected) as (added & -> & Hs & Hl & Hdiv). exists added. split_and!; [done|by constructor|done|done].
Qed.

Lemma fill_behind_spec e exit count selected pool :
  diverse_path e (selected ++ [exit]) = true -> (length selected <= count)%nat ->
  exists added, fill_behind e exit count selected pool = selected ++ added /\ sublist added pool /\
    (length (selected ++ added) <= count)%nat /\ diverse_path e (selected ++ added ++ [exit]) = true.
Proof.
  revert selected. induction pool as [|c pool IH]; intros selected Hdiv Hlen; cbn [fill_behind].
  { exists []. rewrite app_nil_r. by split_and!; [|constructor| |]. }
  case_match eqn:Hc; [exists []; rewrite app_nil_r; split_and!; [done|apply sublist_nil_l|lia|done]|].
  apply Nat.eqb_neq in Hc. case_match eqn:Hd.
  - destruct (IH (selected ++ [c])) as (added & -> & Hs & Hl & Hdv);
      [by rewrite <- app_assoc|rewrite length_app; cbn; lia|].
    exists (c :: added). rewrite <- !app_assoc in *. split_and!; [done|by constructor|done|done].
  - destruct (IH selected Hdiv Hlen) as (added & -> & Hs & Hl & Hdv). exists added. split_and!; [done|by constructor|done|done].
Qed.

Section Paths.
Context {HO : HashOrder} {HOL : @HashOrderLaws HO} {R : Rng} {RL : @RngLaws R}.

Lemma keyed_NoDup nodes : keyed nodes -> NoDup (node_key <$> hash_values nodes).
Proof.
  intros Hk. rewrite hash_values_perm, <- list_fmap_compose.
  rewrite (list_fmap_ext (node_key ∘ snd) fst); [apply NoDup_fst_map_to_list|].
  intros i [k n] Hi. apply list_elem_of_lookup_2, elem_of_map_to_list in Hi. by apply Hk in Hi.
Qed.

Lemma NoDup_sublist_fmap {A B} (f : A -> B) l l' : sublist l' l -> NoDup (f <$> l) -> NoDup (f <$> l').
Proof. intros Hs Hn. by eapply sublist_NoDup, sublist_map. Qed.

(** What a completed path looks like: a reserved exit behind a prefix of the
    entry and greedily chosen middles. *)
Lemma complete_path_spec min e req count selected pool exits chain :
  (0 < min)%nat -> (length selected <= count)%nat ->
  complete_path min e req count selected pool exits = chain -> chain <> [] ->
  exists added exit k, chain = take k (selected ++ added) ++ option_list exit /\ sublist added pool /\
    (min <= length chain <= count + length (option_list exit))%nat /\
    (added = [] \/ diverse_path e (selected ++ added ++ option_list exit) = true) /\
    match exit with
    | Some x => req = true /\ x ∈ exits /\ diverse_path e (selected ++ [x]) = true
    | None => req = false
    end.
Proof.
  intros Hmin Hcount. unfold complete_path.
  set (exit := if req then _ else _). intros Hc Hne.
  assert (Hex : exists o, exit = Some o /\ match o with
    | Some x => req = true /\ x ∈ exits /\ diverse_path e (selected ++ [x]) = true | None => req = false end).
  { destruct exit as [o|] eqn:E; [|by subst chain]. exists o. split; [done|]. subst exit. destruct req.
    - destruct (List.find _ _) as [x|] eqn:Hf; [|done]. injection E as <-. apply find_elem in Hf as [Hin Hd].
      rewrite shuffle_perm in Hin. done.
    - by injection E as <-. }
  destruct Hex as (o & Ho & Hox). rewrite Ho in Hc.
  destruct (fill_middles_spec e o count selected pool) as (added & Hf & Hs & Hl & Hd). rewrite Hf in Hc.
  destruct (_ <? min)%nat eqn:Hm in Hc; [by subst chain|]. apply Nat.ltb_ge in Hm.
  pose proof (gen_range_bounds 0 _ _ Hm) as Hg. remember (gen_range _ _ _) as g.
  exists added, o, (g - length (option_list o))%nat. split; [done|]. split; [done|]. split; [|done].
  subst chain. rewrite length_app, length_take. destruct o; cbn in *; lia.
Qed.
End Paths.

(** ** Entry guards *)

(** Everything but the guard state and its file is as before. *)
Definition same_but_guards (p p' : ProxyPool) : Prop :=
  p' = set_guards p (pl_guard_state p') (pl_guard_file p').

(** [n] is a member of the guard set: it has the pinned identity of one of the
    guards, one of [entry_pins] if there are any; or, where no identity is
    known to the pool at all, the address of a guard. *)
Definition entry_guard (self : ProxyPool) (entry_pins : list bytes) (n : ProxyNode) : Prop :=
  exists endpoint, endpoint ∈ gs_guards (pl_guard_state self) /\
    ((exists pin, gs_identities (pl_guard_state self) !! endpoint = Some pin /\ node_pin self n = Some pin /\
        (entry_pins = [] \/ pin ∈ entry_pins)) \/
     (entry_pins = [] /\ pl_identity_keys self = ∅ /\ node_key n = endpoint)).

Lemma same_but_guards_refl p : same_but_guards p p.
Proof. by destruct p. Qed.

Lemma save_guards_spec wg self state outcome self' ok :
  save_guards wg self state outcome = (self', ok) ->
  same_but_guards self self' /\ pl_guard_state self' = (if ok then state else pl_guard_state self) /\
  (pl_guard_file self' = pl_guard_file self \/ pl_guard_file self' = Some (wg state)) /\
  (ok = true -> is_Some (pl_guard_state_path self) -> pl_guard_file self' = Some (wg state)).
Proof.
  unfold save_guards. case_bool_decide as Hp; [destruct outcome|]; cbn; intros [= <- <-]; (split; [by destruct self|]);
    cbn; split_and!; auto; done.
Qed.

Lemma add_guards_length {A} (f : GuardState -> A -> GuardState) (l : list A) state :
  (forall s x, length (gs_guards (f s x)) = S (length (gs_guards s))) ->
  length (gs_guards (fold_left f l state)) = (length (gs_guards state) + length l)%nat.
Proof. intros Hf. revert state. induction l as [|x l IH]; intros state; cbn; [lia|]. rewrite IH, Hf. lia. Qed.

Lemma choose_guards_length self pins nodes :
  gs_guards (pl_guard_state self) = [] -> (length (gs_guards (choose_guards self pins nodes)) <= 3)%nat.
Proof.
  intros E. unfold choose_guards. rewrite add_guards_length, E, length_take; [cbn [length]; lia|].
  intros s x. cbn. rewrite length_app. cbn. lia.
Qed.

Lemma choose_bridges_length self bindings :
  gs_guards (pl_guard_state self) = [] -> (length (gs_guards (choose_bridges self bindings)) <= 3)%nat.
Proof.
  intros E. unfold choose_bridges. rewrite add_guards_length, E, length_take; [cbn [length]; lia|].
  intros s x. cbn. rewrite length_app. cbn. lia.
Qed.

(** A guard choice is kept, or made once, of at most three guards, and written
    down. *)
Definition guards_kept (wg : GuardState -> bytes) (p p' : ProxyPool) : Prop :=
  (pl_guard_state p' = pl_guard_state p /\ pl_guard_file p' = pl_guard_file p) \/
  (gs_guards (pl_guard_state p) = [] /\
   exists state, (length (gs_guards state) <= 3)%nat /\
     (pl_guard_file p' = pl_guard_file p \/ pl_guard_file p' = Some (wg state)) /\
     (pl_guard_state p' = pl_guard_state p \/
      (pl_guard_state p' = state /\ (is_Some (pl_guard_state_path p) -> pl_guard_file p' = Some (wg state))))).

Lemma save_guards_kept wg self state outcome self' ok :
  gs_guards (pl_guard_state self) = [] -> (length (gs_guards state) <= 3)%nat ->
  save_guards wg self state outcome = (self', ok) -> guards_kept wg self self'.
Proof.
  intros Hg Hl (_ & Hst & Hf & Hw)%save_guards_spec. right. split; [done|]. exists state. split_and!; [done|done|].
  destruct ok; [right|by left]. auto.
Qed.

Lemma find_guard_spec self pins nodes g :
  find_guard self pins nodes = Some g -> g ∈ nodes /\ entry_guard self pins g.
Proof.
  intros (endpoint & Hin & [Hg Hi]%find_elem)%find_map_some. split; [done|]. exists endpoint. split; [done|].
  unfold is_guard in Hi. destruct (_ !! endpoint) as [pin|] eqn:E.
  - left. exists pin. split; [done|]. apply andb_true_iff in Hi as [Hi Hp]. apply orb_true_iff in Hp.
    split; [by apply bool_decide_eq_true in Hi|]. destruct Hp as [Hp|Hp]; apply bool_decide_eq_true in Hp; auto.
  - right. rewrite !andb_true_iff, !bool_decide_eq_true in Hi. tauto.
Qed.

Lemma pick_guard_spec wg self pins nodes outcome self' o :
  pick_guard wg self pins nodes outcome = (self', o) ->
  same_but_guards self self' /\ guards_kept wg self self' /\
  (gs_guards (pl_guard_state self) <> [] -> self' = self) /\
  match o with Some g => g ∈ nodes /\ entry_guard self' pins g | None => True end.
Proof.
  unfold pick_guard. destruct (length (gs_guards _) =? 0)%nat eqn:Hl.
  - apply Nat.eqb_eq, length_zero_iff_nil in Hl. destruct (save_guards _ _ _ _) as [p ok] eqn:Hs.
    pose proof (save_guards_kept _ _ _ _ _ _ Hl (choose_guards_length self pins nodes Hl) Hs) as Hk.
    apply save_guards_spec in Hs as (Hsame & _).
    destruct ok; cbn; intros [= <- <-]; (split_and!; [done|done|done|]); [|done].
    destruct (find_guard _ _ _) eqn:E; [by apply find_guard_spec|done].
  - cbn. intros [= <- <-]. split_and!; [apply same_but_guards_refl|by left|done|].
    destruct (find_guard _ _ _) eqn:E; [by apply find_guard_spec|done].
Qed.

(** ** Circuits *)
Section Chains.
Context {HO : HashOrder} {HOL : @HashOrderLaws HO} {R : Rng} {RL : @RngLaws R} (wg : GuardState -> bytes).

Definition healthy_nodes (self : ProxyPool) (now : Z) : list ProxyNode :=
  filter (fun n => usable_node self now n = true) (hash_values (pl_nodes self)).
Definition role_nodes (req role : bool) (l : list ProxyNode) : list ProxyNode :=
  if req then filter (fun n => pn_is_exit n = role) l else l.

Lemma role_nodes_elem req role l n : n ∈ role_nodes req role l -> n ∈ l /\ (req = true -> pn_is_exit n = role).
Proof. unfold role_nodes. destruct req; [rewrite list_elem_of_filter; tauto|done]. Qed.

Lemma role_nodes_NoDup req role l : NoDup (node_key <$> l) -> NoDup (node_key <$> role_nodes req role l).
Proof. intros Hn. unfold role_nodes. destruct req; [|done]. eapply NoDup_sublist_fmap; [apply sublist_filter|done]. Qed.

(** Every request that gets an answer reduces to completing a path from an
    entry that is a member of the guard set, or from nothing when only an exit
    is wanted. *)
Lemma onion_chain_inv self now_secs now outcome min max e req pins self' chain :
  get_onion_chain_with_entry_pins wg self now_secs now outcome min max e req pins = (self', chain) ->
  same_but_guards self self' /\ (gs_guards (pl_guard_state self) <> [] -> self' = self) /\
  (chain <> [] ->
   directory_expired self now_secs = false /\ (0 < min)%nat /\ (max <= Z.to_nat MAX_HOPS)%nat /\
   let middles := role_nodes req false (healthy_nodes self now) in
   exists selected count rest,
     complete_path min e req count selected rest (role_nodes req true (healthy_nodes self now)) = chain /\
     (length selected <= count)%nat /\ (count + (if req then 1 else 0) <= max)%nat /\
     ((selected = [] /\ req = true /\ count = 0%nat /\ rest = shuffle 0 middles) \/
      exists g, selected = [g] /\ g ∈ middles /\ entry_guard self' pins g /\
        rest = filter (fun n => pn_host n <> pn_host g \/ pn_port n <> pn_port g) (shuffle 0 middles))).
Proof.
  unfold get_onion_chain_with_entry_pins. fold (healthy_nodes self now).
  change (if req then filter (fun n => pn_is_exit n = true) (healthy_nodes self now) else healthy_nodes self now)
    with (role_nodes req true (healthy_nodes self now)).
  change (if req then filter (fun n => pn_is_exit n = false) (healthy_nodes self now) else healthy_nodes self now)
    with (role_nodes req false (healthy_nodes self now)).
  set (exits := role_nodes req true _). set (middles := role_nodes req false _). set (capacity := if req then _ else _).
  assert (Hgo : forall l : list ProxyNode, (self, []) = (self', l) -> self' = self /\ l = []) by (by intros ? [= -> ->]).
  do 4 (match goal with |- (if ?c then _ else _) = _ -> _ => destruct c eqn:? end;
        [intros [-> ->]%Hgo; by split; [apply same_but_guards_refl|]|]).
  reflect_bools.
  set (count := if req then _ else _).
  assert (Hcap : (min <= (max `min` capacity) `min` Z.to_nat MAX_HOPS)%nat) by lia.
  assert (Hcount : (count + (if req then 1 else 0) <= max)%nat) by (subst count; destruct req; lia).
  destruct (0 <? count)%nat eqn:Hpos; reflect_bools.
  - destruct (pick_guard _ _ _ _ _) as [p [g|]] eqn:Hp; intros [= <- <-];
      apply pick_guard_spec in Hp as (Hsame & _ & Hst & Hg); (split; [done|]; split; [done|]); [|done].
    destruct Hg as [Hin Hg]. rewrite shuffle_perm in Hin. intros _. split; [done|]. split; [lia|]. split; [lia|].
    exists [g], count, (filter (fun n => pn_host n <> pn_host g \/ pn_port n <> pn_port g) (shuffle 0 middles)).
    split; [done|]. cbn. split; [lia|]. split; [done|]. right. by exists g.
  - intros [= <- <-]. split; [apply same_but_guards_refl|]. split; [done|]. intros _. split; [done|]. split; [lia|]. split; [lia|].
    exists [], count, (shuffle 0 middles). split; [done|]. cbn. split; [lia|]. split; [done|]. left.
    subst count. destruct req; [|lia]. split_and!; try done; lia.
Qed.

Lemma keyed_inj nodes n1 n2 : keyed nodes -> n1 ∈ hash_values nodes -> n2 ∈ hash_values nodes -> node_key n1 = node_key n2 -> n1 = n2.
Proof.
  intros Hk [k1 H1]%elem_of_hash_values [k2 H2]%elem_of_hash_values E.
  rewrite (Hk _ _ H1), (Hk _ _ H2) in E. subst. congruence.
Qed.

Lemma healthy_elem self now n :
  n ∈ healthy_nodes self now -> n ∈ hash_values (pl_nodes self) /\ usable_node self now n = true.
Proof. unfold healthy_nodes. rewrite list_elem_of_filter. tauto. Qed.

Lemma exit_not_middle self now n x :
  keyed (pl_nodes self) -> n ∈ role_nodes true false (healthy_nodes self now) ->
  x ∈ role_nodes true true (healthy_nodes self now) -> node_key n <> node_key x.
Proof.
  intros Hk [Hn Hr]%role_nodes_elem [Hx Hr']%role_nodes_elem E. apply healthy_elem in Hn as [Hn _], Hx as [Hx _].
  rewrite (keyed_inj _ _ _ Hk Hn Hx E), Hr' in Hr by done. by specialize (Hr eq_refl).
Qed.

(** The hops a path is cut from: entry, middles and exit are different relays
    of the pool in their roles. *)
Lemma path_material self now req pins (selected added rest : list ProxyNode) (exit : option ProxyNode) self' :
  keyed (pl_nodes self) ->
  let middles := role_nodes req false (healthy_nodes self now) in
  (selected = [] /\ rest = shuffle 0 middles \/
   exists g, selected = [g] /\ g ∈ middles /\ entry_guard self' pins g /\
     rest = filter (fun n => pn_host n <> pn_host g \/ pn_port n <> pn_port g) (shuffle 0 middles)) ->
  sublist added rest ->
  match exit with Some x => req = true /\ x ∈ role_nodes req true (healthy_nodes self now) | None => req = false end ->
  (forall n, n ∈ selected ++ added -> n ∈ middles) /\
  (forall x, exit = Some x -> pn_is_exit x = true /\ x ∈ healthy_nodes self now) /\
  NoDup (node_key <$> selected ++ added ++ option_list exit).
Proof.
  intros Hk middles Hsel Hadd Hex.
  assert (Hrest : sublist rest (shuffle 0 middles)).
  { destruct Hsel as [[_ ->]|(g & _ & _ & _ & ->)]; [done|apply sublist_filter]. }
  assert (Hin : forall n, n ∈ added -> n ∈ middles).
  { intros n Hn. rewrite <- (shuffle_perm 0 middles). eapply elem_of_submseteq; [|by apply sublist_submseteq].
    eapply elem_of_submseteq; [done|by apply sublist_submseteq]. }
  assert (Hsin : forall n, n ∈ selected -> n ∈ middles).
  { destruct Hsel as [[-> _]|(g & -> & Hg & _)]; intros n; [by intros []%elem_of_nil|by intros ->%list_elem_of_singleton]. }
  assert (Hpool : forall n, n ∈ middles -> n ∈ hash_values (pl_nodes self)).
  { intros n [Hn _]%role_nodes_elem. by apply healthy_elem in Hn as [? _]. }
  split; [intros n [?|?]%elem_of_app; auto|].
  split; [intros x ->; destruct Hex as [-> [Hx He]%role_nodes_elem]; auto|].
  assert (Hmid : NoDup (node_key <$> shuffle 0 middles)).
  { rewrite shuffle_perm. apply role_nodes_NoDup. unfold healthy_nodes.
    eapply NoDup_sublist_fmap; [apply sublist_filter|by apply keyed_NoDup]. }
  rewrite !fmap_app. apply NoDup_app. split; [destruct Hsel as [[-> _]|(g & -> & _)]; repeat constructor; by intros []%elem_of_nil|].
  split.
  - destruct Hsel as [[-> _]|(g & -> & Hg & _ & ->)]; [by intros ? []%elem_of_nil|].
    intros ? ->%list_elem_of_singleton Hc. rewrite <- fmap_app in Hc. apply list_elem_of_fmap in Hc as (n & En & [Hn|Hn]%elem_of_app).
    + assert (g = n) as <- by (eapply keyed_inj; [done|by apply Hpool|by apply Hpool, Hin|done]).
      eapply elem_of_submseteq in Hn; [|by apply sublist_submseteq]. apply list_elem_of_filter in Hn as [[?|?] _]; done.
    + destruct exit as [x|]; [|by apply elem_of_nil in Hn]. apply list_elem_of_singleton in Hn as ->.
      destruct Hex as [-> Hx]. by eapply exit_not_middle.
  - apply NoDup_app. split; [eapply NoDup_sublist_fmap; [by etrans|done]|]. split.
    + intros ? (n & -> & Hn)%list_elem_of_fmap (x & En & Hx)%list_elem_of_fmap.
      destruct exit as [x'|]; [|by apply elem_of_nil in Hx]. apply list_elem_of_singleton in Hx as ->.
      destruct Hex as [-> Hx]. apply Hin in Hn. by eapply exit_not_middle.
    + destruct exit; repeat constructor; by intros []%elem_of_nil.
Qed.
End Chains.

(** ** Private circuits *)
Section PrivateChains.
Context {HO : HashOrder} {HOL : @HashOrderLaws HO} {R : Rng} {RL : @RngLaws R}.

Lemma try_exits_spec n e min len entry middles exits chain :
  (2 <= min <= len)%nat -> try_exits n e min len entry middles exits = chain -> chain <> [] ->
  exists front x, chain = entry :: front ++ [x] /\ x ∈ exits /\ (forall m, m ∈ front -> m ∈ middles) /\
    (min <= length chain <= len)%nat /\ diverse_path e chain = true /\
    (forall f : ProxyNode -> bytes, NoDup (f <$> middles) -> NoDup (f <$> front)).
Proof.
  intros Hmin. revert n. induction exits as [|x exits IH]; intros n; cbn [try_exits]; [by intros <-|].
  destruct (diverse_path e [entry; x]) eqn:Hd; cbn [negb].
  2: { intros Hc Hne. destruct (IH _ Hc Hne) as (front & y & ? & ? & ?). exists front, y. rewrite elem_of_cons. tauto. }
  destruct (fill_behind_spec e x (len - 1) [entry] middles) as (added & -> & Hs & Hl & Hdiv); [done|cbn; lia|].
  destruct (_ <=? _)%nat eqn:Hle.
  2: { intros Hc Hne. destruct (IH _ Hc Hne) as (front & y & ? & ? & ?). exists front, y. rewrite elem_of_cons. tauto. }
  apply Nat.leb_le in Hle. pose proof (gen_range_bounds n _ _ Hle) as Hg. set (g := gen_range _ _ _) in *.
  intros <- _. replace (g - 1)%nat with (S (g - 2)) by lia. exists (take (g - 2) added), x.
  assert (Hsub : sublist (take (g - 2) added) middles) by (etrans; [apply sublist_take|done]).
  split; [done|]. split; [apply list_elem_of_here|]. split_and!.
  - intros m Hm. eapply elem_of_submseteq; [done|by apply sublist_submseteq].
  - rewrite length_app, length_take. cbn in *. lia.
  - rewrite length_app, length_take. cbn in *. lia.
  - eapply diverse_path_sublist; [|exact Hdiv]. cbn. apply sublist_skip, sublist_app; [apply sublist_take|done].
  - intros f. by apply NoDup_sublist_fmap.
Qed.

Lemma behind_bridge_spec self bindings n :
  behind_bridge self bindings n = true -> pn_is_alive n = true /\
  exists pin, node_pin self n = Some pin /\ pin <> ZERO_PIN /\ forall b, b ∈ bindings -> bt_identity b <> pin.
Proof.
  unfold behind_bridge. intros [[Ha Hp]%andb_true_iff _]%andb_true_iff. split; [done|].
  destruct (node_pin self n) as [pin|]; [|done]. exists pin. split; [done|]. apply andb_true_iff in Hp as [Hz Hb].
  apply negb_true_iff, bool_decide_eq_false in Hz. split; [done|]. intros b Hin E. apply negb_true_iff in Hb.
  apply not_true_iff_false in Hb. apply Hb, existsb_exists. exists b. rewrite <- list_elem_of_In, bool_decide_true; done.
Qed.

(** The relays behind the bridge, as the pool holds them. *)
Lemma private_hops self bindings (front : list ProxyNode) x :
  let candidates := shuffle 0 (filter (fun n => behind_bridge self bindings n = true) (hash_values (pl_nodes self))) in
  keyed (pl_nodes self) ->
  x ∈ filter (fun n => pn_is_exit n = true) candidates ->
  (forall m, m ∈ front -> m ∈ filter (fun n => pn_is_exit n = false) candidates) ->
  (forall f : ProxyNode -> bytes, NoDup (f <$> filter (fun n => pn_is_exit n = false) candidates) -> NoDup (f <$> front)) ->
  pn_is_exit x = true /\ (forall m, m ∈ front -> pn_is_exit m = false) /\ NoDup (node_key <$> front ++ [x]) /\
  forall n, n ∈ front ++ [x] -> n ∈ hash_values (pl_nodes self) /\ behind_bridge self bindings n = true.
Proof.
  intros candidates Hk Hx Hfront Hnd. assert (Hc : forall n, n ∈ candidates -> n ∈ hash_values (pl_nodes self) /\ behind_bridge self bindings n = true).
  { intros n. unfold candidates. rewrite shuffle_perm, list_elem_of_filter. tauto. }
  apply list_elem_of_filter in Hx as [Hex Hx].
  assert (Hf : forall m, m ∈ front -> pn_is_exit m = false /\ m ∈ candidates).
  { intros m Hm%Hfront. by rewrite list_elem_of_filter in Hm. }
  split_and!; [done|by intros m []%Hf| |].
  - rewrite fmap_app. apply NoDup_snoc.
    + apply Hnd. eapply NoDup_sublist_fmap; [apply sublist_filter|]. unfold candidates. rewrite shuffle_perm.
      eapply NoDup_sublist_fmap; [apply sublist_filter|by apply keyed_NoDup].
    + intros (m & E & [Hm Hmc]%Hf)%list_elem_of_fmap. apply Hc in Hx as [Hx _], Hmc as [Hmc _].
      rewrite <- (keyed_inj _ _ _ Hk Hx Hmc E) in Hm. congruence.
  - intros n [[_ Hn]%Hf| ->%list_elem_of_singleton]%elem_of_app; by apply Hc.
Qed.

Lemma find_bridge_spec self now bindings b :
  find_bridge self now bindings = Some b ->
  b ∈ bindings /\ bridge_key b ∈ gs_guards (pl_guard_state self) /\
  gs_identities (pl_guard_state self) !! bridge_key b = Some (bt_identity b) /\ cooling self now (bt_identity b) = false.
Proof.
  intros (endpoint & Hin & [Hb Hf]%find_elem)%find_map_some. rewrite !andb_true_iff, !bool_decide_eq_true, negb_true_iff in Hf.
  destruct Hf as [[-> ?] ?]. done.
Qed.
End PrivateChains.

(** ** Round robin *)
Section RoundRobin.
Lemma next_alive_elem fuel nodes cursor :
  nodes <> [] -> exists n, (next_alive fuel nodes cursor).2 = Some n /\ n ∈ nodes.
Proof.
  intros Hne. assert (Hlen : 0 < Z.of_nat (length nodes)) by (destruct nodes; [done|cbn; lia]).
  assert (Hidx : forall c, exists n, nodes !! Z.to_nat (c mod Z.of_nat (length nodes)) = Some n).
  { intros c. apply lookup_lt_is_Some_2. pose proof (Z.mod_pos_bound c _ Hlen). lia. }
  revert cursor. induction fuel as [|fuel IH]; intros cursor; cbn [next_alive]; destruct (Hidx cursor) as [n Hn]; rewrite Hn.
  - exists n. split; [done|]. by eapply list_elem_of_lookup_2.
  - destruct (pn_is_alive n); [|apply IH]. exists n. split; [done|]. by eapply list_elem_of_lookup_2.
Qed.

Lemma next_alive_alive fuel nodes cursor i n :
  0 <= cursor -> cursor + Z.of_nat fuel <= usize_MAX -> (i < fuel)%nat ->
  nodes !! Z.to_nat ((cursor + Z.of_nat i) mod Z.of_nat (length nodes)) = Some n -> pn_is_alive n = true ->
  exists n', (next_alive fuel nodes cursor).2 = Some n' /\ n' ∈ nodes /\ pn_is_alive n' = true.
Proof.
  revert cursor i. induction fuel as [|fuel IH]; intros cursor i Hc Hmax Hi Hn Ha; [lia|]. cbn [next_alive].
  assert (Hwrap : wrapping_add usize_MAX cursor 1 = cursor + 1) by (unfold wrapping_add; apply Z.mod_small; lia).
  rewrite Hwrap. destruct i as [|i].
  - rewrite Z.add_0_r in Hn. rewrite Hn, Ha. exists n. split_and!; [done|by eapply list_elem_of_lookup_2|done].
  - assert (Hgo : exists n', (next_alive fuel nodes (cursor + 1)).2 = Some n' /\ n' ∈ nodes /\ pn_is_alive n' = true).
    { apply (IH (cursor + 1) i); [lia|lia|lia| |done]. by replace (cursor + 1 + Z.of_nat i) with (cursor + Z.of_nat (S i)) by lia. }
    clear Hn. destruct (nodes !! _) as [m|] eqn:Em; [|done]. destruct (pn_is_alive m) eqn:Ham; [|done].
    exists m. split_and!; [done|by eapply list_elem_of_lookup_2|done].
Qed.
End RoundRobin.

(** ** Loading a directory *)

(** [b] is not behind [a], and does not contradict it. *)
Definition snap_le (a b : AcceptedSnapshot) : Prop :=
  sn_epoch a < sn_epoch b \/ (sn_epoch a = sn_epoch b /\ sn_digest a = sn_digest b).

#[global] Instance snap_le_trans : Transitive snap_le.
Proof. intros a b c [?|[? ?]] [?|[? ?]]; unfold snap_le; first [left; lia|right; split; congruence]. Qed.

Lemma sorted_lookup {A} (R : relation A) l i j a b :
  StronglySorted R l -> (i < j)%nat -> l !! i = Some a -> l !! j = Some b -> R a b.
Proof.
  intros Hs. revert i j. induction Hs as [|x l _ IH Hx]; intros [|i] [|j] Hij Ha Hb; simplify_eq/=; try lia.
  - by eapply Forall_lookup_1.
  - eapply (IH i j); [lia|done|done].
Qed.

Lemma insert_latest_perm d l : insert_latest d l ≡ₚ d :: l.
Proof.
  induction l as [|d' l IH]; [done|]. cbn [insert_latest]. case_match; [done|]. rewrite IH. apply Permutation_swap.
Qed.

Lemma sort_latest_perm l : sort_latest l ≡ₚ l.
Proof. induction l as [|d l IH]; [done|]. cbn. by rewrite insert_latest_perm, IH. Qed.

Section Loading.
Context `{IdentityPrimitives} (unicode_lowercase : bytes -> bytes) (url_parse : bytes -> option Url).
Context (ws : AcceptedSnapshot -> bytes).

Lemma rolls_back_le (accepted : option AcceptedSnapshot) d s :
  rolls_back accepted d = false -> accepted = Some s -> snap_le s (snapshot_of d).
Proof.
  unfold rolls_back, snap_le. intros Hr ->. cbn. apply orb_false_iff in Hr as [H1 H2]. apply Z.ltb_ge in H1.
  destruct (decide (sn_epoch s = cd_valid_after d)) as [E|]; [|left; lia]. right. split; [done|].
  rewrite E, Z.eqb_refl in H2. cbn in H2. apply negb_false_iff, bool_decide_eq_true in H2. done.
Qed.

(** What the tables hold after the relays [relays] of a document. *)
Record replaced (revoked : gset bytes) (relays : list RelayDescriptor) (rp : Replacement) : Prop := {
  rpl_dom : dom (rp_nodes rp) = dom (rp_keys rp);
  rpl_keyed : keyed (rp_nodes rp);
  rpl_ids : NoDup (rd_node_id <$> relays);
  rpl_pins : NoDup (rd_identity_pin <$> relays);
  rpl_id_set : forall x, x ∈ rp_identities rp <-> x ∈ rd_node_id <$> relays;
  rpl_pin_set : forall x, x ∈ rp_signing_keys rp <-> x ∈ rd_identity_pin <$> relays;
  rpl_size : size (rp_nodes rp) = length (filter (fun r => rd_identity_pin r ∉ revoked) relays);
  rpl_entry : forall k n, rp_nodes rp !! k = Some n -> exists r, r ∈ relays /\ (rd_identity_pin r ∉ revoked) /\
    rp_keys rp !! k = Some (rd_identity_pin r) /\ pn_is_exit n = rd_is_exit r /\
    exists parsed, ProxyNode_parse unicode_lowercase url_parse (relay_url r) = Ok parsed /\
      n = set_exit (enforce_remote_dns parsed) (rd_is_exit r);
}.

Lemma replaced_init revoked : replaced revoked [] replacement_init.
Proof.
  constructor; cbn; try done; try constructor; intros; set_solver.
Qed.

Lemma note_identity_spec acc r acc' :
  note_identity acc r = Ok acc' ->
  rp_nodes acc' = rp_nodes acc /\ rp_keys acc' = rp_keys acc /\
  rp_identities acc' = {[rd_node_id r]} ∪ rp_identities acc /\
  rp_signing_keys acc' = {[rd_identity_pin r]} ∪ rp_signing_keys acc /\
  (rd_node_id r ∉ rp_identities acc) /\ (rd_identity_pin r ∉ rp_signing_keys acc).
Proof.
  unfold note_identity. intros Hn. repeat (split_in Hn; try discriminate Hn). apply Ok_inj in Hn as <-. cbn.
  reflect_bools. split_and!; try done; tauto.
Qed.

Lemma replace_relay_replaced revoked relays acc r acc' :
  replaced revoked relays acc -> replace_relay unicode_lowercase url_parse revoked acc r = Ok acc' ->
  replaced revoked (relays ++ [r]) acc'.
Proof.
  intros [Hdom Hkeyed Hids Hpins Hids' Hpins' Hsize Hentry]. unfold replace_relay.
  destruct (note_identity acc r) as [acc1|] eqn:Hn; [|discriminate 1].
  apply note_identity_spec in Hn as (En & Ek & Ei & Es & Hni & Hns). rewrite Hids' in Hni. rewrite Hpins' in Hns.
  assert (Hsets : (forall x, x ∈ rp_identities acc1 <-> x ∈ rd_node_id <$> relays ++ [r]) /\
                  (forall x, x ∈ rp_signing_keys acc1 <-> x ∈ rd_identity_pin <$> relays ++ [r])).
  { rewrite Ei, Es. split; intros x; rewrite fmap_app, elem_of_app, elem_of_union, elem_of_singleton,
      ?Hids', ?Hpins'; cbn; rewrite list_elem_of_singleton; tauto. }
  assert (Hnd : NoDup (rd_node_id <$> relays ++ [r]) /\ NoDup (rd_identity_pin <$> relays ++ [r])).
  { rewrite !fmap_app. split; apply NoDup_snoc; done. }
  destruct Hsets, Hnd. rewrite <- En in *. rewrite <- Ek in *. case_bool_decide as Hrev.
  - intros <-%Ok_inj. constructor; try done.
    + rewrite filter_app, length_app, filter_cons_False by tauto. cbn. lia.
    + intros k n (r' & Hr' & Hrest)%Hentry. exists r'. rewrite elem_of_app. auto.
  - destruct (ProxyNode_parse _ _ _) as [parsed|] eqn:Hp; [|discriminate 1].
    set (node := set_exit _ _). case_bool_decide as Hk; [discriminate 1|]. rewrite <- eq_None_not_Some in Hk.
    intros <-%Ok_inj. constructor; cbn; try done.
    + rewrite !dom_insert_L. congruence.
    + intros k n [[<- <-]|[_ ?]]%lookup_insert_Some; [done|by apply Hkeyed].
    + rewrite filter_app, length_app, filter_cons_True by done. cbn. rewrite map_size_insert_None by done. lia.
    + intros k n [[<- <-]|[Hne Hl]]%lookup_insert_Some.
      * exists r. rewrite elem_of_app, list_elem_of_singleton, lookup_insert_eq. split_and!; [by right|done|done|done|by exists parsed].
      * destruct (Hentry _ _ Hl) as (r' & Hr' & Hv & Hk' & Hrest). exists r'. rewrite elem_of_app, lookup_insert_ne by done. auto.
Qed.

Lemma replace_relays_replaced revoked seen relays acc rp :
  replaced revoked seen acc -> replace_relays unicode_lowercase url_parse revoked acc relays = Ok rp ->
  replaced revoked (seen ++ relays) rp.
Proof.
  revert seen acc. induction relays as [|r relays IH]; intros seen acc Ha; cbn [replace_relays].
  - intros <-%Ok_inj. by rewrite app_nil_r.
  - destruct (replace_relay _ _ _ _ _) as [acc'|] eqn:Hr; [|discriminate 1]. intros Hrest.
    change (r :: relays) with ([r] ++ relays). rewrite app_assoc. by eapply IH; [eapply replace_relay_replaced|].
Qed.

Lemma prepare_spec self d rp :
  prepare_replacement unicode_lowercase url_parse self d = Ok rp ->
  rolls_back (pl_accepted_snapshot self) d = false /\ replaced (pl_revoked self) (cd_relays d) rp /\
  Forall (fun r => verify_identity r = true) (cd_relays d) /\ rp_nodes rp <> ∅.
Proof.
  unfold prepare_replacement. destruct (rolls_back _ _); [discriminate 1|].
  destruct (_ || _) eqn:Hv; [discriminate 1|]. destruct (negb _); [discriminate 1|].
  destruct (replace_relays _ _ _ _ _) as [rp'|] eqn:Hr; [|discriminate 1]. case_bool_decide as He; [discriminate 1|].
  intros <-%Ok_inj. split; [done|]. split; [by apply (replace_relays_replaced _ [] _ _ _ (replaced_init _)) in Hr|].
  split; [|done]. apply orb_false_iff in Hv as [_ Hv]. apply Forall_forall. intros r Hr'.
  destruct (verify_identity r) eqn:E; [done|]. apply not_true_iff_false in Hv. exfalso. apply Hv, existsb_exists.
  exists r. rewrite <- list_elem_of_In, E. done.
Qed.

Context {HO : HashOrder} {HOL : @HashOrderLaws HO}.

Lemma select_snapshot_quorum docs authorities q now d :
  select_snapshot docs authorities q now = Ok d ->
  verify_quorum d authorities q now = true /\
  (forall d', d' ∈ quorum_candidates docs authorities q now -> cd_valid_after d' = cd_valid_after d ->
     compute_digest d' = compute_digest d).
Proof.
  unfold select_snapshot. destruct (quorum_candidates _ _ _ _) as [|c l] eqn:E; [done|].
  case_match eqn:Hx; [done|]. intros <-%Ok_inj. split.
  - assert (Hc : c ∈ quorum_candidates docs authorities q now) by (rewrite E; apply list_elem_of_here).
    unfold quorum_candidates in Hc. rewrite sort_latest_perm, list_elem_of_filter in Hc. tauto.
  - intros d' Hd Ha. destruct (decide (compute_digest d' = compute_digest c)) as [|Hne]; [done|]. exfalso.
    apply not_true_iff_false in Hx. apply Hx, existsb_exists. exists d'. rewrite <- list_elem_of_In. split; [done|].
    by rewrite Ha, Z.eqb_refl, bool_decide_false.
Qed.

Definition certified_load (self self' : ProxyPool) (authorities : gmap bytes bytes) (q now : Z) (d : ConsensusDocument) : Prop :=
  exists rp file, verify_quorum d authorities q now = true /\
    prepare_replacement unicode_lowercase url_parse self d = Ok rp /\
    (is_Some (pl_guard_state_path self) -> file = Some (ws (snapshot_of d))) /\
    self' = publish (set_snapshot_file self file) d rp.

Lemma load_inv self docs authorities q now outcome self' res :
  load_from_multi_consensus unicode_lowercase url_parse ws self docs authorities q now outcome = (self', res) ->
  match res with
  | Ok n => n = size (pl_nodes self') /\ exists d, certified_load self self' authorities q now d
  | Err e => self' = self \/ exists d rp, e = CannotPersist /\
      prepare_replacement unicode_lowercase url_parse self d = Ok rp /\
      self' = set_snapshot_file self (Some (ws (snapshot_of d)))
  end.
Proof.
  unfold load_from_multi_consensus.
  destruct (_ || _); [intros [= <- <-]; by left|]. destruct (negb _); [intros [= <- <-]; by left|].
  destruct (select_snapshot _ _ _ _) as [d|] eqn:Hs; [|intros [= <- <-]; by left].
  apply select_snapshot_quorum in Hs as [Hq _].
  destruct (prepare_replacement _ _ _ _) as [rp|] eqn:Hp; [|intros [= <- <-]; by left].
  case_bool_decide as Hpath; [destruct outcome|]; cbn; intros [= <- <-].
  - split; [done|]. exists d, rp, (Some (ws (snapshot_of d))). by split_and!.
  - left. by destruct self.
  - right. by exists d, rp.
  - split; [done|]. exists d, rp, (pl_snapshot_file self). by split_and!.
Qed.
End Loading.

(** ** Histories of a client

    A client process is up, with its pool, or has refused to start; its two
    files stay. Each operation brings its own iteration orders, random answers
    and outcomes of file operations. *)
Inductive Client := Up (pool : ProxyPool) | Refused (snapshot_file guard_file : option bytes).

Inductive PoolOp :=
| OpLoad (order : HashOrder) (docs : list ConsensusDocument) (authorities : gmap bytes bytes) (q now : Z) (outcome : WriteOutcome)
| OpAddProxy (raw : bytes)
| OpLoadFile (io : bool) (content : option bytes)
| OpLinkFailure (now : Z) (identity : bytes)
| OpNext (order : HashOrder) (now_secs : Z)
| OpRotate (order : HashOrder) (now_secs : Z) (url : bytes)
| OpChain (order : HashOrder) (rng : Rng) (now_secs now : Z) (outcome : WriteOutcome) (min max : nat) (e req : bool) (pins : list bytes)
| OpPrivate (order : HashOrder) (rng : Rng) (now_secs now : Z) (outcome : WriteOutcome) (bindings : list BridgeTransport)
    (e : bool) (min max : nat)
| OpRestart (revoked : gset bytes) (snapshot_io guard_io : bool).

Definition op_lawful (op : PoolOp) : Prop :=
  match op with
  | OpLoad order _ _ _ _ _ => @HashOrderLaws order
  | _ => True
  end.

Section Histories.
Context `{IdentityPrimitives} (unicode_lowercase : bytes -> bytes) (url_parse : bytes -> option Url).
Context (ps : bytes -> option AcceptedSnapshot) (ws : AcceptedSnapshot -> bytes).
Context (pg : bytes -> option GuardState) (wg : GuardState -> bytes).
Context (path : bytes).

Definition files (c : Client) : option bytes * option bytes :=
  match c with Up p => (pl_snapshot_file p, pl_guard_file p) | Refused s g => (s, g) end.

(** A start installs the retirement policy and the state path, and refuses to
    run when that fails. *)
Definition restart (c : Client) (revoked : gset bytes) (snapshot_io guard_io : bool) : Client :=
  match init_guard_state ps pg (with_revoked_identities revoked (files c).1 (files c).2) path snapshot_io guard_io with
  | (p, Ok _) => Up p
  | (_, Err _) => Refused (files c).1 (files c).2
  end.

(** One operation on a running pool, with the snapshot it accepted. *)
Definition pool_op (p : ProxyPool) (op : PoolOp) : ProxyPool * option AcceptedSnapshot :=
  match op with
  | OpLoad order docs authorities q now outcome =>
      match @load_from_multi_consensus _ unicode_lowercase url_parse ws order p docs authorities q now outcome with
      | (p', Ok _) => (p', pl_accepted_snapshot p')
      | (p', Err _) => (p', None)
      end
  | OpAddProxy raw => ((add_proxy unicode_lowercase url_parse p raw).1, None)
  | OpLoadFile io content => ((load_file unicode_lowercase url_parse p io content).1, None)
  | OpLinkFailure now identity => (note_guard_link_failure p now identity, None)
  | OpNext order now_secs => ((@get_next order p now_secs).1, None)
  | OpRotate order now_secs url => ((@rotate_on_block order p now_secs url).1, None)
  | OpChain order rng now_secs now outcome min max e req pins =>
      ((@get_onion_chain_with_entry_pins order rng wg p now_secs now outcome min max e req pins).1, None)
  | OpPrivate order rng now_secs now outcome bindings e min max =>
      ((@get_private_bridge_chain_with_bounds order rng wg unicode_lowercase url_parse p now_secs now outcome bindings e min max).1,
       None)
  | OpRestart _ _ _ => (p, None)
  end.

Definition client_step (c : Client) (op : PoolOp) : Client * option AcceptedSnapshot :=
  match op, c with
  | OpRestart revoked sio gio, _ => (restart c revoked sio gio, None)
  | _, Up p => let '(p', s) := pool_op p op in (Up p', s)
  | _, Refused _ _ => (c, None)
  end.

Fixpoint client_run (c : Client) (ops : list PoolOp) : Client * list AcceptedSnapshot :=
  match ops with
  | [] => (c, [])
  | op :: rest =>
      let '(c1, s) := client_step c op in
      let '(c2, log) := client_run c1 rest in (c2, option_list s ++ log)
  end.

(** *** What operations leave alone *)

(** All but the loading of a directory. *)
Lemma get_next_same order p now_secs :
  exists c, (@get_next order p now_secs).1 = set_cursor p c.
Proof.
  unfold get_next. destruct (directory_expired _ _); [by exists (pl_cursor p); destruct p|].
  destruct (_ =? _)%nat; [by exists (pl_cursor p); destruct p|]. destruct (next_alive _ _ _) as [c ?]. by exists c.
Qed.

Lemma rotate_same order p now_secs url :
  exists nodes c, (@rotate_on_block order p now_secs url).1 = set_cursor (set_nodes p nodes) c.
Proof.
  unfold rotate_on_block. destruct (List.find _ _) as [[k n]|].
  - destruct (get_next_same order (set_nodes p
      (<[k := set_health n (if 3 <=? wrapping_add u32_MAX (pn_failure_count n) 1 then false else pn_is_alive n)
           (wrapping_add u32_MAX (pn_failure_count n) 1)]> (pl_nodes p))) now_secs) as [c ->]. eauto.
  - destruct (get_next_same order p now_secs) as [c ->]. exists (pl_nodes p), c. by destruct p.
Qed.

Lemma private_same order rng p now_secs now outcome bindings e min max p' chain :
  @get_private_bridge_chain_with_bounds order rng wg unicode_lowercase url_parse p now_secs now outcome bindings e min max = (p', chain) ->
  same_but_guards p p' /\ guards_kept wg p p'.
Proof.
  unfold get_private_bridge_chain_with_bounds.
  assert (Hid : p' = p -> same_but_guards p p' /\ guards_kept wg p p').
  { intros ->. split; [apply same_but_guards_refl|]. by left. }
  do 2 (match goal with |- (if ?c then _ else _) = _ -> _ => destruct c; [intros [= <- <-]; by apply Hid|] end).
  destruct (length (gs_guards _) =? 0)%nat eqn:Hl; [|intros Hr; apply Hid; revert Hr].
  - apply Nat.eqb_eq, length_zero_iff_nil in Hl. destruct (save_guards _ _ _ _) as [q ok] eqn:Hs.
    pose proof (save_guards_kept _ _ _ _ _ _ Hl (choose_bridges_length p bindings Hl) Hs) as Hk.
    apply save_guards_spec in Hs as [Hsame _]. intros Hr.
    assert (p' = q) as -> by (repeat (split_in Hr; simplify_eq/=; try done)). done.
  - cbn. intros Hr. repeat (split_in Hr; simplify_eq/=; try done).
Qed.

Lemma onion_same order rng p now_secs now outcome min max e req pins p' chain :
  @get_onion_chain_with_entry_pins order rng wg p now_secs now outcome min max e req pins = (p', chain) ->
  same_but_guards p p' /\ guards_kept wg p p'.
Proof.
  unfold get_onion_chain_with_entry_pins.
  assert (Hid : p' = p -> same_but_guards p p' /\ guards_kept wg p p').
  { intros ->. split; [apply same_but_guards_refl|]. by left. }
  do 4 (match goal with |- (if ?c then _ else _) = _ -> _ => destruct c; [intros [= <- <-]; by apply Hid|] end).
  match goal with |- (if ?c then _ else _) = _ -> _ => destruct c; [|intros [= <- <-]; by apply Hid] end.
  destruct (pick_guard _ _ _ _ _) as [q o] eqn:Hp. apply pick_guard_spec in Hp as (Hsame & Hk & _).
  intros Hr. assert (p' = q) as -> by (by destruct o; injection Hr). done.
Qed.

(** Operations other than loading keep the accepted snapshot and its file. *)
Lemma pool_op_other p op p' s :
  match op with OpLoad _ _ _ _ _ _ => False | _ => True end -> pool_op p op = (p', s) ->
  s = None /\ pl_accepted_snapshot p' = pl_accepted_snapshot p /\ pl_snapshot_file p' = pl_snapshot_file p /\
  pl_guard_state_path p' = pl_guard_state_path p /\ guards_kept wg p p'.
Proof.
  assert (Hg : forall q, same_but_guards p q -> guards_kept wg p q ->
    pl_accepted_snapshot q = pl_accepted_snapshot p /\ pl_snapshot_file q = pl_snapshot_file p /\
    pl_guard_state_path q = pl_guard_state_path p /\ guards_kept wg p q).
  { intros q E Hk. unfold same_but_guards in E. split_and!; [by rewrite E..|done]. }
  destruct op; cbn [pool_op]; intros Hop; [done|intros [= <- <-]; split; [done|]..].
  - unfold add_proxy. destruct (ProxyNode_parse _ _ _); cbn; split_and!; try done; by left.
  - unfold load_file. destruct (read_bounded_file _ _ _); [destruct (stage_lines _ _ _ _ _)|]; cbn; split_and!; try done; by left.
  - cbn. split_and!; try done. by left.
  - destruct (get_next_same order p now_secs) as [c ->]. cbn. split_and!; try done. by left.
  - destruct (rotate_same order p now_secs url) as (ns & c & ->). cbn. split_and!; try done. by left.
  - destruct (get_onion_chain_with_entry_pins _ _ _ _ _ _ _ _ _ _) as [q l] eqn:E. apply onion_same in E as [? ?]. by apply Hg.
  - destruct (get_private_bridge_chain_with_bounds _ _ _ _ _ _ _ _ _ _ _) as [q l] eqn:E. apply private_same in E as [? ?]. by apply Hg.
  - split_and!; try done. by left.
Qed.

Lemma pool_op_load order p docs authorities q now outcome p' s :
  @HashOrderLaws order -> pool_op p (OpLoad order docs authorities q now outcome) = (p', s) ->
  pl_guard_state_path p' = pl_guard_state_path p /\ pl_guard_state p' = pl_guard_state p /\ pl_guard_file p' = pl_guard_file p /\
  ((s = None /\ p' = p) \/
   exists d rp, prepare_replacement unicode_lowercase url_parse p d = Ok rp /\
     (is_Some (pl_guard_state_path p) -> pl_snapshot_file p' = Some (ws (snapshot_of d))) /\
     ((s = None /\ pl_accepted_snapshot p' = pl_accepted_snapshot p) \/
      (s = Some (snapshot_of d) /\ pl_accepted_snapshot p' = s))).
Proof.
  intros HOL. cbn [pool_op]. destruct (load_from_multi_consensus _ _ _ _ _ _ _ _ _) as [p1 res] eqn:E.
  apply load_inv in E. destruct res as [n|e].
  - destruct E as (_ & d & rp & file & Hq & Hp & Hf & ->). intros [= <- <-]. cbn. split_and!; try done. right. exists d, rp. auto.
  - intros [= <- <-]. destruct E as [->|(d & rp & _ & Hp & ->)]; cbn; split_and!; try done; [by left|]. right. exists d, rp. auto.
Qed.

(** *** Invariants *)

(** The accepted snapshot and the one on disk are not behind the log. *)
Definition snap_inv (log : list AcceptedSnapshot) (c : Client) : Prop :=
  (forall a, a ∈ log -> exists s, (files c).1 = Some (ws s) /\ snap_le a s) /\
  match c with
  | Up p => pl_guard_state_path p = Some path /\
      forall a, a ∈ log -> exists s, pl_accepted_snapshot p = Some s /\ snap_le a s
  | Refused _ _ => True
  end.

Lemma restart_inv c revoked sio gio :
  match restart c revoked sio gio with
  | Refused s g => (s, g) = files c
  | Up p => (pl_snapshot_file p, pl_guard_file p) = files c /\ pl_guard_state_path p = Some path /\
      match (files c).1 with
      | Some b => pl_accepted_snapshot p = ps b /\ is_Some (ps b)
      | None => True
      end /\
      match (files c).2 with
      | Some b => pg b = Some (pl_guard_state p)
      | None => pl_guard_state p = GuardState_default
      end
  end.
Proof.
  unfold restart, init_guard_state. cbn. destruct (files c) as [sf gf]; cbn.
  destruct (read_bounded_file sio sf 4096) as [b|e] eqn:Hs.
  - apply read_bounded_some in Hs as ->. destruct (ps b) as [s|] eqn:Hb; [|done]. destruct (negb _); [done|].
    destruct (load_checked pg gio gf) as [st|] eqn:Hg; [|done]. apply load_checked_spec in Hg. by destruct gf.
  - case_bool_decide as Hk; [|done]. apply read_bounded_not_found in Hs as ->; [|done..].
    destruct (load_checked pg gio gf) as [st|] eqn:Hg; [|done]. apply load_checked_spec in Hg. by destruct gf.
Qed.

Lemma snap_inv_step log c op c' s :
  (forall x, ps (ws x) = Some x) -> op_lawful op -> snap_inv log c -> client_step c op = (c', s) ->
  snap_inv (log ++ option_list s) c' /\ forall a b, a ∈ log -> s = Some b -> snap_le a b.
Proof.
  intros Hps Hlaw [Hfile Hup] Hstep. destruct op as [order docs authorities q now outcome| | | | | | | |revoked sio gio].
  9: { injection Hstep as <- <-. cbn. rewrite app_nil_r. split; [|done]. pose proof (restart_inv c revoked sio gio) as Hr.
       destruct (restart c revoked sio gio) as [p|sf gf].
       - destruct Hr as (Hf & Hp & Hs & _). split; cbn; [by rewrite <- Hf in Hfile|]. split; [done|].
         intros a Ha. destruct (Hfile a Ha) as (x & Hx & Hle). rewrite Hx, Hps in Hs. exists x. by destruct Hs.
       - split; [|done]. by rewrite <- Hr in Hfile. }
  all: destruct c as [p|sf gf]; [|injection Hstep as <- <-; cbn; by rewrite app_nil_r].
  all: destruct Hup as [Hpath Hacc]; cbn [client_step] in Hstep; destruct (pool_op p _) as [p1 s1] eqn:Hop; injection Hstep as <- <-.
  2-8: apply pool_op_other in Hop as (-> & Ea & Ef & Ep & _); [|done]; cbn; rewrite app_nil_r;
    split; [|done]; split; cbn; [by rewrite Ef|]; by rewrite Ep, Ea.
  apply pool_op_load in Hop as (Ep & _ & _ & Hop); [|done]. destruct Hop as [[-> ->]|(d & rp & Hprep & Hf & Hs)].
  { cbn. rewrite app_nil_r. by repeat split. }
  apply prepare_spec in Hprep as (Hroll & _).
  assert (Hle : forall a, a ∈ log -> snap_le a (snapshot_of d)).
  { intros a (x & Hx & Hle)%Hacc. etrans; [done|]. by eapply rolls_back_le. }
  assert (Hf' : pl_snapshot_file p1 = Some (ws (snapshot_of d))) by (apply Hf; by rewrite Hpath).
  destruct Hs as [[-> Ea]|[-> Ea]]; cbn; rewrite ?app_nil_r.
  - split; [|done]. split; cbn; [eauto|]. by rewrite Ep, Ea.
  - assert (Hle' : forall a, a ∈ log ++ [snapshot_of d] -> snap_le a (snapshot_of d)).
    { intros a [Ha| ->%list_elem_of_singleton]%elem_of_app; [by apply Hle|]. by right. }
    split; [split; cbn; [by eauto|rewrite Ep, Ea; eauto]|]. intros a b Ha [= <-]. by apply Hle.
Qed.

Lemma client_run_sorted log c ops c' log' :
  (forall x, ps (ws x) = Some x) -> Forall op_lawful ops -> snap_inv log c -> client_run c ops = (c', log') ->
  StronglySorted snap_le log' /\ forall a b, a ∈ log -> b ∈ log' -> snap_le a b.
Proof.
  intros Hps Hlaw. revert log c log'. induction Hlaw as [|op ops Hop Hlaw IH]; intros log c log' Hinv; cbn [client_run].
  - intros [= <- <-]. split; [constructor|]. by intros ? ? _ []%elem_of_nil.
  - destruct (client_step c op) as [c1 s] eqn:Hs. destruct (client_run c1 ops) as [c2 rest] eqn:Hr. intros [= <- <-].
    destruct (snap_inv_step _ _ _ _ _ Hps Hop Hinv Hs) as [Hinv1 Hnew]. destruct (IH _ _ _ Hinv1 Hr) as [Hsorted Hall].
    split.
    + destruct s as [b|]; [|done]. constructor; [done|]. apply Forall_forall. intros x Hx.
      apply Hall; [|done]. apply elem_of_app. right. by apply list_elem_of_singleton.
    + intros a b Ha [Hb|Hb]%elem_of_app; [|apply Hall; [apply elem_of_app; by left|done]].
      destruct s as [x|]; [|by apply elem_of_nil in Hb]. apply list_elem_of_singleton in Hb as ->. by eapply Hnew.
Qed.

(** The guards in use are the ones on disk; once there are some they are
    [state]. *)
Definition guard_inv (c : Client) : Prop :=
  ((files c).2 = None \/ exists s, (files c).2 = Some (wg s) /\ (length (gs_guards s) <= 3)%nat) /\
  match c with
  | Up p => pl_guard_state_path p = Some path /\ (length (gs_guards (pl_guard_state p)) <= 3)%nat /\
      (gs_guards (pl_guard_state p) = [] \/ (files c).2 = Some (wg (pl_guard_state p)))
  | Refused _ _ => True
  end.

Definition guards_fixed (state : GuardState) (c : Client) : Prop :=
  (files c).2 = Some (wg state) /\
  match c with Up p => pl_guard_state_path p = Some path /\ pl_guard_state p = state | Refused _ _ => True end.

(** The effect of an operation other than a restart on the guards. *)
Lemma pool_op_guards p op p' s :
  op_lawful op -> pool_op p op = (p', s) -> pl_guard_state_path p' = pl_guard_state_path p /\ guards_kept wg p p'.
Proof.
  intros Hlaw Hop. destruct op; try (by apply pool_op_other in Hop as (_ & _ & _ & ? & ?)).
  apply pool_op_load in Hop as (? & ? & ? & _); [|done]. split; [done|]. by left.
Qed.

Lemma client_step_cases c op :
  (exists revoked sio gio, (client_step c op).1 = restart c revoked sio gio) \/
  (exists sf gf, c = Refused sf gf /\ (client_step c op).1 = c) \/
  (exists p, c = Up p /\ (client_step c op).1 = Up (pool_op p op).1).
Proof.
  destruct op; [..|by left; eauto]; destruct c as [p|sf gf]; [|by right; left; eauto|..]; right.
  all: first [by left; eauto|right; exists p; cbn [client_step]; by destruct (pool_op _ _)].
Qed.

Lemma guards_fixed_step state c op :
  (forall x, pg (wg x) = Some x) -> op_lawful op -> gs_guards state <> [] -> guards_fixed state c ->
  guards_fixed state (client_step c op).1.
Proof.
  intros Hpg Hlaw Hne [Hfile Hup]. destruct (client_step_cases c op) as [(rv & sio & gio & ->)|[(sf & gf & -> & ->)|(p & -> & ->)]].
  - pose proof (restart_inv c rv sio gio) as Hr. destruct (restart c rv sio gio) as [p|sf gf].
    + destruct Hr as (Hf & Hp & _ & Hg). rewrite Hfile, Hpg in Hg. injection Hg as Hg.
      split; cbn; [by rewrite <- Hf in Hfile|done].
    + split; [by rewrite <- Hr in Hfile|done].
  - done.
  - destruct (pool_op p op) as [p' s] eqn:Hop. destruct Hup as [Hp Hst].
    apply pool_op_guards in Hop as [Hp' [[Hs Hf]|[Hempty _]]]; [|by rewrite Hst in Hempty|done].
    cbn in *. split; cbn; [congruence|]. split; congruence.
Qed.

Lemma guard_inv_step c op :
  (forall x, pg (wg x) = Some x) -> op_lawful op -> guard_inv c -> guard_inv (client_step c op).1.
Proof.
  intros Hpg Hlaw [Hfile Hup]. destruct (client_step_cases c op) as [(rv & sio & gio & ->)|[(sf & gf & -> & ->)|(p & -> & ->)]].
  - pose proof (restart_inv c rv sio gio) as Hr. destruct (restart c rv sio gio) as [p|sf gf].
    + destruct Hr as (Hf & Hp & _ & Hg). rewrite <- Hf in Hfile, Hg. split; [done|]. split; [done|]. cbn in *.
      destruct Hfile as [E|(x & E & Hl)]; rewrite E in Hg; cbn in Hg.
      * rewrite Hg. cbn. split; [lia|by left].
      * rewrite Hpg in Hg. injection Hg as <-. auto.
    + split; [by rewrite <- Hr in Hfile|done].
  - done.
  - destruct (pool_op p op) as [p' s] eqn:Hop. destruct Hup as (Hp & Hlen & Hst).
    apply pool_op_guards in Hop as [Hp' Hk]; [|done]. unfold guard_inv. cbn in *. rewrite Hp'.
    destruct Hk as [[-> ->]|(Hempty & st & Hl & Hf & Hs)]; [done|].
    split; [destruct Hf as [->| ->]; eauto|]. split; [done|].
    destruct Hs as [Es|[Es Hs]]; rewrite !Es; [rewrite Hempty; cbn; split; [lia|by left]|].
    split; [done|]. right. apply Hs. by rewrite Hp.
Qed.

Lemma client_run_preserves (I : Client -> Prop) c ops :
  (forall c op, op_lawful op -> I c -> I (client_step c op).1) -> Forall op_lawful ops -> I c -> I (client_run c ops).1.
Proof.
  intros Hstep Hlaw. revert c. induction Hlaw as [|op ops Hop _ IH]; intros c Hc; cbn [client_run]; [done|].
  specialize (Hstep c op Hop Hc). destruct (client_step c op) as [c1 s]. specialize (IH c1 Hstep).
  by destruct (client_run c1 ops).
Qed.
End Histories.

(** ** Properties *)
Section Properties.
Context {HO : HashOrder} {HOL : @HashOrderLaws HO} {R : Rng} {RL : @RngLaws R} (wg : GuardState -> bytes).

Lemma onion_chain_facts (self self' : ProxyPool) (now_secs now : Z) (outcome : WriteOutcome) (min max : nat)
    (e req : bool) (pins : list bytes) (chain : list ProxyNode) :
  keyed (pl_nodes self) ->
  get_onion_chain_with_entry_pins wg self now_secs now outcome min max e req pins = (self', chain) -> chain <> [] ->
  directory_expired self now_secs = false /\
  (min <= length chain <= max)%nat /\ Z.of_nat max <= MAX_HOPS /\
  NoDup (node_key <$> chain) /\
  (forall n, n ∈ chain -> (exists k, pl_nodes self !! k = Some n) /\ usable_node self now n = true) /\
  (req = true -> exists front x, chain = front ++ [x] /\ pn_is_exit x = true /\ forall n, n ∈ front -> pn_is_exit n = false) /\
  (e = true -> req = true \/ (2 <= length chain)%nat -> validate_circuit_diversity (pn_host <$> chain) = Ok tt) /\
  (req = false \/ (2 <= length chain)%nat -> exists g rest, chain = g :: rest /\ entry_guard self' pins g).
Proof.
  intros Hk Hget Hne. destruct (onion_chain_inv _ _ _ _ _ _ _ _ _ _ _ _ Hget) as (_ & _ & Hinv).
  destruct (Hinv Hne) as (Hexp & Hmin & Hmax & selected & count & rest & Hcp & Hlen & Hcount & Hsel).
  destruct (complete_path_spec _ _ _ _ _ _ _ _ Hmin Hlen Hcp Hne) as (added & exit & k & Hch & Hadd & Hl & Hdiv & Hex).
  destruct (path_material self now req pins selected added rest exit self') as (Hmid & Hexit & Hnd); [done|tauto|done|by destruct exit; tauto|].
  assert (Hsub : sublist chain (selected ++ added ++ option_list exit)).
  { rewrite Hch, app_assoc. apply sublist_app; [apply sublist_take|done]. }
  assert (Hfront : forall n, n ∈ take k (selected ++ added) -> n ∈ role_nodes req false (healthy_nodes self now)).
  { intros n Hn. apply Hmid. eapply elem_of_submseteq; [done|apply sublist_submseteq, sublist_take]. }
  split; [done|]. split; [by destruct exit, req; cbn in *; try lia; naive_solver|].
  split; [unfold MAX_HOPS in *; lia|]. split; [by eapply NoDup_sublist_fmap|].
  split; [|split; [|split]].
  - intros n Hn. rewrite <- elem_of_hash_values. apply healthy_elem. rewrite Hch in Hn. apply elem_of_app in Hn as [Hn|Hn].
    + by apply Hfront, role_nodes_elem in Hn as [? _].
    + destruct exit as [x|]; [|by apply elem_of_nil in Hn]. apply list_elem_of_singleton in Hn as ->. by apply Hexit.
  - intros ->. destruct exit as [x|]; [|done]. exists (take k (selected ++ added)), x. split; [done|].
    split; [by apply Hexit|]. intros n Hn. apply Hfront, role_nodes_elem in Hn as [_ Hr]. by apply Hr.
  - intros -> Hor. assert (Hd : diverse_path true chain = true).
    { eapply diverse_path_sublist; [done|]. destruct Hdiv as [->|Hdiv]; [|done]. destruct exit as [x|]; [by apply Hex|].
      exfalso. rewrite Hch, app_nil_r in Hor. rewrite app_nil_r, length_take in Hor.
      destruct Hsel as [(-> & _)|(g & -> & _)], Hor as [?|?]; cbn in *; try congruence; lia. }
    unfold diverse_path in Hd. cbn in Hd. by destruct (validate_circuit_diversity _) as [[]|].
  - intros Hor. destruct Hsel as [(-> & -> & -> & _)|(g & -> & _ & Hg & _)].
    { destruct Hor as [?|?]; [done|]. destruct exit; cbn in *; lia. }
    destruct k as [|k]; [|eexists g, _; split; [exact Hch|done]]. rewrite take_0 in Hch. cbn in Hch.
    destruct exit as [x|]; [|by subst chain]. rewrite Hch in Hor. destruct Hor as [->|?]; [|cbn in *; lia]. by destruct Hex.
Qed.

(** C18: circuit selection is sound. Whatever the random generator answers, a
    circuit the pool hands out has between [min] and [max] hops, at most
    [MAX_HOPS]; its hops are pairwise different relays of an unexpired
    directory, alive and not cooling down; when an exit is required, the last
    hop and only the last hop is an exit relay; when diversity is enforced
    (and the circuit is not a lone entry) the hosts pass the diversity check;
    and the first hop is a member of the persistent guard set, within the
    mandatory entry pins (a circuit that is a lone exit apart). The pool has every
    relay under its own URL ([keyed]), as installing a directory leaves it. *)
Theorem onion_chain_sound (self self' : ProxyPool) (now_secs now : Z) (outcome : WriteOutcome) (min max : nat)
    (e req : bool) (pins : list bytes) (chain : list ProxyNode) :
  keyed (pl_nodes self) ->
  get_onion_chain_with_entry_pins wg self now_secs now outcome min max e req pins = (self', chain) -> chain <> [] ->
  directory_expired self now_secs = false /\
  (min <= length chain <= max)%nat /\ Z.of_nat max <= MAX_HOPS /\
  NoDup (node_key <$> chain) /\
  (forall n, n ∈ chain -> (exists k, pl_nodes self !! k = Some n) /\ usable_node self now n = true) /\
  (req = true -> exists front x, chain = front ++ [x] /\ pn_is_exit x = true /\ forall n, n ∈ front -> pn_is_exit n = false) /\
  (e = true -> req = true \/ (2 <= length chain)%nat -> validate_circuit_diversity (pn_host <$> chain) = Ok tt) /\
  (req = false \/ (2 <= length chain)%nat -> exists g rest, chain = g :: rest /\ entry_guard self' pins g).
Proof. apply onion_chain_facts. Qed.

(** Circuits behind a private bridge are sound. Such a circuit has between
    three and [MAX_HOPS] hops and starts at a provisioned bridge that is not
    retired, not cooling down and in the guard set under its identity; every
    later hop is a different, live relay certified by an unexpired directory
    that is none of the bridges; the last hop and only the last is an exit;
    and when diversity is enforced the whole circuit, bridge included, passes
    the check. *)
Theorem private_chain_sound (unicode_lowercase : bytes -> bytes) (url_parse : bytes -> option Url)
    (self self' : ProxyPool) (now_secs now : Z) (outcome : WriteOutcome) (bindings : list BridgeTransport)
    (e : bool) (min max : nat) (chain : list ProxyNode) :
  keyed (pl_nodes self) ->
  get_private_bridge_chain_with_bounds wg unicode_lowercase url_parse self now_secs now outcome bindings e min max = (self', chain) ->
  chain <> [] ->
  (3 <= min <= length chain)%nat /\ (length chain <= max)%nat /\ Z.of_nat max <= MAX_HOPS /\
  pl_consensus_deadline self <> 0 /\ directory_expired self now_secs = false /\
  (e = true -> validate_circuit_diversity (pn_host <$> chain) = Ok tt) /\
  exists binding entry front x, chain = entry :: front ++ [x] /\
    binding ∈ bindings /\ (bt_identity binding ∉ pl_revoked self) /\ cooling self' now (bt_identity binding) = false /\
    bridge_key binding ∈ gs_guards (pl_guard_state self') /\
    gs_identities (pl_guard_state self') !! bridge_key binding = Some (bt_identity binding) /\
    ProxyNode_parse unicode_lowercase url_parse (str "socks5://" ++ display_socket (bt_bridge binding)) = Ok entry /\
    pn_is_exit x = true /\ (forall m, m ∈ front -> pn_is_exit m = false) /\ NoDup (node_key <$> front ++ [x]) /\
    forall n, n ∈ front ++ [x] -> (exists k, pl_nodes self !! k = Some n) /\ pn_is_alive n = true /\
      exists pin, node_pin self n = Some pin /\ pin <> ZERO_PIN /\ forall b, b ∈ bindings -> bt_identity b <> pin.
Proof.
  intros Hk Hget Hne. revert Hget. unfold get_private_bridge_chain_with_bounds.
  do 2 (match goal with |- (if ?c then _ else _) = _ -> _ => destruct c eqn:?; [by intros [= _ <-]|] end).
  match goal with |- context [let '(_, _) := ?c in _] => destruct c as [q ok] eqn:Hq end.
  assert (Hsame : same_but_guards self q).
  { destruct (_ =? _)%nat in Hq; [by apply save_guards_spec in Hq as [? _]|]. injection Hq as <- _. apply same_but_guards_refl. }
  destruct ok; cbn [negb]; [|by intros [= _ <-]].
  destruct (find_bridge q now bindings) as [binding|] eqn:Hfb; [|by intros [= _ <-]].
  destruct (ProxyNode_parse _ _ _) as [entry|] eqn:Hentry; [|by intros [= _ <-]].
  match goal with |- (if ?c then _ else _) = _ -> _ => destruct c eqn:Hb3; [by intros [= _ <-]|] end.
  intros [= <- Hch]. reflect_bools. assert (Hmin : (2 <= min)%nat) by lia.
  destruct (try_exits_spec _ _ _ _ _ _ _ _ (conj Hmin Hb3) Hch Hne) as (front & x & Hchain & Hx & Hfront & Hlen & Hdiv & Hnd).
  apply find_bridge_spec in Hfb as (Hin & Hg & Hi & Hcool).
  assert (pl_nodes q = pl_nodes self /\ pl_identity_keys q = pl_identity_keys self) as [En Ei] by (by rewrite Hsame).
  rewrite <- En in Hk. destruct (private_hops q bindings front x Hk Hx Hfront Hnd) as (Hex & Hmid & Hkeys & Hhops).
  split_and!; try done; try lia.
  - intros ->. unfold diverse_path in Hdiv. cbn in Hdiv. by destruct (validate_circuit_diversity _) as [[]|].
  - exists binding, entry, front, x. split_and!; try done.
    + intros Hrev. match goal with H : existsb _ bindings = false |- _ => apply not_true_iff_false in H; apply H, existsb_exists end.
      exists binding. rewrite <- list_elem_of_In, bool_decide_true; done.
    + intros n [Hn Hbb]%Hhops. rewrite <- En, <- elem_of_hash_values. split; [done|].
      unfold node_pin. rewrite <- Ei. by apply behind_bridge_spec.
Qed.

(** Rotation serves every request it can. While the directory is not
    expired, [get_next] answers with a live relay whenever the pool has one
    and with some relay of the pool whenever it has any, provided that the
    position counter does not wrap around during the search. *)
Theorem get_next_serves (self : ProxyPool) (now_secs : Z) :
  directory_expired self now_secs = false -> 0 <= pl_cursor self ->
  pl_cursor self + Z.of_nat (size (pl_nodes self)) <= usize_MAX ->
  ((exists k n, pl_nodes self !! k = Some n /\ pn_is_alive n = true) ->
     exists k n, (get_next self now_secs).2 = Some n /\ pl_nodes self !! k = Some n /\ pn_is_alive n = true) /\
  (pl_nodes self <> ∅ -> exists k n, (get_next self now_secs).2 = Some n /\ pl_nodes self !! k = Some n) /\
  (pl_nodes self = ∅ -> get_next self now_secs = (self, None)).
Proof.
  intros Hexp Hc Hmax. assert (Hlen : length (hash_values (pl_nodes self)) = size (pl_nodes self)).
  { by rewrite hash_values_perm, length_fmap, length_map_to_list. }
  assert (Hget : pl_nodes self <> ∅ ->
    (get_next self now_secs).2 = (next_alive (size (pl_nodes self)) (hash_values (pl_nodes self)) (pl_cursor self)).2 /\
    hash_values (pl_nodes self) <> []).
  { rewrite <- map_size_empty_iff. intros Hne. unfold get_next. rewrite Hexp, Hlen, (proj2 (Nat.eqb_neq _ _)) by done.
    destruct (next_alive _ _ _). split; [done|]. intros E. by rewrite E in Hlen. }
  split_and!.
  - intros (k & n & Hk & Ha). assert (Hne : pl_nodes self <> ∅) by (intros E; by rewrite E, lookup_empty in Hk).
    destruct (Hget Hne) as [-> _].
    destruct (proj1 (list_elem_of_lookup _ _) (proj2 (elem_of_hash_values _ n) (ex_intro _ k Hk))) as [j Hj].
    pose proof (lookup_lt_Some _ _ _ Hj) as Hjl. set (L := Z.of_nat (size (pl_nodes self))).
    assert (HL : 0 < L) by lia. pose proof (Z.mod_pos_bound (Z.of_nat j - pl_cursor self) L HL) as Hb.
    destruct (next_alive_alive (size (pl_nodes self)) (hash_values (pl_nodes self)) (pl_cursor self)
      (Z.to_nat ((Z.of_nat j - pl_cursor self) mod L)) n) as (n' & Hn' & Hin & Ha'); [done|done|lia| |done|].
    + rewrite Hlen. fold L. rewrite Z2Nat.id, Zplus_mod_idemp_r by lia.
      replace (pl_cursor self + (Z.of_nat j - pl_cursor self)) with (Z.of_nat j) by lia.
      rewrite Z.mod_small by lia. by rewrite Nat2Z.id.
    + apply elem_of_hash_values in Hin as [k' Hk']. by exists k', n'.
  - intros Hne. destruct (Hget Hne) as [-> Hv].
    destruct (next_alive_elem (size (pl_nodes self)) _ (pl_cursor self) Hv) as (n & Hn & [k Hk]%elem_of_hash_values). by exists k, n.
  - intros E. unfold get_next. rewrite Hexp, Hlen, E. done.
Qed.
End Properties.

Section Directory.
Context `{IdentityPrimitives} (unicode_lowercase : bytes -> bytes) (url_parse : bytes -> option Url).
Context (ps : bytes -> option AcceptedSnapshot) (ws : AcceptedSnapshot -> bytes).
Context (pg : bytes -> option GuardState) (wg : GuardState -> bytes).

(** C17: the pool publishes only certified directories, and all or nothing. A
    successful load installs the relays of one document that passed the
    quorum check and is not expired: every relay verifies, node ids and
    identity pins are pairwise different, the tables hold exactly the
    relays that are not retired, each under the endpoint parsed from its
    descriptor, with its pin and exit flag, and the pool expires with the
    document. A failed load leaves everything but the rollback file as it
    was. *)
Theorem load_certified {HO : HashOrder} {HOL : @HashOrderLaws HO} (self self' : ProxyPool) (docs : list ConsensusDocument)
    (authorities : gmap bytes bytes) (q now : Z) (outcome : WriteOutcome) (res : result PoolError nat) :
  load_from_multi_consensus unicode_lowercase url_parse ws self docs authorities q now outcome = (self', res) ->
  match res with
  | Err _ => exists file, self' = set_snapshot_file self file
  | Ok n => exists d, verify_quorum d authorities q now = true /\
      pl_accepted_snapshot self' = Some (snapshot_of d) /\
      pl_consensus_deadline self' = cd_valid_until d /\ directory_expired self' now = false /\
      Forall (fun r => verify_identity r = true) (cd_relays d) /\
      NoDup (rd_node_id <$> cd_relays d) /\ NoDup (rd_identity_pin <$> cd_relays d) /\
      n = length (filter (fun r => rd_identity_pin r ∉ pl_revoked self) (cd_relays d)) /\ n <> 0%nat /\
      n = size (pl_nodes self') /\ dom (pl_nodes self') = dom (pl_identity_keys self') /\ keyed (pl_nodes self') /\
      forall k node, pl_nodes self' !! k = Some node ->
        exists r parsed, r ∈ cd_relays d /\ (rd_identity_pin r ∉ pl_revoked self) /\
          pl_identity_keys self' !! k = Some (rd_identity_pin r) /\
          ProxyNode_parse unicode_lowercase url_parse (relay_url r) = Ok parsed /\
          node = set_exit (enforce_remote_dns parsed) (rd_is_exit r)
  end.
Proof.
  intros Hload%load_inv. destruct res as [n|e].
  - destruct Hload as (-> & d & rp & file & Hq & Hprep & _ & ->).
    apply prepare_spec in Hprep as (_ & [Hdom Hkeyed Hids Hpins _ _ Hsize Hentry] & Hv & Hne).
    exists d. cbn. split_and!; try done.
    + unfold directory_expired. cbn. unfold verify_quorum in Hq. repeat (split_in Hq; try discriminate Hq). reflect_bools.
      apply andb_false_iff. right. apply Z.leb_gt. lia.
    + by rewrite map_size_empty_iff.
    + intros k node (r & Hr & Hrev & Hk & _ & parsed & Hp & ->)%Hentry. by exists r, parsed.
  - destruct Hload as [->|(d & rp & _ & _ & ->)]; [exists (pl_snapshot_file self); by destruct self|by eexists].
Qed.

(** C16: no directory rollback and no equivocation, across restarts. Over any
    history of a client (loads of arbitrary documents, failed and torn writes
    of the state files, restarts with unreadable files, all other operations
    in between) the snapshots it accepts never go back to an earlier epoch and
    never show two different documents for one epoch, provided that the JSON
    coding of the rollback state reads back what was written. *)
Theorem no_rollback (path : bytes) (sf gf : option bytes) (ops : list PoolOp) (c : Client) (log : list AcceptedSnapshot) :
  (forall s, ps (ws s) = Some s) -> Forall op_lawful ops ->
  client_run unicode_lowercase url_parse ps ws pg wg path (Refused sf gf) ops = (c, log) ->
  forall i j a b, (i < j)%nat -> log !! i = Some a -> log !! j = Some b ->
    sn_epoch a < sn_epoch b \/ (sn_epoch a = sn_epoch b /\ sn_digest a = sn_digest b).
Proof.
  intros Hps Hlaw Hrun i j a b Hij Ha Hb.
  destruct (client_run_sorted unicode_lowercase url_parse ps ws pg wg path [] (Refused sf gf) ops c log Hps Hlaw) as [Hs _].
  - split; [by intros ? []%elem_of_nil|done].
  - done.
  - exact (sorted_lookup snap_le log i j a b Hs Hij Ha Hb).
Qed.

(** C19: the entry guards of an installation are chosen once. From a start
    without a guard file: whenever a running client has guards there are at
    most three, and whatever happens afterwards (failing links, new
    directories, requests with other pins or private bridges, failed writes,
    restarts) every later running client of the installation has the same
    guards with the same pinned identities. The JSON of the guard file reads back
    as what was written. *)
Theorem guards_sticky (path : bytes) (sf : option bytes) (ops1 ops2 : list PoolOp) (p p' : ProxyPool)
    (log1 log2 : list AcceptedSnapshot) :
  (forall s, pg (wg s) = Some s) -> Forall op_lawful ops1 -> Forall op_lawful ops2 ->
  client_run unicode_lowercase url_parse ps ws pg wg path (Refused sf None) ops1 = (Up p, log1) ->
  gs_guards (pl_guard_state p) <> [] ->
  client_run unicode_lowercase url_parse ps ws pg wg path (Up p) ops2 = (Up p', log2) ->
  (length (gs_guards (pl_guard_state p)) <= 3)%nat /\ pl_guard_state p' = pl_guard_state p.
Proof.
  intros Hpg Hl1 Hl2 Hr1 Hne Hr2.
  pose proof (client_run_preserves unicode_lowercase url_parse ps ws pg wg path (guard_inv wg path) (Refused sf None) ops1
    (fun c op => guard_inv_step unicode_lowercase url_parse ps ws pg wg path c op Hpg) Hl1) as Hinv.
  rewrite Hr1 in Hinv. destruct Hinv as (_ & Hp & Hlen & Hf); [split; [by left|done]|].
  destruct Hf as [?|Hf]; [done|]. split; [done|].
  pose proof (client_run_preserves unicode_lowercase url_parse ps ws pg wg path (guards_fixed wg path (pl_guard_state p)) (Up p) ops2
    (fun c op Hop => guards_fixed_step unicode_lowercase url_parse ps ws pg wg path (pl_guard_state p) c op Hpg Hop Hne) Hl2) as Hinv.
  rewrite Hr2 in Hinv. by destruct Hinv as (_ & _ & ?).
Qed.
End Directory.

(** ** Witnesses *)
#[local] Existing Instance toy_identity.
#[local] Existing Instance toy_identity_laws.
#[local] Existing Instance map_order.
#[local] Existing Instance map_order_laws.

(** Leaves lists alone and draws the upper bound. *)
#[local] Instance toy_rng : Rng := {| shuffle := fun _ l => l; gen_range := fun _ _ b => b |}.
#[local] Instance toy_rng_laws : RngLaws.
Proof. constructor; cbn; [done|lia]. Qed.

(** Reads [socks5://host:9001]. *)
Definition toy_url (s : bytes) : option Url :=
  match split_on 58 (drop 9 s) with
  | [host; _] => Some (mkUrl (str "socks5") (Some host) (Some 9001) [] None)
  | _ => None
  end.

#[local] Instance toy_snapshot_eq_dec : EqDecision AcceptedSnapshot.
Proof. solve_decision. Defined.
#[local] Instance toy_snapshot_countable : Countable AcceptedSnapshot.
Proof.
  refine (inj_countable' (fun s => (sn_protocol_version s, sn_epoch s, sn_digest s))
            (fun t => mkAcceptedSnapshot t.1.1 t.1.2 t.2) _). by intros [].
Defined.
#[local] Instance toy_guards_eq_dec : EqDecision GuardState.
Proof. solve_decision. Defined.
#[local] Instance toy_guards_countable : Countable GuardState.
Proof.
  refine (inj_countable' (fun s => (gs_protocol_version s, gs_guards s, gs_identities s))
            (fun t => mkGuardState t.1.1 t.1.2 t.2) _). by intros [].
Defined.

Definition toy_write {A} `{Countable A} (x : A) : bytes := [Z.pos (encode x)].
Definition toy_read {A} `{Countable A} (b : bytes) : option A := match b with [Z.pos n] => decode n | _ => None end.
Lemma toy_roundtrip {A} `{Countable A} (x : A) : toy_read (toy_write x) = Some x.
Proof. unfold toy_read, toy_write. apply decode_encode. Qed.

Definition toy_node (host : string) (is_exit : bool) : ProxyNode :=
  mkProxyNode (str "socks5://" ++ str host ++ str ":9001") Socks5h (str host) 9001 None None None true 0 is_exit.
Definition toy_nodes : list ProxyNode := [toy_node "1.1.1.1" false; toy_node "2.1.1.1" false; toy_node "3.1.1.1" true].
Definition toy_pool : ProxyPool :=
  mkProxyPool ∅ (list_to_map ((fun n => (node_key n, n)) <$> toy_nodes)) 0 ∅ 5000 None
    (list_to_map ((fun n => (node_key n, pn_host n)) <$> toy_nodes)) GuardState_default None None None.

Lemma toy_keyed : keyed (pl_nodes toy_pool).
Proof.
  change (map_Forall (fun k n => node_key n = k) (pl_nodes toy_pool)). apply (bool_decide_unpack _). vm_compute. exact I.
Qed.

Definition toy_chain : ProxyPool * list ProxyNode :=
  get_onion_chain_with_entry_pins toy_write toy_pool 2000 0 Written 3 3 true true [str "2.1.1.1"].

Lemma toy_chain_hosts : pn_host <$> toy_chain.2 = [str "2.1.1.1"; str "1.1.1.1"; str "3.1.1.1"].
Proof. vm_compute. reflexivity. Qed.

Lemma onion_chain_sound_witness :
  length toy_chain.2 = 3%nat /\ validate_circuit_diversity (pn_host <$> toy_chain.2) = Ok tt.
Proof.
  pose proof toy_chain_hosts as Hh. split; [rewrite <- (length_fmap pn_host), Hh; reflexivity|].
  destruct (onion_chain_sound toy_write toy_pool toy_chain.1 2000 0 Written 3 3 true true [str "2.1.1.1"] toy_chain.2 toy_keyed
    (surjective_pairing toy_chain)) as (_ & _ & _ & _ & _ & _ & Hd & _).
  - intros E. rewrite E in Hh. discriminate Hh.
  - exact (Hd eq_refl (or_introl eq_refl)).
Defined.

Definition toy_binding : BridgeTransport :=
  mkBridgeTransport (replicate 32 41) (mkSocketAddr (V4 (mkIpv4 127 0 0 1)) 31000) (mkSocketAddr (V4 (mkIpv4 4 1 1 1)) 443) ∅.
Definition toy_private : ProxyPool * list ProxyNode :=
  get_private_bridge_chain_with_bounds toy_write id toy_url toy_pool 2000 0 Written [toy_binding] true 3 3.

Lemma toy_private_hosts : pn_host <$> toy_private.2 = [str "4.1.1.1"; str "2.1.1.1"; str "3.1.1.1"].
Proof. vm_compute. reflexivity. Qed.

Lemma private_chain_sound_witness :
  length toy_private.2 = 3%nat /\ validate_circuit_diversity (pn_host <$> toy_private.2) = Ok tt.
Proof.
  pose proof toy_private_hosts as Hh. split; [rewrite <- (length_fmap pn_host), Hh; reflexivity|].
  destruct (private_chain_sound toy_write id toy_url toy_pool toy_private.1 2000 0 Written [toy_binding] true 3 3 toy_private.2
    toy_keyed (surjective_pairing toy_private)) as (_ & _ & _ & _ & _ & Hd & _).
  - intros E. rewrite E in Hh. discriminate Hh.
  - exact (Hd eq_refl).
Defined.

Lemma get_next_serves_witness : exists n, (get_next toy_pool 2000).2 = Some n /\ pn_is_alive n = true.
Proof.
  destruct (get_next_serves toy_pool 2000) as [Ha _]; [reflexivity|vm_compute; discriminate..|].
  destruct Ha as (k & n & Hn & _ & Hl); [|exists n; split; [exact Hn|exact Hl]].
  exists (node_key (toy_node "1.1.1.1" false)), (toy_node "1.1.1.1" false). split; [vm_compute; reflexivity|reflexivity].
Defined.

(** *** Guards *)
Definition toy_guard_ops : list PoolOp :=
  [OpRestart ∅ true true; OpAddProxy (str "socks5://1.1.1.1:9001"); OpAddProxy (str "socks5://2.1.1.1:9001");
   OpChain map_order toy_rng 2000 0 Written 1 2 false false []].
Definition toy_later_ops : list PoolOp := [OpLinkFailure 10 (str "pin"); OpRestart ∅ true true].

Definition toy_client_run := client_run id toy_url toy_read toy_write toy_read toy_write (str "guards.json").
Definition toy_up (c : Client) : ProxyPool := match c with Up p => p | Refused _ _ => toy_pool end.

Definition toy_client1 : Client := (toy_client_run (Refused None None) toy_guard_ops).1.
Definition toy_client2 : Client := (toy_client_run (Up (toy_up toy_client1)) toy_later_ops).1.

Lemma toy_client1_up : match toy_client1 with Up _ => true | _ => false end = true.
Proof. vm_compute. reflexivity. Qed.

Lemma toy_client1_guards : gs_guards (pl_guard_state (toy_up toy_client1)) = [str "2.1.1.1:9001"; str "1.1.1.1:9001"].
Proof. vm_compute. reflexivity. Qed.

Lemma toy_client2_up : match toy_client2 with Up _ => true | _ => false end = true.
Proof. vm_compute. reflexivity. Qed.

Lemma toy_up_eq c : match c with Up _ => true | _ => false end = true -> c = Up (toy_up c).
Proof. by destruct c. Qed.

Lemma guards_sticky_witness :
  gs_guards (pl_guard_state (toy_up toy_client1)) <> [] /\
  pl_guard_state (toy_up toy_client2) = pl_guard_state (toy_up toy_client1).
Proof.
  pose proof toy_client1_guards as Hg. assert (Hne : gs_guards (pl_guard_state (toy_up toy_client1)) <> []).
  { intros E. rewrite E in Hg. discriminate Hg. }
  split; [exact Hne|].
  refine (proj2 (guards_sticky id toy_url toy_read toy_write toy_read toy_write (str "guards.json") None toy_guard_ops toy_later_ops
    (toy_up toy_client1) (toy_up toy_client2) (toy_client_run (Refused None None) toy_guard_ops).2
    (toy_client_run (Up (toy_up toy_client1)) toy_later_ops).2 toy_roundtrip _ _ _ Hne _)).
  - repeat constructor.
  - repeat constructor.
  - rewrite <- (toy_up_eq toy_client1 toy_client1_up). apply surjective_pairing.
  - rewrite <- (toy_up_eq toy_client2 toy_client2_up). apply surjective_pairing.
Defined.

(** *** Directories *)
Lemma load_single (p : ProxyPool) (d : ConsensusDocument) (authorities : gmap bytes bytes) (q now : Z) (rp : Replacement) :
  admissible now d = true -> verify_quorum d authorities q now = true ->
  0 < q <= Z.of_nat (size authorities) -> NoDup (map_to_list authorities).*2 ->
  prepare_replacement id toy_url p d = Ok rp -> is_Some (pl_guard_state_path p) ->
  load_from_multi_consensus id toy_url toy_write p [d] authorities q now Written
  = (publish (set_snapshot_file p (Some (toy_write (snapshot_of d)))) d rp, Ok (size (rp_nodes rp))).
Proof.
  intros Ha Hv Hq Hnd Hprep Hpath. unfold load_from_multi_consensus.
  rewrite (proj2 (Z.eqb_neq q 0)), (proj2 (Z.ltb_ge _ _)) by lia. cbn [orb].
  rewrite (proj2 (Nat.eqb_eq _ _)); [|rewrite size_list_to_set, length_fmap, length_map_to_list; done]. cbn [negb].
  assert (Hsel : select_snapshot [d] authorities q now = Ok d).
  { unfold select_snapshot, quorum_candidates, collect_snapshots. cbn [fold_left]. unfold collect_snapshot. rewrite Ha. cbn [negb].
    rewrite lookup_empty. unfold hash_values. cbn [hash_iter map_order]. rewrite insert_empty, map_to_list_singleton.
    cbn [fmap list_fmap snd]. rewrite filter_cons_True by exact Hv. cbn [sort_latest foldr insert_latest filter list_filter].
    cbn [existsb]. rewrite bool_decide_true by done. cbn [negb]. by rewrite andb_false_r. }
  rewrite Hsel, Hprep, bool_decide_true by exact Hpath. done.
Qed.

Definition toy_auths : gmap bytes bytes := {[str "auth-a" := verifying_key (toy_authority 1)]}.
Definition toy_signed_relay (r : RelayDescriptor) : Prop := sign_with_key (toy_relay 1) (toy_authority 5) = Some r.

Lemma toy_signed_relay_exists : exists r, toy_signed_relay r.
Proof.
  unfold toy_signed_relay, sign_with_key.
  destruct (identity_sign_ok (toy_authority 5) (compute_signing_bytes (set_pin (toy_relay 1) (verifying_key (toy_authority 5)))))
    as [sig ->]; [vm_compute; discriminate|]. by eexists.
Qed.

Definition toy_epoch_document (r : RelayDescriptor) (epoch : Z) : ConsensusDocument :=
  toy_copy (ConsensusDocument_new epoch (epoch + 3600) [r]) 0.

Lemma toy_epoch_fields r epoch :
  cd_valid_after (toy_epoch_document r epoch) = epoch /\ cd_valid_until (toy_epoch_document r epoch) = epoch + 3600 /\
  cd_relays (toy_epoch_document r epoch) = [r] /\ length (cd_signatures (toy_epoch_document r epoch)) = 1%nat.
Proof.
  pose proof (toy_copy_signed (ConsensusDocument_new epoch (epoch + 3600) [r]) 0 _ eq_refl) as Hs.
  unfold sign_with_authority in Hs. destruct (identity_sign _ _) as [sig|]; [|discriminate Hs]. apply Some_inj' in Hs.
  unfold toy_epoch_document. rewrite <- Hs. done.
Qed.

Lemma toy_epoch_verified r epoch : verify_quorum (toy_epoch_document r epoch) toy_auths 1 (epoch + 10) = true.
Proof.
  refine (merge_verified (ConsensusDocument_new epoch (epoch + 3600) [r]) (toy_epoch_document r epoch) []
            [(str "auth-a", toy_authority 1)] toy_auths 1 (epoch + 10) _ _ _ _ _).
  - cbn. apply NoDup_singleton.
  - split; [|apply NoDup_singleton..]. constructor; [|constructor]. apply lookup_singleton_eq.
  - constructor; [|constructor]. eexists. split; [|split; [|by apply toy_copy_signed]]; done.
  - cbn. lia.
  - cbn. lia.
Qed.

Lemma toy_prepare r p epoch :
  toy_signed_relay r -> rolls_back (pl_accepted_snapshot p) (toy_epoch_document r epoch) = false -> pl_revoked p = ∅ ->
  exists rp, prepare_replacement id toy_url p (toy_epoch_document r epoch) = Ok rp.
Proof.
  intros Hr Hroll Hrev. unfold prepare_replacement. rewrite Hroll, Hrev.
  destruct (toy_epoch_fields r epoch) as (_ & _ & -> & _). cbn [length Nat.eqb orb existsb].
  assert (Hz : verifying_key (toy_authority 5) <> replicate 32 0) by (vm_compute; discriminate).
  rewrite (signed_descriptor_verifies (toy_relay 1) r (toy_authority 5) Hz Hr).
  change (valid_host (rd_host (toy_relay 1)) && valid_node_id (rd_node_id (toy_relay 1)) && valid_endpoint (toy_relay 1)) with true.
  cbn [negb orb endpoints_consistent]. rewrite lookup_empty. cbn [negb replace_relays].
  unfold toy_signed_relay, sign_with_key in Hr. destruct (identity_sign _ _) as [sig|] eqn:Hs; [|discriminate Hr].
  apply Some_inj' in Hr. unfold replace_relay, note_identity.
  assert (Esig : rd_signature r = sig) by (by rewrite <- Hr). rewrite Esig.
  unfold Signature_from_slice. rewrite (proj1 (identity_sign_verifies _ _ _ Hs)), Nat.eqb_refl. cbn [negb].
  rewrite (component_pins_sign _ _ _ Hs). cbn [replacement_init rp_classical rp_pq rp_identities rp_signing_keys].
  rewrite !bool_decide_false by apply not_elem_of_empty. cbn [orb].
  assert (Eurl : relay_url r = str "socks5://93.184.216.34:9001").
  { rewrite <- Hr. vm_compute. reflexivity. }
  rewrite Eurl. destruct (ProxyNode_parse id toy_url (str "socks5://93.184.216.34:9001")) as [node|] eqn:Hp;
    [|vm_compute in Hp; discriminate Hp].
  cbn [rp_nodes rp_keys replacement_init]. rewrite bool_decide_false by (rewrite lookup_empty; by intros []).
  rewrite bool_decide_false by apply insert_non_empty. by eexists.
Qed.

Lemma toy_load r p epoch :
  toy_signed_relay r -> rolls_back (pl_accepted_snapshot p) (toy_epoch_document r epoch) = false -> pl_revoked p = ∅ ->
  is_Some (pl_guard_state_path p) ->
  exists rp, load_from_multi_consensus id toy_url toy_write p [toy_epoch_document r epoch] toy_auths 1 (epoch + 10) Written
    = (publish (set_snapshot_file p (Some (toy_write (snapshot_of (toy_epoch_document r epoch))))) (toy_epoch_document r epoch) rp,
       Ok (size (rp_nodes rp))).
Proof.
  intros Hr Hroll Hrev Hpath. destruct (toy_prepare r p epoch Hr Hroll Hrev) as [rp Hprep]. exists rp.
  apply load_single; [|apply toy_epoch_verified| | |exact Hprep|exact Hpath].
  - destruct (toy_epoch_fields r epoch) as (Ea & Eu & Er & Es). unfold admissible. rewrite Ea, Eu, Er, Es.
    cbn [length]. repeat (rewrite ?(proj2 (Z.leb_gt _ _)), ?(proj2 (Z.ltb_ge _ _)) by (unfold MAX_DIRECTORY_RELAYS; lia)). done.
  - unfold toy_auths. rewrite map_size_singleton. lia.
  - unfold toy_auths. rewrite map_to_list_singleton. apply NoDup_singleton.
Qed.

Lemma load_certified_witness :
  exists r self' n, load_from_multi_consensus id toy_url toy_write
      (mkProxyPool ∅ ∅ 0 ∅ 0 None ∅ GuardState_default (Some []) None None) [toy_epoch_document r 1000] toy_auths 1 (1000 + 10) Written
      = (self', Ok n) /\
    directory_expired self' (1000 + 10) = false /\ n = size (pl_nodes self').
Proof.
  destruct toy_signed_relay_exists as [r Hr]. exists r.
  destruct (toy_load r (mkProxyPool ∅ ∅ 0 ∅ 0 None ∅ GuardState_default (Some []) None None) 1000 Hr eq_refl eq_refl
    (ex_intro _ [] eq_refl)) as [rp Hload].
  eexists _, _. split; [exact Hload|].
  destruct (load_certified id toy_url toy_write _ _ [toy_epoch_document r 1000] toy_auths 1 (1000 + 10) Written _ Hload)
    as (d & _ & _ & _ & Hexp & _ & _ & _ & _ & _ & Hn & _).
  split; [exact Hexp|exact Hn].
Defined.

(** Two epochs with a restart in between. *)
Definition toy_history (r : RelayDescriptor) : list PoolOp :=
  [OpRestart ∅ true true; OpLoad map_order [toy_epoch_document r 1000] toy_auths 1 (1000 + 10) Written;
   OpRestart ∅ true true; OpLoad map_order [toy_epoch_document r 2000] toy_auths 1 (2000 + 10) Written].

Lemma toy_history_log r :
  toy_signed_relay r ->
  exists c, toy_client_run (Refused None None) (toy_history r)
    = (c, [snapshot_of (toy_epoch_document r 1000); snapshot_of (toy_epoch_document r 2000)]).
Proof.
  intros Hr. unfold toy_client_run, toy_history. cbn [client_run client_step].
  set (p0 := mkProxyPool ∅ ∅ 0 ∅ 0 None ∅ GuardState_default (Some (str "guards.json")) None None).
  change (restart toy_read toy_read (str "guards.json") (Refused None None) ∅ true true) with (Up p0).
  cbn [pool_op]. destruct (toy_load r p0 1000 Hr eq_refl eq_refl (ex_intro _ _ eq_refl)) as [rp1 ->].
  set (s1 := snapshot_of (toy_epoch_document r 1000)).
  set (p1 := mkProxyPool ∅ ∅ 0 ∅ 0 (Some s1) ∅ GuardState_default (Some (str "guards.json")) (Some (toy_write s1)) None).
  assert (Hrestart : restart toy_read toy_read (str "guards.json")
    (Up (publish (set_snapshot_file p0 (Some (toy_write s1))) (toy_epoch_document r 1000) rp1)) ∅ true true = Up p1).
  { unfold restart, init_guard_state. cbn [files publish set_snapshot_file pl_snapshot_file pl_guard_file p0 fst snd
      with_revoked_identities pl_guard_state_path].
    assert (Hread : read_bounded_file true (Some (toy_write s1)) 4096 = Ok (toy_write s1)) by done.
    rewrite Hread, toy_roundtrip. done. }
  rewrite Hrestart. assert (Hroll : rolls_back (pl_accepted_snapshot p1) (toy_epoch_document r 2000) = false).
  { cbn [p1 pl_accepted_snapshot rolls_back s1 snapshot_of sn_epoch sn_digest].
    destruct (toy_epoch_fields r 1000) as (-> & _). destruct (toy_epoch_fields r 2000) as (-> & _). done. }
  destruct (toy_load r p1 2000 Hr Hroll eq_refl (ex_intro _ _ eq_refl)) as [rp2 ->]. by eexists.
Qed.

Lemma no_rollback_witness :
  exists r, sn_epoch (snapshot_of (toy_epoch_document r 1000)) < sn_epoch (snapshot_of (toy_epoch_document r 2000)) \/
    (sn_epoch (snapshot_of (toy_epoch_document r 1000)) = sn_epoch (snapshot_of (toy_epoch_document r 2000)) /\
     sn_digest (snapshot_of (toy_epoch_document r 1000)) = sn_digest (snapshot_of (toy_epoch_document r 2000))).
Proof.
  destruct toy_signed_relay_exists as [r Hr]. exists r. destruct (toy_history_log r Hr) as [c Hrun].
  unfold toy_client_run in Hrun. refine (no_rollback id toy_url toy_read toy_write toy_read toy_write (str "guards.json") None None (toy_history r) c
    [snapshot_of (toy_epoch_document r 1000); snapshot_of (toy_epoch_document r 2000)] toy_roundtrip _ _ 0 1
    (snapshot_of (toy_epoch_document r 1000)) (snapshot_of (toy_epoch_document r 2000)) _ _ _).
  - repeat constructor; apply map_order_laws.
  - exact Hrun.
  - lia.
  - reflexivity.
  - reflexivity.
Defined.
