(* ===== verification/Relay.v ===== *)
(** * A relay's connection (src/gateway/server.rs, [handle_relay_inner])

    What a relay does on one link from its client side: it answers CREATE,
    waits for EXTEND, SESSION or RELAY, and then either passes cells between
    its two neighbours or bridges to a destination. [RelayConn] holds the locals
    of the loop, one definition per arm of the loop gives the new state, what is
    handed to the sockets and how the loop goes on. Clocks, randomness, the
    directory pool, the resolver and the outcome of each write are the
    environment of a step; a deadline that passes counts as the failure of the
    operation it interrupts, and a write that fails still appears among the
    effects. *)
From S2P Require Import Prelude Text Net Replay Circuit Cell Flow Identity ExitPolicy Handshake Transport Float LinkCover Link Session Sybil.
From S2P Require Import Consensus Node Pool.

(** ** Data *)
Record Downstream := mkDownstream {
  ds_write : bool;
  is_currently_exit_hop : bool;
  ds_cell_rx : bool;
  ds_data_rx : bool;
}.

Record ExitSide := mkExitSide {
  upload_closed : bool;
  exit_window : SendWindow;
  received_data : Z;
  destination_eof : bool;
  pending_exit_data : option bytes;
  pending_exit_ack : option Z;
  prefer_exit_data : bool;
  last_progress : Z;
}.

Record RelayConn := mkRelayConn {
  relay_hop : RelayCircuitHop;
  downstream : Downstream;
  downstream_id : Z;
  downstream_write_failed_at : option Z;
  exit_side : ExitSide;
}.

(** The pool is shared with other tasks, so each round reads it from its
    environment; [relay_policy] is the [exit_policy] argument of the handler. *)
Record RelayOptions := mkRelayOptions {
  is_exit_allowed : bool;
  cover_profile : CoverProfile;
  relay_policy : ExitPolicy;
}.

(** [env_rng] fills cells, [env_ids] are the draws for a circuit id,
    [env_response] is what the next hop answers to CREATE. *)
Record RelayEnv := mkRelayEnv {
  env_now : Z;
  env_secs : Z;
  env_pool : ProxyPool;
  env_rng : bytes;
  env_client_ok : bool;
  env_downstream_ok : bool;
  env_dns : option (option (list IpAddr));
  env_connect : IpAddr -> Attempt;
  env_nodelay : bool;
  env_challenge : bytes;
  env_server : TlsServer;
  env_phase : Z;
  env_ids : list Z;
  env_response : option bytes;
}.

Inductive Effect :=
| ToClient (wire : bytes)
| ToNext (wire : bytes)
| ToDestination (payload : bytes)
| CloseDestination
| Contact (host : bytes) (port : Z) (tried : list IpAddr)
| LinkedTo (pin : bytes).

Inductive RelayError := RelayMsg (m : string) | RelayCircuit (e : CircuitError) | RelayIo.

(** [Leave] is [break]; [RunSession] hands over to the session loop. *)
Inductive Verdict := Continue | Leave | Fail (e : RelayError) | RunSession (profile : Profile).

Definition Step : Type := RelayConn * list Effect * Verdict.

Definition set_hop (s : RelayConn) (hop : RelayCircuitHop) : RelayConn :=
  mkRelayConn hop (downstream s) (downstream_id s) (downstream_write_failed_at s) (exit_side s).
Definition set_downstream (s : RelayConn) (d : Downstream) : RelayConn :=
  mkRelayConn (relay_hop s) d (downstream_id s) (downstream_write_failed_at s) (exit_side s).
Definition set_downstream_id (s : RelayConn) (id : Z) : RelayConn :=
  mkRelayConn (relay_hop s) (downstream s) id (downstream_write_failed_at s) (exit_side s).
Definition set_write_failed (s : RelayConn) (t : option Z) : RelayConn :=
  mkRelayConn (relay_hop s) (downstream s) (downstream_id s) t (exit_side s).
Definition set_exit (s : RelayConn) (x : ExitSide) : RelayConn :=
  mkRelayConn (relay_hop s) (downstream s) (downstream_id s) (downstream_write_failed_at s) x.

Definition set_window (x : ExitSide) (w : SendWindow) : ExitSide :=
  mkExitSide (upload_closed x) w (received_data x) (destination_eof x) (pending_exit_data x) (pending_exit_ack x) (prefer_exit_data x) (last_progress x).
Definition set_progress (x : ExitSide) (now : Z) : ExitSide :=
  mkExitSide (upload_closed x) (exit_window x) (received_data x) (destination_eof x) (pending_exit_data x) (pending_exit_ack x) (prefer_exit_data x) now.
Definition set_pending_data (x : ExitSide) (d : option bytes) : ExitSide :=
  mkExitSide (upload_closed x) (exit_window x) (received_data x) (destination_eof x) d (pending_exit_ack x) (prefer_exit_data x) (last_progress x).
Definition set_pending_ack (x : ExitSide) (a : option Z) : ExitSide :=
  mkExitSide (upload_closed x) (exit_window x) (received_data x) (destination_eof x) (pending_exit_data x) a (prefer_exit_data x) (last_progress x).
Definition set_received (x : ExitSide) (n : Z) : ExitSide :=
  mkExitSide (upload_closed x) (exit_window x) n (destination_eof x) (pending_exit_data x) (Some n) (prefer_exit_data x) (last_progress x).
Definition set_prefer (x : ExitSide) (b : bool) : ExitSide :=
  mkExitSide (upload_closed x) (exit_window x) (received_data x) (destination_eof x) (pending_exit_data x) (pending_exit_ack x) b (last_progress x).
Definition close_upload (x : ExitSide) : ExitSide :=
  mkExitSide true (exit_window x) (received_data x) (destination_eof x) (pending_exit_data x) (pending_exit_ack x) (prefer_exit_data x) (last_progress x).
Definition set_eof (x : ExitSide) : ExitSide :=
  mkExitSide (upload_closed x) (exit_window x) (received_data x) true (pending_exit_data x) (pending_exit_ack x) (prefer_exit_data x) (last_progress x).

Section Relay.
Context `{OnionPrimitives} `{IdentityPrimitives} `{KexPrimitives} `{LinkPrimitives}.
Context (unicode_lowercase : bytes -> bytes) (options : RelayOptions).

(** [OnionCell::new(..)?], [serialize] and [wrap_backward_originate(..)?]. *)
Definition originate (env : RelayEnv) (s : RelayConn) (command : CellCommand) (stream : Z) (payload : bytes)
    : RelayConn * result RelayError bytes :=
  match OnionCell_new (env_rng env) (hop_circuit_id (relay_hop s)) 0 command stream payload with
  | Err m => (s, Err (RelayMsg m))
  | Ok cell =>
      match wrap_backward_originate (relay_hop s) (OnionCell_serialize cell) with
      | (hop, _, Err e) => (set_hop s hop, Err (RelayCircuit e))
      | (hop, wire, Ok _) => (set_hop s hop, Ok wire)
      end
  end.

(** ** Bridging to a destination *)
Definition exit_done (x : ExitSide) : bool :=
  destination_eof x && drained (exit_window x) && bool_decide (pending_exit_data x = None) && bool_decide (pending_exit_ack x = None).

Definition exit_finish (env : RelayEnv) (s : RelayConn) : Step :=
  match originate env s Destroy 1 [] with
  | (s, Err e) => (s, [], Fail e)
  | (s, Ok wire) => (s, [ToClient wire], if env_client_ok env then Leave else Fail RelayIo)
  end.

Definition payload_of (buf : bytes) (len : Z) : bytes := slice 45 (45 + Z.to_nat len) buf.

(** A cell for this relay, opened. *)
Definition exit_message (env : RelayEnv) (s : RelayConn) (command : CellCommand) (payload : bytes) : Step :=
  let x := exit_side s in
  match command with
  | Data =>
      if upload_closed x then (s, [], Leave)
      else
        let x := set_progress x (env_now env) in
        if negb (env_downstream_ok env) then (set_exit s x, [ToDestination payload], Leave)
        else
          match checked_add u32_MAX (received_data x) 1 with
          | None => (set_exit s x, [ToDestination payload], Fail (RelayMsg "Receive data counter exhausted"))
          | Some n => (set_exit s (set_received x n), [ToDestination payload], Continue)
          end
  | DataAck =>
      match acknowledge (exit_window x) payload with
      | (w, Err m) => (set_exit s (set_window x w), [], Fail (RelayMsg m))
      | (w, Ok _) => (set_exit s (set_progress (set_window x w) (env_now env)), [], Continue)
      end
  | End_ =>
      if upload_closed x then (s, [], Leave)
      else (set_exit s (close_upload x), [CloseDestination], if env_downstream_ok env then Continue else Leave)
  | Dummy => (s, [], Continue)
  | _ => (s, [], Leave)
  end.

Definition exit_cell (env : RelayEnv) (s : RelayConn) (cell : option bytes) : Step :=
  match cell with
  | None => (s, [], Leave)
  | Some buf =>
      let '(hop, buf, r) := peel_forward (relay_hop s) buf in
      let s := set_hop s hop in
      match r with
      | Ok (AddressedToThisRelay command len) => exit_message env s command (payload_of buf len)
      | _ => (s, [], Leave)
      end
  end.

Definition exit_data (env : RelayEnv) (s : RelayConn) (data : option bytes) : Step :=
  let x := exit_side s in
  if bool_decide (pending_exit_data x = None) && negb (destination_eof x) then
    match data with
    | Some bytes => (set_exit s (set_pending_data (set_progress x (env_now env)) (Some bytes)), [], Continue)
    | None => (set_exit s (set_eof x), [], Continue)
    end
  else (s, [], Continue).

(** What the clock sends: an acknowledgement, data or a dummy cell. *)
Definition exit_choice (x : ExitSide) : ExitSide * result RelayError (CellCommand * bytes) :=
  let x := set_prefer x (negb (prefer_exit_data x)) in
  let data_ready := bool_decide (is_Some (pending_exit_data x)) && available (exit_window x) in
  if bool_decide (is_Some (pending_exit_ack x)) && (negb data_ready || negb (prefer_exit_data x)) then
    match pending_exit_ack x with
    | Some ack => (set_pending_ack x None, Ok (DataAck, be_bytes 4 ack))
    | None => (x, Err (RelayMsg "Missing exit acknowledgement"))
    end
  else if data_ready then
    match window_sent (exit_window x) with
    | (w, Err m) => (set_window x w, Err (RelayMsg m))
    | (w, Ok _) =>
        match pending_exit_data x with
        | Some bytes => (set_pending_data (set_window x w) None, Ok (Data, bytes))
        | None => (set_window x w, Err (RelayMsg "Missing exit data"))
        end
    end
  else (x, Ok (Dummy, [])).

Definition exit_clock (env : RelayEnv) (s : RelayConn) : Step :=
  let x := exit_side s in
  if 60 * NANOS_PER_SEC <=? Z.max 0 (env_now env - last_progress x) then (s, [], Fail (RelayMsg "Exit stream idle deadline exceeded"))
  else
    match exit_choice x with
    | (x, Err e) => (set_exit s x, [], Fail e)
    | (x, Ok (command, payload)) =>
        match originate env (set_exit s x) command 1 payload with
        | (s, Err e) => (s, [], Fail e)
        | (s, Ok wire) => (s, [ToClient wire], if env_client_ok env then Continue else Fail RelayIo)
        end
    end.

(** ** Between two relays *)
Definition middle_cell (env : RelayEnv) (s : RelayConn) (cell : option bytes) : Step :=
  match downstream_write_failed_at s with
  | Some _ => (s, [], Continue)
  | None =>
      match cell with
      | None => (s, [], Leave)
      | Some buf =>
          let '(hop, buf, r) := peel_forward (relay_hop s) buf in
          let s := set_hop s hop in
          match r with
          | Ok ForwardDownstream =>
              let buf := blit 0 (be_bytes 4 (downstream_id s)) buf in
              (if env_downstream_ok env then s else set_write_failed s (Some (env_now env)), [ToNext buf], Continue)
          | _ => (s, [], Leave)
          end
      end
  end.

Definition middle_back (env : RelayEnv) (s : RelayConn) (cell : option bytes) : Step :=
  match cell with
  | None => (s, [], Leave)
  | Some buf =>
      if negb (from_be (slice 0 4 buf) =? downstream_id s) then (s, [], Leave)
      else
        match wrap_backward_relay (relay_hop s) (blit 0 (be_bytes 4 (hop_circuit_id (relay_hop s))) buf) with
        | (hop, _, Err _) => (set_hop s hop, [], Leave)
        | (hop, wire, Ok _) => (set_hop s hop, [ToClient wire], if env_client_ok env then Continue else Leave)
        end
  end.

Definition middle_drain (env : RelayEnv) (s : RelayConn) : Step :=
  match downstream_write_failed_at s with
  | Some t => (s, [], if t + 5 * NANOS_PER_SEC <=? env_now env then Leave else Continue)
  | None => (s, [], Continue)
  end.

(** ** Waiting for instructions *)
Definition next_circuit_id (own : Z) (draws : list Z) : option Z :=
  List.find (fun id => negb (id =? 0) && negb (id =? own)) draws.

Definition may_reach (env : RelayEnv) (host : bytes) (port : Z) : bool :=
  is_exit_allowed options || is_mesh_target (env_pool env) (env_secs env) host port.

(** EXTEND up to the CREATE cell for the next hop. *)
Definition extend_create (env : RelayEnv) (s : RelayConn) (payload : bytes) : RelayConn * list Effect * result string bytes :=
  if (length payload <? 32)%nat then (s, [], Err "EXTEND identity pin missing"%string)
  else
    match decode_extend_payload (take (length payload - 32) payload) with
    | Err _ => (s, [], Err "bad EXTEND payload"%string)
    | Ok (next_h, next_p, next_pub, next_mlkem_pub, hop) =>
        if negb (hop =? hop_index (relay_hop s) + 1) then (s, [], Err "EXTEND rejected: requested hop_index does not match expected"%string)
        else if MAX_HOPS <=? hop then (s, [], Err "EXTEND rejected: max chain depth exceeded"%string)
        else if negb (may_reach env next_h next_p) then
          (s, [], Err "EXTEND rejected: target is not a known mesh node and relay is not an exit node"%string)
        else
          let pin_offset := (1 + 1 + length next_h + 2 + 32 + Z.to_nat 1184)%nat in
          if negb (length payload =? pin_offset + 32)%nat then (s, [], Err "EXTEND requires a next-hop identity pin"%string)
          else
            let next_pin := drop pin_offset payload in
            let '(tried, connected) := resolve_and_connect unicode_lowercase (relay_policy options) next_h next_p (env_dns env) (env_connect env) in
            let effects := [Contact next_h next_p tried] in
            match connected with
            | Err _ => (s, effects, Err "Next-hop connection failed"%string)
            | Ok _ =>
                if negb (env_nodelay env) then (s, effects, Err "Next-hop socket setup failed"%string)
                else
                  match connect_guarded_with_profile next_pin (cover_profile options) (env_challenge env) (env_server env) (env_phase env) (env_now env) with
                  | Err _ => (s, effects, Err "Next-hop TLS authentication failed"%string)
                  | Ok _ =>
                      let effects := effects ++ [LinkedTo next_pin] in
                      match next_circuit_id (hop_circuit_id (relay_hop s)) (env_ids env) with
                      | None => (s, effects, Err "Next-hop setup deadline exceeded"%string)
                      | Some next_id =>
                          let s := set_downstream_id s next_id in
                          match build_create_cell (env_rng env) (hop_context_id (relay_hop s)) next_pub next_mlkem_pub hop with
                          | Err _ => (s, effects, Err "failed to build CREATE cell"%string)
                          | Ok c =>
                              let wire := OnionCell_serialize (stamp c next_id (cell_sequence_no c) (cell_mac c)) in
                              (s, effects ++ [ToNext wire], if env_downstream_ok env then Ok wire else Err "failed to write CREATE to next hop"%string)
                          end
                      end
                  end
            end
    end.

(** The refusal: a DESTROY cell, whatever becomes of it. *)
Definition extend_refuse (env : RelayEnv) (s : RelayConn) : RelayConn * list Effect :=
  match OnionCell_new (env_rng env) (hop_circuit_id (relay_hop s)) 0 Destroy 0 [] with
  | Err _ => (s, [])
  | Ok cell => let '(hop, wire, _) := wrap_backward_originate (relay_hop s) (OnionCell_serialize cell) in (set_hop s hop, [ToClient wire])
  end.

Definition extend_answer (env : RelayEnv) (s : RelayConn) (resp : bytes) : Step :=
  if negb (from_be (slice 0 4 resp) =? downstream_id s) then (s, [], Leave)
  else
    match wrap_backward_originate (relay_hop s) (blit 0 (be_bytes 4 (hop_circuit_id (relay_hop s))) resp) with
    | (hop, _, Err _) => (set_hop s hop, [], Leave)
    | (hop, wire, Ok _) =>
        let s := set_hop s hop in
        if env_client_ok env
        then (set_downstream s (mkDownstream true false true (ds_data_rx (downstream s))), [ToClient wire], Continue)
        else (s, [ToClient wire], Leave)
    end.

Definition setup_extend (env : RelayEnv) (s : RelayConn) (payload : bytes) : Step :=
  let '(s, effects, created) := extend_create env s payload in
  match created, env_response env with
  | Ok _, Some resp => let '(s, more, v) := extend_answer env s resp in (s, effects ++ more, v)
  | _, _ => let '(s, more) := extend_refuse env s in (s, effects ++ more, Leave)
  end.

Definition setup_session (env : RelayEnv) (s : RelayConn) (buf : bytes) (len : Z) : Step :=
  if negb (is_exit_allowed options) || (hop_index (relay_hop s) <? 2) || negb (bool_decide (slice 9 11 buf = [0; 0])) then
    (s, [], Fail (RelayMsg "Padded sessions require an exit and stream zero"))
  else
    match Profile_decode (payload_of buf len) with
    | Err m => (s, [], Fail (RelayMsg m))
    | Ok profile =>
        if bool_decide (cover_profile options = Link.Economy) && negb (bool_decide (profile = Balanced) || bool_decide (profile = LongTail)) then
          (s, [], Fail (RelayMsg "Economy link cover requires the balanced session profile"))
        else
          match originate env s SessionAccepted 0 (Profile_encode profile) with
          | (s, Err e) => (s, [], Fail e)
          | (s, Ok wire) => (s, [ToClient wire], if env_client_ok env then RunSession profile else Fail RelayIo)
          end
    end.

Definition setup_relay (env : RelayEnv) (s : RelayConn) (payload : bytes) : Step :=
  match decode_relay_target payload with
  | Err _ => (s, [], Continue)
  | Ok (target_h, target_p) =>
      if negb (may_reach env target_h target_p) then (s, [], Leave)
      else
        let '(tried, connected) := resolve_and_connect unicode_lowercase (relay_policy options) target_h target_p (env_dns env) (env_connect env) in
        let effects := [Contact target_h target_p tried] in
        match connected with
        | Err _ => (s, effects, Leave)
        | Ok _ =>
            match OnionCell_new (env_rng env) (hop_circuit_id (relay_hop s)) 0 Relay 0 (str "CONNECTED") with
            | Err _ => (s, effects, Continue)
            | Ok cell =>
                match wrap_backward_originate (relay_hop s) (OnionCell_serialize cell) with
                | (hop, _, Err _) => (set_hop s hop, effects, Leave)
                | (hop, wire, Ok _) =>
                    let s := set_hop s hop in
                    (if env_client_ok env then set_downstream s (mkDownstream true true (ds_cell_rx (downstream s)) true) else s,
                     effects ++ [ToClient wire], Continue)
                end
            end
        end
  end.

Definition setup_cell (env : RelayEnv) (s : RelayConn) (cell : option bytes) : Step :=
  match cell with
  | None => (s, [], Leave)
  | Some buf =>
      let '(hop, buf, r) := peel_forward (relay_hop s) buf in
      let s := set_hop s hop in
      match r with
      | Ok (AddressedToThisRelay Extend len) => setup_extend env s (payload_of buf len)
      | Ok (AddressedToThisRelay Session len) => setup_session env s buf len
      | Ok (AddressedToThisRelay Relay len) => setup_relay env s (payload_of buf len)
      | _ => (s, [], Leave)
      end
  end.

(** ** The loop *)
Inductive RelayEvent :=
| FromClient (cell : option bytes)
| FromNext (cell : option bytes)
| FromDestination (data : option bytes)
| Clock
| Drain
| Idle.

(** One round of the loop: the head of the loop, then the branch of the select
    that is taken. A branch that is disabled changes nothing. *)
Definition relay_step (env : RelayEnv) (s : RelayConn) (ev : RelayEvent) : Step :=
  let d := downstream s in
  if ds_write d then
    if is_currently_exit_hop d then
      if exit_done (exit_side s) then exit_finish env s
      else if negb (ds_data_rx d) then (s, [], Leave)
      else
        match ev with
        | FromClient cell => exit_cell env s cell
        | Idle => (s, [], Leave)
        | FromDestination data => exit_data env s data
        | Clock => exit_clock env s
        | FromNext _ | Drain => (s, [], Continue)
        end
    else if negb (ds_cell_rx d) then (s, [], Leave)
    else
      match ev with
      | FromClient cell => middle_cell env s cell
      | Drain => middle_drain env s
      | Idle => (s, [], Leave)
      | FromNext cell => middle_back env s cell
      | FromDestination _ | Clock => (s, [], Continue)
      end
  else
    match ev with
    | FromClient cell => setup_cell env s cell
    | Idle => (s, [], Leave)
    | _ => (s, [], Continue)
    end.

Fixpoint relay_run (s : RelayConn) (evs : list (RelayEnv * RelayEvent)) : RelayConn * list (RelayEnv * list Effect) * Verdict :=
  match evs with
  | [] => (s, [], Continue)
  | (env, ev) :: evs =>
      match relay_step env s ev with
      | (s, effects, Continue) => let '(s, trace, v) := relay_run s evs in (s, (env, effects) :: trace, v)
      | (s, effects, v) => (s, [(env, effects)], v)
      end
  end.

(** CREATE, before the loop. [None] is the panic inside [sign]. *)
Definition fresh_exit (now : Z) : ExitSide := mkExitSide false SendWindow_default 0 false None None false now.
Definition fresh_relay (hop : RelayCircuitHop) (now : Z) : RelayConn :=
  mkRelayConn hop (mkDownstream false false false false) 0 None (fresh_exit now).

Definition relay_start (env : RelayEnv) (relay_secret kem_rng : bytes) (identity : HybridSigningKey) (initial : bytes)
    : option (result RelayError (RelayConn * bytes)) :=
  match OnionCell_parse initial with
  | Err m => Some (Err (RelayMsg ("Failed to parse incoming CREATE cell: " +:+ m)%string))
  | Ok create_cell =>
      match handle_create_cell relay_secret kem_rng (env_rng env) create_cell identity with
      | None => None
      | Some (Err e) => Some (Err (RelayCircuit e))
      | Some (Ok (hop, created)) =>
          if env_client_ok env then Some (Ok (fresh_relay hop (env_now env), OnionCell_serialize created)) else Some (Err RelayIo)
      end
  end.

(** ** What a round does to the relay's sequence numbers *)

(** The cells handed to the client side. *)
Definition client_wires (effects : list Effect) : list bytes :=
  effects ≫= fun e => match e with ToClient w => [w] | _ => [] end.

Definition wire_seq (wire : bytes) : Z := from_be (slice 4 8 wire).

(** The range of the relay's counters. *)
Definition hop_ok (h : RelayCircuitHop) : Prop := 0 <= hop_index h /\ 1 <= hop_next_send_seq h <= u32_MAX.

(** The same relay, possibly with a later send counter. *)
Definition advances (h h' : RelayCircuitHop) : Prop :=
  hop_index h' = hop_index h /\ hop_circuit_id h' = hop_circuit_id h /\ hop_crypt h' = hop_crypt h /\
  hop_next_send_seq h <= hop_next_send_seq h' <= u32_MAX.

(** At most one cell goes to the client. It is sealed under the next counter,
    or it claims the index of another hop, or it is a last plain DESTROY. *)
Inductive client_out (h h' : RelayCircuitHop) (v : Verdict) (effects : list Effect) : Prop :=
| out_none : client_wires effects = [] -> client_out h h' v effects
| out_own w : client_wires effects = [w] -> seq_hop (wire_seq w) = hop_index h -> seq_counter (wire_seq w) = hop_next_send_seq h ->
    hop_next_send_seq h' = hop_next_send_seq h + 1 -> client_out h h' v effects
| out_other w : client_wires effects = [w] -> seq_hop (wire_seq w) <> hop_index h -> client_out h h' v effects
| out_plain w : client_wires effects = [w] -> wire_seq w = 0 -> v = Leave -> client_out h h' v effects.

Definition cell_event (ev : RelayEvent) : Prop :=
  match ev with FromClient (Some b) | FromNext (Some b) => length b = ONION_CELL_SIZE | _ => True end.

Lemma keeps_hop_refl h : hop_ok h -> advances h h.
Proof. intros [_ Hn]. unfold advances. split_and!; try done; lia. Qed.

Lemma keeps_hop_trans h1 h2 h3 : advances h1 h2 -> advances h2 h3 -> advances h1 h3.
Proof. unfold advances. intros (? & ? & ? & ?) (? & ? & ? & ?). split_and!; congruence || lia. Qed.

Lemma keeps_hop_ok h h' : hop_ok h -> advances h h' -> hop_ok h'.
Proof. unfold hop_ok, advances. intros [? ?] (-> & _ & _ & ?). split; lia. Qed.

(** Peeling moves the receive counter only. *)
Lemma peel_same hop raw hop' raw' r : peel_forward hop raw = (hop', raw', r) -> exists n, hop' = set_expected_recv_seq hop n.
Proof.
  unfold peel_forward, open_forward. intros E. assert (Hid : hop = set_expected_recv_seq hop (hop_expected_recv_seq hop)) by (by destruct hop).
  guards_in E; eauto.
Qed.

Lemma cell_new_serialized rng id command stream payload cell :
  length rng = 32%nat -> OnionCell_new rng id 0 command stream payload = Ok cell ->
  wire_seq (OnionCell_serialize cell) = 0 /\ length (OnionCell_serialize cell) = ONION_CELL_SIZE.
Proof.
  intros Hr. unfold OnionCell_new. destruct (Nat.ltb_spec PAYLOAD_SIZE (length payload)) as [|Hl]; [done|]. intros <-%Ok_inj.
  assert (Hs : cell_sized {| cell_circuit_id := id; cell_sequence_no := 0; cell_command := command; cell_stream_id := stream;
    cell_length := Z.of_nat (length payload) mod 65536; cell_ephemeral_key := rng; cell_mac := replicate 16 0;
    cell_payload := blit 0 payload (replicate PAYLOAD_SIZE 0) |}).
  { unfold cell_sized. cell_fields. rewrite length_blit by (rewrite length_replicate; lia). by rewrite !length_replicate. }
  rewrite sized_layout by done. split; [|by apply sized_length]. unfold wire_seq, cell_layout. rewrite (slice_app_at 4 8) by done. reflexivity.
Qed.

(** The payload a relay reads out of an opened cell. *)
Lemma payload_of_parse raw cell len :
  OnionCell_parse raw = Ok cell -> 0 <= len <= Z.of_nat PAYLOAD_SIZE -> payload_of raw len = take (Z.to_nat len) (cell_payload cell).
Proof.
  unfold OnionCell_parse. intros Hp Hle. destruct (command_from_u8 _) as [command|]; [|done]. destruct (_ <? _); [done|].
  apply Ok_inj in Hp as <-. cell_fields. unfold payload_of, slice. rewrite take_take. f_equal. lia.
Qed.

(** ** Every round *)
Definition env_ok (env : RelayEnv) : Prop :=
  length (env_rng env) = 32%nat /\ forall resp, env_response env = Some resp -> length resp = ONION_CELL_SIZE.

Section Laws.
Context `{!OnionPrimitivesLaws}.

Lemma originate_advances hop raw hop' raw' r :
  hop_ok hop -> length raw = ONION_CELL_SIZE -> wrap_backward_originate hop raw = (hop', raw', r) ->
  advances hop hop' /\
  match r with
  | Ok _ => seq_hop (wire_seq raw') = hop_index hop /\ seq_counter (wire_seq raw') = hop_next_send_seq hop /\
            hop_next_send_seq hop' = hop_next_send_seq hop + 1
  | Err _ => raw' = raw
  end.
Proof.
  intros [Hi Hn] Hl Ew. pose proof (originate_spec hop raw hop' raw' r Hl Hi ltac:(lia) Ew) as (Hx & Hy & Hz).
  assert (Hs : hop' = set_next_send_seq hop (hop_next_send_seq hop')).
  { unfold wrap_backward_originate in Ew. guards_in Ew; try done. by match goal with |- ?h = _ => destruct h end. }
  split; [rewrite Hs; unfold advances; cbn [hop_index hop_circuit_id hop_crypt hop_next_send_seq set_next_send_seq]; split_and!; done || lia|]. destruct r as [[]|e]; [by destruct Hz as (_ & ? & ? & ?)|].
  unfold wrap_backward_originate in Ew. by guards_in Ew.
Qed.

Lemma originate_out env s command stream payload s' r v :
  env_ok env -> hop_ok (relay_hop s) -> originate env s command stream payload = (s', r) ->
  advances (relay_hop s) (relay_hop s') /\ s' = set_hop s (relay_hop s') /\
  forall wire, r = Ok wire -> client_out (relay_hop s) (relay_hop s') v [ToClient wire].
Proof.
  intros He Hh. unfold originate. destruct (OnionCell_new _ _ _ _ _ _) as [cell|] eqn:Ec.
  2: { intros [= <- <-]. split_and!; [by apply keeps_hop_refl|by destruct s|done]. }
  apply cell_new_serialized in Ec as [_ Hl]; [|by destruct He].
  destruct (wrap_backward_originate _ _) as [[hop wire] r0] eqn:Ew. destruct (originate_advances _ _ _ _ _ Hh Hl Ew) as [Ha Hw].
  destruct r0 as [[]|e]; intros [= <- <-]; (split_and!; [exact Ha|done|]); [|done].
  intros w [= ->]. destruct Hw as (? & ? & ?). by eapply out_own.
Qed.

(** What every arm keeps: who the relay is, and the discipline of what goes to
    the client. *)
Definition arm_ok (s : RelayConn) (st : Step) : Prop :=
  let '(s', effects, v) := st in advances (relay_hop s) (relay_hop s') /\ client_out (relay_hop s) (relay_hop s') v effects.

Lemma arm_quiet s s' effects v : hop_ok (relay_hop s) -> relay_hop s' = relay_hop s -> client_wires effects = [] -> arm_ok s (s', effects, v).
Proof. intros Hh E Hw. split; [rewrite E; by apply keeps_hop_refl|by apply out_none]. Qed.

Lemma arm_peeled s n st : arm_ok (set_hop s (set_expected_recv_seq (relay_hop s) n)) st -> arm_ok s st.
Proof. destruct st as [[s' effects] v]. intros [Ha Ho]. split; [exact Ha|]. destruct Ho; [by apply out_none|by eapply out_own..|by eapply out_other|by eapply out_plain]. Qed.

Lemma arm_sends env s command stream payload s' r (e : RelayError -> Verdict) (v : Verdict) :
  env_ok env -> hop_ok (relay_hop s) -> originate env s command stream payload = (s', r) ->
  arm_ok s (match r with Ok wire => (s', [ToClient wire], v) | Err m => (s', [], e m) end).
Proof.
  intros He Hh Eo. destruct (originate_out env s command stream payload s' r v He Hh Eo) as (Ha & _ & Hw).
  destruct r as [wire|m]; (split; [done|]); [by apply Hw|by apply out_none].
Qed.

Ltac quiet_arm := repeat split_goal; by apply arm_quiet.

Lemma exit_cell_ok env s cell : hop_ok (relay_hop s) -> arm_ok s (exit_cell env s cell).
Proof.
  intros Hh. destruct cell as [buf|]; [|by apply arm_quiet]. unfold exit_cell.
  destruct (peel_forward (relay_hop s) buf) as [[hop buf'] r] eqn:Ep. apply peel_same in Ep as [n ->]. apply (arm_peeled s n). unfold exit_message. quiet_arm.
Qed.

Lemma middle_cell_ok env s cell : hop_ok (relay_hop s) -> arm_ok s (middle_cell env s cell).
Proof.
  intros Hh. unfold middle_cell. destruct (downstream_write_failed_at s); [by apply arm_quiet|]. destruct cell as [buf|]; [|by apply arm_quiet].
  destruct (peel_forward (relay_hop s) buf) as [[hop buf'] r] eqn:Ep. apply peel_same in Ep as [n ->]. apply (arm_peeled s n). quiet_arm.
Qed.

Lemma exit_data_ok env s data : hop_ok (relay_hop s) -> arm_ok s (exit_data env s data).
Proof. intros Hh. unfold exit_data. quiet_arm. Qed.

Lemma exit_finish_ok env s : env_ok env -> hop_ok (relay_hop s) -> arm_ok s (exit_finish env s).
Proof.
  intros He Hh. unfold exit_finish. destruct (originate _ _ _ _ _) as [s' r] eqn:Eo.
  apply (arm_sends env s Destroy 1 [] s' r Fail (if env_client_ok env then Leave else Fail RelayIo)) in Eo; [|done..]. by destruct r.
Qed.

Lemma exit_clock_ok env s : env_ok env -> hop_ok (relay_hop s) -> arm_ok s (exit_clock env s).
Proof.
  intros He Hh. unfold exit_clock. destruct (_ <=? _); [by apply arm_quiet|]. destruct (exit_choice _) as [x [[command payload]|e]]; [|by apply arm_quiet].
  destruct (originate _ _ _ _ _) as [s' r] eqn:Eo.
  apply (arm_sends env (set_exit s x) command 1 payload s' r Fail (if env_client_ok env then Continue else Fail RelayIo)) in Eo; [|done..].
  by destruct r.
Qed.

Lemma setup_session_ok env s buf len : env_ok env -> hop_ok (relay_hop s) -> arm_ok s (setup_session env s buf len).
Proof.
  intros He Hh. unfold setup_session. destruct (_ || _ || _); [by apply arm_quiet|]. destruct (Profile_decode _) as [profile|]; [|by apply arm_quiet].
  destruct (_ && _); [by apply arm_quiet|]. destruct (originate _ _ _ _ _) as [s' r] eqn:Eo.
  apply (arm_sends env s SessionAccepted 0 (Profile_encode profile) s' r Fail (if env_client_ok env then RunSession profile else Fail RelayIo)) in Eo; [|done..].
  by destruct r.
Qed.

Lemma client_wires_app e1 e2 : client_wires (e1 ++ e2) = client_wires e1 ++ client_wires e2.
Proof. apply bind_app. Qed.

Lemma arm_prefixed s s0 effects st :
  relay_hop s0 = relay_hop s -> client_wires effects = [] -> arm_ok s0 st ->
  arm_ok s (let '(s', more, v) := st in (s', effects ++ more, v)).
Proof.
  intros E Hq. destruct st as [[s' more] v]. intros [Ha Ho]. rewrite E in *. split; [done|].
  assert (Hw : client_wires (effects ++ more) = client_wires more) by (by rewrite client_wires_app, Hq).
  destruct Ho; [apply out_none|eapply out_own|eapply out_other|eapply out_plain]; rewrite ?Hw; done.
Qed.

Lemma relay_same hop raw : (wrap_backward_relay hop raw).1.1 = hop.
Proof. unfold wrap_backward_relay. by destruct (_ =? _). Qed.

Lemma relay_labels hop raw hop' wire :
  length raw = ONION_CELL_SIZE -> wrap_backward_relay hop raw = (hop', wire, Ok tt) -> hop' = hop /\ seq_hop (wire_seq wire) <> hop_index hop.
Proof.
  intros Hl. unfold wrap_backward_relay. destruct (Z.eqb_spec (seq_hop (from_be (slice 4 8 raw))) (hop_index hop)) as [|Hne]; [done|].
  intros [= <- <-]. split; [done|]. unfold wire_seq. by rewrite slice_header by (done || lia).
Qed.

Lemma middle_back_ok env s cell : hop_ok (relay_hop s) -> cell_event (FromNext cell) -> arm_ok s (middle_back env s cell).
Proof.
  intros Hh Hc. destruct cell as [buf|]; [|by apply arm_quiet]. unfold middle_back. destruct (negb _); [by apply arm_quiet|]. cbn in Hc.
  destruct (wrap_backward_relay _ _) as [[hop wire] [[]|e]] eqn:Ew.
  - apply relay_labels in Ew as [-> Hne]; [|by rewrite length_blit; rewrite ?be_bytes_length, Hc; sizes].
    split; [by apply keeps_hop_refl|by eapply out_other].
  - apply (f_equal (fun p => p.1.1)) in Ew. rewrite relay_same in Ew. cbn in Ew. subst hop. by apply arm_quiet.
Qed.

Lemma extend_create_quiet env s payload :
  let '(s', effects, _) := extend_create env s payload in relay_hop s' = relay_hop s /\ client_wires effects = [].
Proof. unfold extend_create. repeat split_goal; done. Qed.

Lemma extend_answer_ok env s resp : hop_ok (relay_hop s) -> length resp = ONION_CELL_SIZE -> arm_ok s (extend_answer env s resp).
Proof.
  intros Hh Hl. unfold extend_answer. destruct (negb _); [by apply arm_quiet|].
  destruct (wrap_backward_originate _ _) as [[hop wire] r] eqn:Ew.
  apply originate_advances in Ew as [Ha Hw]; [|done|by rewrite length_blit; rewrite ?be_bytes_length, Hl; sizes].
  destruct r as [[]|e]; [|split; [done|by apply out_none]]. destruct Hw as (? & ? & ?).
  destruct (env_client_ok env); (split; [done|by eapply out_own]).
Qed.

Lemma extend_refuse_ok env s s' effects :
  env_ok env -> hop_ok (relay_hop s) -> extend_refuse env s = (s', effects) -> arm_ok s (s', effects, Leave).
Proof.
  intros [He _] Hh. unfold extend_refuse. destruct (OnionCell_new _ _ _ _ _ _) as [cell|] eqn:Ec; [|intros [= <- <-]; by apply arm_quiet].
  apply cell_new_serialized in Ec as [Hz Hl]; [|done]. destruct (wrap_backward_originate _ _) as [[hop wire] r] eqn:Ew. intros [= <- <-].
  apply originate_advances in Ew as [Ha Hw]; [|done..]. split; [done|]. destruct r as [[]|e].
  - destruct Hw as (? & ? & ?). by eapply out_own.
  - subst. by eapply out_plain.
Qed.

Lemma setup_extend_ok env s payload : env_ok env -> hop_ok (relay_hop s) -> arm_ok s (setup_extend env s payload).
Proof.
  intros He Hh. unfold setup_extend. pose proof (extend_create_quiet env s payload) as Hx.
  destruct (extend_create env s payload) as [[s0 effects] created]. destruct Hx as [Eh Hq]. assert (Hh0 : hop_ok (relay_hop s0)) by (by rewrite Eh).
  assert (Hr : arm_ok s (let '(s1, more) := extend_refuse env s0 in (s1, effects ++ more, Leave))).
  { destruct (extend_refuse env s0) as [s1 more] eqn:Er. apply extend_refuse_ok in Er; [|done..].
    exact (arm_prefixed s s0 effects (s1, more, Leave) Eh Hq Er). }
  destruct created as [wire|]; [|done]. destruct (env_response env) as [resp|] eqn:Er; [|done].
  apply (arm_prefixed s s0); [done|done|]. apply extend_answer_ok; [done|]. by apply He.
Qed.

Lemma setup_relay_ok env s payload : env_ok env -> hop_ok (relay_hop s) -> arm_ok s (setup_relay env s payload).
Proof.
  intros [He _] Hh. unfold setup_relay. destruct (decode_relay_target payload) as [[h p]|]; [|by apply arm_quiet].
  destruct (negb _); [by apply arm_quiet|]. destruct (resolve_and_connect _ _ _ _ _ _) as [tried [a|]]; [|by apply arm_quiet].
  destruct (OnionCell_new _ _ _ _ _ _) as [cell|] eqn:Ec; [|by apply arm_quiet]. apply cell_new_serialized in Ec as [_ Hl]; [|done].
  destruct (wrap_backward_originate _ _) as [[hop wire] r] eqn:Ew. apply originate_advances in Ew as [Ha Hw]; [|done..].
  destruct r as [[]|e]; [|split; [done|by apply out_none]]. destruct Hw as (? & ? & ?).
  destruct (env_client_ok env); (split; [done|by eapply out_own]).
Qed.

Lemma setup_cell_ok env s cell : env_ok env -> hop_ok (relay_hop s) -> arm_ok s (setup_cell env s cell).
Proof.
  intros He Hh. destruct cell as [buf|]; [|by apply arm_quiet]. unfold setup_cell.
  destruct (peel_forward (relay_hop s) buf) as [[hop buf'] r] eqn:Ep. apply peel_same in Ep as [n ->]. apply (arm_peeled s n).
  destruct r as [[[] len|]|]; try (by apply arm_quiet); [by apply setup_relay_ok|by apply setup_extend_ok|by apply setup_session_ok].
Qed.

Lemma relay_step_ok env s ev : env_ok env -> cell_event ev -> hop_ok (relay_hop s) -> arm_ok s (relay_step env s ev).
Proof.
  intros He Hc Hh. unfold relay_step. destruct (ds_write _).
  - destruct (is_currently_exit_hop _).
    + destruct (exit_done _); [by apply exit_finish_ok|]. destruct (negb _); [by apply arm_quiet|].
      destruct ev; [by apply exit_cell_ok|by apply arm_quiet|by apply exit_data_ok|by apply exit_clock_ok|by apply arm_quiet..].
    + destruct (negb _); [by apply arm_quiet|].
      destruct ev; [by apply middle_cell_ok|by apply middle_back_ok|by apply arm_quiet..| |by apply arm_quiet].
      unfold middle_drain. quiet_arm.
  - destruct ev; [by apply setup_cell_ok|by apply arm_quiet..].
Qed.

(** ** Whole connections *)
Definition events_ok (evs : list (RelayEnv * RelayEvent)) : Prop := Forall (fun e => env_ok e.1 /\ cell_event e.2) evs.

(** Sequence numbers of the cells that claim to come from this relay. *)
Definition own_seqs (index : Z) (trace : list (RelayEnv * list Effect)) : list Z :=
  filter (fun seq => seq_hop seq = index) (wire_seq <$> client_wires (mjoin (snd <$> trace))).

Lemma own_seqs_cons index env effects trace :
  own_seqs index ((env, effects) :: trace) =
  filter (fun seq => seq_hop seq = index) (wire_seq <$> client_wires effects) ++ own_seqs index trace.
Proof. unfold own_seqs. cbn. by rewrite client_wires_app, fmap_app, filter_app. Qed.

(** The numbers one round adds. *)
Lemma round_seqs s s' effects v :
  arm_ok s (s', effects, v) ->
  let l := filter (fun seq => seq_hop seq = hop_index (relay_hop s)) (wire_seq <$> client_wires effects) in
  l = [] \/ (exists seq, l = [seq] /\ seq_counter seq = hop_next_send_seq (relay_hop s) /\
               hop_next_send_seq (relay_hop s') = hop_next_send_seq (relay_hop s) + 1) \/ (l = [0] /\ v = Leave).
Proof.
  intros [_ Ho] l. unfold l. destruct Ho as [->|w -> Hi Hc Hn|w -> Hi|w -> Hz Hv].
  - by left.
  - right. left. exists (wire_seq w). split; [|done]. cbn. by rewrite decide_True.
  - left. cbn. by rewrite decide_False.
  - cbn. rewrite Hz. case_decide; [right; right; done|by left].
Qed.

Lemma run_seqs s evs :
  hop_ok (relay_hop s) -> events_ok evs ->
  let '(s', trace, _) := relay_run s evs in
  let seqs := own_seqs (hop_index (relay_hop s)) trace in
  advances (relay_hop s) (relay_hop s') /\ NoDup seqs /\
  Forall (fun seq => (seq = 0 \/ hop_next_send_seq (relay_hop s) <= seq_counter seq) /\ seq_counter seq < hop_next_send_seq (relay_hop s')) seqs.
Proof.
  intros Hh Hevs. revert s Hh. induction Hevs as [|[env ev] evs [He Hc] _ IH]; intros s Hh; cbn [relay_run fst snd] in *.
  { split_and!; [by apply keeps_hop_refl|constructor..]. }
  pose proof (relay_step_ok env s ev He Hc Hh) as Hs. destruct (relay_step env s ev) as [[s1 effects] v].
  pose proof (round_seqs _ _ _ _ Hs) as Hl. destruct Hs as [Ha _]. pose proof (keeps_hop_ok _ _ Hh Ha) as Hh1.
  specialize (IH s1 Hh1). destruct (relay_run s1 evs) as [[s2 trace] v2].
  destruct IH as (IHa & IHn & IHf). pose proof Ha as (Hi & _ & _ & Hle). rewrite Hi in IHn, IHf.
  set (index := hop_index (relay_hop s)) in *. set (low := hop_next_send_seq (relay_hop s)) in *.
  assert (Htail : exists s3 trace3 v3 tail, (match v with Continue => (s2, (env, effects) :: trace, v2) | _ => (s1, [(env, effects)], v) end) = (s3, trace3, v3) /\
      own_seqs index trace3 = filter (fun seq => seq_hop seq = index) (wire_seq <$> client_wires effects) ++ tail /\
      advances (relay_hop s1) (relay_hop s3) /\ NoDup tail /\
      Forall (fun seq => (seq = 0 \/ hop_next_send_seq (relay_hop s1) <= seq_counter seq) /\ seq_counter seq < hop_next_send_seq (relay_hop s3)) tail /\
      (v = Leave -> tail = [])).
  { destruct v; do 4 eexists; (split; [reflexivity|]); rewrite own_seqs_cons; (split; [reflexivity|]);
      (split_and!; [by apply keeps_hop_refl || done|done || constructor..|done]). }
  destruct Htail as (s3 & trace3 & v3 & tail & -> & Hown & Ha3 & Hn & Hf & Hv). cbv zeta. rewrite Hown.
  pose proof (keeps_hop_trans _ _ _ Ha Ha3) as Ht. split; [done|]. destruct Ha3 as (_ & _ & _ & Hle3). destruct Hh1 as [_ Hh1].
  assert (Hlow : Forall (fun seq => (seq = 0 \/ low <= seq_counter seq) /\ seq_counter seq < hop_next_send_seq (relay_hop s3)) tail).
  { eapply Forall_impl; [exact Hf|]. cbn. intros seq [[?|?] ?]; (split; [|done]); [by left|right; lia]. }
  cbv zeta in Hl. destruct Hl as [->|[(seq & -> & Hcnt & Hnext)|[-> ->]]]; [done| |].
  - split; [|constructor; [split; [right|]; lia|done]]. constructor; [|done]. intros Hin. rewrite Forall_forall in Hf.
    destruct (Hf seq Hin) as [[->|Hge] _]; [|lia]. destruct Hh as [_ Hh]. change (seq_counter 0) with 0 in Hcnt. lia.
  - rewrite Hv by done. split; [apply NoDup_singleton|]. constructor; [|constructor]. split; [by left|]. change (seq_counter 0) with 0. lia.
Qed.

Lemma handle_create_hop relay_secret kem_rng rng cell identity hop created :
  handle_create_cell relay_secret kem_rng rng cell identity = Some (Ok (hop, created)) ->
  hop_index hop = cell_payload cell !!! 0%nat /\ hop_next_send_seq hop = 1 /\ hop_circuit_id hop = cell_circuit_id cell.
Proof.
  unfold handle_create_cell. destruct (negb _); [done|]. destruct (_ || _); [done|]. cbv zeta. destruct (_ <=? _); [done|].
  destruct (negb _); [done|]. destruct (bool_decide _); [done|]. destruct (mlkem_encapsulate _ _) as [[ct ss]|]; [|done].
  destruct (identity_sign _ _); [|done]. intros E%Some_inj'. destruct (derive_hop_keys_with_context _ _) as [keys|]; [|done].
  destruct (map_general _) as [c|]; [|done]. apply Ok_inj in E. injection E as <- _. done.
Qed.

Lemma relay_start_ok env relay_secret kem_rng identity initial s created :
  length initial = ONION_CELL_SIZE -> is_bytes initial ->
  relay_start env relay_secret kem_rng identity initial = Some (Ok (s, created)) ->
  hop_ok (relay_hop s) /\ s = fresh_relay (relay_hop s) (env_now env).
Proof.
  intros Hl Hb. unfold relay_start. destruct (OnionCell_parse initial) as [cell|] eqn:Ep; [|done].
  destruct (handle_create_cell _ _ _ _ _) as [[[hop c]|]|] eqn:Eh; try done. destruct (env_client_ok env); [|done].
  intros E%Some_inj'%Ok_inj. injection E as <- _. split; [|done]. cbn [relay_hop fresh_relay].
  apply handle_create_hop in Eh as (Hi & Hn & _). unfold hop_ok. rewrite Hi, Hn. apply parse_wf in Ep as [_ _ _ _ _ _ [Hp Hpb]]; [|done..].
  split; [|unfold_ints; lia]. apply (lookup_total_u8 0) in Hpb; [|rewrite Hp; sizes]. unfold is_u8 in Hpb. lia.
Qed.

(** ** Roles *)
Inductive Role := Waiting | Middle | Bridge.

Definition role (s : RelayConn) : Role :=
  if ds_write (downstream s) then if is_currently_exit_hop (downstream s) then Bridge else Middle else Waiting.

(** Each role has its receiver. *)
Definition receivers_ok (s : RelayConn) : Prop :=
  match role s with Waiting => True | Middle => ds_cell_rx (downstream s) = true | Bridge => ds_data_rx (downstream s) = true end.

Definition to_next (e : Effect) : bool := match e with ToNext _ => true | _ => false end.
Definition to_destination (e : Effect) : bool := match e with ToDestination _ | CloseDestination => true | _ => false end.

Definition approved (env : RelayEnv) (e : Effect) : Prop :=
  match e with
  | Contact host port tried =>
      may_reach env host port = true /\
      tried `prefix_of` (resolve_and_connect unicode_lowercase (relay_policy options) host port (env_dns env) (env_connect env)).1
  | _ => True
  end.

Definition starts_session (v : Verdict) : bool := match v with RunSession _ => true | _ => false end.

(** How one round relates to the role: contacts are made while waiting, and
    only then does the role change. *)
Definition round_ok (env : RelayEnv) (s : RelayConn) (st : Step) : Prop :=
  let '(s', effects, v) := st in
  Forall (approved env) effects /\ (receivers_ok s -> receivers_ok s') /\
  (starts_session v = true -> is_exit_allowed options = true /\ role s = Waiting /\ existsb to_next effects = false) /\
  match role s with
  | Waiting => existsb to_destination effects = false /\
      (v = Continue -> role s' = Middle \/ existsb to_next effects = false)
  | Middle => role s' = Middle /\ existsb to_destination effects = false
  | Bridge => role s' = Bridge /\ existsb to_next effects = false
  end.

Lemma round_same env s s' effects v :
  starts_session v = false -> downstream s' = downstream s -> Forall (approved env) effects ->
  match role s with
  | Waiting => existsb to_destination effects = false /\ (v = Continue -> existsb to_next effects = false)
  | Middle => existsb to_destination effects = false
  | Bridge => existsb to_next effects = false
  end -> round_ok env s (s', effects, v).
Proof.
  intros Hv E Ha Hr. unfold round_ok. rewrite Hv. assert (Er : role s' = role s) by (unfold role; by rewrite E). split_and!; [done| |done|].
  - unfold receivers_ok. by rewrite Er, E.
  - rewrite Er. destruct (role s); [|done..]. destruct Hr as [? Hr]. split; [done|]. intros Hc. right. by apply Hr.
Qed.

Ltac same_round Hr := apply round_same; rewrite ?Hr; (done || by repeat split_goal || by repeat constructor || split; done).

Lemma originate_downstream env s command stream payload s' r :
  originate env s command stream payload = (s', r) -> downstream s' = downstream s.
Proof.
  unfold originate. destruct (OnionCell_new _ _ _ _ _ _); [|by intros [= <- _]].
  destruct (wrap_backward_originate _ _) as [[hop wire] []]; by intros [= <- _].
Qed.

Lemma bridge_round env s ev : role s = Bridge -> round_ok env s (relay_step env s ev).
Proof.
  intros Hr. unfold relay_step. pose proof Hr as Hr'. unfold role in Hr'. destruct (ds_write _); [|done].
  destruct (is_currently_exit_hop _); [|done]. clear Hr'.
  destruct (exit_done _).
  { unfold exit_finish. destruct (originate _ _ _ _ _) as [s' r] eqn:Eo. apply originate_downstream in Eo. destruct r; same_round Hr. }
  destruct (negb _); [same_round Hr|]. destruct ev as [cell| |data| | |]; try (same_round Hr).
  - unfold exit_cell, exit_message. destruct cell as [buf|]; [|same_round Hr]. destruct (peel_forward _ _) as [[hop buf'] r].
    repeat split_goal; same_round Hr.
  - unfold exit_data. repeat split_goal; same_round Hr.
  - unfold exit_clock. destruct (_ <=? _); [same_round Hr|]. destruct (exit_choice _) as [x [[command payload]|e]]; [|same_round Hr].
    destruct (originate _ _ _ _ _) as [s' r] eqn:Eo. apply originate_downstream in Eo. destruct r; same_round Hr.
Qed.

Lemma middle_round env s ev : role s = Middle -> round_ok env s (relay_step env s ev).
Proof.
  intros Hr. unfold relay_step. pose proof Hr as Hr'. unfold role in Hr'. destruct (ds_write _); [|done].
  destruct (is_currently_exit_hop _); [done|]. clear Hr'. destruct (negb _); [same_round Hr|].
  destruct ev as [cell|cell| | | |]; try (same_round Hr).
  - unfold middle_cell. destruct (downstream_write_failed_at s); [same_round Hr|]. destruct cell as [buf|]; [|same_round Hr].
    destruct (peel_forward _ _) as [[hop buf'] r]. repeat split_goal; same_round Hr.
  - unfold middle_back. destruct cell as [buf|]; [|same_round Hr]. destruct (negb _); [same_round Hr|].
    destruct (wrap_backward_relay _ _) as [[hop wire] []]; same_round Hr.
  - unfold middle_drain. repeat split_goal; same_round Hr.
Qed.

Lemma extend_create_round env s payload :
  let '(s', effects, _) := extend_create env s payload in
  downstream s' = downstream s /\ Forall (approved env) effects /\ existsb to_destination effects = false.
Proof.
  unfold extend_create. repeat (split_goal; try (split_and!; [done|constructor|done])).
  all: try (by repeat constructor).
  all: match goal with Hr : resolve_and_connect _ _ _ _ _ _ = (_, _), Hm : negb (may_reach _ _ _) = false |- _ =>
    apply negb_false_iff in Hm; cbn; by rewrite Hr end.
Qed.

Lemma waiting_extend env s payload : role s = Waiting -> round_ok env s (setup_extend env s payload).
Proof.
  intros Hr. unfold setup_extend. pose proof (extend_create_round env s payload) as Hc.
  destruct (extend_create env s payload) as [[s0 effects] created]. destruct Hc as (Ed & Ha & Hd).
  assert (Hrefuse : round_ok env s (let '(s1, more) := extend_refuse env s0 in (s1, effects ++ more, Leave))).
  { unfold extend_refuse. destruct (OnionCell_new _ _ _ _ _ _) as [cell|]; [destruct (wrap_backward_originate _ _) as [[hop wire] r]|];
      (apply round_same; [done|done|apply Forall_app; split; [done|by repeat constructor]|rewrite Hr, existsb_app, Hd; done]). }
  destruct created as [wire|]; [|done]. destruct (env_response env) as [resp|]; [|done]. unfold extend_answer.
  assert (Hleave : forall s1 more, downstream s1 = downstream s0 -> Forall (approved env) more -> existsb to_destination more = false ->
    round_ok env s (s1, effects ++ more, Leave)).
  { intros s1 more E Hm Hm'. apply round_same; [done|by rewrite E|by apply Forall_app|]. rewrite Hr, existsb_app, Hd, Hm'. done. }
  destruct (negb _); [apply Hleave; done || constructor|]. destruct (wrap_backward_originate _ _) as [[hop out] [[]|e]];
    [|by apply Hleave; [|constructor|]]. destruct (env_client_ok env); [|apply Hleave; [done|by repeat constructor|done]].
  split_and!; [apply Forall_app; split; [done|by repeat constructor]|done|done|]. rewrite Hr. rewrite existsb_app, Hd. split; [done|]. by left.
Qed.

Lemma waiting_relay env s payload : role s = Waiting -> round_ok env s (setup_relay env s payload).
Proof.
  intros Hr. unfold setup_relay. destruct (decode_relay_target payload) as [[h p]|]; [|same_round Hr].
  destruct (may_reach env h p) eqn:Em; cbn [negb]; [|same_round Hr].
  destruct (resolve_and_connect _ _ _ _ _ _) as [tried connected] eqn:Er.
  assert (Ha : Forall (approved env) [Contact h p tried]) by (constructor; [cbn; by rewrite Er|constructor]).
  destruct connected as [a|]; [|apply round_same; rewrite ?Hr; done]. destruct (OnionCell_new _ _ _ _ _ _) as [cell|]; [|apply round_same; rewrite ?Hr; done].
  destruct (wrap_backward_originate _ _) as [[hop wire] [[]|e]]; [|apply round_same; rewrite ?Hr; done].
  split_and!; [apply Forall_app; split; [done|by repeat constructor]| |done|rewrite Hr; split; [done|by right]].
  unfold receivers_ok. rewrite Hr. intros _. destruct (env_client_ok env); [done|]. change (role (set_hop s hop)) with (role s). by rewrite Hr.
Qed.

Lemma waiting_session env s buf len : role s = Waiting -> round_ok env s (setup_session env s buf len).
Proof.
  intros Hr. unfold setup_session. destruct (is_exit_allowed options) eqn:Ex; [cbn [negb orb]|same_round Hr].
  destruct (_ || _); [same_round Hr|]. destruct (Profile_decode _) as [profile|]; [|same_round Hr].
  destruct (_ && _); [same_round Hr|]. destruct (originate _ _ _ _ _) as [s' r] eqn:Eo. apply originate_downstream in Eo.
  destruct r; [|same_round Hr]. assert (Er : role s' = Waiting) by (unfold role; by rewrite Eo).
  split_and!; [by repeat constructor|unfold receivers_ok; by rewrite Er|done|]. rewrite Hr. split; [done|by right].
Qed.

Lemma waiting_round env s ev : role s = Waiting -> round_ok env s (relay_step env s ev).
Proof.
  intros Hr. unfold relay_step. pose proof Hr as Hr'. unfold role in Hr'. destruct (ds_write _); [by destruct (is_currently_exit_hop _)|]. clear Hr'.
  destruct ev as [cell| | | | |]; try (same_round Hr). unfold setup_cell. destruct cell as [buf|]; [|same_round Hr].
  destruct (peel_forward (relay_hop s) buf) as [[hop buf'] r] eqn:Ep. change (role s) with (role (set_hop s hop)) in Hr.
  assert (Hs : forall st, round_ok env (set_hop s hop) st -> round_ok env s st) by (by intros [[]]).
  apply Hs. destruct r as [[[] len|]|]; try (same_round Hr); [by apply waiting_relay|by apply waiting_extend|].
  by apply waiting_session.
Qed.

Lemma relay_round env s ev : round_ok env s (relay_step env s ev).
Proof. destruct (role s) eqn:Hr; [by apply waiting_round|by apply middle_round|by apply bridge_round]. Qed.

(** Once a relay has a role, it keeps it, and a session only starts at an exit
    that has none. *)
Lemma run_roles s evs :
  let '(s', trace, v) := relay_run s evs in
  Forall (fun e => Forall (approved e.1) e.2) trace /\ (receivers_ok s -> receivers_ok s') /\
  (existsb to_next (mjoin (snd <$> trace)) = false \/ existsb to_destination (mjoin (snd <$> trace)) = false) /\
  (role s = Middle -> starts_session v = false /\ existsb to_destination (mjoin (snd <$> trace)) = false) /\
  (role s = Bridge -> starts_session v = false /\ existsb to_next (mjoin (snd <$> trace)) = false) /\
  (starts_session v = true -> is_exit_allowed options = true /\ existsb to_next (mjoin (snd <$> trace)) = false).
Proof.
  revert s. induction evs as [|[env ev] evs IH]; intros s; cbn [relay_run]; [by split_and!; auto|].
  pose proof (relay_round env s ev) as Hs. destruct (relay_step env s ev) as [[s1 effects] v]. destruct Hs as (Ha & Hrx & Hss & Hr).
  specialize (IH s1). destruct (relay_run s1 evs) as [[s2 trace] v2]. destruct IH as (IHa & IHrx & IHx & IHm & IHb & IHs).
  assert (Hv : v = Continue \/ v <> Continue) by (destruct v; auto). destruct Hv as [->|Hv].
  - change (mjoin (snd <$> ((env, effects) :: trace))) with (effects ++ mjoin (snd <$> trace)). rewrite !existsb_app. split_and!; [by constructor|auto|..].
    + destruct (role s); [|right; destruct Hr as [Hr1 ->]; by apply IHm|left; destruct Hr as [Hr1 ->]; by apply IHb].
      destruct Hr as [-> Hr2]. destruct (Hr2 eq_refl) as [Hm| ->]; [right; by apply IHm|]. done.
    + intros Hm. rewrite Hm in Hr. destruct Hr as [Hr1 ->]. by apply IHm.
    + intros Hm. rewrite Hm in Hr. destruct Hr as [Hr1 ->]. by apply IHb.
    + intros Hv. destruct (IHs Hv) as [Hx ->]. split; [done|]. destruct (role s).
      * destruct Hr as [_ Hr]. destruct (Hr eq_refl) as [Hm| ->]; [|done]. destruct (IHm Hm) as [E _]. congruence.
      * destruct Hr as [Hm _]. destruct (IHm Hm) as [E _]. congruence.
      * by destruct Hr as [_ ->].
  - assert (E : (match v with Continue => (s2, (env, effects) :: trace, v2) | _ => (s1, [(env, effects)], v) end) = (s1, [(env, effects)], v))
      by (by destruct v). rewrite E. change (mjoin (snd <$> [(env, effects)])) with (effects ++ []). rewrite app_nil_r.
    assert (Hno : role s <> Waiting -> starts_session v = false) by (intros Hne; destruct (starts_session v); [by destruct (Hss eq_refl) as (_ & ? & _)|done]).
    split_and!; [by repeat constructor|auto|..].
    + destruct (role s); destruct Hr as [? ?]; auto.
    + intros Hm. rewrite Hm in *. destruct Hr. split; [by apply Hno|done].
    + intros Hm. rewrite Hm in *. destruct Hr. split; [by apply Hno|done].
    + intros Hm. destruct (Hss Hm) as (? & _ & ?). done.
Qed.

(** What is approved is public and on an allowed port. *)
Lemma approved_public env host port tried :
  allow_private_networks (relay_policy options) = false -> (forall addrs, env_dns env = Some (Some addrs) -> Forall ip_wf addrs) ->
  approved env (Contact host port tried) ->
  (is_exit_allowed options = true \/ is_mesh_target (env_pool env) (env_secs env) host port = true) /\
  Forall (fun a => public_ip a = true) tried /\ (tried <> [] -> port ∉ blocked_ports (relay_policy options)).
Proof.
  intros Hpriv Hdns [Hm Ht]. split; [by apply orb_true_iff in Hm|].
  pose proof (resolve_and_connect_sound unicode_lowercase (relay_policy options) host port (env_dns env) (env_connect env) Hpriv Hdns) as Hr.
  destruct (resolve_and_connect _ _ _ _ _ _) as [all r]. destruct Hr as (Hp & _ & Hne). cbn in Ht. destruct Ht as [rest ->].
  apply Forall_app in Hp as [Hp _]. split; [done|]. intros Hn. destruct Hne as (_ & _ & _ & _ & Hport & _); [|done].
  intros [? _]%app_nil. done.
Qed.
End Laws.
End Relay.

(** ** Witnesses *)
#[local] Existing Instance toy_primitives.
#[local] Existing Instance toy_laws.
#[local] Existing Instance toy_identity.
#[local] Existing Instance toy_identity_laws.
#[local] Existing Instance toy_kex.
#[local] Existing Instance toy_kex_laws.
#[local] Existing Instance toy_link.

Definition toy_relay_options : RelayOptions := mkRelayOptions true Link.Strict ExitPolicy_default.
Definition toy_relay_env : RelayEnv :=
  mkRelayEnv 0 2000 toy_pool (replicate 32 0) true true (Some (Some example_addrs)) (fun _ => ExitPolicy.Connected) true (replicate 32 9)
    (mkTlsServer [] [] 0 (Err eof)) 0 [9] None.

(** The CREATE of a client for the third position, answered. *)
Lemma toy_relay_starts :
  exists initial s created, length initial = ONION_CELL_SIZE /\ is_bytes initial /\
    relay_start toy_relay_env [9] [1] toy_signer initial = Some (Ok (s, created)) /\
    hop_circuit_id (relay_hop s) = 30 /\ hop_index (relay_hop s) = 2 /\ hop_expected_recv_seq (relay_hop s) = 1 /\ hop_next_send_seq (relay_hop s) = 1.
Proof.
  destruct (handshake_agrees 7 2 30 [5] [1] [9] [1] (replicate 32 0) (replicate 32 0) toy_signer 7 1 (replicate 16 0))
    as (create & hop & created & Hb & Hh & _ & Hi1 & _ & Hi2 & Hi3 & Hi4); [unfold_ints; lia|unfold MAX_HOPS; lia|vm_compute; discriminate..|].
  destruct (x25519_public_ok [5]) as [Hp Hpb]. destruct (mlkem_ek_ok [1]) as (He & Heb & _).
  apply build_create_cell_wf in Hb as ([? ? ? ? ? [? ?] ?] & _); [|unfold_ints; lia|lia|done|auto with bytes|done..].
  assert (Hw : cell_wf (stamp create 30 0 (cell_mac create))) by (apply stamp_wf; [by constructor|unfold_ints; lia..|done|done]).
  exists (OnionCell_serialize (stamp create 30 0 (cell_mac create))), (fresh_relay hop 0), (OnionCell_serialize created).
  split; [by apply serialize_length|]. split; [by apply serialize_is_bytes|].
  split; [|by split_and!]. unfold relay_start. rewrite serialize_layout, parse_layout by done. cbn [toy_relay_env env_rng]. rewrite Hh. reflexivity.
Qed.
