(* ===== verification/ExitSession.v ===== *)
(** * The exit's end of a padded session (src/onion/session.rs, [run_exit])

    A relay that accepts SESSION hands its link, its hop and its exit policy to
    the session loop and returns what the loop returns. [SessionConn] holds the
    locals of that loop at an exit: the session, the queue of worker events, the
    crypto state and the connect tasks under way. One step is a pass through
    the loop or a move of a worker; the effects are those of [Relay], so that
    the trace of a connection goes on through the session. *)
From S2P Require Import Prelude Text Net Replay Circuit Cell Flow Identity ExitPolicy Handshake Transport Float LinkCover Link Session Sybil.
From S2P Require Import Consensus Node Pool Relay.

(** ** Data *)
Record SessionConn := mkSessionConn {
  sc_session : SessionState;
  sc_events : list Event;
  sc_crypto : Crypto;
  sc_tasks : gmap Z (bytes * Z);
}.

(** The arms of the select an exit has; [later] and [interval] are what the
    clock arm reads after its write. *)
Inductive Arm :=
| ClockArm (later interval : Z)
| FrameArm (frame : option bytes)
| EventArm
| JoinArm (panicked : bool).

(** [Pass] is a pass through the loop whose head runs at [head]. The other
    steps are those of the tasks: a connect task has made its first [attempts]
    attempts, or it ends. [Expire] is the deadline around the loop. *)
Inductive SessionStep :=
| Pass (head : Z) (arm : Arm)
| Expire
| WriterRuns (id : Z) (failed : option nat)
| ReaderRuns (id : Z) (r : ReadOutcome)
| Connecting (id : Z) (attempts : nat)
| ConnectEnds (id : Z).

Inductive SessionEnd := Goes | Done | Broke (e : SessionError) | Crashed.

Section ExitSession.
Context `{OnionPrimitives} `{IdentityPrimitives} `{KexPrimitives} `{LinkPrimitives}.
Context (unicode_lowercase : bytes -> bytes) (options : RelayOptions).

(** [connect_tasks] after a message the loop goes on from. *)
Definition tasks_after (tasks : gmap Z (bytes * Z)) (s' : SessionState) (m : Message) : gmap Z (bytes * Z) :=
  match m with
  | (SessionOpen, id, data) =>
      match decode_relay_target data with
      | Ok target => if bool_decide (id ∈ ss_connecting s') then <[id := target]> tasks else tasks
      | Err _ => tasks
      end
  | (SessionReset, id, _) => delete id tasks
  | _ => tasks
  end.

Definition frame_tasks (c : SessionConn) (frame : option bytes) (o : Outcome) : gmap Z (bytes * Z) :=
  match frame, o with
  | Some frame, Session.Continue s' =>
      match Crypto_incoming (sc_crypto c) frame with
      | (_, Ok cell) => tasks_after (sc_tasks c) s' (message_of cell)
      | _ => sc_tasks c
      end
  | _, _ => sc_tasks c
  end.

Definition event_tasks (tasks : gmap Z (bytes * Z)) (event : Event) : gmap Z (bytes * Z) :=
  match event with Session.Connected id _ => delete id tasks | _ => tasks end.

Definition settle (c : SessionConn) (effects : list Effect) (o : Outcome) : SessionConn * list Effect * SessionEnd :=
  match o with
  | Session.Continue s => (mkSessionConn s (sc_events c) (sc_crypto c) (sc_tasks c), effects, Goes)
  | Finished => (c, effects, Done)
  | Abort e => (c, effects, Broke e)
  | Panicked => (c, effects, Crashed)
  end.

Definition session_pass (env : RelayEnv) (profile : Profile) (c : SessionConn) (arm : Arm) : SessionConn * list Effect * SessionEnd :=
  let s := sc_session c in
  match arm with
  | ClockArm later interval =>
      let '(crypto, wire, o) := on_clock s (sc_crypto c) profile (env_rng env) (env_now env) later interval (env_client_ok env) in
      settle (mkSessionConn s (sc_events c) crypto (sc_tasks c)) (from_option (fun w => [ToClient w]) [] wire) o
  | FrameArm frame =>
      let '(crypto, o) := on_frame s (sc_crypto c) (env_now env) frame in
      settle (mkSessionConn s (sc_events c) crypto (frame_tasks c frame o)) [] o
  | EventArm =>
      match sc_events c with
      | [] => (c, [], Goes)
      | event :: events =>
          settle (mkSessionConn s events (sc_crypto c) (event_tasks (sc_tasks c) event)) [] (on_event s event)
      end
  | JoinArm panicked => (c, [], if panicked then Broke (Invalid "Session worker panicked") else Goes)
  end.

Definition run_writer (c : SessionConn) (id : Z) (failed : option nat) : option (Stream * bytes * bool * list Event) :=
  stream ← ss_streams (sc_session c) !! id; writer_step id stream failed.
Definition run_reader (c : SessionConn) (id : Z) (r : ReadOutcome) : option (Stream * bytes * list Event) :=
  stream ← ss_streams (sc_session c) !! id; reader_step id stream r.

(** A worker of a stream changed it, or a connect task ended. *)
Definition worker_ran (c : SessionConn) (id : Z) (stream : Stream) (events : list Event) : SessionConn :=
  mkSessionConn (update_stream (sc_session c) id stream) (sc_events c ++ events) (sc_crypto c) (sc_tasks c).

Definition connect_ended (c : SessionConn) (id : Z) (connected : result ConnectError IpAddr) : SessionConn :=
  mkSessionConn (sc_session c) (sc_events c ++ [Session.Connected id (match connected with Ok _ => true | Err _ => false end)])
    (sc_crypto c) (delete id (sc_tasks c)).

Definition session_step (env : RelayEnv) (profile : Profile) (c : SessionConn) (step : SessionStep) : SessionConn * list Effect * SessionEnd :=
  match step with
  | Pass head arm =>
      match loop_head (sc_session c) head with
      | Some e => (c, [], Broke e)
      | None => session_pass env profile c arm
      end
  | Expire => (c, [], Broke (Invalid "Session lifetime expired; no replay"))
  | WriterRuns id failed =>
      match run_writer c id failed with
      | Some (stream, data, shut, events) => (worker_ran c id stream events, ToDestination data :: (if shut then [CloseDestination] else []), Goes)
      | None => (c, [], Goes)
      end
  | ReaderRuns id r =>
      match run_reader c id r with
      | Some (stream, _, events) => (worker_ran c id stream events, [], Goes)
      | None => (c, [], Goes)
      end
  | Connecting id attempts =>
      match sc_tasks c !! id with
      | None => (c, [], Goes)
      | Some (host, port) =>
          let '(tried, _) := resolve_and_connect unicode_lowercase (relay_policy options) host port (env_dns env) (env_connect env) in
          (c, [Contact host port (take attempts tried)], Goes)
      end
  | ConnectEnds id =>
      match sc_tasks c !! id with
      | None => (c, [], Goes)
      | Some (host, port) =>
          let '(tried, connected) := resolve_and_connect unicode_lowercase (relay_policy options) host port (env_dns env) (env_connect env) in
          (connect_ended c id connected, [Contact host port tried], Goes)
      end
  end.

Fixpoint session_run (profile : Profile) (c : SessionConn) (steps : list (RelayEnv * SessionStep))
    : SessionConn * list (RelayEnv * list Effect) * SessionEnd :=
  match steps with
  | [] => (c, [], Goes)
  | (env, step) :: steps =>
      match session_step env profile c step with
      | (c, effects, Goes) => let '(c, trace, r) := session_run profile c steps in (c, (env, effects) :: trace, r)
      | (c, effects, r) => (c, [(env, effects)], r)
      end
  end.

(** [run_exit]: the loop starts at [start] with a first slot after [interval]. *)
Definition run_exit (hop : RelayCircuitHop) (profile : Profile) (start interval : Z) (steps : list (RelayEnv * SessionStep))
    : SessionConn * list (RelayEnv * list Effect) * SessionEnd :=
  session_run profile (mkSessionConn (session_start false true start interval) [] (CryptoExit hop) ∅) steps.

(** A whole connection: the loop of the relay, and the session it hands over
    to when it accepts one. *)
Definition relay_connection (s : RelayConn) (evs : list (RelayEnv * RelayEvent)) (start interval : Z) (steps : list (RelayEnv * SessionStep))
    : RelayConn * list (RelayEnv * list Effect) * Verdict * option SessionEnd :=
  match relay_run unicode_lowercase options s evs with
  | (s, trace, RunSession profile) =>
      let '(_, more, r) := run_exit (relay_hop s) profile start interval steps in (s, trace ++ more, RunSession profile, Some r)
  | (s, trace, v) => (s, trace, v, None)
  end.

(** ** Every step *)
Section Laws.
Context `{!OnionPrimitivesLaws}.

(** The cells of a step are sealed under the next counter. *)
Definition sealed_next (hop hop' : RelayCircuitHop) (effects : list Effect) : Prop :=
  advances hop hop' /\
  (client_wires effects = [] \/
   exists w, client_wires effects = [w] /\ seq_hop (wire_seq w) = hop_index hop /\ seq_counter (wire_seq w) = hop_next_send_seq hop /\
     hop_next_send_seq hop' = hop_next_send_seq hop + 1).

Lemma sealed_quiet hop effects : hop_ok hop -> client_wires effects = [] -> sealed_next hop hop effects.
Proof. intros Hh Hw. split; [by apply keeps_hop_refl|by left]. Qed.

Lemma exit_outgoing hop rng m crypto r :
  hop_ok hop -> length rng = 32%nat -> Crypto_outgoing (CryptoExit hop) rng m = (crypto, r) ->
  exists hop', crypto = CryptoExit hop' /\ sealed_next hop hop' (match r with Ok wire => [ToClient wire] | Err _ => [] end).
Proof.
  intros Hh Hr. destruct m as [[command id] data]. unfold Crypto_outgoing.
  destruct (OnionCell_new _ _ _ _ _ _) as [cell|] eqn:Ec; [|intros [= <- <-]; exists hop; split; [done|by apply sealed_quiet]].
  apply cell_new_serialized in Ec as [_ Hl]; [|done]. destruct (wrap_backward_originate _ _) as [[hop' wire] r0] eqn:Ew.
  apply originate_advances in Ew as [Ha Hw]; [|done..]. destruct r0 as [[]|e]; intros [= <- <-]; exists hop'; (split; [done|]); (split; [done|]).
  - right. exists wire. done.
  - by left.
Qed.

Lemma exit_incoming hop frame crypto r :
  hop_ok hop -> Crypto_incoming (CryptoExit hop) frame = (crypto, r) -> exists n, crypto = CryptoExit (set_expected_recv_seq hop n).
Proof.
  intros Hh. unfold Crypto_incoming. destruct (peel_forward hop frame) as [[hop' raw] p] eqn:Ep. apply peel_same in Ep as [n ->].
  intros E. exists n. guards_in E; done.
Qed.

Lemma clock_sealed s hop profile rng now later interval written crypto wire o :
  hop_ok hop -> length rng = 32%nat -> on_clock s (CryptoExit hop) profile rng now later interval written = (crypto, wire, o) ->
  exists hop', crypto = CryptoExit hop' /\ sealed_next hop hop' (from_option (fun w => [ToClient w]) [] wire).
Proof.
  intros Hh Hr. unfold on_clock. destruct (ask_finish s profile now) as [s1 []].
  2: destruct (select_message s1 now) as [[s2 m]|e]; [|intros [= <- <- <-]; exists hop; split; [done|by apply sealed_quiet]].
  all: destruct (Crypto_outgoing _ _ _) as [crypto' r] eqn:Eo; destruct (exit_outgoing _ _ _ _ _ Hh Hr Eo) as (hop' & -> & Hs);
    destruct r; intros [= <- <- <-]; by exists hop'.
Qed.

Lemma frame_sealed s hop now frame crypto o :
  hop_ok hop -> on_frame s (CryptoExit hop) now frame = (crypto, o) -> exists n, crypto = CryptoExit (set_expected_recv_seq hop n).
Proof.
  intros Hh. assert (Hid : CryptoExit hop = CryptoExit (set_expected_recv_seq hop (hop_expected_recv_seq hop))) by (by destruct hop).
  unfold on_frame. destruct frame as [frame|]; [|intros [= <- _]; eauto]. cbv zeta. destruct (SFltb _ _); [intros [= <- _]; eauto|].
  destruct (Crypto_incoming _ _) as [crypto' r] eqn:Ei. apply exit_incoming in Ei as [n ->]; [|done]. destruct r; intros [= <- _]; eauto.
Qed.

Lemma settle_keeps c effects o : let '(c', effects', _) := settle c effects o in sc_crypto c' = sc_crypto c /\ effects' = effects.
Proof. by destruct o. Qed.

(** Nothing leaves a step but cells for the client, bytes for destinations, and
    the contacts of the connect tasks. *)
Definition confined (env : RelayEnv) (effects : list Effect) : Prop :=
  (is_exit_allowed options = true -> Forall (approved unicode_lowercase options env) effects) /\ existsb to_next effects = false.

Lemma contact_confined env host port tried :
  tried `prefix_of` (resolve_and_connect unicode_lowercase (relay_policy options) host port (env_dns env) (env_connect env)).1 ->
  confined env [Contact host port tried].
Proof. intros Ht. split; [|done]. intros Hx. constructor; [|constructor]. split; [|done]. unfold may_reach. by rewrite Hx. Qed.

Lemma session_step_confined env profile c step : let '(_, effects, _) := session_step env profile c step in confined env effects.
Proof.
  assert (Hnil : confined env []) by (split; [constructor|done]).
  assert (Hset : forall c' effects o, confined env effects -> let '(_, effects', _) := settle c' effects o in confined env effects').
  { intros c' effects o Hc. pose proof (settle_keeps c' effects o) as Hk. destruct (settle c' effects o) as [[? ?] ?]. by destruct Hk as [_ ->]. }
  unfold session_step. destruct step as [head arm| |id failed|id r|id attempts|id]; [|done|..].
  - destruct (loop_head _ _); [done|]. unfold session_pass. destruct arm as [later interval|frame| |panicked]; [| | |done].
    + destruct (on_clock _ _ _ _ _ _ _ _) as [[crypto wire] o]. apply Hset. destruct wire; [|done]. split; [by repeat constructor|done].
    + destruct (on_frame _ _ _ _) as [crypto o]. by apply Hset.
    + destruct (sc_events c); [done|by apply Hset].
  - destruct (run_writer _ _ _) as [[[[stream data] []] events]|]; [..|done]; (split; [|done]); intros _; by rewrite ?Forall_cons, Forall_nil.
  - by destruct (run_reader _ _ _) as [[[stream data] events]|].
  - destruct (sc_tasks c !! id) as [[host port]|]; [|done]. destruct (resolve_and_connect _ _ _ _ _ _) as [tried r] eqn:Er.
    apply contact_confined. rewrite Er. apply prefix_take.
  - destruct (sc_tasks c !! id) as [[host port]|]; [|done]. destruct (resolve_and_connect _ _ _ _ _ _) as [tried r] eqn:Er.
    apply contact_confined. by rewrite Er.
Qed.

Definition step_sealed (hop : RelayCircuitHop) (st : SessionConn * list Effect * SessionEnd) : Prop :=
  let '(c', effects, _) := st in exists hop', sc_crypto c' = CryptoExit hop' /\ sealed_next hop hop' effects.

Lemma quiet_step hop c effects r :
  hop_ok hop -> sc_crypto c = CryptoExit hop -> client_wires effects = [] -> step_sealed hop (c, effects, r).
Proof. intros Hh Hc Hw. exists hop. split; [done|by apply sealed_quiet]. Qed.

Lemma settled_step hop hop' c effects o :
  sc_crypto c = CryptoExit hop' -> sealed_next hop hop' effects -> step_sealed hop (settle c effects o).
Proof.
  intros Hc Hs. pose proof (settle_keeps c effects o) as Hk. destruct (settle c effects o) as [[c' effects'] r]. destruct Hk as [Hk ->].
  exists hop'. by rewrite Hk.
Qed.

Lemma session_step_sealed env profile hop c step :
  env_ok env -> hop_ok hop -> sc_crypto c = CryptoExit hop -> step_sealed hop (session_step env profile c step).
Proof.
  intros [Hr _] Hh Hc. unfold session_step. destruct step as [head arm| |id failed|id r|id attempts|id]; [|by apply quiet_step|..].
  - destruct (loop_head _ _); [by apply quiet_step|]. unfold session_pass. destruct arm as [later interval|frame| |panicked]; [| | |by apply quiet_step].
    + destruct (on_clock _ _ _ _ _ _ _ _) as [[crypto wire] o] eqn:Eo. rewrite Hc in Eo. apply clock_sealed in Eo as (hop' & -> & Hs); [|done..].
      by apply (settled_step hop hop').
    + destruct (on_frame _ _ _ _) as [crypto o] eqn:Eo. rewrite Hc in Eo. apply frame_sealed in Eo as [n ->]; [|done].
      apply (settled_step hop (set_expected_recv_seq hop n)); [done|]. split; [|by left]. by apply keeps_hop_refl in Hh.
    + destruct (sc_events c) as [|event events]; [by apply quiet_step|]. apply (settled_step hop hop); [done|by apply sealed_quiet].
  - destruct (run_writer _ _ _) as [[[[stream data] []] events]|]; by apply quiet_step.
  - destruct (run_reader _ _ _) as [[[stream data] events]|]; by apply quiet_step.
  - destruct (sc_tasks c !! id) as [[host port]|]; [|by apply quiet_step]. destruct (resolve_and_connect _ _ _ _ _ _). by apply quiet_step.
  - destruct (sc_tasks c !! id) as [[host port]|]; [|by apply quiet_step]. destruct (resolve_and_connect _ _ _ _ _ _). by apply quiet_step.
Qed.

(** The numbers of the cells of a session follow the counter of the hop. *)
Lemma session_seqs profile hop c steps :
  hop_ok hop -> sc_crypto c = CryptoExit hop -> Forall (fun e => env_ok e.1) steps ->
  let seqs := own_seqs (hop_index hop) (session_run profile c steps).1.2 in
  NoDup seqs /\ Forall (fun seq => hop_next_send_seq hop <= seq_counter seq) seqs.
Proof.
  intros Hh Hc Hs. revert hop c Hh Hc. induction Hs as [|[env step] steps He _ IH]; intros hop c Hh Hc; cbn [session_run fst snd] in *; [split; constructor|].
  pose proof (session_step_sealed env profile hop c step He Hh Hc) as Hst. destruct (session_step env profile c step) as [[c1 effects] r].
  destruct Hst as (hop1 & Hc1 & Ha & Hl). destruct (IH hop1 c1 (keeps_hop_ok _ _ Hh Ha) Hc1) as [IHn IHf].
  destruct Ha as (Hi & _ & _ & Hle). rewrite Hi in IHn, IHf. destruct (session_run profile c1 steps) as [[c2 trace] r2]. cbn [fst snd] in IHn, IHf.
  set (index := hop_index hop) in *.
  assert (Htail : exists tail, own_seqs index (match r with Goes => (c2, (env, effects) :: trace, r2) | _ => (c1, [(env, effects)], r) end).1.2
      = filter (fun seq => seq_hop seq = index) (wire_seq <$> client_wires effects) ++ tail /\ NoDup tail /\
      Forall (fun seq => hop_next_send_seq hop1 <= seq_counter seq) tail).
  { destruct r; cbn [fst snd]; rewrite own_seqs_cons; eexists; (split; [reflexivity|]); (split; [done || constructor|done || constructor]). }
  destruct Htail as (tail & -> & Hn & Hf). destruct Hl as [->|(w & -> & Hw & Hcnt & Hnext)]; cbn.
  - split; [done|]. eapply Forall_impl; [exact Hf|]. cbn. lia.
  - rewrite decide_True by done. split; constructor; [|done|lia|eapply Forall_impl; [exact Hf|]; cbn; lia].
    intros Hin. rewrite Forall_forall in Hf. specialize (Hf _ Hin). cbn in Hf. lia.
Qed.

Lemma session_confined profile c steps :
  is_exit_allowed options = true ->
  let trace := (session_run profile c steps).1.2 in
  Forall (fun e => Forall (approved unicode_lowercase options e.1) e.2) trace /\ existsb to_next (mjoin (snd <$> trace)) = false.
Proof.
  intros Hx. revert c. induction steps as [|[env step] steps IH]; intros c; cbn [session_run]; [by split; [constructor|]|].
  pose proof (session_step_confined env profile c step) as Hst. destruct (session_step env profile c step) as [[c1 effects] r].
  destruct Hst as [Happ Hn]. destruct (IH c1) as [IHa IHn]. destruct (session_run profile c1 steps) as [[c2 trace] r2]. cbn [fst snd] in IHa, IHn.
  specialize (Happ Hx). assert (E1 : existsb to_next (mjoin (snd <$> [(env, effects)])) = false) by (cbn; by rewrite app_nil_r).
  destruct r; cbn [fst snd]; try (by split; [repeat constructor|]).
  split; [by constructor|]. change (mjoin (snd <$> ((env, effects) :: trace))) with (effects ++ mjoin (snd <$> trace)). by rewrite existsb_app, Hn, IHn.
Qed.

Lemma own_seqs_app index t1 t2 : own_seqs index (t1 ++ t2) = own_seqs index t1 ++ own_seqs index t2.
Proof. induction t1 as [|[env effects] t1 IH]; [done|]. rewrite <- app_comm_cons, !own_seqs_cons, IH. by rewrite app_assoc. Qed.

(** ** Properties *)

(** C7: a relay is confined to its part. Whatever cells arrive, whatever the
    directory, the resolver and the network answer and however the rounds
    interleave, from the CREATE that starts the connection to its end, through
    the padded session it may hand over to: a relay that does not allow private
    networks contacts a host only if it is an exit or the directory lists that
    very endpoint at that moment, and then tries only public addresses on a
    port that is not blocked; a session only runs at an exit; no connection
    ever hands cells to a next relay and bytes to a destination both, so an
    intermediate relay never turns into an exit; and the receiver of its role
    is always there. *)
Theorem relay_confined (env0 : RelayEnv) (relay_secret kem_rng initial : bytes) (identity : HybridSigningKey)
    (s s' : RelayConn) (created : bytes) (evs : list (RelayEnv * RelayEvent)) (start interval : Z) (steps : list (RelayEnv * SessionStep))
    trace v ended :
  length initial = ONION_CELL_SIZE -> is_bytes initial ->
  relay_start env0 relay_secret kem_rng identity initial = Some (Ok (s, created)) ->
  relay_connection s evs start interval steps = (s', trace, v, ended) ->
  allow_private_networks (relay_policy options) = false ->
  (forall env effects addrs, (env, effects) ∈ trace -> env_dns env = Some (Some addrs) -> Forall ip_wf addrs) ->
  (forall env effects host port tried, (env, effects) ∈ trace -> Contact host port tried ∈ effects ->
     (is_exit_allowed options = true \/ is_mesh_target (env_pool env) (env_secs env) host port = true) /\
     Forall (fun a => public_ip a = true) tried /\ (tried <> [] -> port ∉ blocked_ports (relay_policy options))) /\
  (is_Some ended -> is_exit_allowed options = true) /\
  (existsb to_next (mjoin (snd <$> trace)) = false \/ existsb to_destination (mjoin (snd <$> trace)) = false) /\ receivers_ok s'.
Proof.
  intros Hl Hb Hs Hrun Hpriv Hdns. destruct (relay_start_ok _ _ _ _ _ _ _ Hl Hb Hs) as [_ Hf]. unfold relay_connection in Hrun.
  pose proof (run_roles unicode_lowercase options s evs) as Hroles. destruct (relay_run _ _ s evs) as [[s1 trace1] v1].
  destruct Hroles as (Ha & Hrx & Hx & _ & _ & Hss). specialize (Hrx ltac:(by rewrite Hf)).
  assert (Hall : Forall (fun e => Forall (approved unicode_lowercase options e.1) e.2) trace /\ (is_Some ended -> is_exit_allowed options = true) /\
      (existsb to_next (mjoin (snd <$> trace)) = false \/ existsb to_destination (mjoin (snd <$> trace)) = false) /\ s1 = s').
  { destruct v1 as [| | |profile]; [injection Hrun as <- <- <- <-; by split_and!; [|intros []| |]..|].
    destruct (Hss eq_refl) as [He Hn]. unfold run_exit in Hrun.
    pose proof (session_confined profile (mkSessionConn (session_start false true start interval) [] (CryptoExit (relay_hop s1)) ∅) steps He) as [Hc Hn2].
    destruct (session_run _ _ _) as [[c more] r]. injection Hrun as <- <- <- <-. split_and!; [by apply Forall_app|done| |done].
    left. rewrite fmap_app, join_app, existsb_app, Hn. done. }
  destruct Hall as (Hap & He & Hd & <-). split_and!; [|done..].
  intros env effects host port tried Hin Hc. rewrite Forall_forall in Hap. specialize (Hap _ Hin). cbn in Hap. rewrite Forall_forall in Hap.
  eapply approved_public; [done| |by apply Hap]. intros addrs. by eapply Hdns.
Qed.

(** C8: a relay never seals two cells under one nonce. Over a whole connection,
    the padded session it may end in included, in whatever role and whatever
    arrives, the cells a relay hands to its client side that claim its own
    position all carry different sequence numbers, and so different nonces:
    originated cells take consecutive counters, the session goes on from the
    counter the relay's loop left, and a cell from downstream that claims this
    relay's position is never passed on. *)
Theorem relay_nonces_fresh (env0 : RelayEnv) (relay_secret kem_rng initial : bytes) (identity : HybridSigningKey)
    (s s' : RelayConn) (created : bytes) (evs : list (RelayEnv * RelayEvent)) (start interval : Z) (steps : list (RelayEnv * SessionStep))
    trace v ended :
  length initial = ONION_CELL_SIZE -> is_bytes initial -> events_ok evs -> Forall (fun e => env_ok e.1) steps ->
  relay_start env0 relay_secret kem_rng identity initial = Some (Ok (s, created)) ->
  relay_connection s evs start interval steps = (s', trace, v, ended) ->
  NoDup (own_seqs (hop_index (relay_hop s)) trace).
Proof.
  intros Hl Hb Hevs Hsteps Hs Hrun. destruct (relay_start_ok _ _ _ _ _ _ _ Hl Hb Hs) as [Hh _]. unfold relay_connection in Hrun.
  pose proof (run_seqs unicode_lowercase options s evs Hh Hevs) as Hseqs. destruct (relay_run _ _ s evs) as [[s1 trace1] v1].
  destruct Hseqs as (Ha & Hn & Hf). destruct v1 as [| | |profile]; [by injection Hrun as <- <- <- <-..|]. unfold run_exit in Hrun.
  pose proof (keeps_hop_ok _ _ Hh Ha) as Hh1. destruct Ha as (Hi & _).
  pose proof (session_seqs profile (relay_hop s1) (mkSessionConn (session_start false true start interval) [] (CryptoExit (relay_hop s1)) ∅) steps
    Hh1 eq_refl Hsteps) as [Hn2 Hf2].
  destruct (session_run _ _ _) as [[c more] r]. injection Hrun as <- <- <- <-. cbn [fst snd] in Hn2, Hf2. rewrite Hi in *. rewrite own_seqs_app.
  apply NoDup_app. split_and!; [done| |done]. intros seq H1in H2in. rewrite Forall_forall in Hf, Hf2.
  destruct (Hf _ H1in) as [_ ?]. specialize (Hf2 _ H2in). cbn in Hf2. lia.
Qed.
End Laws.
End ExitSession.

(** ** A session that runs *)
Section Frames.
Context `{OnionPrimitivesLaws}.

(** What a client seals for the last hop under the next sequence number. *)
Lemma addressed_frame hop rng command id data :
  let seq := hop_expected_recv_seq hop in
  is_u32 (hop_circuit_id hop) -> 0 <= seq < u32_MAX -> sendable (rng, (command, id, data)) ->
  exists wire raw cell, length wire = ONION_CELL_SIZE /\
    peel_forward hop wire = (set_expected_recv_seq hop (seq + 1), raw, Ok (AddressedToThisRelay command (Z.of_nat (length data)))) /\
    OnionCell_parse raw = Ok cell /\ message_of cell = (command, id, data) /\
    slice 9 11 raw = be_bytes 2 id /\ payload_of raw (Z.of_nat (length data)) = data.
Proof.
  intros seq Hid Hseq (Hr & Hrb & Hi & Hd & Hlen).
  destruct (OnionCell_new rng (hop_circuit_id hop) 0 command id data) as [cell|] eqn:En; [|by rewrite OnionCell_new_ok in En].
  assert (Hwf : cell_wf cell) by (eapply OnionCell_new_wf; [exact Hr|done|done| |done|exact Hd|exact En]; unfold_ints; lia).
  rewrite OnionCell_new_ok in En by done. apply Ok_inj in En. subst cell. set (cell := {| cell_circuit_id := _ |}) in *.
  destruct (seal_forward (hop_crypt hop) (build_nonce 1 0 seq) (be_bytes 4 seq) (cell_text cell)) as [ct tag] eqn:Hseal.
  pose proof (peel_forward_addressed hop cell seq ct tag Hwf Hid Hseq ltac:(unfold MAX_SEQ_GAP; lia) Hseal) as Hp.
  unfold seal_forward in Hseal. destruct (seal_length _ _ _ _ _ _ Hseal) as [Hct Htag].
  destruct (seal_bytes _ _ _ _ _ _ Hseal (cell_text_bytes _ Hwf)) as [_ Htb]. rewrite cell_text_length in Hct by done.
  assert (Hs : cell_wf (stamp cell (hop_circuit_id hop) seq tag)) by (apply stamp_wf; (done || unfold_ints; lia)).
  exists (header8 (hop_circuit_id hop) seq ++ ct ++ tag), (header8 (hop_circuit_id hop) seq ++ cell_text cell ++ tag), (stamp cell (hop_circuit_id hop) seq tag).
  rewrite <- stamp_layout in *. rewrite parse_layout by done.
  assert (Hparse : OnionCell_parse (cell_layout (stamp cell (hop_circuit_id hop) seq tag)) = Ok (stamp cell (hop_circuit_id hop) seq tag)) by (by apply parse_layout).
  split; [rewrite !length_app, Hct, Htag; reflexivity|]. split; [exact Hp|]. split; [done|].
  assert (Htake : take (length data) (cell_payload (stamp cell (hop_circuit_id hop) seq tag)) = data).
  { cbn [stamp cell_payload]. unfold cell. cell_fields. by rewrite take_app_length. }
  split; [|split].
  - unfold message_of. cbn [stamp cell_command cell_stream_id cell_length cell]. rewrite Nat2Z.id. by rewrite Htake.
  - unfold cell_layout. destruct Hs as [? ? ? ? [? ?] [? ?] [? ?]].
    destruct (parse_pieces (be_bytes 4 (hop_circuit_id hop)) (be_bytes 4 seq) (be_bytes 2 id) (be_bytes 2 (Z.of_nat (length data)))
      rng (cell_payload cell) tag (command_as_u8 command)) as (_ & _ & _ & E & _); rewrite ?be_bytes_length; try done.
  - rewrite (payload_of_parse _ _ _ Hparse) by lia. by rewrite Nat2Z.id.
Qed.
End Frames.

(** ** Witnesses *)
#[local] Existing Instance toy_primitives.
#[local] Existing Instance toy_laws.
#[local] Existing Instance toy_identity.
#[local] Existing Instance toy_identity_laws.
#[local] Existing Instance toy_kex.
#[local] Existing Instance toy_kex_laws.
#[local] Existing Instance toy_link.

Lemma toy_originates hop rng id command stream data n :
  hop_index hop = 2 -> hop_next_send_seq hop = n -> 1 <= n <= 2 -> length rng = 32%nat -> (length data <= PAYLOAD_SIZE)%nat ->
  exists cell wire, OnionCell_new rng id 0 command stream data = Ok cell /\
    wrap_backward_originate hop (OnionCell_serialize cell) = (set_next_send_seq hop (n + 1), wire, Ok tt) /\ seq_hop (wire_seq wire) = 2.
Proof.
  intros Hi Hn Hle Hr Hd. assert (Hc : n = 1 \/ n = 2) by lia.
  destruct (OnionCell_new rng id 0 command stream data) as [cell|] eqn:Ec; [|by rewrite OnionCell_new_ok in Ec].
  apply cell_new_serialized in Ec as [_ Hl]; [|done]. exists cell.
  assert (E1 : checked_add u32_MAX n 1 = Some (n + 1)) by (by destruct Hc as [-> | ->]).
  assert (E2 : exists seq, pack_backward_seq 2 n = Ok seq) by (destruct Hc as [-> | ->]; eexists; reflexivity). destruct E2 as [seq E2].
  assert (Hw : exists wire, wrap_backward_originate hop (OnionCell_serialize cell) = (set_next_send_seq hop (n + 1), wire, Ok tt)).
  { unfold wrap_backward_originate. rewrite Hn, E1. cbn [set_next_send_seq hop_index]. rewrite Hi, E2. cbv zeta.
    destruct (seal_backward _ _ _ _) as [ct tag]. eexists. reflexivity. }
  destruct Hw as [wire Hw]. exists wire. split; [done|]. split; [done|]. rewrite <- Hi.
  eapply originate_advances in Hw as [_ [? _]]; [done| |done]. split; [lia|rewrite Hn; unfold_ints; lia].
Qed.

(** The exit of a toy circuit accepts a session, is asked for a stream, contacts
    the destination, and answers in the next slot. *)
Definition toy_steps (open : bytes) : list (RelayEnv * SessionStep) :=
  [(toy_relay_env, Pass 0 (FrameArm (Some open))); (toy_relay_env, ConnectEnds 1); (toy_relay_env, Pass 0 EventArm);
   (toy_relay_env, Pass 0 (ClockArm 1 40000000))].

Definition toy_target : bytes := 3 :: str "foo" ++ [0; 80].

Lemma toy_accepts s :
  s = fresh_relay (relay_hop s) 0 -> hop_circuit_id (relay_hop s) = 30 -> hop_index (relay_hop s) = 2 ->
  hop_expected_recv_seq (relay_hop s) = 1 -> hop_next_send_seq (relay_hop s) = 1 ->
  exists wire w s', length wire = ONION_CELL_SIZE /\ seq_hop (wire_seq w) = 2 /\
    relay_run (fun l => l) toy_relay_options s [(toy_relay_env, FromClient (Some wire))] = (s', [(toy_relay_env, [ToClient w])], RunSession Balanced) /\
    hop_circuit_id (relay_hop s') = 30 /\ hop_index (relay_hop s') = 2 /\ hop_expected_recv_seq (relay_hop s') = 2 /\ hop_next_send_seq (relay_hop s') = 2.
Proof.
  intros Hs Hid Hi He Hn.
  destruct (addressed_frame (relay_hop s) (replicate 32 7) Session 0 (Profile_encode Balanced)) as (wire & raw & cell & Hl & Hp & _ & _ & Hsl & Hpay).
  { rewrite Hid. unfold_ints. lia. }
  { rewrite He. unfold_ints. lia. }
  { refine (conj eq_refl (conj _ (conj _ (conj _ _)))); [by apply (bool_decide_unpack _)|unfold_ints; lia|by apply (bool_decide_unpack _)|cbn; sizes]. }
  exists wire. cbn [relay_run]. unfold relay_step. replace (downstream s) with (mkDownstream false false false false) by (by rewrite Hs). cbn [ds_write].
  unfold setup_cell. rewrite Hp. unfold setup_session. cbn [set_hop relay_hop hop_index set_expected_recv_seq]. rewrite Hi, Hsl, Hpay.
  change (bool_decide (be_bytes 2 0 = [0; 0])) with true. cbn [toy_relay_options is_exit_allowed negb orb Profile_encode Profile_decode cover_profile].
  change (2 <? 2) with false. cbn [orb]. change (bool_decide (Link.Strict = Link.Economy)) with false. cbn [andb].
  unfold originate. match goal with |- context [OnionCell_new ?r ?i 0 ?c ?st ?d] =>
    destruct (toy_originates (set_expected_recv_seq (relay_hop s) (hop_expected_recv_seq (relay_hop s) + 1)) r i c st d 1 Hi Hn)
      as (answer & w & Ec & Hw & Hq); [lia|done|cbn; sizes|] end.
  rewrite Ec. cbn [set_hop relay_hop]. rewrite Hw. exists w. eexists. split; [exact Hl|]. split; [exact Hq|]. split; [reflexivity|]. cbn. by rewrite Hid, Hi, He.
Qed.

Definition toy_opened (hop : RelayCircuitHop) : SessionConn :=
  mkSessionConn (with_activity (with_streams (with_activity (with_budget (session_start false true 0 40000000) (f64_sub (f64_of 512) (f64_of 1)) 0) 1 0)
    ∅ {[1]} ∅ []) 1 0) [] (CryptoExit hop) {[1 := (str "foo", 80)]}.

Lemma toy_asks hop :
  hop_circuit_id hop = 30 -> hop_expected_recv_seq hop = 2 ->
  exists open, length open = ONION_CELL_SIZE /\
    session_step (fun l => l) toy_relay_options toy_relay_env Balanced (mkSessionConn (session_start false true 0 40000000) [] (CryptoExit hop) ∅)
      (Pass 0 (FrameArm (Some open))) = (toy_opened (set_expected_recv_seq hop 3), [], Goes).
Proof.
  intros Hid He.
  destruct (addressed_frame hop (replicate 32 7) SessionOpen 1 toy_target) as (open & raw & cell & Hl & Hp & Hparse & Hm & _ & _).
  { rewrite Hid. unfold_ints. lia. }
  { rewrite He. unfold_ints. lia. }
  { refine (conj eq_refl (conj _ (conj _ (conj _ _)))); [by apply (bool_decide_unpack _)|unfold_ints; lia|by apply (bool_decide_unpack _)|]. change (length toy_target) with 6%nat. assert (100 <= PAYLOAD_SIZE)%nat by (apply Nat.leb_le; vm_compute; done). lia. }
  exists open. split; [exact Hl|]. cbn [session_step sc_session]. change (loop_head _ 0) with (@None SessionError). cbv iota.
  unfold session_pass, frame_tasks, on_frame. cbn [sc_session sc_crypto sc_events sc_tasks].
  change (SFltb _ _) with false. cbv iota zeta. unfold Crypto_incoming. rewrite Hp, Hparse, Hm, He. cbv iota.
  change (env_now toy_relay_env) with 0. match goal with |- context [on_message ?s 0 ?m] => assert (Ho : on_message s 0 m = Session.Continue (sc_session (toy_opened hop))) by (vm_compute; reflexivity) end.
  rewrite Ho. vm_compute. reflexivity.
Qed.

Definition toy_contact : Effect := Contact (str "foo") 80 (take 1 example_addrs).

(** The next slot of a session tells the client that its stream is open. *)
Definition slot_opens (s : SessionState) : bool :=
  match loop_head s 0, ask_finish s Balanced 0 with
  | None, (s, false) =>
      match select_message s 0 with
      | Ok (s, m) => bool_decide (m = (SessionOpened, 1, [])) && match after_write s 1 40000000 with Session.Continue _ => true | _ => false end
      | Err _ => false
      end
  | _, _ => false
  end.

Lemma toy_serves hop :
  hop_index hop = 2 -> hop_next_send_seq hop = 2 ->
  exists w c, seq_hop (wire_seq w) = 2 /\ session_run (fun l => l) toy_relay_options Balanced (toy_opened hop) (tail (toy_steps [])) =
    (c, [(toy_relay_env, [toy_contact]); (toy_relay_env, []); (toy_relay_env, [ToClient w])], Goes).
Proof.
  intros Hi Hn. unfold toy_steps. cbn [tail session_run].
  assert (E1 : exists s ev, session_step (fun l => l) toy_relay_options toy_relay_env Balanced (toy_opened hop) (ConnectEnds 1)
    = (mkSessionConn s [ev] (CryptoExit hop) ∅, [toy_contact], Goes) /\ s = sc_session (toy_opened hop) /\ ev = Session.Connected 1 true)
    by (do 2 eexists; split; [vm_compute; reflexivity|split; reflexivity]).
  destruct E1 as (s1 & ev & -> & -> & ->).
  cbn [session_step sc_session session_pass sc_events]. change (loop_head (sc_session (toy_opened hop)) 0) with (@None SessionError). cbv iota.
  assert (Hev : match on_event (sc_session (toy_opened hop)) (Session.Connected 1 true) with Session.Continue s => slot_opens s | _ => false end = true)
    by (vm_compute; reflexivity).
  destruct (on_event (sc_session (toy_opened hop)) (Session.Connected 1 true)) as [s2| | |]; try done.
  cbn [settle sc_session sc_crypto sc_events sc_tasks event_tasks]. unfold slot_opens in Hev. destruct (loop_head s2 0); [done|]. unfold on_clock.
  change (env_now toy_relay_env) with 0. destruct (ask_finish s2 Balanced 0) as [s5 []]; [done|].
  destruct (select_message s5 0) as [[s3 m]|]; [|done]. apply andb_true_iff in Hev as [->%bool_decide_eq_true Haw]. cbv iota.
  unfold Crypto_outgoing. match goal with |- context [OnionCell_new ?r ?i 0 ?c ?st ?d] =>
    destruct (toy_originates hop r i c st d 2 Hi Hn) as (answer & w & Ec & Hw & Hq); [lia|done|cbn; sizes|] end. rewrite Ec, Hw.
  change (env_client_ok toy_relay_env) with true. cbv iota. destruct (after_write s3 1 40000000); try done. exists w. eexists. split; [exact Hq|reflexivity].
Qed.

(** The connection as a whole. *)
Lemma toy_session_connection :
  exists initial s created wire open w1 w2 s' trace,
    length initial = ONION_CELL_SIZE /\ is_bytes initial /\ length wire = ONION_CELL_SIZE /\ hop_index (relay_hop s) = 2 /\
    seq_hop (wire_seq w1) = 2 /\ seq_hop (wire_seq w2) = 2 /\
    relay_start toy_relay_env [9] [1] toy_signer initial = Some (Ok (s, created)) /\
    relay_connection (fun l => l) toy_relay_options s [(toy_relay_env, FromClient (Some wire))] 0 40000000 (toy_steps open)
      = (s', trace, RunSession Balanced, Some Goes) /\
    trace = (fun effects => (toy_relay_env, effects)) <$> [[ToClient w1]; []; [toy_contact]; []; [ToClient w2]].
Proof.
  destruct toy_relay_starts as (initial & s & created & Hl & Hb & Hs & Hid & Hi & He & Hn).
  destruct (relay_start_ok _ _ _ _ _ _ _ Hl Hb Hs) as [_ Hf].
  destruct (toy_accepts s Hf Hid Hi He Hn) as (wire & w1 & s' & Hwl & Hq1 & Hrun & Hid' & Hi' & He' & Hn').
  destruct (toy_asks (relay_hop s') Hid' He') as (open & _ & Hopen).
  destruct (toy_serves (set_expected_recv_seq (relay_hop s') 3) Hi' Hn') as (w2 & c & Hq2 & Hserve).
  exists initial, s, created, wire, open, w1, w2, s'. eexists. split_and!; [done..| |reflexivity].
  unfold relay_connection. rewrite Hrun. unfold run_exit, toy_steps. cbn [session_run]. rewrite Hopen.
  change (tail (toy_steps [])) with (tail (toy_steps open)) in Hserve. unfold toy_steps in Hserve. cbn [tail] in Hserve.
  cbn [session_run] in Hserve. rewrite Hserve. reflexivity.
Qed.

Lemma relay_confined_witness :
  exists initial s s' created wire open trace,
    relay_start toy_relay_env [9] [1] toy_signer initial = Some (Ok (s, created)) /\
    relay_connection (fun l => l) toy_relay_options s [(toy_relay_env, FromClient (Some wire))] 0 40000000 (toy_steps open)
      = (s', trace, RunSession Balanced, Some Goes) /\
    (toy_relay_env, [toy_contact]) ∈ trace /\ Forall (fun a => public_ip a = true) (take 1 example_addrs) /\ is_exit_allowed toy_relay_options = true.
Proof.
  destruct toy_session_connection as (initial & s & created & wire & open & w1 & w2 & s' & trace & Hl & Hb & _ & _ & _ & _ & Hs & Hrun & Ht).
  exists initial, s, s', created, wire, open, trace. split; [exact Hs|]. split; [exact Hrun|].
  assert (Hin : (toy_relay_env, [toy_contact]) ∈ trace) by (rewrite Ht; do 2 apply list_elem_of_further; apply list_elem_of_here).
  destruct (relay_confined (fun l => l) toy_relay_options toy_relay_env [9] [1] initial toy_signer s s' created _ 0 40000000 _ trace _ _ Hl Hb Hs Hrun)
    as (Hc & He & _); [reflexivity| |].
  - intros env effects addrs Hin' Hd. assert (Henv : env = toy_relay_env) by (rewrite Ht in Hin'; apply list_elem_of_fmap in Hin' as (? & [= -> _] & _); done).
    subst env. injection Hd as <-. repeat constructor; cbn; unfold_ints; lia.
  - split; [exact Hin|]. destruct (Hc _ _ _ _ _ Hin (list_elem_of_here _ _)) as (_ & Hp & _). split; [exact Hp|]. apply He. by eexists.
Defined.

Lemma relay_nonces_fresh_witness :
  exists initial s s' created wire open trace,
    relay_start toy_relay_env [9] [1] toy_signer initial = Some (Ok (s, created)) /\
    relay_connection (fun l => l) toy_relay_options s [(toy_relay_env, FromClient (Some wire))] 0 40000000 (toy_steps open)
      = (s', trace, RunSession Balanced, Some Goes) /\
    length (own_seqs (hop_index (relay_hop s)) trace) = 2%nat /\ NoDup (own_seqs (hop_index (relay_hop s)) trace).
Proof.
  destruct toy_session_connection as (initial & s & created & wire & open & w1 & w2 & s' & trace & Hl & Hb & Hw & Hi & Hq1 & Hq2 & Hs & Hrun & Ht).
  exists initial, s, s', created, wire, open, trace. split; [exact Hs|]. split; [exact Hrun|].
  split; [rewrite Hi, Ht; cbn; rewrite !decide_True by done; done|].
  assert (He : env_ok toy_relay_env) by (split; [reflexivity|discriminate]).
  apply (relay_nonces_fresh (fun l => l) toy_relay_options toy_relay_env [9] [1] initial toy_signer s s' created
    [(toy_relay_env, FromClient (Some wire))] 0 40000000 (toy_steps open) trace (RunSession Balanced) (Some Goes) Hl Hb); [| |exact Hs|exact Hrun].
  - apply Forall_cons_2; [exact (conj He Hw)|]. apply Forall_nil. exact I.
  - repeat (apply Forall_cons_2; [exact He|]). apply Forall_nil. exact I.
Defined.
