(* ===== verification/Telescope.v ===== *)
(** * Building circuits (src/gateway/server.rs, the client side)

    [negotiate_telescopic_hops] extends a circuit hop by hop over one link,
    [build_telescopic_circuit] then asks the exit to connect and
    [negotiate_padded_session] asks it for a padded session. The programs are
    written over the link in the state and error monad of [Transport]; the
    secrets of each hop are arguments, an error keeps its fixed text, and a
    deadline that passes counts as the failure of the read it interrupts. *)
From S2P Require Import Prelude Text Net Replay Circuit Cell Flow Identity Handshake Transport Session Node.

(** The client's draws for one hop: its X25519 secret, its ML-KEM key and the
    filling of the cell. *)
Record HopDraw := mkHopDraw { hd_secret : bytes; hd_dk : bytes; hd_rng : bytes }.

Definition told (m : string) : IoError := mkIoError OtherError m.

Section Telescope.
Context `{OnionPrimitives} `{IdentityPrimitives} `{KexPrimitives}.

Definition or_fail {S E A} (m : string) (r : result E A) : M S A := match r with Ok a => ret a | Err _ => fail (told m) end.

Definition add_keys (circuit : OnionCircuit) (keys : HopKeys) (m : string) : M Conn OnionCircuit :=
  let '(circuit, r) := add_hop circuit keys in
  let* _ := or_fail m r in ret circuit.

Definition first_hop (circuit_id : Z) (pin : option bytes) (draw : HopDraw) : M Conn OnionCircuit :=
  let circuit := OnionCircuit_new circuit_id in
  let client_pub := x25519_public (hd_secret draw) in
  let client_mlkem_ek := mlkem_ek (hd_dk draw) in
  let* create_cell := or_fail "Failed to build CREATE cell" (build_create_cell (hd_rng draw) circuit_id client_pub client_mlkem_ek 0) in
  let* _ := write_all (OnionCell_serialize create_cell) in
  let* created_buf := read_exact ONION_CELL_SIZE in
  let* created_cell := or_fail "Failed to parse CREATED cell" (OnionCell_parse created_buf) in
  let* pinned_key := some_or pin (told "No pinned identity key for Hop 0 — refusing unauthenticated handshake") in
  let* keys := or_fail "Hop 0 identity-bound handshake failed"
    (process_created_cell created_cell (hd_secret draw) client_pub (hd_dk draw) client_mlkem_ek pinned_key circuit_id 0) in
  add_keys circuit keys "Failed to add hop 0".

(** [wrap_forward(..)?] and [write_all], then [read_exact] and
    [unwrap_backward(..)?]. *)
Definition send_cell (circuit : OnionCircuit) (cell : OnionCell) (m : string) : M Conn OnionCircuit :=
  let '(circuit, _, wire) := wrap_forward circuit cell in
  let* wire := or_fail m wire in
  let* _ := write_all wire in
  ret circuit.

Definition receive_cell (circuit : OnionCircuit) (m : string) : M Conn (OnionCircuit * Z * OnionCell) :=
  let* wire := read_exact ONION_CELL_SIZE in
  let '(circuit, _, r) := unwrap_backward circuit wire in
  let* answer := or_fail m r in
  ret (circuit, answer.1, answer.2).

Definition extend_hop (circuit_id : Z) (idx : nat) (node : ProxyNode) (pin : option bytes) (draw : HopDraw) (circuit : OnionCircuit)
    : M Conn OnionCircuit :=
  let client_pub := x25519_public (hd_secret draw) in
  let client_mlkem_ek := mlkem_ek (hd_dk draw) in
  let hop := Z.of_nat idx in
  let* payload := or_fail "Failed to encode EXTEND payload" (encode_extend_payload (pn_host node) (pn_port node) client_pub client_mlkem_ek hop) in
  let* next_pin := some_or pin (told "Missing next-hop identity pin") in
  let* extend_cell := or_fail "Failed to build EXTEND cell" (OnionCell_new (hd_rng draw) circuit_id hop Extend 0 (payload ++ next_pin)) in
  let* circuit := send_cell circuit extend_cell "Failed to wrap forward" in
  let* answer := receive_cell circuit "Failed to unwrap backward cell" in
  let '(circuit, _, resp_cell) := answer in
  let* keys := or_fail "identity-bound handshake failed"
    (process_created_cell resp_cell (hd_secret draw) client_pub (hd_dk draw) client_mlkem_ek next_pin circuit_id hop) in
  add_keys circuit keys "Failed to add hop".

Fixpoint extend_hops (circuit_id : Z) (idx : nat) (chain : list ProxyNode) (pins : list bytes) (draws : nat -> HopDraw) (circuit : OnionCircuit)
    : M Conn OnionCircuit :=
  match chain with
  | [] => ret circuit
  | node :: chain =>
      let* circuit := extend_hop circuit_id idx node (pins !! idx) (draws idx) circuit in
      extend_hops circuit_id (S idx) chain pins draws circuit
  end.

(** The size of a [HashSet] of the elements. *)
Definition distinct {A} `{EqDecision A} (l : list A) : nat := length (remove_dups l).

Definition endpoint (node : ProxyNode) : bytes * Z := (pn_host node, pn_port node).

Definition negotiate_telescopic_hops (circuit_id : Z) (chain : list ProxyNode) (pins : list bytes) (draws : nat -> HopDraw)
    : M Conn OnionCircuit :=
  let n := length chain in
  let* _ := ensure (3 <=? n)%nat (told "Circuit chain too short") in
  let* _ := ensure ((Z.of_nat n <=? MAX_HOPS) && (length pins =? n)%nat) (told "Invalid circuit: one pin per hop") in
  let* _ := ensure ((distinct pins =? n)%nat && (distinct (endpoint <$> chain) =? n)%nat && negb (bool_decide (replicate 32 0 ∈ pins)))
              (told "Circuit requires distinct endpoints and nonzero independent identity pins") in
  let* circuit := first_hop circuit_id (pins !! 0%nat) (draws 0%nat) in
  extend_hops circuit_id 1 (drop 1 chain) pins draws circuit.

Definition build_telescopic_circuit (circuit_id : Z) (chain : list ProxyNode) (pins : list bytes) (draws : nat -> HopDraw) (rng : bytes)
    (target_host : bytes) (target_port : Z) : M Conn OnionCircuit :=
  let* circuit := negotiate_telescopic_hops circuit_id chain pins draws in
  let* relay_payload := or_fail "Failed to encode RELAY target payload" (encode_relay_target target_host target_port) in
  let* relay_cell := or_fail "Failed to build RELAY cell" (OnionCell_new rng circuit_id 1 Relay 0 relay_payload) in
  let* circuit := send_cell circuit relay_cell "Failed to wrap forward relay cell" in
  let* answer := receive_cell circuit "Failed to unwrap backward cell from Exit hop" in
  let '(circuit, response_hop, resp_cell) := answer in
  let* _ := ensure ((response_hop =? Z.of_nat (length chain) - 1) && bool_decide (cell_command resp_cell = Relay)
                    && bool_decide (take (Z.to_nat (cell_length resp_cell)) (cell_payload resp_cell) = str "CONNECTED"))
              (told "Expected RELAY response from exit hop") in
  ret circuit.

Definition negotiate_padded_session (profile : Profile) (rng : bytes) (circuit : OnionCircuit) : M Conn OnionCircuit :=
  let proposal := Profile_encode profile in
  let* request := or_fail "Payload length exceeds maximum cell payload size" (OnionCell_new rng (circ_id circuit) 0 Session 0 proposal) in
  let* circuit := send_cell circuit request "wrap failed" in
  let* answer := receive_cell circuit "unwrap failed" in
  let '(circuit, hop, response) := answer in
  let* _ := ensure ((hop + 1 =? Z.of_nat (hop_count circuit)) && bool_decide (cell_command response = SessionAccepted)
                    && (cell_stream_id response =? 0)
                    && bool_decide (take (Z.to_nat (cell_length response)) (cell_payload response) = proposal))
              (told "Session profile downgrade or invalid acknowledgement") in
  ret circuit.

(** ** What a finished circuit stands for *)

(** The keys of a hop come from a handshake that the identity [pin] signed, for
    this circuit, this position and these ephemeral values of the client. *)
Definition authenticated (circuit_id : Z) (idx : nat) (pin : bytes) (draw : HopDraw) (keys : HopKeys) : Prop :=
  pin <> replicate 32 0 /\
  exists relay_pub ct sig ss,
    let pre := handshake_preimage circuit_id (Z.of_nat idx) pin relay_pub (x25519_public (hd_secret draw)) (mlkem_ek (hd_dk draw)) ct in
    verify_strict pin pre sig = Ok tt /\ x25519_dh (hd_secret draw) relay_pub <> replicate 32 0 /\
    mlkem_decapsulate (hd_dk draw) ct = Some ss /\
    derive_hop_keys_with_context (x25519_dh (hd_secret draw) relay_pub ++ ss) pre = Ok keys.

(** Hops [0 .. k-1] are authenticated. *)
Definition built (circuit_id : Z) (pins : list bytes) (draws : nat -> HopDraw) (k : nat) (circuit : OnionCircuit) : Prop :=
  circ_id circuit = circuit_id /\ length (circ_hops circuit) = k /\ length (circ_bwd_replay_windows circuit) = k /\
  forall i hop, circ_hops circuit !! i = Some hop ->
    exists pin, pins !! i = Some pin /\ authenticated circuit_id i pin (draws i) (crypt_keys hop).

Lemma or_fail_inv {S E A} m (r : result E A) (s s' : S) a : or_fail m r s = (s', Ok a) -> r = Ok a /\ s' = s.
Proof. unfold or_fail. destruct r; [by intros [= <- <-]|done]. Qed.

Lemma created_authenticated cell cid idx pin draw keys :
  process_created_cell cell (hd_secret draw) (x25519_public (hd_secret draw)) (hd_dk draw) (mlkem_ek (hd_dk draw)) pin cid (Z.of_nat idx) = Ok keys ->
  authenticated cid idx pin draw keys.
Proof.
  intros (_ & Hz & _ & _ & Hv & Hd & ss & Hs & Hk)%process_created_cell_inv. split; [done|]. do 4 eexists. split_and!; eauto.
Qed.

Lemma add_keys_built cid pins draws k circuit keys m c c' circuit' pin :
  built cid pins draws k circuit -> pins !! k = Some pin -> authenticated cid k pin (draws k) keys ->
  add_keys circuit keys m c = (c', Ok circuit') -> built cid pins draws (S k) circuit'.
Proof.
  intros (Hid & Hl & Hw & Hb) Hp Ha. unfold add_keys, add_hop. destruct (_ <=? _).
  { by intros (? & ? & [??]%or_fail_inv & _)%bind_inv. }
  intros (? & ? & [_ ->]%or_fail_inv & E)%bind_inv. injection E as <- <-. unfold built. cbn [circ_id circ_hops circ_bwd_replay_windows].
  rewrite !length_app, Hl, Hw. split_and!; [done|cbn; lia|cbn; lia|]. intros i hop [Hi|[Hi Hs]]%lookup_app_Some; [by apply Hb|].
  destruct (i - length (circ_hops circuit))%nat eqn:Ed; [|done]. cbn in Hs. injection Hs as <-. replace i with k by lia. eauto.
Qed.

Lemma send_cell_same circuit cell m c c' circuit' :
  send_cell circuit cell m c = (c', Ok circuit') ->
  circ_id circuit' = circ_id circuit /\ circ_hops circuit' = circ_hops circuit /\ circ_bwd_replay_windows circuit' = circ_bwd_replay_windows circuit.
Proof.
  unfold send_cell, wrap_forward. repeat case_match; intros (? & ? & [Hr ->]%or_fail_inv & E)%bind_inv; simplify_eq;
    apply bind_inv in E as (? & ? & _ & E); by injection E as <- <-.
Qed.

Lemma receive_cell_same circuit m c c' circuit' hop cell :
  receive_cell circuit m c = (c', Ok (circuit', hop, cell)) ->
  circ_id circuit' = circ_id circuit /\ circ_hops circuit' = circ_hops circuit /\
  length (circ_bwd_replay_windows circuit') = length (circ_bwd_replay_windows circuit).
Proof.
  unfold receive_cell. intros (? & wire & _ & E)%bind_inv. destruct (unwrap_backward circuit wire) as [[circuit0 raw] r] eqn:Eu.
  apply bind_inv in E as (? & [j cell0] & [-> ->]%or_fail_inv & E). injection E as _ <- _ _.
  apply unwrap_backward_inv in Eu as ((? & w & _ & _ & _ & Hw & _) & -> & -> & _). by rewrite Hw, length_insert.
Qed.

Lemma first_hop_built cid pins draws c c' circuit :
  first_hop cid (pins !! 0%nat) (draws 0%nat) c = (c', Ok circuit) -> built cid pins draws 1 circuit.
Proof.
  unfold first_hop. intros (? & ? & _ & E)%bind_inv. apply bind_inv in E as (? & ? & _ & E). apply bind_inv in E as (? & ? & _ & E).
  apply bind_inv in E as (? & cell & _ & E). apply bind_inv in E as (? & pin & [Hp ->]%some_or_inv & E).
  apply bind_inv in E as (? & keys & [Hk ->]%or_fail_inv & E). eapply add_keys_built; [|exact Hp| |exact E].
  - unfold built. cbn. split_and!; done.
  - by apply (created_authenticated cell).
Qed.

Lemma extend_hop_built cid pins draws k node circuit c c' circuit' :
  built cid pins draws k circuit -> extend_hop cid k node (pins !! k) (draws k) circuit c = (c', Ok circuit') -> built cid pins draws (S k) circuit'.
Proof.
  intros (Hid & Hl & Hw & Hb). unfold extend_hop. intros (? & ? & _ & E)%bind_inv. apply bind_inv in E as (? & pin & [Hp ->]%some_or_inv & E).
  apply bind_inv in E as (? & ? & _ & E). apply bind_inv in E as (? & circuit1 & (S1 & S2 & S3)%send_cell_same & E).
  apply bind_inv in E as (? & [[circuit2 hop] cell] & (R1 & R2 & R3)%receive_cell_same & E).
  apply bind_inv in E as (? & keys & [Hk ->]%or_fail_inv & E). eapply add_keys_built; [|exact Hp| |exact E].
  - unfold built. rewrite R1, R2, R3, S1, S2, S3. done.
  - by apply (created_authenticated cell).
Qed.

Lemma extend_hops_built cid chain pins draws k circuit c c' circuit' :
  built cid pins draws k circuit -> extend_hops cid k chain pins draws circuit c = (c', Ok circuit') -> built cid pins draws (k + length chain) circuit'.
Proof.
  revert k circuit c. induction chain as [|node chain IH]; intros k circuit c Hb; cbn [extend_hops length].
  - intros E. injection E as _ <-. by rewrite Nat.add_0_r.
  - intros (? & circuit1 & E1 & E)%bind_inv. apply extend_hop_built in E1; [|done]. rewrite Nat.add_succ_r. by eapply IH in E.
Qed.

Lemma distinct_NoDup {A} `{EqDecision A} (l : list A) : distinct l = length l <-> NoDup l.
Proof.
  unfold distinct. split.
  - induction l as [|x l IH]; cbn; [constructor|]. assert (Hle : (length (remove_dups l) <= length l)%nat).
    { apply submseteq_length, NoDup_submseteq; [apply NoDup_remove_dups|]. intros y. by rewrite elem_of_remove_dups. }
    destruct (decide_rel _ _ _); cbn; intros; [lia|]. constructor; [done|]. apply IH. lia.
  - induction 1 as [|x l Hx Hl IH]; cbn; [done|]. destruct (decide_rel _ _ _); [done|]. cbn. by rewrite IH.
Qed.

(** C6: whatever arrives on the link, a circuit the client completes has between
    three and eight hops on distinct endpoints with distinct pinned identities,
    and the keys of every hop come from a handshake which the identity pinned
    for that position signed for this circuit id, this position and the
    ephemeral values the client drew for this hop. *)
Theorem telescope_authentic (cid : Z) (chain : list ProxyNode) (pins : list bytes) (draws : nat -> HopDraw) (c c' : Conn) (circuit : OnionCircuit) :
  negotiate_telescopic_hops cid chain pins draws c = (c', Ok circuit) ->
  (3 <= length chain <= 8)%nat /\ length pins = length chain /\ NoDup pins /\ NoDup (endpoint <$> chain) /\
  circ_id circuit = cid /\ length (circ_hops circuit) = length chain /\
  forall i pin, pins !! i = Some pin ->
    exists hop, circ_hops circuit !! i = Some hop /\ authenticated cid i pin (draws i) (crypt_keys hop).
Proof.
  unfold negotiate_telescopic_hops. intros (? & ? & [H3%Nat.leb_le ->]%ensure_inv & E)%bind_inv.
  apply bind_inv in E as (? & ? & [[H8%Z.leb_le Hp%Nat.eqb_eq]%andb_true_iff ->]%ensure_inv & E).
  apply bind_inv in E as (? & ? & [[[D1%Nat.eqb_eq D2%Nat.eqb_eq]%andb_true_iff _]%andb_true_iff ->]%ensure_inv & E).
  apply bind_inv in E as (? & circuit0 & Eb%first_hop_built & E). apply (extend_hops_built _ _ _ _ _ _ _ _ _ Eb) in E as (Hid & Hl & _ & Hb).
  rewrite length_drop in Hl. unfold MAX_HOPS in H8. split_and!; try lia; [by apply distinct_NoDup; lia|by apply distinct_NoDup; rewrite length_fmap|].
  intros i pin Hi. assert (Hlt : (i < length (circ_hops circuit))%nat) by (apply lookup_lt_Some in Hi; lia).
  destruct (lookup_lt_is_Some_2 _ _ Hlt) as [hop Hh]. exists hop. split; [done|]. destruct (Hb _ _ Hh) as (pin' & Hp' & Ha). congruence.
Qed.
End Telescope.
