(* ===== verification/Network.v ===== *)
(** * A client and its relays (src/gateway/server.rs, both ends)

    The client's negotiation of [Telescope] against the relays of [Relay]. A
    station is a relay with the state of its connection; a cell from the client
    crosses the stations by the rounds of their loops, the last one extends the
    circuit to a new relay, and the answer comes back the same way. Nothing
    here is new code: [extend_through] and [network] only connect the two
    ends. *)
From S2P Require Import Prelude Text Net Replay Circuit Cell Flow Identity ExitPolicy Handshake Transport Float LinkCover Link Session Sybil.
From S2P Require Import Consensus Node Pool Relay Telescope.

Record RelayHost := mkRelayHost {
  rh_identity : HybridSigningKey;
  rh_secret : bytes;
  rh_kem_rng : bytes;
  rh_options : RelayOptions;
  rh_env : RelayEnv;
}.

Notation Station := (RelayHost * RelayConn)%type.

Definition with_response (env : RelayEnv) (resp : option bytes) : RelayEnv :=
  mkRelayEnv (env_now env) (env_secs env) (env_pool env) (env_rng env) (env_client_ok env) (env_downstream_ok env) (env_dns env)
    (env_connect env) (env_nodelay env) (env_challenge env) (env_server env) (env_phase env) (env_ids env) resp.

Definition sent_next (effects : list Effect) : option bytes :=
  match effects ≫= fun e => match e with ToNext w => [w] | _ => [] end with [w] => Some w | _ => None end.

Section Network.
Context `{OnionPrimitives} `{IdentityPrimitives} `{KexPrimitives} `{LinkPrimitives}.
Context (unicode_lowercase : bytes -> bytes).

Definition start_at (h : RelayHost) (create : bytes) : option (RelayConn * bytes) :=
  match relay_start (rh_env h) (rh_secret h) (rh_kem_rng h) (rh_identity h) create with
  | Some (Ok (s, created)) => Some (s, created)
  | _ => None
  end.

(** The last relay sends CREATE to the next one and passes its answer back. *)
Definition extend_at (h : RelayHost) (s : RelayConn) (next : RelayHost) (wire : bytes) : option (list Station * bytes) :=
  let step resp := relay_step unicode_lowercase (rh_options h) (with_response (rh_env h) resp) s (FromClient (Some wire)) in
  match sent_next (step None).1.2 with
  | None => None
  | Some create =>
      match start_at next create with
      | None => None
      | Some (fresh, created) =>
          match step (Some created) with
          | (s, effects, Continue) => match client_wires effects with [back] => Some ([(h, s); (next, fresh)], back) | _ => None end
          | _ => None
          end
      end
  end.

Fixpoint extend_through (stations : list Station) (next : RelayHost) (wire : bytes) : option (list Station * bytes) :=
  match stations with
  | [] => None
  | [(h, s)] => extend_at h s next wire
  | (h, s) :: rest =>
      match relay_step unicode_lowercase (rh_options h) (rh_env h) s (FromClient (Some wire)) with
      | (s, [ToNext wire], Continue) =>
          match extend_through rest next wire with
          | None => None
          | Some (rest, back) =>
              match relay_step unicode_lowercase (rh_options h) (rh_env h) s (FromNext (Some back)) with
              | (s, [ToClient back], Continue) => Some ((h, s) :: rest, back)
              | _ => None
              end
          end
      | _ => None
      end
  end.

Fixpoint extensions (stations : list Station) (hosts : list RelayHost) (wires : list bytes) : option (list Station * list bytes) :=
  match hosts, wires with
  | [], [] => Some (stations, [])
  | next :: hosts, wire :: wires =>
      match extend_through stations next wire with
      | None => None
      | Some (stations, back) =>
          match extensions stations hosts wires with Some (stations, backs) => Some (stations, back :: backs) | None => None end
      end
  | _, _ => None
  end.

(** What the relays answer to the cells of a client, in order. *)
Definition network (hosts : list RelayHost) (wires : list bytes) : option (list Station * list bytes) :=
  match hosts, wires with
  | first :: hosts, create :: wires =>
      match start_at first create with
      | None => None
      | Some (s, created) =>
          match extensions [(first, s)] hosts wires with Some (stations, backs) => Some (stations, created :: backs) | None => None end
      end
  | _, _ => None
  end.

(** ** The handshake of one hop *)

(** What a relay makes of the CREATE for position [idx], filled with [rng]. *)
Definition agreed (rng : bytes) (cid link : Z) (idx : nat) (h : RelayHost) (draw : HopDraw) : option (RelayCircuitHop * OnionCell) :=
  match build_create_cell rng cid (x25519_public (hd_secret draw)) (mlkem_ek (hd_dk draw)) (Z.of_nat idx) with
  | Err _ => None
  | Ok create =>
      match handle_create_cell (rh_secret h) (rh_kem_rng h) (env_rng (rh_env h)) (stamp create link 0 (cell_mac create)) (rh_identity h) with
      | Some (Ok (hop, created)) => Some (hop, created)
      | _ => None
      end
  end.

(** A relay that can answer: its identity is not the null key, the agreement
    with the client contributes, its writes succeed. *)
Record host_ok (h : RelayHost) (draw : HopDraw) : Prop := {
  ho_pin : verifying_key (rh_identity h) <> replicate 32 0;
  ho_dh : x25519_dh (rh_secret h) (x25519_public (hd_secret draw)) <> replicate 32 0;
  ho_rng : length (env_rng (rh_env h)) = 32%nat /\ is_bytes (env_rng (rh_env h));
  ho_client : env_client_ok (rh_env h) = true;
  ho_downstream : env_downstream_ok (rh_env h) = true;
}.

(** The state a relay keeps of a CREATE for position [idx]. *)
Definition hop_new (cid link : Z) (idx : nat) (hop : RelayCircuitHop) : Prop :=
  hop_circuit_id hop = link /\ hop_context_id hop = cid /\ hop_index hop = Z.of_nat idx /\
  hop_expected_recv_seq hop = 1 /\ hop_next_send_seq hop = 1.

Section Laws.
Context `{!OnionPrimitivesLaws} `{!IdentityLaws} `{!KexLaws}.

Lemma handle_create_wf relay_secret kem_rng rng cell identity hop created :
  length rng = 32%nat -> is_bytes rng -> is_u32 (cell_circuit_id cell) ->
  handle_create_cell relay_secret kem_rng rng cell identity = Some (Ok (hop, created)) ->
  cell_wf created /\ cell_circuit_id created = cell_circuit_id cell.
Proof.
  intros Hr Hrb Hid. unfold handle_create_cell. destruct (negb _); [done|]. destruct (_ || _); [done|]. cbv zeta. destruct (_ <=? _); [done|].
  destruct (negb _); [done|]. destruct (bool_decide _); [done|]. destruct (mlkem_encapsulate _ _) as [[ct ss]|] eqn:Em; [|done].
  destruct (identity_sign _ _) as [sig|] eqn:Es; [|done]. intros E%Some_inj'. destruct (derive_hop_keys_with_context _ _) as [keys|]; [|done].
  unfold map_general in E. destruct (OnionCell_new _ _ _ _ _ _) as [c|] eqn:Ec; [|done]. apply Ok_inj in E. injection E as _ <-. split.
  - destruct (x25519_public_ok relay_secret) as [_ Hxb]. apply mlkem_ct_ok in Em as (_ & Hcb & _). apply identity_sign_bytes in Es.
    eapply OnionCell_new_wf in Ec; [done|done|done|done|unfold_ints; lia|unfold_ints; lia|].
    repeat (apply is_bytes_app; [done || apply sha256_bytes|]). done.
  - unfold OnionCell_new in Ec. destruct (_ <? _)%nat; [done|]. by apply Ok_inj in Ec as <-.
Qed.

Lemma create_cell_wf rng draw cid idx create :
  is_u32 cid -> length rng = 32%nat -> is_bytes rng ->
  build_create_cell rng cid (x25519_public (hd_secret draw)) (mlkem_ek (hd_dk draw)) (Z.of_nat idx) = Ok create ->
  cell_wf create /\ cell_circuit_id create = cid /\ cell_sequence_no create = 0.
Proof.
  intros Hcid Hr Hrb. destruct (x25519_public_ok (hd_secret draw)) as [Hp Hpb]. destruct (mlkem_ek_ok (hd_dk draw)) as (Hek & Hekb & _).
  apply build_create_cell_wf; done || lia.
Qed.

(** The relay answers the client's CREATE, and the client derives its keys
    however the answer is relabelled. *)
Lemma agreed_ok rng cid link idx h draw :
  is_u32 cid -> is_u32 link -> Z.of_nat idx < MAX_HOPS -> host_ok h draw -> length rng = 32%nat -> is_bytes rng ->
  exists create hop created,
    build_create_cell rng cid (x25519_public (hd_secret draw)) (mlkem_ek (hd_dk draw)) (Z.of_nat idx) = Ok create /\
    agreed rng cid link idx h draw = Some (hop, created) /\ hop_new cid link idx hop /\
    cell_wf create /\ cell_circuit_id create = cid /\ cell_sequence_no create = 0 /\ cell_wf created /\ cell_circuit_id created = link /\
    start_at h (OnionCell_serialize (stamp create link 0 (cell_mac create)))
      = Some (fresh_relay hop (env_now (rh_env h)), OnionCell_serialize created) /\
    forall id' seq' mac', process_created_cell (stamp created id' seq' mac') (hd_secret draw) (x25519_public (hd_secret draw)) (hd_dk draw)
      (mlkem_ek (hd_dk draw)) (verifying_key (rh_identity h)) cid (Z.of_nat idx) = Ok (crypt_keys (hop_crypt hop)).
Proof.
  intros Hcid Hlink Hidx [Hpin Hdh [Hr Hrb] Hc _] Hd Hdb.
  assert (Ha : forall id' seq' mac', _) by (intros id' seq' mac'; exact (handshake_agrees cid (Z.of_nat idx) link (hd_secret draw) (hd_dk draw)
    (rh_secret h) (rh_kem_rng h) rng (env_rng (rh_env h)) (rh_identity h) id' seq' mac' Hcid ltac:(lia) Hpin Hdh)).
  destruct (Ha 0 0 []) as (create & hop & created & Hb & Hh & _ & Hnew).
  destruct (create_cell_wf _ _ _ _ _ Hcid Hd Hdb Hb) as (Hw & Hid & Hs).
  assert (Hws : cell_wf (stamp create link 0 (cell_mac create))) by (destruct Hw as [? ? ? ? ? [? ?] ?]; apply stamp_wf; [by constructor|done|unfold_ints; lia|done|done]).
  destruct (handle_create_wf _ _ _ (stamp create link 0 (cell_mac create)) _ _ _ Hr Hrb Hlink Hh) as [Hcw Hcid'].
  exists create, hop, created. split_and!; try done.
  - unfold agreed. by rewrite Hb, Hh.
  - unfold start_at, relay_start. rewrite serialize_layout, parse_layout, Hh, Hc by done. done.
  - intros id' seq' mac'. destruct (Ha id' seq' mac') as (create' & hop' & created' & Hb' & Hh' & Hp & _).
    rewrite Hb in Hb'. apply Ok_inj in Hb' as <-. rewrite Hh in Hh'. apply Some_inj', Ok_inj in Hh'. injection Hh' as -> ->. exact Hp.
Qed.

(** ** One extension at the last relay *)

(** A relay that can extend from its link [own] to [node]: the node is listed,
    resolves and connects, the link authenticates, and a fresh id is drawn. *)
Record reaches (h : RelayHost) (own : Z) (node : ProxyNode) (pin : bytes) (next : Z) : Prop := {
  re_allowed : may_reach (rh_options h) (rh_env h) (pn_host node) (pn_port node) = true;
  re_connect : is_ok (resolve_and_connect unicode_lowercase (relay_policy (rh_options h)) (pn_host node) (pn_port node)
    (env_dns (rh_env h)) (env_connect (rh_env h))).2 = true;
  re_nodelay : env_nodelay (rh_env h) = true;
  re_link : is_ok (connect_guarded_with_profile pin (cover_profile (rh_options h)) (env_challenge (rh_env h)) (env_server (rh_env h))
    (env_phase (rh_env h)) (env_now (rh_env h))) = true;
  re_id : next_circuit_id own (env_ids (rh_env h)) = Some next;
  re_next : is_u32 next;
}.

Record node_ok (node : ProxyNode) : Prop := {
  no_host : utf8_valid (pn_host node) = true /\ is_bytes (pn_host node) /\ (length (pn_host node) <= 255)%nat;
  no_port : is_u16 (pn_port node);
}.

(** The client's EXTEND cell for position [idx]. *)
Definition extend_cell (cid : Z) (idx : nat) (node : ProxyNode) (pin : bytes) (draw : HopDraw) : result string OnionCell :=
  match encode_extend_payload (pn_host node) (pn_port node) (x25519_public (hd_secret draw)) (mlkem_ek (hd_dk draw)) (Z.of_nat idx) with
  | Ok payload => OnionCell_new (hd_rng draw) cid (Z.of_nat idx) Extend 0 (payload ++ pin)
  | Err _ => Err "Failed to encode EXTEND payload"%string
  end.

Definition extend_body (idx : nat) (node : ProxyNode) (draw : HopDraw) : bytes :=
  [Z.of_nat idx] ++ [Z.of_nat (length (pn_host node))] ++ pn_host node ++ be_bytes 2 (pn_port node) ++ x25519_public (hd_secret draw) ++ mlkem_ek (hd_dk draw).

Lemma extend_cell_ok cid idx node pin draw :
  is_u32 cid -> Z.of_nat idx < MAX_HOPS -> node_ok node -> length pin = 32%nat -> is_bytes pin -> length (hd_rng draw) = 32%nat -> is_bytes (hd_rng draw) ->
  exists cell, extend_cell cid idx node pin draw = Ok cell /\ cell_wf cell /\ cell_circuit_id cell = cid /\ cell_command cell = Extend /\
    encode_extend_payload (pn_host node) (pn_port node) (x25519_public (hd_secret draw)) (mlkem_ek (hd_dk draw)) (Z.of_nat idx)
      = Ok (extend_body idx node draw) /\
    OnionCell_new (hd_rng draw) cid (Z.of_nat idx) Extend 0 (extend_body idx node draw ++ pin) = Ok cell /\
    take (Z.to_nat (cell_length cell)) (cell_payload cell) = extend_body idx node draw ++ pin /\ cell_length cell <= Z.of_nat PAYLOAD_SIZE.
Proof.
  intros Hcid Hidx [(Hu & Hhb & Hhl) Hport] Hp Hpb Hr Hrb.
  destruct (x25519_public_ok (hd_secret draw)) as [Hx Hxb]. destruct (mlkem_ek_ok (hd_dk draw)) as (Hek & Hekb & _).
  assert (He : encode_extend_payload (pn_host node) (pn_port node) (x25519_public (hd_secret draw)) (mlkem_ek (hd_dk draw)) (Z.of_nat idx)
    = Ok (extend_body idx node draw)).
  { unfold encode_extend_payload. rewrite (proj2 (Z.leb_gt _ _)), (proj2 (Nat.ltb_ge _ _)) by done. done. }
  assert (Hb : is_bytes (extend_body idx node draw ++ pin)).
  { unfold extend_body, MAX_HOPS in *. apply is_bytes_app; [|done]. repeat (apply is_bytes_app; [done || auto with bytes|]). done. }
  assert (Hl : (length (extend_body idx node draw ++ pin) <= PAYLOAD_SIZE)%nat).
  { unfold extend_body. rewrite !length_app, Hx, Hek, Hp, be_bytes_length. cbn [length]. sizes. }
  unfold extend_cell. rewrite He. pose proof (OnionCell_new_ok (hd_rng draw) cid (Z.of_nat idx) Extend 0 _ Hl) as Hn. eexists. split; [exact Hn|].
  apply OnionCell_new_wf in Hn as Hw; [|done|done|done|unfold MAX_HOPS in *; unfold_ints; lia|unfold_ints; lia|done].
  split_and!; [exact Hw|done|done|done|exact Hn|cell_fields; by rewrite Nat2Z.id, take_app_length|cell_fields; lia].
Qed.

(** EXTEND up to the CREATE for the next relay. *)
Lemma extend_create_ok cid own idx h s node pin next draw resp create :
  let env := with_response (rh_env h) resp in
  hop_context_id (relay_hop s) = cid -> hop_circuit_id (relay_hop s) = own -> hop_index (relay_hop s) = Z.of_nat idx ->
  Z.of_nat (S idx) < MAX_HOPS -> node_ok node -> length pin = 32%nat -> reaches h own node pin next ->
  env_downstream_ok (rh_env h) = true ->
  build_create_cell (env_rng (rh_env h)) cid (x25519_public (hd_secret draw)) (mlkem_ek (hd_dk draw)) (Z.of_nat (S idx)) = Ok create ->
  exists tried, let wire := OnionCell_serialize (stamp create next (cell_sequence_no create) (cell_mac create)) in
    extend_create unicode_lowercase (rh_options h) env s (extend_body (S idx) node draw ++ pin)
      = (set_downstream_id s next, [Contact (pn_host node) (pn_port node) tried; LinkedTo pin; ToNext wire], Ok wire).
Proof.
  intros env Hcx Hown Hi Hmax [(Hu & _ & Hhl) Hport] Hp [Ra Rc Rn Rl Ri _] Hd Hb.
  destruct (x25519_public_ok (hd_secret draw)) as [Hx _]. destruct (mlkem_ek_ok (hd_dk draw)) as (Hek & _ & Hcan).
  assert (He : decode_extend_payload (extend_body (S idx) node draw) = Ok (pn_host node, pn_port node, x25519_public (hd_secret draw),
    mlkem_ek (hd_dk draw), Z.of_nat (S idx))).
  { apply decode_encode_extend; try done. unfold encode_extend_payload. by rewrite (proj2 (Z.leb_gt _ _)), (proj2 (Nat.ltb_ge _ _)) by done. }
  assert (Hl : length (extend_body (S idx) node draw) = (1 + 1 + length (pn_host node) + 2 + 32 + Z.to_nat 1184)%nat).
  { unfold extend_body. rewrite !length_app, Hx, Hek, be_bytes_length. cbn [length]. lia. }
  unfold extend_create. rewrite length_app, Hp, (proj2 (Nat.ltb_ge _ _)) by lia. rewrite Nat.add_sub, take_app_length, He, Hi.
  rewrite (proj2 (Z.eqb_eq (Z.of_nat (S idx)) _)) by lia. cbn [negb]. rewrite (proj2 (Z.leb_gt _ _)) by done.
  unfold env in *. change (may_reach (rh_options h) (with_response (rh_env h) resp)) with (may_reach (rh_options h) (rh_env h)). rewrite Ra. cbn [negb].
  rewrite Hl, Nat.eqb_refl. cbn [negb with_response env_dns env_connect env_nodelay env_challenge env_server env_phase env_now env_ids env_rng env_downstream_ok].
  rewrite <- Hl, drop_app_length.
  destruct (resolve_and_connect _ _ _ _ _ _) as [tried [a|]]; [|done]. rewrite Rn. cbn [negb].
  destruct (connect_guarded_with_profile _ _ _ _ _ _) as [tls|]; [|done]. rewrite Hown, Ri. cbn [set_downstream_id relay_hop]. rewrite Hcx, Hb, Hd.
  by exists tried.
Qed.

Lemma serialize_relabel cell id : cell_wf cell -> is_u32 id ->
  blit 0 (be_bytes 4 id) (OnionCell_serialize cell) = OnionCell_serialize (stamp cell id (cell_sequence_no cell) (cell_mac cell)) /\
  cell_wf (stamp cell id (cell_sequence_no cell) (cell_mac cell)).
Proof.
  intros Hw Hid. assert (Hs : cell_wf (stamp cell id (cell_sequence_no cell) (cell_mac cell))).
  { destruct Hw as [? ? ? ? ? [? ?] ?]. by apply stamp_wf; [constructor|..]. }
  split; [|done]. rewrite !serialize_split by done. apply header8_relabel.
Qed.

Lemma refuse_sends_nothing env s : (extend_refuse env s).2 ≫= (fun e => match e with ToNext w => [w] | _ => [] end) = [].
Proof. unfold extend_refuse. destruct (OnionCell_new _ _ _ _ _ _); [destruct (wrap_backward_originate _ _) as [[? ?] ?]|]; done. Qed.

(** The round of the last relay: it sends CREATE on, and with the answer it
    turns into a middle relay. *)
Lemma extend_at_ok cid own idx h s next node nid draw raw raw' n len create fresh created hop'' back :
  let pin := verifying_key (rh_identity next) in
  s = fresh_relay (relay_hop s) (env_now (rh_env h)) -> hop_new cid own idx (relay_hop s) -> is_u32 own ->
  Z.of_nat (S idx) < MAX_HOPS -> node_ok node -> reaches h own node pin nid -> env_downstream_ok (rh_env h) = true -> env_client_ok (rh_env h) = true ->
  peel_forward (relay_hop s) raw = (set_expected_recv_seq (relay_hop s) n, raw', Ok (AddressedToThisRelay Extend len)) ->
  payload_of raw' len = extend_body (S idx) node draw ++ pin ->
  build_create_cell (env_rng (rh_env h)) cid (x25519_public (hd_secret draw)) (mlkem_ek (hd_dk draw)) (Z.of_nat (S idx)) = Ok create ->
  start_at next (OnionCell_serialize (stamp create nid (cell_sequence_no create) (cell_mac create))) = Some (fresh, OnionCell_serialize created) ->
  cell_wf created -> cell_circuit_id created = nid ->
  wrap_backward_originate (set_expected_recv_seq (relay_hop s) n) (OnionCell_serialize (stamp created own (cell_sequence_no created) (cell_mac created)))
    = (hop'', back, Ok tt) ->
  exists s', extend_at h s next raw = Some ([(h, s'); (next, fresh)], back) /\ relay_hop s' = hop'' /\ downstream_id s' = nid /\
    downstream s' = mkDownstream true false true false /\ downstream_write_failed_at s' = None.
Proof.
  intros pin Hs (Hn1 & Hn2 & Hn3 & _) Hown Hmax Hnode Hre Hd Hc Hpeel Hpay Hb Hst Hcw Hcid Hwrap.
  set (s1 := set_hop s (set_expected_recv_seq (relay_hop s) n)).
  assert (Hstep : forall resp, relay_step unicode_lowercase (rh_options h) (with_response (rh_env h) resp) s (FromClient (Some raw))
    = setup_extend unicode_lowercase (rh_options h) (with_response (rh_env h) resp) s1 (extend_body (S idx) node draw ++ pin)).
  { intros resp. unfold relay_step. replace (downstream s) with (mkDownstream false false false false) by (by rewrite Hs).
    cbn [ds_write]. unfold setup_cell. by rewrite Hpeel, Hpay. }
  unfold extend_at. cbv zeta. rewrite !Hstep. unfold setup_extend.
  destruct (extend_create_ok cid own idx h s1 node pin nid draw None create) as [tried Hx]; try done; [apply sha256_length|]. cbv zeta in Hx. rewrite Hx.
  destruct (extend_create_ok cid own idx h s1 node pin nid draw (Some (OnionCell_serialize created)) create) as [tried' Hx']; try done; [apply sha256_length|].
  cbn [with_response env_response]. destruct (extend_refuse _ _) as [s2 more] eqn:Er. cbn [fst snd].
  assert (Hq : sent_next ([Contact (pn_host node) (pn_port node) tried; LinkedTo pin;
    ToNext (OnionCell_serialize (stamp create nid (cell_sequence_no create) (cell_mac create)))] ++ more)
    = Some (OnionCell_serialize (stamp create nid (cell_sequence_no create) (cell_mac create)))).
  { pose proof (refuse_sends_nothing (with_response (rh_env h) None) (set_downstream_id s1 nid)) as Hr. rewrite Er in Hr. cbn [snd] in Hr.
    unfold sent_next in *. rewrite bind_app, Hr. done. }
  rewrite Hq, Hst. rewrite Hstep. unfold setup_extend. cbv zeta in Hx'. rewrite Hx'. cbn [with_response env_response].
  assert (Hid0 : from_be (slice 0 4 (OnionCell_serialize created)) = nid).
  { rewrite serialize_split, header8_id, Hcid by (done || by rewrite Hcid; destruct Hre). done. }
  unfold extend_answer. cbn [set_downstream_id downstream_id]. rewrite Hid0, Z.eqb_refl. cbn [negb].
  change (hop_circuit_id (relay_hop (set_downstream_id s1 nid))) with (hop_circuit_id (relay_hop s)). rewrite Hn1. destruct (serialize_relabel created own Hcw Hown) as [-> _].
  change (relay_hop (set_downstream_id s1 nid)) with (set_expected_recv_seq (relay_hop s) n). rewrite Hwrap.
  cbn [with_response env_client_ok]. rewrite Hc. cbn [client_wires app mbind list_bind]. eexists. split_and!; try reflexivity.
  all: unfold s1; cbn [set_downstream set_hop set_downstream_id downstream downstream_write_failed_at]; by rewrite Hs.
Qed.

(** ** Through the middle relays *)
Definition link_of (st : Station) : RelayCircuitHop * Z := (relay_hop st.2, downstream_id st.2).

Definition passing (st : Station) : Prop :=
  downstream st.2 = mkDownstream true false true false /\ downstream_write_failed_at st.2 = None /\
  env_client_ok (rh_env st.1) = true /\ env_downstream_ok (rh_env st.1) = true.

Lemma peel_downstream_same hop raw hop' raw' : peel_forward hop raw = (hop', raw', Ok ForwardDownstream) -> hop' = hop.
Proof.
  unfold peel_forward, open_forward. destruct (negb _); [done|]. destruct (aead_open _ _ _ _ _) as [pt|].
  - cbv zeta. destruct (accept_addressed _ _ _) as [[[? ?] ?]|]; done.
  - intros E. by apply (f_equal (fun p => p.1.1)) in E.
Qed.

Lemma passing_forward h s wire w :
  passing (h, s) -> relay_downstream (relay_hop s) (downstream_id s) wire = Some w ->
  relay_step unicode_lowercase (rh_options h) (rh_env h) s (FromClient (Some wire)) = (s, [ToNext w], Continue).
Proof.
  intros (Hd & Hf & Hc & Ho). cbn [fst snd] in *. unfold relay_downstream, relay_step, middle_cell. rewrite Hd. cbn [ds_write is_currently_exit_hop ds_cell_rx negb].
  rewrite Hf. destruct (peel_forward (relay_hop s) wire) as [[hop raw] [[|]|]] eqn:Ep; try done. intros <-%Some_inj'.
  apply peel_downstream_same in Ep as ->. rewrite Ho. replace (set_hop s (relay_hop s)) with s by (by destruct s). done.
Qed.

Lemma passing_back h s back b :
  passing (h, s) -> relay_upstream (relay_hop s) (downstream_id s) back = Some b ->
  relay_step unicode_lowercase (rh_options h) (rh_env h) s (FromNext (Some back)) = (s, [ToClient b], Continue).
Proof.
  intros (Hd & Hf & Hc & Ho). cbn [fst snd] in *. unfold relay_upstream, relay_step, middle_back. rewrite Hd. cbn [ds_write is_currently_exit_hop ds_cell_rx negb].
  destruct (negb _); [done|]. pose proof (relay_same (relay_hop s) (blit 0 (be_bytes 4 (hop_circuit_id (relay_hop s))) back)) as Hs.
  destruct (wrap_backward_relay _ _) as [[hop raw] [[]|]]; [|done]. cbn [fst] in Hs. subst hop. intros <-%Some_inj'. rewrite Hc.
  replace (set_hop s (relay_hop s)) with s by (by destruct s). done.
Qed.

Lemma extend_through_ok mids h s next wire raw ends back0 back :
  Forall passing mids -> path_forward (link_of <$> mids) wire = Some raw -> extend_at h s next raw = Some (ends, back0) ->
  path_backward (link_of <$> mids) back0 = Some back -> extend_through (mids ++ [(h, s)]) next wire = Some (mids ++ ends, back).
Proof.
  intros Hm. revert wire back. induction Hm as [|[h1 s1] mids Hp _ IH]; intros wire back Hf He Hb.
  { cbn in Hf, Hb. apply Some_inj' in Hf as ->. by apply Some_inj' in Hb as <-. }
  cbn [fmap list_fmap link_of path_forward path_backward fst snd] in Hf, Hb. destruct (relay_downstream _ _ _) as [w|] eqn:Ed; [|done].
  change (list_fmap _ _ link_of mids) with (link_of <$> mids) in *.
  destruct (path_backward (link_of <$> mids) back0) as [b|] eqn:Eb; [|done].
  cbn [app extend_through]. destruct (mids ++ [(h, s)]) as [|st rest] eqn:Er; [by destruct mids|].
  rewrite (passing_forward _ _ _ _ Hp Ed). rewrite (IH w b Hf He eq_refl), (passing_back _ _ _ _ Hp Hb). done.
Qed.

(** ** The circuit and its relays *)

(** The client's circuit and the stations it crosses agree: keys, positions,
    link ids and counters. The stations before the last pass cells on. *)
Record along (cid : Z) (circuit : OnionCircuit) (mids : list Station) (h : RelayHost) (s : RelayConn) : Prop := {
  al_wf : circuit_wf circuit;
  al_cid : is_u32 cid;
  al_id : circ_id circuit = cid;
  al_seq : circ_sequence_no circuit = Z.of_nat (S (length mids));
  al_hops : circ_hops circuit = ((fun r => hop_crypt r.1) <$> (link_of <$> mids)) ++ [hop_crypt (relay_hop s)];
  al_window : circ_bwd_replay_windows circuit !!! length mids = ReplayWindow_new;
  al_linked : linked cid (link_of <$> mids) (hop_circuit_id (relay_hop s));
  al_own : is_u32 (hop_circuit_id (relay_hop s));
  al_mids : Forall passing mids;
  al_index : Forall (fun r => hop_index r.1 < Z.of_nat (length mids)) (link_of <$> mids);
  al_last : s = fresh_relay (relay_hop s) (env_now (rh_env h));
  al_new : hop_new cid (hop_circuit_id (relay_hop s)) (length mids) (relay_hop s);
}.

(** No relay before the last one takes the EXTEND cell for its own. *)
Definition undisturbed (cid : Z) (hops : list HopCryptState) (idx : nat) (node : ProxyNode) (pin : bytes) (draw : HopDraw) : Prop :=
  forall cell before target, extend_cell cid idx node pin draw = Ok cell -> hops = before ++ [target] ->
    let '(ct, tag) := seal_forward target (build_nonce 1 0 (Z.of_nat idx)) (be_bytes 4 (Z.of_nat idx)) (cell_text cell) in
    spurious_free (build_nonce 1 0 (Z.of_nat idx)) (be_bytes 4 (Z.of_nat idx)) before (ct ++ tag).

(** The client's half of a round. *)
Lemma extend_hop_ok cid idx node pin draw circuit cell c1 cell1 raw c2 buf hop tag back keys rest dry out fault :
  encode_extend_payload (pn_host node) (pn_port node) (x25519_public (hd_secret draw)) (mlkem_ek (hd_dk draw)) (Z.of_nat idx)
    = Ok (extend_body idx node draw) ->
  OnionCell_new (hd_rng draw) cid (Z.of_nat idx) Extend 0 (extend_body idx node draw ++ pin) = Ok cell ->
  wrap_forward circuit cell = (c1, cell1, Ok raw) -> length back = ONION_CELL_SIZE -> unwrap_backward c1 back = (c2, buf, Ok (hop, tag)) ->
  process_created_cell tag (hd_secret draw) (x25519_public (hd_secret draw)) (hd_dk draw) (mlkem_ek (hd_dk draw)) pin cid (Z.of_nat idx) = Ok keys ->
  Z.of_nat (length (circ_hops c2)) < MAX_HOPS ->
  extend_hop cid idx node (Some pin) draw circuit (mkConn (back ++ rest) dry out None fault)
    = (mkConn rest dry (out ++ raw) None fault, Ok (add_hop c2 keys).1).
Proof.
  intros He Hn Hw Hl Hu Hp Hm. unfold extend_hop, bind, some_or, or_fail, ret. rewrite He. cbv beta iota zeta. rewrite Hn. cbv beta iota.
  unfold send_cell, bind, or_fail, ret. rewrite Hw. cbv beta iota. rewrite run_write by done. cbn [cn_in cn_dry cn_out cn_fault].
  unfold receive_cell, bind, or_fail, ret. rewrite (run_read _ back rest) by done. rewrite Hu. cbn [fst snd]. rewrite Hp. cbv beta iota.
  unfold add_keys, add_hop. rewrite (proj2 (Z.leb_gt _ _)) by done. done.
Qed.

Lemma fresh_window idx : 0 <= idx < MAX_HOPS ->
  exists seq w, pack_backward_seq idx 1 = Ok seq /\ check_and_advance ReplayWindow_new seq = (w, Ok tt).
Proof.
  unfold MAX_HOPS. intros Hi. assert (Hc : idx = 0 \/ idx = 1 \/ idx = 2 \/ idx = 3 \/ idx = 4 \/ idx = 5 \/ idx = 6 \/ idx = 7) by lia.
  repeat destruct Hc as [->|Hc]; [..|subst idx]; eexists _, _; split; reflexivity.
Qed.

Lemma linked_snoc id mids exit hop next : linked id mids exit -> is_u32 exit -> hop_circuit_id hop = exit -> linked id (mids ++ [(hop, next)]) next.
Proof.
  revert id. induction mids as [|[h1 d1] mids IH]; intros id; cbn; [intros ->; auto|]. intros (? & ? & ?) ? ?. auto.
Qed.

(** The circuit one hop longer. *)
Lemma along_next cid circuit mids h s w s' nid next fresh :
  let seq := circ_sequence_no circuit in
  let c2 := {| circ_id := circ_id circuit; circ_hops := circ_hops circuit; circ_sequence_no := seq + 1;
               circ_bwd_replay_windows := <[length mids := w]> (circ_bwd_replay_windows circuit) |} in
  along cid circuit mids h s -> Z.of_nat (S (length mids)) < MAX_HOPS ->
  hop_crypt (relay_hop s') = hop_crypt (relay_hop s) -> hop_circuit_id (relay_hop s') = hop_circuit_id (relay_hop s) ->
  hop_index (relay_hop s') = hop_index (relay_hop s) -> downstream_id s' = nid -> is_u32 nid -> passing (h, s') ->
  fresh = fresh_relay (relay_hop fresh) (env_now (rh_env next)) -> hop_new cid nid (S (length mids)) (relay_hop fresh) ->
  along cid (add_hop c2 (crypt_keys (hop_crypt (relay_hop fresh)))).1 (mids ++ [(h, s')]) next fresh.
Proof.
  intros seq c2 [[W1 W2 W3] A2 A3 A4 A5 A6 A7 A8 A9 A10 A11 A12] Hmax Hk Hi Hx Hd Hnid Hp Hf Hn.
  assert (Hlen : length (circ_hops circuit) = S (length mids)) by (rewrite A5, length_app, !length_fmap; cbn; lia).
  assert (Hn1 : hop_circuit_id (relay_hop fresh) = nid) by apply Hn.
  unfold add_hop, c2. cbn [circ_hops circ_id circ_sequence_no circ_bwd_replay_windows]. rewrite Hlen, (proj2 (Z.leb_gt _ _)) by done. cbn [fst].
  split; cbn [circ_hops circ_id circ_sequence_no circ_bwd_replay_windows].
  - split; cbn [circ_hops circ_sequence_no circ_bwd_replay_windows]; rewrite ?length_app, ?length_insert, ?Hlen; cbn [length]; unfold seq in *; unfold MAX_HOPS in *; unfold_ints; lia.
  - done.
  - done.
  - unfold seq. rewrite A4, length_app. cbn [length]. lia.
  - rewrite A5, !fmap_app. cbn [fmap list_fmap link_of fst snd]. rewrite Hk. by destruct (hop_crypt (relay_hop fresh)).
  - rewrite length_app. cbn [length]. rewrite lookup_total_app_r by (rewrite length_insert, W1, Hlen; lia). rewrite length_insert, W1, Hlen.
    replace (length mids + 1 - S (length mids))%nat with 0%nat by lia. done.
  - rewrite fmap_app, Hn1. cbn [fmap list_fmap]. unfold link_of at 2. cbn [fst snd]. rewrite Hd. by apply (linked_snoc _ _ (hop_circuit_id (relay_hop s))).
  - by rewrite Hn1.
  - apply Forall_app. auto.
  - rewrite fmap_app. apply Forall_app. rewrite length_app. cbn [length]. split.
    + eapply Forall_impl; [exact A10|]. cbn beta. lia.
    + constructor; [|constructor]. cbn [link_of fst snd]. destruct A12 as (_ & _ & A12 & _). lia.
  - done.
  - rewrite Hn1, length_app. cbn [length]. by rewrite Nat.add_1_r.
Qed.

Lemma extend_round cid circuit mids h s next node nid draw d :
  let idx := S (length mids) in
  let pin := verifying_key (rh_identity next) in
  along cid circuit mids h s -> Z.of_nat idx < MAX_HOPS -> host_ok h d -> host_ok next draw -> length (hd_rng draw) = 32%nat -> is_bytes (hd_rng draw) ->
  node_ok node -> reaches h (hop_circuit_id (relay_hop s)) node pin nid -> undisturbed cid (circ_hops circuit) idx node pin draw ->
  exists raw back s' fresh circuit' created,
    (forall rest dry out fault, extend_hop cid idx node (Some pin) draw circuit (mkConn (back ++ rest) dry out None fault)
      = (mkConn rest dry (out ++ raw) None fault, Ok circuit')) /\
    extend_through (mids ++ [(h, s)]) next raw = Some (mids ++ [(h, s'); (next, fresh)], back) /\
    along cid circuit' (mids ++ [(h, s')]) next fresh /\
    agreed (env_rng (rh_env h)) cid nid idx next draw = Some (relay_hop fresh, created) /\
    circ_hops circuit' = circ_hops circuit ++ [hop_crypt (relay_hop fresh)].
Proof.
  intros idx pin Ha Hmax [_ _ [Hhr Hhrb] Hhc Hhd] Hnext Hdr Hdrb Hnode Hre Hquiet.
  pose proof Ha as [A1 A2 A3 A4 A5 A6 A7 A8 A9 A10 A11 A12]. pose proof A12 as (_ & N2 & N3 & N4 & N5). pose proof Hre as [_ _ _ _ _ Hnid].
  assert (Hpl : length pin = 32%nat) by apply sha256_length. assert (Hpb : is_bytes pin) by apply sha256_bytes.
  destruct (extend_cell_ok cid idx node pin draw A2 Hmax Hnode Hpl Hpb Hdr Hdrb) as (cell & Hx & Hw & Hci & Hcmd & Henc & Hnew & Hpay & Hlen).
  destruct (agreed_ok (env_rng (rh_env h)) cid nid idx next draw A2 Hnid Hmax Hnext Hhr Hhrb)
    as (create & hop & created & Hb & Hag & Hhn & Hcw & _ & Hcs & Hkw & Hki & Hst & Hproc).
  (* forward *)
  assert (Hseq : circ_sequence_no circuit < u32_MAX) by (rewrite A4; unfold MAX_HOPS, idx in *; unfold_ints; lia).
  pose proof (forward_delivery circuit cell (link_of <$> mids) (relay_hop s)) as Hf. rewrite A3, A4 in Hf. cbv zeta in Hf.
  rewrite A4 in Hseq. assert (Hgap : hop_expected_recv_seq (relay_hop s) <= Z.of_nat idx <= hop_expected_recv_seq (relay_hop s) + MAX_SEQ_GAP)
    by (rewrite N4; unfold MAX_SEQ_GAP, MAX_HOPS, idx in *; lia).
  destruct (Hf Hw A1 Hseq Hci A5 A7 A8 Hgap (Hquiet cell _ _ Hx A5)) as (raw & raw_exit & raw' & tag & Hwrap & Hpf & Hpeel & Hparse). clear Hf.
  rewrite Hcmd in Hpeel.
  assert (Hpay' : payload_of raw' (cell_length cell) = extend_body idx node draw ++ pin).
  { rewrite (payload_of_parse _ _ _ Hparse); [exact Hpay|]. destruct Hw as [_ _ _ Hcl _ _ _]. lia. }
  (* backward *)
  destruct (fresh_window (Z.of_nat (length mids))) as (seq & w & Hpack & Hwin); [unfold MAX_HOPS, idx in *; lia|].
  set (c1 := {| circ_id := cid; circ_hops := circ_hops circuit; circ_sequence_no := Z.of_nat idx + 1; circ_bwd_replay_windows := circ_bwd_replay_windows circuit |}).
  set (origin := set_expected_recv_seq (relay_hop s) (Z.of_nat idx + 1)).
  destruct (serialize_relabel created _ Hkw A8) as [_ Hkw'].
  destruct (backward_delivery c1 (stamp created (hop_circuit_id (relay_hop s)) (cell_sequence_no created) (cell_mac created)) (link_of <$> mids) origin [] seq w)
    as (rawb & back & buf & tagb & Hoback & Hpb' & Hbl & Hunwrap); try done.
  { destruct A1 as [? ? [? ?]]. split; cbn [c1 circ_hops circ_sequence_no circ_bwd_replay_windows]; try done. unfold MAX_HOPS, idx in *. unfold_ints. lia. }
  { rewrite length_fmap. exact N3. }
  { cbn [origin hop_next_send_seq set_expected_recv_seq]. rewrite N5. unfold_ints. lia. }
  { cbn [origin hop_index set_expected_recv_seq]. eapply Forall_impl; [exact A10|]. cbn beta. intros r Hr. rewrite N3. lia. }
  { cbn [origin hop_index hop_next_send_seq set_expected_recv_seq]. by rewrite N3, N5. }
  { rewrite length_fmap. cbn [c1 circ_bwd_replay_windows]. by rewrite A6. }
  destruct (extend_at_ok cid (hop_circuit_id (relay_hop s)) (length mids) h s next node nid draw raw_exit raw' (Z.of_nat idx + 1) (cell_length cell) create
    (fresh_relay hop (env_now (rh_env next))) created (set_next_send_seq origin (hop_next_send_seq origin + 1)) rawb
    A11 A12 A8 Hmax Hnode Hre Hhd Hhc Hpeel Hpay' Hb ltac:(by rewrite Hcs) Hkw Hki Hoback)
    as (s' & Hat & Hs1 & Hs2 & Hs3 & Hs4).
  exists raw, back, s', (fresh_relay hop (env_now (rh_env next))), (add_hop {| circ_id := circ_id circuit; circ_hops := circ_hops circuit;
    circ_sequence_no := circ_sequence_no circuit + 1; circ_bwd_replay_windows := <[length mids := w]> (circ_bwd_replay_windows circuit) |}
    (crypt_keys (hop_crypt hop))).1, created. split_and!.
  - intros rest dry out fault. rewrite length_fmap in Hunwrap. rewrite A3, A4. unfold c1 in Hunwrap.
    eapply extend_hop_ok; [exact Henc|exact Hnew|exact Hwrap|exact Hbl|exact Hunwrap|apply Hproc|].
    cbn [circ_hops]. rewrite A5, length_app, !length_fmap. cbn [length]. unfold idx in Hmax. lia.
  - eapply extend_through_ok; eauto.
  - apply (along_next cid circuit mids h s w s' nid next (fresh_relay hop (env_now (rh_env next)))); try done; by rewrite Hs1.
  - exact Hag.
  - assert (Hl : length (circ_hops circuit) = idx) by (rewrite A5, length_app, !length_fmap; cbn [length]; unfold idx; lia).
    unfold add_hop. cbn [circ_hops]. rewrite Hl, (proj2 (Z.leb_gt _ _)) by done. cbn [fst circ_hops relay_hop fresh_relay]. by destruct (hop_crypt hop).
Qed.

(** ** The whole circuit *)
Definition pin_of (h : RelayHost) : bytes := verifying_key (rh_identity h).

(** Relays, directory entries, draws and link ids that fit together. [crypts]
    are the keys the relays derive, hop by hop. *)
Record telescope_ready (cid : Z) (hosts : list RelayHost) (chain : list ProxyNode) (draws : nat -> HopDraw) (ids : list Z)
    (crypts : list HopCryptState) : Prop := {
  tr_length : (3 <= length hosts <= 8)%nat /\ length chain = length hosts /\ length ids = length hosts /\ length crypts = length hosts;
  tr_cid : is_u32 cid /\ ids !! 0%nat = Some cid;
  tr_distinct : NoDup (pin_of <$> hosts) /\ NoDup (endpoint <$> chain);
  tr_hosts : forall i h, hosts !! i = Some h -> host_ok h (draws i) /\ length (hd_rng (draws i)) = 32%nat /\ is_bytes (hd_rng (draws i));
  tr_nodes : forall i node, chain !! i = Some node -> node_ok node;
  tr_reach : forall i h own next node nid, hosts !! i = Some h -> ids !! i = Some own -> hosts !! S i = Some next -> chain !! S i = Some node ->
    ids !! S i = Some nid -> reaches h own node (pin_of next) nid;
  tr_keys : forall i h link, hosts !! i = Some h -> ids !! i = Some link ->
    exists hop created, agreed (hd_rng (draws i)) cid link i h (draws i) = Some (hop, created) /\ crypts !! i = Some (hop_crypt hop);
  tr_quiet : forall i next node, (0 < i)%nat -> hosts !! i = Some next -> chain !! i = Some node ->
    undisturbed cid (take i crypts) i node (pin_of next) (draws i);
}.

Lemma agreed_rng rng rng' cid link idx h draw : Z.of_nat idx < MAX_HOPS -> agreed rng cid link idx h draw = agreed rng' cid link idx h draw.
Proof.
  intros Hm. unfold agreed. destruct (x25519_public_ok (hd_secret draw)) as [Hx _]. destruct (mlkem_ek_ok (hd_dk draw)) as (Hek & _).
  rewrite !build_create_cell_ok by done. unfold handle_create_cell, stamp. cell_fields. done.
Qed.

Lemma extend_all cid hosts chain draws ids crypts rest mids h s circuit :
  telescope_ready cid hosts chain draws ids crypts -> hosts = (fst <$> mids) ++ h :: rest -> along cid circuit mids h s ->
  ids !! length mids = Some (hop_circuit_id (relay_hop s)) -> circ_hops circuit = take (S (length mids)) crypts ->
  exists wires answers mids' h' s' circuit',
    (forall more dry out fault, extend_hops cid (S (length mids)) (drop (S (length mids)) chain) (pin_of <$> hosts) draws circuit
        (mkConn (mjoin answers ++ more) dry out None fault) = (mkConn more dry (out ++ mjoin wires) None fault, Ok circuit')) /\
    extensions (mids ++ [(h, s)]) rest wires = Some (mids' ++ [(h', s')], answers) /\ along cid circuit' mids' h' s' /\
    fst <$> (mids' ++ [(h', s')]) = hosts /\ circ_hops circuit' = crypts.
Proof.
  intros Hr. revert mids h s circuit. induction rest as [|next rest IH]; intros mids h s circuit Hh Ha Hid Hc.
  { destruct Hr as [(_ & Hl1 & _ & Hl2) _ _ _ _ _ _ _]. assert (Hl : length hosts = S (length mids)) by (rewrite Hh, length_app, length_fmap; cbn; lia).
    exists [], [], mids, h, s, circuit. split_and!; [|done|done|by rewrite fmap_app|by rewrite Hc, take_ge by lia].
    intros. rewrite drop_ge by lia. cbn. by rewrite app_nil_r. }
  pose proof Hr as [([_ H8] & Hl1 & Hl2 & Hl3) [Hcid _] _ Thosts Tnodes Treach Tkeys Tquiet]. set (k := length mids) in *.
  assert (Hk : length hosts = (k + S (S (length rest)))%nat) by (rewrite Hh, length_app, length_fmap; done).
  assert (Hat : hosts !! k = Some h) by (rewrite Hh; apply list_lookup_middle; by rewrite length_fmap).
  assert (Hnx : hosts !! S k = Some next).
  { rewrite Hh, lookup_app_r, length_fmap by (rewrite length_fmap; lia). fold k. by replace (S k - k)%nat with 1%nat by lia. }
  destruct (lookup_lt_is_Some_2 chain (S k)) as [node Hnode]; [lia|]. destruct (lookup_lt_is_Some_2 ids (S k)) as [nid Hnid]; [lia|].
  destruct (Thosts _ _ Hat) as [Hho _]. destruct (Thosts _ _ Hnx) as (Hno & Hdr & Hdrb). assert (Hmax : Z.of_nat (S k) < MAX_HOPS) by (unfold MAX_HOPS; lia).
  destruct (extend_round cid circuit mids h s next node nid (draws (S k)) (draws k)) as (raw & back & s' & fresh & circuit1 & created & E1 & E2 & E3 & E4 & E5);
    [done..|by apply (Tnodes (S k))|by apply (Treach k)|rewrite Hc; apply Tquiet; [lia|done..]|].
  fold k in E1, E4. destruct (Tkeys _ _ _ Hnx Hnid) as (hop & created' & E6 & E7). rewrite (agreed_rng _ (hd_rng (draws (S k)))) in E4 by done.
  rewrite E6 in E4. apply Some_inj' in E4. injection E4 as -> ->.
  destruct (IH (mids ++ [(h, s')]) next fresh circuit1) as (wires & answers & mids' & h' & s2 & circuit2 & I1 & I2 & I3 & I4 & I5).
  { rewrite Hh, fmap_app, <- app_assoc. done. }
  { done. }
  { rewrite length_app, Nat.add_1_r. cbn [length]. fold k. rewrite Hnid. f_equal. destruct E3 as [_ _ _ _ _ _ _ _ _ _ _ (E3 & _)].
    unfold agreed in E6. destruct (build_create_cell _ _ _ _ _) as [create|]; [|done]. destruct (handle_create_cell _ _ _ _ _) as [[[hop0 c0]|]|] eqn:Eh; [|done..].
    apply Some_inj' in E6. injection E6 as -> ->. by apply handle_create_hop in Eh as (_ & _ & ->). }
  { rewrite E5, Hc, length_app, Nat.add_1_r. cbn [length]. fold k. by rewrite (take_S_r crypts (S k) (hop_crypt (relay_hop fresh))). }
  rewrite length_app, Nat.add_1_r in I1. fold k in I1.
  exists (raw :: wires), (back :: answers), mids', h', s2, circuit2. split_and!; [|cbn [extensions]|done..].
  - intros more dry out fault. rewrite (drop_S chain node (S k)) by done. cbn [extend_hops]. unfold bind. rewrite list_lookup_fmap, Hnx. cbn [fmap option_fmap option_map].
    change (mjoin (back :: answers)) with (back ++ mjoin answers). rewrite <- app_assoc, E1, I1. change (mjoin (raw :: wires)) with (raw ++ mjoin wires).
    by rewrite <- app_assoc.
  - rewrite E2. rewrite <- app_assoc in I2. cbn [app] in I2. by rewrite I2.
Qed.

(** CREATE and CREATED with the first relay. *)
Lemma first_hop_ok cid h draw :
  is_u32 cid -> host_ok h draw -> length (hd_rng draw) = 32%nat -> is_bytes (hd_rng draw) ->
  exists create created hop cell,
    (forall more dry out fault, first_hop cid (Some (pin_of h)) draw (mkConn (created ++ more) dry out None fault)
      = (mkConn more dry (out ++ create) None fault, Ok (add_hop (OnionCircuit_new cid) (crypt_keys (hop_crypt hop))).1)) /\
    start_at h create = Some (fresh_relay hop (env_now (rh_env h)), created) /\ hop_new cid cid 0 hop /\
    agreed (hd_rng draw) cid cid 0 h draw = Some (hop, cell).
Proof.
  intros Hcid Hho Hr Hrb. destruct (agreed_ok (hd_rng draw) cid cid 0 h draw Hcid Hcid eq_refl Hho Hr Hrb)
    as (create & hop & created & Hb & Hag & Hn & Hw & Hi & Hs & Hkw & _ & Hst & Hp).
  change (Z.of_nat 0) with 0 in *. assert (E : stamp create cid 0 (cell_mac create) = create) by (destruct create; cbn in *; by subst). rewrite E in Hst.
  exists (OnionCell_serialize create), (OnionCell_serialize created), hop, created. split_and!; try done.
  intros more dry out fault. unfold first_hop, bind, some_or, or_fail, ret. rewrite Hb. cbv beta iota zeta. rewrite run_write by done.
  cbn [cn_in cn_dry cn_out cn_fault]. rewrite (run_read _ (OnionCell_serialize created) more) by (done || by apply serialize_length).
  cbv beta iota. rewrite serialize_layout, parse_layout by done. cbv beta iota.
  assert (E' : stamp created (cell_circuit_id created) (cell_sequence_no created) (cell_mac created) = created) by (by destruct created).
  rewrite <- E', Hp. done.
Qed.

Lemma along_first cid h hop :
  is_u32 cid -> hop_new cid cid 0 hop ->
  along cid (add_hop (OnionCircuit_new cid) (crypt_keys (hop_crypt hop))).1 [] h (fresh_relay hop (env_now (rh_env h))).
Proof.
  intros Hcid Hn. pose proof Hn as (Hi & _). split; cbn [relay_hop fresh_relay]; rewrite ?Hi; try done.
  cbn. by destruct (hop_crypt hop).
Qed.

Lemma telescope_completes cid hosts chain draws ids crypts dry fault :
  telescope_ready cid hosts chain draws ids crypts ->
  exists wires answers stations circuit mids h s,
    negotiate_telescopic_hops cid chain (pin_of <$> hosts) draws (mkConn (mjoin answers) dry [] None fault)
      = (mkConn [] dry (mjoin wires) None fault, Ok circuit) /\
    network hosts wires = Some (stations, answers) /\ stations = mids ++ [(h, s)] /\ fst <$> stations = hosts /\ along cid circuit mids h s /\
    circ_hops circuit = crypts.
Proof.
  intros Hr. pose proof Hr as [([Hlo Hhi] & Hl1 & Hl2 & Hl3) [Hcid Hid] [D1 D2] Thosts _ _ Tkeys _].
  destruct hosts as [|h hosts]; [cbn in Hlo; lia|]. destruct (Thosts 0%nat h eq_refl) as (Hho & Hdr & Hdrb).
  destruct (first_hop_ok cid h (draws 0%nat) Hcid Hho Hdr Hdrb) as (create & created & hop & cell & F1 & F2 & F3 & F4).
  pose proof (along_first cid h hop Hcid F3) as Ha.
  assert (Hc : circ_hops (add_hop (OnionCircuit_new cid) (crypt_keys (hop_crypt hop))).1 = take 1 crypts).
  { destruct (Tkeys 0%nat h cid eq_refl Hid) as (hop' & cell' & E & Ek). rewrite F4 in E. apply Some_inj' in E. injection E as <- <-.
    destruct crypts as [|k crypts]; [done|]. cbn in Ek. apply Some_inj' in Ek as ->. cbn. by destruct (hop_crypt hop). }
  destruct (extend_all cid (h :: hosts) chain draws ids crypts hosts [] h (fresh_relay hop (env_now (rh_env h)))
    (add_hop (OnionCircuit_new cid) (crypt_keys (hop_crypt hop))).1 Hr eq_refl Ha)
    as (wires & answers & mids & h' & s' & circuit & G1 & G2 & G3 & G4 & G5); [by destruct F3 as [<- _]|done|].
  exists (create :: wires), (created :: answers), (mids ++ [(h', s')]), circuit, mids, h', s'. split_and!; try done.
  - unfold negotiate_telescopic_hops, bind, ensure, ret. rewrite (proj2 (Nat.leb_le _ _)) by lia.
    rewrite length_fmap, <- Hl1, Nat.eqb_refl, (proj2 (Z.leb_le _ _)) by (unfold MAX_HOPS; lia). cbn [andb].
    rewrite (proj2 (distinct_NoDup (pin_of <$> h :: hosts)) D1), length_fmap, <- Hl1, Nat.eqb_refl.
    rewrite (proj2 (distinct_NoDup (endpoint <$> chain)) D2), length_fmap, Nat.eqb_refl. cbn [andb].
    rewrite bool_decide_eq_false_2; [cbn [negb]|].
    2: { intros (h0 & E & Hin)%list_elem_of_fmap. apply list_elem_of_lookup in Hin as [i Hi]. destruct (Thosts _ _ Hi) as [[Hp _ _ _ _] _]. by apply Hp. }
    change ((pin_of <$> h :: hosts) !! 0%nat) with (Some (pin_of h)). change (mjoin (created :: answers)) with (created ++ mjoin answers).
    rewrite F1. cbn [length] in G1. rewrite <- (app_nil_r (mjoin answers)), G1. done.
  - unfold network. rewrite F2. cbn [app] in G2. by rewrite G2.
Qed.

(** C1: an honest chain is built. If the relays the client chose are listed,
    reachable and hold the pinned identities, and no relay takes an EXTEND cell
    for its own by accident, the client's negotiation succeeds: the relays,
    run by the rounds of their own loops, answer the cells it writes with the
    cells it reads. In the end the client holds, in order, exactly the keys of
    the relays, consecutive relays agree on the id of their link, every relay
    but the last passes cells on, and the last waits for instructions. *)
Theorem telescope_builds (cid : Z) (hosts : list RelayHost) (chain : list ProxyNode) (draws : nat -> HopDraw) (ids : list Z)
    (crypts : list HopCryptState) (dry fault : IoError) :
  telescope_ready cid hosts chain draws ids crypts ->
  exists wires answers circuit mids h s,
    let stations := mids ++ [(h, s)] in
    negotiate_telescopic_hops cid chain (pin_of <$> hosts) draws (mkConn (mjoin answers) dry [] None fault)
      = (mkConn [] dry (mjoin wires) None fault, Ok circuit) /\
    network hosts wires = Some (stations, answers) /\ fst <$> stations = hosts /\
    circ_id circuit = cid /\ circ_hops circuit = (fun st => hop_crypt (relay_hop st.2)) <$> stations /\ circuit_wf circuit /\
    linked cid (link_of <$> mids) (hop_circuit_id (relay_hop s)) /\ Forall (fun st => role st.2 = Middle) mids /\ role s = Waiting.
Proof.
  intros Hr. destruct (telescope_completes cid hosts chain draws ids crypts dry fault Hr)
    as (wires & answers & stations & circuit & mids & h & s & E1 & E2 & -> & E3 & [A1 _ A3 _ A5 _ A7 _ A9 _ A11 _] & _).
  exists wires, answers, circuit, mids, h, s. split_and!; try done.
  - rewrite A5, fmap_app, <- list_fmap_compose. done.
  - eapply Forall_impl; [exact A9|]. intros st [Hd _]. unfold role. by rewrite Hd.
  - rewrite A11. done.
Qed.
End Laws.
End Network.

(** ** Witnesses *)
#[local] Existing Instance toy_primitives.
#[local] Existing Instance toy_laws.
#[local] Existing Instance toy_identity.
#[local] Existing Instance toy_identity_laws.
#[local] Existing Instance toy_link.
#[local] Existing Instance toy_link_laws.

(** Key agreement byte by byte; the keys of a hop repeat the first byte of the
    shared secret, so that different hops have different keys. *)
Definition ring_public (s : bytes) : bytes := (fun b => b mod 256) <$> take 32 (s ++ replicate 32 0).

#[local] Instance ring_kex : KexPrimitives := {
  x25519_public s := ring_public s;
  x25519_dh s p := zip_with (fun a b => (a + b) mod 256) (ring_public s) (ring_public p);
  mlkem_ek dk := replicate (Z.to_nat 1184) 0;
  mlkem_encapsulate ek r := Some (replicate (Z.to_nat 1088) 0, replicate 32 7);
  mlkem_decapsulate dk ct := Some (replicate 32 7);
  hkdf_expand salt ikm info len := Some (replicate len (hd 0 ikm));
}.

Lemma ring_public_length s : length (ring_public s) = 32%nat.
Proof. unfold ring_public. rewrite length_fmap, length_take, length_app, length_replicate. lia. Qed.

Lemma ring_public_twice s : ring_public (ring_public s) = ring_public s.
Proof.
  unfold ring_public at 1. pose proof (ring_public_length s) as Hl. rewrite take_app_length' by done. unfold ring_public.
  rewrite <- list_fmap_compose. apply list_fmap_ext. intros _ b _. cbn. by rewrite Z.mod_mod.
Qed.

#[local] Instance ring_laws : KexLaws.
Proof.
  split; intros; cbn [x25519_public x25519_dh mlkem_ek mlkem_encapsulate mlkem_decapsulate hkdf_expand ring_kex] in *.
  - split; [apply ring_public_length|]. unfold ring_public, is_bytes. apply Forall_fmap, Forall_true. intros b. apply mod256_u8.
  - by rewrite length_zip_with, !ring_public_length.
  - rewrite !ring_public_twice, <- zip_with_flip. apply zip_with_ext; [|done..]. intros x y. unfold flip. f_equal. lia.
  - split_and!; [apply length_replicate|apply is_bytes_replicate; unfold_ints; lia|vm_compute; reflexivity].
  - eauto.
  - simplify_eq. split_and!; [apply length_replicate|apply is_bytes_replicate; unfold_ints; lia|apply length_replicate].
  - by simplify_eq.
  - eauto.
Qed.

Definition toy_key (n : Z) : HybridSigningKey := mkHybridSigningKey (replicate 32 n) (replicate 32 n).
Definition toy_host (n : Z) (server : TlsServer) : RelayHost :=
  mkRelayHost (toy_key n) (replicate 32 n) [] (mkRelayOptions true Link.Strict ExitPolicy_default)
    (mkRelayEnv 1700000000 1700000000 toy_pool (replicate 32 0) true true (Some (Some example_addrs)) (fun _ => ExitPolicy.Connected) true toy_challenge server
       3 [n + 20] None).
Definition toy_node (host : string) : ProxyNode := mkProxyNode [] Socks5 (str host) 443 None None None true 0 false.
Definition toy_nodes : list ProxyNode := [toy_node "a.example.org"; toy_node "b.example.org"; toy_node "c.example.org"].
Definition toy_draw (i : nat) : HopDraw := mkHopDraw (replicate 32 (Z.of_nat (10 + 10 * i))) [] (replicate 32 0).
Definition ring_keys (k : Z) : HopCryptState :=
  {| crypt_keys := {| forward_key := replicate 32 k; backward_key := replicate 32 k; forward_mac := replicate 32 k;
       backward_mac := replicate 32 k; forward_aead_key := replicate 32 k; backward_aead_key := replicate 32 k |} |}.

Lemma toy_server (n : Z) : is_u8 n -> verifying_key (toy_key n) <> replicate 32 0 ->
  exists server, is_ok (connect_guarded_with_profile (verifying_key (toy_key n)) Link.Strict toy_challenge server 3 1700000000) = true.
Proof.
  intros Hn Hp. destruct (link_completes (toy_key n) Link.Strict toy_challenge (replicate 32 5) toy_export 1700000000 3 4 eof eof)
    as (a & proof & s & r & s' & r' & _ & Hc & _); [done|done|done|done|done|lia|]. eexists. cbv zeta in Hc. by rewrite Hc.
Qed.

(** The keys of a hop. *)
Lemma ring_agreed cid link idx h draw :
  is_u32 cid -> Z.of_nat idx < MAX_HOPS -> host_ok h draw ->
  exists hop created, agreed (hd_rng draw) cid link idx h draw = Some (hop, created) /\
    hop_crypt hop = ring_keys (hd 0 (x25519_dh (rh_secret h) (x25519_public (hd_secret draw)))).
Proof.
  intros Hcid Hi [Hp Hdh _ _ _]. destruct (x25519_public_ok (hd_secret draw)) as [Hx _]. destruct (mlkem_ek_ok (hd_dk draw)) as (Hek & _).
  destruct (mlkem_encapsulate_ok (hd_dk draw) (rh_kem_rng h)) as (ct & ss & Henc).
  set (pre := handshake_preimage cid (Z.of_nat idx) (verifying_key (rh_identity h)) (x25519_public (rh_secret h)) (x25519_public (hd_secret draw))
    (mlkem_ek (hd_dk draw)) ct).
  destruct (identity_sign_ok (rh_identity h) pre) as [sig Hsig].
  { apply handshake_preimage_length; [apply sha256_length|apply x25519_public_ok|done|done|by eapply mlkem_ct_ok]. }
  set (dh := x25519_dh (rh_secret h) (x25519_public (hd_secret draw))) in *.
  assert (Hd : derive_hop_keys_with_context (dh ++ ss) pre = Ok (crypt_keys (ring_keys (hd 0 dh)))).
  { unfold derive_hop_keys_with_context. cbn [hkdf_expand ring_kex]. assert (Hl : length dh = 32%nat) by apply x25519_dh_length. by destruct dh. }
  unfold agreed. rewrite build_create_cell_ok by done.
  match goal with |- context [handle_create_cell ?a ?b ?c ?cell ?sk] => rewrite (handle_create_cell_ok a b c cell sk (Z.of_nat idx) cid (x25519_public (hd_secret draw)) (hd_dk draw) ct ss sig
    (crypt_keys (ring_keys (hd 0 dh))) (replicate (PAYLOAD_SIZE - Z.to_nat 1222) 0) Hx Hcid Hi eq_refl eq_refl eq_refl Hdh Henc Hsig Hd) end.
  eexists _, _. split; reflexivity.
Qed.

Lemma toy_host_ok (n : Z) (i : nat) (server : TlsServer) :
  (n = 1 /\ i = 0%nat) \/ (n = 2 /\ i = 1%nat) \/ (n = 3 /\ i = 2%nat) -> host_ok (toy_host n server) (toy_draw i).
Proof.
  intros [[-> ->]|[[-> ->]|[-> ->]]].
  all: split; [vm_compute; discriminate|vm_compute; discriminate|split; [reflexivity|apply is_bytes_replicate; unfold_ints; lia]|reflexivity|reflexivity].
Qed.

Lemma toy_undisturbed (cell : OnionCell) :
  extend_cell 7 2 (toy_node "c.example.org") (verifying_key (toy_key 3)) (toy_draw 2) = Ok cell ->
  let '(ct, tag) := seal_forward (ring_keys 22) (build_nonce 1 0 2) (be_bytes 4 2) (cell_text cell) in
  spurious_free (build_nonce 1 0 2) (be_bytes 4 2) [ring_keys 11] (ct ++ tag).
Proof.
  intros Hc.
  assert (E : match extend_cell 7 2 (toy_node "c.example.org") (verifying_key (toy_key 3)) (toy_draw 2) with
    | Ok cell => let '(ct, tag) := seal_forward (ring_keys 22) (build_nonce 1 0 2) (be_bytes 4 2) (cell_text cell) in
        let layer := layers_forward (build_nonce 1 0 2) [ring_keys 11] (ct ++ tag) in
        negb (bool_decide (is_Some (aead_open (forward_aead_key (crypt_keys (ring_keys 11))) (build_nonce 1 0 2) (be_bytes 4 2)
          (body_text layer) (body_mac layer))))
    | Err _ => false end = true) by (vm_compute; reflexivity).
  rewrite Hc in E. destruct (seal_forward _ _ _ _) as [ct tag]. apply negb_true_iff, bool_decide_eq_false in E.
  split; [|done]. destruct (aead_open _ _ _ _ _); [|done]. by destruct E.
Qed.

Lemma toy_draw_rng i : length (hd_rng (toy_draw i)) = 32%nat /\ is_bytes (hd_rng (toy_draw i)).
Proof. split; [reflexivity|apply is_bytes_replicate; unfold_ints; lia]. Qed.

Lemma toy_node_ok node : node ∈ toy_nodes -> node_ok node.
Proof.
  assert (Hall : Forall node_ok toy_nodes).
  { unfold toy_nodes. repeat apply Forall_cons_2; [..|apply Forall_nil; exact I].
    all: split; [split_and!; [vm_compute; reflexivity|apply str_bytes|apply (bool_decide_unpack _); vm_compute; exact I]|unfold_ints; cbn [toy_node pn_port]; lia]. }
  rewrite Forall_forall in Hall. apply Hall.
Qed.

Lemma toy_reaches (n : Z) (own : Z) (server : TlsServer) (node : ProxyNode) (pin : bytes) :
  node ∈ toy_nodes -> 0 <= n <= 3 -> own <> n + 20 ->
  is_ok (connect_guarded_with_profile pin Link.Strict toy_challenge server 3 1700000000) = true ->
  reaches (fun l => l) (toy_host n server) own node pin (n + 20).
Proof.
  intros Hin Hn Hown Hc. split; [reflexivity| |reflexivity|exact Hc| |unfold_ints; lia].
  - assert (Hall : Forall (fun node => is_ok (resolve_and_connect (fun l => l) ExitPolicy_default (pn_host node) (pn_port node)
      (Some (Some example_addrs)) (fun _ => ExitPolicy.Connected)).2 = true) toy_nodes) by (repeat constructor).
    rewrite Forall_forall in Hall. by apply Hall.
  - unfold next_circuit_id, toy_host. cbn [rh_env env_ids List.find]. by rewrite (proj2 (Z.eqb_neq (n + 20) 0)), (proj2 (Z.eqb_neq (n + 20) own)) by lia.
Qed.

Definition toy_hosts (s1 s2 s3 : TlsServer) : list RelayHost := [toy_host 1 s1; toy_host 2 s2; toy_host 3 s3].
Definition toy_crypts : list HopCryptState := [ring_keys 11; ring_keys 22; ring_keys 33].

Lemma toy_hosts_ok s1 s2 s3 i h : toy_hosts s1 s2 s3 !! i = Some h -> host_ok h (toy_draw i) /\ (i < 3)%nat.
Proof.
  intros Hi. destruct i as [|[|[|i]]]; [..|done]; apply Some_inj' in Hi as <-; (split; [apply toy_host_ok; auto|lia]).
Qed.

Lemma toy_ready : exists s1 s2 s3, telescope_ready (fun l => l) 7 (toy_hosts s1 s2 s3) toy_nodes toy_draw [7; 21; 22] toy_crypts.
Proof.
  destruct (toy_server 2) as [s1 L1]; [unfold_ints; lia|vm_compute; discriminate|].
  destruct (toy_server 3) as [s2 L2]; [unfold_ints; lia|vm_compute; discriminate|]. exists s1, s2, s2. split.
  - split_and!; try reflexivity; cbn [toy_hosts length]; lia.
  - split; [unfold_ints; lia|reflexivity].
  - split; apply (bool_decide_unpack _); vm_compute; exact I.
  - intros i h Hi. destruct (toy_hosts_ok _ _ _ _ _ Hi) as [Hh _]. split; [exact Hh|apply toy_draw_rng].
  - intros i node Hi. by apply toy_node_ok, (list_elem_of_lookup_2 _ i).
  - intros i h own next node nid Hh Ho Hn Hnode Hid. assert (Hin : node ∈ toy_nodes) by exact (list_elem_of_lookup_2 _ _ _ Hnode).
    destruct i as [|[|[|i]]]; [| |done..]; apply Some_inj' in Hh as <-; apply Some_inj' in Ho as <-; apply Some_inj' in Hn as <-; apply Some_inj' in Hid as <-.
    + exact (toy_reaches 1 7 _ _ _ Hin ltac:(lia) ltac:(lia) L1).
    + exact (toy_reaches 2 21 _ _ _ Hin ltac:(lia) ltac:(lia) L2).
  - intros i h link Hh Hl. destruct (toy_hosts_ok _ _ _ _ _ Hh) as [Ho Hi].
    destruct (ring_agreed 7 link i h (toy_draw i)) as (hop & created & Ha & Hk); [unfold_ints; lia|unfold MAX_HOPS; lia|exact Ho|].
    exists hop, created. split; [exact Ha|]. rewrite Hk.
    destruct i as [|[|[|i]]]; [..|lia]; apply Some_inj' in Hh as <-; vm_compute; reflexivity.
  - intros i next node Hi Hn Hnode cell before target Hc Hb. destruct i as [|[|[|i]]]; [lia|..|done].
    + destruct before as [|k before]; [destruct (seal_forward _ _ _ _); exact I|]. by destruct before.
    + apply Some_inj' in Hn as <-. apply Some_inj' in Hnode as <-. destruct before as [|k1 [|k2 before]]; [done| |by destruct before].
      injection Hb as <- <-. exact (toy_undisturbed cell Hc).
Qed.

Lemma telescope_builds_witness :
  exists s1 s2 s3 wires answers circuit stations,
    negotiate_telescopic_hops 7 toy_nodes (pin_of <$> toy_hosts s1 s2 s3) toy_draw (mkConn (mjoin answers) eof [] None eof)
      = (mkConn [] eof (mjoin wires) None eof, Ok circuit) /\
    network (fun l => l) (toy_hosts s1 s2 s3) wires = Some (stations, answers) /\
    circ_hops circuit = (fun st => hop_crypt (relay_hop st.2)) <$> stations.
Proof.
  destruct toy_ready as (s1 & s2 & s3 & Hr).
  destruct (telescope_builds (fun l => l) 7 (toy_hosts s1 s2 s3) toy_nodes toy_draw [7; 21; 22] toy_crypts eof eof Hr)
    as (wires & answers & circuit & mids & h & s & E1 & E2 & _ & _ & E3 & _).
  exists s1, s2, s3, wires, answers, circuit, (mids ++ [(h, s)]). exact (conj E1 (conj E2 E3)).
Defined.

Lemma telescope_authentic_witness :
  exists pins c c' circuit,
    negotiate_telescopic_hops 7 toy_nodes pins toy_draw c = (c', Ok circuit) /\ NoDup pins /\ length (circ_hops circuit) = length toy_nodes.
Proof.
  destruct toy_ready as (s1 & s2 & s3 & Hr).
  destruct (telescope_completes (fun l => l) 7 (toy_hosts s1 s2 s3) toy_nodes toy_draw [7; 21; 22] toy_crypts eof eof Hr)
    as (wires & answers & stations & circuit & mids & h & s & E1 & _).
  exists (pin_of <$> toy_hosts s1 s2 s3), (mkConn (mjoin answers) eof [] None eof), (mkConn [] eof (mjoin wires) None eof), circuit.
  destruct (telescope_authentic 7 toy_nodes (pin_of <$> toy_hosts s1 s2 s3) toy_draw _ _ circuit E1) as (_ & _ & Hn & _ & _ & Hl & _).
  exact (conj E1 (conj Hn Hl)).
Defined.
