(* ===== verification/Tunnel.v ===== *)
(** * One destination stream through a circuit (src/gateway/server.rs, [stream_onion_circuit])

    The client's end of a stream: the forward loop that turns what the
    application writes into DATA cells on a clock, and the backward loop that
    hands DATA cells to the application and acknowledges them. [Tunnel] holds
    the locals of both loops and the channel between them. [pair_step] runs it
    against the exit's end of [Relay]; cells travel in order and unchanged,
    which is what the delivery theorems of [Circuit] give. *)
From S2P Require Import Prelude Text Net Replay Circuit Cell Flow Identity ExitPolicy Handshake Transport Float LinkCover Link Session Sybil.
From S2P Require Import Consensus Node Pool Relay.

Record Tunnel := mkTunnel {
  tn_buffer : bytes;
  tn_upload_open : bool;
  tn_end_sent : bool;
  tn_pending_ack : option Z;
  tn_prefer_data : bool;
  tn_window : SendWindow;
  tn_received : Z;
  tn_acks : list Z;            (* the channel, at most [ACK_CHANNEL] values *)
  tn_unsent_ack : option Z;    (* a value the backward loop waits to send *)
}.

Definition ACK_CHANNEL : nat := 4.
Definition INPUT_SIZE : nat := Z.to_nat 8192.
Definition BUFFER_MAX : nat := Z.to_nat 65536.

#[global] Arguments INPUT_SIZE : simpl never.
#[global] Arguments BUFFER_MAX : simpl never.

Definition fresh_tunnel : Tunnel := mkTunnel [] true false None false SendWindow_default 0 [] None.

Definition set_buffer (self : Tunnel) (b : bytes) : Tunnel :=
  mkTunnel b (tn_upload_open self) (tn_end_sent self) (tn_pending_ack self) (tn_prefer_data self) (tn_window self) (tn_received self) (tn_acks self) (tn_unsent_ack self).
Definition set_ack (self : Tunnel) (a : option Z) (rest : list Z) : Tunnel :=
  mkTunnel (tn_buffer self) (tn_upload_open self) (tn_end_sent self) a (tn_prefer_data self) (tn_window self) (tn_received self) rest (tn_unsent_ack self).
Definition set_send_window (self : Tunnel) (w : SendWindow) : Tunnel :=
  mkTunnel (tn_buffer self) (tn_upload_open self) (tn_end_sent self) (tn_pending_ack self) (tn_prefer_data self) w (tn_received self) (tn_acks self) (tn_unsent_ack self).
Definition set_prefer_data (self : Tunnel) (b : bool) : Tunnel :=
  mkTunnel (tn_buffer self) (tn_upload_open self) (tn_end_sent self) (tn_pending_ack self) b (tn_window self) (tn_received self) (tn_acks self) (tn_unsent_ack self).
Definition set_upload (self : Tunnel) (upload_open end_sent : bool) : Tunnel :=
  mkTunnel (tn_buffer self) upload_open end_sent (tn_pending_ack self) (tn_prefer_data self) (tn_window self) (tn_received self) (tn_acks self) (tn_unsent_ack self).
Definition set_count (self : Tunnel) (received : Z) (acks : list Z) (unsent : option Z) : Tunnel :=
  mkTunnel (tn_buffer self) (tn_upload_open self) (tn_end_sent self) (tn_pending_ack self) (tn_prefer_data self) (tn_window self) received acks unsent.

Inductive AppEffect := ToApp (b : bytes) | CloseApp.
Inductive StreamEnd := Going | Finished | Failed (m : string).

#[global] Instance StreamEnd_eq_dec : EqDecision StreamEnd.
Proof. solve_decision. Defined.

(** ** The forward loop *)
Definition forward_ack (self : Tunnel) : Tunnel :=
  match tn_acks self with [] => self | ack :: rest => set_ack self (Some ack) rest end.

Definition forward_read (self : Tunnel) (input : bytes) : Tunnel :=
  if tn_upload_open self && (length (tn_buffer self) <=? BUFFER_MAX - INPUT_SIZE)%nat then
    match input with
    | [] => set_upload self false (tn_end_sent self)
    | _ => set_buffer self (tn_buffer self ++ input)
    end
  else self.

(** What the clock sends. A failed write ends the loop, so [end_sent] is only
    read again if the cell went out. *)
Definition forward_choice (self : Tunnel) : Tunnel * result string (CellCommand * bytes) :=
  let self := set_prefer_data self (negb (tn_prefer_data self)) in
  let empty := bool_decide (tn_buffer self = []) in
  let data_ready := negb empty && available (tn_window self) in
  if bool_decide (is_Some (tn_pending_ack self)) && (negb data_ready || negb (tn_prefer_data self)) then
    match tn_pending_ack self with
    | Some ack => (set_ack self None (tn_acks self), Ok (DataAck, be_bytes 4 ack))
    | None => (self, Err "Missing pending acknowledgement"%string)
    end
  else if negb (tn_upload_open self) && empty && negb (tn_end_sent self) then (set_upload self (tn_upload_open self) true, Ok (End_, []))
  else if data_ready then
    let payload := take PAYLOAD_SIZE (tn_buffer self) in
    let self := set_buffer self (drop PAYLOAD_SIZE (tn_buffer self)) in
    match window_sent (tn_window self) with
    | (w, Err m) => (set_send_window self w, Err m)
    | (w, Ok _) => (set_send_window self w, Ok (Data, payload))
    end
  else (self, Ok (Dummy, [])).

Section Client.
Context `{OnionPrimitives}.

Definition write_client_cell (rng : bytes) (circuit : OnionCircuit) (command : CellCommand) (payload : bytes) : OnionCircuit * result string bytes :=
  match OnionCell_new rng (circ_id circuit) 0 command 1 payload with
  | Err m => (circuit, Err m)
  | Ok cell =>
      match wrap_forward circuit cell with
      | (circuit, _, Ok wire) => (circuit, Ok wire)
      | (circuit, _, Err _) => (circuit, Err "wrap failed"%string)
      end
  end.

Definition forward_clock (rng : bytes) (circuit : OnionCircuit) (self : Tunnel) : OnionCircuit * Tunnel * result string bytes :=
  match forward_choice self with
  | (self, Err m) => (circuit, self, Err m)
  | (self, Ok (command, payload)) => let '(circuit, wire) := write_client_cell rng circuit command payload in (circuit, self, wire)
  end.

(** ** The backward loop *)

(** A cell that opened; [write_ok] is whether the application took the bytes. *)
Definition backward_message (self : Tunnel) (hop exit_index : Z) (command : CellCommand) (stream_id : Z) (payload : bytes) (write_ok : bool)
    : Tunnel * list AppEffect * StreamEnd :=
  if negb (hop =? exit_index) then (self, [], Failed "Stream response originated before the selected exit")
  else if negb (stream_id =? 1) && negb (bool_decide (command = Destroy)) then (self, [], Failed "Wrong onion stream identifier")
  else
    match command with
    | Data =>
        if negb write_ok then (self, [ToApp payload], Failed "write failed")
        else
          match checked_add u32_MAX (tn_received self) 1 with
          | None => (self, [ToApp payload], Failed "Receive data counter exhausted")
          | Some n => (set_count self n (tn_acks self) (Some n), [ToApp payload], Going)
          end
    | DataAck =>
        match acknowledge (tn_window self) payload with
        | (w, Err m) => (set_send_window self w, [], Failed m)
        | (w, Ok _) => (set_send_window self w, [], Going)
        end
    | Destroy => (self, [CloseApp], if write_ok then Finished else Failed "shutdown failed")
    | Dummy => (self, [], Going)
    | _ => (self, [], Failed "Unexpected backward onion command")
    end.

Definition backward_cell (circuit : OnionCircuit) (self : Tunnel) (raw : bytes) (write_ok : bool)
    : OnionCircuit * (Tunnel * list AppEffect * StreamEnd) :=
  let '(circuit, _, r) := unwrap_backward circuit raw in
  match r with
  | Err _ => (circuit, (self, [], Failed "unwrap failed"))
  | Ok (hop, cell) =>
      (circuit, backward_message self hop (Z.of_nat (hop_count circuit) - 1) (cell_command cell) (cell_stream_id cell)
                  (take (Z.to_nat (cell_length cell)) (cell_payload cell)) write_ok)
  end.

(** [ack_tx.send(received).await]: the value enters the channel when there is
    room. *)
Definition backward_ack (self : Tunnel) : Tunnel :=
  match tn_unsent_ack self with
  | Some ack => if (length (tn_acks self) <? ACK_CHANNEL)%nat then set_count self (tn_received self) (tn_acks self ++ [ack]) None else self
  | None => self
  end.
End Client.

(** ** Both ends *)
Notation Message := (CellCommand * bytes)%type.

(** [pr_up] and [pr_down] are the cells in flight; the four byte strings are
    what the application wrote and got, and what the destination got and
    wrote. *)
Record Pair := mkPair {
  pr_client : Tunnel;
  pr_exit : RelayConn;
  pr_up : list Message;
  pr_down : list Message;
  pr_app_in : bytes;
  pr_dest_out : bytes;
  pr_dest_in : bytes;
  pr_app_out : bytes;
  pr_left : bool;        (* the exit sent DESTROY and left *)
  pr_finished : bool;    (* the client's stream ended well *)
}.

Definition fresh_pair (s : RelayConn) : Pair := mkPair fresh_tunnel s [] [] [] [] [] [] false false.

Definition dest_bytes (effects : list Effect) : bytes := mjoin (effects ≫= fun e => match e with ToDestination b => [b] | _ => [] end).
Definition app_bytes (effects : list AppEffect) : bytes := mjoin (effects ≫= fun e => match e with ToApp b => [b] | _ => [] end).

(** Writes succeed; what does not is the end of the run. *)
Inductive pair_step (env : RelayEnv) : Pair -> Pair -> Prop :=
| step_forward_ack c s up down ai d_o di ao l f :
    pair_step env (mkPair c s up down ai d_o di ao l f) (mkPair (forward_ack c) s up down ai d_o di ao l f)
| step_backward_ack c s up down ai d_o di ao l f :
    pair_step env (mkPair c s up down ai d_o di ao l f) (mkPair (backward_ack c) s up down ai d_o di ao l f)
| step_read c s up down ai d_o di ao l f input :
    (length input <= INPUT_SIZE)%nat -> tn_upload_open c = true -> (length (tn_buffer c) <= BUFFER_MAX - INPUT_SIZE)%nat ->
    pair_step env (mkPair c s up down ai d_o di ao l f) (mkPair (forward_read c input) s up down (ai ++ input) d_o di ao l f)
| step_clock c c' s up down ai d_o di ao l f m :
    forward_choice c = (c', Ok m) ->
    pair_step env (mkPair c s up down ai d_o di ao l f) (mkPair c' s (up ++ [m]) down ai d_o di ao l f)
| step_exit_cell c s s' command payload up down ai d_o di ao f effects :
    exit_done (exit_side s) = false -> exit_message env s command payload = (s', effects, Continue) ->
    pair_step env (mkPair c s ((command, payload) :: up) down ai d_o di ao false f)
      (mkPair c s' up down ai (d_o ++ dest_bytes effects) di ao false f)
| step_exit_data c s s' up down ai d_o di ao f data effects :
    exit_done (exit_side s) = false -> pending_exit_data (exit_side s) = None -> destination_eof (exit_side s) = false ->
    (forall b, data = Some b -> (0 < length b <= PAYLOAD_SIZE)%nat) -> exit_data env s data = (s', effects, Continue) ->
    pair_step env (mkPair c s up down ai d_o di ao false f) (mkPair c s' up down ai d_o (di ++ default [] data) ao false f)
| step_exit_clock c s x up down ai d_o di ao f m :
    exit_done (exit_side s) = false -> exit_choice (exit_side s) = (x, Ok m) ->
    pair_step env (mkPair c s up down ai d_o di ao false f) (mkPair c (set_exit s x) up (down ++ [m]) ai d_o di ao false f)
| step_exit_finish c s up down ai d_o di ao f :
    exit_done (exit_side s) = true ->
    pair_step env (mkPair c s up down ai d_o di ao false f) (mkPair c s up (down ++ [(Destroy, [])]) ai d_o di ao true f)
| step_client_cell c c' s command payload up down ai d_o di ao l effects v hop :
    tn_unsent_ack c = None -> backward_message c hop hop command 1 payload true = (c', effects, v) -> (v = Going \/ v = Finished) ->
    pair_step env (mkPair c s up ((command, payload) :: down) ai d_o di ao l false)
      (mkPair c' s up down ai d_o di (ao ++ app_bytes effects) l (bool_decide (v = Finished))).

Inductive pair_reachable (s : RelayConn) : Pair -> Prop :=
| pair_start : pair_reachable s (fresh_pair s)
| pair_next env p p' : pair_reachable s p -> env_downstream_ok env = true -> pair_step env p p' -> pair_reachable s p'.

(** ** Cells in flight *)
Definition datas (l : list Message) : list bytes := l ≫= fun m => match m with (Data, p) => [p] | _ => [] end.
Definition ackvals (l : list Message) : list Z := l ≫= fun m => match m with (DataAck, p) => [from_be p] | _ => [] end.
Definition no_end (l : list Message) : Prop := Forall (fun m => m.1 <> End_) l.

(** A cell the forward loop sends, and one the exit sends. *)
Definition up_message (m : Message) : Prop :=
  match m with
  | (Data, _) | (Dummy, _) | (End_, _) => True
  | (DataAck, p) => exists v, p = be_bytes 4 v /\ 0 <= v <= u32_MAX
  | _ => False
  end.
Definition down_message (m : Message) : Prop :=
  match m with
  | (Data, _) | (Dummy, _) | (Destroy, _) => True
  | (DataAck, p) => exists v, p = be_bytes 4 v /\ 0 <= v <= u32_MAX
  | _ => False
  end.

(** Acknowledgements under way: strictly rising from [low], at most [high]. *)
Fixpoint rising (low : Z) (l : list Z) (high : Z) : Prop :=
  match l with [] => low <= high | v :: l => low < v /\ rising v l high end.

Lemma rising_le low l high : rising low l high -> low <= high.
Proof. revert low. induction l as [|v l IH]; cbn; [done|]. intros low [Hv Hr]. apply IH in Hr. lia. Qed.

Lemma rising_weaken low low' l high : low' <= low -> rising low l high -> rising low' l high.
Proof. destruct l; cbn; [lia|]. intros ? [? ?]. split; [lia|done]. Qed.

Lemma rising_drop low l1 l2 high : forall l, rising low (l1 ++ l ++ l2) high -> rising low (l1 ++ l2) high.
Proof.
  intros l. revert low. induction l1 as [|v l1 IH]; intros low; cbn.
  - revert low. induction l as [|v l IH]; intros low; cbn; [done|]. intros [Hv Hr]. apply IH. by apply (rising_weaken v); [lia|].
  - intros [Hv Hr]. split; [done|]. by apply IH.
Qed.

Lemma rising_push low l high high' : rising low l high -> high < high' -> rising low (l ++ [high']) high'.
Proof. revert low. induction l as [|v l IH]; intros low; cbn; [lia|]. intros [Hv Hr] Hh. split; [done|]. by apply IH. Qed.

Lemma rising_in low l high v : rising low l high -> v ∈ l -> low < v <= high.
Proof.
  revert low. induction l as [|w l IH]; intros low; cbn; [by intros _ ?%not_elem_of_nil|]. intros [Hv Hr] [->|Hin]%elem_of_cons.
  - apply rising_le in Hr. lia.
  - specialize (IH _ Hr Hin). lia.
Qed.

Lemma datas_app l1 l2 : datas (l1 ++ l2) = datas l1 ++ datas l2.
Proof. apply bind_app. Qed.
Lemma ackvals_app l1 l2 : ackvals (l1 ++ l2) = ackvals l1 ++ ackvals l2.
Proof. apply bind_app. Qed.

(** ** The invariant *)
Record pair_inv (p : Pair) : Prop := {
  pi_up : pr_dest_out p ++ mjoin (datas (pr_up p)) ++ tn_buffer (pr_client p) = pr_app_in p;
  pi_down : pr_app_out p ++ mjoin (datas (pr_down p)) ++ default [] (pending_exit_data (exit_side (pr_exit p))) = pr_dest_in p;
  pi_sent_up : sw_sent (tn_window (pr_client p)) = received_data (exit_side (pr_exit p)) + Z.of_nat (length (datas (pr_up p)));
  pi_sent_down : sw_sent (exit_window (exit_side (pr_exit p))) = tn_received (pr_client p) + Z.of_nat (length (datas (pr_down p)));
  pi_acks_down : rising (sw_acknowledged (tn_window (pr_client p)))
    (ackvals (pr_down p) ++ option_list (pending_exit_ack (exit_side (pr_exit p)))) (received_data (exit_side (pr_exit p)));
  pi_acks_up : rising (sw_acknowledged (exit_window (exit_side (pr_exit p))))
    (ackvals (pr_up p) ++ option_list (tn_pending_ack (pr_client p)) ++ tn_acks (pr_client p) ++ option_list (tn_unsent_ack (pr_client p)))
    (tn_received (pr_client p));
  pi_windows : window_wf (tn_window (pr_client p)) /\ window_wf (exit_window (exit_side (pr_exit p)));
  pi_shapes : Forall up_message (pr_up p) /\ Forall down_message (pr_down p);
  pi_no_end : tn_end_sent (pr_client p) = false -> no_end (pr_up p);
  pi_after_end : forall l1 b l2, pr_up p = l1 ++ (End_, b) :: l2 -> datas l2 = [] /\ no_end l2;
  pi_closed : upload_closed (exit_side (pr_exit p)) = true -> tn_end_sent (pr_client p) = true /\ datas (pr_up p) = [] /\ no_end (pr_up p);
  pi_end_sent : tn_end_sent (pr_client p) = true -> tn_upload_open (pr_client p) = false /\ tn_buffer (pr_client p) = [];
  pi_destroy : Exists (fun m => m.1 = Destroy) (pr_down p) -> pr_left p = true;
  pi_finished : pr_finished p = true -> pr_left p = true;
  pi_left : pr_left p = true -> datas (pr_down p) = [] /\ exit_done (exit_side (pr_exit p)) = true;
}.

Ltac fields :=
  cbn [pr_client pr_exit pr_up pr_down pr_app_in pr_dest_out pr_dest_in pr_app_out pr_left pr_finished
       tn_buffer tn_upload_open tn_end_sent tn_pending_ack tn_prefer_data tn_window tn_received tn_acks tn_unsent_ack
       set_buffer set_ack set_send_window set_prefer_data set_upload set_count
       exit_side set_exit upload_closed exit_window received_data destination_eof pending_exit_data pending_exit_ack
       set_window set_progress set_pending_data set_pending_ack set_received set_prefer close_upload set_eof] in *.

(** What the clock of the client sends. *)
Inductive forward_case (c : Tunnel) : Tunnel -> result string (CellCommand * bytes) -> Prop :=
| fwd_ack ack c' : tn_pending_ack c = Some ack -> c' = set_ack (set_prefer_data c (negb (tn_prefer_data c))) None (tn_acks c) ->
    forward_case c c' (Ok (DataAck, be_bytes 4 ack))
| fwd_end c' : tn_upload_open c = false -> tn_buffer c = [] -> tn_end_sent c = false ->
    c' = set_upload (set_prefer_data c (negb (tn_prefer_data c))) (tn_upload_open c) true -> forward_case c c' (Ok (End_, []))
| fwd_data w c' : tn_buffer c <> [] -> window_sent (tn_window c) = (w, Ok tt) ->
    c' = set_send_window (set_buffer (set_prefer_data c (negb (tn_prefer_data c))) (drop PAYLOAD_SIZE (tn_buffer c))) w ->
    forward_case c c' (Ok (Data, take PAYLOAD_SIZE (tn_buffer c)))
| fwd_full w c' m : available (tn_window c) = true -> window_sent (tn_window c) = (w, Err m) -> forward_case c c' (Err m)
| fwd_dummy c' : c' = set_prefer_data c (negb (tn_prefer_data c)) -> forward_case c c' (Ok (Dummy, [])).

Lemma forward_choice_case c c' r : forward_choice c = (c', r) -> forward_case c c' r.
Proof.
  unfold forward_choice. fields. destruct (tn_pending_ack c) as [ack|] eqn:Ep.
  - rewrite bool_decide_eq_true_2 by eauto. destruct (_ || _) eqn:Eo; cbn [andb].
    { intros [= <- <-]. by eapply fwd_ack. }
    apply orb_false_iff in Eo as [Ed%negb_false_iff _]. rewrite Ed. apply andb_true_iff in Ed as [Eb%negb_true_iff Ea]. rewrite Eb, andb_false_r. cbn [andb].
    apply bool_decide_eq_false in Eb. destruct (window_sent (tn_window c)) as [w [[]|m]] eqn:Ew; intros [= <- <-]; [by eapply fwd_data|by eapply fwd_full].
  - rewrite bool_decide_eq_false_2 by (by intros [? ?]). cbn [andb].
    destruct (negb (tn_upload_open c) && _ && _) eqn:Ee.
    { intros [= <- <-]. apply andb_true_iff in Ee as [[Eu%negb_true_iff Eb%bool_decide_eq_true]%andb_true_iff Es%negb_true_iff]. by apply fwd_end. }
    destruct (negb _ && available _) eqn:Ed; [|intros [= <- <-]; by apply fwd_dummy].
    apply andb_true_iff in Ed as [Eb%negb_true_iff%bool_decide_eq_false Ea].
    destruct (window_sent (tn_window c)) as [w [[]|m]] eqn:Ew; intros [= <- <-]; [by eapply fwd_data|by eapply fwd_full].
Qed.

(** What the clock of the exit sends. *)
Inductive exit_case (x : ExitSide) : ExitSide -> result RelayError (CellCommand * bytes) -> Prop :=
| ex_ack ack x' : pending_exit_ack x = Some ack -> x' = set_pending_ack (set_prefer x (negb (prefer_exit_data x))) None ->
    exit_case x x' (Ok (DataAck, be_bytes 4 ack))
| ex_data w b x' : pending_exit_data x = Some b -> window_sent (exit_window x) = (w, Ok tt) ->
    x' = set_pending_data (set_window (set_prefer x (negb (prefer_exit_data x))) w) None -> exit_case x x' (Ok (Data, b))
| ex_full w x' m : available (exit_window x) = true -> window_sent (exit_window x) = (w, Err m) -> exit_case x x' (Err (RelayMsg m))
| ex_dummy x' : x' = set_prefer x (negb (prefer_exit_data x)) -> exit_case x x' (Ok (Dummy, [])).

Lemma exit_choice_case x x' r : exit_choice x = (x', r) -> exit_case x x' r.
Proof.
  unfold exit_choice. fields. destruct (pending_exit_ack x) as [ack|] eqn:Ep; [rewrite bool_decide_eq_true_2 by eauto|rewrite bool_decide_eq_false_2 by (by intros [? ?])];
    cbn [andb].
  1: destruct (_ || _) eqn:Eo; [intros [= <- <-]; by eapply ex_ack|].
  all: destruct (bool_decide (is_Some (pending_exit_data x)) && available (exit_window x)) eqn:Ed; [|intros [= <- <-]; by apply ex_dummy].
  all: apply andb_true_iff in Ed as [[b Eb]%bool_decide_eq_true Ea]; destruct (window_sent (exit_window x)) as [w [[]|m]] eqn:Ew; rewrite ?Eb.
  all: intros [= <- <-]; (by eapply ex_data) || (by eapply ex_full).
Qed.

(** *** Every step keeps it *)
Lemma keep_forward_ack c s up down ai d_o di ao l f :
  pair_inv (mkPair c s up down ai d_o di ao l f) -> pair_inv (mkPair (forward_ack c) s up down ai d_o di ao l f).
Proof.
  intros Hi. unfold forward_ack. destruct (tn_acks c) as [|a rest] eqn:Ea; [done|]. destruct Hi; split; fields; try done. rewrite Ea in *.
  change (option_list (Some a) ++ rest ++ option_list (tn_unsent_ack c)) with ((a :: rest) ++ option_list (tn_unsent_ack c)). eapply rising_drop; eauto.
Qed.

Lemma keep_backward_ack c s up down ai d_o di ao l f :
  pair_inv (mkPair c s up down ai d_o di ao l f) -> pair_inv (mkPair (backward_ack c) s up down ai d_o di ao l f).
Proof.
  intros Hi. unfold backward_ack. destruct (tn_unsent_ack c) as [a|] eqn:Ea; [|done]. destruct (_ <? _)%nat; [|done].
  destruct Hi; split; fields; try done. rewrite Ea in *. cbn [option_list] in *. by rewrite app_nil_r.
Qed.

Lemma keep_read c s up down ai d_o di ao l f input :
  tn_upload_open c = true -> (length (tn_buffer c) <= BUFFER_MAX - INPUT_SIZE)%nat ->
  pair_inv (mkPair c s up down ai d_o di ao l f) -> pair_inv (mkPair (forward_read c input) s up down (ai ++ input) d_o di ao l f).
Proof.
  intros Ho Hb Hi. unfold forward_read. rewrite Ho, (proj2 (Nat.leb_le _ _)) by done. cbn [andb].
  assert (He : tn_end_sent c = false) by (destruct (tn_end_sent c) eqn:E; [destruct (pi_end_sent _ Hi E); fields; congruence|done]).
  destruct input as [|b input]; destruct Hi; split; fields; try done; try (by rewrite He).
  - by rewrite app_nil_r.
  - by rewrite <- pi_up0, !app_assoc.
Qed.

Lemma window_sent_ok w w' : window_wf w -> window_sent w = (w', Ok tt) ->
  window_wf w' /\ sw_sent w' = sw_sent w + 1 /\ sw_acknowledged w' = sw_acknowledged w.
Proof. intros Hw Es. split; [exact (window_step_wf w OpSend w' _ Hw Es)|exact (window_step_effect w OpSend w' _ Es)]. Qed.

(** The client sends a cell. *)
Lemma keep_sent_up c c' s up down ai d_o di ao l f m :
  pair_inv (mkPair c s up down ai d_o di ao l f) -> up_message m ->
  mjoin (datas [m]) ++ tn_buffer c' = tn_buffer c -> (tn_buffer c = [] -> datas [m] = []) ->
  window_wf (tn_window c') -> sw_sent (tn_window c') = sw_sent (tn_window c) + Z.of_nat (length (datas [m])) ->
  sw_acknowledged (tn_window c') = sw_acknowledged (tn_window c) -> tn_received c' = tn_received c ->
  ackvals [m] ++ option_list (tn_pending_ack c') ++ tn_acks c' = option_list (tn_pending_ack c) ++ tn_acks c -> tn_unsent_ack c' = tn_unsent_ack c ->
  tn_upload_open c' = tn_upload_open c ->
  (m.1 = End_ /\ tn_end_sent c = false /\ tn_end_sent c' = true /\ tn_upload_open c = false /\ tn_buffer c = []) \/
  (m.1 <> End_ /\ tn_end_sent c' = tn_end_sent c) ->
  pair_inv (mkPair c' s (up ++ [m]) down ai d_o di ao l f).
Proof.
  intros [] Hm Hb Hnil Hw Hs Ha Hr Hk Hu Ho He. fields. split; fields; try done.
  - rewrite datas_app, join_app, <- app_assoc, Hb. done.
  - rewrite Hs, pi_sent_up0, datas_app, length_app. lia.
  - by rewrite Hr.
  - by rewrite Ha.
  - rewrite ackvals_app, Hr, Hu, <- app_assoc, (app_assoc (option_list (tn_pending_ack c'))), (app_assoc (ackvals [m])), Hk, <- app_assoc. done.
  - tauto.
  - split; [|tauto]. apply Forall_app. split; [tauto|by repeat constructor].
  - intros Hf. destruct He as [(_ & _ & Ht & _)|[Hne He]]; [congruence|]. apply Forall_app. split; [apply pi_no_end0; congruence|by repeat constructor].
  - intros l1 b l2 E. destruct l2 as [|y l2 _] using rev_ind; [by split; [|constructor]|].
    rewrite app_comm_cons, app_assoc in E. apply app_inj_tail in E as [E <-]. destruct (pi_after_end0 _ _ _ E) as [D N].
    destruct (tn_end_sent c) eqn:Et.
    + destruct (pi_end_sent0 eq_refl) as [_ Hbn]. split; [rewrite datas_app, D; by apply Hnil|]. apply Forall_app. split; [done|].
      destruct He as [(_ & ? & _)|[Hne _]]; [done|by repeat constructor].
    + specialize (pi_no_end0 eq_refl). rewrite E in pi_no_end0. apply Forall_app in pi_no_end0 as [_ Hx]. by inversion_clear Hx.
  - intros Hc. destruct (pi_closed0 Hc) as (Ht & D & N). destruct (pi_end_sent0 Ht) as [_ Hbn].
    destruct He as [(_ & ? & _)|[Hne He]]; [congruence|]. rewrite datas_app, D, Hnil, He by done. split_and!; [done|done|].
    apply Forall_app. split; [done|by repeat constructor].
  - intros Ht. rewrite Ho. destruct He as [(_ & _ & _ & Hup & Hbn)|[Hne He]].
    + split; [done|]. rewrite Hbn in Hb. by apply app_nil in Hb as [_ ?].
    + rewrite He in Ht. destruct (pi_end_sent0 Ht) as [? Hbn]. split; [done|]. rewrite Hbn in Hb. by apply app_nil in Hb as [_ ?].
Qed.

Lemma keep_clock c c' s up down ai d_o di ao l f m :
  forward_choice c = (c', Ok m) -> pair_inv (mkPair c s up down ai d_o di ao l f) -> pair_inv (mkPair c' s (up ++ [m]) down ai d_o di ao l f).
Proof.
  intros Hc%forward_choice_case Hi. pose proof (pi_windows _ Hi) as [Hw Hw']. fields.
  remember (Ok m) as r eqn:Er. destruct Hc as [ack c' Hp ->|c' Hu Hb He ->|w c' Hb Ew ->| |c' ->]; [| | |done|]; apply Ok_inj in Er as <-.
  - assert (Hv : 0 <= ack <= u32_MAX).
    { destruct Hi. fields. assert (Hin : ack ∈ ackvals up ++ option_list (tn_pending_ack c) ++ tn_acks c ++ option_list (tn_unsent_ack c)) by (rewrite Hp; set_solver).
      apply (rising_in _ _ _ _ pi_acks_up0) in Hin. destruct Hw' as [? ? _]. lia. }
    eapply keep_sent_up; eauto; fields; try done; [by exists ack|cbn; lia|].
    rewrite Hp. cbn [option_list app ackvals mbind list_bind]. rewrite from_be_be_bytes; [done|]. change (256 ^ Z.of_nat 4) with 4294967296. unfold_ints. lia.
  - eapply keep_sent_up; eauto; fields; try done; [cbn; lia|by left].
  - destruct (window_sent_ok _ _ Hw Ew) as (W1 & W2 & W3).
    eapply keep_sent_up; eauto; fields; try done. cbn [datas mbind list_bind app mjoin list_join]. rewrite app_nil_r. by apply take_drop.
  - eapply keep_sent_up; eauto; fields; try done. cbn; lia.
Qed.

(** The exit sends a cell. *)
Lemma keep_sent_down c s x up down ai d_o di ao f m :
  pair_inv (mkPair c s up down ai d_o di ao false f) -> down_message m -> m.1 <> Destroy ->
  mjoin (datas [m]) ++ default [] (pending_exit_data x) = default [] (pending_exit_data (exit_side s)) ->
  window_wf (exit_window x) -> sw_sent (exit_window x) = sw_sent (exit_window (exit_side s)) + Z.of_nat (length (datas [m])) ->
  sw_acknowledged (exit_window x) = sw_acknowledged (exit_window (exit_side s)) -> received_data x = received_data (exit_side s) ->
  ackvals [m] ++ option_list (pending_exit_ack x) = option_list (pending_exit_ack (exit_side s)) -> upload_closed x = upload_closed (exit_side s) ->
  pair_inv (mkPair c (set_exit s x) up (down ++ [m]) ai d_o di ao false f).
Proof.
  intros [] Hm Hd Hb Hw Hs Ha Hr Hk Hu. fields. split; fields; try done.
  - rewrite datas_app, join_app, <- app_assoc, Hb. done.
  - by rewrite Hr.
  - rewrite Hs, pi_sent_down0, datas_app, length_app. lia.
  - rewrite ackvals_app, Hr, <- app_assoc, Hk. done.
  - by rewrite Ha.
  - tauto.
  - split; [tauto|]. apply Forall_app. split; [tauto|by repeat constructor].
  - by rewrite Hu.
  - intros [?|Hx]%Exists_app; [auto|]. inversion Hx as [? ? Hy|? ? Hy]; [done|inversion Hy].
Qed.

Lemma keep_exit_clock c s x up down ai d_o di ao f m :
  exit_choice (exit_side s) = (x, Ok m) -> pair_inv (mkPair c s up down ai d_o di ao false f) ->
  pair_inv (mkPair c (set_exit s x) up (down ++ [m]) ai d_o di ao false f).
Proof.
  intros Hc%exit_choice_case Hi. pose proof (pi_windows _ Hi) as [Hw Hw']. fields.
  remember (Ok m) as r eqn:Er. destruct Hc as [ack x Hp ->|w b x Hb Ew ->| |x ->]; [| |done|]; apply Ok_inj in Er as <-.
  - assert (Hv : 0 <= ack <= u32_MAX).
    { destruct Hi. fields. assert (Hin : ack ∈ ackvals down ++ option_list (pending_exit_ack (exit_side s))) by (rewrite Hp; set_solver).
      apply (rising_in _ _ _ _ pi_acks_down0) in Hin. destruct Hw as [? ? _]. lia. }
    eapply keep_sent_down; eauto; fields; try done; [by exists ack|cbn; lia|].
    rewrite Hp. cbn [option_list app ackvals mbind list_bind]. rewrite from_be_be_bytes; [done|]. change (256 ^ Z.of_nat 4) with 4294967296. unfold_ints. lia.
  - destruct (window_sent_ok _ _ Hw' Ew) as (W1 & W2 & W3). eapply keep_sent_down; eauto; fields; try done. rewrite Hb. cbn. by rewrite !app_nil_r.
  - eapply keep_sent_down; eauto; fields; try done. cbn; lia.
Qed.

Lemma keep_exit_data env c s s' up down ai d_o di ao f data effects :
  pending_exit_data (exit_side s) = None -> destination_eof (exit_side s) = false -> exit_data env s data = (s', effects, Continue) ->
  pair_inv (mkPair c s up down ai d_o di ao false f) -> pair_inv (mkPair c s' up down ai d_o (di ++ default [] data) ao false f).
Proof.
  intros Hp He. unfold exit_data. rewrite Hp, He, bool_decide_true by done. cbn [andb negb].
  destruct data as [b|]; intros [= <- _] []; fields; (split; fields; try done); rewrite Hp in *; cbn [default] in *; rewrite ?app_nil_r in *; try done.
  by rewrite <- pi_down0, app_assoc.
Qed.

Lemma exit_done_inv x : exit_done x = true -> destination_eof x = true /\ sw_sent (exit_window x) = sw_acknowledged (exit_window x) /\
  pending_exit_data x = None /\ pending_exit_ack x = None.
Proof.
  unfold exit_done, drained. intros [[[He Hd%Z.eqb_eq]%andb_true_iff Hp%bool_decide_eq_true]%andb_true_iff Ha%bool_decide_eq_true]%andb_true_iff. done.
Qed.

(** With everything acknowledged, nothing is under way. *)
Lemma done_drained c s up down ai d_o di ao l f :
  pair_inv (mkPair c s up down ai d_o di ao l f) -> exit_done (exit_side s) = true -> datas down = [].
Proof.
  intros [] (_ & Hs & _)%exit_done_inv. fields. apply rising_le in pi_acks_up0. apply nil_length_inv. lia.
Qed.

Lemma keep_exit_finish c s up down ai d_o di ao f :
  exit_done (exit_side s) = true -> pair_inv (mkPair c s up down ai d_o di ao false f) ->
  pair_inv (mkPair c s up (down ++ [(Destroy, [])]) ai d_o di ao true f).
Proof.
  intros Hd Hi. pose proof (done_drained _ _ _ _ _ _ _ _ _ _ Hi Hd) as Hn. destruct Hi. fields.
  assert (E1 : datas (down ++ [(Destroy, [])]) = datas down) by (rewrite datas_app; apply app_nil_r).
  assert (E2 : ackvals (down ++ [(Destroy, [])]) = ackvals down) by (rewrite ackvals_app; apply app_nil_r).
  split; fields; rewrite ?E1, ?E2; try done. split; [tauto|]. apply Forall_app. split; [tauto|by repeat constructor].
Qed.

Lemma acknowledge_taken w v : window_wf w -> sw_acknowledged w < v <= sw_sent w ->
  exists w', acknowledge w (be_bytes 4 v) = (w', Ok tt) /\ window_wf w' /\ sw_sent w' = sw_sent w /\ sw_acknowledged w' = v.
Proof.
  intros Hw Hv. assert (Hf : from_be (be_bytes 4 v) = v).
  { apply from_be_be_bytes. destruct Hw. change (256 ^ Z.of_nat 4) with 4294967296. unfold_ints. lia. }
  assert (E : acknowledge w (be_bytes 4 v) = (mkSendWindow (sw_sent w) v, Ok tt)).
  { unfold acknowledge. rewrite be_bytes_length, Hf, (proj2 (Z.leb_gt _ _)), (proj2 (Z.ltb_ge _ _)) by lia. done. }
  eexists. split_and!; [exact E|exact (window_step_wf w (OpAck (be_bytes 4 v)) _ _ Hw E)|done|done].
Qed.

Lemma ack_head p (l : list Message) : ackvals ((DataAck, p) :: l) = from_be p :: ackvals l.
Proof. done. Qed.
Lemma data_head p (l : list Message) : datas ((Data, p) :: l) = p :: datas l.
Proof. done. Qed.

(** The exit takes every cell of the client. *)
Lemma exit_takes env c s command payload up down ai d_o di ao f :
  env_downstream_ok env = true -> pair_inv (mkPair c s ((command, payload) :: up) down ai d_o di ao false f) ->
  exists s' effects, exit_message env s command payload = (s', effects, Continue) /\
    pair_inv (mkPair c s' up down ai (d_o ++ dest_bytes effects) di ao false f).
Proof.
  intros Ho Hi. pose proof (pi_shapes _ Hi) as [Hu%Forall_cons _]. destruct Hu as [Hm Hup]. fields.
  assert (Htail : forall l1 b l2, up = l1 ++ (End_, b) :: l2 -> datas l2 = [] /\ no_end l2).
  { intros l1 b l2 ->. apply (pi_after_end _ Hi ((command, payload) :: l1) b l2). done. }
  assert (Hne : tn_end_sent c = false -> no_end up) by (intros Hf; pose proof (pi_no_end _ Hi Hf) as Hx; by apply Forall_cons in Hx as [_ ?]).
  pose proof (pi_windows _ Hi) as [Hw Hw']. destruct command; cbn [up_message] in Hm; try done; cbn [exit_message].
  - destruct (upload_closed (exit_side s)) eqn:Ec; [by destruct (pi_closed _ Hi Ec) as (_ & ? & _)|]. fields. rewrite Ho. cbn [negb].
    destruct Hi. fields. rewrite data_head in *. cbn [length mjoin list_join] in *. unfold checked_add.
    rewrite (proj2 (Z.leb_le _ _)) by (destruct Hw; lia). eexists _, _. split; [reflexivity|].
    split; fields; try done.
    + cbn [dest_bytes mbind list_bind app mjoin list_join]. by rewrite app_nil_r, <- !app_assoc in *.
    + lia.
    + cbn [option_list]. apply (rising_push _ _ (received_data (exit_side s))); [|lia]. rewrite <- (app_nil_r (ackvals down)).
      apply (rising_drop _ _ _ _ (option_list (pending_exit_ack (exit_side s)))). by rewrite app_nil_r.
    + split; [done|tauto].
    + intros Hc. congruence.
  - destruct Hm as (v & -> & Hv). destruct Hi. fields. rewrite ack_head, from_be_be_bytes in pi_acks_up0 by (change (256 ^ Z.of_nat 4) with 4294967296; unfold_ints; lia).
    cbn [app rising] in pi_acks_up0. destruct pi_acks_up0 as [Hlt Hr]. pose proof (rising_le _ _ _ Hr) as Hle.
    destruct (acknowledge_taken _ v Hw' ltac:(lia)) as (w' & -> & W1 & W2 & W3). eexists _, _. split; [reflexivity|].
    split; fields; try done; rewrite ?W2, ?W3; try done; [by rewrite app_nil_r|split; [done|tauto]|].
    intros Hc. destruct (pi_closed0 Hc) as (? & ? & Hx). apply Forall_cons in Hx as [_ ?]. done.
  - eexists _, _. split; [reflexivity|]. destruct Hi. fields. split; fields; try done; [by rewrite app_nil_r|split; [done|tauto]|].
    intros Hc. destruct (pi_closed0 Hc) as (? & ? & Hx). apply Forall_cons in Hx as [_ ?]. done.
  - destruct (upload_closed (exit_side s)) eqn:Ec.
    { destruct (pi_closed _ Hi Ec) as (_ & _ & Hx). fields. apply Forall_cons in Hx as [Hx _]. done. }
    rewrite Ho. eexists _, _. split; [reflexivity|]. destruct (pi_after_end _ Hi [] payload up eq_refl) as [D N].
    assert (Ht : tn_end_sent c = true).
    { destruct (tn_end_sent c) eqn:Et; [done|]. pose proof (pi_no_end _ Hi Et) as Hx. fields. apply Forall_cons in Hx as [Hx _]. done. }
    destruct Hi. fields. split; fields; try done; [by rewrite app_nil_r|split; [done|tauto]].
Qed.

(** The client takes every cell of the exit. *)
Lemma client_takes c s command payload up down ai d_o di ao l hop :
  tn_unsent_ack c = None -> pair_inv (mkPair c s up ((command, payload) :: down) ai d_o di ao l false) ->
  exists c' effects v, backward_message c hop hop command 1 payload true = (c', effects, v) /\ (v = Going \/ v = Finished) /\
    pair_inv (mkPair c' s up down ai d_o di (ao ++ app_bytes effects) l (bool_decide (v = Finished))).
Proof.
  intros Hu Hi. pose proof (pi_shapes _ Hi) as [_ Hd%Forall_cons]. destruct Hd as [Hm Hdown]. pose proof (pi_windows _ Hi) as [Hw Hw']. fields.
  unfold backward_message. rewrite Z.eqb_refl. cbn [negb]. destruct command; cbn [down_message] in Hm; try done.
  all: cbn [negb andb]; rewrite ?andb_false_l.
  - eexists _, _, _. split; [reflexivity|]. split; [by right|]. rewrite bool_decide_true by done. destruct Hi. fields.
    assert (Hl : l = true) by (apply pi_destroy0; by left). split; fields; try done; [by rewrite app_nil_r|split; [tauto|done]].
  - destruct Hi. fields. rewrite data_head in *. cbn [length mjoin list_join] in *. unfold checked_add. rewrite (proj2 (Z.leb_le _ _)) by (destruct Hw'; lia).
    eexists _, _, _. split; [reflexivity|]. split; [by left|]. rewrite bool_decide_false by done. split; fields; try done.
    + cbn [app_bytes mbind list_bind app mjoin list_join]. by rewrite app_nil_r, <- !app_assoc in *.
    + lia.
    + rewrite Hu in pi_acks_up0. cbn [option_list] in *. rewrite app_nil_r in pi_acks_up0. rewrite !app_assoc in *. by apply (rising_push _ _ (tn_received c)); [|lia].
    + split; [tauto|done].
    + intros Hx. apply pi_destroy0. by right.
    + intros Hl. by destruct (pi_left0 Hl) as [? _].
  - destruct Hm as (v & -> & Hv). destruct Hi. fields. rewrite ack_head, from_be_be_bytes in pi_acks_down0 by (change (256 ^ Z.of_nat 4) with 4294967296; unfold_ints; lia).
    cbn [app rising] in pi_acks_down0. destruct pi_acks_down0 as [Hlt Hr]. pose proof (rising_le _ _ _ Hr) as Hle.
    destruct (acknowledge_taken _ v Hw ltac:(lia)) as (w' & -> & W1 & W2 & W3). eexists _, _, _. split; [reflexivity|]. split; [by left|].
    rewrite bool_decide_false by done. split; fields; try done; rewrite ?W2, ?W3; try done; [by rewrite app_nil_r|split; [tauto|done]|].
    intros Hx. apply pi_destroy0. by right.
  - eexists _, _, _. split; [reflexivity|]. split; [by left|]. rewrite bool_decide_false by done. destruct Hi. fields.
    split; fields; try done; [by rewrite app_nil_r|split; [tauto|done]|]. intros Hx. apply pi_destroy0. by right.
Qed.

Lemma pair_step_inv env p p' : env_downstream_ok env = true -> pair_step env p p' -> pair_inv p -> pair_inv p'.
Proof.
  intros Ho Hs Hi. destruct Hs as [| | | |c s s' command payload up down ai d_o di ao f effects _ Em| | | |c c' s command payload up down ai d_o di ao l effects v hop Hu Em _].
  - by apply keep_forward_ack.
  - by apply keep_backward_ack.
  - by apply keep_read.
  - by eapply keep_clock.
  - destruct (exit_takes _ _ _ _ _ _ _ _ _ _ _ _ Ho Hi) as (s0 & e0 & E & Hn). rewrite Em in E. injection E as <- <-. exact Hn.
  - by eapply keep_exit_data.
  - by apply keep_exit_clock.
  - by apply keep_exit_finish.
  - destruct (client_takes _ _ _ _ _ _ _ _ _ _ _ hop Hu Hi) as (c0 & e0 & v0 & E & _ & Hn). rewrite Em in E. injection E as <- <- <-. exact Hn.
Qed.

Lemma pair_start_inv s now : exit_side s = fresh_exit now -> pair_inv (fresh_pair s).
Proof.
  intros Hx. split; unfold fresh_pair, fresh_tunnel; fields; rewrite ?Hx; try done; cbn.
  - intros _. constructor.
  - intros l1 b l2 E. by destruct l1.
  - intros He. inversion He.
Qed.

Lemma pair_reachable_inv s now p : exit_side s = fresh_exit now -> pair_reachable s p -> pair_inv p.
Proof. intros Hx. induction 1 as [|env p p' _ IH Ho Hs]; [by eapply pair_start_inv|by eapply pair_step_inv]. Qed.

(** C9: a stream through a circuit is faithful. However the clocks, the
    application, the destination and the cells in flight interleave, the
    destination has received a prefix of what the application wrote and the
    application a prefix of what the destination sent; the exit closes the
    destination only after everything was delivered and the application had
    finished; the client reports a good end only when the destination closed
    and every byte of it was delivered; and never more than 32 data cells are
    under way in either direction. *)
Theorem tunnel_faithful (s : RelayConn) (now : Z) (p : Pair) :
  exit_side s = fresh_exit now -> pair_reachable s p ->
  pr_dest_out p `prefix_of` pr_app_in p /\ pr_app_out p `prefix_of` pr_dest_in p /\
  (upload_closed (exit_side (pr_exit p)) = true -> pr_dest_out p = pr_app_in p /\ tn_upload_open (pr_client p) = false) /\
  (pr_finished p = true -> pr_app_out p = pr_dest_in p /\ destination_eof (exit_side (pr_exit p)) = true) /\
  (length (datas (pr_up p)) <= 32)%nat /\ (length (datas (pr_down p)) <= 32)%nat.
Proof.
  intros Hx Hr. destruct (pair_reachable_inv _ _ _ Hx Hr). destruct pi_windows0 as [[? ? Hc] [? ? Hc']]. unfold WINDOW_CELLS in *.
  apply rising_le in pi_acks_down0, pi_acks_up0. split_and!.
  - eexists. by rewrite <- pi_up0.
  - eexists. by rewrite <- pi_down0.
  - intros Hu. destruct (pi_closed0 Hu) as (He & Hd & _). destruct (pi_end_sent0 He) as [Ho Hb]. rewrite Hd, Hb in pi_up0. by rewrite app_nil_r in pi_up0.
  - intros Hf. destruct (pi_left0 (pi_finished0 Hf)) as [Hd (He & _ & Hp & _)%exit_done_inv]. rewrite Hd, Hp in pi_down0. by rewrite app_nil_r in pi_down0.
  - lia.
  - lia.
Qed.

(** C10: the two ends of a stream never reject each other. In every state they
    can reach, the exit takes the next cell of the client and the client the
    next cell of the exit: acknowledgements arrive in rising order and never
    ahead of the data, no data follows the end of a direction, no counter runs
    over. Their clocks always find a cell to send, until 2^32 - 1 data cells
    have been sent. *)
Theorem tunnel_never_fails (s : RelayConn) (now : Z) (p : Pair) (env : RelayEnv) (hop : Z) :
  exit_side s = fresh_exit now -> pair_reachable s p -> env_downstream_ok env = true ->
  (forall command payload up, pr_up p = (command, payload) :: up -> pr_left p = false ->
     exists s' effects, exit_message env (pr_exit p) command payload = (s', effects, Continue)) /\
  (forall command payload down, pr_down p = (command, payload) :: down -> pr_finished p = false -> tn_unsent_ack (pr_client p) = None ->
     exists c' effects v, backward_message (pr_client p) hop hop command 1 payload true = (c', effects, v) /\ (v = Going \/ v = Finished)) /\
  (forall c' m, forward_choice (pr_client p) = (c', Err m) -> sw_sent (tn_window (pr_client p)) = u32_MAX) /\
  (forall x' e, exit_choice (exit_side (pr_exit p)) = (x', Err e) -> sw_sent (exit_window (exit_side (pr_exit p))) = u32_MAX).
Proof.
  intros Hx Hr Ho. pose proof (pair_reachable_inv _ _ _ Hx Hr) as Hi. pose proof (pi_windows _ Hi) as [Hw Hw'].
  assert (Hfull : forall w w' m, window_wf w -> available w = true -> window_sent w = (w', Err m) -> sw_sent w = u32_MAX).
  { intros w w' m [_ Hmax _] Ha. unfold window_sent, checked_add. rewrite Ha. cbn [negb]. destruct (Z.leb_spec (sw_sent w + 1) u32_MAX); [done|]. intros _. lia. }
  destruct p as [c x up down ai d_o di ao l f]. fields. split_and!.
  - intros command payload up' -> ->. destruct (exit_takes _ _ _ _ _ _ _ _ _ _ _ _ Ho Hi) as (s' & effects & E & _). eauto.
  - intros command payload down' -> -> Hu. destruct (client_takes _ _ _ _ _ _ _ _ _ _ _ hop Hu Hi) as (c' & effects & v & E & Hv & _). eauto 6.
  - intros c' m Hc%forward_choice_case. inversion Hc; subst. by eapply Hfull.
  - intros x' e Hc%exit_choice_case. inversion Hc; subst. by eapply Hfull.
Qed.

(** ** The cells of a stream on the wire *)
Section Wire.
Context `{OnionPrimitives} `{!OnionPrimitivesLaws} `{IdentityPrimitives} `{KexPrimitives} `{LinkPrimitives}.

(** The client's circuit ends at the exit [s], behind [relays]. *)
Record tunnel_path (circuit : OnionCircuit) (relays : list (RelayCircuitHop * Z)) (s : RelayConn) : Prop := {
  tp_wf : circuit_wf circuit;
  tp_id : is_u32 (circ_id circuit);
  tp_hops : circ_hops circuit = ((fun r => hop_crypt r.1) <$> relays) ++ [hop_crypt (relay_hop s)];
  tp_linked : linked (circ_id circuit) relays (hop_circuit_id (relay_hop s));
  tp_exit_id : is_u32 (hop_circuit_id (relay_hop s));
  tp_index : hop_index (relay_hop s) = Z.of_nat (length relays);
  tp_others : Forall (fun r => hop_index r.1 <> hop_index (relay_hop s)) relays;
}.

Lemma stream_cell_ok rng id command payload :
  length rng = 32%nat -> is_bytes rng -> is_u32 id -> is_bytes payload -> (length payload <= PAYLOAD_SIZE)%nat ->
  exists cell, OnionCell_new rng id 0 command 1 payload = Ok cell /\ cell_wf cell /\ cell_circuit_id cell = id /\ cell_command cell = command /\
    cell_stream_id cell = 1 /\ take (Z.to_nat (cell_length cell)) (cell_payload cell) = payload /\ 0 <= cell_length cell <= Z.of_nat PAYLOAD_SIZE.
Proof.
  intros Hr Hrb Hid Hb Hl. pose proof (OnionCell_new_ok rng id 0 command 1 _ Hl) as Hn. eexists. split; [exact Hn|].
  apply OnionCell_new_wf in Hn as Hw; [|done|done|done|unfold_ints; lia|unfold_ints; lia|done].
  split_and!; [exact Hw|done|done|done|cell_fields; by rewrite Nat2Z.id, take_app_length|cell_fields; lia|cell_fields; lia].
Qed.

(** The cells of a stream arrive as what was sent. A cell the client writes
    for the stream crosses the relays and the exit's loop handles exactly the
    command and bytes the client chose, provided no relay on the way takes it
    for its own; a cell the exit originates crosses the relays back and the
    client's loop handles exactly the command and bytes the exit chose. *)
Theorem tunnel_cells_arrive (circuit : OnionCircuit) (relays : list (RelayCircuitHop * Z)) (s : RelayConn) (self : Tunnel)
    (env : RelayEnv) (rng : bytes) (command : CellCommand) (payload : bytes) (ok : bool) (seq_back : Z) (w : ReplayWindow) :
  let seq := circ_sequence_no circuit in
  tunnel_path circuit relays s -> length rng = 32%nat -> is_bytes rng -> length (env_rng env) = 32%nat -> is_bytes (env_rng env) ->
  is_bytes payload -> (length payload <= PAYLOAD_SIZE)%nat -> seq < u32_MAX ->
  hop_expected_recv_seq (relay_hop s) <= seq <= hop_expected_recv_seq (relay_hop s) + MAX_SEQ_GAP ->
  (forall cell, OnionCell_new rng (circ_id circuit) 0 command 1 payload = Ok cell ->
     let '(ct, tag) := seal_forward (hop_crypt (relay_hop s)) (build_nonce 1 0 seq) (be_bytes 4 seq) (cell_text cell) in
     spurious_free (build_nonce 1 0 seq) (be_bytes 4 seq) ((fun r => hop_crypt r.1) <$> relays) (ct ++ tag)) ->
  0 <= hop_next_send_seq (relay_hop s) < u32_MAX ->
  pack_backward_seq (hop_index (relay_hop s)) (hop_next_send_seq (relay_hop s)) = Ok seq_back ->
  check_and_advance (circ_bwd_replay_windows circuit !!! length relays) seq_back = (w, Ok tt) ->
  (exists circuit' raw raw_exit n,
     write_client_cell rng circuit command payload = (circuit', Ok raw) /\ path_forward relays raw = Some raw_exit /\
     exit_cell env s (Some raw_exit) = exit_message env (set_hop s (set_expected_recv_seq (relay_hop s) n)) command payload) /\
  (exists s' raw raw_client circuit' hop,
     originate env s command 1 payload = (s', Ok raw) /\ path_backward relays raw = Some raw_client /\
     backward_cell circuit self raw_client ok = (circuit', backward_message self hop hop command 1 payload ok)).
Proof.
  intros seq [T1 T2 T3 T4 T5 T6 T7] Hr Hrb He Heb Hb Hl Hseq Hgap Hquiet Hnext Hpack Hwin. split.
  - destruct (stream_cell_ok rng (circ_id circuit) command payload Hr Hrb T2 Hb Hl) as (cell & Hn & Hw & Hi & Hc & _ & Hp & Hlen).
    destruct (forward_delivery circuit cell relays (relay_hop s) Hw T1 Hseq Hi T3 T4 T5 Hgap (Hquiet _ Hn)) as (raw & raw_exit & raw' & tag & W & F & P & Hparse).
    eexists _, raw, raw_exit, _. split_and!; [unfold write_client_cell; rewrite Hn, W; reflexivity|exact F|].
    unfold exit_cell. rewrite P, Hc. f_equal. rewrite (payload_of_parse _ _ _ Hparse Hlen). exact Hp.
  - destruct (stream_cell_ok (env_rng env) (hop_circuit_id (relay_hop s)) command payload He Heb T5 Hb Hl) as (cell & Hn & Hw & Hi & Hc & Hs & Hp & Hlen).
    destruct (backward_delivery circuit cell relays (relay_hop s) [] seq_back w Hw T1 T2 T3 T4 Hi T6 Hnext T7 Hpack Hwin)
      as (raw & raw_client & raw' & tag & O & B & _ & U).
    eexists _, raw, raw_client, _, _. split_and!; [unfold originate; rewrite Hn, O; reflexivity|exact B|].
    unfold backward_cell. rewrite U. unfold hop_count. cbn [circ_hops stamp cell_command cell_stream_id cell_length cell_payload]. rewrite Hc, Hs, Hp, T6, T3.
    rewrite length_app, length_fmap. cbn [length]. replace (Z.of_nat (length relays + 1) - 1) with (Z.of_nat (length relays)) by lia. reflexivity.
Qed.
End Wire.

(** ** Witnesses *)

(** A relay that has just connected to a destination. *)
Definition toy_exit_conn (hop : RelayCircuitHop) : RelayConn := set_downstream (fresh_relay hop 0) (mkDownstream true true false true).

(** The application writes two bytes and closes, and the destination gets them. *)
Lemma toy_pair_runs : exists p, pair_reachable (toy_exit_conn toy_exit) p /\ pr_dest_out p = [1; 2] /\ upload_closed (exit_side (pr_exit p)) = true.
Proof.
  pose proof (pair_start (toy_exit_conn toy_exit)) as R. unfold fresh_pair in R.
  assert (Hin : (length [1; 2] <= INPUT_SIZE)%nat /\ (length (@nil Z) <= BUFFER_MAX - INPUT_SIZE)%nat /\ (length (@nil Z) <= INPUT_SIZE)%nat)
    by (unfold INPUT_SIZE, BUFFER_MAX; cbn [length]; lia). destruct Hin as (I1 & I2 & I3).
  eapply (pair_next _ toy_relay_env) in R; [|reflexivity|apply (step_read _ _ _ _ _ _ _ _ _ _ _ [1; 2]); [exact I1|reflexivity|exact I2]]. vm_compute in R.
  eapply (pair_next _ toy_relay_env) in R; [|reflexivity|eapply step_clock; vm_compute; reflexivity]. vm_compute in R.
  eapply (pair_next _ toy_relay_env) in R; [|reflexivity|eapply step_exit_cell; vm_compute; reflexivity]. vm_compute in R.
  eapply (pair_next _ toy_relay_env) in R; [|reflexivity|apply (step_read _ _ _ _ _ _ _ _ _ _ _ []); [exact I3|reflexivity|exact I2]]. vm_compute in R.
  eapply (pair_next _ toy_relay_env) in R; [|reflexivity|eapply step_clock; vm_compute; reflexivity]. vm_compute in R.
  eapply (pair_next _ toy_relay_env) in R; [|reflexivity|eapply step_exit_cell; vm_compute; reflexivity].
  eexists. split; [exact R|]. split; reflexivity.
Qed.

Lemma tunnel_faithful_witness :
  exists p, pair_reachable (toy_exit_conn toy_exit) p /\ pr_dest_out p = [1; 2] /\ pr_dest_out p = pr_app_in p.
Proof.
  destruct toy_pair_runs as (p & R & Hd & Hu). exists p. split; [exact R|]. split; [exact Hd|].
  destruct (tunnel_faithful (toy_exit_conn toy_exit) 0 p eq_refl R) as (_ & _ & Hc & _). exact (proj1 (Hc Hu)).
Defined.

Lemma tunnel_never_fails_witness :
  exists p, pair_reachable (toy_exit_conn toy_exit) p /\ pr_dest_out p = [1; 2] /\
    forall c' m, forward_choice (pr_client p) = (c', Err m) -> sw_sent (tn_window (pr_client p)) = u32_MAX.
Proof.
  destruct toy_pair_runs as (p & R & Hd & _). exists p. split; [exact R|]. split; [exact Hd|].
  destruct (tunnel_never_fails (toy_exit_conn toy_exit) 0 p toy_relay_env 2 eq_refl R eq_refl) as (_ & _ & Hf & _). exact Hf.
Defined.

#[local] Existing Instance toy_primitives.
#[local] Existing Instance toy_laws.

Lemma toy_tunnel_path : tunnel_path toy_circuit toy_relays (toy_exit_conn toy_exit).
Proof.
  split.
  - exact toy_circuit_wf.
  - change (circ_id toy_circuit) with 7. unfold_ints. lia.
  - reflexivity.
  - cbn. change (circ_id toy_circuit) with 7. unfold_ints. lia.
  - change (hop_circuit_id (relay_hop (toy_exit_conn toy_exit))) with 30. unfold_ints. lia.
  - reflexivity.
  - repeat constructor; cbn; lia.
Qed.

Lemma toy_stream_undisturbed cell :
  OnionCell_new (replicate 32 0) 7 0 Data 1 [1; 2] = Ok cell ->
  let '(ct, tag) := seal_forward (hop_crypt toy_exit) (build_nonce 1 0 1) (be_bytes 4 1) (cell_text cell) in
  spurious_free (build_nonce 1 0 1) (be_bytes 4 1) ((fun r => hop_crypt r.1) <$> toy_relays) (ct ++ tag).
Proof. intros Hc. apply Ok_inj in Hc as <-. vm_compute. repeat split. Qed.

Lemma tunnel_cells_arrive_witness :
  exists circuit' raw raw_exit n,
    write_client_cell (replicate 32 0) toy_circuit Data [1; 2] = (circuit', Ok raw) /\ path_forward toy_relays raw = Some raw_exit /\
    exit_cell toy_relay_env (toy_exit_conn toy_exit) (Some raw_exit)
      = exit_message toy_relay_env (set_hop (toy_exit_conn toy_exit) (set_expected_recv_seq toy_exit n)) Data [1; 2].
Proof.
  apply (tunnel_cells_arrive toy_circuit toy_relays (toy_exit_conn toy_exit) fresh_tunnel toy_relay_env (replicate 32 0) Data [1; 2] true
    1073741825 (mkReplayWindow 1 2) toy_tunnel_path).
  - reflexivity.
  - apply is_bytes_replicate. unfold_ints. lia.
  - reflexivity.
  - apply is_bytes_replicate. unfold_ints. lia.
  - repeat constructor; unfold_ints; lia.
  - cbn [length]. sizes.
  - reflexivity.
  - change (circ_sequence_no toy_circuit) with 1. cbn. unfold MAX_SEQ_GAP. lia.
  - exact toy_stream_undisturbed.
  - cbn. unfold_ints. lia.
  - reflexivity.
  - reflexivity.
Defined.
