(* ===== verification/Socks.v ===== *)
(** * SOCKS5 front end and proxy chaining (src/gateway/chain.rs, src/kernel/dns.rs)

    The request a local client makes, read from its socket, and the request
    the gateway makes of a proxy, written to another. Both run in the state and
    error monad of [Transport] over a socket. Names travel as they were given:
    nothing here resolves them. *)
From S2P Require Import Prelude Text Net Identity Transport.

(** ** Requests (dns.rs) *)
Inductive TargetAddress := IPv4 (octets : bytes) | Domain (name : bytes) | IPv6 (octets : bytes).

#[global] Instance TargetAddress_eq_dec : EqDecision TargetAddress.
Proof. solve_decision. Defined.

Definition ADDR_TYPE_IPV4 : Z := 1.
Definition ADDR_TYPE_DOMAIN : Z := 3.
Definition ADDR_TYPE_IPV6 : Z := 4.
Definition CMD_CONNECT : Z := 1.

Definition is_ascii_control (b : Z) : bool := in_range 0 31 b || (b =? 127).
(** Space, tab, line feed, form feed, carriage return. *)
Definition is_ascii_whitespace (b : Z) : bool := (b =? 32) || (b =? 9) || (b =? 10) || (b =? 12) || (b =? 13).

Definition validate_domain (domain : bytes) : result IoError unit :=
  if bool_decide (domain = []) || (255 <? length domain)%nat || negb (is_ascii domain)
     || existsb (fun b => is_ascii_control b || is_ascii_whitespace b) domain
  then Err (mkIoError InvalidInput "Invalid SOCKS5 domain") else Ok tt.

Definition build_socks5h_connect_frame (target : TargetAddress) (port : Z) (block_ipv6 : bool) : result IoError bytes :=
  if port =? 0 then Err (mkIoError InvalidInput "Zero destination port")
  else
    let head := [5; CMD_CONNECT; 0] in
    let? address :=
      match target with
      | Domain domain => let? _ := validate_domain domain in Ok (ADDR_TYPE_DOMAIN :: Z.of_nat (length domain) mod 256 :: domain)
      | IPv4 ip => Ok (ADDR_TYPE_IPV4 :: ip)
      | IPv6 ip =>
          if block_ipv6 then Err (mkIoError PermissionDenied "IPv6 target blocked by AnonGuard policy to prevent dual-stack leak")
          else Ok (ADDR_TYPE_IPV6 :: ip)
      end in
    Ok (head ++ address ++ be_bytes 2 port).

(** ** Asking a proxy (chain.rs) *)
Definition target_address (target_host : bytes) : TargetAddress :=
  match parse_ipv4 target_host with
  | Some ip => IPv4 (v4_octets ip)
  | None => match parse_ipv6 target_host with Some ip => IPv6 (v6_octets ip) | None => Domain target_host end
  end.

Definition read_u8 : M Conn Z := let* b := read_exact 1 in ret (b !!! 0%nat).

(** The address a proxy bound is skipped. *)
Definition skip_bound (atyp : Z) : M Conn unit :=
  if atyp =? 1 then let* _ := read_exact (4 + 2) in ret tt
  else if atyp =? 4 then let* _ := read_exact (16 + 2) in ret tt
  else if atyp =? 3 then
    let* len := read_u8 in
    let* _ := ensure (negb (len =? 0)) (mkIoError InvalidData "Empty bound domain") in
    let* _ := read_exact (Z.to_nat len + 2) in ret tt
  else fail (mkIoError InvalidData "Unknown ATYP in SOCKS5 response").

Definition socks5_connect_through (target_host : bytes) (target_port : Z) (block_ipv6 : bool) : M Conn unit :=
  let* _ := write_all [5; 1; 0] in
  let* auth_resp := read_exact 2 in
  let* _ := ensure ((auth_resp !!! 0%nat =? 5) && (auth_resp !!! 1%nat =? 0)) (mkIoError ConnectionRefused "SOCKS5 proxy rejected no-auth") in
  let* req := of_result (build_socks5h_connect_frame (target_address target_host) target_port block_ipv6) in
  let* _ := write_all req in
  let* resp_header := read_exact 4 in
  let* _ := ensure ((resp_header !!! 0%nat =? 5) && (resp_header !!! 1%nat =? 0) && (resp_header !!! 2%nat =? 0))
              (mkIoError ConnectionRefused "SOCKS5 connection failed with reply code") in
  skip_bound (resp_header !!! 3%nat).

(** ** Serving a client (chain.rs) *)
Definition v6_from_octets (l : bytes) : Ipv6Addr :=
  mkIpv6 (from_be (slice 0 2 l)) (from_be (slice 2 4 l)) (from_be (slice 4 6 l)) (from_be (slice 6 8 l))
         (from_be (slice 8 10 l)) (from_be (slice 10 12 l)) (from_be (slice 12 14 l)) (from_be (slice 14 16 l)).

Definition v4_from_octets (l : bytes) : Ipv4Addr := mkIpv4 (l !!! 0%nat) (l !!! 1%nat) (l !!! 2%nat) (l !!! 3%nat).

Section Server.
Context `{IdentityPrimitives}.

(** What the digest of a privacy context is taken of. *)
Definition context_preimage (username password : bytes) : bytes :=
  str "AnonGuard-local-context-v1" ++ [Z.of_nat (length username) mod 256] ++ username ++ [Z.of_nat (length password) mod 256] ++ password.

Definition read_context : M Conn bytes :=
  let* _ := write_all [5; 2] in
  let* version := read_u8 in
  let* len := read_u8 in
  let* _ := ensure ((version =? 1) && negb (len =? 0)) (mkIoError InvalidData "Invalid privacy context framing") in
  let* username := read_exact (Z.to_nat len) in
  let* len := read_u8 in
  let* _ := ensure (negb (len =? 0)) (mkIoError InvalidData "Empty privacy context password") in
  let* password := read_exact (Z.to_nat len) in
  let* _ := write_all [1; 0] in
  ret (sha256 (context_preimage username password)).

Definition read_host (atyp : Z) : M Conn bytes :=
  if atyp =? 1 then let* addr := read_exact 4 in ret (display_v4 (v4_from_octets addr))
  else if atyp =? 4 then let* addr := read_exact 16 in ret (display_v6 (v6_from_octets addr))
  else if atyp =? 3 then
    let* len := read_u8 in
    let* domain := read_exact (Z.to_nat len) in
    let* host := some_or (from_utf8 domain) (mkIoError InvalidData "Invalid domain encoding") in
    let* _ := of_result (validate_domain host) in
    ret host
  else fail (mkIoError InvalidData "Unknown ATYP").

(** The method the client is told, and its label where it may have one. *)
Definition negotiate_method (context_mode : bool) (methods : bytes) : M Conn (option bytes) :=
  let none := bool_decide (0 ∈ methods) in
  let labelled := context_mode && bool_decide (2 ∈ methods) in
  if negb (none || labelled) then
    let* _ := write_all [5; 255] in fail (mkIoError PermissionDenied "No supported authentication method")
  else if labelled then let* digest := read_context in ret (Some digest)
  else let* _ := write_all [5; 0] in ret None.

(** The second half of a request, once the client may make one. *)
Definition read_connect : M Conn (bytes * Z) :=
  let* req_header := read_exact 4 in
  let* _ := ensure ((req_header !!! 0%nat =? 5) && (req_header !!! 1%nat =? 1) && (req_header !!! 2%nat =? 0))
              (mkIoError Unsupported "Only CONNECT supported") in
  let* host := read_host (req_header !!! 3%nat) in
  let* port_buf := read_exact 2 in
  let port := Z.lor (Z.shiftl (port_buf !!! 0%nat) 8) (port_buf !!! 1%nat) in
  let* _ := ensure (negb (port =? 0)) (mkIoError InvalidInput "Zero destination port") in
  ret (host, port).

Definition read_socks5_request_context (context_mode : bool) : M Conn (bytes * Z * option bytes) :=
  let* auth_req := read_exact 2 in
  let* _ := ensure (auth_req !!! 0%nat =? 5) (mkIoError InvalidData "Not SOCKS5") in
  let* methods := read_exact (Z.to_nat (auth_req !!! 1%nat)) in
  let* context := negotiate_method context_mode methods in
  let* target := read_connect in
  ret (target.1, target.2, context).

Definition read_socks5_request : M Conn (bytes * Z) :=
  let* target := read_socks5_request_context false in ret target.1.

Definition socks5_reply (rep : Z) : bytes := [5; rep; 0; 1; 0; 0; 0; 0; 0; 0].

Definition send_socks5_reply (rep : Z) : M Conn unit := write_all (socks5_reply rep).

Definition intercept_socks5_request : M Conn (bytes * Z) :=
  let* target := read_socks5_request in
  let* _ := send_socks5_reply 0 in
  ret target.
End Server.

(** ** Addresses *)
Definition target_wf (t : TargetAddress) : Prop :=
  match t with
  | IPv4 octets => length octets = 4%nat /\ is_bytes octets
  | IPv6 octets => length octets = 16%nat /\ is_bytes octets
  | Domain name => validate_domain name = Ok tt
  end.

(** The host a request for [t] is read as. *)
Definition host_text (t : TargetAddress) : bytes :=
  match t with
  | IPv4 octets => display_v4 (v4_from_octets octets)
  | IPv6 octets => display_v6 (v6_from_octets octets)
  | Domain name => name
  end.

(** The address in a request: its type and what follows. *)
Definition wire_address (t : TargetAddress) : Z * bytes :=
  match t with
  | IPv4 octets => (1, octets)
  | IPv6 octets => (4, octets)
  | Domain name => (3, Z.of_nat (length name) :: name)
  end.

Definition request_frame (t : TargetAddress) (port : Z) : bytes :=
  let '(atyp, address) := wire_address t in [5; 1; 0; atyp] ++ address ++ be_bytes 2 port.

Lemma port_bits a b : is_u8 a -> is_u8 b -> Z.lor (Z.shiftl a 8) b = from_be [a; b].
Proof.
  intros Ha Hb. cbn [from_be fold_left]. unfold_ints. pose proof (Z.add_lor_land (Z.shiftl a 8) b) as E.
  assert (Z.land (Z.shiftl a 8) b = 0) as Hz.
  { apply Z.bits_inj'. intros n Hn. rewrite Z.land_spec, Z.bits_0. destruct (Z.ltb_spec n 8).
    - by rewrite Z.shiftl_spec_low by lia.
    - rewrite (Z.bits_above_log2 b n), andb_false_r; [done|lia|]. destruct (decide (b = 0)) as [->|]; [cbn; lia|].
      apply Z.log2_lt_pow2; [lia|]. pose proof (Z.pow_le_mono_r 2 8 n). change (2 ^ 8) with 256 in *. lia. }
  rewrite Hz, Z.shiftl_mul_pow2 in E by lia. rewrite Z.shiftl_mul_pow2 by lia. change (2 ^ 8) with 256 in *. cbn. lia.
Qed.

Lemma v4_from_octets_wf l : length l = 4%nat -> is_bytes l -> v4_wf (v4_from_octets l) /\ v4_octets (v4_from_octets l) = l.
Proof.
  intros Hl Hb. destruct l as [|a [|b [|c [|d [|]]]]]; try done. repeat (apply Forall_cons in Hb as [? Hb]). done.
Qed.

Lemma v4_octets_back ip : v4_from_octets (v4_octets ip) = ip.
Proof. by destruct ip. Qed.

Lemma pair_u16 a b : is_u8 a -> is_u8 b -> is_u16 (from_be [a; b]) /\ be_bytes 2 (from_be [a; b]) = [a; b].
Proof.
  intros Ha Hb. assert (Hl : is_bytes [a; b]) by (apply is_bytes_cons; [done|]; apply is_bytes_cons; [done|]; apply is_bytes_nil). split; [|by apply (be_bytes_from_be [a; b])].
  pose proof (from_be_bound _ Hl) as Hr. change (256 ^ Z.of_nat (length [a; b])) with 65536 in Hr. unfold_ints. lia.
Qed.

Lemma u16_pair s : is_u16 s -> exists a b, be_bytes 2 s = [a; b] /\ from_be [a; b] = s.
Proof.
  intros Hs. pose proof (be_bytes_length 2 s) as Hl. pose proof (from_be_be_bytes 2 s) as Hb. destruct (be_bytes 2 s) as [|a [|b [|]]]; try done.
  exists a, b. split; [done|]. apply Hb. change (256 ^ Z.of_nat 2) with 65536. unfold_ints. lia.
Qed.

Lemma v6_from_octets_wf l : length l = 16%nat -> is_bytes l -> v6_wf (v6_from_octets l) /\ v6_octets (v6_from_octets l) = l.
Proof.
  intros Hl Hb. do 16 (destruct l as [|? l]; [done|]). destruct l; [|done]. repeat (apply Forall_cons in Hb as [? Hb]).
  unfold v6_wf, v6_octets, v6_from_octets, v6_segments, slice. cbn [seg0 seg1 seg2 seg3 seg4 seg5 seg6 seg7 mbind list_bind]. cbv [drop take Nat.sub]. split.
  - by repeat (apply Forall_cons; split; [by apply pair_u16|]).
  - by rewrite !(fun a b Ha Hb => proj2 (pair_u16 a b Ha Hb)) by done.
Qed.

Lemma v6_octets_back ip : v6_wf ip -> v6_from_octets (v6_octets ip) = ip /\ length (v6_octets ip) = 16%nat /\ is_bytes (v6_octets ip).
Proof.
  unfold v6_wf. intros Hw. split_and!.
  - destruct ip as [s0 s1 s2 s3 s4 s5 s6 s7]. unfold v6_octets, v6_segments in *. cbn [seg0 seg1 seg2 seg3 seg4 seg5 seg6 seg7 mbind list_bind] in *.
    repeat match goal with Hw : Forall is_u16 (?s :: _) |- _ => apply Forall_cons in Hw as [(? & ? & -> & <-)%u16_pair Hw] end. done.
  - unfold v6_octets, v6_segments. cbn [mbind list_bind]. by rewrite !length_app, !be_bytes_length.
  - unfold v6_octets, v6_segments. cbn [mbind list_bind].
    repeat (apply is_bytes_app; [apply be_bytes_is_bytes|]). apply is_bytes_nil.
Qed.

Lemma read_separator_inv {A} sep i (inner : bytes -> option (A * bytes)) l a r :
  read_separator sep i inner l = Some (a, r) -> exists l', inner l' = Some (a, r).
Proof. destruct i as [|i]; cbn [read_separator]; [eauto|]. destruct (read_char sep l); [eauto|done]. Qed.

Lemma read_groups_u16 todo i limit l gs v4 r : read_groups todo i limit l = (gs, v4, r) -> Forall is_u16 gs.
Proof.
  revert i l gs v4 r. induction todo as [|todo IH]; intros i l gs v4 r; cbn [read_groups]; [by intros [= <- <- <-]|].
  destruct (if (_ <? _)%nat then _ else _) as [[ip rest]|] eqn:E4.
  - intros [= <- <- <-]. destruct (_ <? _)%nat; [|done]. apply read_separator_inv in E4 as [l' (? & ? & ? & ?)%read_ipv4_wf].
    repeat (apply Forall_cons; split); [..|done]; unfold_ints; lia.
  - clear E4. destruct (read_separator _ _ _ _) as [[g rest]|] eqn:En; [|by intros [= <- <- <-]].
    destruct (read_groups todo _ _ _) as [[gs' v4'] r'] eqn:Er. intros [= <- <- <-]. apply Forall_cons. split; [|by eapply IH].
    apply read_separator_inv in En as [l' Hn]. apply read_number_bound in Hn; [|lia]. unfold_ints. lia.
Qed.

Lemma v6_of_segments_wf l : Forall is_u16 l -> v6_wf (v6_of_segments l).
Proof.
  intros Hl. assert (Hi : forall i, is_u16 (l !!! i)).
  { intros i. destruct (l !! i) as [x|] eqn:E; [rewrite (list_lookup_total_correct _ _ _ E); by eapply Forall_lookup_1|].
    rewrite list_lookup_total_alt, E. cbn. unfold_ints. lia. }
  unfold v6_wf, v6_of_segments, v6_segments. by repeat (apply Forall_cons; split; [apply Hi|]).
Qed.

Lemma parse_ipv6_wf l ip : parse_ipv6 l = Some ip -> v6_wf ip.
Proof.
  unfold parse_ipv6, read_ipv6_addr. destruct (read_groups 8 0 8 l) as [[head v4] r] eqn:Eh. apply read_groups_u16 in Eh.
  destruct (_ =? _)%nat; [destruct r; [|done]; intros [= <-]; by apply v6_of_segments_wf|]. destruct v4; [done|].
  destruct (read_char 58 r) as [r1|]; [|done]. destruct (read_char 58 r1) as [r2|]; [|done].
  destruct (read_groups _ 0 _ r2) as [[tail v4] r3] eqn:Et. apply read_groups_u16 in Et. destruct r3; [|done]. intros [= <-].
  apply v6_of_segments_wf. repeat apply Forall_app_2; [done| |done]. apply Forall_replicate. unfold_ints. lia.
Qed.

(** ** What a request says *)
Lemma validate_domain_inv d : validate_domain d = Ok tt -> d <> [] /\ (length d <= 255)%nat /\ is_ascii d = true.
Proof.
  unfold validate_domain. intros E. destruct (_ || _) eqn:Eb; [done|]. apply orb_false_elim in Eb as [Eb _].
  apply orb_false_elim in Eb as [Eb Ea]. apply orb_false_elim in Eb as [En El]. apply bool_decide_eq_false in En. apply Nat.ltb_ge in El.
  by apply negb_false_eq in Ea.
Qed.

Lemma target_address_cases host : target_wf (target_address host) \/ target_address host = Domain host.
Proof.
  unfold target_address. destruct (parse_ipv4 host) as [ip|] eqn:E4.
  { left. apply parse_ipv4_wf in E4 as (? & ? & ? & ?). split; [done|]. by repeat (apply Forall_cons_2; [done|]). }
  destruct (parse_ipv6 host) as [ip|] eqn:E6; [|by right]. left. by destruct (v6_octets_back ip (parse_ipv6_wf _ _ E6)) as [_ ?].
Qed.

Lemma target_address_wf host block port frame :
  build_socks5h_connect_frame (target_address host) port block = Ok frame -> target_wf (target_address host).
Proof.
  destruct (target_address_cases host) as [|E]; [done|]. rewrite E. unfold build_socks5h_connect_frame. destruct (port =? 0); [done|].
  cbn [target_wf]. by destruct (validate_domain host) as [[]|].
Qed.

Lemma build_frame_eq t port block :
  target_wf t -> port <> 0 -> (block = true -> forall o, t <> IPv6 o) -> build_socks5h_connect_frame t port block = Ok (request_frame t port).
Proof.
  intros Hw Hp Hb. unfold build_socks5h_connect_frame. rewrite (proj2 (Z.eqb_neq _ _)) by done. destruct t as [o|d|o]; cbn [target_wf] in Hw.
  - done.
  - rewrite Hw. apply validate_domain_inv in Hw as (_ & Hl & _). by rewrite Z.mod_small by lia.
  - destruct block; [by destruct (Hb eq_refl o)|done].
Qed.

Lemma built t port block frame : target_wf t -> build_socks5h_connect_frame t port block = Ok frame ->
  frame = request_frame t port /\ port <> 0 /\ (block = true -> forall o, t <> IPv6 o).
Proof.
  intros Hw E. assert (Hp : port <> 0) by (intros ->; done).
  assert (Hb : block = true -> forall o, t <> IPv6 o).
  { intros -> o ->. unfold build_socks5h_connect_frame in E. by destruct (port =? 0). }
  rewrite build_frame_eq in E by done. by apply Ok_inj in E as <-.
Qed.

(** The text a request is read as denotes the address it was made for. *)
Lemma host_text_denotes t : target_wf t -> (forall d, t <> Domain d) -> target_address (host_text t) = t.
Proof.
  intros Hw Hd. destruct t as [o|d|o]; cbn [target_wf host_text] in *.
  - destruct Hw as [Hl Hb]. destruct (v4_from_octets_wf o Hl Hb) as [Hv Ho]. unfold target_address. by rewrite parse_display_v4, Ho.
  - by destruct (Hd d).
  - destruct Hw as [Hl Hb]. destruct (v6_from_octets_wf o Hl Hb) as [Hv Ho]. unfold target_address.
    by rewrite display_v6_not_v4, parse_display_v6, Ho.
Qed.

Lemma host_text_again host : target_wf (target_address host) -> target_address (host_text (target_address host)) = target_address host.
Proof.
  intros Hw. destruct (target_address host) as [o|d|o] eqn:E; [by apply host_text_denotes| |by apply host_text_denotes].
  cbn [host_text]. unfold target_address in E. destruct (parse_ipv4 host) eqn:E4; [done|]. destruct (parse_ipv6 host) eqn:E6; [done|].
  injection E as <-. unfold target_address. by rewrite E4, E6.
Qed.

(** ** Reading a request *)
Lemma read_u8_ok b rest c : cn_in c = b :: rest -> read_u8 c = (after c rest [], Ok b).
Proof. intros Hin. unfold read_u8, bind. by rewrite (read_ok 1 [b] rest c). Qed.

Lemma read_host_ok t rest c :
  target_wf t -> cn_in c = (wire_address t).2 ++ rest -> read_host (wire_address t).1 c = (after c rest [], Ok (host_text t)).
Proof.
  intros Hw Hin. destruct t as [o|d|o]; cbn [wire_address fst snd target_wf host_text] in *; unfold read_host; cbn [Z.eqb Pos.eqb]; unfold bind.
  - by rewrite (read_ok 4 o rest c Hin (proj1 Hw)).
  - destruct (validate_domain_inv _ Hw) as (_ & Hl & Ha). rewrite (read_u8_ok _ (d ++ rest) c) by done. rewrite (read_ok _ d rest) by (done || lia).
    unfold some_or, of_result, ret. rewrite from_utf8_valid by (by apply ascii_utf8). by rewrite Hw, after_after.
  - by rewrite (read_ok 16 o rest c Hin (proj1 Hw)).
Qed.

Lemma read_connect_ok t port rest c :
  target_wf t -> 0 < port <= u16_MAX -> cn_in c = request_frame t port ++ rest -> read_connect c = (after c rest [], Ok (host_text t, port)).
Proof.
  intros Hw Hp Hin. unfold request_frame in Hin. destruct (wire_address t) as [atyp address] eqn:Ea. rewrite <- !app_assoc in Hin.
  unfold read_connect, bind. rewrite (read_ok 4 _ _ c Hin eq_refl). unfold ensure, ret. cbn [lookup_total list_lookup_total Z.eqb Pos.eqb andb].
  pose proof (read_host_ok t (be_bytes 2 port ++ rest) (after c (address ++ be_bytes 2 port ++ rest) []) Hw) as Hh. rewrite Ea in Hh. cbn [fst snd] in Hh. rewrite Hh by done.
  destruct (u16_pair port) as (a & b & Eb & Ep); [unfold_ints; lia|].
  assert (Hu : is_u8 a /\ is_u8 b) by (pose proof (be_bytes_is_bytes 2 port) as Hb; rewrite Eb in Hb; by apply Forall_cons in Hb as [? [? _]%Forall_cons]).
  rewrite (read_ok 2 (be_bytes 2 port) rest) by (done || apply be_bytes_length). rewrite Eb. cbn [lookup_total list_lookup_total].
  rewrite port_bits, Ep by apply Hu. rewrite (proj2 (Z.eqb_neq port 0)) by lia. cbn [negb]. by rewrite !after_after.
Qed.

Lemma read_u8_inv c c' b : is_bytes (cn_in c) -> read_u8 c = (c', Ok b) -> cn_in c = b :: cn_in c' /\ cn_out c' = cn_out c /\ is_u8 b /\ is_bytes (cn_in c').
Proof.
  intros Hb (c1 & l & Er & E)%bind_inv. apply read_exact_inv in Er as (Hin & Ho & Hl). destruct l as [|x [|]]; try done.
  unfold ret in E. cbn in E. injection E as <- <-. rewrite Hin in Hb |- *. by apply Forall_cons in Hb.
Qed.

Lemma read_exact_bytes n c c' b : is_bytes (cn_in c) -> read_exact n c = (c', Ok b) ->
  cn_in c = b ++ cn_in c' /\ cn_out c' = cn_out c /\ length b = n /\ is_bytes b /\ is_bytes (cn_in c').
Proof. intros Hb (Hin & Ho & Hl)%read_exact_inv. rewrite Hin in Hb |- *. by apply Forall_app in Hb. Qed.

Lemma read_host_inv atyp c c' host : is_bytes (cn_in c) -> read_host atyp c = (c', Ok host) ->
  exists t, target_wf t /\ host = host_text t /\ (wire_address t).1 = atyp /\ cn_in c = (wire_address t).2 ++ cn_in c' /\ cn_out c' = cn_out c /\ is_bytes (cn_in c').
Proof.
  intros Hb. unfold read_host. destruct (Z.eqb_spec atyp 1) as [->|]; [|destruct (Z.eqb_spec atyp 4) as [->|]; [|destruct (Z.eqb_spec atyp 3) as [->|]; [|done]]].
  - intros (c1 & o & Er & E)%bind_inv. apply read_exact_bytes in Er as (? & ? & ? & ? & ?); [|done]. injection E as <- <-. by exists (IPv4 o).
  - intros (c1 & o & Er & E)%bind_inv. apply read_exact_bytes in Er as (? & ? & ? & ? & ?); [|done]. injection E as <- <-. by exists (IPv6 o).
  - intros (c1 & k & Er & E)%bind_inv. apply read_u8_inv in Er as (Hin & Ho & Hk & Hb1); [|done].
    apply bind_inv in E as (c2 & d & Er & E). apply read_exact_bytes in Er as (Hin' & Ho' & Hl & _ & Hb2); [|done].
    apply bind_inv in E as (c3 & h & Eu & E). apply some_or_inv in Eu as [[-> _]%from_utf8_inv ->].
    apply bind_inv in E as (c4 & [] & Ev & E). apply of_result_inv in Ev as [Hv ->]. injection E as <- <-.
    exists (Domain d). cbn [wire_address fst snd app]. split_and!; try done; [|congruence].
    rewrite Hin, Hin', Hl, Z2Nat.id by (unfold_ints; lia). done.
Qed.

Lemma read_connect_inv c c' host port : is_bytes (cn_in c) -> read_connect c = (c', Ok (host, port)) ->
  exists t, target_wf t /\ host = host_text t /\ 0 < port <= u16_MAX /\ cn_in c = request_frame t port ++ cn_in c' /\ cn_out c' = cn_out c.
Proof.
  intros Hb (c1 & h & Er & E)%bind_inv. apply read_exact_bytes in Er as (Hin & Ho & Hl & Hbh & Hb1); [|done].
  apply bind_inv in E as (c2 & ? & Ee & E). apply ensure_inv in Ee as [Hh ->].
  apply bind_inv in E as (c3 & host' & Eh & E). apply read_host_inv in Eh as (t & Hw & -> & Ha & Hin' & Ho' & Hb3); [|done].
  apply bind_inv in E as (c4 & p & Er & E). apply read_exact_bytes in Er as (Hin2 & Ho2 & Hl2 & Hbp & _); [|done].
  apply bind_inv in E as (c5 & ? & Ee & E). apply ensure_inv in Ee as [Hp ->]. injection E as <- <- <-.
  destruct h as [|h0 [|h1 [|h2 [|h3 [|]]]]]; try done. destruct p as [|a [|b [|]]]; try done.
  apply Forall_cons in Hbp as [Hu1 [Hu2 _]%Forall_cons]. destruct (pair_u16 a b Hu1 Hu2) as [Hpr Hpb].
  cbn [lookup_total list_lookup_total] in *. rewrite port_bits in * by done. reflect_bools. subst. cbn [lookup_total list_lookup_total] in *.
  exists t. split_and!; [done..|unfold_ints; lia|unfold_ints; lia| |congruence].
  unfold request_frame. rewrite Hpb, Hin, Hin', Hin2. destruct (wire_address t) as [atyp address]. cbn [fst snd] in *. subst. by rewrite <- !app_assoc.
Qed.

Section Contexts.
Context `{IdentityPrimitives}.

Definition credential_ok (b : bytes) : Prop := (1 <= length b <= 255)%nat.
(** A user name and a password as RFC 1929 puts them on the wire. *)
Definition credentials (username password : bytes) : bytes :=
  [1; Z.of_nat (length username)] ++ username ++ [Z.of_nat (length password)] ++ password.

Lemma read_context_inv c c' d : is_bytes (cn_in c) -> read_context c = (c', Ok d) ->
  exists username password, credential_ok username /\ credential_ok password /\ cn_in c = credentials username password ++ cn_in c' /\
    cn_out c' = cn_out c ++ [5; 2; 1; 0] /\ d = sha256 (context_preimage username password) /\ is_bytes (cn_in c').
Proof.
  intros Hb (c1 & ? & Ew & E)%bind_inv. apply write_all_inv in Ew as [Hin Ho]. rewrite <- Hin in Hb |- *.
  apply bind_inv in E as (c2 & v & Er & E). apply read_u8_inv in Er as (Hin1 & Ho1 & Hv & Hb1); [|done].
  apply bind_inv in E as (c3 & n & Er & E). apply read_u8_inv in Er as (Hin2 & Ho2 & Hn & Hb2); [|done].
  apply bind_inv in E as (c4 & ? & Ee & E). apply ensure_inv in Ee as [Hc ->].
  apply bind_inv in E as (c5 & u & Er & E). apply read_exact_bytes in Er as (Hin3 & Ho3 & Hl & _ & Hb3); [|done].
  apply bind_inv in E as (c6 & m & Er & E). apply read_u8_inv in Er as (Hin4 & Ho4 & Hm & Hb4); [|done].
  apply bind_inv in E as (c7 & ? & Ee & E). apply ensure_inv in Ee as [Hc' ->].
  apply bind_inv in E as (c8 & p & Er & E). apply read_exact_bytes in Er as (Hin5 & Ho5 & Hl' & _ & Hb5); [|done].
  apply bind_inv in E as (c9 & ? & Ew & E). apply write_all_inv in Ew as [Hin6 Ho6]. injection E as <- <-.
  exists u, p. unfold credential_ok, credentials. reflect_bools. unfold_ints. split_and!; try lia; [| |done|by rewrite Hin6].
  - rewrite Hin1, Hin2, Hin3, Hin4, Hin5, Hin6, Hl, Hl', !Z2Nat.id by lia. subst. by rewrite <- !app_assoc.
  - rewrite Ho6, Ho5, Ho4, Ho3, Ho2, Ho1, Ho. by rewrite <- app_assoc.
Qed.

(** The lengths in the preimage keep the two strings apart. *)
Lemma context_preimage_inj u p u' p' :
  credential_ok u -> credential_ok p -> credential_ok u' -> credential_ok p' -> context_preimage u p = context_preimage u' p' -> u = u' /\ p = p'.
Proof.
  unfold credential_ok, context_preimage. intros ? ? ? ? E%app_inv_head. rewrite !Z.mod_small in E by lia. injection E as El E.
  apply app_inj_1 in E as [-> E]; [|lia]. by injection E as _ ->.
Qed.
End Contexts.

(** ** Properties *)
Section Properties.
Context `{IdentityPrimitives}.

Lemma read_request_plain mode t port rest c :
  target_wf t -> 0 < port <= u16_MAX -> cn_in c = [5; 1; 0] ++ request_frame t port ++ rest -> cn_room c = None ->
  read_socks5_request_context mode c = (after c rest [5; 0], Ok (host_text t, port, None)).
Proof.
  intros Hw Hp Hin Hr. unfold read_socks5_request_context, bind at 1. rewrite (read_ok 2 [5; 1] _ c Hin eq_refl).
  unfold bind at 1, ensure, ret. cbn [lookup_total list_lookup_total Z.eqb Pos.eqb].
  unfold bind at 1. rewrite (read_ok _ [0] (request_frame t port ++ rest)) by done.
  unfold negotiate_method. replace (bool_decide (0 ∈ [0])) with true by done. replace (bool_decide (2 ∈ [0])) with false by done. rewrite andb_false_r. cbn [orb negb].
  unfold bind, ret. rewrite write_ok by done. rewrite (read_connect_ok t port rest) by done. rewrite !after_after. done.
Qed.

Lemma connect_through_ok host port block rest c :
  target_wf (target_address host) -> 0 < port <= u16_MAX -> (block = true -> forall o, target_address host <> IPv6 o) ->
  cn_in c = [5; 0] ++ socks5_reply 0 ++ rest -> cn_room c = None ->
  socks5_connect_through host port block c = (after c rest ([5; 1; 0] ++ request_frame (target_address host) port), Ok tt).
Proof.
  intros Hw Hp Hb Hin Hr. unfold socks5_connect_through. unfold bind at 1. rewrite write_ok by done.
  unfold bind at 1. rewrite (read_ok 2 [5; 0] (socks5_reply 0 ++ rest)) by done. unfold bind at 1. unfold ensure, ret. cbn [lookup_total list_lookup_total Z.eqb Pos.eqb andb].
  unfold bind at 1. rewrite build_frame_eq by (done || lia). unfold of_result, ret, bind at 1. rewrite write_ok by done.
  unfold bind at 1. rewrite (read_ok 4 [5; 0; 0; 1] ([0; 0; 0; 0; 0; 0] ++ rest)) by done. cbn [lookup_total list_lookup_total Z.eqb Pos.eqb andb].
  unfold bind at 1, skip_bound. cbn [Z.eqb Pos.eqb]. unfold bind. rewrite (read_ok (4 + 2) [0; 0; 0; 0; 0; 0] rest) by done. rewrite !after_after.
  by rewrite app_nil_r.
Qed.

(** C37: What the gateway asks of a proxy is what a proxy reads. For every host
    and port the gateway accepts to forward, the bytes it writes are read back
    as the same port and a host that denotes the same target (the name itself,
    or the canonical text of the address), nothing after them is consumed, and
    when the proxy answers with success the gateway has written exactly its
    greeting and that request and left what follows the answer unread. *)
Theorem socks_dialogue (mode : bool) (host : bytes) (port : Z) (block : bool) (frame rest rest' : bytes) (client proxy : Conn) :
  0 <= port <= u16_MAX -> build_socks5h_connect_frame (target_address host) port block = Ok frame ->
  cn_in proxy = [5; 1; 0] ++ frame ++ rest -> cn_room proxy = None ->
  cn_in client = [5; 0] ++ socks5_reply 0 ++ rest' -> cn_room client = None ->
  let host' := host_text (target_address host) in
  read_socks5_request_context mode proxy = (after proxy rest [5; 0], Ok (host', port, None)) /\
  target_address host' = target_address host /\ (target_address host = Domain host -> host' = host) /\
  socks5_connect_through host port block client = (after client rest' ([5; 1; 0] ++ frame), Ok tt).
Proof.
  intros Hp Hf Hin Hr Hin' Hr'. pose proof (target_address_wf _ _ _ _ Hf) as Hw. cbv zeta.
  destruct (built _ _ _ _ Hw Hf) as (-> & Hp0 & Hb). split_and!.
  - by apply read_request_plain; [|lia|..].
  - by apply host_text_again.
  - by intros ->.
  - by apply connect_through_ok; [|lia|..].
Qed.

Definition negotiated (mode : bool) (methods auth : bytes) (context : option bytes) (out out' : bytes) : Prop :=
  match context with
  | None => auth = [] /\ 0 ∈ methods /\ (mode = true -> 2 ∉ methods) /\ out' = out ++ [5; 0]
  | Some digest => mode = true /\ 2 ∈ methods /\ out' = out ++ [5; 2; 1; 0] /\
      exists username password, credential_ok username /\ credential_ok password /\ auth = credentials username password /\
        digest = sha256 (context_preimage username password)
  end.

Lemma negotiate_method_inv mode methods c c' context :
  is_bytes (cn_in c) -> negotiate_method mode methods c = (c', Ok context) ->
  exists auth, cn_in c = auth ++ cn_in c' /\ is_bytes (cn_in c') /\ negotiated mode methods auth context (cn_out c) (cn_out c').
Proof.
  intros Hb. unfold negotiate_method. destruct (bool_decide_reflect (0 ∈ methods)) as [H0|H0], mode, (bool_decide_reflect (2 ∈ methods)) as [H2|H2];
    cbn [andb orb negb]; intros (c1 & d & E1 & E)%bind_inv.
  all: try by (apply write_all_inv in E1 as [Hin Ho]; injection E as <- <-; exists []; rewrite Hin).
  all: try done.
  all: apply read_context_inv in E1 as (u & p & Hu & Hp & Hin & Ho & -> & Hb1); [|done]; injection E as <- <-.
  all: exists (credentials u p); split; [done|]; split; [done|]; split; [done|]; split; [done|]; split; [done|]; by exists u, p.
Qed.

Lemma host_text_wf t : target_wf t -> target_wf (target_address (host_text t)).
Proof.
  intros Hw. destruct t as [o|d|o]; [by rewrite host_text_denotes| |by rewrite host_text_denotes]. cbn [host_text].
  destruct (target_address_cases d) as [|E]; [done|]. by rewrite E.
Qed.

Lemma read_request_inv (mode : bool) (c c' : Conn) (host : bytes) (port : Z) (context : option bytes) :
  is_bytes (cn_in c) -> read_socks5_request_context mode c = (c', Ok (host, port, context)) ->
  exists methods auth t,
    cn_in c = [5; Z.of_nat (length methods)] ++ methods ++ auth ++ request_frame t port ++ cn_in c' /\
    target_wf t /\ host = host_text t /\ 0 < port <= u16_MAX /\
    negotiated mode methods auth context (cn_out c) (cn_out c') /\
    build_socks5h_connect_frame (target_address host) port false = Ok (request_frame (target_address host) port) /\
    (target_address host = t \/ t = Domain host).
Proof.
  intros Hb (c1 & a & Er & E)%bind_inv. apply read_exact_bytes in Er as (Hin & Ho & Hl & Hba & Hb1); [|done].
  apply bind_inv in E as (c2 & ? & Ee & E). apply ensure_inv in Ee as [H5 ->].
  apply bind_inv in E as (c3 & methods & Er & E). apply read_exact_bytes in Er as (Hin2 & Ho2 & Hl2 & _ & Hb2); [|done].
  destruct a as [|v [|n [|]]]; try done. apply Forall_cons in Hba as [_ [Hn _]%Forall_cons]. cbn [lookup_total list_lookup_total] in *.
  apply Z.eqb_eq in H5 as ->.
  apply bind_inv in E as (c4 & ctx & Ec & E). apply bind_inv in E as (c5 & [h p] & Et & E). injection E as <- <- <- <-. cbn [fst snd] in *.
  apply negotiate_method_inv in Ec as (auth & Hin3 & Hb3 & Hctx); [|done]. apply read_connect_inv in Et as (t & Hw & -> & Hp & Hin4 & Ho4); [|done].
  exists methods, auth, t. split_and!; try done; try lia.
  - rewrite Hin, Hin2, Hin3, Hin4, Hl2, Z2Nat.id by (unfold_ints; lia). done.
  - rewrite Ho4, <- Ho, <- Ho2. by destruct ctx.
  - apply build_frame_eq; [|lia|done]. by apply host_text_wf.
  - destruct t as [o|d|o]; [left; by apply host_text_denotes|by right|left; by apply host_text_denotes].
Qed.

(** How the label and the request are put together on the wire. *)
Lemma request_context_inv mode c c' host port context :
  is_bytes (cn_in c) -> read_socks5_request_context mode c = (c', Ok (host, port, context)) ->
  exists methods auth rest, cn_in c = [5; Z.of_nat (length methods)] ++ methods ++ auth ++ rest /\
    negotiated mode methods auth context (cn_out c) (cn_out c').
Proof. intros Hb (methods & auth & t & Hin & _ & _ & _ & Hneg & _)%read_request_inv; [|done]. by exists methods, auth, (request_frame t port ++ cn_in c'). Qed.

(** An accepted request is well formed and can be forwarded. If the gateway
    accepts a client's request then the client offered a method the gateway
    speaks, it named CONNECT with a well-formed target and a port from 1 to
    65535, and exactly those bytes were consumed. A label for the privacy
    context is taken only where labels are enabled, only from complete user
    name and password, and the answer to the client says which it was. The
    request the gateway then makes of a proxy can always be built, and repeats
    the client's bytes unless the client sent the text of an address as a name. *)
Theorem socks_request_exact (mode : bool) (c c' : Conn) (host : bytes) (port : Z) (context : option bytes) :
  is_bytes (cn_in c) -> read_socks5_request_context mode c = (c', Ok (host, port, context)) ->
  exists methods auth t,
    cn_in c = [5; Z.of_nat (length methods)] ++ methods ++ auth ++ request_frame t port ++ cn_in c' /\
    target_wf t /\ host = host_text t /\ 0 < port <= u16_MAX /\
    negotiated mode methods auth context (cn_out c) (cn_out c') /\
    build_socks5h_connect_frame (target_address host) port false = Ok (request_frame (target_address host) port) /\
    (target_address host = t \/ t = Domain host).
Proof. apply read_request_inv. Qed.
End Properties.

Lemma write_all_prefix b c c' r : write_all b c = (c', r) ->
  exists w, w `prefix_of` b /\ cn_out c' = cn_out c ++ w /\ cn_in c' = cn_in c /\ (r = Ok tt -> w = b).
Proof.
  unfold write_all. destruct (cn_room c) as [room|]; [destruct (_ <=? _)%nat|]; intros [= <- <-].
  - by exists b.
  - exists (take room b). split; [by exists (drop room b); rewrite take_drop|]. done.
  - by exists b.
Qed.

Lemma read_exact_out n c c' r : read_exact n c = (c', r) -> cn_out c' = cn_out c.
Proof. unfold read_exact. by destruct (_ <? _)%nat; intros [= <- <-]. Qed.

Lemma skip_bound_out atyp c c' r : skip_bound atyp c = (c', r) -> cn_out c' = cn_out c.
Proof.
  unfold skip_bound, read_u8, bind, ensure, ret, fail.
  destruct (_ =? _); [|destruct (_ =? _); [|destruct (_ =? _); [|by intros [= <- <-]]]].
  all: destruct (read_exact _ c) as [c1 [a|]] eqn:E1; apply read_exact_out in E1; [|by intros [= <- <-]]; try by intros [= <- <-].
  destruct (negb _); [|by intros [= <- <-]]. destruct (read_exact _ c1) as [c2 [b|]] eqn:E2; apply read_exact_out in E2; intros [= <- <-]; congruence.
Qed.

Lemma connect_through_told (host : bytes) (port : Z) (block : bool) (c c' : Conn) (r : result Fault unit) :
  socks5_connect_through host port block c = (c', r) ->
  let t := target_address host in
  exists w, cn_out c' = cn_out c ++ w /\ w `prefix_of` [5; 1; 0] ++ request_frame t port /\
    (w `prefix_of` [5; 1; 0] \/ take 2 (cn_in c) = [5; 0] /\ port <> 0 /\ target_wf t /\ (block = true -> forall o, t <> IPv6 o)) /\
    (r = Ok tt -> w = [5; 1; 0] ++ request_frame t port).
Proof.
  intros E t. unfold socks5_connect_through, bind at 1 in E. fold t in E.
  destruct (write_all [5; 1; 0] c) as [c1 r1] eqn:E1. apply write_all_prefix in E1 as (w1 & Hp & Ho1 & Hi1 & Hw1).
  set (G := exists w, _). assert (Hshort : forall c2 e, cn_out c2 = cn_out c1 -> (c2, Err e) = (c', r) -> G).
  { intros c2 e Ho [= <- <-]. exists w1. split_and!; [congruence| |by left|done]. etrans; [exact Hp|by eexists]. }
  destruct r1 as [[]|]; [|by eapply Hshort; [|exact E]]. rewrite (Hw1 eq_refl) in *.
  unfold bind at 1 in E. destruct (read_exact 2 c1) as [c2 [a|]] eqn:E2; pose proof (read_exact_out _ _ _ _ E2); [|by eapply Hshort; [|exact E]].
  apply read_exact_inv in E2 as (Hin & _ & Hl). unfold bind at 1, ensure in E. destruct (_ && _) eqn:Ea; [|by eapply Hshort; [|exact E]].
  unfold ret, bind at 1, of_result in E. destruct (build_socks5h_connect_frame t port block) as [frame|] eqn:Ef; [|by eapply Hshort; [|exact E]].
  destruct (built _ _ _ _ (target_address_wf _ _ _ _ Ef) Ef) as (-> & Hport & Hblock). unfold ret in E.
  assert (Ha : take 2 (cn_in c) = [5; 0]).
  { rewrite <- Hi1, Hin. destruct a as [|x [|y [|]]]; try done. cbn [lookup_total list_lookup_total] in Ea. reflect_bools. by subst. }
  unfold bind at 1 in E. destruct (write_all _ c2) as [c3 r3] eqn:E3. apply write_all_prefix in E3 as (w3 & Hp3 & Ho3 & _ & Hw3).
  exists ([5; 1; 0] ++ w3). assert (Ho : cn_out c3 = cn_out c ++ [5; 1; 0] ++ w3) by (rewrite app_assoc; congruence).
  assert (Hend : cn_out c' = cn_out c3 /\ (r = Ok tt -> w3 = request_frame t port)).
  { destruct r3 as [[]|]; [|by injection E as <- <-]. specialize (Hw3 eq_refl). unfold bind at 1 in E.
    destruct (read_exact 4 c3) as [c4 [h|]] eqn:E4; apply read_exact_out in E4; [|by injection E as <- <-]. unfold bind, ensure in E.
    destruct (_ && _ && _); [|by injection E as <- <-]. apply skip_bound_out in E. split; [congruence|done]. }
  destruct Hend as [Ho' Hr]. split_and!; [congruence|by apply prefix_app|right; split_and!; try done|intros Hok; by rewrite Hr].
  by apply (target_address_wf _ _ _ _ Ef).
Qed.

(** A proxy learns nothing before it may. Whatever the proxy answers and
    wherever the socket breaks, the gateway writes a prefix of its greeting
    and its request; it goes beyond the greeting only if the proxy accepted
    the greeting, the port is not zero, the name is a valid one and the target
    is not an IPv6 address while those are blocked. A name stays a name. *)
Theorem connect_through_discloses (host : bytes) (port : Z) (block : bool) (c c' : Conn) (r : result Fault unit) :
  socks5_connect_through host port block c = (c', r) ->
  let t := target_address host in
  exists w, cn_out c' = cn_out c ++ w /\ w `prefix_of` [5; 1; 0] ++ request_frame t port /\
    (w `prefix_of` [5; 1; 0] \/ take 2 (cn_in c) = [5; 0] /\ port <> 0 /\ target_wf t /\ (block = true -> forall o, t <> IPv6 o)) /\
    (r = Ok tt -> w = [5; 1; 0] ++ request_frame t port).
Proof. apply connect_through_told. Qed.

(** ** A concrete dialogue *)
#[local] Existing Instance toy_identity.

Definition toy_conn (input : bytes) : Conn := mkConn input (mkIoError UnexpectedEof "") [] None (mkIoError BrokenPipe "").
Definition toy_host : bytes := str "2001:db8::7".
Definition toy_frame : bytes := [5; 1; 0; 4; 32; 1; 13; 184; 0; 0; 0; 0; 0; 0; 0; 0; 0; 0; 0; 7; 1; 187].

Lemma socks_dialogue_witness :
  read_socks5_request_context true (toy_conn ([5; 1; 0] ++ toy_frame ++ [9])) =
    (after (toy_conn ([5; 1; 0] ++ toy_frame ++ [9])) [9] [5; 0], Ok (toy_host, 443, None)) /\
  socks5_connect_through toy_host 443 false (toy_conn ([5; 0] ++ socks5_reply 0 ++ [8])) =
    (after (toy_conn ([5; 0] ++ socks5_reply 0 ++ [8])) [8] ([5; 1; 0] ++ toy_frame), Ok tt).
Proof.
  destruct (socks_dialogue true toy_host 443 false toy_frame [9] [8] (toy_conn ([5; 0] ++ socks5_reply 0 ++ [8])) (toy_conn ([5; 1; 0] ++ toy_frame ++ [9])))
    as (H1 & _ & _ & H2); [split; discriminate|vm_compute; reflexivity|reflexivity..|].
  split; [exact H1|exact H2].
Defined.

Definition toy_labelled : bytes := [5; 2; 0; 2] ++ credentials (str "site") (str "secret") ++ request_frame (Domain (str "example.org")) 80.

Lemma socks_request_exact_witness :
  exists context, (read_socks5_request_context true (toy_conn toy_labelled)).2 = Ok (str "example.org", 80, Some context) /\
    exists methods auth t, toy_labelled = [5; Z.of_nat (length methods)] ++ methods ++ auth ++ request_frame t 80 /\ t = Domain (str "example.org").
Proof.
  eexists. split; [vm_compute; reflexivity|].
  destruct (socks_request_exact true (toy_conn toy_labelled) (after (toy_conn toy_labelled) [] [5; 2; 1; 0]) (str "example.org") 80 (Some (sha256 (context_preimage (str "site") (str "secret")))))
    as (methods & auth & t & Hin & _ & _ & _ & _ & _ & Ht).
  - apply Forall_forall. intros x Hx. vm_compute in Hx. repeat (apply elem_of_cons in Hx as [->|Hx]; [split; discriminate|]). inversion Hx.
  - vm_compute. reflexivity.
  - exists methods, auth, t. rewrite app_nil_r in Hin. split; [exact Hin|]. destruct Ht as [<-|Ht]; [vm_compute; reflexivity|exact Ht].
Defined.

Lemma connect_through_discloses_witness :
  exists w, cn_out (socks5_connect_through toy_host 443 true (toy_conn [5; 0; 5; 0])).1 = [] ++ w /\ w `prefix_of` [5; 1; 0].
Proof.
  destruct (connect_through_discloses toy_host 443 true (toy_conn [5; 0; 5; 0]) _ _ (surjective_pairing _)) as (w & Ho & _ & Hw & _).
  exists w. split; [exact Ho|]. destruct Hw as [Hw|(_ & _ & _ & Hb)]; [exact Hw|]. destruct (Hb eq_refl [32; 1; 13; 184; 0; 0; 0; 0; 0; 0; 0; 0; 0; 0; 0; 7]).
  vm_compute. reflexivity.
Defined.
