(* ===== verification/Tracker.v ===== *)
(** * Reverse rendezvous (src/mesh/tracker.rs)

    Relays that cannot be reached register with a tracker and wait on their
    connection; a client that knows a relay's capability is joined to one of
    its waiting connections. The handler of a connection is cut at the points
    where it waits for the peer, for a lock or for another task: each piece is
    one definition, [handle_step] runs them in any interleaving, and
    [server_step] adds the loop that accepts connections. The five kinds of
    permits are counted: a step that drops one gives it back. Texts are UTF-8 byte
    strings. The hex crate and the TLS exporter are parameters. *)
From S2P Require Import Prelude Text Net Identity Transport Sybil ExitPolicy Admission Link.

(** ** Text (std) *)
Class HexCodec := {
  hex_encode : bytes -> bytes;
  hex_decode : bytes -> option bytes;
}.
Definition hex_char (b : Z) : bool := in_range 48 57 b || in_range 97 102 b.
(** What the crate documents: two lower-case digits a byte, and back. *)
Class HexLaws `{HexCodec} : Prop := {
  hex_decode_encode : forall l, is_bytes l -> hex_decode (hex_encode l) = Some l;
  hex_encode_length : forall l, length (hex_encode l) = (2 * length l)%nat;
  hex_encode_chars : forall l, is_bytes l -> forallb hex_char (hex_encode l) = true;
}.

Fixpoint split_words (fuel : nat) (word l : bytes) : list bytes :=
  let flush := if bool_decide (word = []) then [] else [word] in
  match fuel, l with
  | S fuel, b :: rest =>
      match whitespace_len l with
      | O => split_words fuel (word ++ [b]) rest
      | n => flush ++ split_words fuel [] (drop n l)
      end
  | _, _ => flush
  end.
Definition split_whitespace (l : bytes) : list bytes := split_words (length l) [] l.

Fixpoint digits_value (acc : Z) (l : bytes) : option Z :=
  match l with
  | [] => Some acc
  | b :: l => if in_range 48 57 b && (acc * 10 + (b - 48) <=? u64_MAX) then digits_value (acc * 10 + (b - 48)) l else None
  end.
(** [str::parse::<u64>]. *)
Definition parse_u64 (l : bytes) : option Z :=
  match l with
  | [] => None
  | b :: rest => if b =? 43 then (if bool_decide (rest = []) then None else digits_value 0 rest) else digits_value 0 l
  end.

Fixpoint display_digits (fuel : nat) (n : Z) (acc : bytes) : bytes :=
  match fuel with
  | O => acc
  | S fuel => if n <? 10 then (48 + n) :: acc else display_digits fuel (n / 10) ((48 + n mod 10) :: acc)
  end.
Definition display_u64 (n : Z) : bytes := display_digits 20 n [].

(** ** Control messages *)
Definition MAX_CONTROL : Z := 32 * 1024.

Definition read_control : M Conn bytes :=
  let* head := read_exact 4 in
  let size := from_be head in
  let* _ := ensure (negb (size =? 0) && (size <=? MAX_CONTROL)) (mkIoError InvalidData "Invalid tracker control length") in
  let* data := read_exact (Z.to_nat size) in
  some_or (from_utf8 data) (mkIoError InvalidData "Invalid tracker control UTF-8").

Definition write_control (value : bytes) : M Conn unit :=
  let* _ := ensure (negb (bool_decide (value = [])) && (Z.of_nat (length value) <=? MAX_CONTROL))
              (mkIoError InvalidInput "Invalid tracker control length") in
  let* _ := write_all (be_bytes 4 (Z.of_nat (length value))) in
  write_all value.

Definition valid_token (token : bytes) : bool := (length token =? 64)%nat && forallb hex_char token.
Definition valid_node (node : bytes) : bool := valid_token node.
Definition tokens_match (a b : bytes) : bool := bool_decide (a = b).

Definition registration_message (command challenge exporter : bytes) : bytes :=
  str "AnonGuard-tracker-registration-v2" ++ [0] ++ be_bytes 4 (Z.of_nat (length command)) ++ command ++ challenge ++ exporter.

Definition REGISTRATION_LABEL : bytes := str "AnonGuard-tracker-registration-v2".

Inductive Command :=
| RegisterReverse (node token timestamp nonce : bytes)
| ConnectReverse (node token : bytes)
| Nodes
| InvalidCommand.

Definition parse_command (command : bytes) : Command :=
  match split_whitespace command with
  | [name; node; token; timestamp; nonce] =>
      if bool_decide (name = str "REGISTER_REVERSE") && valid_node node && valid_token token then RegisterReverse node token timestamp nonce
      else InvalidCommand
  | [name; node; token] =>
      if bool_decide (name = str "CONNECT_REVERSE") && valid_node node && valid_token token then ConnectReverse node token else InvalidCommand
  | [name] => if bool_decide (name = str "NODES") then Nodes else InvalidCommand
  | _ => InvalidCommand
  end.

(** ** The directory *)
Definition MAX_WAITING : nat := Z.to_nat 128.
Definition MAX_PER_NODE : nat := 3.
Definition DEFAULT_MAX_TRACKER_HANDSHAKES : nat := 16.

(** A slot; [w_request] is the connection that holds the receiving end. *)
Record Waiting := mkWaiting { w_id : Z; w_request : nat }.
Record Entry := mkEntry { en_token : bytes; en_waiting : list Waiting }.
Notation Directory := (gmap bytes Entry).

Definition ERROR_INVALID_POW := str "ERROR_INVALID_POW".
Definition ERROR_BUSY := str "ERROR_BUSY".
Definition ERROR_UNAUTHORIZED := str "ERROR_UNAUTHORIZED".
Definition ERROR_UNAVAILABLE := str "ERROR_UNAVAILABLE".
Definition ERROR_INVALID_COMMAND := str "ERROR_INVALID_COMMAND".

Definition enter_directory (dir : Directory) (node token : bytes) (slot : Waiting) : Directory * option bytes :=
  let entry := default (mkEntry token []) (dir !! node) in
  if negb (tokens_match (en_token entry) token) then (<[node := entry]> dir, Some ERROR_UNAUTHORIZED)
  else if (MAX_PER_NODE <=? length (en_waiting entry))%nat then (<[node := entry]> dir, Some ERROR_BUSY)
  else (<[node := mkEntry (en_token entry) (en_waiting entry ++ [slot])]> dir, None).

Definition leave_directory (dir : Directory) (node : bytes) (id : Z) : Directory :=
  match dir !! node with
  | None => dir
  | Some entry =>
      let waiting := filter (fun slot => w_id slot <> id) (en_waiting entry) in
      if bool_decide (waiting = []) then delete node dir else <[node := mkEntry (en_token entry) waiting]> dir
  end.

(** [Vec::pop]: the last one. *)
Definition select_waiting (dir : Directory) (node token : bytes) : Directory * option Waiting :=
  match dir !! node with
  | Some entry =>
      if tokens_match (en_token entry) token then
        match last (en_waiting entry) with
        | Some slot => (<[node := mkEntry (en_token entry) (take (length (en_waiting entry) - 1) (en_waiting entry))]> dir, Some slot)
        | None => (dir, None)
        end
      else (dir, None)
  | None => (dir, None)
  end.

Definition waiting_nodes `{HashOrder} (dir : Directory) : list bytes :=
  sort_by (fun node => node) (fst <$> filter (fun e : bytes * Entry => en_waiting e.2 <> []) (hash_iter dir)).

Definition list_nodes `{HashOrder} (dir : Directory) : bytes :=
  let result := join 10 (waiting_nodes dir) in
  if bool_decide (result = []) then str "EMPTY" else result.

(** ** The accept loop *)
Definition DEFAULT_MAX_TRACKER_CONNECTIONS : nat := Z.to_nat 512.
Definition HANDSHAKE_BURST : Z := 32.
Definition HANDSHAKE_REFILL : Z := 62500000.

(** The free permits for connections and handshakes, the global rate and the
    accounting of sources, with the semaphores of these. *)
Record Accepting := mkAccepting {
  ac_connections : nat;
  ac_handshakes : nat;
  ac_rate : TokenBucket;
  ac_sources : SourceAdmission;
  ac_semaphores : Semaphores;
}.

Definition accepting_init (now : Z) : Accepting :=
  mkAccepting DEFAULT_MAX_TRACKER_CONNECTIONS DEFAULT_MAX_TRACKER_HANDSHAKES (full_bucket HANDSHAKE_BURST HANDSHAKE_REFILL now)
    SourceAdmission_new (mkSemaphores 0 ∅).

Definition set_rate (self : Accepting) (rate : TokenBucket) : Accepting :=
  mkAccepting (ac_connections self) (ac_handshakes self) rate (ac_sources self) (ac_semaphores self).
Definition set_sources (self : Accepting) (sources : SourceAdmission) (sems : Semaphores) : Accepting :=
  mkAccepting (ac_connections self) (ac_handshakes self) (ac_rate self) sources sems.
Definition set_connections (self : Accepting) (connections : nat) : Accepting :=
  mkAccepting connections (ac_handshakes self) (ac_rate self) (ac_sources self) (ac_semaphores self).

(** One accepted socket. Its handshake starts with a permit of each kind, the
    answer being that of its source, or every permit taken on the way is dropped. *)
Definition tracker_accept (self : Accepting) (ip : IpAddr) (now : Z) : Accepting * option nat :=
  match ac_connections self, ac_handshakes self with
  | S connections, S handshakes =>
      match bucket_available (ac_rate self) now with
      | (rate, false) => (set_rate self rate, None)
      | (rate, true) =>
          let self := set_rate self rate in
          match try_admit (ac_sources self) (ac_semaphores self) ip now with
          | (sources, sems, None) => (set_sources self sources sems, None)
          | (sources, sems, Some permit) =>
              match bucket_take (ac_rate self) now with
              | (rate, false) => (set_sources (set_rate self rate) sources (sem_release sems permit), None)
              | (rate, true) => (mkAccepting connections handshakes rate sources sems, Some permit)
              end
          end
      end
  | _, _ => (self, None)
  end.

(** [drop((handshake_permit, source_permit))] *)
Definition end_handshake (self : Accepting) (source : nat) : Accepting :=
  mkAccepting (ac_connections self) (S (ac_handshakes self)) (ac_rate self) (ac_sources self) (sem_release (ac_semaphores self) source).

(** ** The handler of a connection *)

(** What a connection asked for, and what it showed for it. *)
Record Registration := mkRegistration {
  rg_command : bytes; rg_node : bytes; rg_token : bytes; rg_nonce : Z; rg_now : Z; rg_challenge : bytes;
}.
Record Proved := mkProved { pr_request : Registration; pr_exporter : bytes; pr_proof : bytes }.

(** A task holds the connection permit it was accepted with until it ends; that
    of a registrant moves with its stream, or is dropped before it leaves the
    directory. *)
Inductive Task :=
| Shaking (source : nat)                             (* TLS handshake, with its permit and that of its source *)
| Fresh                                              (* authenticated link, command not read *)
| Challenged (r : Registration)                      (* holds a registration permit *)
| Recorded (p : Proved)                              (* nonce recorded, permit given back *)
| LetIn (p : Proved)                                 (* holds a waiting permit *)
| Waits (p : Proved) (id : Z)                        (* in the directory, permit held *)
| Handing (p : Proved) (id : Z) (connector : nat)    (* asked to hand its stream over *)
| Leaving (p : Proved) (id : Z)                      (* stream gone, still to leave the directory *)
| Selected (node token : bytes) (slot : Waiting)     (* took a slot *)
| Expecting (node token : bytes) (registrant : nat)  (* waits for the stream *)
| Joined (node token : bytes) (registrant : nat) (p : Proved) (* has both streams and both permits *)
| Gone.

Record Tracker := mkTracker {
  tk_directory : Directory;
  tk_registry : NonceRegistry;
  tk_budget : nat;                 (* free registration permits *)
  tk_waiting : nat;                (* free waiting permits *)
  tk_requests : gmap nat nat;      (* handoff requests that arrived, by registrant *)
  tk_tasks : gmap nat Task;
  tk_accepting : Accepting;
}.

Definition tracker_init (now : Z) : Tracker :=
  mkTracker ∅ NonceRegistry_new DEFAULT_MAX_TRACKER_HANDSHAKES MAX_WAITING ∅ ∅ (accepting_init now).

Definition set_task (self : Tracker) (k : nat) (t : Task) : Tracker :=
  mkTracker (tk_directory self) (tk_registry self) (tk_budget self) (tk_waiting self) (tk_requests self) (<[k := t]> (tk_tasks self)) (tk_accepting self).
Definition set_directory (self : Tracker) (dir : Directory) : Tracker :=
  mkTracker dir (tk_registry self) (tk_budget self) (tk_waiting self) (tk_requests self) (tk_tasks self) (tk_accepting self).
Definition set_registry (self : Tracker) (r : NonceRegistry) : Tracker :=
  mkTracker (tk_directory self) r (tk_budget self) (tk_waiting self) (tk_requests self) (tk_tasks self) (tk_accepting self).
Definition set_permits (self : Tracker) (budget waiting : nat) : Tracker :=
  mkTracker (tk_directory self) (tk_registry self) budget waiting (tk_requests self) (tk_tasks self) (tk_accepting self).
Definition set_requests (self : Tracker) (requests : gmap nat nat) : Tracker :=
  mkTracker (tk_directory self) (tk_registry self) (tk_budget self) (tk_waiting self) requests (tk_tasks self) (tk_accepting self).
Definition set_accepting (self : Tracker) (accepting : Accepting) : Tracker :=
  mkTracker (tk_directory self) (tk_registry self) (tk_budget self) (tk_waiting self) (tk_requests self) (tk_tasks self) accepting.

(** [n] connection permits are dropped. *)
Definition release (self : Tracker) (n : nat) : Tracker :=
  set_accepting self (set_connections (tk_accepting self) (n + ac_connections (tk_accepting self))).

(** [handle] returns, and drops the permit it was called with. *)
Definition ends (self : Tracker) (k : nat) : Tracker := set_task (release self 1) k Gone.

Inductive TrackerEvent :=
| Connects                                            (* the connection passed the TLS handshake *)
| Sends (command : bytes) (now : Z) (challenge : bytes)
| Proves (encoded : bytes)
| Fails                                               (* its socket failed or a deadline passed *)
| Admits
| Enters (id : Z)
| Asks
| IsAsked
| HandsOver
| Leaves.

Section Handler.
Context `{IdentityPrimitives} `{HexCodec} `{HashOrder}.

Definition work_is_valid (node timestamp nonce : bytes) (difficulty now : Z) : bool :=
  match parse_u64 timestamp, parse_u64 nonce with
  | Some ts, Some n => verify_pow node ts n difficulty now
  | _, _ => false
  end.

(** The proof of a registration: [None] when the exporter fails, which ends
    the connection without an answer. *)
Definition verify_registration (export : bytes -> bytes -> result IoError bytes) (r : Registration) (encoded : bytes) : option (result bytes Proved) :=
  if negb (length encoded =? PROOF_SIZE * 2)%nat then Some (Err ERROR_UNAUTHORIZED)
  else
    match export REGISTRATION_LABEL (rg_challenge r) with
    | Err _ => None
    | Ok exporter =>
        match hex_decode encoded, hex_decode (rg_node r) with
        | Some proof, Some pin =>
            if negb (length pin =? 32)%nat then Some (Err ERROR_UNAUTHORIZED)
            else
              let authenticated :=
                let? key := VerifyingKey_from_bytes pin in
                let? signature := Signature_from_slice proof in
                verify_strict key (registration_message (rg_command r) (rg_challenge r) exporter) signature in
              Some (match authenticated with Ok _ => Ok (mkProved r exporter proof) | Err _ => Err ERROR_UNAUTHORIZED end)
        | _, _ => Some (Err ERROR_UNAUTHORIZED)
        end
    end.

Context (difficulty : Z) (export : nat -> bytes -> bytes -> result IoError bytes).

Definition on_command (self : Tracker) (k : nat) (command : bytes) (now : Z) (challenge : bytes) : Tracker * list bytes :=
  match parse_command command with
  | RegisterReverse node token timestamp nonce =>
      if negb (work_is_valid node timestamp nonce difficulty now) then (ends self k, [ERROR_INVALID_POW])
      else
        match tk_budget self with
        | O => (ends self k, [ERROR_BUSY])
        | S budget =>
            (set_task (set_permits self budget (tk_waiting self)) k
               (Challenged (mkRegistration command node token (default 0 (parse_u64 nonce)) now challenge)),
             [str "AUTH_CHALLENGE " ++ hex_encode challenge])
        end
  | ConnectReverse node token =>
      match select_waiting (tk_directory self) node token with
      | (dir, None) => (ends (set_directory self dir) k, [ERROR_UNAVAILABLE])
      | (dir, Some slot) => (set_task (set_directory self dir) k (Selected node token slot), [])
      end
  | Nodes => (ends self k, [list_nodes (tk_directory self)])
  | InvalidCommand => (ends self k, [ERROR_INVALID_COMMAND])
  end.

(** The registration permit goes back whatever comes of the proof. *)
Definition on_proof (self : Tracker) (k : nat) (r : Registration) (encoded : bytes) : Tracker * list bytes :=
  let self := set_permits self (S (tk_budget self)) (tk_waiting self) in
  match verify_registration (export k) r encoded with
  | None => (ends self k, [])
  | Some (Err reply) => (ends self k, [reply])
  | Some (Ok proved) =>
      let '(registry, refused) := check_and_record (tk_registry self) (rg_node r) (rg_nonce r) (rg_now r) in
      let self := set_registry self registry in
      if refused then (ends self k, [ERROR_INVALID_POW]) else (set_task self k (Recorded proved), [])
  end.

Definition on_admit (self : Tracker) (k : nat) (p : Proved) : Tracker * list bytes :=
  match tk_waiting self with
  | O => (ends self k, [ERROR_BUSY])
  | S waiting => (set_task (set_permits self (tk_budget self) waiting) k (LetIn p), [])
  end.

Definition on_enter (self : Tracker) (k : nat) (p : Proved) (id : Z) : Tracker * list bytes :=
  match enter_directory (tk_directory self) (rg_node (pr_request p)) (rg_token (pr_request p)) (mkWaiting id k) with
  | (dir, Some error) => (ends (set_permits (set_directory self dir) (tk_budget self) (S (tk_waiting self))) k, [error])
  | (dir, None) => (set_task (set_directory self dir) k (Waits p id), [str "REGISTERED"])
  end.

(** The registrant's receiver lives until it has left the directory. *)
Definition receiving (t : option Task) : bool :=
  match t with Some (Waits _ _) | Some (Handing _ _ _) | Some (Leaving _ _) => true | _ => false end.

Definition on_ask (self : Tracker) (k : nat) (node token : bytes) (slot : Waiting) : Tracker * list bytes :=
  if receiving (tk_tasks self !! w_request slot)
  then (set_task (set_requests self (<[w_request slot := k]> (tk_requests self))) k (Expecting node token (w_request slot)), [])
  else (ends self k, [ERROR_UNAVAILABLE]).

(** READY was written: the stream and its permit go to the connector if it still
    waits, and are dropped otherwise. *)
Definition on_hand_over (self : Tracker) (k : nat) (p : Proved) (id : Z) (connector : nat) : Tracker * list bytes :=
  let self := set_task self k (Leaving p id) in
  match tk_tasks self !! connector with
  | Some (Expecting node token registrant) =>
      if (registrant =? k)%nat then (set_task self connector (Joined node token k p), [str "READY"; str "OK"])
      else (release self 1, [str "READY"])
  | _ => (release self 1, [str "READY"])
  end.

Definition on_leave (self : Tracker) (k : nat) (p : Proved) (id : Z) : Tracker * list bytes :=
  let dir := leave_directory (tk_directory self) (rg_node (pr_request p)) id in
  (set_task (set_permits (set_directory self dir) (tk_budget self) (S (tk_waiting self))) k Gone, []).

(** Connection [k] takes a step; [None] when it cannot take that one. *)
Definition handle_step (self : Tracker) (k : nat) (ev : TrackerEvent) : option (Tracker * list bytes) :=
  match tk_tasks self !! k, ev with
  | Some (Shaking source), Connects => Some (set_task (set_accepting self (end_handshake (tk_accepting self) source)) k Fresh, [])
  | Some (Shaking source), Fails => Some (ends (set_accepting self (end_handshake (tk_accepting self) source)) k, [])
  | Some Fresh, Sends command now challenge => Some (on_command self k command now challenge)
  | Some Fresh, Fails => Some (ends self k, [])
  | Some (Challenged r), Proves encoded => Some (on_proof self k r encoded)
  | Some (Challenged _), Fails => Some (ends (set_permits self (S (tk_budget self)) (tk_waiting self)) k, [])
  | Some (Recorded p), Admits => Some (on_admit self k p)
  | Some (LetIn p), Enters id => Some (on_enter self k p id)
  | Some (Waits p id), IsAsked =>
      match tk_requests self !! k with Some connector => Some (set_task self k (Handing p id connector), []) | None => None end
  | Some (Waits p id), Fails => Some (set_task (release self 1) k (Leaving p id), [])
  | Some (Handing p id connector), HandsOver => Some (on_hand_over self k p id connector)
  | Some (Handing p id _), Fails => Some (set_task (release self 1) k (Leaving p id), [])
  | Some (Leaving p id), Leaves => Some (on_leave self k p id)
  | Some (Selected node token slot), Asks => Some (on_ask self k node token slot)
  | Some (Expecting _ _ _), Fails => Some (ends self k, [ERROR_UNAVAILABLE])
  | Some (Joined _ _ _ _), Fails => Some (ends (release self 1) k, [])
  | _, _ => None
  end.

(** The loop of the listener beside its connections; a connection is known by
    the number it gets when it arrives. *)
Inductive ServerEvent :=
| Arrives (k : nat) (ip : IpAddr) (now : Z)
| Runs (k : nat) (ev : TrackerEvent)
| Sweeps (now : Z).

Definition on_accept (self : Tracker) (k : nat) (ip : IpAddr) (now : Z) : Tracker :=
  match tracker_accept (tk_accepting self) ip now with
  | (accepting, None) => set_accepting self accepting
  | (accepting, Some source) => set_task (set_accepting self accepting) k (Shaking source)
  end.

Definition on_sweep (self : Tracker) (now : Z) : Tracker :=
  let accepting := tk_accepting self in
  set_accepting self (set_sources accepting (sweep (ac_sources accepting) (ac_semaphores accepting) now) (ac_semaphores accepting)).

Definition server_step (self : Tracker) (ev : ServerEvent) : option (Tracker * list bytes) :=
  match ev with
  | Arrives k ip now => match tk_tasks self !! k with Some _ => None | None => Some (on_accept self k ip now, []) end
  | Runs k ev => handle_step self k ev
  | Sweeps now => Some (on_sweep self now, [])
  end.

Inductive tracker_reachable : Tracker -> Prop :=
| tracker_starts now : tracker_reachable (tracker_init now)
| tracker_steps self ev self' replies :
    tracker_reachable self -> server_step self ev = Some (self', replies) -> tracker_reachable self'.

Fixpoint tracker_run (self : Tracker) (evs : list ServerEvent) : option Tracker :=
  match evs with
  | [] => Some self
  | ev :: evs => match server_step self ev with Some (self, _) => tracker_run self evs | None => None end
  end.

(** How many handshakes a run starts. *)
Definition starts (self : Tracker) (ev : ServerEvent) : bool :=
  match ev with Arrives _ ip now => bool_decide (is_Some (tracker_accept (tk_accepting self) ip now).2) | _ => false end.

Fixpoint started (self : Tracker) (evs : list ServerEvent) : Z :=
  match evs with
  | [] => 0
  | ev :: evs => Z.b2z (starts self ev) + match server_step self ev with Some (self, _) => started self evs | None => 0 end
  end.
End Handler.

(** ** The registrant *)
Definition strip_prefix (l prefix : bytes) : option bytes := if starts_with l prefix then Some (drop (length prefix) l) else None.

Section Registrant.
Context `{IdentityPrimitives} `{HexCodec}.

Definition register_command (identity : HybridSigningKey) (token : bytes) (timestamp nonce : Z) : bytes :=
  join 32 [str "REGISTER_REVERSE"; hex_encode (verifying_key identity); token; display_u64 timestamp; display_u64 nonce].

(** [Panics] is the [expect] in [sign]. *)
Definition register_reverse (export : bytes -> bytes -> result IoError bytes) (identity : HybridSigningKey) (token : bytes) (timestamp nonce : Z)
    : M Conn bytes :=
  let* _ := ensure (valid_token token) (mkIoError InvalidInput "Invalid capability") in
  let command := register_command identity token timestamp nonce in
  let* _ := write_control command in
  let* response := read_control in
  match strip_prefix response (str "AUTH_CHALLENGE ") with
  | None => ret response
  | Some encoded =>
      let* challenge := some_or (hex_decode encoded) (mkIoError InvalidData "Invalid registration challenge") in
      let* _ := ensure (length challenge =? 32)%nat (mkIoError InvalidData "Invalid registration challenge") in
      let* exporter := of_result (export REGISTRATION_LABEL challenge) in
      let* proof := (match identity_sign identity (registration_message command challenge exporter) with
                     | Some proof => ret proof | None => fun c => (c, Err Panics) end) in
      let* _ := write_control (hex_encode proof) in
      read_control
  end.
End Registrant.

(** ** Invariants *)
(** The slot a connection answers for. *)
Definition holder (t : Task) : option (Proved * Z) :=
  match t with Waits p id | Handing p id _ | Leaving p id => Some (p, id) | _ => None end.
Definition holder_at (tasks : gmap nat Task) (k : nat) : option (Proved * Z) := tasks !! k ≫= holder.

Definition evidence (t : Task) : option Proved :=
  match t with Recorded p | LetIn p | Waits p _ | Handing p _ _ | Leaving p _ | Joined _ _ _ p => Some p | _ => None end.

Definition source_of (t : Task) : option nat := match t with Shaking source => Some source | _ => None end.
Definition is_shaking (t : Task) : bool := bool_decide (is_Some (source_of t)).
Definition is_joined (t : Task) : bool := match t with Joined _ _ _ _ => true | _ => false end.
(** The connection permit a task was accepted with. *)
Definition holds_connection (t : Task) : bool := match t with Leaving _ _ | Gone => false | _ => true end.
Definition is_challenged (t : Task) : bool := match t with Challenged _ => true | _ => false end.
Definition holds_permit (t : Task) : bool := match t with LetIn _ | Waits _ _ | Handing _ _ _ | Leaving _ _ => true | _ => false end.

(** What connection [k] showed: a proof by the identity the node name stands
    for, over the command with that node and token, the challenge it was sent
    and the exporter of its own TLS channel. *)
Definition proof_ok `{IdentityPrimitives} `{HexCodec} (export : nat -> bytes -> bytes -> result IoError bytes) (k : nat) (p : Proved) : Prop :=
  let r := pr_request p in
  (exists timestamp nonce, parse_command (rg_command r) = RegisterReverse (rg_node r) (rg_token r) timestamp nonce) /\
  export k REGISTRATION_LABEL (rg_challenge r) = Ok (pr_exporter p) /\
  exists pin, hex_decode (rg_node r) = Some pin /\ length pin = 32%nat /\ pin <> replicate 32 0 /\
    verify_strict pin (registration_message (rg_command r) (rg_challenge r) (pr_exporter p)) (pr_proof p) = Ok tt.

(** *** The directory *)
Record slots_ok (dir : Directory) (tasks : gmap nat Task) : Prop := {
  so_live : forall node e slot, dir !! node = Some e -> slot ∈ en_waiting e ->
    exists p, holder_at tasks (w_request slot) = Some (p, w_id slot) /\ rg_node (pr_request p) = node /\ rg_token (pr_request p) = en_token e;
  so_distinct : forall node e, dir !! node = Some e -> NoDup (w_request <$> en_waiting e);
  so_size : forall node e, dir !! node = Some e -> (length (en_waiting e) <= MAX_PER_NODE)%nat;
  so_node : forall node e, dir !! node = Some e ->
    exists k p id, holder_at tasks k = Some (p, id) /\ rg_node (pr_request p) = node;
}.

Lemma holder_at_insert tasks k t j : holder_at (<[k := t]> tasks) j = if decide (k = j) then holder t else holder_at tasks j.
Proof. unfold holder_at. destruct (decide (k = j)) as [->|]; [by rewrite lookup_insert_eq|by rewrite lookup_insert_ne]. Qed.

Lemma slots_ok_agree dir tasks tasks' : (forall k, holder_at tasks' k = holder_at tasks k) -> slots_ok dir tasks -> slots_ok dir tasks'.
Proof.
  intros Hh [Hl Hd Hs Hn]. split; [|done|done|].
  - intros node e slot He Hin. rewrite Hh. eauto.
  - intros node e He. destruct (Hn node e He) as (k & p & id & Hk & Hnode). exists k, p, id. by rewrite Hh.
Qed.

Lemma slots_ok_task dir tasks k t : holder t = holder_at tasks k -> slots_ok dir tasks -> slots_ok dir (<[k := t]> tasks).
Proof. intros Ht. apply slots_ok_agree. intros j. rewrite holder_at_insert. by destruct (decide (k = j)) as [<-|]. Qed.

(** Slots may go, as long as what stays is a sublist. *)
Lemma slots_ok_shrink dir tasks node e waiting :
  slots_ok dir tasks -> dir !! node = Some e -> waiting `sublist_of` en_waiting e -> slots_ok (<[node := mkEntry (en_token e) waiting]> dir) tasks.
Proof.
  intros [Hl Hd Hs Hn] He Hsub. split.
  - intros n e' slot. destruct (decide (node = n)) as [->|]; [|rewrite lookup_insert_ne by done; apply Hl].
    rewrite lookup_insert_eq. intros [= <-] Hin. cbn [en_waiting en_token] in *. eapply Hl; [done|]. by eapply elem_of_sublist.
  - intros n e'. destruct (decide (node = n)) as [->|]; [|rewrite lookup_insert_ne by done; apply Hd].
    rewrite lookup_insert_eq. intros [= <-]. eapply sublist_NoDup; [by apply (Hd n e)|]. by apply fmap_sublist.
  - intros n e'. destruct (decide (node = n)) as [->|]; [|rewrite lookup_insert_ne by done; apply Hs].
    rewrite lookup_insert_eq. intros [= <-]. cbn [en_waiting]. apply sublist_length in Hsub. specialize (Hs n e He). lia.
  - intros n e'. destruct (decide (node = n)) as [->|]; [intros _; by apply (Hn n e)|rewrite lookup_insert_ne by done; apply Hn].
Qed.

Lemma slots_ok_enter dir tasks k p id dir' :
  slots_ok dir tasks -> holder_at tasks k = None ->
  enter_directory dir (rg_node (pr_request p)) (rg_token (pr_request p)) (mkWaiting id k) = (dir', None) ->
  slots_ok dir' (<[k := Waits p id]> tasks).
Proof.
  intros [Hl Hd Hs Hn] Hk. unfold enter_directory. set (node := rg_node (pr_request p)). set (token := rg_token (pr_request p)).
  set (entry := default (mkEntry token []) (dir !! node)). unfold tokens_match. destruct (bool_decide_reflect (en_token entry = token)) as [Et|]; [|done]. cbn [negb].
  destruct (Nat.leb_spec MAX_PER_NODE (length (en_waiting entry))) as [|Hlen]; [done|]. intros [= <-].
  assert (Hold : forall slot, slot ∈ en_waiting entry -> exists q, holder_at tasks (w_request slot) = Some (q, w_id slot) /\ rg_node (pr_request q) = node /\ rg_token (pr_request q) = en_token entry).
  { intros slot Hin. subst entry. destruct (dir !! node) as [e|] eqn:He; [by eapply Hl|by apply elem_of_nil in Hin]. }
  assert (Hne : forall j q i, holder_at tasks j = Some (q, i) -> k <> j) by (intros j q i Hj ->; congruence).
  split.
  - intros n e slot. destruct (decide (node = n)) as [<-|].
    + rewrite lookup_insert_eq. intros [= <-]. cbn [en_waiting en_token]. rewrite elem_of_app, list_elem_of_singleton. intros [Hin| ->].
      * destruct (Hold slot Hin) as (q & Hq & ? & ?). exists q. rewrite holder_at_insert, decide_False by eauto. done.
      * exists p. rewrite holder_at_insert, decide_True by done. done.
    + rewrite lookup_insert_ne by done. intros He Hin. destruct (Hl n e slot He Hin) as (q & Hq & ? & ?). exists q.
      rewrite holder_at_insert, decide_False by eauto. done.
  - intros n e. destruct (decide (node = n)) as [<-|]; [|rewrite lookup_insert_ne by done; apply Hd].
    rewrite lookup_insert_eq. intros [= <-]. cbn [en_waiting]. rewrite fmap_app. apply NoDup_snoc.
    + subst entry. destruct (dir !! node) as [e|] eqn:He; [by eapply Hd|apply NoDup_nil_2].
    + intros ([i j] & E & Hin)%list_elem_of_fmap. cbn [w_request] in E. subst j. destruct (Hold _ Hin) as (q & Hq & _). cbn [w_request] in Hq. congruence.
  - intros n e. destruct (decide (node = n)) as [<-|]; [|rewrite lookup_insert_ne by done; apply Hs].
    rewrite lookup_insert_eq. intros [= <-]. cbn [en_waiting]. rewrite length_app. cbn [length]. lia.
  - intros n e. destruct (decide (node = n)) as [<-|].
    + intros _. exists k, p, id. rewrite holder_at_insert, decide_True by done. done.
    + rewrite lookup_insert_ne by done. intros He. destruct (Hn n e He) as (j & q & i & Hq & ?). exists j, q, i.
      rewrite holder_at_insert, decide_False by eauto. done.
Qed.

Lemma enter_refused dir node token slot dir' error : enter_directory dir node token slot = (dir', Some error) -> dir' = dir.
Proof.
  unfold enter_directory, tokens_match. destruct (dir !! node) as [e|] eqn:He; cbn [default].
  - destruct (negb _); [|destruct (_ <=? _)%nat; [|done]]; intros [= <- _]; by apply insert_id.
  - cbn [en_token en_waiting]. by rewrite bool_decide_true by done.
Qed.

Lemma slots_ok_leave dir tasks k p id :
  slots_ok dir tasks -> holder_at tasks k = Some (p, id) -> slots_ok (leave_directory dir (rg_node (pr_request p)) id) (<[k := Gone]> tasks).
Proof.
  intros Hok Hk. pose proof Hok as [Hl Hd Hs Hn]. set (node := rg_node (pr_request p)).
  (* what stays is answered for by others *)
  assert (Hmine : forall n e slot, dir !! n = Some e -> slot ∈ en_waiting e -> w_request slot = k -> n = node /\ w_id slot = id).
  { intros n e slot He Hin E. destruct (Hl n e slot He Hin) as (q & Hq & <- & _). rewrite E, Hk in Hq. by injection Hq as <- <-. }
  assert (Hwait : forall n e slot, dir !! n = Some e -> slot ∈ en_waiting e -> n <> node \/ w_id slot <> id ->
    exists q, holder_at (<[k := Gone]> tasks) (w_request slot) = Some (q, w_id slot) /\ rg_node (pr_request q) = n /\ rg_token (pr_request q) = en_token e).
  { intros n e slot He Hin Hne. destruct (Hl n e slot He Hin) as (q & Hq & ? & ?). exists q. rewrite holder_at_insert, decide_False; [done|].
    intros E. destruct (Hmine n e slot He Hin (eq_sym E)). by destruct Hne. }
  unfold leave_directory. fold node. destruct (dir !! node) as [e|] eqn:He.
  - set (waiting := filter _ _). assert (Hstay : forall slot, slot ∈ waiting -> slot ∈ en_waiting e /\ w_id slot <> id).
    { intros slot. subst waiting. rewrite list_elem_of_filter. tauto. }
    assert (Hother : forall n e', n <> node -> dir !! n = Some e' -> exists j q i, holder_at (<[k := Gone]> tasks) j = Some (q, i) /\ rg_node (pr_request q) = n).
    { intros n e' Hne He'. destruct (Hn n e' He') as (j & q & i & Hq & Hnode). exists j, q, i. rewrite holder_at_insert, decide_False; [done|].
      intros <-. rewrite Hk in Hq. injection Hq as <- <-. by destruct Hne. }
    case_bool_decide as Hempty.
    + split; intros n e'; [intros slot| | |]; (destruct (decide (node = n)) as [<-|Hne]; [by rewrite lookup_delete_eq|rewrite lookup_delete_ne by done]).
      * intros He' Hin. eapply Hwait; [done..|]. by left.
      * apply Hd.
      * apply Hs.
      * apply Hother. done.
    + destruct (slots_ok_shrink dir tasks node e waiting Hok He (sublist_filter _ _)) as [Hl' Hd' Hs' _].
      split; [|exact Hd'|exact Hs'|].
      * intros n e' slot. destruct (decide (node = n)) as [<-|Hne]; [rewrite lookup_insert_eq; intros [= <-] Hin|rewrite lookup_insert_ne by done].
        { destruct (Hstay slot Hin). eapply (Hwait node e); auto. }
        intros He' Hin. eapply Hwait; auto.
      * intros n e'. destruct (decide (node = n)) as [<-|Hne]; [intros _|rewrite lookup_insert_ne by done; by apply Hother].
        destruct waiting as [|slot waiting]; [done|]. destruct (Hstay slot) as [Hin Hid]; [by left|].
        destruct (Hwait node e slot He Hin) as (q & Hq & Hnode & _); [by right|]. eauto.
  - split; [|exact Hd|exact Hs|].
    + intros n e slot He' Hin. eapply Hwait; [done..|]. left. intros ->. congruence.
    + intros n e He'. destruct (Hn n e He') as (j & q & i & Hq & Hnode). exists j, q, i. rewrite holder_at_insert, decide_False; [done|].
      intros <-. rewrite Hk in Hq. injection Hq as <- <-. fold node in Hnode. congruence.
Qed.

Lemma slots_ok_select dir tasks node token dir' slot :
  slots_ok dir tasks -> select_waiting dir node token = (dir', slot) ->
  slots_ok dir' tasks /\ forall s, slot = Some s -> exists p, holder_at tasks (w_request s) = Some (p, w_id s) /\ rg_node (pr_request p) = node /\ rg_token (pr_request p) = token.
Proof.
  intros Hok. unfold select_waiting, tokens_match. destruct (dir !! node) as [e|] eqn:He; [|by intros [= <- <-]].
  case_bool_decide as Et; [|by intros [= <- <-]]. destruct (last (en_waiting e)) as [s|] eqn:Els; [|by intros [= <- <-]]. intros [= <- <-]. split.
  - apply slots_ok_shrink; [done..|]. apply sublist_take.
  - intros s' [= <-]. apply last_Some in Els as [l E]. destruct (so_live _ _ Hok node e s He) as (p & ? & ? & Ht); [rewrite E; set_solver|]. exists p. by rewrite Ht.
Qed.

(** *** Permits *)
(** *** The connections *)
Section Invariant.
Context `{IdentityPrimitives} `{HexCodec} `{HashOrder}.
Context (difficulty : Z) (export : nat -> bytes -> bytes -> result IoError bytes).

(** A registrant that was asked for: still there for that node, or gone. *)
Definition traced (tasks : gmap nat Task) (j : nat) (node token : bytes) : Prop :=
  tasks !! j = Some Gone \/ exists p id, holder_at tasks j = Some (p, id) /\ rg_node (pr_request p) = node /\ rg_token (pr_request p) = token.

Definition task_ok (tasks : gmap nat Task) (k : nat) (t : Task) : Prop :=
  match t with
  | Shaking _ | Fresh | Gone => True
  | Challenged r => exists timestamp nonce, parse_command (rg_command r) = RegisterReverse (rg_node r) (rg_token r) timestamp nonce
  | Recorded p | LetIn p | Waits p _ | Handing p _ _ | Leaving p _ => proof_ok export k p
  | Selected node token slot => traced tasks (w_request slot) node token
  | Expecting node token j => traced tasks j node token
  | Joined node token j p => proof_ok export j p /\ rg_node (pr_request p) = node /\ rg_token (pr_request p) = token
  end.

(** The sources of the handshakes under way. *)
Definition shaking (tasks : gmap nat Task) : list nat := omap (fun e => source_of e.2) (map_to_list tasks).

Definition sources_ok (accepting : Accepting) (tasks : gmap nat Task) : Prop :=
  exists live, live.*2 ≡ₚ shaking tasks /\ permits_inv (sa_sources (ac_sources accepting)) (ac_semaphores accepting) live.

(** Every permit is free or held by a task; a joined one holds two connection
    permits. *)
Record accepting_inv (accepting : Accepting) (tasks : gmap nat Task) : Prop := {
  ai_connections : (ac_connections accepting + count holds_connection tasks + count is_joined tasks)%nat = DEFAULT_MAX_TRACKER_CONNECTIONS;
  ai_handshakes : (ac_handshakes accepting + count is_shaking tasks)%nat = DEFAULT_MAX_TRACKER_HANDSHAKES;
  ai_sources : sources_ok accepting tasks;
}.

Record tracker_inv (self : Tracker) : Prop := {
  ti_slots : slots_ok (tk_directory self) (tk_tasks self);
  ti_tasks : forall k t, tk_tasks self !! k = Some t -> task_ok (tk_tasks self) k t;
  ti_budget : (tk_budget self + count is_challenged (tk_tasks self))%nat = DEFAULT_MAX_TRACKER_HANDSHAKES;
  ti_waiting : (tk_waiting self + count holds_permit (tk_tasks self))%nat = MAX_WAITING;
  ti_accepting : accepting_inv (tk_accepting self) (tk_tasks self);
}.

Lemma shaking_insert tasks k t :
  option_list (tasks !! k ≫= source_of) ++ shaking (<[k := t]> tasks) ≡ₚ option_list (source_of t) ++ shaking tasks.
Proof.
  assert (Hnew : forall m u, m !! k = None -> shaking (<[k := u]> m) ≡ₚ option_list (source_of u) ++ shaking m).
  { intros m u Hm. unfold shaking. rewrite map_to_list_insert by done. cbn. by destruct (source_of u). }
  rewrite <- insert_delete_eq, Hnew by apply lookup_delete_eq. destruct (tasks !! k) as [o|] eqn:Ho; cbn [mbind option_bind].
  - rewrite <- (insert_delete_id tasks k o Ho) at 2. rewrite Hnew by apply lookup_delete_eq. rewrite !app_assoc. by rewrite (Permutation_app_comm (option_list _)).
  - by rewrite delete_id.
Qed.

(** A task that is in no handshake and comes into none. *)
Lemma accepting_task accepting tasks k t connections :
  accepting_inv accepting tasks -> tasks !! k ≫= source_of = None -> source_of t = None ->
  (connections + Nat.b2n (holds_connection t) + Nat.b2n (is_joined t) =
   ac_connections accepting + counts holds_connection (tasks !! k) + counts is_joined (tasks !! k))%nat ->
  accepting_inv (set_connections accepting connections) (<[k := t]> tasks).
Proof.
  intros [Hc Hh (live & Hl & Hp)] Ho Ht E. split; cbn.
  - pose proof (count_insert holds_connection tasks k t). pose proof (count_insert is_joined tasks k t). lia.
  - pose proof (count_insert is_shaking tasks k t) as Hi. unfold is_shaking in Hi at 4. rewrite Ht in Hi. change (Nat.b2n (bool_decide (is_Some None))) with 0%nat in Hi.
    enough (counts is_shaking (tasks !! k) = 0%nat) by lia. destruct (tasks !! k) as [o|]; [|done]. cbn in *. unfold is_shaking. by rewrite Ho.
  - exists live. split; [|done]. pose proof (shaking_insert tasks k t) as Hi. rewrite Ho, Ht in Hi. cbn in Hi. by rewrite Hi.
Qed.

Lemma accepting_starts accepting tasks k ip now accepting' source :
  accepting_inv accepting tasks -> tasks !! k = None -> tracker_accept accepting ip now = (accepting', Some source) ->
  accepting_inv accepting' (<[k := Shaking source]> tasks).
Proof.
  intros [Hc Hh (live & Hl & Hp)] Hk. unfold tracker_accept. destruct (ac_connections accepting) as [|connections] eqn:Ec; [done|].
  destruct (ac_handshakes accepting) as [|handshakes] eqn:Eh; [done|]. destruct (bucket_available _ _) as [rate []]; [|done].
  cbn [set_rate ac_sources ac_semaphores ac_rate]. destruct (try_admit _ _ _ _) as [[sources sems] [permit|]] eqn:Ea; [|done].
  destruct (bucket_take _ _) as [rate' []]; [|done]. intros [= <- ->]. pose proof (try_admit_permits _ _ _ _ _ _ _ _ Hp Ea) as Hp'. split; cbn.
  - pose proof (count_insert holds_connection tasks k (Shaking source)) as Ha. pose proof (count_insert is_joined tasks k (Shaking source)) as Hb.
    rewrite Hk in Ha, Hb. cbn in Ha, Hb. lia.
  - pose proof (count_insert is_shaking tasks k (Shaking source)) as Ha. rewrite Hk in Ha. cbn in Ha. lia.
  - exists ((source_group ip, source) :: live). split; [|done]. pose proof (shaking_insert tasks k (Shaking source)) as Hi. rewrite Hk in Hi. cbn in Hi |- *.
    by rewrite Hi, Hl.
Qed.

Lemma accepting_refused accepting tasks ip now accepting' :
  accepting_inv accepting tasks -> tracker_accept accepting ip now = (accepting', None) -> accepting_inv accepting' tasks.
Proof.
  intros [Hc Hh (live & Hl & Hp)]. unfold tracker_accept.
  assert (Hset : forall rate sources sems, permits_inv (sa_sources sources) sems live ->
            accepting_inv (mkAccepting (ac_connections accepting) (ac_handshakes accepting) rate sources sems) tasks).
  { intros rate sources sems Hs. split; [done|done|]. by exists live. }
  assert (Hsame : accepting_inv accepting tasks) by (destruct accepting; by apply Hset).
  destruct (ac_connections accepting) as [|connections] eqn:Ec; [by intros [= <-]|]. destruct (ac_handshakes accepting) as [|handshakes] eqn:Eh; [by intros [= <-]|].
  rewrite <- Ec, <- Eh in Hset. destruct (bucket_available _ _) as [rate []]; [|intros [= <-]; by apply Hset].
  cbn [set_rate ac_sources ac_semaphores ac_rate]. destruct (try_admit _ _ _ _) as [[sources sems] r] eqn:Ea. apply (try_admit_permits _ _ live) in Ea; [|done].
  destruct r as [permit|]; [|intros [= <-]; by apply Hset]. destruct (bucket_take _ _) as [rate' []]; [done|]. intros [= <-]. apply Hset.
  exact (permits_release _ _ ((source_group ip, permit) :: live) 0 _ Ea eq_refl).
Qed.

Lemma accepting_shaken accepting tasks k source :
  accepting_inv accepting tasks -> tasks !! k = Some (Shaking source) -> accepting_inv (end_handshake accepting source) (<[k := Fresh]> tasks).
Proof.
  intros [Hc Hh (live & Hl & Hp)] Hk. split; cbn.
  - pose proof (count_insert holds_connection tasks k Fresh) as Ha. pose proof (count_insert is_joined tasks k Fresh) as Hb.
    rewrite Hk in Ha, Hb. cbn in Ha, Hb. lia.
  - pose proof (count_insert is_shaking tasks k Fresh) as Ha. rewrite Hk in Ha. cbn in Ha. lia.
  - pose proof (shaking_insert tasks k Fresh) as Hi. rewrite Hk in Hi. cbn in Hi. rewrite <- Hl in Hi.
    assert (Hin : source ∈ live.*2) by (rewrite <- Hi; apply list_elem_of_here).
    apply list_elem_of_lookup in Hin as [i Hi']. apply list_lookup_fmap_Some in Hi' as (p & -> & Hlook). exists (delete i live). split; [|by apply permits_release].
    apply (Permutation_cons_inv (a := p.2)). rewrite Hi. rewrite <- (fmap_cons snd p). by rewrite <- (delete_Permutation _ _ _ Hlook).
Qed.

(** A connection keeps what others rely on, or it is gone. *)
Definition keeps (tasks : gmap nat Task) (k : nat) (t : Task) : Prop :=
  t = Gone \/ holder t = holder_at tasks k /\ tasks !! k <> Some Gone \/ tasks !! k <> Some Gone /\ holder_at tasks k = None.

Lemma traced_insert tasks k t j node token : keeps tasks k t -> traced tasks j node token -> traced (<[k := t]> tasks) j node token.
Proof.
  intros Hk Ht. unfold traced. rewrite holder_at_insert. destruct (decide (k = j)) as [<-|]; [|by rewrite lookup_insert_ne].
  rewrite lookup_insert_eq. destruct Hk as [->|[[E Hg]|[Hg E]]]; [by left| |].
  - right. rewrite E. by destruct Ht.
  - destruct Ht as [Ht|(p & id & Ht & _)]; congruence.
Qed.

Lemma task_ok_insert tasks k t j o : keeps tasks k t -> task_ok tasks j o -> task_ok (<[k := t]> tasks) j o.
Proof. intros Hk. destruct o; cbn [task_ok]; auto using traced_insert. Qed.

Lemma inv_task self k t dir registry budget waiting requests accepting :
  tracker_inv self -> slots_ok dir (<[k := t]> (tk_tasks self)) -> keeps (tk_tasks self) k t -> task_ok (tk_tasks self) k t ->
  (budget + Nat.b2n (is_challenged t) = tk_budget self + counts is_challenged (tk_tasks self !! k))%nat ->
  (waiting + Nat.b2n (holds_permit t) = tk_waiting self + counts holds_permit (tk_tasks self !! k))%nat ->
  accepting_inv accepting (<[k := t]> (tk_tasks self)) ->
  tracker_inv (mkTracker dir registry budget waiting requests (<[k := t]> (tk_tasks self)) accepting).
Proof.
  intros [Hs Ht Hb Hw _] Hd Hk Hok Eb Ew Ha. split; cbn [tk_directory tk_registry tk_budget tk_waiting tk_requests tk_tasks tk_accepting]; [done| | | |done].
  - intros j o. destruct (decide (k = j)) as [<-|]; [rewrite lookup_insert_eq; intros [= <-]; by apply task_ok_insert|].
    rewrite lookup_insert_ne by done. intros Ho. by apply task_ok_insert, Ht.
  - pose proof (count_insert is_challenged (tk_tasks self) k t). lia.
  - pose proof (count_insert holds_permit (tk_tasks self) k t). lia.
Qed.

(** The permits of the steps that come after the handshake. *)
Lemma accepting_moves self k o t connections :
  tracker_inv self -> tk_tasks self !! k = Some o -> source_of o = None -> source_of t = None ->
  (connections + Nat.b2n (holds_connection t) + Nat.b2n (is_joined t) =
   ac_connections (tk_accepting self) + Nat.b2n (holds_connection o) + Nat.b2n (is_joined o))%nat ->
  accepting_inv (set_connections (tk_accepting self) connections) (<[k := t]> (tk_tasks self)).
Proof. intros Hi Ho Hs Ht E. apply accepting_task; [apply Hi|by rewrite Ho|done|by rewrite Ho]. Qed.

(** Most steps leave the directory and the slot of the connection alone. *)
Lemma inv_quiet self k o t registry budget waiting requests connections :
  tracker_inv self -> tk_tasks self !! k = Some o -> o <> Gone -> holder t = holder o -> task_ok (tk_tasks self) k t ->
  (budget + Nat.b2n (is_challenged t) = tk_budget self + Nat.b2n (is_challenged o))%nat ->
  (waiting + Nat.b2n (holds_permit t) = tk_waiting self + Nat.b2n (holds_permit o))%nat ->
  source_of o = None -> source_of t = None ->
  (connections + Nat.b2n (holds_connection t) + Nat.b2n (is_joined t) =
   ac_connections (tk_accepting self) + Nat.b2n (holds_connection o) + Nat.b2n (is_joined o))%nat ->
  tracker_inv (mkTracker (tk_directory self) registry budget waiting requests (<[k := t]> (tk_tasks self)) (set_connections (tk_accepting self) connections)).
Proof.
  intros Hi Ho Hg Hh Hok Eb Ew Hs Ht Ec. assert (Hat : holder_at (tk_tasks self) k = holder o) by (unfold holder_at; by rewrite Ho).
  apply inv_task; [done| | |done|by rewrite Ho|by rewrite Ho|by eapply accepting_moves].
  - apply slots_ok_task; [congruence|apply Hi].
  - right. left. rewrite Hat. split; [done|congruence].
Qed.

Lemma inv_still self k o t registry budget waiting requests :
  tracker_inv self -> tk_tasks self !! k = Some o -> o <> Gone -> holder t = holder o -> task_ok (tk_tasks self) k t ->
  (budget + Nat.b2n (is_challenged t) = tk_budget self + Nat.b2n (is_challenged o))%nat ->
  (waiting + Nat.b2n (holds_permit t) = tk_waiting self + Nat.b2n (holds_permit o))%nat ->
  source_of o = None -> source_of t = None -> holds_connection t = holds_connection o -> is_joined t = is_joined o ->
  tracker_inv (mkTracker (tk_directory self) registry budget waiting requests (<[k := t]> (tk_tasks self)) (tk_accepting self)).
Proof.
  intros. replace (tk_accepting self) with (set_connections (tk_accepting self) (ac_connections (tk_accepting self))) by (by destruct (tk_accepting self)).
  apply (inv_quiet self k o); [done..|]. congruence.
Qed.

Lemma verify_registration_inv k r encoded p :
  (exists timestamp nonce, parse_command (rg_command r) = RegisterReverse (rg_node r) (rg_token r) timestamp nonce) ->
  verify_registration (export k) r encoded = Some (Ok p) -> pr_request p = r /\ proof_ok export k p.
Proof.
  intros Hc. unfold verify_registration. destruct (negb _); [done|]. destruct (export k _ _) as [exporter|] eqn:Ee; [|done].
  destruct (hex_decode encoded) as [proof|]; [|done]. destruct (hex_decode (rg_node r)) as [pin|] eqn:Ep; [|done].
  destruct (Nat.eqb_spec (length pin) 32) as [Hl|]; [cbn [negb]|done]. unfold VerifyingKey_from_bytes, Signature_from_slice.
  case_bool_decide as Hz; [done|]. destruct (negb _); [done|]. destruct (verify_strict _ _ _) as [[]|] eqn:Ev; [|done]. intros [= <-].
  split; [done|]. unfold proof_ok. cbn [pr_request pr_exporter pr_proof]. eauto 10.
Qed.

Ltac quiet :=
  match goal with Hk : tk_tasks ?self !! ?k = Some ?o |- _ =>
    first [eapply (inv_still self k o); [eassumption|exact Hk|done|done|cbn [task_ok rg_command rg_node rg_token]; eauto|cbn; lia|cbn; lia|done..]
          |eapply (inv_quiet self k o); [eassumption|exact Hk|done|done|cbn [task_ok rg_command rg_node rg_token]; eauto|cbn; lia|cbn; lia|done|done|cbn; lia]]
  end.

Lemma parse_command_register command node token timestamp nonce :
  parse_command command = RegisterReverse node token timestamp nonce -> valid_node node = true /\ valid_token token = true.
Proof.
  unfold parse_command. repeat case_match; intros; simplify_eq; by reflect_bools.
Qed.

Lemma accepting_still self k o t :
  tracker_inv self -> tk_tasks self !! k = Some o -> source_of o = None -> source_of t = None ->
  holds_connection t = holds_connection o -> is_joined t = is_joined o -> accepting_inv (tk_accepting self) (<[k := t]> (tk_tasks self)).
Proof.
  intros. replace (tk_accepting self) with (set_connections (tk_accepting self) (ac_connections (tk_accepting self))) by (by destruct (tk_accepting self)).
  eapply accepting_moves; [done..|]. congruence.
Qed.

Lemma on_command_inv self k command now challenge :
  tracker_inv self -> tk_tasks self !! k = Some Fresh -> tracker_inv (on_command difficulty self k command now challenge).1.
Proof.
  intros Hi Hk. unfold on_command. destruct (parse_command command) as [node token ts nonce|node token| |] eqn:Ec.
  - destruct (negb _); [quiet|]. destruct (tk_budget self) as [|budget] eqn:Eb; [quiet|].
    quiet.
  - destruct (select_waiting _ _ _) as [dir [slot|]] eqn:Es; destruct (slots_ok_select _ _ _ _ _ _ (ti_slots _ Hi) Es) as [Hd Hsel].
    + destruct (Hsel _ eq_refl) as (p & Hp & Hn & Ht).
      apply (inv_task self); [done| | |cbn [task_ok]; right; eauto|by rewrite Hk|by rewrite Hk|by eapply (accepting_still self)].
      * apply slots_ok_task; [|done]. unfold holder_at. by rewrite Hk.
      * right. right. split; [congruence|]. unfold holder_at. by rewrite Hk.
    + apply (inv_task self); [done| |by left|done|by rewrite Hk|by rewrite Hk|eapply (accepting_moves self); [done..|cbn; lia]].
      apply slots_ok_task; [|done]. unfold holder_at. by rewrite Hk.
  - quiet.
  - quiet.
Qed.

Lemma on_proof_inv self k r encoded :
  tracker_inv self -> tk_tasks self !! k = Some (Challenged r) -> tracker_inv (on_proof export self k r encoded).1.
Proof.
  intros Hi Hk. unfold on_proof. pose proof (ti_tasks _ Hi _ _ Hk) as Hc. cbn [task_ok] in Hc.
  destruct (verify_registration _ _ _) as [[p|reply]|] eqn:Ev; [|quiet..].
  apply verify_registration_inv in Ev as [_ Hp]; [|done]. cbn [tk_registry set_permits]. destruct (check_and_record _ _ _ _) as [registry []]; quiet.
Qed.

Lemma on_enter_inv self k p id :
  tracker_inv self -> tk_tasks self !! k = Some (LetIn p) -> tracker_inv (on_enter self k p id).1.
Proof.
  intros Hi Hk. pose proof (ti_tasks _ Hi _ _ Hk) as Hp. cbn [task_ok] in Hp. unfold on_enter.
  assert (Hat : holder_at (tk_tasks self) k = None) by (unfold holder_at; by rewrite Hk).
  destruct (enter_directory _ _ _ _) as [dir [error|]] eqn:Ee.
  - apply enter_refused in Ee as ->. quiet.
  - apply (inv_task self); [done|eapply slots_ok_enter; [apply Hi|done|exact Ee]| |done|by rewrite Hk|by rewrite Hk|by eapply (accepting_still self)].
    right. right. split; [congruence|done].
Qed.

Lemma on_ask_inv self k node token slot :
  tracker_inv self -> tk_tasks self !! k = Some (Selected node token slot) -> tracker_inv (on_ask self k node token slot).1.
Proof.
  intros Hi Hk. pose proof (ti_tasks _ Hi _ _ Hk) as Ht. cbn [task_ok] in Ht. unfold on_ask. destruct (receiving _); quiet.
Qed.

(** The stream of [k] and its permit are with the connector, or dropped. *)
Lemma on_hand_over_inv self k p id connector :
  tracker_inv self -> tk_tasks self !! k = Some (Handing p id connector) -> tracker_inv (on_hand_over self k p id connector).1.
Proof.
  intros Hi Hk. pose proof (ti_tasks _ Hi _ _ Hk) as Hp. cbn [task_ok] in Hp. unfold on_hand_over.
  assert (Hi' : tracker_inv (release (set_task self k (Leaving p id)) 1)) by quiet.
  destruct (tk_tasks (set_task self k (Leaving p id)) !! connector) as [[]|] eqn:Ec; try exact Hi'.
  destruct (Nat.eqb_spec registrant k) as [->|]; [|exact Hi']. pose proof (ti_tasks _ Hi' _ _ Ec) as Ht. cbn [task_ok] in Ht.
  assert (Hj : tracker_inv (set_task (set_accepting (release (set_task self k (Leaving p id)) 1)
                              (set_connections (tk_accepting self) (ac_connections (tk_accepting self)))) connector (Joined node token k p))).
  { eapply (inv_quiet (release (set_task self k (Leaving p id)) 1)); [exact Hi'|exact Ec|done|done| |cbn; lia|cbn; lia|done|done|cbn; lia].
    cbn [task_ok]. split; [exact Hp|].
    destruct Ht as [Ht|(q & i & Hq & Hn & Htok)]; [cbn in Ht; by rewrite lookup_insert_eq in Ht|].
    unfold holder_at in Hq. cbn in Hq. rewrite lookup_insert_eq in Hq. cbn in Hq. by injection Hq as <- <-. }
  cbn in Hj |- *. unfold set_task. cbn. by replace (tk_accepting self) with (set_connections (tk_accepting self) (ac_connections (tk_accepting self)))
    by (by destruct (tk_accepting self)).
Qed.

Lemma on_leave_inv self k p id :
  tracker_inv self -> tk_tasks self !! k = Some (Leaving p id) -> tracker_inv (on_leave self k p id).1.
Proof.
  intros Hi Hk. unfold on_leave. apply (inv_task self); [done| |by left|done|by rewrite Hk|rewrite Hk; cbn; lia|by eapply (accepting_still self)].
  apply slots_ok_leave; [apply Hi|]. unfold holder_at. by rewrite Hk.
Qed.

(** The end of a handshake, whichever way it goes. *)
Lemma shaken_inv self k source :
  tracker_inv self -> tk_tasks self !! k = Some (Shaking source) ->
  tracker_inv (set_task (set_accepting self (end_handshake (tk_accepting self) source)) k Fresh).
Proof.
  intros Hi Hk. apply (inv_task self); [done| | |done|by rewrite Hk|by rewrite Hk|apply accepting_shaken; [apply Hi|done]].
  - apply slots_ok_task; [|apply Hi]. unfold holder_at. by rewrite Hk.
  - right. right. unfold holder_at. by rewrite Hk.
Qed.

Lemma ends_again self k t : ends (set_task self k t) k = ends self k.
Proof. unfold ends, release, set_task, set_accepting. cbn. by rewrite insert_insert_eq. Qed.

Lemma handle_step_inv self k ev self' replies : tracker_inv self -> handle_step difficulty export self k ev = Some (self', replies) -> tracker_inv self'.
Proof.
  intros Hi. unfold handle_step. destruct (tk_tasks self !! k) as [t|] eqn:Hk; [|done].
  pose proof (ti_tasks _ Hi _ _ Hk) as Ht.
  assert (Hfst : forall x : Tracker * list bytes, tracker_inv x.1 -> Some x = Some (self', replies) -> tracker_inv self') by (by intros [x l] Hx [= <- <-]).
  destruct t, ev; try done; try (intros [= <- <-]; quiet).
  - intros [= <- <-]. by apply shaken_inv.
  - intros [= <- <-]. rewrite <- (ends_again _ k Fresh). pose proof (shaken_inv _ _ _ Hi Hk) as Hi'.
    assert (Hk' : tk_tasks (set_task (set_accepting self (end_handshake (tk_accepting self) source)) k Fresh) !! k = Some Fresh) by apply lookup_insert_eq.
    revert Hi' Hk'. generalize (set_task (set_accepting self (end_handshake (tk_accepting self) source)) k Fresh). clear. intros self Hi Hk. quiet.
  - by apply Hfst, on_command_inv.
  - by apply Hfst, on_proof_inv.
  - apply Hfst. unfold on_admit. destruct (tk_waiting self) eqn:Ew; quiet.
  - by apply Hfst, on_enter_inv.
  - destruct (tk_requests self !! k); [|done]. intros [= <- <-]. quiet.
  - by apply Hfst, on_hand_over_inv.
  - by apply Hfst, on_leave_inv.
  - by apply Hfst, on_ask_inv.
Qed.

Lemma set_accepting_inv self accepting : tracker_inv self -> accepting_inv accepting (tk_tasks self) -> tracker_inv (set_accepting self accepting).
Proof. intros [? ? ? ? _] Ha. by split. Qed.

Lemma on_accept_inv self k ip now : tracker_inv self -> tk_tasks self !! k = None -> tracker_inv (on_accept self k ip now).
Proof.
  intros Hi Hk. unfold on_accept. destruct (tracker_accept _ _ _) as [accepting [source|]] eqn:Ea.
  - apply (inv_task self); [done| | |done|by rewrite Hk|by rewrite Hk|eapply accepting_starts; [apply Hi|done|exact Ea]].
    + apply slots_ok_task; [|apply Hi]. unfold holder_at. by rewrite Hk.
    + right. right. unfold holder_at. by rewrite Hk.
  - apply set_accepting_inv; [done|]. eapply accepting_refused; [apply Hi|exact Ea].
Qed.

Lemma server_step_inv self ev self' replies : tracker_inv self -> server_step difficulty export self ev = Some (self', replies) -> tracker_inv self'.
Proof.
  intros Hi. destruct ev as [k ip now|k ev|now]; cbn [server_step].
  - destruct (tk_tasks self !! k) eqn:Hk; [done|]. intros [= <- <-]. by apply on_accept_inv.
  - by apply handle_step_inv.
  - intros [= <- <-]. apply set_accepting_inv; [done|]. destruct (ti_accepting _ Hi) as [Hc Hh (live & Hl & Hp)]. split; [done|done|].
    exists live. split; [done|]. by apply permits_sweep.
Qed.

Lemma tracker_reachable_inv self : tracker_reachable difficulty export self -> tracker_inv self.
Proof.
  induction 1 as [|self ev self' replies _ IH Hs]; [|by eapply server_step_inv].
  split; cbn; [done..|]. split; [done..|]. exists []. split; [done|apply permits_empty].
Qed.
End Invariant.

(** *** Every slot is paid for *)
Definition slots_of (l : list (bytes * Entry)) : list Waiting := l ≫= fun e => en_waiting e.2.
Definition all_slots (dir : Directory) : list Waiting := slots_of (map_to_list dir).

Lemma slots_of_distinct dir tasks l :
  slots_ok dir tasks -> NoDup l.*1 -> (forall e, e ∈ l -> dir !! e.1 = Some e.2) -> NoDup (w_request <$> slots_of l).
Proof.
  intros Hok. induction l as [|[node e] l IH]; intros Hd Hin; [apply NoDup_nil_2|].
  cbn [fmap list_fmap fst] in Hd. apply NoDup_cons in Hd as [Hn Hd]. unfold slots_of. cbn [mbind list_bind snd]. rewrite fmap_app. apply NoDup_app.
  assert (He : dir !! node = Some e) by (apply (Hin (node, e)); by left). split_and!.
  - by eapply so_distinct.
  - intros j (slot & -> & Hs)%list_elem_of_fmap (slot' & Ej & ([node' e'] & Hs' & He')%list_elem_of_bind)%list_elem_of_fmap.
    destruct (so_live _ _ Hok node e slot He Hs) as (p & Hp & Hpn & _).
    destruct (so_live _ _ Hok node' e' slot' (Hin (node', e') ltac:(by right)) Hs') as (p' & Hp' & Hpn' & _).
    rewrite <- Ej, Hp in Hp'. injection Hp' as <- _. apply Hn. rewrite <- Hpn, Hpn'. apply list_elem_of_fmap. by exists (node', e').
  - apply IH; [done|]. intros x Hx. apply Hin. by right.
Qed.

Lemma all_slots_bounded dir tasks : slots_ok dir tasks -> (length (all_slots dir) <= count holds_permit tasks)%nat.
Proof.
  intros Hok. unfold count. set (kept := filter _ tasks). rewrite <- (length_fmap w_request), <- length_map_to_list, <- (length_fmap fst (map_to_list kept)).
  apply submseteq_length, NoDup_submseteq.
  - eapply slots_of_distinct; [done|apply NoDup_fst_map_to_list|]. intros [node e] He. by apply elem_of_map_to_list in He.
  - intros j (slot & -> & ([node e] & Hs & He)%list_elem_of_bind)%list_elem_of_fmap. apply elem_of_map_to_list in He. cbn [snd] in Hs.
    destruct (so_live _ _ Hok node e slot He Hs) as (p & Hp & _). unfold holder_at in Hp. destruct (tasks !! w_request slot) as [t|] eqn:Et; [|done].
    apply list_elem_of_fmap. exists (w_request slot, t). split; [done|]. apply elem_of_map_to_list, map_lookup_filter_Some. split; [done|]. by destruct t.
Qed.

Lemma join_length sep (n : nat) parts : Forall (fun p => length p = n) parts -> (length (join sep parts) <= length parts * S n)%nat.
Proof.
  induction 1 as [|p parts Hp _ IH]; [done|]. cbn [length]. destruct parts as [|q parts]; [cbn [join length]; lia|].
  change (join sep (p :: q :: parts)) with (p ++ sep :: join sep (q :: parts)). rewrite length_app. cbn [length] in *. lia.
Qed.

Lemma waiting_nodes_perm `{HashOrder} `{!HashOrderLaws} dir :
  waiting_nodes dir ≡ₚ fst <$> filter (fun e : bytes * Entry => en_waiting e.2 <> []) (map_to_list dir).
Proof. unfold waiting_nodes. rewrite sort_by_perm. by rewrite (hash_iter_perm dir). Qed.

Lemma waiting_nodes_count `{HashOrder} `{!HashOrderLaws} dir : (length (waiting_nodes dir) <= length (all_slots dir))%nat.
Proof.
  rewrite (Permutation_length (waiting_nodes_perm dir)), length_fmap. unfold all_slots, slots_of. induction (map_to_list dir) as [|[node e] l IH]; [done|].
  rewrite filter_cons, bind_cons, length_app. destruct (decide _) as [Hne|]; [|lia].
  cbn [snd] in *. destruct (en_waiting e); [done|]. cbn [length]. lia.
Qed.

(** *** Control messages on a socket *)
Definition control_ok (value : bytes) : Prop := value <> [] /\ Z.of_nat (length value) <= MAX_CONTROL.
Definition control (value : bytes) : bytes := be_bytes 4 (Z.of_nat (length value)) ++ value.

Lemma write_control_ok value c : control_ok value -> cn_room c = None -> write_control value c = (after c (cn_in c) (control value), Ok tt).
Proof.
  intros [Hne Hl] Hc. unfold write_control, bind, ensure. rewrite bool_decide_false, (proj2 (Z.leb_le _ _)) by done. cbn [negb andb]. unfold ret.
  rewrite write_ok by done. rewrite write_ok by done. by rewrite after_after.
Qed.

Lemma read_control_ok value rest c :
  control_ok value -> utf8_valid value = true -> cn_in c = control value ++ rest -> read_control c = (after c rest [], Ok value).
Proof.
  intros [Hne Hl] Hu Hin. unfold control in Hin. rewrite <- app_assoc in Hin. unfold read_control, bind, ensure.
  rewrite (read_ok 4 (be_bytes 4 (Z.of_nat (length value))) (value ++ rest) c Hin (be_bytes_length _ _)).
  unfold MAX_CONTROL in *. rewrite from_be_be_bytes by (change (256 ^ Z.of_nat 4) with 4294967296; lia).
  assert (Z.of_nat (length value) <> 0) by (destruct value; [done|cbn [length]; lia]).
  rewrite (proj2 (Z.eqb_neq _ _)), (proj2 (Z.leb_le _ _)) by done. cbn [negb andb]. unfold ret.
  rewrite (read_ok _ value rest) by (done || lia). unfold some_or, ret. rewrite from_utf8_valid by done. by rewrite after_after.
Qed.

(** ** Properties *)
Section Properties.
Context `{IdentityPrimitives} `{HexCodec} `{HashOrder} `{!HashOrderLaws}.
Context (difficulty : Z) (export : nat -> bytes -> bytes -> result IoError bytes).

Lemma waiting_node_live self node : tracker_inv export self -> node ∈ waiting_nodes (tk_directory self) ->
  exists k p id, holder_at (tk_tasks self) k = Some (p, id) /\ rg_node (pr_request p) = node /\ proof_ok export k p.
Proof.
  intros [Hs Ht _ _] Hin. rewrite waiting_nodes_perm in Hin. apply list_elem_of_fmap in Hin as ([node' e] & -> & [_ He]%list_elem_of_filter).
  apply elem_of_map_to_list in He. destruct (so_node _ _ Hs _ _ He) as (k & p & id & Hk & Hn). exists k, p, id. split; [done|]. split; [done|].
  unfold holder_at in Hk. destruct (tk_tasks self !! k) as [t|] eqn:Et; [|done]. apply Ht in Et. by destruct t; cbn in Hk; simplify_eq.
Qed.

Lemma valid_token_length token : valid_token token = true -> length token = 64%nat.
Proof. unfold valid_token. intros [Hl _]%andb_true_iff. by apply Nat.eqb_eq in Hl. Qed.

(** C28: A client is only joined to the relay it asked for. Whatever the
    interleaving of connections, a connection that was joined for a node and a
    token got the stream of a connection that registered exactly these, and
    that proved it: the identity behind the node's name signed the command,
    the challenge it was sent and the exporter of its own TLS channel. *)
Theorem rendezvous_authentic (self : Tracker) (j k : nat) (node token : bytes) (p : Proved) :
  tracker_reachable difficulty export self -> tk_tasks self !! j = Some (Joined node token k p) ->
  rg_node (pr_request p) = node /\ rg_token (pr_request p) = token /\ proof_ok export k p.
Proof. intros Hr%tracker_reachable_inv Hj. by destruct (ti_tasks _ _ Hr _ _ Hj) as (? & ? & ?). Qed.

(** The tracker's tables are bounded and its listing can always be sent.
    At most three connections wait for a node and 128 in all, at most 16
    proofs are being checked; a listed node has a live connection that proved
    its identity; and the listing never exceeds a control message. *)
Theorem tracker_bounded (self : Tracker) (c : Conn) :
  tracker_reachable difficulty export self -> cn_room c = None ->
  (forall node e, tk_directory self !! node = Some e -> (length (en_waiting e) <= 3)%nat) /\
  (length (all_slots (tk_directory self)) <= 128)%nat /\ (count is_challenged (tk_tasks self) <= 16)%nat /\
  (forall node, node ∈ waiting_nodes (tk_directory self) ->
     exists k p id, holder_at (tk_tasks self) k = Some (p, id) /\ rg_node (pr_request p) = node /\ proof_ok export k p) /\
  (write_control (list_nodes (tk_directory self)) c).2 = Ok tt.
Proof.
  intros Hr%tracker_reachable_inv Hc. pose proof Hr as [Hs _ Hb Hw _].
  assert (Hslots : (length (all_slots (tk_directory self)) <= 128)%nat).
  { pose proof (all_slots_bounded _ _ Hs). change MAX_WAITING with 128%nat in Hw. lia. }
  assert (Hlive := fun node => waiting_node_live self node Hr). split_and!; [exact (so_size _ _ Hs)|done|unfold DEFAULT_MAX_TRACKER_HANDSHAKES in Hb; lia|done|].
  assert (Hlen : (length (join 10 (waiting_nodes (tk_directory self))) <= 128 * 65)%nat).
  { etrans; [apply (join_length _ 64)|]; [|pose proof (waiting_nodes_count (tk_directory self)); lia].
    apply Forall_forall. intros node (k & p & id & _ & <- & (ts & n & [Hp _]%parse_command_register) & _)%Hlive. by apply valid_token_length. }
  unfold list_nodes. case_bool_decide as Hempty; rewrite write_control_ok; try done. unfold control_ok, MAX_CONTROL. split; [done|lia].
Qed.

(** *** Draining *)
Lemma tracker_run_app self self1 self2 evs1 evs2 :
  tracker_run difficulty export self evs1 = Some self1 -> tracker_run difficulty export self1 evs2 = Some self2 ->
  tracker_run difficulty export self (evs1 ++ evs2) = Some self2.
Proof.
  revert self. induction evs1 as [|ev evs1 IH]; intros self; cbn [tracker_run app]; [by intros [= ->]|].
  destruct (server_step _ _ _ _) as [[self' ?]|]; [apply IH|done].
Qed.

Lemma tracker_run_reachable self evs self' :
  tracker_reachable difficulty export self -> tracker_run difficulty export self evs = Some self' -> tracker_reachable difficulty export self'.
Proof.
  revert self. induction evs as [|ev evs IH]; intros self Hr; cbn [tracker_run]; [by intros [= <-]|].
  destruct (server_step _ _ _ _) as [[self1 replies]|] eqn:Es; [|done]. apply IH. by eapply tracker_steps.
Qed.

(** How far a connection is from its end. *)
Definition rank (t : Task) : nat :=
  match t with
  | Gone => 0
  | Shaking _ | Fresh | Challenged _ | Leaving _ _ | Expecting _ _ _ | Joined _ _ _ _ => 1
  | Waits _ _ | Handing _ _ _ | Selected _ _ _ => 2
  | LetIn _ => 3
  | Recorded _ => 4
  end.

(** A connection can always go on by itself, without touching the others. *)
Lemma task_advances self k t : tk_tasks self !! k = Some t -> t <> Gone ->
  exists ev self' replies t', handle_step difficulty export self k ev = Some (self', replies) /\
    tk_tasks self' = <[k := t']> (tk_tasks self) /\ (rank t' < rank t)%nat.
Proof.
  intros Hk Hg. unfold handle_step. rewrite Hk. destruct t as [source| |r|p|p|p id|p id j|p id|node token slot|node token j|node token j p|]; try done.
  all: try (exists Fails; do 3 eexists; split; [reflexivity|]; split; [reflexivity|cbn; lia]).
  - exists Admits. unfold on_admit. destruct (tk_waiting self); do 3 eexists; (split; [reflexivity|]; split; [reflexivity|cbn; lia]).
  - exists (Enters 0). unfold on_enter. destruct (enter_directory _ _ _ _) as [dir []]; do 3 eexists; (split; [reflexivity|]; split; [reflexivity|cbn; lia]).
  - exists Leaves. do 3 eexists. split; [reflexivity|]. split; [reflexivity|cbn; lia].
  - exists Asks. unfold on_ask. destruct (receiving _); do 3 eexists; (split; [reflexivity|]; split; [reflexivity|cbn; lia]).
Qed.

Lemma task_ends n self k t : (rank t <= n)%nat -> tk_tasks self !! k = Some t ->
  exists evs self', tracker_run difficulty export self (uncurry Runs <$> evs) = Some self' /\ tk_tasks self' = <[k := Gone]> (tk_tasks self).
Proof.
  revert self t. induction n as [|n IH]; intros self t Hn Hk.
  { exists [], self. split; [done|]. rewrite insert_id; [done|]. destruct t; cbn in Hn; done || lia. }
  assert (t = Gone \/ t <> Gone) as [->|Hg] by (destruct t; (by left) || (by right)).
  { exists [], self. split; [done|]. by rewrite insert_id. }
  destruct (task_advances self k t Hk Hg) as (ev & self1 & replies & t' & Es & Et & Hr).
  destruct (IH self1 t') as (evs & self' & Hrun & Hend); [lia|by rewrite Et, lookup_insert_eq|].
  exists ((k, ev) :: evs), self'. cbn. rewrite Es. split; [done|]. by rewrite Hend, Et, insert_insert_eq.
Qed.

Lemma tasks_end (l : list nat) self :
  exists evs self', tracker_run difficulty export self (uncurry Runs <$> evs) = Some self' /\
    forall k t, tk_tasks self' !! k = Some t -> t = Gone \/ tk_tasks self !! k = Some t /\ (k ∉ l).
Proof.
  revert self. induction l as [|k l IH]; intros self.
  { exists [], self. split; [done|]. intros k t Hk. right. split; [done|]. apply not_elem_of_nil. }
  destruct (tk_tasks self !! k) as [t|] eqn:Hk.
  - destruct (task_ends (rank t) self k t ltac:(lia) Hk) as (evs1 & self1 & Hr1 & He1). destruct (IH self1) as (evs2 & self2 & Hr2 & He2).
    exists (evs1 ++ evs2), self2. rewrite fmap_app. split; [by eapply tracker_run_app|]. intros j u Hj. destruct (He2 j u Hj) as [->|[Hj1 Hnot]]; [by left|].
    rewrite He1 in Hj1. destruct (decide (k = j)) as [->|]; [left; rewrite lookup_insert_eq in Hj1; by injection Hj1 as <-|].
    rewrite lookup_insert_ne in Hj1 by done. right. split; [done|]. by apply not_elem_of_cons.
  - destruct (IH self) as (evs & self' & Hr & He). exists evs, self'. split; [done|]. intros j u Hj.
    destruct (He j u Hj) as [->|[Hj1 Hnot]]; [by left|]. right. split; [done|]. apply not_elem_of_cons. split; [congruence|done].
Qed.

(** When every task has come to its end nothing is left of it. *)
Lemma tracker_drained self :
  tracker_inv export self -> (forall k t, tk_tasks self !! k = Some t -> t = Gone) ->
  tk_directory self = ∅ /\ tk_budget self = DEFAULT_MAX_TRACKER_HANDSHAKES /\ tk_waiting self = MAX_WAITING /\
  ac_connections (tk_accepting self) = DEFAULT_MAX_TRACKER_CONNECTIONS /\ ac_handshakes (tk_accepting self) = DEFAULT_MAX_TRACKER_HANDSHAKES /\
  forall g s, sa_sources (ac_sources (tk_accepting self)) !! g = Some s -> sem_available (ac_semaphores (tk_accepting self)) (src_slots s) = SOURCE_SLOTS.
Proof.
  intros [Hs _ Hb Hw [Hc Hh (live & Hl & Hp)]] Hgone.
  assert (Hnone : forall P, P Gone = false -> count P (tk_tasks self) = 0%nat) by (intros P HP; apply count_none; intros k t Hk; by rewrite (Hgone k t Hk)).
  rewrite !Hnone, !Nat.add_0_r in * by done. split_and!; try done.
  - apply map_empty. intros node. destruct (tk_directory self !! node) as [e|] eqn:He; [|done].
    destruct (so_node _ _ Hs node e He) as (k & p & id & Hk & _). unfold holder_at in Hk. destruct (tk_tasks self !! k) as [t|] eqn:Et; [|done].
    by rewrite (Hgone k t Et) in Hk.
  - intros g s Hg. assert (live = []) as ->.
    { destruct live as [|[g' source] live]; [done|]. cbn in Hl. assert (Hin : source ∈ shaking (tk_tasks self)) by (rewrite <- Hl; apply list_elem_of_here).
      apply list_elem_of_omap in Hin as ([k t] & Ht%elem_of_map_to_list & E). by rewrite (Hgone k t Ht) in E. }
    destruct (pi_count _ _ _ Hp g s Hg) as (_ & _ & E). unfold held_from in E. cbn in E. lia.
Qed.

(** C29: no registration outlives its connection and no permit is lost. From
    every state the tracker can reach, with any number of handshakes, commands,
    proofs, registrations, handovers and tunnels under way, the connections can
    all come to their end by steps of their own. Whenever they have, however it
    came about, the directory is empty and every permit is free again: those of
    connections, also of the ones whose stream was handed over, of handshakes, of
    each source in the table, of registrations being checked and of waiting. *)
Theorem tracker_drains (self : Tracker) :
  tracker_reachable difficulty export self ->
  (exists evs self', tracker_run difficulty export self (uncurry Runs <$> evs) = Some self' /\ forall k t, tk_tasks self' !! k = Some t -> t = Gone) /\
  (forall evs self', tracker_run difficulty export self evs = Some self' -> (forall k t, tk_tasks self' !! k = Some t -> t = Gone) ->
     tk_directory self' = ∅ /\ tk_budget self' = DEFAULT_MAX_TRACKER_HANDSHAKES /\ tk_waiting self' = MAX_WAITING /\
     ac_connections (tk_accepting self') = DEFAULT_MAX_TRACKER_CONNECTIONS /\ ac_handshakes (tk_accepting self') = DEFAULT_MAX_TRACKER_HANDSHAKES /\
     forall g s, sa_sources (ac_sources (tk_accepting self')) !! g = Some s ->
       sem_available (ac_semaphores (tk_accepting self')) (src_slots s) = SOURCE_SLOTS).
Proof.
  intros Hr. split.
  - destruct (tasks_end (map_to_list (tk_tasks self)).*1 self) as (evs & self' & Hrun & Hend). exists evs, self'. split; [done|].
    intros k t Hk. destruct (Hend k t Hk) as [|[Hk0 Hnot]]; [done|]. destruct Hnot. apply list_elem_of_fmap. exists (k, t). by rewrite elem_of_map_to_list.
  - intros evs self' Hrun. apply tracker_drained. eapply tracker_reachable_inv, tracker_run_reachable; done.
Qed.
End Properties.

(** ** A registration that succeeds *)
Definition graphic (b : Z) : Prop := 33 <= b <= 126.

Lemma graphic_not_space b rest : graphic b -> whitespace_len (b :: rest) = 0%nat.
Proof.
  unfold graphic. intros Hb. destruct b as [|p|p]; [lia| |lia]. do 7 (destruct p as [p|p|]; try (exfalso; lia); try reflexivity).
Qed.

Lemma split_words_word fuel w word l :
  Forall graphic w -> (length (w ++ l) <= fuel)%nat -> split_words fuel word (w ++ l) = split_words (fuel - length w) (word ++ w) l.
Proof.
  revert fuel word. induction w as [|b w IH]; intros fuel word Hw Hf; [by rewrite app_nil_r, Nat.sub_0_r|].
  apply Forall_cons in Hw as [Hb Hw]. cbn [app length] in Hf. destruct fuel as [|fuel]; [lia|].
  cbn [app split_words]. rewrite graphic_not_space by done. rewrite IH by (done || lia). by rewrite <- app_assoc.
Qed.

Lemma split_words_end fuel word : split_words fuel word [] = if bool_decide (word = []) then [] else [word].
Proof. by destruct fuel. Qed.

Definition word_ok (w : bytes) : Prop := w <> [] /\ Forall graphic w.

Lemma split_words_join ws fuel : Forall word_ok ws -> (length (join 32 ws) <= fuel)%nat -> split_words fuel [] (join 32 ws) = ws.
Proof.
  revert fuel. induction ws as [|w ws IH]; intros fuel Hws Hf; [by rewrite split_words_end|].
  apply Forall_cons in Hws as [[Hne Hg] Hws]. destruct ws as [|w' ws].
  { cbn [join] in *. rewrite <- (app_nil_r w) at 1. rewrite split_words_word, split_words_end by (rewrite ?app_nil_r; done). by rewrite bool_decide_false. }
  change (join 32 (w :: w' :: ws)) with (w ++ 32 :: join 32 (w' :: ws)) in *. rewrite length_app in Hf. cbn [length] in Hf.
  rewrite split_words_word by (rewrite ?length_app; cbn [length]; done || lia). cbn [app].
  destruct (fuel - length w)%nat as [|fuel'] eqn:Ef; [lia|]. change (split_words (S fuel') w (32 :: join 32 (w' :: ws)))
    with ((if bool_decide (w = []) then [] else [w]) ++ split_words fuel' [] (join 32 (w' :: ws))).
  rewrite bool_decide_false by done. cbn [app]. by rewrite IH by (done || lia).
Qed.

Lemma split_whitespace_join ws : Forall word_ok ws -> split_whitespace (join 32 ws) = ws.
Proof. intros Hw. by apply split_words_join. Qed.

Lemma hex_graphic l : forallb hex_char l = true -> Forall graphic l.
Proof.
  intros Hl. apply Forall_forall. intros b Hb. rewrite forallb_forall in Hl. specialize (Hl b ltac:(by apply list_elem_of_In)).
  unfold hex_char, in_range in Hl. unfold graphic. apply orb_true_iff in Hl as [Hl|Hl]; apply andb_true_iff in Hl as [?%Z.leb_le ?%Z.leb_le]; lia.
Qed.

Lemma token_word token : valid_token token = true -> word_ok token.
Proof.
  intros Hv. pose proof (valid_token_length _ Hv). apply andb_true_iff in Hv as [_ Hv]. split; [by intros ->|by apply hex_graphic].
Qed.

(** *** Numbers *)
Definition is_digit (b : Z) : Prop := 48 <= b <= 57.

Lemma display_digits_ok fuel n acc : 0 <= n < 10 ^ Z.of_nat fuel -> n <= u64_MAX -> digits_value 0 (display_digits fuel n acc) = digits_value n acc.
Proof.
  revert n acc. induction fuel as [|fuel IH]; intros n acc Hn Hm; cbn [display_digits]; [by replace n with 0 by (cbn in Hn; lia)|].
  assert (Hd : forall a d, 0 <= d < 10 -> a * 10 + d <= u64_MAX -> digits_value a ((48 + d) :: acc) = digits_value (a * 10 + d) acc).
  { intros a d Hd Ha. cbn [digits_value]. unfold in_range. rewrite !(proj2 (Z.leb_le _ _)) by lia. cbn [andb]. f_equal. lia. }
  destruct (Z.ltb_spec n 10); [rewrite Hd by lia; f_equal; lia|].
  assert (n = n / 10 * 10 + n mod 10) by (Z.to_euclidean_division_equations; lia). assert (0 <= n mod 10 < 10) by (by apply Z.mod_pos_bound).
  rewrite IH; [rewrite Hd by lia; f_equal; lia| |Z.to_euclidean_division_equations; lia].
  rewrite Nat2Z.inj_succ, Z.pow_succ_r in Hn by lia. Z.to_euclidean_division_equations; lia.
Qed.

Lemma display_digits_digits fuel n acc : 0 <= n -> Forall is_digit acc -> Forall is_digit (display_digits fuel n acc).
Proof.
  revert n acc. induction fuel as [|fuel IH]; intros n acc Hn Ha; cbn [display_digits]; [done|]. unfold is_digit in *. destruct (Z.ltb_spec n 10).
  - constructor; [lia|done].
  - apply IH; [Z.to_euclidean_division_equations; lia|]. constructor; [|done]. pose proof (Z.mod_pos_bound n 10). lia.
Qed.

Lemma display_digits_length fuel n acc : (length acc <= length (display_digits fuel n acc) <= fuel + length acc)%nat /\ (fuel <> O -> display_digits fuel n acc <> []).
Proof.
  revert n acc. induction fuel as [|fuel IH]; intros n acc; cbn [display_digits]; [split; [lia|done]|].
  destruct (n <? 10); [cbn [length]; split; [lia|done]|]. destruct (IH (n / 10) ((48 + n mod 10) :: acc)) as [Hl _]. cbn [length] in Hl. split; [lia|].
  intros _ E. rewrite E in Hl. cbn in Hl. lia.
Qed.

Lemma display_u64_ok n : is_u64 n -> parse_u64 (display_u64 n) = Some n /\ word_ok (display_u64 n) /\ (length (display_u64 n) <= 20)%nat.
Proof.
  intros Hn. unfold display_u64. destruct (display_digits_length 20 n []) as [Hl Hne]. pose proof (display_digits_digits 20 n []) as Hd.
  pose proof (display_digits_ok 20 n []) as Hv. unfold is_u64, u64_MAX in *. change (10 ^ Z.of_nat 20) with 100000000000000000000 in Hv.
  specialize (Hd ltac:(lia) ltac:(constructor)). specialize (Hv ltac:(lia) ltac:(lia)). cbn [digits_value length] in *. split; [|split].
  - unfold parse_u64. destruct (display_digits 20 n []) as [|b l]; [by destruct Hne|]. apply Forall_cons in Hd as [Hb _]. unfold is_digit in Hb.
    by rewrite (proj2 (Z.eqb_neq b 43)) by lia.
  - split; [by apply Hne|]. eapply Forall_impl; [exact Hd|]. unfold is_digit, graphic. lia.
  - lia.
Qed.

Section Completeness.
Context `{IdentityPrimitives} `{HexCodec} `{HashOrder} `{!IdentityLaws} `{!HexLaws}.

Lemma verifying_key_bytes sk : length (verifying_key sk) = 32%nat /\ is_bytes (verifying_key sk).
Proof. split; [apply sha256_length|apply sha256_bytes]. Qed.

Lemma node_valid sk : valid_token (hex_encode (verifying_key sk)) = true.
Proof.
  destruct (verifying_key_bytes sk) as [Hl Hb]. unfold valid_token. rewrite hex_encode_length, Hl, hex_encode_chars by done. done.
Qed.

Lemma register_command_ok sk token ts nonce : valid_token token = true -> is_u64 ts -> is_u64 nonce ->
  parse_command (register_command sk token ts nonce) =
    RegisterReverse (hex_encode (verifying_key sk)) token (display_u64 ts) (display_u64 nonce) /\
  control_ok (register_command sk token ts nonce) /\ (length (register_command sk token ts nonce) <= 200)%nat.
Proof.
  intros Ht Hts Hn. destruct (display_u64_ok ts Hts) as (_ & Hw1 & Hl1). destruct (display_u64_ok nonce Hn) as (_ & Hw2 & Hl2).
  pose proof (node_valid sk) as Hnode. pose proof (valid_token_length _ Ht) as Htl. pose proof (valid_token_length _ Hnode) as Hnl.
  assert (Hlen : (length (register_command sk token ts nonce) <= 200)%nat).
  { unfold register_command. cbn [join]. repeat (rewrite length_app || cbn [length]). change (length (str "REGISTER_REVERSE")) with 16%nat. lia. }
  split_and!; [|split; [|unfold MAX_CONTROL; lia]|done].
  - unfold parse_command, register_command. rewrite split_whitespace_join.
    + rewrite bool_decide_true by done. unfold valid_node. by rewrite Hnode, Ht.
    + repeat (apply Forall_cons; split); [|by apply token_word..|done|done|done].
      split; [done|]. let l := eval vm_compute in (str "REGISTER_REVERSE") in change (str "REGISTER_REVERSE") with l.
      by repeat (apply Forall_cons; split; [unfold graphic; lia|]).
  - unfold register_command. by cbn [join].
Qed.

Lemma proof_control sk m proof : identity_sign sk m = Some proof ->
  control_ok (hex_encode proof) /\ length (hex_encode proof) = (PROOF_SIZE * 2)%nat.
Proof.
  intros Hs. destruct (identity_sign_verifies _ _ _ Hs) as [Hl _]. rewrite hex_encode_length, Hl. split; [|lia]. split.
  - intros E. apply (f_equal length) in E. rewrite hex_encode_length, Hl in E. done.
  - rewrite hex_encode_length, Hl. unfold MAX_CONTROL. unfold PROOF_SIZE, PUBLIC_KEY_SIZE, SIGNATURE_SIZE. lia.
Qed.

Lemma hex_utf8 prefix l : is_ascii prefix = true -> is_bytes l -> utf8_valid (prefix ++ hex_encode l) = true.
Proof.
  intros Hp Hl. apply ascii_utf8. unfold is_ascii. rewrite forallb_app. apply andb_true_iff. split; [exact Hp|].
  apply forallb_forall. intros b Hb. pose proof (hex_graphic _ (hex_encode_chars l Hl)) as Hg. rewrite Forall_forall in Hg.
  specialize (Hg b ltac:(by apply list_elem_of_In)). unfold graphic in Hg. apply in_range_true. lia.
Qed.

Lemma verify_registration_ok export r exporter sk proof :
  rg_node r = hex_encode (verifying_key sk) -> verifying_key sk <> replicate 32 0 ->
  export REGISTRATION_LABEL (rg_challenge r) = Ok exporter ->
  identity_sign sk (registration_message (rg_command r) (rg_challenge r) exporter) = Some proof -> is_bytes proof ->
  verify_registration export r (hex_encode proof) = Some (Ok (mkProved r exporter proof)).
Proof.
  intros Hn Hz Hex Hs Hb. destruct (identity_sign_verifies _ _ _ Hs) as [Hl Hv]. destruct (proof_control _ _ _ Hs) as [_ Hlen].
  destruct (verifying_key_bytes sk) as [Hkl Hkb]. unfold verify_registration. rewrite Hlen, Nat.eqb_refl, Hex, Hn, !hex_decode_encode by done.
  rewrite Hkl. cbn [negb Nat.eqb]. unfold VerifyingKey_from_bytes, Signature_from_slice. rewrite bool_decide_false, Hl, Nat.eqb_refl by done. cbn [negb].
  by rewrite Hv.
Qed.

Lemma register_reverse_ok export sk token ts nonce challenge exporter proof reply rest c :
  let command := register_command sk token ts nonce in
  valid_token token = true -> control_ok command -> length challenge = 32%nat -> is_bytes challenge ->
  export REGISTRATION_LABEL challenge = Ok exporter ->
  identity_sign sk (registration_message command challenge exporter) = Some proof ->
  control_ok reply -> utf8_valid reply = true -> cn_room c = None ->
  cn_in c = control (str "AUTH_CHALLENGE " ++ hex_encode challenge) ++ control reply ++ rest ->
  register_reverse export sk token ts nonce c = (after c rest (control command ++ control (hex_encode proof)), Ok reply).
Proof.
  intros command Ht Hc Hcl Hcb Hex Hs Hr Hru Hroom Hin. destruct (proof_control _ _ _ Hs) as [Hpc _].
  unfold register_reverse. fold command. unfold bind at 1, ensure at 1. rewrite Ht. unfold ret at 1.
  unfold bind at 1. rewrite write_control_ok by done.
  unfold bind at 1. rewrite (read_control_ok (str "AUTH_CHALLENGE " ++ hex_encode challenge) (control reply ++ rest)).
  2:{ split; [done|]. rewrite length_app, hex_encode_length, Hcl. unfold MAX_CONTROL. cbn [length]. change (length (str "AUTH_CHALLENGE ")) with 15%nat. lia. }
  2:{ by apply hex_utf8. }
  2:{ done. }
  unfold strip_prefix, starts_with. rewrite take_app_length, drop_app_length, bool_decide_true by done.
  rewrite hex_decode_encode by done. unfold bind at 1, some_or, ret at 1. unfold bind at 1. rewrite Hcl. unfold ensure at 1, ret at 1. cbn [Nat.eqb].
  unfold bind at 1. rewrite Hex. unfold of_result at 1, ret at 1. unfold bind at 1. rewrite Hs. unfold ret at 1.
  unfold bind at 1. rewrite write_control_ok by done. rewrite (read_control_ok reply rest) by done. rewrite !after_after. by rewrite app_nil_r, <- ?app_assoc.
Qed.

(** An honest relay can register. If its capability is well formed, its
    proof of work is good and both ends of the TLS connection export the same
    bytes, then the tracker with a free permit answers the command of
    [register_reverse] with a challenge, the relay answers that with a proof
    the tracker accepts for the relay's own node name and token, and the relay
    returns what the tracker says next, having sent exactly these two messages. *)
Theorem registration_completes (difficulty : Z) (export : nat -> bytes -> bytes -> result IoError bytes) (self : Tracker) (k : nat)
    (sk : HybridSigningKey) (token challenge exporter reply rest : bytes) (ts nonce now : Z) (c : Conn) :
  let node := hex_encode (verifying_key sk) in
  let command := register_command sk token ts nonce in
  valid_token token = true -> is_u64 ts -> is_u64 nonce -> verify_pow node ts nonce difficulty now = true ->
  verifying_key sk <> replicate 32 0 -> length challenge = 32%nat -> is_bytes challenge ->
  export k REGISTRATION_LABEL challenge = Ok exporter -> length exporter = 32%nat ->
  tk_tasks self !! k = Some Fresh -> tk_budget self <> O ->
  control_ok reply -> utf8_valid reply = true -> cn_room c = None ->
  cn_in c = control (str "AUTH_CHALLENGE " ++ hex_encode challenge) ++ control reply ++ rest ->
  exists encoded r p self',
    register_reverse (export k) sk token ts nonce c = (after c rest (control command ++ control encoded), Ok reply) /\
    handle_step difficulty export self k (Sends command now challenge) = Some (self', [str "AUTH_CHALLENGE " ++ hex_encode challenge]) /\
    tk_tasks self' !! k = Some (Challenged r) /\ rg_node r = node /\ rg_token r = token /\
    verify_registration (export k) r encoded = Some (Ok p).
Proof.
  intros node command Ht Hts Hn Hpow Hz Hcl Hcb Hex Hel Hk Hbud Hr Hru Hroom Hin.
  destruct (register_command_ok sk token ts nonce Ht Hts Hn) as (Hparse & Hctl & Hlen). fold node command in Hparse, Hctl, Hlen.
  set (message := registration_message command challenge exporter).
  destruct (identity_sign_ok sk message) as [proof Hs].
  { unfold message, registration_message. repeat (rewrite length_app || cbn [length]). rewrite be_bytes_length, Hcl, Hel.
    change (length (str "AnonGuard-tracker-registration-v2")) with 33%nat. unfold MAX_MESSAGE. lia. }
  set (r := mkRegistration command node token nonce now challenge).
  exists (hex_encode proof), r, (mkProved r exporter proof), (set_task (set_permits self (pred (tk_budget self)) (tk_waiting self)) k (Challenged r)).
  split_and!; try done.
  - by apply (register_reverse_ok _ _ _ _ _ challenge exporter).
  - unfold handle_step. rewrite Hk. unfold on_command. rewrite Hparse. unfold work_is_valid.
    rewrite (proj1 (display_u64_ok ts Hts)), (proj1 (display_u64_ok nonce Hn)). fold node. rewrite Hpow. cbn [negb].
    by destruct (tk_budget self).
  - cbn. by rewrite lookup_insert_eq.
  - apply (verify_registration_ok _ r exporter sk proof); try done. by eapply identity_sign_bytes.
Qed.
End Completeness.

(** ** The rate of handshakes *)
Definition bucket_ok (b : TokenBucket) : Prop := 0 <= tb_tokens b <= tb_burst b /\ tb_burst b = HANDSHAKE_BURST /\ tb_refill b = HANDSHAKE_REFILL.

(** What a bucket can still pay for, against the clock: it only falls. *)
Definition credit (b : TokenBucket) : Z := tb_tokens b * HANDSHAKE_REFILL - tb_last b.

Lemma bucket_available_credit b now b' ok : bucket_ok b -> tb_last b <= now -> bucket_available b now = (b', ok) ->
  bucket_ok b' /\ credit b' <= credit b /\ tb_last b' <= now /\ now - tb_last b' < HANDSHAKE_REFILL /\ ok = (0 <? tb_tokens b').
Proof.
  intros (Ht & Hb & Hr) Hl. unfold bucket_available, duration_since. rewrite Z.max_r by lia. rewrite Hr, Hb in *.
  set (n := (now - tb_last b) / HANDSHAKE_REFILL). assert (Hn : HANDSHAKE_REFILL * n <= now - tb_last b < HANDSHAKE_REFILL * (n + 1)).
  { subst n. unfold HANDSHAKE_REFILL. Z.to_euclidean_division_equations; lia. }
  unfold bucket_ok, credit, HANDSHAKE_BURST, HANDSHAKE_REFILL in *. destruct (Z.leb_spec 32 n); [|destruct (Z.ltb_spec 0 n)]; intros [= <- <-];
    cbn [tb_tokens tb_burst tb_refill tb_last]; unfold saturating_add, u32_MAX; split_and!; try done; try lia.
Qed.

Lemma bucket_take_credit b now b' : bucket_ok b -> tb_last b <= now -> bucket_take b now = (b', true) ->
  bucket_ok b' /\ credit b' <= credit b - HANDSHAKE_REFILL /\ tb_last b' <= now.
Proof.
  intros Hok Hl. unfold bucket_take. destruct (bucket_available b now) as [b1 ok] eqn:E.
  destruct (bucket_available_credit _ _ _ _ Hok Hl E) as ((Ht & Hb & Hr) & Hc & Hl1 & _ & ->). destruct (Z.ltb_spec 0 (tb_tokens b1)); [|done]. cbn [negb].
  intros [= <-]. unfold bucket_ok, credit in *. cbn [tb_tokens tb_burst tb_refill tb_last]. split_and!; try done; lia.
Qed.

(** A bucket that has just been looked at with a token left still has it. *)
Lemma available_take b now b' : bucket_ok b -> tb_last b <= now -> bucket_available b now = (b', true) ->
  bucket_take b' now = (mkTokenBucket (tb_tokens b' - 1) (tb_burst b') (tb_refill b') (tb_last b'), true).
Proof.
  intros Hok Hl E. destruct (bucket_available_credit _ _ _ _ Hok Hl E) as ((Ht & Hb & Hr) & _ & Hl' & Hlt & Hok').
  unfold bucket_take, bucket_available, duration_since. rewrite Z.max_r, Hr, Hb by lia. rewrite Z.div_small by lia. change (HANDSHAKE_BURST <=? 0) with false.
  change (0 <? 0) with false. cbv iota zeta. rewrite <- Hok'. cbn [negb]. by rewrite Hr, Hb.
Qed.

Definition event_time (ev : ServerEvent) : option Z := match ev with Arrives _ _ now | Sweeps now => Some now | Runs _ _ => None end.
Definition accept_times (evs : list ServerEvent) : list Z := omap event_time evs.

(** [n] handshakes started since [a]. *)
Record rate_ok (a n now : Z) (rate : TokenBucket) : Prop := {
  ro_bucket : bucket_ok rate;
  ro_clock : tb_last rate <= now;
  ro_paid : 0 <= n /\ (n = 0 \/ credit rate + n * HANDSHAKE_REFILL <= (HANDSHAKE_BURST + 1) * HANDSHAKE_REFILL - a);
}.

Lemma tracker_accept_rate a n now0 now self ip self' r :
  rate_ok a n now0 (ac_rate self) -> now0 <= now -> a <= now -> tracker_accept self ip now = (self', r) ->
  rate_ok a (n + Z.b2z (bool_decide (is_Some r))) now (ac_rate self').
Proof.
  intros [Hb Hc [Hn0 Hp]] Hnow Ha. unfold tracker_accept.
  assert (Hsame : rate_ok a (n + Z.b2z false) now (ac_rate self)) by (cbn [Z.b2z]; rewrite Z.add_0_r; split; try done; lia).
  destruct (ac_connections self) as [|connections] eqn:Ec; [by intros [= <- <-]|].
  destruct (ac_handshakes self) as [|handshakes] eqn:Eh; [by intros [= <- <-]|].
  destruct (bucket_available (ac_rate self) now) as [rate av] eqn:Ea.
  destruct (bucket_available_credit _ _ _ _ Hb (Z.le_trans _ _ _ Hc Hnow) Ea) as (Hb' & Hcr & Hl' & Hfresh & Hav).
  assert (Hpaid : credit rate + n * HANDSHAKE_REFILL <= (HANDSHAKE_BURST + 1) * HANDSHAKE_REFILL - a).
  { destruct Hp as [->|Hp]; [|lia]. destruct Hb' as ((_ & Ht) & Hbb & _). unfold credit. rewrite Hbb in Ht. unfold HANDSHAKE_BURST, HANDSHAKE_REFILL in *. lia. }
  assert (Hrate : rate_ok a (n + Z.b2z false) now rate) by (cbn [Z.b2z]; rewrite Z.add_0_r; split; auto).
  destruct av; [|by intros [= <- <-]].
  cbn [set_rate ac_sources ac_semaphores ac_rate]. destruct (try_admit _ _ _ _) as [[sources sems] [permit|]]; [|by intros [= <- <-]].
  rewrite (available_take _ _ _ Hb (Z.le_trans _ _ _ Hc Hnow) Ea). intros [= <- <-]. symmetry in Hav. apply Z.ltb_lt in Hav. destruct Hb' as ((_ & Ht) & Hbb & Hr).
  cbn. split; cbn; try lia.
  - unfold bucket_ok. cbn. split_and!; try done; lia.
  - split; [lia|]. right. unfold credit in *. cbn. unfold HANDSHAKE_REFILL in *. lia.
Qed.

Lemma sorted_from x (l1 l2 : list Z) : StronglySorted Z.le (x :: l1 ++ l2) -> StronglySorted Z.le (x :: l1) /\ StronglySorted Z.le (default x (last l1) :: l2).
Proof.
  revert x. induction l1 as [|y l1 IH]; intros x Hs; [split; [by repeat constructor|done]|]. cbn [app] in Hs.
  apply StronglySorted_inv in Hs as [Hs Hf]. destruct (IH y Hs) as [H1 H2]. split.
  - constructor; [done|]. apply Forall_cons in Hf as [Hf Hf']. constructor; [done|]. by apply Forall_app in Hf' as [? _].
  - rewrite last_cons. by destruct (last l1).
Qed.

Section Rate.
Context `{IdentityPrimitives} `{HexCodec} `{HashOrder}.
Context (difficulty : Z) (export : nat -> bytes -> bytes -> result IoError bytes).

(** The rate is the listener's alone. *)
Lemma handle_step_rate self k ev self' replies :
  handle_step difficulty export self k ev = Some (self', replies) -> ac_rate (tk_accepting self') = ac_rate (tk_accepting self).
Proof.
  unfold handle_step, on_command, on_proof, on_admit, on_enter, on_ask, on_hand_over, on_leave.
  repeat case_match; intros; simplify_eq; done.
Qed.

Lemma server_step_rate a n now0 self ev self' replies :
  rate_ok a n now0 (ac_rate (tk_accepting self)) -> Forall (fun t => now0 <= t /\ a <= t) (accept_times [ev]) ->
  server_step difficulty export self ev = Some (self', replies) ->
  rate_ok a (n + Z.b2z (starts self ev)) (default now0 (event_time ev)) (ac_rate (tk_accepting self')).
Proof.
  intros Hi Ht. destruct ev as [k ip now|k ev|now]; unfold accept_times in Ht; cbn in Ht; cbn [server_step starts event_time default Z.b2z]; rewrite ?Z.add_0_r.
  - apply Forall_cons in Ht as [[Ht Ha] _]. destruct (tk_tasks self !! k); [done|]. intros [= <- <-]. unfold on_accept.
    destruct (tracker_accept (tk_accepting self) ip now) as [accepting r] eqn:E. apply (tracker_accept_rate a n now0) in E; [|done..]. by destruct r.
  - by intros ->%handle_step_rate.
  - apply Forall_cons in Ht as [[Ht Ha] _]. intros [= <- <-]. destruct Hi as [Hb Hc Hp]. split; [done| |done]. cbn. lia.
Qed.

Lemma tracker_run_rate a evs n now0 self self' :
  rate_ok a n now0 (ac_rate (tk_accepting self)) -> StronglySorted Z.le (now0 :: accept_times evs) -> Forall (fun t => a <= t) (accept_times evs) ->
  tracker_run difficulty export self evs = Some self' ->
  rate_ok a (n + started difficulty export self evs) (default now0 (last (accept_times evs))) (ac_rate (tk_accepting self')).
Proof.
  revert n now0 self. induction evs as [|ev evs IH]; intros n now0 self Hi Hs Ha; cbn [tracker_run started].
  { intros [= <-]. by rewrite Z.add_0_r. }
  destruct (server_step difficulty export self ev) as [[self1 replies]|] eqn:Es; [|done]. intros Hrun. rewrite Z.add_assoc.
  assert (Et : accept_times (ev :: evs) = option_list (event_time ev) ++ accept_times evs) by (unfold accept_times; cbn; by destruct (event_time ev)).
  rewrite Et in Hs, Ha |- *. apply Forall_app in Ha as [Ha1 Ha2].
  assert (Hi1 : rate_ok a (n + Z.b2z (starts self ev)) (default now0 (event_time ev)) (ac_rate (tk_accepting self1))).
  { eapply server_step_rate; [done| |done]. replace (accept_times [ev]) with (option_list (event_time ev)) by (unfold accept_times; cbn; by destruct (event_time ev)).
    apply StronglySorted_inv in Hs as [_ Hf]. apply Forall_app in Hf as [Hf _]. rewrite Forall_forall in *. intros t Ht. split; [by apply Hf|by apply Ha1]. }
  destruct (event_time ev) as [t|]; cbn [app option_list from_option] in *; [|by eapply IH]. apply StronglySorted_inv in Hs as [Hs _].
  specialize (IH _ _ _ Hi1 Hs Ha2 Hrun). change (option_list (Some t) ++ accept_times evs) with (t :: accept_times evs). rewrite last_cons. by destruct (last (accept_times evs)).
Qed.

(** The tracker's connections and handshakes are bounded. At most 512
    connections are open and 16 handshakes under way at any time, and in every
    window of time of any run at most 33 handshakes plus one for each 62.5 ms of
    the window are started, whichever sources the connections come from and
    whatever the connections do meanwhile. *)
Theorem handshakes_bounded (t0 a b : Z) (before window : list ServerEvent) (self self' : Tracker) :
  tracker_run difficulty export (tracker_init t0) before = Some self -> tracker_run difficulty export self window = Some self' ->
  StronglySorted Z.le (t0 :: accept_times before ++ accept_times window) ->
  Forall (fun t => a <= t <= b) (accept_times window) -> t0 <= b -> Forall (fun t => t <= b) (accept_times before) ->
  (count holds_connection (tk_tasks self') <= 512)%nat /\ (count is_shaking (tk_tasks self') <= 16)%nat /\
  (a <= b -> started difficulty export self window * HANDSHAKE_REFILL <= (HANDSHAKE_BURST + 1) * HANDSHAKE_REFILL + (b - a)).
Proof.
  intros Hr1 Hr2 [Hs1 Hs2]%sorted_from Hw Hb Hbefore.
  assert (Hreach : tracker_reachable difficulty export self') by (do 2 (eapply tracker_run_reachable; [|done]); apply tracker_starts).
  destruct (ti_accepting _ _ (tracker_reachable_inv _ _ _ Hreach)) as [Hconn Hshake _].
  split; [change DEFAULT_MAX_TRACKER_CONNECTIONS with 512%nat in Hconn; lia|]. split; [unfold DEFAULT_MAX_TRACKER_HANDSHAKES in Hshake; lia|]. intros Hab.
  assert (Ht0 : Forall (fun t => t0 <= t) (accept_times before)) by (by apply StronglySorted_inv in Hs1 as [_ ?]).
  assert (Hinit : rate_ok t0 0 t0 (ac_rate (tk_accepting (tracker_init t0)))) by (split; cbn; try done; lia).
  pose proof (tracker_run_rate t0 before 0 t0 _ _ Hinit Hs1 Ht0 Hr1) as [Hb1 Hc1 _].
  assert (Hi : rate_ok a 0 (default t0 (last (accept_times before))) (ac_rate (tk_accepting self))) by (split; try done; lia).
  assert (Ha : Forall (fun t => a <= t) (accept_times window)) by (eapply Forall_impl; [exact Hw|]; cbn; lia).
  destruct (tracker_run_rate a window 0 _ _ _ Hi Hs2 Ha Hr2) as [(Ht & _) Hc [Hn Hp]].
  assert (Hend : tb_last (ac_rate (tk_accepting self')) <= b).
  { etrans; [exact Hc|]. destruct (last (accept_times window)) as [t|] eqn:El.
    - apply last_Some_elem_of in El. rewrite Forall_forall in Hw. by apply Hw.
    - cbn. destruct (last (accept_times before)) as [t|] eqn:El1; [|done]. apply last_Some_elem_of in El1. rewrite Forall_forall in Hbefore. by apply Hbefore. }
  rewrite Z.add_0_l in *. destruct Hp as [Hp|Hp]; [rewrite Hp; unfold HANDSHAKE_REFILL, HANDSHAKE_BURST; lia|]. unfold credit, HANDSHAKE_REFILL in *. lia.
Qed.
End Rate.

(** ** A concrete rendezvous *)
Fixpoint toy_decode (l : bytes) : option bytes :=
  match l with
  | [] => Some []
  | a :: b :: l =>
      match to_digit 16 a, to_digit 16 b, toy_decode l with Some a, Some b, Some l => Some ((a * 16 + b) :: l) | _, _, _ => None end
  | _ => None
  end.
#[local] Instance toy_hex : HexCodec := {|
  hex_encode := flat_map (fun b => [digit_char (b / 16); digit_char (b mod 16)]);
  hex_decode := toy_decode;
|}.

#[local] Instance toy_hex_laws : HexLaws.
Proof.
  assert (Hd : forall b, is_u8 b -> 0 <= b / 16 < 16 /\ 0 <= b mod 16 < 16) by (intros b Hb; unfold_ints; Z.to_euclidean_division_equations; lia).
  split; cbn [hex_encode hex_decode toy_hex].
  - induction 1 as [|b l Hb _ IH]; [done|]. cbn [flat_map app toy_decode]. rewrite !to_digit_char, IH by (by destruct (Hd b Hb) || lia).
    do 2 f_equal. Z.to_euclidean_division_equations; lia.
  - induction l as [|b l IH]; [done|]. cbn [flat_map app length]. lia.
  - induction 1 as [|b l Hb _ IH]; [done|]. cbn [flat_map app forallb]. rewrite IH, andb_true_r. destruct (Hd b Hb).
    assert (Hc : forall d, 0 <= d < 16 -> hex_char (digit_char d) = true).
    { intros d Hdd. unfold hex_char, digit_char. apply orb_true_iff. destruct (Z.ltb_spec d 10); [left|right]; apply in_range_true; lia. }
    by rewrite !Hc.
Qed.

#[local] Existing Instances toy_identity toy_identity_laws map_order map_order_laws.

Definition toy_tracker_export (k : nat) (label context : bytes) : result IoError bytes := Ok (replicate 32 (Z.of_nat k)).
Definition toy_token : bytes := replicate 64 97.
Definition toy_node : bytes := Eval vm_compute in hex_encode (verifying_key toy_signer).
Definition toy_command : bytes := join 32 [str "REGISTER_REVERSE"; toy_node; toy_token; display_u64 1000; display_u64 7].
Definition toy_registration : Registration := mkRegistration toy_command toy_node toy_token 7 1000 toy_challenge.

Lemma toy_node_is : hex_encode (verifying_key toy_signer) = toy_node.
Proof. vm_compute. reflexivity. Qed.

Lemma toy_command_is : register_command toy_signer toy_token 1000 7 = toy_command.
Proof. unfold register_command. by rewrite toy_node_is. Qed.

Lemma toy_parse : parse_command toy_command = RegisterReverse toy_node toy_token (display_u64 1000) (display_u64 7).
Proof. vm_compute. reflexivity. Qed.

Lemma toy_work : work_is_valid toy_node (display_u64 1000) (display_u64 7) 0 1000 = true.
Proof. vm_compute. reflexivity. Qed.

Lemma toy_nonce : check_and_record NonceRegistry_new toy_node 7 1000 = ((check_and_record NonceRegistry_new toy_node 7 1000).1, false).
Proof. rewrite (surjective_pairing (check_and_record _ _ _ _)) at 1. f_equal. Qed.

Lemma toy_pin : verifying_key toy_signer <> replicate 32 0.
Proof. intros E. pose proof toy_node_is as Hn. rewrite E in Hn. vm_compute in Hn. discriminate Hn. Qed.

Definition toy_peer : IpAddr := V4 (mkIpv4 93 184 216 34).
Definition toy_accepting : Accepting := Eval vm_compute in end_handshake (tracker_accept (accepting_init 0) toy_peer 5).1 0.

Definition toy_connected : Tracker := mkTracker ∅ NonceRegistry_new 16 MAX_WAITING ∅ (<[0%nat := Fresh]> ∅) toy_accepting.

Lemma toy_connected_reachable : tracker_reachable 0 toy_tracker_export toy_connected.
Proof.
  eapply (tracker_run_reachable _ _ (tracker_init 0) [Arrives 0 toy_peer 5; Runs 0 Connects]); [apply tracker_starts|]. vm_compute. reflexivity.
Qed.

Definition toy_challenged : Tracker :=
  mkTracker ∅ NonceRegistry_new 15 MAX_WAITING ∅ (<[0%nat := Challenged toy_registration]> (<[0%nat := Fresh]> ∅)) toy_accepting.

Lemma toy_challenged_reachable : tracker_reachable 0 toy_tracker_export toy_challenged.
Proof.
  eapply (tracker_steps _ _ _ (Runs 0 (Sends toy_command 1000 toy_challenge))); [exact toy_connected_reachable|].
  cbn [server_step]. unfold handle_step. change (tk_tasks toy_connected !! 0%nat) with (Some Fresh). unfold on_command. rewrite toy_parse.
  rewrite toy_work. reflexivity.
Qed.

Definition toy_recorded (proof : bytes) : Tracker :=
  mkTracker ∅ (check_and_record NonceRegistry_new toy_node 7 1000).1 16 MAX_WAITING ∅
    (<[0%nat := Recorded (mkProved toy_registration (replicate 32 0) proof)]> (tk_tasks toy_challenged)) toy_accepting.

Lemma toy_recorded_reachable : exists proof, tracker_reachable 0 toy_tracker_export (toy_recorded proof).
Proof.
  destruct (identity_sign_ok toy_signer (registration_message toy_command toy_challenge (replicate 32 0))) as [proof Hs]; [vm_compute; discriminate|].
  exists proof. eapply (tracker_steps _ _ _ (Runs 0 (Proves (hex_encode proof)))); [exact toy_challenged_reachable|].
  cbn [server_step]. unfold handle_step. change (tk_tasks toy_challenged !! 0%nat) with (Some (Challenged toy_registration)). unfold on_proof.
  rewrite (verify_registration_ok _ toy_registration (replicate 32 0) toy_signer proof);
    [|symmetry; exact toy_node_is|exact toy_pin|reflexivity|exact Hs|by eapply identity_sign_bytes].
  change (check_and_record _ _ _ _) with (check_and_record NonceRegistry_new toy_node 7 1000). rewrite toy_nonce. reflexivity.
Qed.

Definition toy_rendezvous : list ServerEvent :=
  [Runs 0 Admits; Runs 0 (Enters 5); Arrives 1 toy_peer 6; Runs 1 Connects;
   Runs 1 (Sends (join 32 [str "CONNECT_REVERSE"; toy_node; toy_token]) 1001 []); Runs 1 Asks; Runs 0 IsAsked; Runs 0 HandsOver].

Lemma toy_rendezvous_runs proof :
  match tracker_run 0 toy_tracker_export (toy_recorded proof) toy_rendezvous with
  | Some self => tk_tasks self !! 1%nat
  | None => None
  end = Some (Joined toy_node toy_token 0 (mkProved toy_registration (replicate 32 0) proof)).
Proof. vm_compute. reflexivity. Qed.

Lemma toy_joined : exists self p, tracker_reachable 0 toy_tracker_export self /\ tk_tasks self !! 1%nat = Some (Joined toy_node toy_token 0 p).
Proof.
  destruct toy_recorded_reachable as [proof Hr]. pose proof (toy_rendezvous_runs proof) as Hj.
  destruct (tracker_run _ _ _ _) as [self|] eqn:E; [|done]. eauto using tracker_run_reachable.
Qed.

Lemma rendezvous_authentic_witness :
  exists self p, tk_tasks self !! 1%nat = Some (Joined toy_node toy_token 0 p) /\ rg_node (pr_request p) = toy_node /\ proof_ok toy_tracker_export 0 p.
Proof.
  destruct toy_joined as (self & p & Hr & Hj). exists self, p. split; [exact Hj|].
  destruct (rendezvous_authentic 0 toy_tracker_export self 1 0 toy_node toy_token p Hr Hj) as (Hn & _ & Hp). exact (conj Hn Hp).
Defined.

Definition toy_tracker_conn (input : bytes) : Conn := mkConn input (mkIoError UnexpectedEof "") [] None (mkIoError BrokenPipe "").

Lemma tracker_bounded_witness : exists self, tracker_reachable 0 toy_tracker_export self /\ (length (all_slots (tk_directory self)) <= 128)%nat.
Proof.
  destruct toy_joined as (self & p & Hr & Hj). exists self. split; [exact Hr|].
  destruct (tracker_bounded 0 toy_tracker_export self (toy_tracker_conn []) Hr eq_refl) as (_ & Hs & _). exact Hs.
Defined.

Lemma tracker_drains_witness :
  exists self evs self', tracker_reachable 0 toy_tracker_export self /\ tracker_run 0 toy_tracker_export self evs = Some self' /\
    tk_directory self' = ∅ /\ ac_connections (tk_accepting self') = DEFAULT_MAX_TRACKER_CONNECTIONS.
Proof.
  destruct toy_joined as (self & p & Hr & Hj).
  destruct (tracker_drains 0 toy_tracker_export self Hr) as [(evs & self' & Hrun & Hgone) Hfree].
  destruct (Hfree _ _ Hrun Hgone) as (Hd & _ & _ & Hc & _). exists self, (uncurry Runs <$> evs), self'. exact (conj Hr (conj Hrun (conj Hd Hc))).
Defined.

Definition toy_dialogue : bytes := control (str "AUTH_CHALLENGE " ++ hex_encode toy_challenge) ++ control (str "REGISTERED") ++ [].

Lemma registration_completes_witness :
  exists encoded, register_reverse (toy_tracker_export 0) toy_signer toy_token 1000 7 (toy_tracker_conn toy_dialogue) =
    (after (toy_tracker_conn toy_dialogue) [] (control toy_command ++ control encoded), Ok (str "REGISTERED")).
Proof.
  destruct (registration_completes 0 toy_tracker_export toy_connected 0 toy_signer toy_token toy_challenge (replicate 32 0)
              (str "REGISTERED") [] 1000 7 1000 (toy_tracker_conn toy_dialogue)) as (encoded & r & p & self' & Hrun & _).
  - reflexivity.
  - split; discriminate.
  - split; discriminate.
  - rewrite toy_node_is. exact toy_work.
  - exact toy_pin.
  - reflexivity.
  - apply is_bytes_replicate. split; discriminate.
  - reflexivity.
  - reflexivity.
  - reflexivity.
  - discriminate.
  - split; discriminate.
  - reflexivity.
  - reflexivity.
  - reflexivity.
  - rewrite toy_command_is in Hrun.
    exists encoded. exact Hrun.
Defined.

Lemma handshakes_bounded_witness :
  exists self', tracker_run 0 toy_tracker_export (tracker_init 0) [Arrives 0 toy_peer 5; Arrives 1 toy_peer 6; Runs 0 Connects] = Some self' /\
    (count is_shaking (tk_tasks self') <= 16)%nat.
Proof.
  destruct (tracker_run _ _ _ _) as [self'|] eqn:E; [|vm_compute in E; discriminate E]. exists self'. split; [reflexivity|].
  refine (proj1 (proj2 (handshakes_bounded 0 toy_tracker_export 0 5 10 [] _ _ self' eq_refl E _ _ _ _))).
  - repeat constructor; lia.
  - repeat constructor; lia.
  - lia.
  - constructor.
Defined.
