(* ===== verification/Bridge.v ===== *)
(** * Entry transports (src/onion/transport.rs)

    The client of a pluggable transport: locally provisioned bindings, the
    encoding of their arguments, and the SOCKS5 dialogue with the transport's
    loopback endpoint, which is the only address that is dialled. *)
From stdpp Require Import sorting.
From S2P Require Import Prelude Text Net Identity Storage Revocation Transport Pool Socks.

Definition transport_invalid (message : string) : IoError := mkIoError InvalidInput message.

(** ** Arguments *)

(** [char::is_control] for text in UTF-8: the ASCII controls, and U+0080 to
    U+009F, which are the byte 194 and one of 128 to 159. *)
Fixpoint has_control (l : bytes) : bool :=
  match l with
  | [] => false
  | b :: rest => is_ascii_control b || (b =? 194) && match rest with c :: _ => in_range 128 159 c | [] => false end || has_control rest
  end.

Fixpoint escape (value : bytes) : bytes :=
  match value with
  | [] => []
  | c :: rest => (if (c =? 92) || (c =? 61) || (c =? 59) then [92; c] else [c]) ++ escape rest
  end.

(** A [BTreeMap] with string keys is iterated in the order of their bytes. *)
Fixpoint lex_le (a b : bytes) : bool :=
  match a, b with
  | [], _ => true
  | _ :: _, [] => false
  | x :: a, y :: b => (x <? y) || (x =? y) && lex_le a b
  end.

Definition argument_le (a b : bytes * bytes) : Prop := lex_le a.1 b.1 = true.
#[global] Instance argument_le_dec : RelDecision argument_le.
Proof. unfold argument_le. intros a b. apply _. Defined.

Definition btree_iter (m : gmap bytes bytes) : list (bytes * bytes) := merge_sort argument_le (map_to_list m).

Fixpoint encode_pairs (encoded : bytes) (pairs : list (bytes * bytes)) : result IoError bytes :=
  match pairs with
  | [] => Ok encoded
  | (key, value) :: rest =>
      if bool_decide (key = []) || has_control (key ++ value) then Err (transport_invalid "Invalid transport argument")
      else
        let encoded := (if bool_decide (encoded = []) then [] else encoded ++ [59]) ++ escape key ++ [61] ++ escape value in
        if 254 <? Z.of_nat (length encoded) then Err (transport_invalid "Transport arguments exceed 254 bytes") else encode_pairs encoded rest
  end.

Definition encode_arguments (arguments : gmap bytes bytes) : result IoError bytes :=
  if bool_decide (arguments = ∅) then Err (transport_invalid "Transport arguments are required") else encode_pairs [] (btree_iter arguments).

(** ** Bindings *)
Definition is_loopback (ip : IpAddr) : bool := match ip with V4 i => v4_is_loopback i | V6 i => v6_is_loopback i end.
Definition is_unspecified (ip : IpAddr) : bool := match ip with V4 i => v4_is_unspecified i | V6 i => v6_is_unspecified i end.
Definition is_multicast (ip : IpAddr) : bool := match ip with V4 i => v4_is_multicast i | V6 i => v6_is_multicast i end.

#[global] Instance SocketAddr_eq_dec : EqDecision SocketAddr.
Proof. solve_decision. Defined.

(** The checks [connect] repeats. *)
Definition endpoints_ok (proxy bridge : SocketAddr) : bool :=
  is_loopback (sa_ip proxy) && negb (sa_port proxy =? 0) && negb (sa_port bridge =? 0)
  && negb (is_unspecified (sa_ip bridge)) && negb (is_multicast (sa_ip bridge)).

Fixpoint check_bindings (identities : list bytes) (endpoints : list SocketAddr) (bridges : list BridgeTransport) : result IoError unit :=
  match bridges with
  | [] => Ok tt
  | entry :: rest =>
      let weak := match VerifyingKey_from_bytes (bt_identity entry) with Ok key => is_weak key | Err _ => true end in
      if weak || bool_decide (bt_identity entry ∈ identities) || bool_decide (bt_bridge entry ∈ endpoints)
         || negb (endpoints_ok (bt_proxy entry) (bt_bridge entry))
      then Err (transport_invalid "Invalid or duplicate bridge transport binding")
      else
        match encode_arguments (bt_arguments entry) with
        | Err e => Err e
        | Ok _ => check_bindings (bt_identity entry :: identities) (bt_bridge entry :: endpoints) rest
        end
  end.

(** [parse] is the JSON reader; [io] and [content] are the file. *)
Definition load_bindings (parse : bytes -> option (list BridgeTransport)) (io : bool) (content : option bytes) (maximum : nat)
    : result IoError (list BridgeTransport) :=
  match read_bounded_file io content 65536 with
  | Err e => Err e
  | Ok content =>
      match parse content with
      | None => Err (transport_invalid "Invalid bridge configuration JSON")
      | Some bridges =>
          if (length bridges =? 0)%nat || (maximum <? length bridges)%nat then Err (transport_invalid "Invalid number of transport bindings")
          else match check_bindings [] [] bridges with Err e => Err e | Ok _ => Ok bridges end
      end
  end.

Definition load_bridges parse io content := load_bindings parse io content 3.
Definition load_authorities parse io content := load_bindings parse io content 16.

(** ** The dialogue *)
Definition bridge_request (bridge : SocketAddr) : bytes :=
  [5; 1; 0] ++ match sa_ip bridge with V4 ip => [1] ++ v4_octets ip | V6 ip => [4] ++ v6_octets ip end ++ be_bytes 2 (sa_port bridge).

Definition argument_auth (arguments : bytes) : bytes := [1; Z.of_nat (length arguments) mod 256] ++ arguments ++ [1; 0].

Definition bound_length (atyp : Z) : M Conn nat :=
  if atyp =? 1 then ret 4%nat
  else if atyp =? 4 then ret 16%nat
  else if atyp =? 3 then
    let* length := read_u8 in
    let* _ := ensure (negb (length =? 0)) (transport_invalid "Empty transport bound address") in ret (Z.to_nat length)
  else fail (transport_invalid "Invalid transport address type").

Definition transport_handshake (bridge : SocketAddr) (arguments : bytes) : M Conn unit :=
  let* _ := write_all [5; 1; 2] in
  let* response := read_exact 2 in
  let* _ := ensure (bool_decide (response = [5; 2])) (transport_invalid "Transport refused argument authentication") in
  let* _ := write_all (argument_auth arguments) in
  let* response := read_exact 2 in
  let* _ := ensure (bool_decide (response = [1; 0])) (transport_invalid "Transport rejected arguments") in
  let* _ := write_all (bridge_request bridge) in
  let* header := read_exact 4 in
  let* _ := ensure (bool_decide (take 3 header = [5; 0; 0])) (transport_invalid "Transport connection rejected") in
  let* length := bound_length (header !!! 3%nat) in
  let* _ := read_exact (length + 2) in
  ret tt.

(** The addresses that were dialled, and the stream; [network] answers a dial. *)
Definition transport_connect (network : SocketAddr -> result Fault Conn) (proxy bridge : SocketAddr) (arguments : gmap bytes bytes)
    : list SocketAddr * result Fault Conn :=
  if negb (endpoints_ok proxy bridge) then ([], Err (Io (transport_invalid "Invalid transport or bridge endpoint")))
  else
    match encode_arguments arguments with
    | Err e => ([], Err (Io e))
    | Ok arguments =>
        ([proxy], match network proxy with
                  | Err e => Err e
                  | Ok stream => match transport_handshake bridge arguments stream with (stream, Ok _) => Ok stream | (_, Err e) => Err e end
                  end)
    end.

(** ** Reading arguments back

    How a transport reads its arguments: a backslash makes the next byte
    literal, a key ends at [=] and a value at [;] or the end. *)
Fixpoint read_arguments (key acc : bytes) (in_value : bool) (l : bytes) : option (list (bytes * bytes)) :=
  match l with
  | [] => if in_value then Some [(key, acc)] else None
  | c :: rest =>
      if c =? 92 then match rest with [] => None | d :: rest => read_arguments key (acc ++ [d]) in_value rest end
      else if in_value then
        if c =? 59 then ((key, acc) ::.) <$> read_arguments [] [] false rest else read_arguments key (acc ++ [c]) in_value rest
      else if c =? 61 then read_arguments acc [] true rest
      else if c =? 59 then None
      else read_arguments key (acc ++ [c]) in_value rest
  end.

Lemma read_escaped value key acc in_value rest :
  read_arguments key acc in_value (escape value ++ rest) = read_arguments key (acc ++ value) in_value rest.
Proof.
  revert acc. induction value as [|c value IH]; intros acc; cbn [escape]; [by rewrite app_nil_r|].
  replace (acc ++ c :: value) with ((acc ++ [c]) ++ value) by (by rewrite <- app_assoc). rewrite <- IH.
  destruct (Z.eqb_spec c 92) as [->|H1]; [done|]. destruct (Z.eqb_spec c 61) as [->|H2]; [done|]. destruct (Z.eqb_spec c 59) as [->|H3]; [done|].
  cbn. rewrite (proj2 (Z.eqb_neq _ _) H1), (proj2 (Z.eqb_neq _ _) H2), (proj2 (Z.eqb_neq _ _) H3). by destruct in_value.
Qed.

Definition pair_text (p : bytes * bytes) : bytes := escape p.1 ++ [61] ++ escape p.2.

Lemma read_pair p rest : read_arguments [] [] false (pair_text p ++ rest) = read_arguments p.1 p.2 true rest.
Proof. unfold pair_text. rewrite <- !app_assoc, read_escaped. cbn. by rewrite read_escaped. Qed.

(** The pairs joined by semicolons. *)
Definition pairs_text (p : bytes * bytes) (pairs : list (bytes * bytes)) : bytes := pair_text p ++ concat ((fun q => [59] ++ pair_text q) <$> pairs).

Lemma read_pairs p pairs : read_arguments [] [] false (pairs_text p pairs) = Some (p :: pairs).
Proof.
  unfold pairs_text. rewrite read_pair. revert p. induction pairs as [|q pairs IH]; intros [k v]; cbn [fmap list_fmap concat]; [done|].
  rewrite <- app_assoc. cbn [app read_arguments]. cbn. rewrite read_pair, IH. done.
Qed.

Lemma pair_text_nonempty p : pair_text p <> [].
Proof. unfold pair_text. destruct (escape p.1); done. Qed.

Lemma encode_pairs_inv encoded pairs out :
  encode_pairs encoded pairs = Ok out -> encoded <> [] ->
  out = encoded ++ concat ((fun q => [59] ++ pair_text q) <$> pairs) /\ (Z.of_nat (length encoded) <= 254 -> Z.of_nat (length out) <= 254).
Proof.
  revert encoded. induction pairs as [|[k v] pairs IH]; intros encoded; cbn [encode_pairs].
  - intros [= <-] _. by rewrite app_nil_r.
  - destruct (_ || _); [done|]. intros E Hne. rewrite bool_decide_false in E by done. destruct (Z.ltb_spec 254 (Z.of_nat (length ((encoded ++ [59]) ++ escape k ++ [61] ++ escape v)))) as [|Hl]; [done|].
    apply IH in E as [-> Hlen]; [|by destruct encoded]. split; [|intros _; exact (Hlen Hl)]. cbn [fmap list_fmap concat]. unfold pair_text. by rewrite <- !app_assoc.
Qed.

Lemma encode_arguments_inv arguments out :
  encode_arguments arguments = Ok out ->
  exists p pairs, btree_iter arguments = p :: pairs /\ out = pairs_text p pairs /\ 0 < Z.of_nat (length out) <= 254.
Proof.
  unfold encode_arguments. case_bool_decide as Hempty; [done|]. intros E.
  destruct (btree_iter arguments) as [|[k v] pairs] eqn:Hit.
  { exfalso. apply Hempty. apply map_to_list_empty_iff. apply Permutation_nil. by rewrite <- Hit, <- (merge_sort_Permutation argument_le (map_to_list arguments)). }
  exists (k, v), pairs. split; [done|]. cbn [encode_pairs] in E. destruct (_ || _); [done|]. rewrite bool_decide_true in E by done. cbn [app] in E.
  fold (pair_text (k, v)) in E. change (escape k ++ 61 :: escape v) with (pair_text (k, v)) in E.
  destruct (Z.ltb_spec 254 (Z.of_nat (length (pair_text (k, v))))) as [|Hl]; [done|].
  pose proof (pair_text_nonempty (k, v)) as Hne. apply encode_pairs_inv in E as [-> Hlen]; [|done]. split; [done|]. specialize (Hlen Hl). split; [|done].
  rewrite length_app. destruct (pair_text (k, v)); [done|]. cbn [length]. lia.
Qed.

(** The encoding of a transport's arguments loses nothing: it fits the one
    length byte of the username field, and a transport that reads it by the
    escaping rule recovers the arguments, whatever delimiters they contain. *)
Theorem arguments_roundtrip (arguments : gmap bytes bytes) (out : bytes) :
  encode_arguments arguments = Ok out ->
  0 < Z.of_nat (length out) <= 254 /\ list_to_map (M := gmap bytes bytes) <$> read_arguments [] [] false out = Some arguments.
Proof.
  intros (p & pairs & Hit & -> & Hlen)%encode_arguments_inv. split; [done|]. rewrite read_pairs. cbn [fmap option_fmap option_map]. f_equal.
  rewrite <- Hit. rewrite <- (list_to_map_to_list arguments) at 2. apply list_to_map_proper; [|apply merge_sort_Permutation].
  unfold btree_iter. rewrite merge_sort_Permutation. apply NoDup_fst_map_to_list.
Qed.

Definition toy_arguments : gmap bytes bytes := list_to_map [(str "iat-mode", str "0"); (str "cert", str "b;c=d\e")].

Lemma arguments_roundtrip_witness :
  encode_arguments toy_arguments = Ok (str "cert=b\;c\=d\\e;iat-mode=0") /\
  list_to_map (M := gmap bytes bytes) <$> read_arguments [] [] false (str "cert=b\;c\=d\\e;iat-mode=0") = Some toy_arguments.
Proof. split; [vm_compute; reflexivity|]. apply (arguments_roundtrip toy_arguments). vm_compute. reflexivity. Defined.

(** ** Loaded bindings *)
Definition binding_ok (b : BridgeTransport) : Prop :=
  (exists key, VerifyingKey_from_bytes (bt_identity b) = Ok key /\ is_weak key = false) /\
  endpoints_ok (bt_proxy b) (bt_bridge b) = true /\ is_ok (encode_arguments (bt_arguments b)) = true.

Lemma check_bindings_ok identities endpoints bridges :
  check_bindings identities endpoints bridges = Ok tt ->
  NoDup identities -> NoDup endpoints ->
  NoDup (reverse (bt_identity <$> bridges) ++ identities) /\ NoDup (reverse (bt_bridge <$> bridges) ++ endpoints) /\ Forall binding_ok bridges.
Proof.
  revert identities endpoints. induction bridges as [|b bridges IH]; intros identities endpoints; cbn [check_bindings]; [done|].
  destruct (_ || _) eqn:Hbad; [done|]. destruct (encode_arguments _) as [a|] eqn:Ha; [|done]. intros Hrest Hi He.
  apply orb_false_iff in Hbad as [[[Hw Hid]%orb_false_iff Hen]%orb_false_iff Hok%negb_false_iff].
  apply bool_decide_eq_false in Hid, Hen. apply IH in Hrest as (Hi' & He' & Hall); [|by constructor..].
  cbn [fmap list_fmap]. rewrite !reverse_cons, <- !app_assoc. split_and!; [done..|]. constructor; [|done]. split_and!; [|done|by rewrite Ha].
  destruct (VerifyingKey_from_bytes (bt_identity b)) as [key|]; [by exists key|done].
Qed.

Lemma load_bindings_ok (parse : bytes -> option (list BridgeTransport)) (io : bool) (content : option bytes) (maximum : nat)
    (bridges : list BridgeTransport) :
  load_bindings parse io content maximum = Ok bridges ->
  (1 <= length bridges <= maximum)%nat /\ NoDup (bt_identity <$> bridges) /\ NoDup (bt_bridge <$> bridges) /\
  forall b network, b ∈ bridges ->
    (transport_connect network (bt_proxy b) (bt_bridge b) (bt_arguments b)).1 = [bt_proxy b] /\ is_loopback (sa_ip (bt_proxy b)) = true.
Proof.
  unfold load_bindings. destruct (read_bounded_file _ _ _) as [text|]; [|done]. destruct (parse text) as [l|]; [|done].
  destruct (Nat.eqb_spec (length l) 0), (Nat.ltb_spec maximum (length l)); cbn [orb]; try done.
  destruct (check_bindings [] [] l) as [[]|] eqn:Hc; [|done]. intros [= <-].
  destruct (check_bindings_ok _ _ _ Hc) as (Hi & He & Hall); [constructor..|]. rewrite app_nil_r, reverse_Permutation in Hi. rewrite app_nil_r, reverse_Permutation in He.
  split_and!; [lia..|done|done|]. intros b network Hb. rewrite Forall_forall in Hall. destruct (Hall b Hb) as (_ & Hok & Ha).
  unfold transport_connect. rewrite Hok. cbn [negb]. destruct (encode_arguments _); [|done]. split; [done|].
  unfold endpoints_ok in Hok. by repeat apply andb_true_iff in Hok as [Hok _].
Qed.

(** What is loaded can be used as it is meant. There are between one and
    [maximum] bindings, each for its own identity and its own bridge, with a
    key that is not weak; and connecting through any of them dials one address,
    the binding's proxy on the loopback interface, never the bridge. *)
Theorem bindings_dial_loopback (parse : bytes -> option (list BridgeTransport)) (io : bool) (content : option bytes) (maximum : nat)
    (bridges : list BridgeTransport) :
  load_bindings parse io content maximum = Ok bridges ->
  (1 <= length bridges <= maximum)%nat /\ NoDup (bt_identity <$> bridges) /\ NoDup (bt_bridge <$> bridges) /\
  forall b network, b ∈ bridges ->
    (transport_connect network (bt_proxy b) (bt_bridge b) (bt_arguments b)).1 = [bt_proxy b] /\ is_loopback (sa_ip (bt_proxy b)) = true.
Proof. apply load_bindings_ok. Qed.

Definition toy_bindings : list BridgeTransport :=
  [mkBridgeTransport (replicate 32 41) (mkSocketAddr (V4 (mkIpv4 127 0 0 1)) 31000) (mkSocketAddr (V4 (mkIpv4 192 0 2 1)) 443) toy_arguments;
   mkBridgeTransport (replicate 32 42) (mkSocketAddr (V6 (mkIpv6 0 0 0 0 0 0 0 1)) 31001) (mkSocketAddr (V6 (mkIpv6 8193 3512 0 0 0 0 0 1)) 443) toy_arguments].

Lemma bindings_dial_loopback_witness :
  exists bridges, load_bridges (fun _ => Some toy_bindings) true (Some []) = Ok bridges /\ NoDup (bt_bridge <$> bridges) /\ length bridges = 2%nat.
Proof.
  exists toy_bindings. split; [vm_compute; reflexivity|]. split; [|reflexivity].
  apply (bindings_dial_loopback (fun _ => Some toy_bindings) true (Some []) 3). vm_compute. reflexivity.
Defined.

(** ** What the transport is told *)

(** One turn of a dialogue: write, read an answer of fixed size, check it. *)
Lemma turn {A} w n (p : bytes -> bool) e (k : bytes -> M Conn A) c c' r :
  (let* _ := write_all w in let* x := read_exact n in let* _ := ensure (p x) e in k x) c = (c', r) ->
  (exists w', w' `prefix_of` w /\ cn_out c' = cn_out c ++ w' /\ is_ok r = false) \/
  (exists c1 x, p x = true /\ cn_in c = x ++ cn_in c1 /\ length x = n /\ cn_out c1 = cn_out c ++ w /\ k x c1 = (c', r)).
Proof.
  intros E. unfold bind at 1 in E. destruct (write_all w c) as [c1 [[]|]] eqn:E1; apply write_all_prefix in E1 as (w1 & Hp & Ho & Hi & Hw).
  - rewrite (Hw eq_refl) in *. unfold bind at 1 in E. destruct (read_exact n c1) as [c2 [x|]] eqn:E2; pose proof (read_exact_out _ _ _ _ E2) as Ho2.
    + apply read_exact_inv in E2 as (Hin & _ & Hl). unfold bind, ensure in E. destruct (p x) eqn:Hx.
      * right. exists c2, x. split_and!; [done|congruence|done|congruence|exact E].
      * left. exists w. injection E as <- <-. split_and!; [done|congruence|done].
    + left. exists w. injection E as <- <-. split_and!; [done|congruence|done].
  - left. exists w1. injection E as <- <-. split_and!; done.
Qed.

Lemma bound_length_out atyp c c' r : bound_length atyp c = (c', r) -> cn_out c' = cn_out c.
Proof.
  unfold bound_length. destruct (atyp =? 1); [by intros [= <- <-]|]. destruct (atyp =? 4); [by intros [= <- <-]|].
  destruct (atyp =? 3); [|by intros [= <- <-]]. unfold bind, read_u8, bind, ensure.
  destruct (read_exact 1 c) as [c1 [b|]] eqn:E; apply read_exact_out in E; [|by intros [= <- <-]].
  unfold ret, fail. destruct (negb _); intros [= <- <-]; done.
Qed.

(** The end of the dialogue writes nothing. *)
Lemma bound_address_out atyp c c' r :
  (let* n := bound_length atyp in let* _ := read_exact (n + 2) in ret tt) c = (c', r) -> cn_out c' = cn_out c.
Proof.
  unfold bind at 1. destruct (bound_length atyp c) as [c1 [n|]] eqn:E1; apply bound_length_out in E1; [|by intros [= <- <-]].
  unfold bind. destruct (read_exact (n + 2) c1) as [c2 [b|]] eqn:E2; apply read_exact_out in E2; intros [= <- <-]; congruence.
Qed.

(** A transport is told things in order and only as it agrees. Whatever it
    answers and wherever the socket breaks, the gateway writes a prefix of its
    greeting, the arguments and the bridge's address; the arguments only if the
    transport chose argument authentication, the bridge's address only if it
    also accepted them; and a connection that succeeds has sent all of it. *)
Theorem transport_told_in_order (bridge : SocketAddr) (arguments : bytes) (c c' : Conn) (r : result Fault unit) :
  transport_handshake bridge arguments c = (c', r) ->
  exists w, cn_out c' = cn_out c ++ w /\ w `prefix_of` [5; 1; 2] ++ argument_auth arguments ++ bridge_request bridge /\
    (w `prefix_of` [5; 1; 2] \/ take 2 (cn_in c) = [5; 2]) /\
    (w `prefix_of` [5; 1; 2] ++ argument_auth arguments \/ take 4 (cn_in c) = [5; 2; 1; 0]) /\
    (is_ok r = true -> w = [5; 1; 2] ++ argument_auth arguments ++ bridge_request bridge).
Proof.
  intros E. unfold transport_handshake in E.
  apply turn in E as [(w & Hw & Ho & Hr)|(c1 & x & ->%bool_decide_eq_true & Hin & _ & Ho1 & E)].
  { exists w. split_and!; [done|by apply prefix_app_r|by left|left; by apply prefix_app_r|]. by rewrite Hr. }
  apply turn in E as [(w & Hw & Ho & Hr)|(c2 & x & ->%bool_decide_eq_true & Hin2 & _ & Ho2 & E)].
  { exists ([5; 1; 2] ++ w). rewrite Ho, Ho1, <- app_assoc. split_and!; [done|by apply prefix_app, prefix_app_r|right; by rewrite Hin|left; by apply prefix_app|]. by rewrite Hr. }
  rewrite Hin2 in Hin. apply turn in E as [(w & Hw & Ho & Hr)|(c3 & x & _ & _ & _ & Ho3 & E)].
  { exists ([5; 1; 2] ++ argument_auth arguments ++ w). rewrite Ho, Ho2, Ho1, <- !app_assoc. rewrite Hr.
    split_and!; [done|by do 2 apply prefix_app|by right; rewrite Hin..|done]. }
  apply bound_address_out in E. exists ([5; 1; 2] ++ argument_auth arguments ++ bridge_request bridge). rewrite E, Ho3, Ho2, Ho1, <- !app_assoc.
  split_and!; [done|done|by right; rewrite Hin..|done].
Qed.

Lemma transport_told_in_order_witness :
  let c := mkConn [5; 2; 1; 1] (mkIoError UnexpectedEof "") [] None (mkIoError BrokenPipe "") in
  exists w, cn_out (transport_handshake (mkSocketAddr (V4 (mkIpv4 192 0 2 1)) 443) [97; 61; 98] c).1 = [] ++ w /\
    w `prefix_of` [5; 1; 2; 1; 3; 97; 61; 98; 1; 0].
Proof.
  intros c. destruct (transport_told_in_order (mkSocketAddr (V4 (mkIpv4 192 0 2 1)) 443) [97; 61; 98] c _ _ (surjective_pairing _)) as (w & Ho & _ & _ & Hw & _).
  exists w. split; [exact Ho|]. destruct Hw as [Hw|Hw]; [exact Hw|]. by vm_compute in Hw.
Defined.
