(* ===== verification/Directory.v ===== *)
(** * The directory client (src/mesh/directory_client.rs)

    How a client of the directory is configured, fetches a snapshot from every
    authority over its own pinned session, directly or through the authority's
    provisioned transport, and offers what it got to the relay pool. *)
From S2P Require Import Prelude Text Net Identity Handshake Circuit Storage Sybil Consensus Revocation Transport Node Pool Socks Bridge.

Record AuthorityEndpoint := mkAuthorityEndpoint { ae_identity : bytes; ae_address : bytes; ae_public_key : bytes }.

Record PinnedDirectoryClient := mkDirectoryClient {
  dc_endpoints : list AuthorityEndpoint;
  dc_trusted : gmap bytes bytes;
  dc_quorum : Z;
  dc_transports : gmap bytes BridgeTransport;
}.

(** The loop of [new]: [trusted], and the addresses and keys seen. *)
Fixpoint pin_endpoints (trusted : gmap bytes bytes) (addresses keys : gset bytes) (endpoints : list AuthorityEndpoint) : result string (gmap bytes bytes) :=
  match endpoints with
  | [] => Ok trusted
  | e :: rest =>
      if bool_decide (ae_identity e = []) || (128 <? Z.of_nat (length (ae_identity e)))
         || bool_decide (ae_address e = []) || (512 <? Z.of_nat (length (ae_address e)))
         || existsb (fun b => is_ascii_control b || is_ascii_whitespace b) (ae_address e)
         || bool_decide (ae_address e ∈ addresses) || bool_decide (ae_public_key e ∈ keys)
      then Err "Directory endpoints require distinct addresses, identities and signing keys"%string
      else
        match VerifyingKey_from_bytes (ae_public_key e) with
        | Err e => Err (io_msg e)
        | Ok key =>
            if is_weak key || bool_decide (is_Some (trusted !! ae_identity e)) then Err "Invalid or duplicate directory identity pin"%string
            else pin_endpoints (<[ae_identity e := key]> trusted) ({[ae_address e]} ∪ addresses) ({[ae_public_key e]} ∪ keys) rest
        end
  end.

Definition DirectoryClient_new (endpoints : list AuthorityEndpoint) (quorum : Z) : result string PinnedDirectoryClient :=
  let n := Z.of_nat (length endpoints) in
  if (n =? 0) || (16 <? n) || (quorum <? 2 * n / 3 + 1) || (n <? quorum)
  then Err "Directory client requires 1..16 authorities and a quorum exceeding two thirds"%string
  else match pin_endpoints ∅ ∅ ∅ endpoints with Err e => Err e | Ok trusted => Ok (mkDirectoryClient endpoints trusted quorum ∅) end.

Fixpoint bind_transports (endpoints : list AuthorityEndpoint) (transports : gmap bytes BridgeTransport) (bindings : list BridgeTransport)
    : result string (gmap bytes BridgeTransport) :=
  match bindings with
  | [] => Ok transports
  | b :: rest =>
      if negb (existsb (fun e => bool_decide (ae_public_key e = bt_identity b)) endpoints) || bool_decide (is_Some (transports !! bt_identity b))
      then Err "Authority transport pins must exactly match the bootstrap authorities"%string
      else bind_transports endpoints (<[bt_identity b := b]> transports) rest
  end.

Definition with_transports (self : PinnedDirectoryClient) (bindings : list BridgeTransport) : result string PinnedDirectoryClient :=
  if negb (length bindings =? length (dc_endpoints self))%nat then Err "Protected bootstrap requires a transport for every authority"%string
  else
    match bind_transports (dc_endpoints self) (dc_transports self) bindings with
    | Err e => Err e
    | Ok transports => Ok (mkDirectoryClient (dc_endpoints self) (dc_trusted self) (dc_quorum self) transports)
    end.

(** ** Fetching *)
Inductive Dialled := ByName (address : bytes) | ByAddress (address : SocketAddr).

(** What the outside does for each authority's request: the answers to dials,
    and the draws of its handshake. *)
Record FetchEnv := mkFetchEnv {
  fe_resolve : AuthorityEndpoint -> bytes -> result Fault Conn;
  fe_network : AuthorityEndpoint -> SocketAddr -> result Fault Conn;
  fe_draws : AuthorityEndpoint -> bytes * bytes;
}.

Section Fetch.
Context `{OnionPrimitives} `{IdentityPrimitives} `{KexPrimitives} (parse_document : bytes -> option ConsensusDocument).

Definition open_authority (self : PinnedDirectoryClient) (env : FetchEnv) (e : AuthorityEndpoint) : list Dialled * result Fault Conn :=
  if bool_decide (dc_transports self = ∅) then ([ByName (ae_address e)], fe_resolve env e (ae_address e))
  else
    match dc_transports self !! ae_public_key e with
    | None => ([], Err (Io (rejected "Authority transport binding missing")))
    | Some b =>
        let '(dialled, r) := transport_connect (fe_network env e) (bt_proxy b) (bt_bridge b) (bt_arguments b) in
        (ByAddress <$> dialled, r)
    end.

Definition request_snapshot (pinned : bytes) (draws : bytes * bytes) (socket : Conn) : result Fault ConsensusDocument :=
  let? session := client_handshake (Some pinned) draws.1 draws.2 socket in
  match write_frame (str "GET_CONSENSUS") session with
  | (_, Err e) => Err e
  | (session, Ok _) =>
      match read_document session with
      | (_, Err e) => Err e
      | (_, Ok frame) =>
          match parse_document frame with
          | None => Err (Io (mkIoError InvalidData "json"))
          | Some snapshot =>
              if (MAX_DIRECTORY_RELAYS <? Z.of_nat (length (cd_relays snapshot))) || (16 <? length (cd_signatures snapshot))%nat
              then Err (Io (mkIoError InvalidData "Directory snapshot exceeds limits")) else Ok snapshot
          end
      end
  end.

(** One element of the joined requests. *)
Definition fetch_one (self : PinnedDirectoryClient) (env : FetchEnv) (e : AuthorityEndpoint) : list Dialled * result Fault ConsensusDocument :=
  match dc_trusted self !! ae_identity e with
  | None => ([], Err Panics)
  | Some pinned =>
      let '(dialled, r) := open_authority self env e in
      (dialled, let? socket := r in request_snapshot pinned (fe_draws env e) socket)
  end.

Definition fetch_snapshots (self : PinnedDirectoryClient) (env : FetchEnv) : list Dialled * list ConsensusDocument :=
  let replies := fetch_one self env <$> dc_endpoints self in
  (concat replies.*1, omap (fun r => match r with Ok d => Some d | Err _ => None end) replies.*2).

Definition refresh `{HashOrder} (unicode_lowercase : bytes -> bytes) (url_parse : bytes -> option Url) (write_snapshot : AcceptedSnapshot -> bytes)
    (self : PinnedDirectoryClient) (env : FetchEnv) (pool : ProxyPool) (now : Z) (outcome : WriteOutcome) : ProxyPool * result PoolError nat :=
  load_from_multi_consensus unicode_lowercase url_parse write_snapshot pool (fetch_snapshots self env).2 (dc_trusted self) (dc_quorum self) now outcome.
End Fetch.

(** ** Lemmas *)
Definition pins (endpoints : list AuthorityEndpoint) : list (bytes * bytes) := (fun e => (ae_identity e, ae_public_key e)) <$> endpoints.

Record pinned_ok (endpoints : list AuthorityEndpoint) (trusted : gmap bytes bytes) (addresses keys : gset bytes) : Prop := {
  po_trusted : trusted = list_to_map (pins endpoints);
  po_identities : NoDup (ae_identity <$> endpoints);
  po_keys : NoDup (ae_public_key <$> endpoints);
  po_addresses : NoDup (ae_address <$> endpoints);
  po_seen_keys : keys = list_to_set (ae_public_key <$> endpoints);
  po_seen_addresses : addresses = list_to_set (ae_address <$> endpoints);
  po_strong : Forall (fun e => is_weak (ae_public_key e) = false) endpoints;
}.

Lemma pins_fst endpoints : (pins endpoints).*1 = ae_identity <$> endpoints.
Proof. unfold pins. by rewrite <- list_fmap_compose. Qed.

Lemma key_of_bytes pin key : VerifyingKey_from_bytes pin = Ok key -> key = pin.
Proof. unfold VerifyingKey_from_bytes. destruct (bool_decide _); [done|]. by intros [= <-]. Qed.

Lemma pin_endpoints_ok endpoints seen trusted addresses keys out :
  pinned_ok seen trusted addresses keys -> pin_endpoints trusted addresses keys endpoints = Ok out ->
  exists addresses' keys', pinned_ok (reverse endpoints ++ seen) out addresses' keys'.
Proof.
  revert seen trusted addresses keys. induction endpoints as [|e endpoints IH]; intros seen trusted addresses keys Hok; cbn [pin_endpoints].
  { intros [= <-]. by exists addresses, keys. }
  destruct (_ || _) eqn:Hbad; [done|]. destruct (VerifyingKey_from_bytes _) as [key|] eqn:Hkey; [|done]. apply key_of_bytes in Hkey as ->.
  destruct (is_weak (ae_public_key e) || _) eqn:Hdup; [done|]. intros Hrest. reflect_bools. rewrite reverse_cons, <- app_assoc. eapply IH; [|exact Hrest].
  destruct Hok as [-> Hi Hk Ha -> -> Hs]. rewrite elem_of_list_to_set in *. cbn [app]. split; cbn [pins fmap list_fmap list_to_map foldr list_to_set]; [done| | | |set_solver|set_solver|].
  - constructor; [|done]. rewrite <- pins_fst. apply not_elem_of_list_to_map_2. by apply eq_None_not_Some.
  - by constructor.
  - by constructor.
  - by constructor.
Qed.

(** What a configured client knows of its authorities. *)
Record configured (endpoints : list AuthorityEndpoint) (q : Z) (self : PinnedDirectoryClient) : Prop := {
  cf_endpoints : dc_endpoints self = endpoints;
  cf_quorum : dc_quorum self = q;
  cf_number : 1 <= Z.of_nat (length endpoints) <= 16;
  cf_majority : 2 * Z.of_nat (length endpoints) / 3 < q <= Z.of_nat (length endpoints);
  cf_identities : NoDup (ae_identity <$> endpoints);
  cf_keys : NoDup (ae_public_key <$> endpoints);
  cf_addresses : NoDup (ae_address <$> endpoints);
  cf_strong : Forall (fun e => is_weak (ae_public_key e) = false) endpoints;
  cf_trusted : forall id key, dc_trusted self !! id = Some key <-> exists e, e ∈ endpoints /\ ae_identity e = id /\ ae_public_key e = key;
  cf_size : size (dc_trusted self) = length endpoints;
}.

Lemma new_configured endpoints q self : DirectoryClient_new endpoints q = Ok self -> configured endpoints q self /\ dc_transports self = ∅.
Proof.
  unfold DirectoryClient_new. destruct (_ || _) eqn:Hbad; [done|]. destruct (pin_endpoints _ _ _ _) as [trusted|] eqn:Hp; [|done]. intros [= <-]. split; [|done].
  reflect_bools. destruct (pin_endpoints_ok endpoints [] ∅ ∅ ∅ trusted) as (? & ? & [Ht Hi Hk Ha _ _ Hs]); [by split; try constructor|done|].
  rewrite app_nil_r in *. assert (Hfst : NoDup (pins (reverse endpoints)).*1) by (by rewrite pins_fst).
  rewrite fmap_reverse, reverse_Permutation in Hi. rewrite fmap_reverse, reverse_Permutation in Hk. rewrite fmap_reverse, reverse_Permutation in Ha.
  rewrite reverse_Permutation in Hs. split; cbn; try done; try lia.
  - intros id key. rewrite Ht, <- elem_of_list_to_map by done. unfold pins. rewrite list_elem_of_fmap. split.
    + intros (e & [= -> ->] & He). exists e. by rewrite elem_of_reverse in He.
    + intros (e & He & <- & <-). exists e. by rewrite elem_of_reverse.
  - rewrite Ht, map_size_list_to_map by done. unfold pins. by rewrite length_fmap, length_reverse.
Qed.

(** Every entry is a binding under its own identity, which is an authority's. *)
Definition transports_ok (endpoints : list AuthorityEndpoint) (bindings : list BridgeTransport) (transports : gmap bytes BridgeTransport) : Prop :=
  forall pin b, transports !! pin = Some b -> b ∈ bindings /\ bt_identity b = pin /\ pin ∈ ae_public_key <$> endpoints.

Lemma bind_transports_ok endpoints all bindings transports out :
  bind_transports endpoints transports bindings = Ok out -> (forall b, b ∈ bindings -> b ∈ all) -> transports_ok endpoints all transports ->
  transports_ok endpoints all out /\ size out = (size transports + length bindings)%nat.
Proof.
  revert transports. induction bindings as [|b bindings IH]; intros transports; cbn [bind_transports].
  { intros [= <-] _ ?. split; [done|cbn; lia]. }
  destruct (_ || _) eqn:Hbad; [done|]. reflect_bools. intros Hout Hall Hok. apply IH in Hout as [Hout ->]; [|set_solver|].
  - split; [done|]. rewrite map_size_insert_None by (by apply eq_None_not_Some). cbn. lia.
  - intros pin b' [[<- <-]|[_ Hb]]%lookup_insert_Some; [|by apply Hok]. split_and!; [set_solver|done|].
    apply existsb_exists in H as (e & He%list_elem_of_In & Hk%bool_decide_eq_true). apply list_elem_of_fmap. by exists e.
Qed.

(** A client with transports has one for every authority. *)
Lemma with_transports_complete endpoints q self bindings self' :
  configured endpoints q self -> dc_transports self = ∅ -> with_transports self bindings = Ok self' ->
  configured endpoints q self' /\ transports_ok endpoints bindings (dc_transports self') /\
  forall e, e ∈ endpoints -> exists b, dc_transports self' !! ae_public_key e = Some b.
Proof.
  intros Hc Hempty. unfold with_transports. destruct (Nat.eqb_spec (length bindings) (length (dc_endpoints self))) as [Hlen|]; [|done]. cbn [negb].
  destruct (bind_transports _ _ _) as [out|] eqn:Hb; [|done]. intros [= <-]. rewrite Hempty in Hb. pose proof (cf_endpoints _ _ _ Hc) as He. rewrite He in *.
  apply (bind_transports_ok _ bindings) in Hb as [Hok Hsize]; [|done|by intros ? ? ?%lookup_empty_Some].
  split; [by destruct Hc; split|]. split; [done|]. cbn [dc_transports]. intros e Hin.
  assert (Hdom : dom out = list_to_set (ae_public_key <$> endpoints)).
  { apply set_subseteq_size_eq.
    - intros pin [b Hpin]%elem_of_dom. apply elem_of_list_to_set. apply (Hok _ _ Hpin).
    - rewrite size_dom, Hsize, map_size_empty, size_list_to_set by (apply Hc). rewrite length_fmap. cbn. lia. }
  apply elem_of_dom. rewrite Hdom, elem_of_list_to_set, list_elem_of_fmap. by exists e.
Qed.

Lemma transport_connect_loopback network proxy bridge arguments a : a ∈ (transport_connect network proxy bridge arguments).1 -> a = proxy /\ is_loopback (sa_ip proxy) = true.
Proof.
  unfold transport_connect. destruct (endpoints_ok proxy bridge) eqn:Hok; cbn [negb]; [|by intros ?%elem_of_nil].
  destruct (encode_arguments _); [|by intros ?%elem_of_nil]. intros ->%list_elem_of_singleton. split; [done|].
  unfold endpoints_ok in Hok. by repeat apply andb_true_iff in Hok as [Hok _].
Qed.

(** ** An honest authority's answer *)
Section Honest.
Context `{OnionPrimitives} `{IdentityPrimitives} `{KexPrimitives}.
Context `{!OnionPrimitivesLaws} `{!IdentityLaws} `{!KexLaws} (parse_document : bytes -> option ConsensusDocument).

Definition within_limits (d : ConsensusDocument) : Prop :=
  Z.of_nat (length (cd_relays d)) <= MAX_DIRECTORY_RELAYS /\ (length (cd_signatures d) <= 16)%nat.

(** What the authority does with the request. *)
Definition answer_request (document : bytes) : M SecureTransportSession bytes :=
  let* request := read_frame in let* _ := write_document document in ret request.

Lemma request_answered (key : HybridSigningKey) (cs dk secret kem_rng document : bytes) (snapshot : ConsensusDocument) (dry fault : IoError) :
  verifying_key key <> replicate 32 0 -> x25519_dh secret (x25519_public cs) <> replicate 32 0 ->
  document_ok document -> is_bytes document -> parse_document document = Some snapshot -> within_limits snapshot ->
  exists up server server',
    server_handshake (Some key) secret kem_rng (mkConn up dry [] None fault) = Ok server /\
    answer_request document server = (server', Ok (str "GET_CONSENSUS")) /\
    request_snapshot parse_document (verifying_key key) (cs, dk) (mkConn (cn_out (ts_stream server')) dry [] None fault) = Ok snapshot.
Proof.
  intros Hpin Hdh Hdoc Hbytes Hparse [Hr Hs]. destruct (transport_meets key cs dk secret kem_rng dry fault Hpin Hdh) as (up & down & c2s & s2c & Hc & Hsv & Hb).
  eexists (up ++ frame c2s 1 (str "GET_CONSENSUS")), _, _. split; [apply Hsv|].
  set (server := mkSession (mkConn (frame c2s 1 (str "GET_CONSENSUS")) dry down None fault) s2c c2s 1 1 None None false).
  split.
  - unfold answer_request, bind. rewrite (confirm_read server (str "GET_CONSENSUS") []) by (done || cbn [server ts_stream cn_in]; by rewrite app_nil_r).
    rewrite (proj2 (write_document_iff (received server [] 1) _ document eq_refl eq_refl ltac:(done)) (conj Hdoc eq_refl)). reflexivity.
  - cbn [sent received set_counters set_stream ts_stream cn_out ts_send_key ts_send_counter server]. unfold request_snapshot. cbn [fst snd].
    rewrite Hc, confirm_write by done.
    match goal with |- match read_document ?s with _ => _ end = _ => edestruct (read_document_iff s) as [_ Hread] end.
    { done. }
    { apply (frames_bytes s2c 1 (document_frames document)). constructor; [apply is_bytes_app; [apply str_bytes|apply be_bytes_is_bytes]|by apply chunks_bytes]. }
    { done. }
    rewrite Hread; [|split; [exact Hdoc|]; exists []; split; [symmetry; apply app_nil_r|reflexivity]].
    rewrite Hparse, (proj2 (Z.ltb_ge _ _) Hr), (proj2 (Nat.ltb_ge _ _) Hs). done.
Qed.
End Honest.

(** ** The client *)
Lemma configured_client endpoints q base bindings self :
  DirectoryClient_new endpoints q = Ok base -> self = base \/ with_transports base bindings = Ok self -> configured endpoints q self.
Proof. intros [Hc He]%new_configured [->|Hw]; [done|]. by eapply with_transports_complete. Qed.

Section Client.
Context `{OnionPrimitives} `{IdentityPrimitives} `{KexPrimitives} (parse_document : bytes -> option ConsensusDocument).

Lemma bootstrap_dials (endpoints : list AuthorityEndpoint) (q : Z) (bindings : list BridgeTransport) (base self : PinnedDirectoryClient)
    (env : FetchEnv) :
  DirectoryClient_new endpoints q = Ok base -> with_transports base bindings = Ok self ->
  (forall e, e ∈ endpoints -> exists b, b ∈ bindings /\ dc_transports self !! ae_public_key e = Some b /\ bt_identity b = ae_public_key e) /\
  Forall (fun a => exists b, b ∈ bindings /\ a = ByAddress (bt_proxy b) /\ is_loopback (sa_ip (bt_proxy b)) = true)
    (fetch_snapshots parse_document self env).1.
Proof.
  intros [Hnew Hempty]%new_configured Hwith. destruct (with_transports_complete _ _ _ _ _ Hnew Hempty Hwith) as (Hc & Hok & Hall). split.
  - intros e [b Hb]%Hall. destruct (Hok _ _ Hb) as (? & ? & _). eauto.
  - cbn [fetch_snapshots fst]. rewrite (cf_endpoints _ _ _ Hc). apply Forall_concat, Forall_fmap, Forall_fmap, Forall_forall. intros e He.
    apply Forall_forall. intros a Hl. unfold compose in Hl.
    unfold fetch_one in Hl. destruct (dc_trusted self !! _); [|by apply elem_of_nil in Hl]. unfold open_authority in Hl.
    destruct (Hall e He) as [b Hb]. rewrite bool_decide_false in Hl by (intros E; by rewrite E in Hb). rewrite Hb in Hl.
    destruct (transport_connect _ _ _ _) as [dialled r] eqn:Hd. cbn [fst] in Hl. apply list_elem_of_fmap in Hl as (a' & -> & Ha').
    exists b. split; [apply (Hok _ _ Hb)|]. edestruct (transport_connect_loopback (fe_network env e) (bt_proxy b) (bt_bridge b) (bt_arguments b) a') as [-> ?]; [by rewrite Hd|done].
Qed.

(** Protected bootstrap is all or nothing. A client that was given
    transports has one for the exact pin of every authority, and whatever the
    network answers, fetching dials nothing but the loopback proxies of these
    bindings: no authority is ever contacted directly or resolved by name. *)
Theorem bootstrap_never_direct (endpoints : list AuthorityEndpoint) (q : Z) (bindings : list BridgeTransport) (base self : PinnedDirectoryClient)
    (env : FetchEnv) :
  DirectoryClient_new endpoints q = Ok base -> with_transports base bindings = Ok self ->
  (forall e, e ∈ endpoints -> exists b, b ∈ bindings /\ dc_transports self !! ae_public_key e = Some b /\ bt_identity b = ae_public_key e) /\
  Forall (fun a => exists b, b ∈ bindings /\ a = ByAddress (bt_proxy b) /\ is_loopback (sa_ip (bt_proxy b)) = true)
    (fetch_snapshots parse_document self env).1.
Proof. apply bootstrap_dials. Qed.

(** C15: What a refresh installs, more than two thirds of the configured
    authorities stand behind. If the pool changes, its new snapshot is of a
    document that passed the quorum check under the configured pins; and for
    any other document that ever passes it, more than a third of the configured
    authorities signed both under their pinned keys. A refresh that fails leaves
    everything but the rollback file as it was. *)
Theorem refresh_certified `{HashOrder} (unicode_lowercase : bytes -> bytes) (url_parse : bytes -> option Url) (ws : AcceptedSnapshot -> bytes)
    (endpoints : list AuthorityEndpoint) (q : Z) (bindings : list BridgeTransport) (base self : PinnedDirectoryClient) (env : FetchEnv)
    (pool pool' : ProxyPool) (now : Z) (outcome : WriteOutcome) (res : result PoolError nat) :
  DirectoryClient_new endpoints q = Ok base -> self = base \/ with_transports base bindings = Ok self ->
  refresh parse_document unicode_lowercase url_parse ws self env pool now outcome = (pool', res) ->
  match res with
  | Err _ => exists file, pool' = set_snapshot_file pool file
  | Ok _ => exists d, verify_quorum d (dc_trusted self) q now = true /\ pl_accepted_snapshot pool' = Some (snapshot_of d) /\
      forall d2 t2, verify_quorum d2 (dc_trusted self) q t2 = true ->
        exists both : gset bytes, Z.of_nat (length endpoints) < 3 * Z.of_nat (size both) /\
          forall id, id ∈ both -> exists e v1 v2, e ∈ endpoints /\ ae_identity e = id /\ v_id v1 = id /\ v_id v2 = id /\
            valid_vote (compute_digest d) (dc_trusted self) v1 /\ valid_vote (compute_digest d2) (dc_trusted self) v2 /\
            dc_trusted self !! id = Some (ae_public_key e)
  end.
Proof.
  intros Hnew Hself Hload. pose proof (configured_client _ _ _ _ _ Hnew Hself) as Hc. unfold refresh in Hload. rewrite (cf_quorum _ _ _ Hc) in Hload.
  apply load_inv in Hload. destruct res as [n|e]; [|destruct Hload as [->|(d & rp & _ & _ & ->)]; [exists (pl_snapshot_file pool); by destruct pool|by eexists]].
  destruct Hload as (_ & d & rp & file & Hq & _ & _ & ->). exists d. split_and!; [done..|]. intros d2 t2 Hv2.
  destruct (cf_majority _ _ _ Hc) as [Hmaj _].
  apply verify_quorum_votes in Hq as (_ & _ & votes1 & Hd1 & Hq1 & Hf1). apply verify_quorum_votes in Hv2 as (_ & _ & votes2 & Hd2 & Hq2 & Hf2).
  edestruct (votes_intersection (compute_digest d) (compute_digest d2) (dc_trusted self) votes1 votes2 q) as (both & _ & Hthird & Hboth);
    [exact Hd1|eapply Forall_impl; [exact Hf1|by intros ? []]|done|exact Hd2|eapply Forall_impl; [exact Hf2|by intros ? []]|done|].
  rewrite (cf_size _ _ _ Hc) in Hthird. exists both. split; [by apply Hthird|]. intros id Hid. destruct (Hboth id Hid) as (v1 & v2 & E1 & E2 & V1 & V2).
  pose proof (proj1 V1) as Hkey. rewrite E1 in Hkey. destruct (proj1 (cf_trusted _ _ _ Hc _ _) Hkey) as (e & He & Hid' & Hpk).
  exists e, v1, v2. rewrite Hpk. by split_and!.
Qed.
End Client.

Section Answered.
Context `{OnionPrimitives} `{IdentityPrimitives} `{KexPrimitives}.
Context `{!OnionPrimitivesLaws} `{!IdentityLaws} `{!KexLaws} (parse_document : bytes -> option ConsensusDocument).

(** An honest authority is heard. If a configured authority holds the key
    that is pinned for it, then what it writes when it serves a document to
    this client's request makes the request come back with that document,
    whatever the other authorities do. *)
Theorem snapshot_fetched (endpoints : list AuthorityEndpoint) (q : Z) (self : PinnedDirectoryClient) (e : AuthorityEndpoint)
    (key : HybridSigningKey) (cs dk secret kem_rng document : bytes) (snapshot : ConsensusDocument) (dry fault : IoError) :
  DirectoryClient_new endpoints q = Ok self -> e ∈ endpoints -> ae_public_key e = verifying_key key ->
  x25519_dh secret (x25519_public cs) <> replicate 32 0 ->
  document_ok document -> is_bytes document -> parse_document document = Some snapshot -> within_limits snapshot ->
  exists up server server',
    server_handshake (Some key) secret kem_rng (mkConn up dry [] None fault) = Ok server /\
    answer_request document server = (server', Ok (str "GET_CONSENSUS")) /\
    forall env, fe_draws env e = (cs, dk) ->
      fe_resolve env e (ae_address e) = Ok (mkConn (cn_out (ts_stream server')) dry [] None fault) ->
      snapshot ∈ (fetch_snapshots parse_document self env).2.
Proof.
  intros [Hc Hempty]%new_configured He Hkey Hdh Hdoc Hbytes Hparse Hlim.
  assert (Hpin : verifying_key key <> replicate 32 0).
  { rewrite <- Hkey. pose proof (cf_strong _ _ _ Hc) as Hs. rewrite Forall_forall in Hs. apply Hs in He. by apply bool_decide_eq_false in He. }
  destruct (request_answered parse_document key cs dk secret kem_rng document snapshot dry fault) as (up & server & server' & Hsv & Hans & Hreq); [done..|].
  exists up, server, server'. split_and!; [done..|]. intros env Hdraws Hres. cbn [fetch_snapshots snd]. rewrite (cf_endpoints _ _ _ Hc).
  apply list_elem_of_omap. exists (Ok snapshot). split; [|done]. apply list_elem_of_fmap. exists ([ByName (ae_address e)], Ok snapshot). split; [done|].
  apply list_elem_of_fmap. exists e. split; [|done]. unfold fetch_one.
  rewrite (proj2 (cf_trusted _ _ _ Hc (ae_identity e) (verifying_key key))) by (exists e; by split_and!).
  unfold open_authority. rewrite Hempty, bool_decide_true, Hres, Hdraws by done. cbv beta iota. by rewrite Hreq.
Qed.
End Answered.

(** ** Witnesses *)
#[local] Existing Instances toy_primitives toy_laws toy_identity toy_identity_laws toy_kex toy_kex_laws map_order map_order_laws toy_snapshot_eq_dec toy_snapshot_countable.

Definition toy_endpoint (pin : bytes) : AuthorityEndpoint := mkAuthorityEndpoint (str "auth-a") (str "127.0.0.1:9000") pin.

Lemma toy_new pin :
  pin <> replicate 32 0 -> DirectoryClient_new [toy_endpoint pin] 1 = Ok (mkDirectoryClient [toy_endpoint pin] {[str "auth-a" := pin]} 1 ∅).
Proof.
  intros Hpin. unfold DirectoryClient_new. cbn [length]. change ((_ =? 0) || _ || _ || _) with false. cbn [pin_endpoints toy_endpoint ae_identity ae_address ae_public_key].
  rewrite (bool_decide_false (pin ∈ ∅)) by apply not_elem_of_empty. change (_ || _ || _ || _ || _ || _ || false) with false. cbn iota.
  unfold VerifyingKey_from_bytes. rewrite bool_decide_false by done. unfold is_weak. rewrite bool_decide_false by done. cbn [orb].
  by rewrite lookup_empty, bool_decide_false by (by intros []).
Qed.

Definition toy_authority_pin : bytes := verifying_key (toy_authority 1).
Lemma toy_pin_nonzero : toy_authority_pin <> replicate 32 0.
Proof. vm_compute. discriminate. Qed.
Definition toy_eof : IoError := mkIoError UnexpectedEof "".

Lemma snapshot_fetched_witness :
  exists answer env, fe_resolve env (toy_endpoint toy_authority_pin) (str "127.0.0.1:9000") = Ok (mkConn answer toy_eof [] None toy_eof) /\
    ConsensusDocument_new 1000 4600 [] ∈
      (fetch_snapshots (fun _ => Some (ConsensusDocument_new 1000 4600 []))
        (mkDirectoryClient [toy_endpoint toy_authority_pin] {[str "auth-a" := toy_authority_pin]} 1 ∅) env).2.
Proof.
  destruct (snapshot_fetched (fun _ => Some (ConsensusDocument_new 1000 4600 [])) [toy_endpoint toy_authority_pin] 1
    (mkDirectoryClient [toy_endpoint toy_authority_pin] {[str "auth-a" := toy_authority_pin]} 1 ∅) (toy_endpoint toy_authority_pin)
    (toy_authority 1) [5] [1] [9] [1] [123] (ConsensusDocument_new 1000 4600 []) toy_eof toy_eof) as (up & server & server' & _ & _ & Hfetch).
  - apply toy_new, toy_pin_nonzero.
  - by apply list_elem_of_singleton.
  - done.
  - vm_compute. discriminate.
  - unfold document_ok, MAX_FRAME_LEN. cbn. lia.
  - by repeat constructor.
  - done.
  - split; [done|cbn; lia].
  - set (c := mkConn (cn_out (ts_stream server')) toy_eof [] None toy_eof). exists (cn_out (ts_stream server')).
    exists (mkFetchEnv (fun _ _ => Ok c) (fun _ _ => Err Panics) (fun _ => ([5], [1]))). split; [done|]. by apply Hfetch.
Defined.

Lemma bootstrap_never_direct_witness :
  exists self, Forall (fun a => exists b, b ∈ take 1 toy_bindings /\ a = ByAddress (bt_proxy b) /\ is_loopback (sa_ip (bt_proxy b)) = true)
      (fetch_snapshots (fun _ => None) self (mkFetchEnv (fun _ _ => Err Panics) (fun _ _ => Err Panics) (fun _ => ([], [])))).1 /\
    (fetch_snapshots (fun _ => None) self (mkFetchEnv (fun _ _ => Err Panics) (fun _ _ => Err Panics) (fun _ => ([], [])))).1
      = [ByAddress (mkSocketAddr (V4 (mkIpv4 127 0 0 1)) 31000)].
Proof.
  pose proof (toy_new (replicate 32 41) ltac:(done)) as Hnew. eexists. split.
  - apply (bootstrap_never_direct (fun _ => None) [toy_endpoint (replicate 32 41)] 1 (take 1 toy_bindings) _ _ _ Hnew). vm_compute. reflexivity.
  - vm_compute. reflexivity.
Defined.

Lemma refresh_certified_witness :
  exists env pool' n d,
    refresh (fun _ => Some d) id toy_url toy_write (mkDirectoryClient [toy_endpoint toy_authority_pin] toy_auths 1 ∅) env
      (mkProxyPool ∅ ∅ 0 ∅ 0 None ∅ GuardState_default (Some []) None None) (1000 + 10) Written = (pool', Ok n) /\
    exists d', verify_quorum d' toy_auths 1 (1000 + 10) = true /\ pl_accepted_snapshot pool' = Some (snapshot_of d').
Proof.
  destruct toy_signed_relay_exists as [r Hr]. set (pool := mkProxyPool ∅ ∅ 0 ∅ 0 None ∅ GuardState_default (Some []) None None).
  destruct (toy_load r pool 1000 Hr eq_refl eq_refl (ex_intro _ [] eq_refl)) as [rp Hload].
  destruct (toy_epoch_fields r 1000) as (_ & _ & Hrelays & Hsigs).
  destruct (request_answered (fun _ => Some (toy_epoch_document r 1000)) (toy_authority 1) [5] [1] [9] [1] [123] (toy_epoch_document r 1000) toy_eof toy_eof)
    as (up & server & server' & _ & _ & Hreq).
  - exact toy_pin_nonzero.
  - vm_compute. discriminate.
  - unfold document_ok, MAX_FRAME_LEN. cbn. lia.
  - by repeat constructor.
  - done.
  - split; [by rewrite Hrelays|rewrite Hsigs; lia].
  - set (env := mkFetchEnv (fun _ _ => Ok (mkConn (cn_out (ts_stream server')) toy_eof [] None toy_eof)) (fun _ _ => Err Panics) (fun _ => ([5], [1]))).
    set (self := mkDirectoryClient [toy_endpoint toy_authority_pin] toy_auths 1 ∅).
    assert (Hfetch : (fetch_snapshots (fun _ => Some (toy_epoch_document r 1000)) self env).2 = [toy_epoch_document r 1000]).
    { unfold fetch_snapshots. cbn [snd self dc_endpoints fmap list_fmap]. fold self.
      assert (Hone : fetch_one (fun _ => Some (toy_epoch_document r 1000)) self env (toy_endpoint toy_authority_pin) = ([ByName (str "127.0.0.1:9000")], Ok (toy_epoch_document r 1000))).
      { unfold fetch_one. rewrite (lookup_singleton_eq (str "auth-a") toy_authority_pin : dc_trusted self !! ae_identity (toy_endpoint toy_authority_pin) = Some _).
        unfold open_authority. cbn [dc_transports self]. rewrite bool_decide_true by done. cbn [fe_resolve fe_draws env]. cbv beta iota. fold toy_authority_pin in Hreq. by rewrite Hreq. }
      by rewrite Hone. }
    exists env, (publish (set_snapshot_file pool (Some (toy_write (snapshot_of (toy_epoch_document r 1000))))) (toy_epoch_document r 1000) rp), (size (rp_nodes rp)), (toy_epoch_document r 1000).
    assert (Hrefresh : refresh (fun _ => Some (toy_epoch_document r 1000)) id toy_url toy_write self env pool (1000 + 10) Written =
      (publish (set_snapshot_file pool (Some (toy_write (snapshot_of (toy_epoch_document r 1000))))) (toy_epoch_document r 1000) rp, Ok (size (rp_nodes rp)))).
    { unfold refresh. rewrite Hfetch. exact Hload. }
    split; [exact Hrefresh|].
    destruct (refresh_certified (fun _ => Some (toy_epoch_document r 1000)) id toy_url toy_write [toy_endpoint toy_authority_pin] 1 [] self self env pool _ _ Written _
      (toy_new toy_authority_pin toy_pin_nonzero) (or_introl eq_refl) Hrefresh) as (d' & Hq & Hacc & _).
    exists d'. split; [exact Hq|exact Hacc].
Defined.
