(* ===== verification/SessionCache.v ===== *)
(** * Sessions by privacy context (src/gateway/session_cache.rs)

    One onion session for each privacy context, shared by the requests of that
    context and started by one of them. A slot is a cell that is set once; the
    table and the requests that wait on it hold counted references to it. The
    table is consulted under its lock; starting a session is not, so the
    operations are steps that interleave. *)
From S2P Require Import Prelude Text.

(** [OnceCell<Result<Arc<T>, String>>]; a session is named by a number. *)
Definition Contents := option (result string nat).

Inductive Request :=
| Holding (key : bytes) (slot : nat)     (* has the slot, waits for its cell *)
| Starting (key : bytes) (slot : nat)    (* runs the initialiser *)
| Served (key : bytes) (session : nat)
| Refused (key : bytes) (m : string).

Record SessionCache := mkCache {
  sc_slots : gmap bytes nat;
  sc_cells : gmap nat Contents;
  sc_next : nat;                        (* slots are allocated in order *)
  sc_requests : gmap nat Request;
  sc_started : gmap nat bytes;          (* the context each session was started for *)
}.

Definition cache_init : SessionCache := mkCache ∅ ∅ 0 ∅ ∅.

Definition holds_slot (slot : nat) (r : Request) : bool :=
  match r with Holding _ s | Starting _ s => (s =? slot)%nat | _ => false end.

(** [Arc::strong_count(slot) > 1]: someone besides the table has it. *)
Definition shared (requests : gmap nat Request) (slot : nat) : bool := existsb (fun e => holds_slot slot e.2) (map_to_list requests).

Definition contents (cells : gmap nat Contents) (slot : nat) : Contents := default None (cells !! slot).

(** The closure of [retain]. *)
Definition retain_slot (self : SessionCache) (alive : nat -> bool) (slot : nat) : bool :=
  match contents (sc_cells self) slot with
  | Some (Ok session) => alive session
  | Some (Err _) => false
  | None => shared (sc_requests self) slot
  end.

Definition set_request (self : SessionCache) (r : nat) (q : Request) : SessionCache :=
  mkCache (sc_slots self) (sc_cells self) (sc_next self) (<[r := q]> (sc_requests self)) (sc_started self).

Definition reclaim (self : SessionCache) (alive : nat -> bool) : SessionCache :=
  mkCache (filter (fun e : bytes * nat => retain_slot self alive e.2 = true) (sc_slots self)) (sc_cells self) (sc_next self) (sc_requests self) (sc_started self).

(** [or_insert_with(|| Arc::new(OnceCell::new()))] *)
Definition reserve (self : SessionCache) (key : bytes) : SessionCache :=
  mkCache (<[key := sc_next self]> (sc_slots self)) (<[sc_next self := None]> (sc_cells self)) (S (sc_next self)) (sc_requests self) (sc_started self).

(** The part of [get_or_start] under the lock, for request [r]. *)
Definition get_slot (maximum : nat) (self : SessionCache) (r : nat) (key : bytes) (alive : nat -> bool) : SessionCache :=
  let self := reclaim self alive in
  match sc_slots self !! key with
  | Some slot => set_request self r (Holding key slot)
  | None =>
      if (maximum <=? size (sc_slots self))%nat
      then set_request self r (Refused key "Privacy context limit reached")
      else set_request (reserve self key) r (Holding key (sc_next self))
  end.

Definition is_starting (slot : nat) (r : Request) : bool := match r with Starting _ s => (s =? slot)%nat | _ => false end.

Definition answer (key : bytes) (c : result string nat) : Request := match c with Ok session => Served key session | Err m => Refused key m end.

Inductive CacheEvent :=
| Looks (key : bytes) (alive : nat -> bool)
| Begins                                  (* gets the right to initialise the cell *)
| Ends (outcome : result string nat)      (* its initialiser ended *)
| Finds                                   (* the cell was set by another *)
| Cancelled.

(** [get_or_init] on a cell, and cancellation of a request; a session that is
    started is a new one. *)
Definition cache_step (maximum : nat) (self : SessionCache) (r : nat) (ev : CacheEvent) : option SessionCache :=
  match sc_requests self !! r, ev with
  | None, Looks key alive => Some (get_slot maximum self r key alive)
  | Some (Holding key slot), Begins =>
      if bool_decide (contents (sc_cells self) slot = None) && negb (existsb (fun e => is_starting slot e.2) (map_to_list (sc_requests self)))
      then Some (set_request self r (Starting key slot)) else None
  | Some (Holding key slot), Finds =>
      match contents (sc_cells self) slot with Some c => Some (set_request self r (answer key c)) | None => None end
  | Some (Starting key slot), Ends outcome =>
      let set started := mkCache (sc_slots self) (<[slot := Some outcome]> (sc_cells self)) (sc_next self) (<[r := answer key outcome]> (sc_requests self)) started in
      match outcome with
      | Err _ => Some (set (sc_started self))
      | Ok session => match sc_started self !! session with Some _ => None | None => Some (set (<[session := key]> (sc_started self))) end
      end
  | Some (Holding key _), Cancelled | Some (Starting key _), Cancelled => Some (set_request self r (Refused key "cancelled"))
  | _, _ => None
  end.

Inductive cache_reachable (maximum : nat) : SessionCache -> Prop :=
| cache_starts : cache_reachable maximum cache_init
| cache_steps self r ev self' : cache_reachable maximum self -> cache_step maximum self r ev = Some self' -> cache_reachable maximum self'.

(** ** Invariant *)
Lemma shared_spec requests slot : shared requests slot = true <-> exists r q, requests !! r = Some q /\ holds_slot slot q = true.
Proof.
  unfold shared. rewrite existsb_exists. split.
  - intros ([r q] & Hin%list_elem_of_In & Hq). apply elem_of_map_to_list in Hin. eauto.
  - intros (r & q & Hr & Hq). exists (r, q). split; [|done]. by apply list_elem_of_In, elem_of_map_to_list.
Qed.

Lemma starting_spec requests slot :
  existsb (fun e : nat * Request => is_starting slot e.2) (map_to_list requests) = false -> forall r key, requests !! r <> Some (Starting key slot).
Proof.
  intros Hn r key Hr. apply elem_of_map_to_list, list_elem_of_In in Hr. assert (existsb (fun e : nat * Request => is_starting slot e.2) (map_to_list requests) = true).
  { apply existsb_exists. eexists. split; [exact Hr|]. cbn. apply Nat.eqb_refl. }
  congruence.
Qed.

(** A request and the slot it waits on. *)
Definition waits_on (q : Request) (key : bytes) (slot : nat) : Prop := q = Holding key slot \/ q = Starting key slot.

(** [owner] is the context a slot was made for. *)
Record cache_inv (maximum : nat) (owner : nat -> bytes) (self : SessionCache) : Prop := {
  ci_bound : (size (sc_slots self) <= maximum)%nat;
  ci_slots : forall key slot, sc_slots self !! key = Some slot -> owner slot = key /\ (slot < sc_next self)%nat;
  ci_waits : forall r q key slot, sc_requests self !! r = Some q -> waits_on q key slot -> owner slot = key /\ (slot < sc_next self)%nat;
  ci_cells : forall slot session, contents (sc_cells self) slot = Some (Ok session) -> sc_started self !! session = Some (owner slot);
  ci_fresh : forall slot, (sc_next self <= slot)%nat -> contents (sc_cells self) slot = None;
  (* an unset cell someone waits on is the one the table has for that context *)
  ci_current : forall r q key slot, sc_requests self !! r = Some q -> waits_on q key slot -> contents (sc_cells self) slot = None ->
    sc_slots self !! key = Some slot;
  ci_one : forall r r' key key' slot, sc_requests self !! r = Some (Starting key slot) -> sc_requests self !! r' = Some (Starting key' slot) -> r = r';
  ci_unset : forall r key slot, sc_requests self !! r = Some (Starting key slot) -> contents (sc_cells self) slot = None;
  ci_served : forall r key session, sc_requests self !! r = Some (Served key session) -> sc_started self !! session = Some key;
}.

Lemma waits_holds q key slot : waits_on q key slot -> holds_slot slot q = true.
Proof. intros [-> | ->]; apply Nat.eqb_refl. Qed.

Lemma cache_init_inv maximum : cache_inv maximum (fun _ => []) cache_init.
Proof. split; cbn; intros; try (by rewrite ?lookup_empty in *); rewrite ?map_size_empty; try lia; unfold contents in *; by rewrite ?lookup_empty in *. Qed.

(** A request that stops waiting, with the rest as it was. *)
Lemma settle_inv maximum owner self r q :
  cache_inv maximum owner self -> (forall key slot, ~ waits_on q key slot) ->
  (forall key session, q = Served key session -> sc_started self !! session = Some key) ->
  cache_inv maximum owner (set_request self r q).
Proof.
  intros [Hb Hs Hw Hc Hf Hcur Hone Hun Hsv] Hq Hserved.
  assert (Hn : forall key slot, q <> Starting key slot) by (intros key slot ->; apply (Hq key slot); by right).
  split; cbn; eauto.
  - intros r0 q0 key slot [[-> ->]|[? Hr0]]%lookup_insert_Some Hwo; [by destruct (Hq _ _ Hwo)|eauto].
  - intros r0 q0 key slot [[-> ->]|[? Hr0]]%lookup_insert_Some Hwo; [by destruct (Hq _ _ Hwo)|eauto].
  - intros r0 r1 key key' slot [[-> E0]|[? Hr0]]%lookup_insert_Some [[-> E1]|[? Hr1]]%lookup_insert_Some; try (by destruct (Hn _ _ E0)); try (by destruct (Hn _ _ E1)); eauto.
  - intros r0 key slot [[-> E0]|[? Hr0]]%lookup_insert_Some; [by destruct (Hn _ _ E0)|eauto].
  - intros r0 key session [[-> E0]|[? Hr0]]%lookup_insert_Some; eauto.
Qed.

Lemma reclaim_inv maximum owner self alive : cache_inv maximum owner self -> cache_inv maximum owner (reclaim self alive).
Proof.
  intros [Hb Hs Hw Hc Hf Hcur Hone Hun Hsv]. split; cbn; eauto.
  - etrans; [|exact Hb]. apply map_size_filter.
  - intros key slot [? _]%map_lookup_filter_Some. eauto.
  - intros r q key slot Hr Hwo Hnone. apply map_lookup_filter_Some. split; [eauto|]. cbn. unfold retain_slot. rewrite Hnone.
    apply shared_spec. exists r, q. split; [done|]. by apply waits_holds in Hwo.
Qed.

Lemma hold_inv maximum owner self r key slot :
  cache_inv maximum owner self -> sc_slots self !! key = Some slot -> cache_inv maximum owner (set_request self r (Holding key slot)).
Proof.
  intros [Hb Hs Hw Hc Hf Hcur Hone Hun Hsv] Hslot. split; cbn; eauto.
  - intros r0 q key0 slot0 [[-> <-]|[? Hr0]]%lookup_insert_Some Hwo; [|eauto]. destruct Hwo as [[= <- <-]|[=]]. eauto.
  - intros r0 q key0 slot0 [[-> <-]|[? Hr0]]%lookup_insert_Some Hwo; [|eauto]. by destruct Hwo as [[= <- <-]|[=]].
  - intros r0 r1 key0 key1 slot0 [[-> [=]]|[? Hr0]]%lookup_insert_Some [[-> [=]]|[? Hr1]]%lookup_insert_Some. eauto.
  - intros r0 key0 slot0 [[-> [=]]|[? Hr0]]%lookup_insert_Some. eauto.
  - intros r0 key0 slot0 [[-> [=]]|[? Hr0]]%lookup_insert_Some. eauto.
Qed.

Lemma contents_insert cells slot c slot' : contents (<[slot := c]> cells) slot' = if decide (slot = slot') then c else contents cells slot'.
Proof. unfold contents. case_decide; [subst; by rewrite lookup_insert_eq|by rewrite lookup_insert_ne]. Qed.

Lemma reserve_inv maximum owner self key :
  cache_inv maximum owner self -> sc_slots self !! key = None -> (size (sc_slots self) < maximum)%nat ->
  cache_inv maximum (fun slot => if decide (slot = sc_next self) then key else owner slot) (reserve self key).
Proof.
  intros [Hb Hs Hw Hc Hf Hcur Hone Hun Hsv] Hnone Hlt. split; cbn.
  - rewrite map_size_insert_None; [lia|done].
  - intros key0 slot [[-> <-]|[? Hk]]%lookup_insert_Some; [rewrite decide_True; [split; [done|lia]|done]|].
    destruct (Hs _ _ Hk). rewrite decide_False; [split; [done|lia]|lia].
  - intros r q key0 slot Hr Hwo. destruct (Hw _ _ _ _ Hr Hwo). rewrite decide_False; [split; [done|lia]|lia].
  - intros slot session. rewrite contents_insert. case_decide; [done|]. rewrite decide_False; [eauto|congruence].
  - intros slot Hle. rewrite contents_insert. case_decide; [done|apply Hf; lia].
  - intros r q key0 slot Hr Hwo Hn. destruct (Hw _ _ _ _ Hr Hwo) as [_ Hlt0]. rewrite contents_insert, decide_False in Hn by lia.
    rewrite lookup_insert_ne; [eauto|]. intros <-. by rewrite (Hcur _ _ _ _ Hr Hwo Hn) in Hnone.
  - done.
  - intros r key0 slot Hr. rewrite contents_insert. case_decide; eauto.
  - done.
Qed.

Lemma begin_inv maximum owner self r key slot :
  cache_inv maximum owner self -> sc_requests self !! r = Some (Holding key slot) -> contents (sc_cells self) slot = None ->
  (forall r' key', sc_requests self !! r' <> Some (Starting key' slot)) -> cache_inv maximum owner (set_request self r (Starting key slot)).
Proof.
  intros [Hb Hs Hw Hc Hf Hcur Hone Hun Hsv] Hr Hnone Hno.
  assert (Hhold : waits_on (Holding key slot) key slot) by (by left).
  split; cbn; eauto.
  - intros r0 q key0 slot0 [[-> <-]|[? Hr0]]%lookup_insert_Some Hwo; [|eauto]. destruct Hwo as [[=]|[= <- <-]]. eauto.
  - intros r0 q key0 slot0 [[-> <-]|[? Hr0]]%lookup_insert_Some Hwo; [|eauto]. destruct Hwo as [[=]|[= <- <-]]. eauto.
  - intros r0 r1 key0 key1 slot0 [[-> E0]|[? Hr0]]%lookup_insert_Some [[-> E1]|[? Hr1]]%lookup_insert_Some; simplify_eq; eauto.
    + by destruct (Hno _ _ Hr1).
    + by destruct (Hno _ _ Hr0).
  - intros r0 key0 slot0 [[-> [= <- <-]]|[? Hr0]]%lookup_insert_Some; eauto.
  - intros r0 key0 slot0 [[-> [=]]|[? Hr0]]%lookup_insert_Some. eauto.
Qed.

(** The initialiser ended and the cell is set. *)
Lemma end_inv maximum owner self r key slot outcome started :
  cache_inv maximum owner self -> sc_requests self !! r = Some (Starting key slot) ->
  sc_started self ⊆ started -> (forall session, outcome = Ok session -> started !! session = Some key) ->
  cache_inv maximum owner (mkCache (sc_slots self) (<[slot := Some outcome]> (sc_cells self)) (sc_next self) (<[r := answer key outcome]> (sc_requests self)) started).
Proof.
  intros [Hb Hs Hw Hc Hf Hcur Hone Hun Hsv] Hr Hsub Hok.
  assert (Hstart : waits_on (Starting key slot) key slot) by (by right).
  destruct (Hw _ _ _ _ Hr Hstart) as [Hown Hlt].
  assert (Hans : forall key' slot', ~ waits_on (answer key outcome) key' slot') by (intros key' slot'; destruct outcome; by intros [[=]|[=]]).
  split; cbn; eauto.
  - intros r0 q key0 slot0 [[-> <-]|[? Hr0]]%lookup_insert_Some Hwo; [by destruct (Hans _ _ Hwo)|eauto].
  - intros slot0 session. rewrite contents_insert. case_decide; [subst slot0; intros [= ->]; rewrite Hown; eauto|].
    intros Hcell. eapply lookup_weaken; eauto.
  - intros slot0 Hle. rewrite contents_insert, decide_False by lia. eauto.
  - intros r0 q key0 slot0 [[-> <-]|[? Hr0]]%lookup_insert_Some Hwo; [by destruct (Hans _ _ Hwo)|].
    rewrite contents_insert. case_decide; [done|eauto].
  - intros r0 r1 key0 key1 slot0 [[-> E0]|[? Hr0]]%lookup_insert_Some [[-> E1]|[? Hr1]]%lookup_insert_Some; destruct outcome; simplify_eq; eauto.
  - intros r0 key0 slot0 [[-> E0]|[Hne Hr0]]%lookup_insert_Some; [by destruct outcome|]. rewrite contents_insert. case_decide; [|eauto].
    subst slot0. by destruct Hne; apply (Hone r r0 key key0 slot).
  - intros r0 key0 session [[-> E0]|[? Hr0]]%lookup_insert_Some; [destruct outcome; simplify_eq/=; eauto|]. eapply lookup_weaken; eauto.
Qed.

Lemma get_slot_inv maximum owner self r key alive :
  cache_inv maximum owner self -> exists owner', cache_inv maximum owner' (get_slot maximum self r key alive).
Proof.
  intros Hinv. apply (reclaim_inv _ _ _ alive) in Hinv. unfold get_slot. cbv zeta.
  destruct (sc_slots (reclaim self alive) !! key) as [slot|] eqn:Hslot; [exists owner; by apply hold_inv|].
  destruct (Nat.leb_spec maximum (size (sc_slots (reclaim self alive)))).
  - exists owner. apply settle_inv; [done| |done]. by intros ? ? [[=]|[=]].
  - eexists. apply hold_inv; [by apply reserve_inv|]. apply lookup_insert_eq.
Qed.

Lemma cache_step_inv maximum owner self r ev self' :
  cache_inv maximum owner self -> cache_step maximum self r ev = Some self' -> exists owner', cache_inv maximum owner' self'.
Proof.
  intros Hinv Hstep. unfold cache_step in Hstep.
  destruct (sc_requests self !! r) as [[key slot|key slot|key s|key m]|] eqn:Hr, ev as [k alive| |[session|m']| |]; simplify_eq.
  all: try (exists owner; apply settle_inv; [done| |done]; by intros ? ? [[=]|[=]]).
  - destruct (_ && _) eqn:Hg; simplify_eq. apply andb_true_iff in Hg as [Hn%bool_decide_eq_true Hs%negb_true_iff].
    exists owner. apply begin_inv; [done..|]. by apply starting_spec.
  - destruct (contents _ slot) as [[session|m]|] eqn:Hc; simplify_eq; exists owner; apply settle_inv; [done|by intros ? ? [[=]|[=]]| |done|by intros ? ? [[=]|[=]]|done].
    intros ? ? [= <- <-]. rewrite (ci_cells _ _ _ Hinv _ _ Hc). f_equal. by apply (ci_waits _ _ _ Hinv _ _ _ _ Hr); left.
  - destruct (sc_started self !! session) eqn:Hfresh; simplify_eq. exists owner. apply end_inv; [done..|by apply insert_subseteq|].
    intros ? [= <-]. apply lookup_insert_eq.
  - exists owner. by apply end_inv.
  - by apply get_slot_inv with owner.
Qed.

Lemma cache_reachable_inv maximum self : cache_reachable maximum self -> exists owner, cache_inv maximum owner self.
Proof. induction 1 as [|self r ev self' _ [owner Hinv] Hstep]; [eexists; apply cache_init_inv|by eapply cache_step_inv]. Qed.

(** C36: However requests, session starts, failures and cancellations
    interleave, the table never reserves more contexts than its maximum; a
    session is only ever handed to requests of one privacy context; and at most
    one session is being started for a context at a time. *)
Theorem cache_contexts maximum self :
  cache_reachable maximum self ->
  (size (sc_slots self) <= maximum)%nat /\
  (forall r r' key key' session, sc_requests self !! r = Some (Served key session) -> sc_requests self !! r' = Some (Served key' session) -> key = key') /\
  (forall r r' key slot slot', sc_requests self !! r = Some (Starting key slot) -> sc_requests self !! r' = Some (Starting key slot') -> r = r').
Proof.
  intros (owner & Hinv)%cache_reachable_inv. split; [apply (ci_bound _ _ _ Hinv)|]. split.
  - intros r r' key key' session Hr%(ci_served _ _ _ Hinv) Hr'%(ci_served _ _ _ Hinv). congruence.
  - intros r r' key slot slot' Hr Hr'. assert (slot = slot') as ->; [|by eapply (ci_one _ _ _ Hinv)].
    pose proof (ci_current _ _ _ Hinv _ _ _ _ Hr (or_intror eq_refl) (ci_unset _ _ _ Hinv _ _ _ Hr)).
    pose proof (ci_current _ _ _ Hinv _ _ _ _ Hr' (or_intror eq_refl) (ci_unset _ _ _ Hinv _ _ _ Hr')). congruence.
Qed.

(** Two requests of one context and one of another, and the first context's
    session started once. *)
Definition cache_run (maximum : nat) (evs : list (nat * CacheEvent)) : option SessionCache :=
  foldl (fun acc e => self ← acc; cache_step maximum self e.1 e.2) (Some cache_init) evs.

Lemma cache_run_reachable maximum evs self : cache_run maximum evs = Some self -> cache_reachable maximum self.
Proof.
  unfold cache_run. revert self. induction evs as [|[r ev] evs IH] using rev_ind; intros self; [intros [= <-]; constructor|].
  rewrite foldl_app. cbn [foldl fst snd]. intros (self0 & Hrun & Hstep)%bind_Some. econstructor; [by apply IH|exact Hstep].
Qed.

Definition toy_requests : list (nat * CacheEvent) :=
  [(0, Looks [1%Z] (fun _ => true)); (1, Looks [1%Z] (fun _ => true)); (2, Looks [2%Z] (fun _ => true)); (0, Begins); (2, Begins); (0, Ends (Ok 7)); (1, Finds)]%nat.

Lemma cache_contexts_witness :
  exists self, sc_requests self !! 0%nat = Some (Served [1] 7) /\ sc_requests self !! 1%nat = Some (Served [1] 7) /\ (size (sc_slots self) <= 2)%nat.
Proof.
  destruct (cache_run 2 toy_requests) as [self|] eqn:Hrun; [|by vm_compute in Hrun].
  exists self. destruct (cache_contexts 2 self (cache_run_reachable _ _ _ Hrun)) as (Hb & _ & _).
  vm_compute in Hrun. injection Hrun as <-. split; [|split]; [vm_compute; reflexivity..|exact Hb].
Defined.

(** No history uses up the contexts for good. Whatever failed, was
    cancelled or has ended, once no request is waiting and the sessions that
    were started are gone, any context is given a slot by the next request for
    it, which starts its session and is served it. *)
Theorem cache_serves maximum self r key session :
  (0 < maximum)%nat -> sc_requests self !! r = None -> sc_started self !! session = None ->
  (forall r' q key' slot, sc_requests self !! r' = Some q -> ~ waits_on q key' slot) ->
  exists c1 c2 c3,
    cache_step maximum self r (Looks key (fun _ => false)) = Some c1 /\ cache_step maximum c1 r Begins = Some c2 /\
    cache_step maximum c2 r (Ends (Ok session)) = Some c3 /\ sc_requests c3 !! r = Some (Served key session).
Proof.
  intros Hmax Hr Hsession Hidle.
  assert (Hnone : forall slot, shared (sc_requests self) slot = false).
  { intros slot. destruct (shared _ slot) eqn:Hs; [|done]. apply shared_spec in Hs as (r' & q & Hq & Hh).
    destruct q as [k s|k s| |]; cbn in Hh; try done; apply Nat.eqb_eq in Hh as ->; destruct (Hidle r' _ k slot Hq); [by left|by right]. }
  assert (Hempty : sc_slots (reclaim self (fun _ => false)) = ∅).
  { apply map_eq. intros k. rewrite lookup_empty. apply map_lookup_filter_None. right. intros slot _. unfold retain_slot. cbn.
    destruct (contents _ slot) as [[]|]; [done..|]. by rewrite Hnone. }
  assert (Hget : get_slot maximum self r key (fun _ => false) = set_request (reserve (reclaim self (fun _ => false)) key) r (Holding key (sc_next self))).
  { unfold get_slot. cbv zeta. rewrite Hempty, lookup_empty, map_size_empty. destruct (Nat.leb_spec maximum 0); [lia|done]. }
  set (c1 := set_request (reserve (reclaim self (fun _ => false)) key) r (Holding key (sc_next self))) in *.
  set (c2 := set_request c1 r (Starting key (sc_next self))).
  exists c1, c2. eexists. unfold cache_step. rewrite Hr, Hget. split; [done|]. subst c1. cbn [sc_requests set_request]. rewrite lookup_insert_eq.
  split.
  - cbn [sc_cells set_request reserve]. rewrite contents_insert, decide_True, bool_decide_true by done. cbn [andb].
    match goal with |- (if negb ?b then _ else _) = _ => destruct b eqn:Hb; [exfalso|done] end.
    apply existsb_exists in Hb as ([r' q] & Hin%list_elem_of_In%elem_of_map_to_list & Hst). cbn in Hst.
    apply lookup_insert_Some in Hin as [[-> <-]|[_ Hq]]; [done|]. destruct q as [| k s| |]; try done. apply (Hidle r' _ k s Hq). by right.
  - subst c2. cbn [sc_requests set_request sc_started reserve reclaim]. rewrite lookup_insert_eq, Hsession. split; [reflexivity|]. apply lookup_insert_eq.
Qed.

(** A context whose only request was cancelled while starting its session. *)
Definition toy_cancelled : list (nat * CacheEvent) := [(0, Looks [1%Z] (fun _ => true)); (0, Begins); (0, Cancelled)]%nat.
Definition toy_idle : SessionCache := Eval vm_compute in default cache_init (cache_run 1 toy_cancelled).

Lemma cache_serves_witness :
  cache_run 1 toy_cancelled = Some toy_idle /\
  exists c1 c2 c3,
    cache_step 1 toy_idle 5 (Looks [2] (fun _ => false)) = Some c1 /\ cache_step 1 c1 5 Begins = Some c2 /\
    cache_step 1 c2 5 (Ends (Ok 3%nat)) = Some c3 /\ sc_requests c3 !! 5%nat = Some (Served [2] 3%nat).
Proof.
  split; [vm_compute; reflexivity|]. apply (cache_serves 1 toy_idle 5 [2] 3).
  - lia.
  - vm_compute. reflexivity.
  - vm_compute. reflexivity.
  - intros r' q key' slot Hq%elem_of_map_to_list%list_elem_of_In. vm_compute in Hq.
    destruct Hq as [[= <- <-]|[]]. by intros [[=]|[=]].
Defined.
