(* ===== verification/Listener.v ===== *)
(** * The listener's connection limits (src/gateway/server.rs)

    The accept loop of [GatewayServer::run], its two ceilings and the tasks it
    spawns. A permit of the global ceiling is taken before a connection is
    accepted and lives as long as the task; the count of the client's address
    is raised by the loop and lowered by a guard the task makes when it first
    runs its work. The kill switch, the tasks and the loop interleave. *)
From S2P Require Import Prelude Net.

Definition normalize_ip_for_cap (ip : IpAddr) : IpAddr :=
  match ip with
  | V4 _ => ip
  | V6 v6 => V6 (mkIpv6 (seg0 v6) (seg1 v6) (seg2 v6) 0 0 0 0 0)
  end.

Definition DEFAULT_MAX_CONCURRENT_CONNECTIONS : nat := 32.
Definition MAX_CONCURRENT_PER_IP : Z := 8.

#[global] Instance IpAddr_countable : Countable IpAddr.
Proof.
  apply (inj_countable'
    (fun a => match a with V4 i => inl (v4_octets i) | V6 i => inr (v6_segments i) end)
    (fun l => match l with
              | inl l => V4 (mkIpv4 (l !!! 0%nat) (l !!! 1%nat) (l !!! 2%nat) (l !!! 3%nat))
              | inr l => V6 (mkIpv6 (l !!! 0%nat) (l !!! 1%nat) (l !!! 2%nat) (l !!! 3%nat) (l !!! 4%nat) (l !!! 5%nat) (l !!! 6%nat) (l !!! 7%nat))
              end)).
  by intros [[]|[]].
Defined.

Inductive ClientTask :=
| Spawned (key : IpAddr)      (* not polled yet *)
| Serving (key : IpAddr)      (* its work has made the guard *)
| Releasing (key : IpAddr).   (* the guard was dropped and spawned its update *)

Inductive AcceptPhase := AtHead | HasPermit.

Record Listening := mkListening {
  ls_permits : nat;
  ls_connections : gmap IpAddr Z;
  ls_tripped : bool;
  ls_phase : AcceptPhase;
  ls_tasks : gmap nat ClientTask;
}.

Definition listening : Listening := mkListening DEFAULT_MAX_CONCURRENT_CONNECTIONS ∅ false AtHead ∅.

(** The body of the loop once [accept] has returned, for a task named [t]. *)
Definition accept_client (self : Listening) (t : nat) (ip : IpAddr) : Listening :=
  let key := normalize_ip_for_cap ip in
  let count := default 0 (ls_connections self !! key) in
  if MAX_CONCURRENT_PER_IP <=? count
  then mkListening (S (ls_permits self)) (<[key := count]> (ls_connections self)) (ls_tripped self) AtHead (ls_tasks self)
  else mkListening (ls_permits self) (<[key := count + 1]> (ls_connections self)) (ls_tripped self) AtHead (<[t := Spawned key]> (ls_tasks self)).

(** What the update spawned by the guard's [drop] does to the table. *)
Definition release_count (connections : gmap IpAddr Z) (key : IpAddr) : gmap IpAddr Z :=
  match connections !! key with
  | Some n => if n <=? 1 then delete key connections else <[key := n - 1]> connections
  | None => connections
  end.

Inductive ListenEvent :=
| Proceeds                                  (* the loop's head, up to [accept] *)
| Accepts (t : nat) (ip : IpAddr)
| Polls (t : nat) (cancellation_first : bool)   (* the first poll of [select!], in either order *)
| Ends (t : nat)                            (* the work ended or was cancelled *)
| Updates (t : nat)
| Trips | Resets.

Definition listen_step (self : Listening) (ev : ListenEvent) : option Listening :=
  match ev with
  | Proceeds =>
      match ls_phase self, ls_permits self with
      | AtHead, S free => if ls_tripped self then None else Some (mkListening free (ls_connections self) (ls_tripped self) HasPermit (ls_tasks self))
      | _, _ => None
      end
  | Accepts t ip =>
      match ls_phase self, ls_tasks self !! t with
      | HasPermit, None => Some (accept_client self t ip)
      | _, _ => None
      end
  | Polls t cancellation_first =>
      match ls_tasks self !! t with
      | Some (Spawned key) =>
          if ls_tripped self && cancellation_first
          then Some (mkListening (S (ls_permits self)) (ls_connections self) (ls_tripped self) (ls_phase self) (delete t (ls_tasks self)))
          else Some (mkListening (ls_permits self) (ls_connections self) (ls_tripped self) (ls_phase self) (<[t := Serving key]> (ls_tasks self)))
      | _ => None
      end
  | Ends t =>
      match ls_tasks self !! t with
      | Some (Serving key) => Some (mkListening (S (ls_permits self)) (ls_connections self) (ls_tripped self) (ls_phase self) (<[t := Releasing key]> (ls_tasks self)))
      | _ => None
      end
  | Updates t =>
      match ls_tasks self !! t with
      | Some (Releasing key) => Some (mkListening (ls_permits self) (release_count (ls_connections self) key) (ls_tripped self) (ls_phase self) (delete t (ls_tasks self)))
      | _ => None
      end
  | Trips => Some (mkListening (ls_permits self) (ls_connections self) true (ls_phase self) (ls_tasks self))
  | Resets => Some (mkListening (ls_permits self) (ls_connections self) false (ls_phase self) (ls_tasks self))
  end.

Fixpoint listen_run (self : Listening) (evs : list ListenEvent) : option Listening :=
  match evs with
  | [] => Some self
  | ev :: evs => self ← listen_step self ev; listen_run self evs
  end.

(** ** Invariant *)
Definition task_key (t : ClientTask) : IpAddr := match t with Spawned key | Serving key | Releasing key => key end.
Definition of_key (key : IpAddr) (t : ClientTask) : bool := bool_decide (task_key t = key).
Definition is_open (t : ClientTask) : bool := match t with Releasing _ => false | _ => true end.

(** The connections an address has open. *)
Definition open_from (key : IpAddr) (t : ClientTask) : bool := is_open t && of_key key t.

Definition permit_held (p : AcceptPhase) : nat := match p with AtHead => 0 | HasPermit => 1 end.

(** [leaked] counts connections that ended without their update. *)
Record listen_inv (leaked : IpAddr -> Z) (self : Listening) : Prop := {
  li_permits : (ls_permits self + permit_held (ls_phase self) + count is_open (ls_tasks self) = DEFAULT_MAX_CONCURRENT_CONNECTIONS)%nat;
  li_counts : forall key, default 0 (ls_connections self !! key) = Z.of_nat (count (of_key key) (ls_tasks self)) + leaked key;
  li_leaked : forall key, 0 <= leaked key;
  li_range : forall key n, ls_connections self !! key = Some n -> 1 <= n <= MAX_CONCURRENT_PER_IP;
}.

Lemma listening_inv : listen_inv (fun _ => 0) listening.
Proof. split; cbn; try done; intros key; by rewrite lookup_empty. Qed.

(** A task that moves on within its connection. *)
Lemma move_task_inv leaked self t old new permits :
  listen_inv leaked self -> ls_tasks self !! t = Some old -> task_key new = task_key old ->
  (permits + Nat.b2n (is_open new) = ls_permits self + Nat.b2n (is_open old))%nat ->
  listen_inv leaked (mkListening permits (ls_connections self) (ls_tripped self) (ls_phase self) (<[t := new]> (ls_tasks self))).
Proof.
  intros [Hp Hc Hl Hr] Ht Hk Hperm. split; cbn; [| |done|done].
  - pose proof (count_insert is_open (ls_tasks self) t new) as Hci. rewrite Ht in Hci. cbn in Hci. lia.
  - intros key. rewrite Hc. pose proof (count_insert (of_key key) (ls_tasks self) t new) as Hci. rewrite Ht in Hci. cbn in Hci.
    unfold of_key in Hci at 2 4. rewrite Hk in Hci. lia.
Qed.

Lemma accept_inv leaked self t ip :
  listen_inv leaked self -> ls_phase self = HasPermit -> ls_tasks self !! t = None -> listen_inv leaked (accept_client self t ip).
Proof.
  intros [Hp Hc Hl Hr] Hph Ht. unfold accept_client. cbv zeta. set (key := normalize_ip_for_cap ip). rewrite Hph in Hp. cbn in Hp.
  destruct (Z.leb_spec MAX_CONCURRENT_PER_IP (default 0 (ls_connections self !! key))) as [Hfull|Hroom].
  - destruct (ls_connections self !! key) as [n|] eqn:Hn; cbn in Hfull; [|by unfold MAX_CONCURRENT_PER_IP in Hfull; lia].
    cbn. rewrite insert_id by done. split; cbn; [lia|done..].
  - split; cbn; [| |done|].
    + pose proof (count_insert is_open (ls_tasks self) t (Spawned key)) as Hci. rewrite Ht in Hci. cbn in Hci. lia.
    + intros key'. pose proof (count_insert (of_key key') (ls_tasks self) t (Spawned key)) as Hci. rewrite Ht in Hci. cbn in Hci.
      destruct (decide (key = key')) as [<-|Hne].
      * rewrite lookup_insert_eq. cbn. rewrite Hc. unfold of_key in Hci at 3. rewrite bool_decide_true in Hci by done. cbn in Hci. lia.
      * rewrite lookup_insert_ne, Hc by done. unfold of_key in Hci at 3. rewrite bool_decide_false in Hci by done. cbn in Hci. lia.
    + intros key' n [[<- <-]|[_ Hn]]%lookup_insert_Some; [|eauto]. specialize (Hl key). specialize (Hc key). lia.
Qed.

Lemma update_inv leaked self t key :
  listen_inv leaked self -> ls_tasks self !! t = Some (Releasing key) ->
  listen_inv leaked (mkListening (ls_permits self) (release_count (ls_connections self) key) (ls_tripped self) (ls_phase self) (delete t (ls_tasks self))).
Proof.
  intros [Hp Hc Hl Hr] Ht. pose proof (Hl key) as Hlk. pose proof (Hc key) as Hck.
  assert (Hmine : (count (of_key key) (delete t (ls_tasks self)) + 1 = count (of_key key) (ls_tasks self))%nat).
  { rewrite <- (count_delete (of_key key) (ls_tasks self) t), Ht. cbn. unfold of_key. cbn. by rewrite bool_decide_true. }
  assert (Hother : forall key', key' <> key -> count (of_key key') (delete t (ls_tasks self)) = count (of_key key') (ls_tasks self)).
  { intros key' Hne. rewrite <- (count_delete (of_key key') (ls_tasks self) t), Ht. cbn. unfold of_key at 3. cbn. rewrite bool_decide_false by done. cbn. lia. }
  destruct (ls_connections self !! key) as [n|] eqn:Hn; cbn in Hck; [|lia]. pose proof (Hr _ _ Hn).
  unfold release_count. rewrite Hn. split; cbn; [| |done|].
  - pose proof (count_delete is_open (ls_tasks self) t) as Hd. rewrite Ht in Hd. cbn in Hd. lia.
  - intros key'. destruct (decide (key' = key)) as [->|Hne].
    + destruct (Z.leb_spec n 1); [rewrite lookup_delete_eq|rewrite lookup_insert_eq]; cbn; lia.
    + rewrite Hother, <- Hc by done. destruct (Z.leb_spec n 1); [rewrite lookup_delete_ne|rewrite lookup_insert_ne]; done.
  - intros key' m. destruct (Z.leb_spec n 1); [intros [_ Hm]%lookup_delete_Some; eauto|].
    intros [[<- <-]|[_ Hm]]%lookup_insert_Some; [lia|eauto].
Qed.

(** The first poll runs the work, not the cancellation. *)
Definition work_first (ev : ListenEvent) : Prop := match ev with Polls _ cancellation_first => cancellation_first = false | _ => True end.

Lemma drop_unpolled_inv leaked self t key :
  listen_inv leaked self -> ls_tasks self !! t = Some (Spawned key) ->
  listen_inv (fun k => leaked k + Z.b2z (bool_decide (key = k)))
    (mkListening (S (ls_permits self)) (ls_connections self) (ls_tripped self) (ls_phase self) (delete t (ls_tasks self))).
Proof.
  intros [Hp Hc Hl Hr] Ht. split; cbn; [| | |done].
  - pose proof (count_delete is_open (ls_tasks self) t) as Hd. rewrite Ht in Hd. cbn in Hd. lia.
  - intros k. rewrite Hc. pose proof (count_delete (of_key k) (ls_tasks self) t) as Hd. rewrite Ht in Hd. cbn in Hd.
    unfold of_key in Hd at 2. cbn in Hd. case_bool_decide; cbn in *; lia.
  - intros k. specialize (Hl k). case_bool_decide; cbn; lia.
Qed.

Lemma listen_step_inv leaked self ev self' :
  listen_inv leaked self -> listen_step self ev = Some self' ->
  exists leaked', listen_inv leaked' self' /\ (work_first ev -> forall key, leaked' key = leaked key).
Proof.
  intros Hinv Hstep. destruct ev as [|t ip|t first|t|t| |]; cbn in Hstep.
  - destruct (ls_phase self) eqn:Hph; [|done]. destruct (ls_permits self) as [|free] eqn:Hf; [done|]. destruct (ls_tripped self); [done|]. injection Hstep as <-.
    exists leaked. split; [|done]. destruct Hinv as [Hp Hc Hl Hr]. split; cbn; [|done..]. rewrite Hph, Hf in Hp. cbn in Hp. lia.
  - destruct (ls_phase self) eqn:Hph; [done|]. destruct (ls_tasks self !! t) eqn:Ht; [done|]. injection Hstep as <-. exists leaked. split; [by apply accept_inv|done].
  - destruct (ls_tasks self !! t) as [[key|key|key]|] eqn:Ht; try done. destruct (ls_tripped self && first) eqn:Hb; injection Hstep as <-.
    + eexists. split; [by apply drop_unpolled_inv|]. intros ->. by rewrite andb_false_r in Hb.
    + exists leaked. split; [by eapply move_task_inv|done].
  - destruct (ls_tasks self !! t) as [[key|key|key]|] eqn:Ht; try done. injection Hstep as <-. exists leaked. split; [|done].
    eapply move_task_inv; [done..|]. cbn. lia.
  - destruct (ls_tasks self !! t) as [[key|key|key]|] eqn:Ht; try done. injection Hstep as <-. exists leaked. split; [by apply update_inv|done].
  - injection Hstep as <-. exists leaked. split; [by destruct Hinv|done].
  - injection Hstep as <-. exists leaked. split; [by destruct Hinv|done].
Qed.

Lemma listen_run_inv leaked self evs self' :
  listen_inv leaked self -> listen_run self evs = Some self' ->
  exists leaked', listen_inv leaked' self' /\ (Forall work_first evs -> forall key, leaked' key = leaked key).
Proof.
  revert leaked self. induction evs as [|ev evs IH]; intros leaked self Hinv; cbn; [intros [= <-]; by exists leaked|].
  intros (mid & Hstep & Hrun)%bind_Some. destruct (listen_step_inv _ _ _ _ Hinv Hstep) as (leaked1 & Hinv1 & H1).
  destruct (IH _ _ Hinv1 Hrun) as (leaked2 & Hinv2 & H2). exists leaked2. split; [done|].
  intros [Hev Hevs]%Forall_cons key. by rewrite H2, H1.
Qed.

Lemma count_le {V} (P Q : V -> bool) (tasks : gmap nat V) : (forall t, P t = true -> Q t = true) -> (count P tasks <= count Q tasks)%nat.
Proof.
  intros Himp. unfold count. apply map_subseteq_size, map_subseteq_spec. intros k t [Hk Ht]%map_lookup_filter_Some. apply map_lookup_filter_Some. eauto.
Qed.

(** C39: The ceilings hold in every state the gateway can reach: at most 32
    connections are open, at most 8 of them from one address (one /48 network
    for IPv6), and the permits that are not free are exactly those of the open
    connections and of a loop that waits in [accept]. *)
Theorem connections_bounded (evs : list ListenEvent) (self : Listening) (ip : IpAddr) :
  listen_run listening evs = Some self ->
  (ls_permits self + permit_held (ls_phase self) + count is_open (ls_tasks self) = 32)%nat /\
  Z.of_nat (count (open_from (normalize_ip_for_cap ip)) (ls_tasks self)) <= 8.
Proof.
  intros Hrun. destruct (listen_run_inv _ _ _ _ listening_inv Hrun) as (leaked & [Hp Hc Hl Hr] & _). split; [exact Hp|].
  set (key := normalize_ip_for_cap ip). specialize (Hc key). specialize (Hl key).
  assert (count (open_from key) (ls_tasks self) <= count (of_key key) (ls_tasks self))%nat by (apply count_le; by intros t [_ ?]%andb_true_iff).
  destruct (ls_connections self !! key) as [n|] eqn:Hn; cbn in Hc; [|lia]. specialize (Hr _ _ Hn). unfold MAX_CONCURRENT_PER_IP in Hr. lia.
Qed.

Definition toy_client (n : Z) : IpAddr := V6 (mkIpv6 8193 3512 7 n 0 0 0 n).

(** Two connections from one network, the first over. *)
Definition toy_listen : list ListenEvent :=
  [Proceeds; Accepts 0 (toy_client 1); Polls 0 false; Proceeds; Accepts 1 (toy_client 2); Polls 1 false; Ends 0; Updates 0; Proceeds].

Lemma connections_bounded_witness :
  exists self, listen_run listening toy_listen = Some self /\
    Z.of_nat (count (open_from (normalize_ip_for_cap (toy_client 9))) (ls_tasks self)) <= 8 /\ ls_permits self = 30%nat.
Proof.
  eexists. split; [vm_compute; reflexivity|]. split; [|vm_compute; reflexivity].
  apply (connections_bounded toy_listen). vm_compute. reflexivity.
Defined.

(** While no connection is cancelled before its first poll, the counts are
    exact: each is the number of connections of the address whose update is
    still to come, and when all of them are over the table is empty, so no
    address is refused for connections it no longer has. *)
Theorem connection_counts_exact (evs : list ListenEvent) (self : Listening) :
  listen_run listening evs = Some self -> Forall work_first evs ->
  (forall key, default 0 (ls_connections self !! key) = Z.of_nat (count (of_key key) (ls_tasks self))) /\
  (ls_tasks self = ∅ -> ls_connections self = ∅).
Proof.
  intros Hrun Hfirst. destruct (listen_run_inv _ _ _ _ listening_inv Hrun) as (leaked & [Hp Hc Hl Hr] & Hz). specialize (Hz Hfirst).
  assert (Hexact : forall key, default 0 (ls_connections self !! key) = Z.of_nat (count (of_key key) (ls_tasks self))) by (intros key; rewrite Hc, Hz; lia).
  split; [done|]. intros Hempty. apply map_empty. intros key. specialize (Hexact key). rewrite Hempty, count_none in Hexact by (intros ? ?; by rewrite lookup_empty).
  destruct (ls_connections self !! key) as [n|] eqn:Hn; [|done]. specialize (Hr _ _ Hn). cbn in Hexact. lia.
Qed.

Lemma connection_counts_exact_witness :
  exists self, listen_run listening (take 8 toy_listen ++ [Ends 1; Updates 1]) = Some self /\ ls_connections self = ∅.
Proof.
  eexists. split; [vm_compute; reflexivity|].
  apply (connection_counts_exact (take 8 toy_listen ++ [Ends 1; Updates 1])); [vm_compute; reflexivity| |vm_compute; reflexivity].
  vm_compute. repeat constructor.
Defined.

(** ** Connections cancelled before their first poll *)

(** The switch trips while the loop waits in [accept]; the next connection's
    task takes the cancellation branch at its first poll. *)
Definition tripped_while_waiting (ip : IpAddr) : list ListenEvent := [Proceeds; Trips; Accepts 0 ip; Polls 0 true; Resets].

Definition refuses (key : IpAddr) (self : Listening) : Prop := ls_connections self !! key = Some 8 /\ count (of_key key) (ls_tasks self) = 0%nat.

Lemma refuses_step key self ev self' : refuses key self -> listen_step self ev = Some self' -> refuses key self'.
Proof.
  intros [Hc Hn] Hstep.
  assert (Hother : forall t task, ls_tasks self !! t = Some task -> task_key task <> key).
  { intros t task Ht <-. pose proof (count_delete (of_key (task_key task)) (ls_tasks self) t) as Hd. rewrite Ht, Hn in Hd. cbn in Hd.
    unfold of_key in Hd at 2. rewrite bool_decide_true in Hd by done. cbn in Hd. lia. }
  assert (Hmove : forall t task, task_key task <> key -> count (of_key key) (<[t := task]> (ls_tasks self)) = 0%nat).
  { intros t task Hk. pose proof (count_insert (of_key key) (ls_tasks self) t task) as Hi. unfold of_key in Hi at 4. rewrite bool_decide_false in Hi by done. cbn in Hi. lia. }
  assert (Hdel : forall t, count (of_key key) (delete t (ls_tasks self)) = 0%nat) by (intros t; pose proof (count_delete (of_key key) (ls_tasks self) t); lia).
  destruct ev as [|t ip|t first|t|t| |]; cbn in Hstep.
  - destruct (ls_phase self), (ls_permits self), (ls_tripped self); by simplify_eq.
  - destruct (ls_phase self), (ls_tasks self !! t); simplify_eq. unfold accept_client. cbv zeta. set (k := normalize_ip_for_cap ip).
    destruct (decide (k = key)) as [->|Hne]; [rewrite Hc; cbn; split; cbn; [by rewrite insert_id|done]|].
    case_match; split; cbn; [by rewrite lookup_insert_ne|done|by rewrite lookup_insert_ne|by apply Hmove].
  - destruct (ls_tasks self !! t) as [[k|k|k]|] eqn:Ht; simplify_eq. destruct (_ && _); simplify_eq; split; cbn; [done..|]. apply Hmove. by apply (Hother t (Spawned k)).
  - destruct (ls_tasks self !! t) as [[k|k|k]|] eqn:Ht; simplify_eq. split; cbn; [done|]. apply Hmove. by apply (Hother t (Serving k)).
  - destruct (ls_tasks self !! t) as [[k|k|k]|] eqn:Ht; simplify_eq. split; cbn; [|done]. pose proof (Hother _ _ Ht) as Hk. cbn in Hk.
    unfold release_count. destruct (ls_connections self !! k); [|done]. case_match; [by rewrite lookup_delete_ne|by rewrite lookup_insert_ne].
  - by simplify_eq.
  - by simplify_eq.
Qed.

Lemma refuses_run key self evs self' : refuses key self -> listen_run self evs = Some self' -> refuses key self'.
Proof.
  revert self. induction evs as [|ev evs IH]; intros self Href; cbn; [by intros [= <-]|].
  intros (mid & Hstep & Hrun)%bind_Some. eapply IH; [|exact Hrun]. by eapply refuses_step.
Qed.

(** A connection that is cancelled before its task first runs its work is
    never taken off its address's count: the guard that would do it is made by
    the work. If the kill switch trips eight times while the loop waits in
    [accept], and each time the next connection, from one address, is cancelled
    at its first poll, then no connection is open and the switch is reset, yet
    whatever happens from then on no connection from that address is ever
    served again. *)
Theorem cancelled_connections_leak (ip : IpAddr) :
  exists self, listen_run listening (concat (replicate 8 (tripped_while_waiting ip))) = Some self /\
    ls_tasks self = ∅ /\ ls_tripped self = false /\ ls_permits self = 32%nat /\
    forall evs self', listen_run self evs = Some self' -> count (of_key (normalize_ip_for_cap ip)) (ls_tasks self') = 0%nat.
Proof.
  set (key := normalize_ip_for_cap ip).
  assert (Hround : forall n, (n < 8)%nat -> forall rest,
    listen_run (mkListening 32 (if (n =? 0)%nat then ∅ else {[key := Z.of_nat n]}) false AtHead ∅) (tripped_while_waiting ip ++ rest) =
    listen_run (mkListening 32 {[key := Z.of_nat (S n)]} false AtHead ∅) rest).
  { intros n Hn rest. cbn. unfold accept_client. fold key. cbv zeta. rewrite lookup_empty. cbn [mbind option_bind ls_tasks ls_connections].
    destruct (Nat.eqb_spec n 0) as [->|Hne].
    - rewrite lookup_empty. cbn. rewrite lookup_insert_eq. cbn. by rewrite delete_insert_eq.
    - rewrite lookup_singleton_eq. cbn [default from_option id]. destruct (Z.leb_spec MAX_CONCURRENT_PER_IP (Z.of_nat n)); [unfold MAX_CONCURRENT_PER_IP in *; lia|].
      cbn. rewrite lookup_insert_eq. cbn. rewrite delete_insert_eq, insert_singleton_eq. cbn. do 5 f_equal. lia. }
  exists (mkListening 32 {[key := 8]} false AtHead ∅). split.
  - cbn [replicate concat].
    change listening with (mkListening 32 (if (0 =? 0)%nat then ∅ else {[key := Z.of_nat 0]}) false AtHead ∅).
    rewrite Hround by lia. rewrite (Hround 1%nat), (Hround 2%nat), (Hround 3%nat), (Hround 4%nat), (Hround 5%nat), (Hround 6%nat), (Hround 7%nat) by lia. done.
  - split_and!; [done..|]. intros evs self' Hrun. assert (Href : refuses key (mkListening 32 {[key := 8]} false AtHead ∅)) by (split; [apply lookup_singleton_eq|done]).
    apply (refuses_run _ _ _ _ Href Hrun).
Qed.
