(* ===== verification/Gateway.v ===== *)
(** * The gateway's handling of a client (src/gateway/server.rs, src/core/config.rs)

    What one accepted connection makes the gateway do: in relay mode an open
    SOCKS5 request, in client mode the choice of relays and the padded session,
    the onion circuit or the chain of proxies that carries the request. A
    handler returns the client's socket, the relay pool and the list of what it
    did; the network, the clock and the random draws are a record of answers. *)
From S2P Require Import Prelude Text Net Identity Handshake Circuit Storage Consensus Transport ExitPolicy Guard Link Session Node Pool Telescope Socks Tracker Bridge Directory.

(** ** Configuration *)
Record GuardConfig := mkGuardConfig {
  gc_bridge_transports : list BridgeTransport;
  gc_private_bridges : bool;
  gc_unlisted_bridge : bool;
  gc_strict_killswitch : bool;
  gc_disable_ipv6 : bool;
  gc_enable_jitter : bool;
  gc_enable_chaos : bool;
  gc_enable_rmt_morphing : bool;
  gc_enable_chaffing : bool;
  gc_min_chain_length : nat;
  gc_max_chain_length : nat;
  gc_relay_mode : bool;
  gc_allow_open_socks5 : bool;
  gc_allow_private_exit : bool;
  gc_is_exit : bool;
  gc_tracker_url : option bytes;
  gc_tracker_identity_pin : option bytes;
  gc_padded_sessions : bool;
  gc_link_cover_profile : CoverProfile;
  gc_privacy_profile : bytes;
  gc_enable_onion_routing : bool;
  gc_enforce_subnet_diversity : bool;
  gc_directory_authorities : list bytes;
  gc_authority_endpoints : list AuthorityEndpoint;
  gc_listen_addr : bytes;
  gc_relay_advertise_address : option SocketAddr;
}.

Definition advertised_relay_address (self : GuardConfig) (bound : SocketAddr) : result string SocketAddr :=
  match gc_relay_advertise_address self with
  | None => Ok bound
  | Some address =>
      if negb (gc_relay_mode self) || gc_unlisted_bridge self || (sa_port address =? 0)
         || is_unspecified (sa_ip address) || is_loopback (sa_ip address) || is_multicast (sa_ip address)
      then Err "Advertised address requires a listed relay and a reachable non-loopback endpoint"%string
      else Ok address
  end.

(** ** Acts *)
Inductive Dial := ToNode (host : bytes) (port : Z) | ToText (address : bytes) | ToProxy (address : SocketAddr) | ToExit (ip : IpAddr).

Inductive Act := Dialled (d : Dial) | UsedSession (key : bytes) | Forwarded | Tripped (reason : string) | ServedRelay.

Record Handled := mkHandled { ha_client : Conn; ha_pool : ProxyPool; ha_acts : list Act }.

(** Where a padded session comes from: another request's, a new one, none. *)
Inductive Lease := Existing | Starts | NoLease.

Record GatewayEnv := mkGatewayEnv {
  ge_now_secs : Z;
  ge_now : Z;
  ge_outcome : WriteOutcome;                       (* of the guard file *)
  ge_connect : bytes -> Z -> option Conn;          (* a host and a port *)
  ge_connect_text : bytes -> option Conn;          (* an address in text *)
  ge_network : SocketAddr -> result Fault Conn;
  ge_server : Conn -> TlsServer;                   (* who answers on a socket *)
  ge_challenge : bytes;
  ge_phase : Z;
  ge_abandoned : bool;                             (* the time ran out during the link handshake *)
  ge_cells : TlsStream -> Conn;                    (* the covered stream of a link *)
  ge_circuit_id : Z;
  ge_draws : nat -> HopDraw;
  ge_rng : bytes;
  ge_lease : bytes -> Lease;
  ge_open : bytes -> Z -> bool;                    (* a stream of the session is accepted *)
  ge_dns : option (option (list IpAddr));
  ge_exit : IpAddr -> Attempt;
  ge_os_denied : bool;                             (* the kind of an error of the system *)
}.

Definition respond (rep : Z) (client : Conn) : Conn := (send_socks5_reply rep client).1.

(** [str::trim_start_matches] with a text; the fuel is the length. *)
Fixpoint trim_text (fuel : nat) (prefix l : bytes) : bytes :=
  match fuel with
  | O => l
  | S fuel => if starts_with l prefix then trim_text fuel prefix (drop (length prefix) l) else l
  end.
Definition trim_http (l : bytes) : bytes := trim_text (length l) (str "http://") l.

Section Gateway.
Context `{OnionPrimitives} `{IdentityPrimitives} `{KexPrimitives} `{LinkPrimitives} `{HashOrder} `{Rng}.
Context (write_guards : GuardState -> bytes) (unicode_lowercase : bytes -> bytes) (url_parse : bytes -> option Url).
Context (config : GuardConfig) (env : GatewayEnv).

(** ** Relay mode: open SOCKS5 *)
Definition permission_denied (e : ConnectError) : bool :=
  match e with PolicyDenied | ResolvedIpDenied _ => true | DnsFailed | ConnectFailed _ => ge_os_denied env | _ => false end.

Definition handle_relay_socks (pool : ProxyPool) (client : Conn) : Handled :=
  if negb (gc_allow_open_socks5 config) then mkHandled client pool []
  else
    match read_socks5_request client with
    | (client, Err _) => mkHandled client pool []
    | (client, Ok (host, port)) =>
        let '(tried, r) := resolve_and_connect unicode_lowercase (ExitPolicy_new (gc_allow_private_exit config)) host port (ge_dns env) (ge_exit env) in
        let dialled := (fun ip => Dialled (ToExit ip)) <$> tried in
        match r with
        | Ok _ => mkHandled (respond 0 client) pool (dialled ++ [Forwarded])
        | Err e => mkHandled (respond (if permission_denied e then 2 else 4) client) pool dialled
        end
    end.

(** ** The entry of a circuit *)
Definition entry_pins : list bytes := bt_identity <$> gc_bridge_transports config.

(** [min_chain_length.max(3)] *)
Definition min_hops : nat := gc_min_chain_length config `max` 3.
Definition max_hops : nat := gc_max_chain_length config `max` 3.

Definition choose_chain (pool : ProxyPool) : ProxyPool * list ProxyNode :=
  if gc_private_bridges config then
    get_private_bridge_chain_with_bounds write_guards unicode_lowercase url_parse pool (ge_now_secs env) (ge_now env) (ge_outcome env)
      (gc_bridge_transports config) (gc_enforce_subnet_diversity config) min_hops max_hops
  else if gc_enable_onion_routing config || gc_enforce_subnet_diversity config then
    get_onion_chain_with_entry_pins write_guards pool (ge_now_secs env) (ge_now env) (ge_outcome env) min_hops max_hops
      (gc_enforce_subnet_diversity config) true entry_pins
  else (pool, get_random_chain pool (ge_now_secs env) (gc_min_chain_length config) (gc_max_chain_length config)).

(** The pins of the hops; the entry's is the binding's where bridges are private. *)
Definition entry_keys (pool : ProxyPool) (chain : list ProxyNode) (entry : ProxyNode) : option (list bytes) :=
  let keys := get_identity_keys pool (ge_now_secs env) chain in
  if gc_private_bridges config then
    binding ← List.find (fun b => bool_decide (display_ip (sa_ip (bt_bridge b)) = pn_host entry) && (sa_port (bt_bridge b) =? pn_port entry))
                (gc_bridge_transports config);
    Some (<[0%nat := bt_identity binding]> keys)
  else Some keys.

Definition open_entry (entry : ProxyNode) (pin : bytes) : list Act * option Conn :=
  if bool_decide (gc_bridge_transports config = []) then ([Dialled (ToNode (pn_host entry) (pn_port entry))], ge_connect env (pn_host entry) (pn_port entry))
  else
    match List.find (fun b => bool_decide (bt_identity b = pin)) (gc_bridge_transports config) with
    | None => ([], None)
    | Some b =>
        let '(dialled, r) := transport_connect (ge_network env) (bt_proxy b) (bt_bridge b) (bt_arguments b) in
        ((fun a => Dialled (ToProxy a)) <$> dialled, match r with Ok c => Some c | Err _ => None end)
    end.

Definition open_link (pin : bytes) (stream : Conn) : result Fault Conn :=
  match connect_guarded_with_profile pin (gc_link_cover_profile config) (ge_challenge env) (ge_server env stream) (ge_phase env) (ge_now env) with
  | Ok (tls, _, _) => Ok (ge_cells env tls)
  | Err e => Err e
  end.

(** Up to the link: the pool, what was dialled, and the link with the pins. *)
Definition connect_entry (pool : ProxyPool) (chain : list ProxyNode) : ProxyPool * list Act * option (Conn * list bytes) :=
  match chain with
  | [] => (pool, [], None)
  | entry :: _ =>
      if starts_with (pn_raw_url entry) (str "reverse://") then (pool, [], None)
      else
        match entry_keys pool chain entry with
        | None => (pool, [], None)
        | Some keys =>
            let pin := keys !!! 0%nat in
            match open_entry entry pin with
            | (acts, None) => (note_guard_link_failure pool (ge_now env) pin, acts, None)
            | (acts, Some stream) =>
                if ge_abandoned env then (pool, acts, None)
                else
                  match open_link pin stream with
                  | Ok link => (pool, acts, Some (link, keys))
                  | Err _ => (note_guard_link_failure pool (ge_now env) pin, acts, None)
                  end
            end
        end
  end.

Definition draw_circuit_id (id : Z) : Z := if (Z.shiftr id 24 =? 5) || (Z.shiftr id 24 =? 0) then Z.lxor id 268435456 else id.
Definition draw_session_id (id : Z) : Z := if (id =? 0) || (Z.shiftr id 24 =? 5) then Z.lxor id 268435456 else id.

(** ** Onion circuits *)
Definition onion_upstream (pool : ProxyPool) (chain : list ProxyNode) (host : bytes) (port : Z) : ProxyPool * list Act * option (Conn * OnionCircuit) :=
  match connect_entry pool chain with
  | (pool, acts, None) => (pool, acts, None)
  | (pool, acts, Some (link, keys)) =>
      match build_telescopic_circuit (draw_circuit_id (ge_circuit_id env)) chain keys (ge_draws env) (ge_rng env) host port link with
      | (link, Ok circuit) => (pool, acts, Some (link, circuit))
      | (_, Err _) => (pool, acts, None)
      end
  end.

Definition trip_if_strict (reason : string) : list Act := if gc_strict_killswitch config then [Tripped reason] else [].

Definition handle_onion (pool : ProxyPool) (client : Conn) (chain : list ProxyNode) (host : bytes) (port : Z) : Handled :=
  match onion_upstream pool chain host port with
  | (pool, acts, Some _) =>
      match send_socks5_reply 0 client with
      | (client, Ok _) => mkHandled client pool (acts ++ [Forwarded])
      | (client, Err _) => mkHandled client pool acts
      end
  | (pool, acts, None) => mkHandled (respond 5 client) pool (acts ++ trip_if_strict "Onion circuit negotiation failure")
  end.

(** ** Padded sessions *)
Definition session_chain (pool : ProxyPool) : ProxyPool * list ProxyNode :=
  if gc_private_bridges config then
    get_private_bridge_chain_with_bounds write_guards unicode_lowercase url_parse pool (ge_now_secs env) (ge_now env) (ge_outcome env)
      (gc_bridge_transports config) (gc_enforce_subnet_diversity config) min_hops max_hops
  else
    get_onion_chain_with_entry_pins write_guards pool (ge_now_secs env) (ge_now env) (ge_outcome env) min_hops max_hops
      (gc_enforce_subnet_diversity config) true entry_pins.

Definition establish_session (pool : ProxyPool) (profile : Profile) : ProxyPool * list Act * option (Conn * OnionCircuit) :=
  let '(pool, chain) := session_chain pool in
  match connect_entry pool chain with
  | (pool, acts, None) => (pool, acts, None)
  | (pool, acts, Some (link, keys)) =>
      let negotiate := let* circuit := negotiate_telescopic_hops (draw_session_id (ge_circuit_id env)) chain keys (ge_draws env) in
                       negotiate_padded_session profile (ge_rng env) circuit in
      match negotiate link with
      | (link, Ok circuit) => (pool, acts, Some (link, circuit))
      | (_, Err _) => (pool, acts, None)
      end
  end.

(** The session of a privacy context, from the cache or newly started. *)
Definition lease_session (pool : ProxyPool) (key : bytes) : ProxyPool * list Act * bool :=
  match ge_lease env key with
  | Existing => (pool, [UsedSession key], true)
  | NoLease => (pool, [], false)
  | Starts =>
      match Profile_parse (gc_privacy_profile config) with
      | Err _ => (pool, [], false)
      | Ok profile =>
          match establish_session pool profile with
          | (pool, acts, Some _) => (pool, acts ++ [UsedSession key], true)
          | (pool, acts, None) => (pool, acts, false)
          end
      end
  end.

Definition handle_padded (pool : ProxyPool) (client : Conn) (host : bytes) (port : Z) (context : option bytes) : Handled :=
  if gc_disable_ipv6 config && bool_decide (is_Some (parse_ipv6 host)) then mkHandled (respond 1 client) pool []
  else
    match lease_session pool (default (replicate 32 0) context) with
    | (pool, acts, false) => mkHandled (respond 1 client) pool acts
    | (pool, acts, true) =>
        if negb (ge_open env host port) then mkHandled (respond 1 client) pool acts
        else
          match send_socks5_reply 0 client with
          | (client, Ok _) => mkHandled client pool (acts ++ [Forwarded])
          | (client, Err _) => mkHandled (respond 1 client) pool acts
          end
    end.

(** ** Chains of proxies *)
Definition reverse_tunnel (url node_id auth_token : bytes) : list Act * option Conn :=
  match gc_tracker_identity_pin config with
  | None => ([], None)
  | Some pin =>
      ([Dialled (ToText url)],
       tcp ← ge_connect_text env url;
       match connect_tracker pin (ge_challenge env) (ge_server env tcp) with
       | Err _ => None
       | Ok tls =>
           let request := let* _ := write_control (str "CONNECT_REVERSE " ++ node_id ++ [32] ++ auth_token) in
                          let* answer := read_control in
                          ensure (bool_decide (answer = str "OK")) (mkIoError PermissionDenied "Tracker refused reverse capability") in
           match request (tls_conn tls) with (c, Ok _) => Some c | (_, Err _) => None end
       end)
  end.

(** The stream to the first proxy, or the reply with whether the proxy is
    marked as blocked and whether a strict gateway trips. *)
Inductive FirstHop := Reached (stream : Conn) | GaveUp (rep : Z) (blocked trips : bool).

Definition node_text (node : ProxyNode) : bytes :=
  if bool_decide (58 ∈ pn_host node) then [91] ++ pn_host node ++ [93; 58] ++ display_dec (pn_port node)
  else pn_host node ++ [58] ++ display_dec (pn_port node).

Definition open_first (node : ProxyNode) : list Act * FirstHop :=
  if starts_with (pn_raw_url node) (str "reverse://") then
    match gc_tracker_url config with
    | None => ([], GaveUp 1 false false)
    | Some url =>
        match reverse_tunnel (trim_http url) (pn_host node) (default [] (pn_username node)) with
        | (acts, Some stream) => (acts, Reached stream)
        | (acts, None) => (acts, GaveUp 4 true false)
        end
    end
  else
    ([Dialled (ToText (node_text node))],
     match ge_connect_text env (node_text node) with Some stream => Reached stream | None => GaveUp 4 true true end).

(** Each proxy is asked for the next one and the last for the target. *)
Fixpoint tunnel_hops (chain : list ProxyNode) (host : bytes) (port : Z) (stream : Conn) : Conn * result ProxyNode unit :=
  match chain with
  | [] => (stream, Ok tt)
  | node :: rest =>
      let next := match rest with [] => (host, port) | n :: _ => (pn_host n, pn_port n) end in
      match socks5_connect_through next.1 next.2 (gc_disable_ipv6 config) stream with
      | (stream, Ok _) => tunnel_hops rest host port stream
      | (stream, Err _) => (stream, Err node)
      end
  end.

Definition handle_plain (pool : ProxyPool) (client : Conn) (chain : list ProxyNode) (host : bytes) (port : Z) : Handled :=
  match chain with
  | [] => mkHandled (respond 5 client) pool []
  | first :: _ =>
      match open_first first with
      | (acts, GaveUp rep blocked trips) =>
          mkHandled (respond rep client) (if blocked then (rotate_on_block pool (ge_now_secs env) (pn_raw_url first)).1 else pool)
            (acts ++ if trips then trip_if_strict "Entry node connection failure" else [])
      | (acts, Reached stream) =>
          match tunnel_hops chain host port stream with
          | (_, Err node) =>
              mkHandled (respond 5 client) (rotate_on_block pool (ge_now_secs env) (pn_raw_url node)).1
                (acts ++ trip_if_strict "Tunnel negotiation failure")
          | (_, Ok _) => mkHandled (respond 0 client) pool (acts ++ [Forwarded])
          end
      end
  end.

(** ** A connection *)
Definition handle_client (pool : ProxyPool) (client : Conn) : Handled :=
  match read_socks5_request_context (gc_padded_sessions config) client with
  | (client, Err _) => mkHandled client pool []
  | (client, Ok (host, port, context)) =>
      if gc_padded_sessions config then handle_padded pool client host port context
      else
        let '(pool, chain) := choose_chain pool in
        if bool_decide (chain = []) then mkHandled (respond 1 client) pool []
        else if gc_enable_onion_routing config then handle_onion pool client chain host port
        else handle_plain pool client chain host port
  end.

(** The task's work once it runs; [peeked] is whether the first byte came. *)
Definition handle_connection (tripped peeked : bool) (pool : ProxyPool) (client : Conn) : Handled :=
  if tripped || negb peeked then mkHandled client pool []
  else if gc_relay_mode config then
    if bool_decide (head (cn_in client) = Some 5) then handle_relay_socks pool client else mkHandled client pool [ServedRelay]
  else handle_client pool client.
End Gateway.




Section Carrying.
Context `{OnionPrimitives} `{IdentityPrimitives} `{KexPrimitives} `{LinkPrimitives} `{HashOrder} `{Rng}.
Context (write_guards : GuardState -> bytes) (unicode_lowercase : bytes -> bytes) (url_parse : bytes -> option Url).
Context (config : GuardConfig) (env : GatewayEnv).













(** How a circuit's entry may be reached. *)
Definition entry_dial (entry : ProxyNode) (pin : bytes) (d : Dial) : Prop :=
  (gc_bridge_transports config = [] /\ d = ToNode (pn_host entry) (pn_port entry)) \/
  (exists b, b ∈ gc_bridge_transports config /\ bt_identity b = pin /\ d = ToProxy (bt_proxy b) /\ is_loopback (sa_ip (bt_proxy b)) = true).

Lemma open_entry_dials entry pin : Forall (fun a => exists d, a = Dialled d /\ entry_dial entry pin d) (open_entry config env entry pin).1.
Proof.
  unfold open_entry. case_bool_decide as Hb; [constructor; [|constructor]; eexists; split; [done|by left]|].
  destruct (List.find _ _) as [b|] eqn:Hf; [|constructor]. apply find_elem in Hf as [Hin Hid%bool_decide_eq_true].
  pose proof (transport_connect_loopback (ge_network env) (bt_proxy b) (bt_bridge b) (bt_arguments b)) as Hl.
  destruct (transport_connect _ _ _ _) as [dialled r]. cbn [fst] in *. apply Forall_fmap, Forall_forall. intros a Ha. destruct (Hl a Ha) as [-> ?].
  eexists. split; [done|]. right. by exists b.
Qed.

Definition entry_acts (pool : ProxyPool) (chain : list ProxyNode) (acts : list Act) : Prop :=
  Forall (fun a => exists entry rest keys d, chain = entry :: rest /\ entry_keys config env pool chain entry = Some keys /\
            a = Dialled d /\ entry_dial entry (keys !!! 0%nat) d) acts.

Lemma connect_entry_dials pool chain : entry_acts pool chain (connect_entry config env pool chain).1.2.
Proof.
  unfold connect_entry, entry_acts. destruct chain as [|entry rest]; [constructor|]. destruct (starts_with _ _); [constructor|].
  destruct (entry_keys _ _ _ _ _) as [keys|] eqn:Hk; [|constructor]. pose proof (open_entry_dials entry (keys !!! 0%nat)) as Hd.
  assert (Hall : Forall (fun a => exists entry' rest' keys' d, entry :: rest = entry' :: rest' /\ entry_keys config env pool (entry :: rest) entry' = Some keys' /\
            a = Dialled d /\ entry_dial entry' (keys' !!! 0%nat) d) (open_entry config env entry (keys !!! 0%nat)).1).
  { eapply Forall_impl; [exact Hd|]. intros a (d & -> & He). by exists entry, rest, keys, d. }
  clear Hd. destruct (open_entry config env entry (keys !!! 0%nat)) as [acts [stream|]]; [|exact Hall]. destruct (ge_abandoned env); [exact Hall|].
  by destruct (open_link _ _ _ _).
Qed.









End Carrying.

(** ** Whom the gateway dials *)
Section Dialling.
Context `{OnionPrimitives} `{IdentityPrimitives} `{KexPrimitives} `{LinkPrimitives}.
Context {HO : HashOrder} {HOL : @HashOrderLaws HO} {R : Rng} {RL : @RngLaws R}.
Context (write_guards : GuardState -> bytes) (unicode_lowercase : bytes -> bytes) (url_parse : bytes -> option Url).
Context (config : GuardConfig) (env : GatewayEnv).

(** A dial that reaches a guard of the pool, under the guard's pin. *)
Definition guard_dial (pool : ProxyPool) (a : Act) : Prop :=
  match a with
  | Dialled d => exists g, entry_guard pool (entry_pins config) g /\ entry_dial config g (default ZERO_PIN (node_pin pool g)) d
  | _ => True
  end.

(** The parts of a pool these depend on. *)
Definition same_guards (pool pool' : ProxyPool) : Prop :=
  pl_guard_state pool' = pl_guard_state pool /\ pl_identity_keys pool' = pl_identity_keys pool.

Lemma guard_dial_same pool pool' acts : same_guards pool pool' -> Forall (guard_dial pool) acts -> Forall (guard_dial pool') acts.
Proof.
  intros [Hg Hi] Hall. eapply Forall_impl; [exact Hall|]. intros [d| | | |]; try done. unfold guard_dial, entry_guard, node_pin. by rewrite Hg, Hi.
Qed.

Lemma connect_entry_same pool chain : same_guards pool (connect_entry config env pool chain).1.1.
Proof.
  unfold connect_entry. destruct chain as [|entry rest]; [done|]. destruct (starts_with _ _); [done|]. destruct (entry_keys _ _ _ _ _); [|done].
  destruct (open_entry _ _ _ _) as [acts [stream|]]; [|done]. destruct (ge_abandoned env); [done|]. by destruct (open_link _ _ _ _).
Qed.

(** What is dialled for a circuit, and the guards afterwards. *)
Definition guarded_acts (before after : ProxyPool) (acts : list Act) : Prop :=
  Forall (guard_dial after) acts /\ (gs_guards (pl_guard_state before) <> [] -> pl_guard_state after = pl_guard_state before).

Lemma connect_chosen pool pool' chain :
  gc_private_bridges config = false -> keyed (pl_nodes pool) ->
  get_onion_chain_with_entry_pins write_guards pool (ge_now_secs env) (ge_now env) (ge_outcome env) (min_hops config) (max_hops config)
    (gc_enforce_subnet_diversity config) true (entry_pins config) = (pool', chain) ->
  guarded_acts pool (connect_entry config env pool' chain).1.1 (connect_entry config env pool' chain).1.2.
Proof.
  intros Hpriv Hkeyed Hget. pose proof (onion_chain_inv _ _ _ _ _ _ _ _ _ _ _ _ Hget) as (Hsame & Hkept & _). pose proof (connect_entry_same pool' chain) as Hs.
  split; [|intros Hne; rewrite (proj1 Hs); by rewrite (Hkept Hne)]. eapply guard_dial_same; [exact Hs|].
  eapply Forall_impl; [apply connect_entry_dials|]. intros a (entry & rest & keys & d & Hch & Hkeys & -> & Hd).
  assert (Hne : chain <> []) by (by rewrite Hch).
  destruct (onion_chain_facts _ _ _ _ _ _ _ _ _ _ _ _ Hkeyed Hget Hne) as (Hexp & [Hmin _] & _ & _ & _ & _ & _ & Hguard).
  destruct Hguard as (g & rest' & E & Hg); [right; unfold min_hops in Hmin; lia|]. rewrite Hch in E. injection E as <- <-.
  exists entry. split; [done|]. unfold entry_keys in Hkeys. rewrite Hpriv in Hkeys. injection Hkeys as <-.
  assert (Hexp' : directory_expired pool' (ge_now_secs env) = false) by (rewrite Hsame; exact Hexp).
  unfold get_identity_keys in Hd. rewrite Hexp', Hch in Hd. exact Hd.
Qed.

Lemma guarded_more before after acts l : guarded_acts before after acts -> Forall (guard_dial after) l -> guarded_acts before after (acts ++ l).
Proof. intros [Ha Hk] Hl. split; [by apply Forall_app|done]. Qed.

Lemma guarded_none pool : guarded_acts pool pool [].
Proof. split; [constructor|done]. Qed.

Lemma lease_guarded pool key :
  gc_private_bridges config = false -> keyed (pl_nodes pool) ->
  let '(pool', acts, _) := lease_session write_guards unicode_lowercase url_parse config env pool key in guarded_acts pool pool' acts.
Proof.
  intros Hpriv Hkeyed. unfold lease_session. destruct (ge_lease env key); [by apply (guarded_more _ _ []), Forall_singleton; [apply guarded_none|]| |apply guarded_none].
  destruct (Profile_parse _) as [profile|]; [|apply guarded_none]. unfold establish_session, session_chain. rewrite Hpriv.
  destruct (get_onion_chain_with_entry_pins _ _ _ _ _ _ _ _ _ _) as [p chain] eqn:Hget. pose proof (connect_chosen _ _ _ Hpriv Hkeyed Hget) as Hc.
  destruct (connect_entry _ _ _ _) as [[p' acts] [[link keys]|]]; [|exact Hc]. destruct (bind _ _ _) as [c []]; [|exact Hc].
  by apply guarded_more; [exact Hc|repeat constructor].
Qed.

Lemma dials_guard (pool : ProxyPool) (client : Conn) :
  gc_private_bridges config = false -> gc_padded_sessions config || gc_enable_onion_routing config = true -> keyed (pl_nodes pool) ->
  let h := handle_client write_guards unicode_lowercase url_parse config env pool client in
  Forall (guard_dial (ha_pool h)) (ha_acts h) /\
  (gs_guards (pl_guard_state pool) <> [] -> pl_guard_state (ha_pool h) = pl_guard_state pool).
Proof.
  intros Hpriv Hmode Hkeyed h. change (guarded_acts pool (ha_pool h) (ha_acts h)). subst h. unfold handle_client.
  destruct (read_socks5_request_context _ client) as [c [[[host port] context]|]]; [|apply guarded_none].
  destruct (gc_padded_sessions config).
  - unfold handle_padded. destruct (_ && _); [apply guarded_none|]. pose proof (lease_guarded pool (default (replicate 32 0) context) Hpriv Hkeyed) as Hp.
    destruct (lease_session _ _ _ _ _ _ _) as [[p' acts] [|]]; [|exact Hp]. destruct (negb _); [exact Hp|].
    destruct (send_socks5_reply 0 c) as [c' []]; [|exact Hp]. by apply guarded_more; [exact Hp|repeat constructor].
  - cbn [orb] in Hmode. unfold choose_chain. rewrite Hpriv, Hmode. cbn [orb].
    destruct (get_onion_chain_with_entry_pins _ _ _ _ _ _ _ _ _ _) as [p chain] eqn:Hget. pose proof (connect_chosen _ _ _ Hpriv Hkeyed Hget) as Hc.
    case_bool_decide as Hempty; [rewrite Hempty in Hc; exact Hc|]. unfold handle_onion, onion_upstream.
    destruct (connect_entry _ _ _ _) as [[p' acts] o]; cbn [fst snd] in *.
    assert (Htrip : forall reason, Forall (guard_dial p') (trip_if_strict config reason)) by (intros; unfold trip_if_strict; case_match; by repeat constructor).
    destruct o as [[link keys]|]; [|by apply guarded_more]. destruct (build_telescopic_circuit _ _ _ _ _ _ _ _) as [l' [circuit|]]; [|by apply guarded_more].
    destruct (send_socks5_reply 0 c) as [c' []]; [|exact Hc]. by apply guarded_more; [exact Hc|repeat constructor].
Qed.
End Dialling.

Section Fallback.
Context `{OnionPrimitives} `{IdentityPrimitives} `{KexPrimitives} `{LinkPrimitives} `{HashOrder} `{Rng}.
Context (write_guards : GuardState -> bytes) (unicode_lowercase : bytes -> bytes) (url_parse : bytes -> option Url).
Context (config : GuardConfig) (env : GatewayEnv).

(** A dial to the loopback proxy of a configured transport. *)
Definition proxied (a : Act) : Prop :=
  match a with
  | Dialled d => exists b, b ∈ gc_bridge_transports config /\ d = ToProxy (bt_proxy b) /\ is_loopback (sa_ip (bt_proxy b)) = true
  | _ => True
  end.

(** There are transports, or only a bridge's binding gives an entry its pin. *)
Definition only_transports : Prop := gc_private_bridges config = true \/ gc_bridge_transports config <> [].

Lemma connect_entry_proxied pool chain : only_transports -> Forall proxied (connect_entry config env pool chain).1.2.
Proof.
  intros Hne. eapply Forall_impl; [apply connect_entry_dials|].
  intros a (entry & ? & keys & d & _ & Hk & -> & [[Hnil _]|(b & ? & _ & -> & ?)]); [|by exists b].
  destruct Hne as [Hpriv|]; [|done]. unfold entry_keys in Hk. rewrite Hpriv, Hnil in Hk. done.
Qed.

Lemma lease_proxied pool key :
  only_transports -> Forall proxied (lease_session write_guards unicode_lowercase url_parse config env pool key).1.2.
Proof.
  intros Hne. unfold lease_session. destruct (ge_lease env key); [by repeat constructor| |constructor]. destruct (Profile_parse _) as [profile|]; [|constructor].
  unfold establish_session. destruct (session_chain _ _ _ _ _ _) as [p chain].
  pose proof (connect_entry_proxied p chain Hne) as Hc. destruct (connect_entry _ _ _ _) as [[p' acts] [[link keys]|]]; [|exact Hc].
  destruct (bind _ _ _) as [c []]; [|exact Hc]. cbn. apply Forall_app. split; [exact Hc|by repeat constructor].
Qed.

Lemma no_fallback (pool : ProxyPool) (client : Conn) :
  only_transports -> gc_padded_sessions config || gc_enable_onion_routing config = true ->
  Forall proxied (ha_acts (handle_client write_guards unicode_lowercase url_parse config env pool client)).
Proof.
  intros Hne Hmode. unfold handle_client. destruct (read_socks5_request_context _ client) as [c [[[host port] context]|]]; [|constructor].
  destruct (gc_padded_sessions config).
  - unfold handle_padded. destruct (_ && _); [constructor|]. pose proof (lease_proxied pool (default (replicate 32 0) context) Hne) as Hp.
    destruct (lease_session _ _ _ _ _ _ _) as [[p' acts] [|]]; [|exact Hp]. destruct (negb _); [exact Hp|].
    destruct (send_socks5_reply 0 c) as [c' []]; [|exact Hp]. apply Forall_app. split; [exact Hp|by repeat constructor].
  - cbn [orb] in Hmode. destruct (choose_chain _ _ _ _ _ _) as [p chain]. destruct (bool_decide _); [constructor|]. rewrite Hmode. unfold handle_onion, onion_upstream.
    pose proof (connect_entry_proxied p chain Hne) as Hc. destruct (connect_entry _ _ _ _) as [[p' acts] o]; cbn [fst snd] in *.
    assert (Hmore : forall l, Forall proxied l -> Forall proxied (acts ++ l)) by (intros; by apply Forall_app).
    assert (Htrip : forall reason, Forall proxied (trip_if_strict config reason)) by (intros; unfold trip_if_strict; case_match; by repeat constructor).
    destruct o as [[link keys]|]; [|by apply Hmore]. destruct (build_telescopic_circuit _ _ _ _ _ _ _ _) as [l' [circuit|]]; [|by apply Hmore].
    destruct (send_socks5_reply 0 c) as [c' []]; [|exact Hc]. by apply Hmore; repeat constructor.
Qed.

(** No direct fallback. When entry transports are configured, listed relays
    or private bridges alike, a client's circuits and sessions are only ever
    reached through a loopback proxy of one of them: whatever fails, the gateway
    opens no other connection. *)
Theorem transports_no_fallback (pool : ProxyPool) (client : Conn) :
  gc_bridge_transports config <> [] -> gc_padded_sessions config || gc_enable_onion_routing config = true ->
  Forall proxied (ha_acts (handle_client write_guards unicode_lowercase url_parse config env pool client)).
Proof. intros Hne. apply no_fallback. by right. Qed.

(** ** Chains of proxies *)

(** Whom each proxy of a chain is asked for. *)
Fixpoint asked (chain : list ProxyNode) (host : bytes) (port : Z) : list (bytes * Z) :=
  match chain with
  | [] => []
  | _ :: rest => match rest with [] => (host, port) | n :: _ => (pn_host n, pn_port n) end :: asked rest host port
  end.

Definition asking (next : bytes * Z) : bytes := [5; 1; 0] ++ request_frame (target_address next.1) next.2.

Lemma asked_last chain host port : chain <> [] -> last (asked chain host port) = Some (host, port).
Proof.
  induction chain as [|node [|n rest] IH]; [done|done|]. intros _. cbn [asked] in *. rewrite last_cons. by rewrite IH.
Qed.

(** A chain of proxies is told hop by hop. Whatever the proxies answer, the
    entry connection carries complete requests of the first [k] proxies and, if
    the chain failed, a prefix of the next one's, which is the proxy that is
    blamed. So the target, which only the last request names, is named only
    inside a tunnel through all the proxies before. *)
Theorem chain_told_hop_by_hop (chain : list ProxyNode) (host : bytes) (port : Z) (stream stream' : Conn) (r : result ProxyNode unit) :
  tunnel_hops config chain host port stream = (stream', r) ->
  (chain <> [] -> last (asked chain host port) = Some (host, port)) /\
  exists k w, cn_out stream' = cn_out stream ++ concat (asking <$> take k (asked chain host port)) ++ w /\
    match r with
    | Ok _ => k = length chain /\ w = []
    | Err node => chain !! k = Some node /\ exists next, asked chain host port !! k = Some next /\ w `prefix_of` asking next
    end.
Proof.
  intros Hrun. split; [apply asked_last|]. revert stream Hrun. induction chain as [|node rest IH]; intros stream; cbn [tunnel_hops].
  { intros [= <- <-]. exists 0%nat, []. cbn. by rewrite !app_nil_r. }
  cbn [asked]. set (next := match rest with [] => (host, port) | n :: _ => (pn_host n, pn_port n) end).
  destruct (socks5_connect_through next.1 next.2 (gc_disable_ipv6 config) stream) as [s1 r1] eqn:E.
  apply connect_through_told in E as (w & Ho & Hp & _ & Hok). destruct r1 as [[]|e].
  - rewrite (Hok eq_refl) in Ho. intros (k & w' & Ho' & Hk)%IH. exists (S k), w'. rewrite Ho', Ho. split.
    + cbn [take fmap list_fmap concat]. unfold asking at 2. by rewrite <- !app_assoc.
    + destruct r as [[]|n]; [|exact Hk]. destruct Hk as [-> ->]. done.
  - intros [= <- <-]. exists 0%nat, w. split; [done|]. split; [done|]. by exists next.
Qed.
End Fallback.

Section Entries.
Context `{OnionPrimitives} `{IdentityPrimitives} `{KexPrimitives} `{LinkPrimitives}.
Context {HO : HashOrder} {HOL : @HashOrderLaws HO} {R : Rng} {RL : @RngLaws R}.
Context (write_guards : GuardState -> bytes) (unicode_lowercase : bytes -> bytes) (url_parse : bytes -> option Url).
Context (config : GuardConfig) (env : GatewayEnv).

(** C13: an onion client speaks to its entries only. Whatever a client asks for
    and whatever the network answers, the target is never resolved or dialled.
    Without private bridges every connection the gateway opens for the client is
    to a member of the persistent guard set, or, where entry transports are
    provisioned, to the loopback proxy of the binding for that guard's identity,
    and guards that were there before are the guards afterwards. With private
    bridges every connection is to the loopback proxy of a provisioned binding,
    and there is none when no binding is provisioned. *)
Theorem client_dials_guard (pool : ProxyPool) (client : Conn) :
  gc_padded_sessions config || gc_enable_onion_routing config = true -> keyed (pl_nodes pool) ->
  let h := handle_client write_guards unicode_lowercase url_parse config env pool client in
  if gc_private_bridges config then Forall (proxied config) (ha_acts h)
  else Forall (guard_dial config (ha_pool h)) (ha_acts h) /\
       (gs_guards (pl_guard_state pool) <> [] -> pl_guard_state (ha_pool h) = pl_guard_state pool).
Proof.
  intros Hmode Hkeyed h. destruct (gc_private_bridges config) eqn:Hpriv; [|by apply dials_guard]. apply no_fallback; [by left|done].
Qed.
End Entries.

(** ** Privacy contexts *)
Section Contexts.
Context `{OnionPrimitives} `{IdentityPrimitives} `{KexPrimitives} `{LinkPrimitives} `{HashOrder} `{Rng}.
Context (write_guards : GuardState -> bytes) (unicode_lowercase : bytes -> bytes) (url_parse : bytes -> option Url).
Context (config : GuardConfig).

(** The label of a request: none, or a user name and a password. *)
Definition labelled (client : Conn) (label : option (bytes * bytes)) : Prop :=
  exists methods rest, cn_in client = [5; Z.of_nat (length methods)] ++ methods ++ rest /\
    match label with
    | None => 2 ∉ methods
    | Some (username, password) => 2 ∈ methods /\ credential_ok username /\ credential_ok password /\ credentials username password `prefix_of` rest
    end.

Definition context_key (label : option (bytes * bytes)) : bytes :=
  match label with None => replicate 32 0 | Some (username, password) => sha256 (context_preimage username password) end.

(** Two different labels that the digest does not tell apart. *)
Definition digests_clash (l1 l2 : option (bytes * bytes)) : Prop :=
  match l1, l2 with
  | Some (u, p), Some (u', p') => context_preimage u p <> context_preimage u' p' /\ sha256 (context_preimage u p) = sha256 (context_preimage u' p')
  | Some (u, p), None | None, Some (u, p) => sha256 (context_preimage u p) = replicate 32 0
  | None, None => False
  end.

Lemma lease_uses env pool key k : UsedSession k ∈ (lease_session write_guards unicode_lowercase url_parse config env pool key).1.2 -> k = key.
Proof.
  unfold lease_session. destruct (ge_lease env key); [by intros [= ->]%list_elem_of_singleton| |by intros ?%elem_of_nil].
  destruct (Profile_parse _) as [profile|]; [|by intros ?%elem_of_nil]. unfold establish_session. destruct (session_chain _ _ _ _ _ _) as [p chain].
  pose proof (connect_entry_dials config env p chain) as Hd. unfold entry_acts in Hd. rewrite Forall_forall in Hd.
  assert (Hno : UsedSession k ∉ (connect_entry config env p chain).1.2) by (by intros (? & ? & ? & ? & _ & _ & ? & _)%Hd).
  destruct (connect_entry _ _ _ _) as [[p' acts] [[link keys]|]]; [|done]. destruct (bind _ _ _) as [c []]; [|done]. cbn. rewrite elem_of_app.
  by intros [?|[= ->]%list_elem_of_singleton].
Qed.

Lemma session_label env pool client k :
  is_bytes (cn_in client) -> gc_padded_sessions config = true ->
  UsedSession k ∈ ha_acts (handle_client write_guards unicode_lowercase url_parse config env pool client) ->
  exists label, labelled client label /\ k = context_key label.
Proof.
  intros Hb Hpad. unfold handle_client. rewrite Hpad. destruct (read_socks5_request_context true client) as [c [[[host port] context]|]] eqn:Er; [|by intros ?%elem_of_nil].
  intros Hin. assert (Hk : k = default (replicate 32 0) context).
  { unfold handle_padded in Hin. destruct (_ && _); [by apply elem_of_nil in Hin|]. pose proof (lease_uses env pool (default (replicate 32 0) context) k) as Hl.
    destruct (lease_session _ _ _ _ _ _ _) as [[p' acts] [|]]; [|by apply Hl]. destruct (negb _); [by apply Hl|].
    destruct (send_socks5_reply 0 c) as [c' []]; [|by apply Hl]. apply elem_of_app in Hin as [?|?%list_elem_of_singleton]; [by apply Hl|done]. }
  apply request_context_inv in Er as (methods & auth & rest & Hin' & Hneg); [|done]. destruct context as [d|]; cbn in Hneg, Hk.
  - destruct Hneg as (_ & Hm & _ & u & p & Hu & Hp & -> & ->). exists (Some (u, p)). split; [|done]. exists methods, (credentials u p ++ rest). split; [done|]. split_and!; [done..|by apply prefix_app_r].
  - destruct Hneg as (-> & _ & Hm & _). exists None. split; [|done]. exists methods, rest. split; [done|]. by apply Hm.
Qed.

(** Privacy contexts do not share a session. If two requests, whenever they
    came and whatever happened between, used the session of the same key, they
    carried the same user name and password or both carried none; the only
    exception is a pair of labels on which SHA-256 itself collides. *)
Theorem contexts_apart (env1 env2 : GatewayEnv) (pool1 pool2 : ProxyPool) (client1 client2 : Conn) (k : bytes) :
  is_bytes (cn_in client1) -> is_bytes (cn_in client2) -> gc_padded_sessions config = true ->
  UsedSession k ∈ ha_acts (handle_client write_guards unicode_lowercase url_parse config env1 pool1 client1) ->
  UsedSession k ∈ ha_acts (handle_client write_guards unicode_lowercase url_parse config env2 pool2 client2) ->
  exists l1 l2, labelled client1 l1 /\ labelled client2 l2 /\ (l1 = l2 \/ digests_clash l1 l2).
Proof.
  intros Hb1 Hb2 Hpad H1' H2'. destruct (session_label _ _ _ _ Hb1 Hpad H1') as (l1 & Hl1 & Hk1). destruct (session_label _ _ _ _ Hb2 Hpad H2') as (l2 & Hl2 & Hk2).
  exists l1, l2. split_and!; [done..|]. destruct l1 as [[u p]|], l2 as [[u' p']|]; cbn in *; [|right; congruence..|by left].
  destruct (decide (context_preimage u p = context_preimage u' p')) as [E|Hne]; [|right; split; [done|congruence]]. left.
  destruct Hl1 as (? & ? & _ & _ & Hu & Hp & _). destruct Hl2 as (? & ? & _ & _ & Hu' & Hp' & _). by destruct (context_preimage_inj u p u' p') as [-> ->].
Qed.
End Contexts.

(** ** Relay mode *)
Section Open.
Context `{IdentityPrimitives} (unicode_lowercase : bytes -> bytes) (config : GuardConfig) (env : GatewayEnv).

(** A relay's open port is confined. A relay that does not offer open SOCKS5
    answers such a request with nothing at all; one that does, and does not
    allow private networks, dials public addresses only, whatever the client
    asks for and the resolver answers, and forwards only over one that accepted. *)
Theorem open_relay_confined (pool : ProxyPool) (client : Conn) :
  (forall addrs, ge_dns env = Some (Some addrs) -> Forall ip_wf addrs) ->
  let h := handle_relay_socks unicode_lowercase config env pool client in
  (gc_allow_open_socks5 config = false -> h = mkHandled client pool []) /\
  (gc_allow_private_exit config = false ->
    Forall (fun a => match a with Dialled d => exists ip, d = ToExit ip /\ public_ip ip = true | _ => True end) (ha_acts h) /\
    (Forwarded ∈ ha_acts h -> exists ip, Dialled (ToExit ip) ∈ ha_acts h /\ ge_exit env ip = ExitPolicy.Connected)).
Proof.
  intros Hdns h. split; [intros Hopen; subst h; unfold handle_relay_socks; by rewrite Hopen|]. intros Hpriv. subst h. unfold handle_relay_socks.
  destruct (negb _); [split; [constructor|by intros ?%elem_of_nil]|]. destruct (read_socks5_request client) as [c [[host port]|]]; [|split; [constructor|by intros ?%elem_of_nil]].
  pose proof (resolve_and_connect_sound unicode_lowercase (ExitPolicy_new false) host port (ge_dns env) (ge_exit env) eq_refl Hdns) as Hr. rewrite Hpriv.
  destruct (resolve_and_connect _ _ _ _ _ _) as [tried r]. destruct Hr as (Hpub & Hok & _).
  assert (Hall : Forall (fun a => match a with Dialled d => exists ip, d = ToExit ip /\ public_ip ip = true | _ => True end) ((fun ip => Dialled (ToExit ip)) <$> tried)).
  { apply Forall_fmap. eapply Forall_impl; [exact Hpub|]. intros ip ?. by exists ip. }
  destruct r as [ip|e]; cbn [ha_acts].
  - split; [apply Forall_app; split; [exact Hall|by repeat constructor]|]. intros _. destruct (Hok ip eq_refl) as [Hin ?]. exists ip. split; [|done].
    apply elem_of_app. left. apply list_elem_of_fmap. by exists ip.
  - split; [exact Hall|]. by intros (? & ? & _)%list_elem_of_fmap.
Qed.
End Open.

(** ** Circuit identifiers *)

(** The identifiers the gateway gives its circuits are never zero and never
    begin with the byte 5 that marks SOCKS5, and stay within 32 bits, for every
    value the random generator may return. *)
Theorem circuit_ids_valid (id : Z) :
  0 <= id < 2 ^ 32 ->
  (0 < draw_circuit_id id < 2 ^ 32 /\ Z.shiftr (draw_circuit_id id) 24 <> 0 /\ Z.shiftr (draw_circuit_id id) 24 <> 5) /\
  (0 < draw_session_id id < 2 ^ 32 /\ Z.shiftr (draw_session_id id) 24 <> 5).
Proof.
  intros Hid. assert (Hx : forall top, Z.shiftr id 24 = top -> Z.shiftr (Z.lxor id 268435456) 24 = Z.lxor top 16) by (intros top <-; by rewrite Z.shiftr_lxor).
  assert (Hdiv : forall x, Z.shiftr x 24 = x / 16777216) by (intros x; by rewrite Z.shiftr_div_pow2).
  assert (Hbits : forall x top, Z.shiftr x 24 = top -> 0 < top < 256 -> 0 < x < 2 ^ 32).
  { intros x top Ht Hr. rewrite Hdiv in Ht. change (2 ^ 32) with (256 * 16777216). pose proof (Z.div_mod x 16777216). pose proof (Z.mod_pos_bound x 16777216). lia. }
  unfold draw_circuit_id, draw_session_id. destruct (Z.eqb_spec (Z.shiftr id 24) 5) as [H5|H5]; cbn [orb].
  - pose proof (Hx _ H5) as E. change (Z.lxor 5 16) with 21 in E. rewrite orb_true_r, E. pose proof (Hbits _ _ E ltac:(lia)). lia.
  - destruct (Z.eqb_spec (Z.shiftr id 24) 0) as [H0|H0].
    + pose proof (Hx _ H0) as E. change (Z.lxor 0 16) with 16 in E. rewrite E. pose proof (Hbits _ _ E ltac:(lia)).
      destruct (Z.eqb_spec id 0) as [->|Hne]; cbn [orb]; [change (Z.shiftr _ _) with 16; lia|]. rewrite H0. lia.
    + assert (id <> 0) by (intros ->; done). rewrite (proj2 (Z.eqb_neq id 0)) by done. cbn [orb]. lia.
Qed.

(** ** Witnesses *)
#[local] Existing Instances toy_primitives toy_laws toy_identity toy_identity_laws toy_kex toy_link map_order map_order_laws toy_rng toy_rng_laws toy_guards_eq_dec toy_guards_countable.

(** The configuration by its mode, its transports and whether SOCKS5 is open. *)
Definition toy_config (padded onion open_socks : bool) (bridges : list BridgeTransport) : GuardConfig :=
  mkGuardConfig bridges false false true true false false false false 1 3 false open_socks false false None None padded Link.Strict (str "balanced") onion onion [] []
    (str "127.0.0.1:9050") None.

Definition toy_socket (input : bytes) : Conn := mkConn input (mkIoError UnexpectedEof "") [] None (mkIoError BrokenPipe "").

(** Proxies that accept everything, relays and transports that cannot be
    reached, sessions that can. *)
Definition toy_env : GatewayEnv :=
  mkGatewayEnv 2000 0 Storage.Written (fun _ _ => None) (fun _ => Some (toy_socket (concat (replicate 3 ([5; 0] ++ socks5_reply 0))))) (fun _ => Err Panics)
    (fun _ => mkTlsServer [] [] 0 (Err (mkIoError UnexpectedEof ""))) [] 0 false tls_conn 7 (fun _ => mkHopDraw [] [] []) [] (fun _ => Existing) (fun _ _ => true)
    (Some (Some example_addrs)) (fun _ => ExitPolicy.Connected) false.

Definition toy_request : bytes := [5; 1; 0] ++ request_frame (Domain (str "example.org")) 80.


Lemma client_dials_guard_witness :
  let h := handle_client toy_write id toy_url (toy_config false true false []) toy_env toy_pool (toy_socket toy_request) in
  Dialled (ToNode (str "2.1.1.1") 9001) ∈ ha_acts h /\ Forall (guard_dial (toy_config false true false []) (ha_pool h)) (ha_acts h).
Proof.
  intros h. split; [apply list_elem_of_In; vm_compute; left; reflexivity|].
  destruct (client_dials_guard toy_write id toy_url (toy_config false true false []) toy_env toy_pool (toy_socket toy_request)) as [Hall _]; [reflexivity|exact toy_keyed|].
  exact Hall.
Defined.

Definition toy_entry : BridgeTransport :=
  mkBridgeTransport (str "2.1.1.1") (mkSocketAddr (V4 (mkIpv4 127 0 0 1)) 31000) (mkSocketAddr (V4 (mkIpv4 192 0 2 1)) 443) toy_arguments.

Lemma transports_no_fallback_witness :
  let h := handle_client toy_write id toy_url (toy_config false true false [toy_entry]) toy_env toy_pool (toy_socket toy_request) in
  Dialled (ToProxy (bt_proxy toy_entry)) ∈ ha_acts h /\ Forall (proxied (toy_config false true false [toy_entry])) (ha_acts h).
Proof.
  intros h. split; [apply list_elem_of_In; vm_compute; left; reflexivity|].
  apply (transports_no_fallback toy_write id toy_url (toy_config false true false [toy_entry]) toy_env toy_pool (toy_socket toy_request)); [discriminate|reflexivity].
Defined.

(** The first proxy accepts and the second refuses. *)
Lemma chain_told_hop_by_hop_witness :
  let chain := [Pool.toy_node "1.1.1.1" false; Pool.toy_node "2.1.1.1" false] in
  let run := tunnel_hops (toy_config false false false []) chain (str "example.org") 80 (toy_socket ([5; 0] ++ socks5_reply 0 ++ [5; 0] ++ socks5_reply 1)) in
  run.2 = Err (Pool.toy_node "2.1.1.1" false) /\
  exists k w, chain !! k = Some (Pool.toy_node "2.1.1.1" false) /\ cn_out run.1 = [] ++ concat (asking <$> take k (asked chain (str "example.org") 80)) ++ w.
Proof.
  intros chain run. assert (Hr : run.2 = Err (Pool.toy_node "2.1.1.1" false)) by (vm_compute; reflexivity). split; [exact Hr|].
  destruct (chain_told_hop_by_hop (toy_config false false false []) chain (str "example.org") 80 _ _ _ (surjective_pairing run)) as (_ & k & w & Ho & Hk).
  rewrite Hr in Hk. exists k, w. split; [apply Hk|exact Ho].
Defined.

Lemma contexts_apart_witness :
  let client := toy_socket toy_labelled in let key := context_key (Some (str "site", str "secret")) in
  UsedSession key ∈ ha_acts (handle_client toy_write id toy_url (toy_config true true false []) toy_env toy_pool client) /\
  exists l1 l2, labelled client l1 /\ labelled client l2 /\ (l1 = l2 \/ digests_clash l1 l2).
Proof.
  intros client key. assert (Hu : UsedSession key ∈ ha_acts (handle_client toy_write id toy_url (toy_config true true false []) toy_env toy_pool client)).
  { apply list_elem_of_In. vm_compute. left. reflexivity. }
  assert (Hb : is_bytes (cn_in client)).
  { apply Forall_forall. intros x Hx. vm_compute in Hx. repeat (apply elem_of_cons in Hx as [->|Hx]; [split; discriminate|]). inversion Hx. }
  split; [exact Hu|]. exact (contexts_apart toy_write id toy_url (toy_config true true false []) toy_env toy_env toy_pool toy_pool client client key Hb Hb eq_refl Hu Hu).
Defined.

Lemma open_relay_confined_witness :
  let h := handle_relay_socks id (toy_config false false true []) toy_env toy_pool (toy_socket toy_request) in
  Forwarded ∈ ha_acts h /\ exists ip, Dialled (ToExit ip) ∈ ha_acts h /\ ge_exit toy_env ip = ExitPolicy.Connected.
Proof.
  intros h. assert (Hf : Forwarded ∈ ha_acts h) by (apply list_elem_of_In; vm_compute; right; left; reflexivity). split; [exact Hf|].
  destruct (open_relay_confined id (toy_config false false true []) toy_env toy_pool (toy_socket toy_request)) as [_ Hpub].
  - intros addrs [= <-]. repeat constructor; discriminate.
  - destruct (Hpub eq_refl) as [_ Hfw]. exact (Hfw Hf).
Defined.

Lemma circuit_ids_valid_witness : 0 < draw_circuit_id 83886087 < 2 ^ 32 /\ 0 < draw_session_id 0 < 2 ^ 32.
Proof. split; [apply (circuit_ids_valid 83886087); lia|apply (circuit_ids_valid 0); lia]. Defined.
