(* ===== verification/Startup.v ===== *)
(** * Starting up (src/gateway/server.rs, src/core/config.rs)

    What [GatewayServer::run] checks before its accept loop, the descriptor a
    relay registers with its authorities and the session it does so over, and
    the capability file of a reverse relay. *)
From S2P Require Import Prelude Text Net Identity Handshake Circuit Storage Consensus Transport ExitPolicy Link Session Node Pool Tracker Bridge Directory Gateway.

(** ** Addresses in text: [SocketAddr::from_str] *)
Definition read_port (l : bytes) : option (Z * bytes) := rest ← read_char 58 l; read_number 10 (length l) u16_MAX true rest.

Definition read_socket_v4 (l : bytes) : option (SocketAddr * bytes) :=
  '(ip, rest) ← read_ipv4_addr l; '(port, rest) ← read_port rest; Some (mkSocketAddr (V4 ip) port, rest).

(** A scope number after a percent sign is read and dropped. *)
Definition skip_scope (l : bytes) : bytes :=
  match rest ← read_char 37 l; read_number 10 (length l) u32_MAX true rest with Some (_, rest) => rest | None => l end.

Definition read_socket_v6 (l : bytes) : option (SocketAddr * bytes) :=
  rest ← read_char 91 l; '(ip, rest) ← read_ipv6_addr rest; rest ← read_char 93 (skip_scope rest); '(port, rest) ← read_port rest;
  Some (mkSocketAddr (V6 ip) port, rest).

Definition parse_socket_addr (l : bytes) : option SocketAddr :=
  match (match read_socket_v4 l with Some r => Some r | None => read_socket_v6 l end) with
  | Some (address, []) => Some address
  | _ => None
  end.

(** ** Checks before the loop *)

(** [init] is what loading the guard state gave, [bind] what binding does. *)
Definition start_gateway (config : GuardConfig) (init : result string unit) (bind : SocketAddr -> result string SocketAddr) : result string SocketAddr :=
  let loopback_listener := match parse_socket_addr (gc_listen_addr config) with Some a => is_loopback (sa_ip a) | None => false end in
  if gc_padded_sessions config && (negb (gc_enable_onion_routing config) || gc_relay_mode config || negb loopback_listener)
  then Err "Padded client sessions require an onion gateway on loopback"%string
  else if gc_padded_sessions config && bool_decide (gc_link_cover_profile config = Economy)
          && negb (bool_decide (gc_privacy_profile config = str "balanced") || bool_decide (gc_privacy_profile config = str "balanced-longtail"))
  then Err "Economy link cover requires the balanced session profile"%string
  else if gc_padded_sessions config && (gc_enable_jitter config || gc_enable_chaos config || gc_enable_rmt_morphing config || gc_enable_chaffing config)
  then Err "Padded sessions require one common privacy profile, without legacy morphing/chaffing flags"%string
  else
    let? _ := if gc_padded_sessions config then match Profile_parse (gc_privacy_profile config) with Ok _ => Ok tt | Err e => Err e end else Ok tt in
    let? _ := init in
    if gc_relay_mode config && negb (length (gc_directory_authorities config) =? 0)%nat
       && negb (length (gc_authority_endpoints config) =? length (gc_directory_authorities config))%nat
    then Err "Relay registration requires bound authority identity/address/pin records"%string
    else
      match parse_socket_addr (gc_listen_addr config) with
      | None => Err "invalid socket address syntax"%string
      | Some configured_bind =>
          let? _ := advertised_relay_address config configured_bind in
          let? bound_address := bind configured_bind in
          let? advertised_address := advertised_relay_address config bound_address in
          if gc_unlisted_bridge config
             && (negb (gc_relay_mode config) || gc_is_exit config || gc_allow_open_socks5 config || negb (is_loopback (sa_ip advertised_address)))
          then Err "Unlisted bridges require a non-exit, onion-only loopback relay"%string
          else Ok advertised_address
      end.

(** A gateway that starts accepting is in a state its mode allows. Padded
    sessions are served on a loopback address to an onion client, with a known
    profile, no second shaper and economy cover only with a balanced profile; an
    unlisted bridge is an onion-only relay without exit whose address is
    loopback; a relay with authorities has a pinned record for each; and an
    address of the operator's choosing is advertised only by a listed relay and
    is neither loopback nor unspecified nor multicast. *)
Theorem gateway_starts_sound (config : GuardConfig) (init : result string unit) (bind : SocketAddr -> result string SocketAddr) (address : SocketAddr) :
  start_gateway config init bind = Ok address ->
  (gc_padded_sessions config = true ->
     gc_enable_onion_routing config = true /\ gc_relay_mode config = false /\
     (exists a, parse_socket_addr (gc_listen_addr config) = Some a /\ is_loopback (sa_ip a) = true) /\
     (exists profile, Profile_parse (gc_privacy_profile config) = Ok profile /\
        (gc_link_cover_profile config = Economy -> profile = Balanced \/ profile = LongTail)) /\
     gc_enable_jitter config || gc_enable_chaos config || gc_enable_rmt_morphing config || gc_enable_chaffing config = false) /\
  (gc_unlisted_bridge config = true ->
     gc_relay_mode config = true /\ gc_is_exit config = false /\ gc_allow_open_socks5 config = false /\ is_loopback (sa_ip address) = true) /\
  (gc_relay_mode config = true -> gc_directory_authorities config <> [] ->
     length (gc_authority_endpoints config) = length (gc_directory_authorities config)) /\
  match gc_relay_advertise_address config with
  | None => exists bound, bind bound = Ok address /\ parse_socket_addr (gc_listen_addr config) = Some bound
  | Some a => address = a /\ gc_relay_mode config = true /\ gc_unlisted_bridge config = false /\ sa_port a <> 0 /\
      is_unspecified (sa_ip a) = false /\ is_loopback (sa_ip a) = false /\ is_multicast (sa_ip a) = false
  end.
Proof.
  unfold start_gateway. cbv zeta. refused Hpad. refused Heco. refused Hold.
  destruct (if gc_padded_sessions config then _ else _) as [[]|] eqn:Hprof; [|done]. destruct init as [[]|]; [|done]. refused Hauth.
  destruct (parse_socket_addr _) as [configured|]; [|done].
  destruct (advertised_relay_address config configured); [|done]. destruct (bind configured) as [bound|] eqn:Hbind; [|done].
  destruct (advertised_relay_address config bound) as [adv|] eqn:Hadv; [|done]. refused Hun. intros [= ->]. split_and!.
  - intros Hp. rewrite Hp in *. cbn [andb] in *. destruct (Profile_parse _) as [profile|] eqn:Hparse; [|done]. reflect_bools. split_and!; try done.
    + by exists configured.
    + exists profile. split; [done|]. intros He. rewrite bool_decide_true in Heco by done. cbn [andb] in Heco. apply negb_false_iff, orb_true_iff in Heco.
      destruct Heco as [E%bool_decide_eq_true|E%bool_decide_eq_true]; rewrite E in Hparse; vm_compute in Hparse; injection Hparse as <-; [by left|by right].
    + by repeat (apply orb_false_iff; split).
  - intros Hu. rewrite Hu in Hun. cbn [andb] in Hun. by reflect_bools.
  - intros Hr Hne. rewrite Hr in Hauth. cbn [andb] in Hauth. destruct (gc_directory_authorities config); [done|]. cbn [length Nat.eqb negb andb] in Hauth. by reflect_bools.
  - unfold advertised_relay_address in Hadv. destruct (gc_relay_advertise_address config) as [chosen|]; [|injection Hadv as <-; by exists configured].
    destruct (_ || _) eqn:Hbad in Hadv; [done|]. injection Hadv as <-. reflect_bools. by split_and!.
Qed.

(** ** Addresses printed *)
Lemma parse_display ip : ip_wf ip -> parse_ip (display_ip ip) = Some ip.
Proof.
  intros Hw. unfold parse_ip. destruct ip as [v4|v6]; cbn [display_ip].
  - rewrite <- (app_nil_r (display_v4 v4)), read_ipv4_display by done. done.
  - by rewrite display_v6_reads_no_v4, read_ipv6_display.
Qed.

Lemma joined_length sep n parts : Forall (fun p => (length p <= n)%nat) parts -> (length (join sep parts) <= length parts * S n)%nat.
Proof.
  induction 1 as [|p parts Hp _ IH]; [done|]. destruct parts as [|q parts]; [cbn in *; lia|]. cbn [join] in *. rewrite length_app. cbn [length] in *. lia.
Qed.

Lemma display_bounds ip : ip_wf ip -> (length (display_ip ip) <> 0 /\ length (display_ip ip) <= 253)%nat.
Proof.
  intros Hw. split.
  - intros E%length_zero_iff_nil. pose proof (parse_display ip Hw) as Hp. by rewrite E in Hp.
  - assert (H8 : forall l, (length (join 46 (display_u8 <$> l)) <= length l * 4)%nat).
    { intros l. rewrite <- (length_fmap display_u8 l). apply joined_length, Forall_fmap, Forall_true. intros; apply display_u8_length. }
    assert (H16 : forall l, (length (join 58 (display_hex <$> l)) <= length l * 5)%nat).
    { intros l. rewrite <- (length_fmap display_hex l). apply joined_length, Forall_fmap, Forall_true. intros n. unfold compose, display_hex. repeat case_match; cbn; lia. }
    assert (Hv4 : forall v4, (length (display_v4 v4) <= 16)%nat) by (intros v4; apply (H8 (v4_octets v4))).
    destruct ip as [v4|v6]; cbn [display_ip]; [specialize (Hv4 v4); lia|]. unfold display_v6. destruct (to_ipv4_mapped v6) as [v4|]; [specialize (Hv4 v4); rewrite length_app; cbn [length]; lia|].
    destruct (longest_zeros _ _ _ _) as [start len]. case_match; [|pose proof (H16 (v6_segments v6)) as Hs; cbn [v6_segments length] in Hs; lia].
    rewrite !length_app. pose proof (H16 (take start (v6_segments v6))). pose proof (H16 (drop (start + len) (v6_segments v6))).
    rewrite length_take in *. rewrite length_drop in *. cbn [v6_segments length] in *. lia.
Qed.

Lemma hex_name_valid `{HexCodec} `{!HexLaws} l : is_bytes l -> (1 <= length l <= 64)%nat -> valid_node_id (hex_encode l) = true.
Proof.
  intros Hb Hl. unfold valid_node_id. rewrite hex_encode_length, (proj2 (Nat.eqb_neq _ _)), (proj2 (Nat.leb_le _ _)) by lia. cbn [negb andb].
  pose proof (hex_encode_chars l Hb) as Hc. rewrite forallb_forall in Hc |- *. intros b Hin. apply Hc in Hin.
  unfold hex_char, is_lower, is_upper, Consensus.is_digit, in_range in *. apply orb_true_iff in Hin as [Hd|Ha]; reflect_bools.
  - rewrite (proj2 (Z.leb_le 48 b)), (proj2 (Z.leb_le b 57)) by lia. cbn [andb]. by rewrite orb_true_r.
  - rewrite (proj2 (Z.leb_le 97 b)), (proj2 (Z.leb_le b 122)) by lia. done.
Qed.

(** ** Registration *)
Section Registration.
Context `{OnionPrimitives} `{IdentityPrimitives} `{KexPrimitives} `{HexCodec}.

Definition registration_descriptor (identity : HybridSigningKey) (address : SocketAddr) (is_exit : bool) (pow_nonce now : Z) : option RelayDescriptor :=
  let pub_key_bytes := verifying_key identity in
  sign_with_key (RelayDescriptor_new (hex_encode (take 8 pub_key_bytes)) (display_ip (sa_ip address)) (sa_port address) (replicate 32 0)
                   pub_key_bytes is_exit pow_nonce now) identity.








(** What a relay registers is its own and verifies. The descriptor carries
    the relay's identity as its pin, the pin's first eight bytes in hexadecimal
    as its name and the advertised endpoint, under a signature that everyone
    who checks the descriptor accepts, for every address and nonzero port. *)
Theorem registration_verifies `{!IdentityLaws} `{!HexLaws} (identity : HybridSigningKey) (address : SocketAddr) (is_exit : bool) (pow_nonce now : Z)
    (desc : RelayDescriptor) :
  verifying_key identity <> replicate 32 0 -> ip_wf (sa_ip address) -> sa_port address <> 0 ->
  registration_descriptor identity address is_exit pow_nonce now = Some desc ->
  rd_identity_pin desc = verifying_key identity /\ rd_node_id desc = hex_encode (take 8 (verifying_key identity)) /\
  parse_ip (rd_host desc) = Some (sa_ip address) /\ rd_port desc = sa_port address /\ verify_identity desc = true.
Proof.
  intros Hz Hip Hport Hd. unfold registration_descriptor in Hd. pose proof (signed_descriptor_verifies _ _ _ Hz Hd) as ->.
  unfold sign_with_key in Hd. destruct (identity_sign _ _) as [sig|]; [|done]. apply Some_inj' in Hd as <-. split_and!; [done|done|by apply parse_display|done|].
  destruct (verifying_key_bytes identity) as [Hl Hb]. pose proof (display_bounds _ Hip) as [Hd1 Hd2].
  unfold valid_host, valid_endpoint. cbn [rd_host rd_node_id rd_port RelayDescriptor_new].
  rewrite parse_display, bool_decide_true, hex_name_valid by (done || by apply Forall_take || (rewrite length_take; lia)). cbn [andb].
  rewrite (proj2 (Nat.eqb_neq _ _)), (proj2 (Nat.leb_le _ _)), (proj2 (Z.eqb_neq _ _)) by (done || lia). done.
Qed.
End Registration.

(** ** The capability of a reverse relay *)

(** [io] and [content] are the file, [mode] its permission bits. *)
Definition read_reverse_capability (io : bool) (mode : Z) (content : option bytes) : result IoError bytes :=
  match read_bounded_file io content 65 with
  | Err e => Err e
  | Ok text =>
      if negb (Z.land mode 63 =? 0) then Err (mkIoError PermissionDenied "Reverse capability file must have no group/other permissions")
      else
        match from_utf8 text with
        | None => Err (mkIoError InvalidData "stream did not contain valid UTF-8")
        | Some token =>
            let token := if bool_decide (last token = Some 10) then take (length token - 1) token else token in
            if negb (length token =? 64)%nat || negb (forallb hex_char token)
            then Err (mkIoError InvalidData "Reverse capability must be 64 lowercase hexadecimal characters")
            else Ok token
        end
  end.

(** A capability that is read is one the tracker's protocol carries: the
    file is nobody else's to read, and the token has the form the tracker
    accepts in a registration, so it cannot break out of the command line. *)
Theorem reverse_capability_usable (io : bool) (mode : Z) (content : option bytes) (token : bytes) :
  read_reverse_capability io mode content = Ok token ->
  Z.land mode 63 = 0 /\ valid_token token = true /\ (content = Some token \/ content = Some (token ++ [10])).
Proof.
  unfold read_reverse_capability. destruct (read_bounded_file io content 65) as [text|] eqn:Hr; [|done]. apply read_bounded_some in Hr as ->.
  refused Hm. destruct (from_utf8 text) as [t|] eqn:Hu; [|done]. unfold from_utf8 in Hu. destruct (utf8_valid text); [|done]. injection Hu as <-.
  cbv zeta. refused Hf. intros [= <-]. reflect_bools. unfold valid_token. split; [done|]. split.
  - apply andb_true_iff. split; [by apply Nat.eqb_eq|done].
  - case_bool_decide as Hl; [|by left]. right. f_equal. apply last_Some in Hl as [l ->]. rewrite length_app, Nat.add_sub, take_app_length. done.
Qed.

(** ** Witnesses *)
#[local] Existing Instances toy_identity toy_identity_laws toy_hex toy_hex_laws.

Lemma gateway_starts_sound_witness :
  start_gateway (toy_config true true false []) (Ok tt) (fun a => Ok a) = Ok (mkSocketAddr (V4 (mkIpv4 127 0 0 1)) 9050) /\
  exists a, parse_socket_addr (str "127.0.0.1:9050") = Some a /\ is_loopback (sa_ip a) = true.
Proof.
  assert (Hs : start_gateway (toy_config true true false []) (Ok tt) (fun a => Ok a) = Ok (mkSocketAddr (V4 (mkIpv4 127 0 0 1)) 9050)) by (vm_compute; reflexivity).
  split; [exact Hs|]. destruct (gateway_starts_sound _ _ _ _ Hs) as (Hpad & _). destruct (Hpad eq_refl) as (_ & _ & Ha & _). exact Ha.
Defined.

Lemma registration_verifies_witness :
  exists desc, registration_descriptor (toy_authority 5) (mkSocketAddr (V6 (mkIpv6 9734 10240 544 1 0 0 0 1)) 9001) false 7 1000 = Some desc /\ verify_identity desc = true.
Proof.
  set (address := mkSocketAddr (V6 (mkIpv6 9734 10240 544 1 0 0 0 1)) 9001).
  assert (Hd : exists desc, registration_descriptor (toy_authority 5) address false 7 1000 = Some desc).
  { unfold registration_descriptor, sign_with_key.
    match goal with |- context [identity_sign ?k ?m] => destruct (identity_sign_ok k m) as [sig ->]; [vm_compute; discriminate|] end. by eexists. }
  destruct Hd as [desc Hd]. exists desc. split; [exact Hd|].
  refine (proj2 (proj2 (proj2 (proj2 (registration_verifies (toy_authority 5) address false 7 1000 desc _ _ _ Hd))))).
  - vm_compute. discriminate.
  - repeat constructor; discriminate.
  - discriminate.
Defined.

Lemma reverse_capability_usable_witness : valid_token (replicate 64 97) = true.
Proof. apply (reverse_capability_usable true 384 (Some (replicate 64 97 ++ [10]))). vm_compute. reflexivity. Defined.

#[local] Existing Instances toy_primitives toy_laws toy_kex toy_kex_laws.

