(* ===== verification/Reverse.v ===== *)
(** * Reverse relays (src/gateway/server.rs, [run_reverse_relay])

    A relay that cannot be reached keeps connections to a tracker: it connects
    under the tracker's pin, solves a proof of work, registers, waits to be
    handed a client and serves it like a relay would. One turn of a worker's
    loop is [reverse_turn]; the workers repeat it with pauses in between. *)
From S2P Require Import Prelude Text Net Identity Sybil Transport ExitPolicy Link Socks Tracker Gateway.

Inductive ReverseAct :=
| RDialled (address : bytes)
| RHandedOver                       (* registered, and the tracker said READY *)
| RExit (ip : IpAddr)
| RForwarded
| RServedOnion (is_exit_allowed : bool).

Record ReverseEnv := mkReverseEnv {
  re_connect : bytes -> option Conn;
  re_server : Conn -> TlsServer;
  re_challenge : bytes;
  re_now : Z;
  re_start : Z;                     (* where the search for a proof begins *)
  re_flush : bool;
  re_dns : option (option (list IpAddr));
  re_exit : IpAddr -> Attempt;
}.

Section Reverse.
Context `{IdentityPrimitives} `{LinkPrimitives} `{HexCodec} (unicode_lowercase : bytes -> bytes).

(** The checks before the workers; [token_file] is the answer of reading the
    capability file, if one is configured. *)
Definition start_reverse (config : GuardConfig) (identity : HybridSigningKey) (node_id : bytes) (token_file : option (result IoError bytes))
    : result string (bytes * bytes) :=
  if negb (bool_decide (node_id = hex_encode (verifying_key identity))) then Err "Reverse node ID must match the persisted composite identity"%string
  else
    match gc_tracker_identity_pin config, token_file with
    | None, _ => Err "Reverse relay requires tracker identity pin"%string
    | Some _, None => Err "Reverse relay requires a private capability file"%string
    | Some _, Some (Err e) => Err (io_msg e)
    | Some pin, Some (Ok token) => Ok (pin, token)
    end.

Definition reverse_registration (export : bytes -> bytes -> result IoError bytes) (identity : HybridSigningKey) (token : bytes) (now nonce : Z) : M Conn unit :=
  let* answer := register_reverse export identity token now nonce in
  let* _ := ensure (bool_decide (answer = str "REGISTERED")) (mkIoError PermissionDenied "Reverse registration refused") in
  let* ready := read_control in
  ensure (bool_decide (ready = str "READY")) (mkIoError PermissionDenied "Reverse handoff refused").

(** The client that was handed over, seen through the buffered stream. *)
Definition serve_reverse (config : GuardConfig) (env : ReverseEnv) (stream : Conn) : Conn * list ReverseAct :=
  match head (cn_in stream) with
  | None => (stream, [])
  | Some b =>
      if negb (b =? 5) then (stream, [RServedOnion true])
      else if negb (gc_allow_open_socks5 config) then (stream, [])
      else
        match read_socks5_request stream with
        | (stream, Err _) => (stream, [])
        | (stream, Ok (host, port)) =>
            let '(tried, r) := resolve_and_connect unicode_lowercase (ExitPolicy_new (gc_allow_private_exit config)) host port (re_dns env) (re_exit env) in
            match r with
            | Ok _ =>
                match send_socks5_reply 0 stream with
                | (stream, Ok _) => (stream, (RExit <$> tried) ++ if re_flush env then [RForwarded] else [])
                | (stream, Err _) => (stream, RExit <$> tried)
                end
            | Err _ => (respond 2 stream, RExit <$> tried)
            end
        end
  end.

Definition reverse_turn (config : GuardConfig) (pow_difficulty : Z) (identity : HybridSigningKey) (tracker_url node_id pin token : bytes) (env : ReverseEnv)
    : list ReverseAct :=
  let host_port := trim_http tracker_url in
  RDialled host_port ::
  match re_connect env host_port with
  | None => []
  | Some tcp =>
      match connect_tracker pin (re_challenge env) (re_server env tcp) with
      | Err _ => []
      | Ok tls =>
          match solve_pow_bounded_from node_id (re_now env) pow_difficulty (re_start env) with
          | None => []
          | Some nonce =>
              match reverse_registration (tls_export tls) identity token (re_now env) nonce (tls_conn tls) with
              | (_, Err _) => []
              | (stream, Ok _) => RHandedOver :: (serve_reverse config env stream).2
              end
          end
      end
  end.

(** ** What a worker may do *)
Definition exit_act (config : GuardConfig) (env : ReverseEnv) (a : ReverseAct) : Prop :=
  match a with
  | RExit ip => gc_allow_open_socks5 config = true /\ (gc_allow_private_exit config = false -> public_ip ip = true)
  | RForwarded => gc_allow_open_socks5 config = true /\ exists ip, re_exit env ip = ExitPolicy.Connected /\ (gc_allow_private_exit config = false -> public_ip ip = true)
  | _ => True
  end.

Lemma serve_reverse_confined config env stream :
  (forall addrs, re_dns env = Some (Some addrs) -> Forall ip_wf addrs) -> gc_allow_private_exit config = false ->
  Forall (exit_act config env) (serve_reverse config env stream).2.
Proof.
  intros Hdns Hpriv. unfold serve_reverse. destruct (head (cn_in stream)) as [b|]; [|constructor]. destruct (negb (b =? 5)); [by repeat constructor|].
  destruct (gc_allow_open_socks5 config) eqn:Hopen; cbn [negb]; [|constructor]. destruct (read_socks5_request stream) as [c [[host port]|]]; [|constructor].
    pose proof (resolve_and_connect_sound unicode_lowercase (ExitPolicy_new false) host port (re_dns env) (re_exit env) eq_refl Hdns) as Hr. rewrite Hpriv.
    destruct (resolve_and_connect _ _ _ _ _ _) as [tried r]. destruct Hr as (Hpub & Hok & _). rewrite Forall_forall in Hpub.
    assert (Hall : Forall (exit_act config env) (RExit <$> tried)).
    { apply Forall_fmap, Forall_forall. intros ip Hip. cbn. rewrite Hopen. auto. }
    destruct r as [ip|e]; [|exact Hall]. destruct (Hok ip eq_refl) as [Hin Hcon]. destruct (send_socks5_reply 0 c) as [c' []]; [|exact Hall].
    apply Forall_app. split; [exact Hall|]. destruct (re_flush env); [|constructor]. constructor; [|constructor]. cbn. rewrite Hopen. eauto.
Qed.

(** A reverse relay serves nobody before the tracker proved its pinned
    identity, took the relay's registration and announced a client; until then
    it has dialled the tracker and nothing else. It opens connections for a
    plain proxy request only if that was enabled, and then, unless private
    networks are allowed, to public addresses only. *)
Theorem reverse_relay_confined (config : GuardConfig) (pow_difficulty : Z) (identity : HybridSigningKey) (tracker_url node_id pin token : bytes) (env : ReverseEnv)
    (a : ReverseAct) :
  (forall addrs, re_dns env = Some (Some addrs) -> Forall ip_wf addrs) -> gc_allow_private_exit config = false ->
  a ∈ reverse_turn config pow_difficulty identity tracker_url node_id pin token env ->
  a = RDialled (trim_http tracker_url) \/
  (exit_act config env a /\
   exists tcp tls nonce stream, re_connect env (trim_http tracker_url) = Some tcp /\ connect_tracker pin (re_challenge env) (re_server env tcp) = Ok tls /\
     solve_pow_bounded_from node_id (re_now env) pow_difficulty (re_start env) = Some nonce /\
     reverse_registration (tls_export tls) identity token (re_now env) nonce (tls_conn tls) = (stream, Ok tt)).
Proof.
  intros Hdns Hpriv. unfold reverse_turn. intros [->|Hin]%elem_of_cons; [by left|]. right. destruct (re_connect env _) as [tcp|] eqn:Hc; [|by apply elem_of_nil in Hin].
  destruct (connect_tracker _ _ _) as [tls|] eqn:Ht; [|by apply elem_of_nil in Hin]. destruct (solve_pow_bounded_from _ _ _ _) as [nonce|]; [|by apply elem_of_nil in Hin].
  destruct (reverse_registration _ _ _ _ _ _) as [stream [[]|]] eqn:Hr; [|by apply elem_of_nil in Hin]. split; [|by exists tcp, tls, nonce, stream].
  apply elem_of_cons in Hin as [->|Hin]; [done|]. pose proof (serve_reverse_confined config env stream Hdns Hpriv) as Hall. rewrite Forall_forall in Hall. by apply Hall.
Qed.

End Reverse.

(** ** Witness *)
#[local] Existing Instances toy_identity toy_link toy_hex.

(** The tracker does not answer. *)
Definition toy_reverse_env : ReverseEnv :=
  mkReverseEnv (fun _ => None) (fun _ => mkTlsServer [] [] 0 (Err (mkIoError UnexpectedEof "eof"))) [] 1000 7 true None (fun _ => ExitPolicy.Connected).

Lemma reverse_relay_confined_witness :
  reverse_turn id (toy_config false false true []) 0 toy_signer (str "http://198.51.100.7:9070") [] [] [] toy_reverse_env = [RDialled (str "198.51.100.7:9070")] /\
  forall a, a ∈ reverse_turn id (toy_config false false true []) 0 toy_signer (str "http://198.51.100.7:9070") [] [] [] toy_reverse_env ->
    a = RDialled (trim_http (str "http://198.51.100.7:9070")).
Proof.
  split; [vm_compute; reflexivity|]. intros a Ha.
  destruct (reverse_relay_confined id (toy_config false false true []) 0 toy_signer (str "http://198.51.100.7:9070") [] [] [] toy_reverse_env a) as [E|(_ & tcp & _ & _ & _ & Hc & _)];
    [discriminate|reflexivity|exact Ha|exact E|discriminate Hc].
Defined.
