(* ===== verification/Morph.v ===== *)
(** * Morphing of plain streams (src/morphing/obfuscator.rs, padding.rs, chaos.rs, rmt.rs)

    The copier that carries a client's bytes to the chain of proxies and back
    in shards of varying size, as steps of its two directions in any order, and
    the length-prefixed padding of packets. Delays are time passing between
    steps. *)
From S2P Require Import Prelude Storage Float.

(** ** Engines *)
Record LorenzState := mkLorenz { lo_x : spec_float; lo_y : spec_float; lo_z : spec_float; lo_sigma : spec_float; lo_rho : spec_float; lo_beta : spec_float; lo_dt : spec_float }.

Definition lorenz_new (sigma rho beta dt : spec_float) : LorenzState := mkLorenz (f64_of 1) (f64_of 1) (f64_of 1) sigma rho beta dt.

Definition lorenz_step (s : LorenzState) : LorenzState :=
  let dx := f64_mul (lo_sigma s) (f64_sub (lo_y s) (lo_x s)) in
  let dy := f64_sub (f64_mul (lo_x s) (f64_sub (lo_rho s) (lo_z s))) (lo_y s) in
  let dz := f64_sub (f64_mul (lo_x s) (lo_y s)) (f64_mul (lo_beta s) (lo_z s)) in
  mkLorenz (f64_add (lo_x s) (f64_mul dx (lo_dt s))) (f64_add (lo_y s) (f64_mul dy (lo_dt s))) (f64_add (lo_z s) (f64_mul dz (lo_dt s)))
    (lo_sigma s) (lo_rho s) (lo_beta s) (lo_dt s).

Definition f64_clamp (f lo hi : spec_float) : spec_float :=
  let f := if SFltb f lo then lo else f in if SFltb hi f then hi else f.

(** [as usize]: towards zero, saturating, zero for what is not a number. *)
Definition f64_as_usize (f : spec_float) : Z :=
  match f with
  | S754_finite false m e => Z.min u64_MAX (if 0 <=? e then Z.pos m * 2 ^ e else Z.pos m / 2 ^ (- e))
  | S754_infinity false => u64_MAX
  | _ => 0
  end.

Definition sample_shard_size (s : LorenzState) (max_buffer_len : Z) : LorenzState * Z :=
  if max_buffer_len <=? 50 then (s, max_buffer_len)
  else
    let s := lorenz_step s in
    let normalized_x := f64_clamp (f64_div (f64_add (lo_x s) (f64_of 20)) (f64_of 40)) (f64_of 0) (f64_of 1) in
    (s, f64_as_usize (f64_add (f64_of 50) (f64_mul normalized_x (f64_of (Z.min 1500 max_buffer_len - 50))))).

(** [next_chunk_size] of a sampled spacing, scaled and cast. *)
Definition next_chunk_size (size : Z) : Z := Z.max 16 (Z.min 4096 size).

(** What the engines draw for sizes; those that only draw delays have no state. *)
Inductive JitterEngine := Poisson | Chaos (s : LorenzState) | Rmt | Adversarial.

(** [gen_range(lo..=hi)]. *)
Definition uniform (lo hi draw : Z) : Z := lo + draw mod (hi - lo + 1).

Definition shard_len (j : JitterEngine) (len draw : Z) : JitterEngine * Z :=
  match j with
  | Poisson => (j, if len <=? 50 then len else uniform 50 (Z.min len 1500) draw)
  | Chaos s => let '(s, n) := sample_shard_size s len in (Chaos s, n)
  | Rmt => (j, Z.min (next_chunk_size draw) len)
  | Adversarial => (j, if len <=? 64 then len else uniform 64 (Z.min len 2048) draw)
  end.

(** The delay of a shard steps the attractor too. *)
Definition after_delay (j : JitterEngine) : JitterEngine := match j with Chaos s => Chaos (lorenz_step s) | _ => j end.

(** ** One direction *)
Record Direction := mkDirection {
  di_data : bytes;              (* what is left of the last read *)
  di_out : bytes;               (* what the other side was sent *)
  di_transferred : Z;
  di_done : bool;               (* the writer was shut down *)
}.

Definition direction_init : Direction := mkDirection [] [] 0 false.

(** [read] returned: nothing at the end of the stream. *)
Definition direction_read (d : Direction) (r : option bytes) : option Direction :=
  if di_done d || negb (bool_decide (di_data d = [])) then None
  else
    match r with
    | Some (b :: l) => if (length (b :: l) <=? 32768)%nat then Some (mkDirection (b :: l) (di_out d) (di_transferred d) false) else None
    | _ => Some (mkDirection [] (di_out d) (di_transferred d) true)
    end.

(** One turn of the inner loop. A write that fails, after some bytes of the
    shard, leaves the inner loop only. *)
Definition direction_write (j : JitterEngine) (d : Direction) (draw : Z) (failed : option nat) : option (JitterEngine * Direction) :=
  if bool_decide (di_data d = []) then None
  else
    let '(j, n) := shard_len j (Z.of_nat (length (di_data d))) draw in
    let k := Nat.min (Z.to_nat n) (length (di_data d)) in
    let chunk := take k (di_data d) in
    Some (after_delay j,
          match failed with
          | None => mkDirection (drop k (di_data d)) (di_out d ++ chunk) (di_transferred d + Z.of_nat (length chunk)) false
          | Some m => mkDirection [] (di_out d ++ take m chunk) (di_transferred d) false
          end).

(** ** Both directions *)
Inductive Side := AToB | BToA.

Inductive MorphResult := Copying | Transferred (a_to_b b_to_a : Z) | Aborted.

Record Morph := mkMorph { mo_engine : JitterEngine; mo_a : Direction; mo_b : Direction; mo_result : MorphResult }.

Inductive MorphEvent :=
| MRead (s : Side) (r : option bytes)
| MWrite (s : Side) (draw : Z) (failed : option nat)
| MTripped.                      (* the kill switch's change is seen *)

Definition side (m : Morph) (s : Side) : Direction := match s with AToB => mo_a m | BToA => mo_b m end.

Definition set_side (m : Morph) (j : JitterEngine) (s : Side) (d : Direction) : Morph :=
  let a := match s with AToB => d | BToA => mo_a m end in
  let b := match s with AToB => mo_b m | BToA => d end in
  mkMorph j a b (if di_done a && di_done b then Transferred (di_transferred a) (di_transferred b) else Copying).

(** [tripped] is the kill switch when the copier is entered. *)
Definition morph_init (j : JitterEngine) (tripped : bool) : Morph := mkMorph j direction_init direction_init (if tripped then Aborted else Copying).

Definition morph_step (guarded : bool) (m : Morph) (e : MorphEvent) : option Morph :=
  match mo_result m with
  | Copying =>
      match e with
      | MRead s r => d ← direction_read (side m s) r; Some (set_side m (mo_engine m) s d)
      | MWrite s draw failed => '(j, d) ← direction_write (mo_engine m) (side m s) draw failed; Some (set_side m j s d)
      | MTripped => if guarded then Some (mkMorph (mo_engine m) (mo_a m) (mo_b m) Aborted) else None
      end
  | _ => None
  end.

Fixpoint morph_run (guarded : bool) (m : Morph) (es : list MorphEvent) : option Morph :=
  match es with [] => Some m | e :: es => m' ← morph_step guarded m e; morph_run guarded m' es end.

(** ** Packets *)
Definition PacketPadder_new (block_size : Z) : Z := if block_size =? 0 then 512 else block_size.

Definition pad (block_size : Z) (data : bytes) : bytes :=
  let original_len := Z.of_nat (length data) in
  let total_needed := original_len + 4 in
  let padding_needed := (block_size - total_needed mod block_size) mod block_size in
  be_bytes 4 (original_len mod 2 ^ 32) ++ data ++ replicate (Z.to_nat padding_needed) 0.

Definition unpad (padded : bytes) : result string bytes :=
  if (length padded <? 4)%nat then Err "Buffer too short for length prefix"%string
  else
    let len := Z.to_nat (from_be (take 4 padded)) in
    if (length padded <? 4 + len)%nat then Err "Corrupted padding frame: payload truncated"%string else Ok (take len (drop 4 padded)).

(** ** Theorems *)

(** What a direction was given to read, in order. *)
Definition side_eqb (s t : Side) : bool := match s, t with AToB, AToB | BToA, BToA => true | _, _ => false end.

Definition read_by (s : Side) (e : MorphEvent) : bytes := match e with MRead t (Some l) => if side_eqb s t then l else [] | _ => [] end.
Definition reads (s : Side) (es : list MorphEvent) : bytes := concat (read_by s <$> es).

Definition writes_ok (e : MorphEvent) : Prop := match e with MWrite _ _ (Some _) => False | _ => True end.
Definition is_write (s : Side) (e : MorphEvent) : bool := match e with MWrite t _ _ => side_eqb s t | _ => false end.

(** One step, seen from one direction. *)
Lemma morph_step_side guarded m e m' s :
  morph_step guarded m e = Some m' ->
  (read_by s e = [] /\ is_write s e = false /\ side m' s = side m s) \/
  (exists r, e = MRead s r /\ direction_read (side m s) r = Some (side m' s) /\ mo_engine m' = mo_engine m) \/
  (exists draw failed, e = MWrite s draw failed /\ direction_write (mo_engine m) (side m s) draw failed = Some (mo_engine m', side m' s)).
Proof.
  unfold morph_step. destruct (mo_result m); [|done..]. destruct e as [t r|t draw failed|].
  - destruct (direction_read (side m t) r) as [d|] eqn:Hd; [|done]. intros [= <-]. destruct s, t; cbn in *.
    1,4: right; left; exists r; by rewrite Hd. all: left; by destruct r.
  - destruct (direction_write _ _ _ _) as [[j d]|] eqn:Hd; [|done]. intros [= <-]. destruct s, t; cbn in *.
    1,4: right; right; exists draw, failed; by rewrite Hd. all: by left.
  - destruct guarded; [|done]. intros [= <-]. left. by destruct s.
Qed.

Lemma direction_read_inv d r d' :
  direction_read d r = Some d' -> di_data d = [] /\ di_data d' = default [] r /\ di_out d' = di_out d /\ di_transferred d' = di_transferred d.
Proof.
  unfold direction_read. destruct (di_done d || _) eqn:Hb; [done|]. apply orb_false_iff in Hb as [_ Hb%negb_false_iff%bool_decide_eq_true].
  destruct r as [[|b l]|]; [by intros [= <-]| |by intros [= <-]]. destruct (_ <=? _)%nat; [|done]. by intros [= <-].
Qed.

(** A direction that has sent, in order, what it took from its reader. *)
Definition faithful (d : Direction) (l : bytes) : Prop := l = di_out d ++ di_data d /\ di_transferred d = Z.of_nat (length (di_out d)).

Lemma step_faithful guarded m e m' s l :
  morph_step guarded m e = Some m' -> writes_ok e -> faithful (side m s) l -> faithful (side m' s) (l ++ read_by s e).
Proof.
  intros Hs Hok [Hl Ht]. destruct (morph_step_side _ _ _ _ s Hs) as [(-> & _ & ->)|[(r & -> & Hr & _)|(draw & [k|] & -> & Hw)]]; [by rewrite app_nil_r| |done|].
  - destruct (direction_read_inv _ _ _ Hr) as (Hd & Hd' & Ho & Htr). assert (read_by s (MRead s r) = default [] r) as -> by (by destruct s, r).
    unfold faithful. rewrite Hd', Ho, Htr, Hl, Hd, app_nil_r. done.
  - unfold direction_write in Hw. destruct (bool_decide _); [done|]. destruct (shard_len _ _ _) as [j n]. injection Hw as _ <-. cbn [read_by]. unfold faithful.
    cbn [di_data di_out di_transferred]. rewrite app_nil_r, <- app_assoc, take_drop, length_app. split; [done|lia].
Qed.

Lemma run_faithful guarded m es m' s l :
  morph_run guarded m es = Some m' -> Forall writes_ok es -> faithful (side m s) l -> faithful (side m' s) (l ++ reads s es).
Proof.
  revert m l. induction es as [|e es IH]; intros m l; cbn [morph_run]; [intros [= <-]; by rewrite app_nil_r|].
  destruct (morph_step guarded m e) as [m1|] eqn:Hs; [|done]. cbn [mbind option_bind]. intros Hr [He Hes]%Forall_cons Hf.
  unfold reads. cbn [fmap list_fmap concat]. rewrite app_assoc. eapply IH; [exact Hr|exact Hes|by eapply step_faithful].
Qed.

(** The result of a copier that is over. *)
Definition result_ok (m : Morph) : Prop :=
  forall x y, mo_result m = Transferred x y ->
    x = di_transferred (mo_a m) /\ y = di_transferred (mo_b m) /\ di_done (mo_a m) = true /\ di_done (mo_b m) = true.

Definition done_empty (d : Direction) : Prop := di_done d = true -> di_data d = [].

Lemma step_done guarded m e m' s : morph_step guarded m e = Some m' -> done_empty (side m s) -> done_empty (side m' s).
Proof.
  intros Hs Hd. destruct (morph_step_side _ _ _ _ s Hs) as [(_ & _ & ->)|[(r & -> & Hr & _)|(draw & failed & -> & Hw)]]; [done| |].
  - unfold direction_read in Hr. destruct (di_done _ || _); [done|]. destruct r as [[|b l]|]; [by injection Hr as <-| |by injection Hr as <-].
    destruct (_ <=? _)%nat; [|done]. by injection Hr as <-.
  - unfold direction_write in Hw. destruct (bool_decide _); [done|]. destruct (shard_len _ _ _). injection Hw as _ <-. by destruct failed.
Qed.

Lemma step_result guarded m e m' : morph_step guarded m e = Some m' -> result_ok m'.
Proof.
  unfold morph_step. destruct (mo_result m); [|done..].
  assert (Hset : forall j s d, result_ok (set_side m j s d)).
  { intros j s d x y. cbn. destruct (di_done _ && di_done _) eqn:E; [|done]. apply andb_true_iff in E as [? ?]. by intros [= <- <-]. }
  destruct e as [t r|t draw failed|].
  - destruct (direction_read _ _) as [d|]; [|done]. intros [= <-]. apply Hset.
  - destruct (direction_write _ _ _ _) as [[j d]|]; [|done]. intros [= <-]. apply Hset.
  - destruct guarded; [|done]. by intros [= <-].
Qed.

Lemma run_results guarded m es m' :
  morph_run guarded m es = Some m' -> result_ok m -> (forall s, done_empty (side m s)) -> result_ok m' /\ forall s, done_empty (side m' s).
Proof.
  revert m. induction es as [|e es IH]; intros m; cbn [morph_run]; [by intros [= <-]|].
  destruct (morph_step guarded m e) as [m1|] eqn:Hs; [|done]. cbn [mbind option_bind]. intros Hr _ Hd.
  apply (IH _ Hr); [by eapply step_result|intros s; by eapply step_done].
Qed.

(** Morphing loses, adds and reorders nothing. However the two directions
    interleave and whatever the engine draws, as long as writes succeed each
    side has been sent exactly the bytes its peer produced but for a pending
    rest; when both directions have ended nothing is pending, and the two
    numbers reported are the bytes carried. *)
Theorem morph_delivers (guarded tripped : bool) (j : JitterEngine) (es : list MorphEvent) (m : Morph) :
  morph_run guarded (morph_init j tripped) es = Some m -> Forall writes_ok es ->
  (forall s, reads s es = di_out (side m s) ++ di_data (side m s)) /\
  (forall x y, mo_result m = Transferred x y ->
     di_out (mo_a m) = reads AToB es /\ di_out (mo_b m) = reads BToA es /\ x = Z.of_nat (length (reads AToB es)) /\ y = Z.of_nat (length (reads BToA es))) /\
  (tripped = true -> es = []).
Proof.
  intros Hr Hok. assert (Hf : forall s, faithful (side m s) (reads s es)).
  { intros s. apply (run_faithful _ _ _ _ s [] Hr Hok). by destruct s. }
  assert (Hres : result_ok m /\ forall s, done_empty (side m s)).
  { eapply run_results; [exact Hr| |by intros []]. unfold result_ok. cbn. by destruct tripped. }
  destruct Hres as [Hres Hd]. split_and!.
  - intros s. apply Hf.
  - intros x y (-> & -> & Ha & Hb)%Hres. destruct (Hf AToB) as [Ea Ta], (Hf BToA) as [Eb Tb].
    pose proof (Hd AToB Ha) as Da. pose proof (Hd BToA Hb) as Db. cbn [side] in *. rewrite Da, app_nil_r in Ea. rewrite Db, app_nil_r in Eb. by rewrite Ea, Eb.
  - intros ->. destruct es; [done|]. cbn in Hr. done.
Qed.

(** ** Shards *)
Definition measured (j : JitterEngine) : Prop := match j with Chaos _ => False | _ => True end.

Lemma shard_bounds j len draw :
  measured j -> 0 < len -> 0 <= draw -> measured (shard_len j len draw).1 /\ 1 <= (shard_len j len draw).2 <= 4096.
Proof.
  intros Hm Hl Hd. destruct j as [|s| |]; cbn [shard_len fst snd]; [|done| |]; (split; [done|]).
  - destruct (Z.leb_spec len 50); [lia|]. unfold uniform. pose proof (Z.mod_pos_bound draw (Z.min len 1500 - 50 + 1)). lia.
  - unfold next_chunk_size. lia.
  - destruct (Z.leb_spec len 64); [lia|]. unfold uniform. pose proof (Z.mod_pos_bound draw (Z.min len 2048 - 64 + 1)). lia.
Qed.

Definition draws_ok (e : MorphEvent) : Prop := match e with MWrite _ draw _ => 0 <= draw | _ => True end.

Lemma write_shrinks j d draw failed j' d' :
  measured j -> 0 <= draw -> direction_write j d draw failed = Some (j', d') -> measured j' /\ (length (di_data d') < length (di_data d))%nat.
Proof.
  intros Hm Hd. unfold direction_write. case_bool_decide as Hne; [done|]. assert (Hl : (0 < length (di_data d))%nat) by (destruct (di_data d); [done|cbn; lia]).
  destruct (shard_bounds j (Z.of_nat (length (di_data d))) draw Hm ltac:(lia) Hd) as [Hm' Hn]. destruct (shard_len _ _ _) as [j1 n]. cbn [fst snd] in *.
  intros [= <- <-]. split; [by destruct j1|]. destruct failed; cbn [di_data length]; [done|]. rewrite length_drop. lia.
Qed.

Definition writes (s : Side) (es : list MorphEvent) : nat := length (filter (fun e => is_write s e = true) es).

Lemma run_writes guarded m es m' s :
  morph_run guarded m es = Some m' -> Forall draws_ok es -> measured (mo_engine m) ->
  (writes s es + length (di_data (side m' s)) <= length (di_data (side m s)) + length (reads s es))%nat.
Proof.
  revert m. induction es as [|e es IH]; intros m; cbn [morph_run]; [intros [= <-]; cbn; lia|].
  destruct (morph_step guarded m e) as [m1|] eqn:Hs; [|done]. cbn [mbind option_bind]. intros Hr [He Hes]%Forall_cons Hm.
  assert (Hm1 : measured (mo_engine m1)).
  { revert Hs. unfold morph_step. destruct (mo_result m); [|done..]. destruct e as [t r|t draw failed|].
    - destruct (direction_read _ _); [|done]. by intros [= <-].
    - destruct (direction_write _ _ _ _) as [[j d]|] eqn:Hw; [|done]. intros [= <-]. by apply write_shrinks in Hw as [? _].
    - destruct guarded; [|done]. by intros [= <-]. }
  specialize (IH _ Hr Hes Hm1). unfold reads, writes in *. cbn [fmap list_fmap concat]. rewrite filter_cons, length_app.
  destruct (morph_step_side _ _ _ _ s Hs) as [(-> & -> & <-)|[(r & -> & Hx & _)|(draw & failed & -> & Hw)]].
  - rewrite decide_False by done. cbn [length]. lia.
  - rewrite decide_False by (by destruct s). destruct (direction_read_inv _ _ _ Hx) as (-> & Hd' & _). rewrite Hd' in IH.
    assert (read_by s (MRead s r) = default [] r) as -> by (by destruct s, r). cbn [length]. lia.
  - rewrite decide_True by (by destruct s). destruct (write_shrinks _ _ _ _ _ _ Hm He Hw) as [_ ?]. cbn [length]. lia.
Qed.

(** The shards of one read run out. With every engine but the attractor,
    whatever it draws and whether or not writes fail, a direction makes at most
    one write for each byte it has read, of at most 4096 bytes: the inner loop
    cannot spin. *)
Theorem morph_shards_run_out (guarded tripped : bool) (j : JitterEngine) (es : list MorphEvent) (m : Morph) (s : Side) :
  measured j -> Forall draws_ok es -> morph_run guarded (morph_init j tripped) es = Some m ->
  (writes s es + length (di_data (side m s)) <= length (reads s es))%nat /\
  forall len draw, 0 < len -> 0 <= draw -> 1 <= (shard_len j len draw).2 <= 4096.
Proof.
  intros Hm Hd Hr. split; [|intros len draw ? ?; by apply shard_bounds]. pose proof (run_writes _ _ _ _ s Hr Hd Hm) as Hw. by destruct s.
Qed.

(** A failed write does not end its direction. The [break] that follows it
    leaves the loop over the shards and not the one over the reads, so the
    direction goes on reading, and if a later write succeeds, what the peer is
    sent has a hole in it. *)
Theorem morph_goes_on_after_failure (j : JitterEngine) (guarded : bool) :
  exists es m, morph_run guarded (morph_init j false) es = Some m /\ mo_result m = Copying /\ di_done (mo_a m) = false /\
    ~ (exists rest, reads AToB es = di_out (mo_a m) ++ rest) /\ di_out (mo_a m) <> [].
Proof.
  set (es := [MRead AToB (Some [1]); MWrite AToB 1 (Some 0%nat); MRead AToB (Some [2]); MWrite AToB 1 None]).
  assert (H1 : exists m, morph_run guarded (morph_init j false) es = Some m /\ mo_result m = Copying /\ di_done (mo_a m) = false /\ di_out (mo_a m) = [2]).
  { destruct j; eexists; (split; [reflexivity|by split_and!]). }
  destruct H1 as (m & Hr & Hres & Hd & Ho). exists es, m. split_and!; [done..| |by rewrite Ho]. rewrite Ho. intros [rest E]. discriminate E.
Qed.

(** Padding is exact and uniform. For every packet shorter than 2^32 bytes
    and every block size, what is padded is a whole number of blocks, the least
    that holds the packet and its length, and unpadding gives the packet back. *)
Theorem padding_roundtrip (block_size : Z) (data : bytes) :
  0 <= block_size -> Z.of_nat (length data) < 2 ^ 32 ->
  let b := PacketPadder_new block_size in
  unpad (pad b data) = Ok data /\ Z.of_nat (length (pad b data)) mod b = 0 /\
  Z.of_nat (length data) + 4 <= Z.of_nat (length (pad b data)) < Z.of_nat (length data) + 4 + b.
Proof.
  intros Hb Hl b. assert (Hpos : 0 < b) by (unfold b, PacketPadder_new; destruct (Z.eqb_spec block_size 0); lia). clearbody b.
  set (total := Z.of_nat (length data) + 4). pose proof (Z.mod_pos_bound total b Hpos) as Ht. pose proof (Z.mod_pos_bound (b - total mod b) b Hpos) as Hp.
  assert (Hlen : Z.of_nat (length (pad b data)) = total + (b - total mod b) mod b).
  { unfold pad. rewrite !length_app, be_bytes_length, length_replicate. fold total. lia. }
  split_and!; [| |lia|lia].
  - assert (Htake : take 4 (pad b data) = be_bytes 4 (Z.of_nat (length data))).
    { unfold pad. rewrite (Z.mod_small (Z.of_nat (length data))) by lia. by rewrite take_app_length' by (by rewrite be_bytes_length). }
    unfold unpad. rewrite (proj2 (Nat.ltb_ge _ _)) by lia. cbv zeta. rewrite Htake, from_be_be_bytes, Nat2Z.id by lia. rewrite (proj2 (Nat.ltb_ge _ _)) by lia.
    unfold pad. rewrite drop_app_length' by (by rewrite be_bytes_length). by rewrite take_app_length.
  - rewrite Hlen. rewrite (Z.div_mod total b) at 1 by lia. destruct (Z.eq_dec (total mod b) 0) as [E|E].
    + rewrite E, Z.sub_0_r, Z_mod_same_full, !Z.add_0_r, Z.mul_comm. apply Z.mod_mul; lia.
    + rewrite (Z.mod_small (b - total mod b)) by lia. replace (b * (total / b) + total mod b + (b - total mod b)) with ((total / b + 1) * b) by lia. apply Z.mod_mul; lia.
Qed.

(** ** Witnesses *)
Lemma morph_delivers_witness :
  let es := [MRead AToB (Some (replicate 60 1)); MRead BToA (Some [5]); MWrite AToB 3 None; MWrite BToA 0 None; MWrite AToB 0 None; MRead AToB None; MRead BToA (Some [])] in
  exists m, morph_run true (morph_init Poisson false) es = Some m /\ mo_result m = Transferred 60 1 /\ di_out (mo_a m) = replicate 60 1.
Proof.
  intros es. destruct (morph_run true (morph_init Poisson false) es) as [m|] eqn:Hr; [|vm_compute in Hr; discriminate Hr]. exists m. split; [reflexivity|].
  assert (Ht : mo_result m = Transferred 60 1) by (vm_compute in Hr; injection Hr as <-; reflexivity). split; [exact Ht|].
  destruct (morph_delivers true false Poisson es m Hr) as (_ & Hd & _); [repeat constructor|]. apply (Hd 60 1 Ht).
Defined.

Lemma morph_shards_run_out_witness :
  let es := [MRead AToB (Some (replicate 60 1)); MWrite AToB 3 None; MWrite AToB 0 None] in
  exists m, morph_run false (morph_init Rmt false) es = Some m /\ (writes AToB es <= 60)%nat.
Proof.
  intros es. destruct (morph_run false (morph_init Rmt false) es) as [m|] eqn:Hr; [|vm_compute in Hr; discriminate Hr]. exists m. split; [reflexivity|].
  destruct (morph_shards_run_out false false Rmt es m AToB) as [Hw _]; [exact I|repeat constructor; discriminate|exact Hr|]. change (length (reads AToB es)) with 60%nat in Hw. lia.
Defined.

Lemma padding_roundtrip_witness : unpad (pad (PacketPadder_new 0) [1; 2; 3]) = Ok [1; 2; 3].
Proof. apply (padding_roundtrip 0 [1; 2; 3]); [discriminate|reflexivity]. Defined.
