(* ===== verification/Netns.v ===== *)
(** * Application isolation (src/kernel/netns.rs)

    The namespace the protected applications run in: the checks on its
    configuration, the text of its packet filter, and how it is set up. The
    system's answers are an environment; what was done is a list in order. *)
From S2P Require Import Prelude Text Net ExitPolicy Consensus Node Pool Bridge.

Record NetnsConfig := mkNetnsConfig { namespace_name : bytes; authorized_proxy_ip : bytes; authorized_proxy_port : Z }.

Definition name_byte (b : Z) : bool := is_lower b || is_upper b || is_digit b || (b =? 45) || (b =? 95).

Definition netns_validate (self : NetnsConfig) : result string IpAddr :=
  if bool_decide (namespace_name self = []) || (40 <? length (namespace_name self))%nat || negb (forallb name_byte (namespace_name self))
  then Err "Invalid network namespace name"%string
  else
    match parse_ip (authorized_proxy_ip self) with
    | None => Err "Invalid proxy IP"%string
    | Some ip => if negb (is_loopback ip) || (authorized_proxy_port self =? 0) then Err "Namespace proxy must be a loopback endpoint"%string else Ok ip
    end.

(** The two accepting lines of a chain on interface [interface]. *)
Definition chain_lines (interface family ip port : bytes) : bytes :=
  str "  " ++ interface ++ str " " ++ [34] ++ str "lo" ++ [34] ++ str " " ++ family ++ str " daddr " ++ ip ++ str " tcp dport " ++ port ++ str " accept" ++ [10] ++
  str "  " ++ interface ++ str " " ++ [34] ++ str "lo" ++ [34] ++ str " " ++ family ++ str " saddr " ++ ip ++ str " tcp sport " ++ port ++ str " ct state established accept" ++ [10].

Definition generate_nftables_rules (self : NetnsConfig) : result string bytes :=
  let? ip := netns_validate self in
  let family := match ip with V4 _ => str "ip" | V6 _ => str "ip6" end in
  let lines interface := chain_lines interface family (display_ip ip) (display_dec (authorized_proxy_port self)) in
  Ok (str "table inet anonguard_filter {" ++ [10] ++
      str " chain output {" ++ [10] ++ str "  type filter hook output priority 0; policy drop;" ++ [10] ++ lines (str "oifname") ++ str " }" ++ [10] ++
      str " chain input {" ++ [10] ++ str "  type filter hook input priority 0; policy drop;" ++ [10] ++ lines (str "iifname") ++ str " }" ++ [10] ++
      str "}" ++ [10]).

(** How the calls to the system end. *)
Record IsolationEnv := mkIsolationEnv {
  ie_parent : bool;          (* the socket path has a parent, which is made *)
  ie_bind : bool;
  ie_permissions : bool;
  ie_add : bool;             (* [ip netns add] *)
  ie_nft : bool;             (* nft runs in the namespace, reads the rules and accepts them *)
  ie_up : bool;              (* [ip -n .. link set lo up] *)
  ie_helper : bool;
}.

Inductive IsolationAct := SocketBound | NamespaceAdded | RulesLoaded (rules : bytes) | LoopbackUp | HelperRuns (endpoint : SocketAddr) | SocketRemoved.

Definition apply_nftables_rules (env : IsolationEnv) (self : NetnsConfig) : list IsolationAct * result string unit :=
  match generate_nftables_rules self with
  | Err e => ([], Err e)
  | Ok rules =>
      if negb (ie_add env) then ([], Err "Network namespace operation failed"%string)
      else if negb (ie_nft env) then ([NamespaceAdded], Err "Namespace nftables installation failed"%string)
      else if negb (ie_up env) then ([NamespaceAdded; RulesLoaded rules], Err "Network namespace operation failed"%string)
      else ([NamespaceAdded; RulesLoaded rules; LoopbackUp], Ok tt)
  end.

(** The bridge is spawned before the helper, and removed when that fails. *)
Definition start_isolation (env : IsolationEnv) (config : NetnsConfig) : list IsolationAct * result string unit :=
  match netns_validate config with
  | Err e => ([], Err e)
  | Ok ip =>
      if negb (ie_parent env) then ([], Err "Socket requires a parent directory"%string)
      else if negb (ie_bind env) then ([], Err "bind"%string)
      else if negb (ie_permissions env) then ([SocketBound], Err "permissions"%string)
      else
        match apply_nftables_rules env config with
        | (acts, Err e) => (SocketBound :: acts, Err e)
        | (acts, Ok _) =>
            if ie_helper env then (SocketBound :: acts ++ [HelperRuns (mkSocketAddr ip (authorized_proxy_port config))], Ok tt)
            else (SocketBound :: acts ++ [SocketRemoved], Err "spawn"%string)
        end
  end.

(** ** What isolation gives *)
Lemma netns_validate_ok config ip :
  netns_validate config = Ok ip -> parse_ip (authorized_proxy_ip config) = Some ip /\ is_loopback ip = true /\ authorized_proxy_port config <> 0.
Proof.
  unfold netns_validate. refused Hn. destruct (parse_ip _) as [i|]; [|done]. refused Hl. intros [= <-]. apply orb_false_iff in Hl as [Hl Hp].
  split_and!; [done|by apply negb_false_iff|by apply Z.eqb_neq].
Qed.

Lemma start_isolation_ok env config acts :
  start_isolation env config = (acts, Ok tt) ->
  exists ip rules, parse_ip (authorized_proxy_ip config) = Some ip /\ is_loopback ip = true /\ authorized_proxy_port config <> 0 /\
    generate_nftables_rules config = Ok rules /\
    acts = [SocketBound; NamespaceAdded; RulesLoaded rules; LoopbackUp; HelperRuns (mkSocketAddr ip (authorized_proxy_port config))].
Proof.
  unfold start_isolation. destruct (netns_validate config) as [ip|] eqn:Hv; [|done]. destruct (ie_parent env); [|done]. destruct (ie_bind env); [|done].
  destruct (ie_permissions env); [|done]. cbn [negb]. unfold apply_nftables_rules. destruct (generate_nftables_rules config) as [rules|] eqn:Hg; [|done].
  destruct (ie_add env); [|done]. destruct (ie_nft env); [|done]. destruct (ie_up env); [|done]. cbn [negb]. destruct (ie_helper env); [|done].
  intros [= <-]. apply netns_validate_ok in Hv as (? & ? & ?). by exists ip, rules.
Qed.

(** A namespace is never reachable without its filter. However the calls to the
    system end, what was done is a beginning of: bind the private socket, add a
    fresh namespace, load its rules, bring its loopback up, start the helper. So
    the loopback only comes up behind the rules, and the helper only runs when
    everything before it succeeded, towards a loopback endpoint. *)
Theorem isolation_ordered (env : IsolationEnv) (config : NetnsConfig) :
  let '(acts, r) := start_isolation env config in
  exists rules endpoint,
    (r = Ok tt /\ acts = [SocketBound; NamespaceAdded; RulesLoaded rules; LoopbackUp; HelperRuns endpoint] /\
     generate_nftables_rules config = Ok rules /\ is_loopback (sa_ip endpoint) = true /\ sa_port endpoint <> 0) \/
    (r <> Ok tt /\ exists k removed, acts = take k [SocketBound; NamespaceAdded; RulesLoaded rules; LoopbackUp] ++ removed /\
     (removed = [] \/ removed = [SocketRemoved]) /\ ((3 <= k)%nat -> generate_nftables_rules config = Ok rules)).
Proof.
  pose proof (start_isolation_ok env config) as Hok. destruct (start_isolation env config) as [acts r] eqn:Hs.
  set (none := mkSocketAddr (V4 (mkIpv4 0 0 0 0)) 0). destruct r as [[]|e].
  { destruct (Hok _ eq_refl) as (ip & rules & _ & Hl & Hp & Hg & ->). exists rules, (mkSocketAddr ip (authorized_proxy_port config)). left. done. }
  clear Hok. unfold start_isolation, apply_nftables_rules in Hs.
  destruct (generate_nftables_rules config) as [rules|] eqn:Hg; [exists rules, none|exists [], none]; right; (split; [done|]).
  all: guards_in Hs.
  all: first [exists 0%nat, []; split_and!; [reflexivity|by left|lia] | exists 1%nat, []; split_and!; [reflexivity|by left|lia]
    | exists 2%nat, []; split_and!; [reflexivity|by left|lia] | exists 3%nat, []; split_and!; [reflexivity|by left|done]
    | exists 4%nat, [SocketRemoved]; split_and!; [reflexivity|by right|done]].
Qed.
