(* ===== verification/Launch.v ===== *)
(** * The daemon's start (src/main.rs)

    From the command line to a running role, on Linux: the refusals, the
    directory authorities and their pinned keys, the configuration, the
    retirement policy, the relay pool and the isolation of applications. The
    command line is modelled from the attributes of [Args] and the documented
    rules of its parser, clap 4: [clap_accepts] is which combinations pass. *)
From S2P Require Import Prelude Text Net Identity Handshake Circuit Storage Float Guard Consensus Revocation Transport ExitPolicy Link Session Node Pool Telescope Socks Tracker Bridge Directory Gateway Startup Netns.

Record Args := mkArgs {
  a_initialize_identity : bool;
  a_listen : bytes;
  a_advertise_address : option SocketAddr;
  a_pool : bool;                   (* a path is given; the files are in [LaunchEnv] *)
  a_proxy : option bytes;
  a_padded_sessions : bool;
  a_privacy_profile : option bytes;    (* [None] when the default applies *)
  a_link_cover_profile : bytes;
  a_min_hops : option Z;
  a_max_hops : option Z;
  a_jitter : bool;
  a_jitter_lambda : spec_float;
  a_chaos : bool;
  a_rmt_morphing : bool;
  a_rmt_ensemble : bytes;
  a_chaffing : bool;
  a_relay : bool;
  a_tracker : bool;
  a_authority : bool;
  a_authority_id : bytes;
  a_authorities : option bytes;
  a_authority_keys : option bytes;
  a_revocation_policy : bool;
  a_quorum_threshold : Z;
  a_onion : bool;
  a_bridge_transports : bool;
  a_protected_entry : bool;
  a_private_bridges : bool;
  a_authority_transports : bool;
  a_unlisted_bridge : bool;
  a_enforce_subnet_diversity : bool;
  a_reverse_relay : bool;
  a_tracker_key : option bytes;
  a_reverse_token_file : bool;
  a_announce : option bytes;
  a_allow_open_socks5 : bool;
  a_allow_private_exit : bool;
  a_i_know_this_is_insecure : bool;
  a_is_exit : bool;
  a_enable_firewall_killswitch : bool;
  a_namespace_name : bytes;
  a_namespace_proxy : bool;
  a_namespace_socket : bool;
  a_fetch_from : option bytes;
  a_identity_key_path : bool;
  a_strict_fail_closed : bool;
  a_status : bool;
  a_metrics_addr : bool;
}.

Definition privacy_profile (a : Args) : bytes := default (str "balanced") (a_privacy_profile a).
Definition min_hops_arg (a : Args) : Z := default 3 (a_min_hops a).
Definition max_hops_arg (a : Args) : Z := default 5 (a_max_hops a).

(** ** The command line

    The arguments that require, exclude or are required or excluded. *)
Inductive Opt :=
| OptInitializeIdentity | OptAdvertiseAddress | OptPool | OptProxy | OptPaddedSessions | OptPrivacyProfile | OptMinHops | OptMaxHops
| OptJitter | OptChaos | OptRmtMorphing | OptChaffing | OptRelay | OptTracker | OptAuthority | OptAuthorities | OptAuthorityKeys
| OptRevocationPolicy | OptOnion | OptBridgeTransports | OptProtectedEntry | OptPrivateBridges | OptAuthorityTransports | OptUnlistedBridge
| OptReverseRelay | OptTrackerKey | OptReverseTokenFile | OptAnnounce | OptAllowOpenSocks5 | OptIsExit | OptFetchFrom | OptIdentityKeyPath
| OptStrictFailClosed | OptStatus | OptMetricsAddr.

#[global] Instance Opt_eq_dec : EqDecision Opt.
Proof. solve_decision. Defined.

Definition all_opts : list Opt :=
  [OptInitializeIdentity; OptAdvertiseAddress; OptPool; OptProxy; OptPaddedSessions; OptPrivacyProfile; OptMinHops; OptMaxHops;
   OptJitter; OptChaos; OptRmtMorphing; OptChaffing; OptRelay; OptTracker; OptAuthority; OptAuthorities; OptAuthorityKeys;
   OptRevocationPolicy; OptOnion; OptBridgeTransports; OptProtectedEntry; OptPrivateBridges; OptAuthorityTransports; OptUnlistedBridge;
   OptReverseRelay; OptTrackerKey; OptReverseTokenFile; OptAnnounce; OptAllowOpenSocks5; OptIsExit; OptFetchFrom; OptIdentityKeyPath;
   OptStrictFailClosed; OptStatus; OptMetricsAddr].

Definition given {A} (o : option A) : bool := bool_decide (is_Some o).

(** Whether an argument was given on the command line, not by its default. *)
Definition present (a : Args) (o : Opt) : bool :=
  match o with
  | OptInitializeIdentity => a_initialize_identity a
  | OptAdvertiseAddress => given (a_advertise_address a)
  | OptPool => a_pool a
  | OptProxy => given (a_proxy a)
  | OptPaddedSessions => a_padded_sessions a
  | OptPrivacyProfile => given (a_privacy_profile a)
  | OptMinHops => given (a_min_hops a)
  | OptMaxHops => given (a_max_hops a)
  | OptJitter => a_jitter a
  | OptChaos => a_chaos a
  | OptRmtMorphing => a_rmt_morphing a
  | OptChaffing => a_chaffing a
  | OptRelay => a_relay a
  | OptTracker => a_tracker a
  | OptAuthority => a_authority a
  | OptAuthorities => given (a_authorities a)
  | OptAuthorityKeys => given (a_authority_keys a)
  | OptRevocationPolicy => a_revocation_policy a
  | OptOnion => a_onion a
  | OptBridgeTransports => a_bridge_transports a
  | OptProtectedEntry => a_protected_entry a
  | OptPrivateBridges => a_private_bridges a
  | OptAuthorityTransports => a_authority_transports a
  | OptUnlistedBridge => a_unlisted_bridge a
  | OptReverseRelay => a_reverse_relay a
  | OptTrackerKey => given (a_tracker_key a)
  | OptReverseTokenFile => a_reverse_token_file a
  | OptAnnounce => given (a_announce a)
  | OptAllowOpenSocks5 => a_allow_open_socks5 a
  | OptIsExit => a_is_exit a
  | OptFetchFrom => given (a_fetch_from a)
  | OptIdentityKeyPath => a_identity_key_path a
  | OptStrictFailClosed => a_strict_fail_closed a
  | OptStatus => a_status a
  | OptMetricsAddr => a_metrics_addr a
  end.

(** The attributes [requires], [requires_all]. *)
Definition requires_of (o : Opt) : list Opt :=
  match o with
  | OptInitializeIdentity => [OptIdentityKeyPath]
  | OptAdvertiseAddress => [OptRelay]
  | OptPaddedSessions | OptMinHops | OptMaxHops | OptBridgeTransports => [OptOnion]
  | OptPrivacyProfile => [OptPaddedSessions]
  | OptRevocationPolicy => [OptAuthorities]
  | OptProtectedEntry => [OptPaddedSessions; OptBridgeTransports; OptAuthorityTransports]
  | OptPrivateBridges => [OptBridgeTransports; OptAuthorityTransports]
  | OptAuthorityTransports => [OptOnion; OptAuthorities]
  | OptUnlistedBridge => [OptRelay; OptAuthorities]
  | OptReverseTokenFile => [OptReverseRelay]
  | OptAnnounce => [OptReverseRelay; OptTrackerKey; OptReverseTokenFile]
  | OptFetchFrom => [OptTrackerKey]
  | _ => []
  end.

(** The attributes [conflicts_with], [conflicts_with_all]. *)
Definition conflicts_of (o : Opt) : list Opt :=
  match o with
  | OptInitializeIdentity =>
      [OptStatus; OptRelay; OptAuthority; OptTracker; OptReverseRelay; OptOnion; OptPool; OptProxy; OptAuthorities; OptAuthorityKeys; OptMetricsAddr;
       OptStrictFailClosed]
  | OptAdvertiseAddress => [OptUnlistedBridge]
  | OptPaddedSessions => [OptRelay; OptAuthority; OptReverseRelay; OptTracker; OptJitter; OptChaos; OptRmtMorphing; OptChaffing]
  | OptRevocationPolicy =>
      [OptInitializeIdentity; OptStatus; OptTracker; OptReverseRelay; OptFetchFrom; OptAllowOpenSocks5; OptPool; OptProxy]
  | OptBridgeTransports => [OptRelay; OptAuthority; OptReverseRelay; OptInitializeIdentity; OptTracker; OptStatus]
  | OptProtectedEntry | OptPrivateBridges => [OptPool; OptProxy; OptFetchFrom]
  | OptAuthorityTransports => [OptRelay; OptAuthority; OptReverseRelay; OptInitializeIdentity; OptTracker; OptStatus; OptFetchFrom]
  | OptUnlistedBridge => [OptIsExit; OptAllowOpenSocks5; OptAnnounce; OptReverseRelay; OptAuthority; OptTracker; OptInitializeIdentity]
  | _ => []
  end.

(** A conflict declared on either side counts for both. *)
Definition clash (x y : Opt) : bool := bool_decide (y ∈ conflicts_of x) || bool_decide (x ∈ conflicts_of y).

(** Everything an argument requires, and what that requires in turn: the
    arguments still to be unrolled, those that were, and what was collected.
    Each round takes one argument off, and at most as many are put on as there
    are requirements ([unroll_complete] shows that the rounds are enough). *)
Fixpoint unroll (rounds : nat) (r_vec processed args : list Opt) : list Opt :=
  match rounds, r_vec with
  | O, _ | _, [] => args
  | S rounds, o :: r_vec =>
      if bool_decide (o ∈ processed) then unroll rounds r_vec processed args
      else unroll rounds (filter (fun r => requires_of r <> []) (requires_of o) ++ r_vec) (o :: processed) (args ++ requires_of o)
  end.

Definition unroll_arg_requires (o : Opt) : list Opt := unroll (length all_opts) [o] [] [].

Definition conflict_free (a : Args) : bool :=
  forallb (fun x => negb (present a x) || forallb (fun y => negb (present a y) || bool_decide (x = y) || negb (clash x y)) all_opts) all_opts.

(** A required argument may be missing when it clashes with one that is there. *)
Definition missing_ok (a : Args) (r : Opt) : bool := existsb (fun p => present a p && negb (bool_decide (p = r)) && clash p r) all_opts.

Definition requirements_met (a : Args) : bool :=
  forallb (fun x => negb (present a x) || forallb (fun r => present a r || missing_ok a r) (unroll_arg_requires x)) all_opts.

(** The value parsers. *)
Definition values_allowed (a : Args) : bool :=
  bool_decide (privacy_profile a ∈
    [str "balanced"; str "balanced-longtail"; str "strict"; str "fixed-window"; str "research-rmt"; str "research-poisson"])
  && bool_decide (a_link_cover_profile a ∈ [str "strict"; str "economy"])
  && in_range 3 8 (min_hops_arg a) && in_range 3 8 (max_hops_arg a).

Definition clap_accepts (a : Args) : bool := conflict_free a && requirements_met a && values_allowed a.

(** ** Directory authorities *)

(** [u8::from_str_radix] of two characters; a plus sign may come first. *)
Definition radix16_pair (x y : Z) : option Z :=
  if x =? 43 then to_digit 16 y else h ← to_digit 16 x; l ← to_digit 16 y; Some (16 * h + l).

Fixpoint decode_pairs (l : bytes) : option bytes :=
  match l with
  | [] => Some []
  | x :: y :: rest => b ← radix16_pair x y; bs ← decode_pairs rest; Some (b :: bs)
  | _ => None
  end.

Definition decode_hex_32 (s : bytes) : option bytes :=
  if negb (length s =? 64)%nat || negb (is_ascii s) then None else decode_pairs s.

Fixpoint split_once (c : Z) (l : bytes) : option (bytes * bytes) :=
  match l with
  | [] => None
  | b :: rest => if b =? c then Some ([], rest) else '(p, q) ← split_once c rest; Some (b :: p, q)
  end.

Fixpoint rsplit_once (c : Z) (l : bytes) : option (bytes * bytes) :=
  match l with
  | [] => None
  | b :: rest => match rsplit_once c rest with Some (p, q) => Some (b :: p, q) | None => if b =? c then Some ([], rest) else None end
  end.

Definition authority_key (entry : bytes) : result string (bytes * bytes) :=
  match rsplit_once 58 (trim entry) with
  | None => Err "Invalid authority key: expected id:64_HEX_KEY"%string
  | Some (id_or_addr, key_hex) =>
      let id := trim id_or_addr in
      if bool_decide (id = []) then Err "Authority key identifier must not be empty"%string
      else
        match decode_hex_32 (trim key_hex) with
        | None => Err "Invalid authority key hex"%string
        | Some b => match VerifyingKey_from_bytes b with Err _ => Err "Invalid or duplicate directory identity pin"%string | Ok vk => Ok (id, vk) end
        end
  end.

Fixpoint trust_keys (trusted : gmap bytes bytes) (entries : list bytes) : result string (gmap bytes bytes) :=
  match entries with
  | [] => Ok trusted
  | entry :: rest =>
      let? p := authority_key entry in
      if bool_decide (is_Some (trusted !! p.1)) then Err "Duplicate authority key identifier"%string
      else trust_keys (<[p.1 := p.2]> trusted) rest
  end.

Definition authority_endpoint (trusted : gmap bytes bytes) (endpoint : bytes) : result string AuthorityEndpoint :=
  match split_once 64 endpoint with
  | None => Err "Authority endpoint must be identity@address"%string
  | Some (id, addr) =>
      if bool_decide (id = []) || bool_decide (addr = []) then Err "Empty authority identity or address"%string
      else
        let addr := trim_http addr in
        match (match trusted !! id with Some key => Some key | None => trusted !! addr end) with
        | None => Err "Every authority endpoint requires a matching pinned key"%string
        | Some key => Ok (mkAuthorityEndpoint id addr key)
        end
  end.

Fixpoint bind_endpoints (trusted : gmap bytes bytes) (seen : gset bytes) (bound : gmap bytes bytes) (endpoints : list bytes)
    : result string (list AuthorityEndpoint * gmap bytes bytes) :=
  match endpoints with
  | [] => Ok ([], bound)
  | endpoint :: rest =>
      let? e := authority_endpoint trusted endpoint in
      if bool_decide (ae_public_key e ∈ seen) then Err "Authority endpoints must have distinct signing keys"%string
      else if bool_decide (is_Some (bound !! ae_identity e)) then Err "Duplicate authority endpoint identity"%string
      else
        let? r := bind_endpoints trusted ({[ae_public_key e]} ∪ seen) (<[ae_identity e := ae_public_key e]> bound) rest in
        Ok (e :: r.1, r.2)
  end.

Definition directory_authorities (a : Args) : list bytes := match a_authorities a with Some auths => trim <$> split_on 44 auths | None => [] end.

(** The endpoints and the keys by identity. *)
Definition bind_authorities (a : Args) : result string (list AuthorityEndpoint * gmap bytes bytes) :=
  let n := Z.of_nat (length (directory_authorities a)) in
  let? trusted := match a_authority_keys a with Some keys => trust_keys ∅ (split_on 44 keys) | None => Ok ∅ end in
  if 16 <? n then Err "At most 16 directory authorities are supported"%string
  else if negb (n =? 0) && (a_quorum_threshold a <? 2 * n / 3 + 1) then Err "Directory quorum must exceed two thirds of configured authorities"%string
  else if negb (n =? 0) && (Z.of_nat (size trusted) <? a_quorum_threshold a) then Err "Quorum threshold exceeds the number of trusted authority keys"%string
  else bind_endpoints trusted ∅ ∅ (directory_authorities a).

(** ** Refusals before anything is read *)
Definition check_isolation (a : Args) : result string unit :=
  if a_enable_firewall_killswitch a && (a_relay a || a_authority a || a_tracker a || a_reverse_relay a)
  then Err "Application namespace isolation is only supported in gateway mode"%string
  else
    let? _ := check_fail_closed_guarantee true (a_strict_fail_closed a) in
    if a_strict_fail_closed a && negb (a_enable_firewall_killswitch a) then Err "--strict-fail-closed requires --enable-firewall-killswitch"%string
    else Ok tt.

Definition positive_finite (f : spec_float) : bool := match f with S754_finite false _ _ => true | _ => false end.

Definition check_options (unicode_lowercase : bytes -> bytes) (a : Args) : result string unit :=
  if a_onion a && negb (given (a_authorities a)) && negb (a_pool a) && negb (given (a_proxy a))
  then Err "Onion mode requires configured directory authorities or a relay pool"%string
  else
    match parse_socket_addr (a_listen a) with
    | None => Err "Listener must be a numeric IP:port"%string
    | Some listener =>
        if negb (a_relay a) && negb (a_authority a) && negb (a_tracker a) && negb (a_reverse_relay a) && negb (is_loopback (sa_ip listener))
           && negb (a_allow_open_socks5 a)
        then Err "A public gateway listener requires explicit --allow-open-socks5 authorization"%string
        else if bool_decide (a_link_cover_profile a = str "economy") && a_padded_sessions a
                && negb (bool_decide (privacy_profile a ∈ [str "balanced"; str "balanced-longtail"]))
        then Err "Economy link cover requires the balanced session profile"%string
        else if max_hops_arg a <? min_hops_arg a then Err "--min-hops must not exceed --max-hops"%string
        else if negb (positive_finite (a_jitter_lambda a)) then Err "--jitter-lambda must be finite and positive"%string
        else if negb (bool_decide (to_lowercase unicode_lowercase (a_rmt_ensemble a) ∈ [str "goe"; str "gue"])) then Err "--rmt-ensemble must be goe or gue"%string
        else if given (a_authorities a) && (negb (given (a_authority_keys a)) || (a_quorum_threshold a =? 0))
        then Err "Directory authorities require pinned keys and a positive quorum threshold"%string
        else Ok tt
    end.

(** ** Configuration *)

(** What the start reads: files as whether they can be read and their content,
    the pin of the identity key that was loaded or created, and the state files
    of the relay pool. *)
Record LaunchEnv := mkLaunchEnv {
  le_bridges : bool * option bytes;
  le_authorities : bool * option bytes;
  le_retirement : IoEnv;
  le_identity : result string bytes;
  le_state_path : bytes;
  le_state_files : option bytes * option bytes;
  le_state_io : bool * bool;
  le_pool_file : bool * option bytes;
  le_executable : bool;               (* the path of this program is known *)
  le_isolation : IsolationEnv;
}.

Inductive Launched :=
| InitializedIdentity (pin : bytes)
| RunsNamespaceProxy (endpoint : SocketAddr)
| PrintedStatus
| RunsAuthority (config : GuardConfig) (revoked : gset bytes) (peers : list (bytes * option bytes))
| RunsTracker (pin : bytes)
| RunsReverseRelay (config : GuardConfig) (pool : ProxyPool)
| RunsGateway (config : GuardConfig) (pool : ProxyPool) (client : option PinnedDirectoryClient).

Definition of_io {A} (r : result IoError A) : result string A := match r with Ok a => Ok a | Err e => Err (io_msg e) end.

Section Launch.
Context `{IdentityPrimitives} `{HexCodec} (unicode_lowercase : bytes -> bytes) (url_parse : bytes -> option Url).
Context (parse_bindings : bytes -> option (list BridgeTransport)).
Context (parse_policy : bytes -> option RevocationPolicy) (parse_accepted : bytes -> option AcceptedPolicy) (encode_accepted : AcceptedPolicy -> bytes).
Context (parse_snapshot : bytes -> option AcceptedSnapshot) (parse_guards : bytes -> option GuardState).

Definition tracker_pin (a : Args) : result string (option bytes) :=
  match a_tracker_key a with
  | None => Ok None
  | Some value =>
      match hex_decode value with
      | None => Err "Invalid --tracker-key hex"%string
      | Some pin =>
          if negb (length pin =? 32)%nat then Err "Tracker pin must be 32 bytes"%string
          else if bool_decide (pin = replicate 32 0) then Err "Tracker pin cannot be zero"%string
          else Ok (Some pin)
      end
  end.

Definition read_transports (a : Args) (env : LaunchEnv) : result string (option (list BridgeTransport)) :=
  if a_authority_transports a
  then let? bindings := of_io (load_authorities parse_bindings (le_authorities env).1 (le_authorities env).2) in Ok (Some bindings)
  else Ok None.

Definition directory_client (a : Args) (endpoints : list AuthorityEndpoint) (transports : option (list BridgeTransport)) : result string PinnedDirectoryClient :=
  let? client := DirectoryClient_new endpoints (a_quorum_threshold a) in
  match transports with Some bindings => with_transports client bindings | None => Ok client end.

Definition guard_config (a : Args) (endpoints : list AuthorityEndpoint) (tracker_identity_pin : option bytes) (profile : CoverProfile)
    (bridges : list BridgeTransport) : GuardConfig :=
  mkGuardConfig bridges (a_private_bridges a) (a_unlisted_bridge a) true true (a_jitter a) (a_chaos a) (a_rmt_morphing a) (a_chaffing a)
    (if a_onion a then Z.to_nat (min_hops_arg a) else 1) (if a_onion a then Z.to_nat (max_hops_arg a) else 3)
    (a_relay a) (a_allow_open_socks5 a) (a_allow_private_exit a) (a_is_exit a) (a_fetch_from a) tracker_identity_pin (a_padded_sessions a)
    profile (privacy_profile a) (a_onion a) (a_enforce_subnet_diversity a) (directory_authorities a) endpoints (a_listen a) (a_advertise_address a).

(** The configuration, the authorities' keys by identity, and the bindings of
    the protected bootstrap. *)
Definition configure (a : Args) (env : LaunchEnv) : result string (GuardConfig * gmap bytes bytes * option (list BridgeTransport)) :=
  let? _ := check_options unicode_lowercase a in
  let? authorities := bind_authorities a in
  let? _ := if bool_decide (authorities.1 = []) then Ok tt
            else let? _ := DirectoryClient_new authorities.1 (a_quorum_threshold a) in Ok tt in
  let? transports := read_transports a env in
  let? _ := if given transports then let? _ := directory_client a authorities.1 transports in Ok tt else Ok tt in
  if a_unlisted_bridge a && negb (match parse_socket_addr (a_listen a) with Some address => is_loopback (sa_ip address) | None => false end)
  then Err "Unlisted bridge backend must listen on numeric loopback"%string
  else
    let? pin := tracker_pin a in
    if a_reverse_relay a && (negb (given (a_announce a)) || negb (a_reverse_token_file a))
    then Err "Reverse relay requires --announce, --tracker-key and --reverse-token-file"%string
    else
      let? profile := of_io (CoverProfile_parse (a_link_cover_profile a)) in
      let? bridges := if a_bridge_transports a then of_io (load_bridges parse_bindings (le_bridges env).1 (le_bridges env).2) else Ok [] in
      Ok (guard_config a authorities.1 pin profile bridges, authorities.2, transports).

(** ** Roles *)

(** The namespace of protected applications, once the gateway is built. *)
Definition namespace_of (a : Args) (endpoint : SocketAddr) : NetnsConfig :=
  mkNetnsConfig (a_namespace_name a) (display_ip (sa_ip endpoint)) (sa_port endpoint).

Definition isolate (a : Args) (env : LaunchEnv) : list IsolationAct * result string unit :=
  if negb (a_enable_firewall_killswitch a) then ([], Ok tt)
  else
    match parse_socket_addr (a_listen a) with
    | None => ([], Err "invalid socket address syntax"%string)
    | Some endpoint =>
        if negb (le_executable env) then ([], Err "current_exe"%string) else start_isolation (le_isolation env) (namespace_of a endpoint)
    end.

Definition start_pool (a : Args) (env : LaunchEnv) (revoked : gset bytes) : result string ProxyPool :=
  match init_guard_state parse_snapshot parse_guards (with_revoked_identities revoked (le_state_files env).1 (le_state_files env).2)
          (le_state_path env) (le_state_io env).1 (le_state_io env).2 with
  | (_, Err _) => Err "guard state"%string
  | (pool, Ok _) =>
      let? pool := if a_pool a then match load_file unicode_lowercase url_parse pool (le_pool_file env).1 (le_pool_file env).2 with
                                    | (_, Err _) => Err "Configured proxy file rejected"%string
                                    | (pool, Ok _) => Ok pool
                                    end
                   else Ok pool in
      match a_proxy a with
      | None => Ok pool
      | Some inline => match add_proxy unicode_lowercase url_parse pool inline with (_, Err _) => Err "Invalid --proxy endpoint"%string | (pool, Ok _) => Ok pool end
      end
  end.

Definition start_authority (a : Args) (env : LaunchEnv) (config : GuardConfig) (revoked : gset bytes) : result string Launched :=
  let? own := le_identity env in
  if bool_decide (own ∈ revoked) then Err "Local authority identity is retired"%string
  else
    match list_find (fun e => ae_identity e = a_authority_id a) (gc_authority_endpoints config) with
    | Some (_, e) =>
        if bool_decide (ae_public_key e = own) then Ok (RunsAuthority config revoked ((fun e => (ae_address e, Some (ae_public_key e))) <$> gc_authority_endpoints config))
        else Err "Authority identity key does not match its configured bootstrap pin"%string
    | None => Ok (RunsAuthority config revoked ((fun e => (ae_address e, Some (ae_public_key e))) <$> gc_authority_endpoints config))
    end.

Definition start_role (a : Args) (env : LaunchEnv) (config : GuardConfig) (transports : option (list BridgeTransport)) (revoked : gset bytes)
    : result string Launched :=
  if existsb (fun e => bool_decide (ae_public_key e ∈ revoked)) (gc_authority_endpoints config)
     || existsb (fun b => bool_decide (bt_identity b ∈ revoked)) (gc_bridge_transports config)
  then Err "Configured authority or private bridge identity is retired; update authenticated pins"%string
  else if (gc_allow_open_socks5 config || gc_allow_private_exit config) && negb (a_i_know_this_is_insecure a)
  then Err "FATAL: You have enabled an insecure configuration flag (allow-open-socks5 or allow-private-exit)."%string
  else if a_authority a then start_authority a env config revoked
  else if a_tracker a then let? pin := le_identity env in Ok (RunsTracker pin)
  else
    let? own := le_identity env in
    if bool_decide (own ∈ revoked) then Err "Local routing identity is retired"%string
    else
      let? pool := start_pool a env revoked in
      let? role :=
        if a_reverse_relay a then Ok (RunsReverseRelay config pool)
        else if bool_decide (gc_directory_authorities config = []) then Ok (RunsGateway config pool None)
        else let? client := directory_client a (gc_authority_endpoints config) transports in Ok (RunsGateway config pool (Some client)) in
      let? _ := (isolate a env).2 in
      Ok role.

Definition launch (a : Args) (env : LaunchEnv) (fs : Fs) : Fs * result string Launched :=
  if a_initialize_identity a then
    (fs, if a_namespace_proxy a || a_enable_firewall_killswitch a then Err "Identity initialization cannot be combined with namespace startup"%string
         else if negb (a_identity_key_path a) then Err "Identity path required"%string
         else let? pin := le_identity env in Ok (InitializedIdentity pin))
  else if a_namespace_proxy a then
    (fs, match parse_socket_addr (a_listen a) with
         | None => Err "invalid socket address syntax"%string
         | Some endpoint => if a_namespace_socket a then Ok (RunsNamespaceProxy endpoint) else Err "Namespace proxy requires its private socket"%string
         end)
  else
    match check_isolation a with
    | Err e => (fs, Err e)
    | Ok _ =>
        if a_status a then (fs, Ok PrintedStatus)
        else
          match configure a env with
          | Err e => (fs, Err e)
          | Ok (config, bound_authorities, transports) =>
              if a_revocation_policy a && negb (a_onion a || a_relay a || a_authority a)
              then (fs, Err "Identity retirement requires an authenticated onion routing role"%string)
              else
                let '(fs, r) := load_and_commit parse_policy parse_accepted encode_accepted (le_retirement env) fs (a_revocation_policy a)
                                  bound_authorities (a_quorum_threshold a) in
                (fs, let? revoked := r in start_role a env config transports revoked)
          end
    end.
End Launch.

(** ** Authorities and their pins *)
Lemma split_once_inv c l p q : split_once c l = Some (p, q) -> l = p ++ c :: q /\ c ∉ p.
Proof.
  revert p q. induction l as [|b l IH]; intros p q; cbn [split_once]; [done|]. destruct (Z.eqb_spec b c) as [->|Hb].
  - intros [= <- <-]. split; [done|by apply not_elem_of_nil].
  - destruct (split_once c l) as [[p' q']|]; [|done]. intros [= <- <-]. destruct (IH _ _ eq_refl) as [-> Hn]. split; [done|].
    apply not_elem_of_cons. by split.
Qed.

Lemma rsplit_once_inv c l p q : rsplit_once c l = Some (p, q) -> l = p ++ c :: q.
Proof.
  revert p q. induction l as [|b l IH]; intros p q; cbn [rsplit_once]; [done|]. destruct (rsplit_once c l) as [[p' q']|].
  - intros [= <- <-]. by rewrite (IH _ _ eq_refl).
  - destruct (Z.eqb_spec b c) as [->|]; [|done]. by intros [= <- <-].
Qed.

(** The key given for a name on the command line. *)
Definition key_entry (entry name key : bytes) : Prop :=
  exists text hex, trim entry = text ++ 58 :: hex /\ name = trim text /\ decode_hex_32 (trim hex) = Some key.

Lemma authority_key_inv entry p : authority_key entry = Ok p -> key_entry entry p.1 p.2.
Proof.
  unfold authority_key. destruct (rsplit_once _ _) as [[text hex]|] eqn:Hs; [|done]. apply rsplit_once_inv in Hs. cbv zeta.
  case_bool_decide; [done|]. destruct (decode_hex_32 _) as [b|] eqn:Hd; [|done].
  destruct (VerifyingKey_from_bytes b) as [vk|] eqn:Hv; [|done]. apply key_of_bytes in Hv as ->. intros [= <-]. by exists text, hex.
Qed.

Lemma trust_keys_inv trusted entries out :
  trust_keys trusted entries = Ok out ->
  forall id key, out !! id = Some key -> trusted !! id = Some key \/ exists entry, entry ∈ entries /\ key_entry entry id key.
Proof.
  revert trusted. induction entries as [|entry entries IH]; intros trusted; cbn [trust_keys]; [by intros [= <-]; left|].
  destruct (authority_key entry) as [p|] eqn:Hk; [|done]. apply authority_key_inv in Hk. case_bool_decide; [done|]. intros Hrest id key Hid.
  destruct (IH _ Hrest id key Hid) as [[[<- <-]|[_ ?]]%lookup_insert_Some|(e & ? & ?)]; [right; exists entry; split; [apply list_elem_of_here|done]|by left|].
  right. exists e. split; [by apply list_elem_of_further|done].
Qed.

Definition endpoint_of (text : bytes) (e : AuthorityEndpoint) : Prop :=
  exists rest, text = ae_identity e ++ 64 :: rest /\ (64 ∉ ae_identity e) /\ ae_address e = trim_http rest.

Lemma authority_endpoint_inv trusted text e :
  authority_endpoint trusted text = Ok e ->
  endpoint_of text e /\ (trusted !! ae_identity e = Some (ae_public_key e) \/ trusted !! ae_address e = Some (ae_public_key e)).
Proof.
  unfold authority_endpoint. destruct (split_once 64 text) as [[id addr]|] eqn:Hs; [|done]. apply split_once_inv in Hs as [-> Hid].
  destruct (_ || _); [done|]. cbv zeta. destruct (trusted !! id) as [key|] eqn:H1.
  - intros [= <-]. split; [by exists addr|by left].
  - destruct (trusted !! trim_http addr) as [key|] eqn:H3; [|done]. intros [= <-]. split; [by exists addr|by right].
Qed.

Lemma bind_endpoints_inv trusted seen bound texts es out :
  bind_endpoints trusted seen bound texts = Ok (es, out) ->
  Forall2 (fun text e => authority_endpoint trusted text = Ok e) texts es /\
  (NoDup (ae_public_key <$> es) /\ Forall (fun e => ae_public_key e ∉ seen) es) /\
  (NoDup (ae_identity <$> es) /\ Forall (fun e => bound !! ae_identity e = None) es) /\
  forall id key, out !! id = Some key <-> bound !! id = Some key \/ exists e, e ∈ es /\ ae_identity e = id /\ ae_public_key e = key.
Proof.
  revert seen bound es out. induction texts as [|text texts IH]; intros seen bound es out; cbn [bind_endpoints].
  { intros [= <- <-]. split_and!; [apply Forall2_nil|apply NoDup_nil|apply Forall_nil|apply NoDup_nil|apply Forall_nil|]; try done.
    intros id key. split; [by left|]. by intros [?|(? & ?%elem_of_nil & _)]. }
  destruct (authority_endpoint trusted text) as [e|] eqn:He; [|done]. case_bool_decide as Hs; [done|]. case_bool_decide as Hb; [done|].
  destruct (bind_endpoints _ _ _ texts) as [[es' out']|] eqn:Hr; [|done]. intros [= <- <-]. apply eq_None_not_Some in Hb.
  destruct (IH _ _ _ _ Hr) as (Hall & [Hk Hks] & [Hi His] & Hout). split_and!.
  - by constructor.
  - cbn. constructor; [|done]. intros (e' & Heq & Hin)%list_elem_of_fmap. rewrite Forall_forall in Hks. apply Hks in Hin.
    apply Hin, elem_of_union_l, elem_of_singleton. done.
  - constructor; [done|]. eapply Forall_impl; [exact Hks|]. intros e' Hn Hin. by apply Hn, elem_of_union_r.
  - cbn. constructor; [|done]. intros (e' & Heq & Hin)%list_elem_of_fmap. rewrite Forall_forall in His. apply His in Hin.
    by rewrite Heq, lookup_insert_eq in Hin.
  - constructor; [done|]. eapply Forall_impl; [exact His|]. cbn. by intros e' [? ?]%lookup_insert_None.
  - intros id key. rewrite Hout. split.
    + intros [[[<- <-]|[_ ?]]%lookup_insert_Some|(e' & ? & ?)]; [right; exists e; split; [apply list_elem_of_here|done]|by left|].
      right. exists e'. split; [by apply list_elem_of_further|done].
    + intros [Hid|(e' & [->|?]%elem_of_cons & <- & <-)]; [|left; apply lookup_insert_eq|right; by exists e'].
      left. rewrite lookup_insert_ne; [done|]. intros <-. by rewrite Hb in Hid.
Qed.

(** An authority is trusted under the key its operator wrote down for it.
    Every endpoint of the command line becomes one record, in order, with its
    identity, its address and the key given for that identity or address; no two
    records share an identity or a key, and the keys later used to check
    policies are exactly these; the quorum exceeds two thirds of them. *)
Theorem authorities_bound (a : Args) (endpoints : list AuthorityEndpoint) (bound : gmap bytes bytes) :
  bind_authorities a = Ok (endpoints, bound) ->
  Forall2 endpoint_of (directory_authorities a) endpoints /\
  Forall (fun e => exists keys entry name, a_authority_keys a = Some keys /\ entry ∈ split_on 44 keys /\ (name = ae_identity e \/ name = ae_address e) /\
                     key_entry entry name (ae_public_key e)) endpoints /\
  NoDup (ae_identity <$> endpoints) /\ NoDup (ae_public_key <$> endpoints) /\
  (forall id key, bound !! id = Some key <-> exists e, e ∈ endpoints /\ ae_identity e = id /\ ae_public_key e = key) /\
  (endpoints <> [] -> 2 * Z.of_nat (length endpoints) < 3 * a_quorum_threshold a /\ (length endpoints <= 16)%nat).
Proof.
  unfold bind_authorities. cbv zeta. destruct (match a_authority_keys a with Some _ => _ | None => _ end) as [trusted|] eqn:Ht; [|done].
  refused Hn. refused Hq. refused Ht2.
  intros Hb. destruct (bind_endpoints_inv _ _ _ _ _ _ Hb) as (Hall & [Hk _] & [Hi _] & Hout). pose proof (Forall2_length _ _ _ Hall) as Hlen. split_and!; try done.
  - eapply Forall2_impl; [exact Hall|]. by intros text e [? _]%authority_endpoint_inv.
  - apply Forall_forall. intros e He. apply list_elem_of_lookup in He as [i He]. destruct (Forall2_lookup_r _ _ _ _ _ Hall He) as (text & _ & Hx).
    apply authority_endpoint_inv in Hx as [_ Hx]. destruct (a_authority_keys a) as [keys|]; [|injection Ht as <-; destruct Hx as [Hx|Hx]; by rewrite lookup_empty in Hx].
    exists keys. destruct Hx as [Hx|Hx]; destruct (trust_keys_inv _ _ _ Ht _ _ Hx) as [E|(entry & ? & ?)]; try (by rewrite lookup_empty in E); exists entry; eauto 6.
  - intros id key. rewrite Hout, lookup_empty. split; [by intros [?|?]|by right].
  - intros Hne. apply Z.ltb_ge in Hn. apply andb_false_iff in Hq as [Hq|Hq]; reflect_bools; rewrite <- Hlen.
    + destruct endpoints; [done|]. cbn [length] in Hlen. lia.
    + split; [|lia]. pose proof (Z.div_mod (2 * Z.of_nat (length (directory_authorities a))) 3) as Hd.
      pose proof (Z.mod_pos_bound (2 * Z.of_nat (length (directory_authorities a))) 3). lia.
Qed.

(** ** The command line *)
Lemma all_opts_complete o : o ∈ all_opts.
Proof. destruct o; repeat (exact (list_elem_of_here _ _) || apply list_elem_of_further). Qed.

(** The rounds are enough: the requirements that were collected are closed. *)
Lemma unroll_closed o r : r ∈ unroll_arg_requires o -> forall r', r' ∈ requires_of r -> r' ∈ unroll_arg_requires o.
Proof.
  assert (Hall : forallb (fun o => forallb (fun r => forallb (fun r' => bool_decide (r' ∈ unroll_arg_requires o)) (requires_of r)) (unroll_arg_requires o)) all_opts = true)
    by (vm_compute; reflexivity).
  rewrite forallb_forall in Hall. specialize (Hall o (proj1 (list_elem_of_In _ _) (all_opts_complete o))). rewrite forallb_forall in Hall.
  intros Hr%list_elem_of_In r' Hr'%list_elem_of_In. specialize (Hall r Hr). rewrite forallb_forall in Hall. by apply Hall, bool_decide_eq_true in Hr'.
Qed.

(** What is unrolled is exactly the transitive closure of the requirements. *)
Definition needs (x y : Opt) : Prop := y ∈ requires_of x.

#[local] Instance needs_dec x y : Decision (needs x y).
Proof. unfold needs. apply _. Defined.

Lemma unroll_complete o r : tc needs o r -> r ∈ unroll_arg_requires o.
Proof.
  revert r. apply tc_ind_r; [|intros r r' _ Hr IH; by eapply unroll_closed]. intros r Hr.
  destruct o; apply (bool_decide_unpack _); unfold needs in Hr; repeat (apply elem_of_cons in Hr as [->|Hr]; [reflexivity|]); by apply elem_of_nil in Hr.
Qed.

Lemma unroll_sound rounds o r_vec processed args :
  (forall x, x ∈ r_vec -> rtc needs o x) -> (forall x, x ∈ args -> tc needs o x) -> forall x, x ∈ unroll rounds r_vec processed args -> tc needs o x.
Proof.
  revert r_vec processed args. induction rounds as [|rounds IH]; intros r_vec processed args Hr Ha; cbn [unroll]; [done|].
  destruct r_vec as [|y r_vec]; [done|]. assert (Hy : rtc needs o y) by (apply Hr, list_elem_of_here).
  assert (Hnext : forall z, z ∈ requires_of y -> tc needs o z) by (intros z Hz; eapply tc_rtc_l; [exact Hy|by apply tc_once]).
  case_bool_decide; [apply IH; [|done]; intros x Hx; by apply Hr, list_elem_of_further|]. apply IH.
  - intros x [[_ Hx]%list_elem_of_filter|Hx]%elem_of_app; [by apply tc_rtc, Hnext|by apply Hr, list_elem_of_further].
  - intros x [Hx|Hx]%elem_of_app; [by apply Ha|by apply Hnext].
Qed.

Lemma unroll_spec o r : r ∈ unroll_arg_requires o <-> tc needs o r.
Proof.
  split; [|apply unroll_complete]. apply unroll_sound; [|by intros x ?%elem_of_nil]. by intros x ->%list_elem_of_singleton.
Qed.

Lemma forallb_elem {A} (f : A -> bool) l x : forallb f l = true -> x ∈ l -> f x = true.
Proof. rewrite forallb_forall. intros Hf Hx. by apply Hf, list_elem_of_In. Qed.

#[local] Opaque unroll_arg_requires all_opts.

Section Clap.
Context (a : Args).
Hypothesis Hclap : clap_accepts a = true.

Lemma clap_clash x y : present a x = true -> clash x y = true -> x <> y -> present a y = false.
Proof.
  unfold clap_accepts in Hclap. apply andb_true_iff in Hclap as [[Hc _]%andb_true_iff _]. intros Hx Hxy Hne. unfold conflict_free in Hc.
  pose proof (forallb_elem _ _ _ Hc (all_opts_complete x)) as Hf. cbn beta in Hf. rewrite Hx in Hf. cbn [negb orb] in Hf.
  pose proof (forallb_elem _ _ _ Hf (all_opts_complete y)) as Hy. cbn beta in Hy. rewrite Hxy, bool_decide_false in Hy by done. by destruct (present a y).
Qed.

(** An argument that is required is there, unless one that clashes with it is. *)
Lemma clap_required x r :
  present a x = true -> tc needs x r -> (forall p, p <> r -> clash p r = true -> present a p = false) -> present a r = true.
Proof.
  unfold clap_accepts in Hclap. apply andb_true_iff in Hclap as [[_ Hq]%andb_true_iff _]. intros Hx Hr%unroll_spec Hno. unfold requirements_met in Hq.
  pose proof (forallb_elem _ _ _ Hq (all_opts_complete x)) as Hf. cbn beta in Hf. rewrite Hx in Hf. cbn [negb orb] in Hf.
  pose proof (forallb_elem _ _ _ Hf Hr) as Hm. cbn beta in Hm. apply orb_true_iff in Hm as [?|Hm]; [done|].
  unfold missing_ok in Hm. apply existsb_exists in Hm as (p & _ & [[Hp Hne%negb_true_iff%bool_decide_eq_false]%andb_true_iff Hcl]%andb_true_iff).
  rewrite (Hno p Hne Hcl) in Hp. done.
Qed.
End Clap.

(** The arguments that clash with a given one, read off the tables. *)
Local Ltac by_tables := let p := fresh in let Hp := fresh in let Hc := fresh in intros p Hp Hc; destruct p; (discriminate Hc || assumption).

(** ** A gateway that was launched *)
Local Ltac held H := match goal with |- match ?x with Ok _ => _ | Err _ => _ end = _ -> _ => destruct x eqn:H; [|done] end.

Section Launched.
Context `{IdentityPrimitives} `{HexCodec} (unicode_lowercase : bytes -> bytes) (url_parse : bytes -> option Url).
Context (parse_bindings : bytes -> option (list BridgeTransport)).
Context (parse_policy : bytes -> option RevocationPolicy) (parse_accepted : bytes -> option AcceptedPolicy) (encode_accepted : AcceptedPolicy -> bytes).
Context (parse_snapshot : bytes -> option AcceptedSnapshot) (parse_guards : bytes -> option GuardState).
Context (a : Args) (env : LaunchEnv).

Record configured_as (config : GuardConfig) (bound : gmap bytes bytes) (transports : option (list BridgeTransport)) : Prop := {
  ca_options : check_options unicode_lowercase a = Ok tt;
  ca_authorities : bind_authorities a = Ok (gc_authority_endpoints config, bound);
  ca_transports : read_transports parse_bindings a env = Ok transports;
  ca_config : exists pin profile, config = guard_config a (gc_authority_endpoints config) pin profile (gc_bridge_transports config) /\
                CoverProfile_parse (a_link_cover_profile a) = Ok profile;
  ca_bridges : if a_bridge_transports a then load_bridges parse_bindings (le_bridges env).1 (le_bridges env).2 = Ok (gc_bridge_transports config)
               else gc_bridge_transports config = [];
}.

Lemma of_io_ok {A} (r : result IoError A) v : of_io r = Ok v -> r = Ok v.
Proof. destruct r; cbn; [by intros [= ->]|done]. Qed.

Lemma configure_inv config bound transports :
  configure unicode_lowercase parse_bindings a env = Ok (config, bound, transports) -> configured_as config bound transports.
Proof.
  unfold configure. destruct (check_options unicode_lowercase a) as [[]|] eqn:Ho; [|done]. destruct (bind_authorities a) as [[es b]|] eqn:Hb; [|done]. held Hc.
  destruct (read_transports _ a env) as [ts|] eqn:Ht; [|done]. held Hd. refused Hu. destruct (tracker_pin a) as [pin|]; [|done]. refused Hr.
  destruct (of_io (CoverProfile_parse _)) as [profile|] eqn:Hp; [|done]. apply of_io_ok in Hp. destruct (if a_bridge_transports a then _ else _) as [bridges|] eqn:Hbr; [|done].
  intros [= <- <- <-]. split; try done; [by exists pin, profile|]. cbn. destruct (a_bridge_transports a); [by apply of_io_ok|by injection Hbr as <-].
Qed.

Lemma start_pool_revoked revoked pool :
  start_pool unicode_lowercase url_parse parse_snapshot parse_guards a env revoked = Ok pool -> pl_revoked pool = revoked.
Proof.
  unfold start_pool. destruct (init_guard_state _ _ _ _ _ _) as [p [[]|]] eqn:Hi; [|done].
  assert (Hp : pl_revoked p = revoked).
  { revert Hi. unfold init_guard_state. cbn [with_revoked_identities pl_guard_state_path]. repeat (split_goal; try done); intros [= <-]; done. }
  assert (Hload : forall p', (if a_pool a then match load_file unicode_lowercase url_parse p (le_pool_file env).1 (le_pool_file env).2 with
                                              | (_, Err _) => Err "Configured proxy file rejected"%string | (pool, Ok _) => Ok pool end else Ok p) = Ok p' -> pl_revoked p' = revoked).
  { intros p'. destruct (a_pool a); [|by intros [= <-]]. unfold load_file. repeat (split_goal; try done); simplify_eq; by intros [= <-]. }
  destruct (if a_pool a then _ else _) as [p'|]; [|done]. specialize (Hload p' eq_refl). destruct (a_proxy a) as [inline|]; [|by intros [= <-]].
  unfold add_proxy. destruct (ProxyNode_parse _ _ _); [|done]. by intros [= <-].
Qed.

Record launched_as (fs fs' : Fs) (config : GuardConfig) (pool : ProxyPool) (client : option PinnedDirectoryClient) (bound : gmap bytes bytes)
    (transports : option (list BridgeTransport)) (own : bytes) : Prop := {
  la_isolation : check_isolation a = Ok tt;
  la_role : a_authority a = false /\ a_tracker a = false /\ a_reverse_relay a = false;
  la_start : a_initialize_identity a = false /\ a_status a = false;
  la_isolated : (isolate a env).2 = Ok tt;
  la_configured : configured_as config bound transports;
  la_retired : load_and_commit parse_policy parse_accepted encode_accepted (le_retirement env) fs (a_revocation_policy a) bound (a_quorum_threshold a)
               = (fs', Ok (pl_revoked pool));
  la_pins : Forall (fun e => ae_public_key e ∉ pl_revoked pool) (gc_authority_endpoints config) /\
            Forall (fun b => bt_identity b ∉ pl_revoked pool) (gc_bridge_transports config);
  la_own : le_identity env = Ok own /\ own ∉ pl_revoked pool;
  la_insecure : gc_allow_open_socks5 config || gc_allow_private_exit config = true -> a_i_know_this_is_insecure a = true;
  la_client : match client with
              | None => gc_directory_authorities config = []
              | Some c => gc_directory_authorities config <> [] /\ directory_client a (gc_authority_endpoints config) transports = Ok c
              end;
}.

Lemma existsb_retired {A} (key : A -> bytes) (revoked : gset bytes) l : existsb (fun x => bool_decide (key x ∈ revoked)) l = false -> Forall (fun x => key x ∉ revoked) l.
Proof. induction l as [|x l IH]; cbn [existsb]; [constructor|]. intros [Hx%bool_decide_eq_false Hl]%orb_false_iff. constructor; [done|by apply IH]. Qed.

Lemma launch_gateway_inv fs fs' config pool client :
  launch unicode_lowercase url_parse parse_bindings parse_policy parse_accepted encode_accepted parse_snapshot parse_guards a env fs
    = (fs', Ok (RunsGateway config pool client)) ->
  exists bound transports own, launched_as fs fs' config pool client bound transports own.
Proof.
  unfold launch. destruct (a_initialize_identity a) eqn:Hinit. { intros [= _ Hx]. revert Hx. refused E1. refused E2. by destruct (le_identity env). }
  destruct (a_namespace_proxy a). { intros [= _ Hx]. by repeat case_match. }
  destruct (check_isolation a) as [[]|] eqn:Hiso; [|done]. destruct (a_status a) eqn:Hst; [done|].
  destruct (configure _ _ a env) as [[[config' bound] transports]|] eqn:Hc; [|done]. apply configure_inv in Hc. refused Hrole.
  destruct (load_and_commit _ _ _ _ _ _ _ _) as [fs1 [revoked|]] eqn:Hl; [|done]. intros [= <- Hs]. revert Hs. unfold start_role. refused Hret. refused Hins.
  destruct (a_authority a) eqn:Ha.
  { unfold start_authority. held Ho. case_bool_decide; [done|]. destruct (list_find _ _) as [[? ?]|]; [|done]. by case_bool_decide. }
  destruct (a_tracker a) eqn:Htr. { by held Ho. } destruct (le_identity env) as [own|] eqn:Hown; [|done]. case_bool_decide as Hnr; [done|].
  destruct (start_pool _ _ _ _ _ _ _) as [p|] eqn:Hp; [|done]. apply start_pool_revoked in Hp as Hrev. destruct (a_reverse_relay a) eqn:Hrr; [by destruct (isolate a env).2|].
  held Hrole'. destruct (isolate a env).2 as [[]|] eqn:Hisol; [|done]. intros [= ->]. revert Hrole'. intros Hrun. exists bound, transports, own.
  assert (Hk : config' = config /\ p = pool /\ match client with None => gc_directory_authorities config' = []
                 | Some c => gc_directory_authorities config' <> [] /\ directory_client a (gc_authority_endpoints config') transports = Ok c end).
  { case_bool_decide; [by injection Hrun as <- <- <-|]. destruct (directory_client _ _ _) eqn:Hd; [|done]. by injection Hrun as <- <- <-. }
  destruct Hk as (-> & -> & Hclient). rewrite <- Hrev in *. apply orb_false_iff in Hret as [?%existsb_retired ?%existsb_retired].
  split; try done. intros E. rewrite E in Hins. by destruct (a_i_know_this_is_insecure a).
Qed.

Lemma economy_parsed value : CoverProfile_parse value = Ok Economy -> value = str "economy".
Proof. unfold CoverProfile_parse. case_bool_decide; [done|]. by case_bool_decide. Qed.

Lemma options_loopback config bound transports :
  configured_as config bound transports -> a_authority a = false -> a_tracker a = false -> a_reverse_relay a = false ->
  gc_relay_mode config = false -> gc_allow_open_socks5 config = false ->
  exists l, parse_socket_addr (gc_listen_addr config) = Some l /\ is_loopback (sa_ip l) = true.
Proof.
  intros Hc Ha Ht Hr. destruct (ca_config _ _ _ Hc) as (pin & profile & -> & _). cbn. intros Hrel Hopen. pose proof (ca_options _ _ _ Hc) as Ho. revert Ho.
  unfold check_options. refused H1. destruct (parse_socket_addr _) as [l|]; [|done]. intros Hl. exists l. split; [done|]. revert Hl.
  rewrite Ha, Ht, Hr, Hrel, Hopen. cbn [negb andb]. destruct (is_loopback _); [done|]. done.
Qed.

Lemma directory_client_configured endpoints transports c :
  directory_client a endpoints transports = Ok c -> configured endpoints (a_quorum_threshold a) c.
Proof.
  unfold directory_client. destruct (DirectoryClient_new _ _) as [base|] eqn:Hn; [|done]. apply new_configured in Hn as [Hn He].
  destruct transports as [bindings|]; [|by intros [= <-]]. intros Hw. by destruct (with_transports_complete _ _ _ _ _ Hn He Hw).
Qed.

Local Abbreviation launches :=
  (launch unicode_lowercase url_parse parse_bindings parse_policy parse_accepted encode_accepted parse_snapshot parse_guards a env).

Lemma isolate_inv : (isolate a env).2 = Ok tt -> a_enable_firewall_killswitch a = true ->
  exists l ip rules, parse_socket_addr (a_listen a) = Some l /\ parse_ip (display_ip (sa_ip l)) = Some ip /\ is_loopback ip = true /\
    generate_nftables_rules (namespace_of a l) = Ok rules /\
    (isolate a env).1 = [SocketBound; NamespaceAdded; RulesLoaded rules; LoopbackUp; HelperRuns (mkSocketAddr ip (sa_port l))].
Proof.
  unfold isolate. intros Hi E. rewrite E in *. cbn [negb] in *. destruct (parse_socket_addr (a_listen a)) as [l|]; [|done]. destruct (le_executable env); [|done]. cbn [negb] in *.
  destruct (start_isolation (le_isolation env) (namespace_of a l)) as [acts r] eqn:Hs. cbn [snd] in Hi. subst r.
  apply start_isolation_ok in Hs as (ip & rules & Hip & Hl & _ & Hg & ->). by exists l, ip, rules.
Qed.

(** C38: a gateway is only launched in a state its operator asked for. Strict
    fail-closed comes with the kill switch of the kernel, and a gateway with that
    kill switch is only launched once the namespace of the protected applications
    was made, its dropping rules loaded before its loopback came up, and the
    helper started towards the gateway's own listener; an open proxy or a private
    exit was acknowledged; a client listens on loopback otherwise; onion chains
    have three to eight hops; the directory client trusts exactly the bound
    records with a quorum over two thirds; and neither an authority, nor an
    entry bridge, nor the gateway itself runs under an identity that the
    committed policy retires, which is also what the relay pool refuses. *)
Theorem launch_safe (fs fs' : Fs) (config : GuardConfig) (pool : ProxyPool) (client : option PinnedDirectoryClient) :
  clap_accepts a = true -> launches fs = (fs', Ok (RunsGateway config pool client)) ->
  (a_strict_fail_closed a = true -> a_enable_firewall_killswitch a = true) /\
  (a_enable_firewall_killswitch a = true -> exists l ip rules,
     parse_socket_addr (gc_listen_addr config) = Some l /\ parse_ip (display_ip (sa_ip l)) = Some ip /\ is_loopback ip = true /\
     generate_nftables_rules (namespace_of a l) = Ok rules /\
     (isolate a env).1 = [SocketBound; NamespaceAdded; RulesLoaded rules; LoopbackUp; HelperRuns (mkSocketAddr ip (sa_port l))]) /\
  (gc_allow_open_socks5 config || gc_allow_private_exit config = true -> a_i_know_this_is_insecure a = true) /\
  (gc_relay_mode config = false -> gc_allow_open_socks5 config = false ->
     exists l, parse_socket_addr (gc_listen_addr config) = Some l /\ is_loopback (sa_ip l) = true) /\
  (gc_enable_onion_routing config = true -> (3 <= gc_min_chain_length config <= gc_max_chain_length config)%nat /\ (gc_max_chain_length config <= 8)%nat) /\
  match client with None => gc_directory_authorities config = [] | Some c => configured (gc_authority_endpoints config) (a_quorum_threshold a) c end /\
  exists bound own,
    (forall id key, bound !! id = Some key <-> exists e, e ∈ gc_authority_endpoints config /\ ae_identity e = id /\ ae_public_key e = key) /\
    load_and_commit parse_policy parse_accepted encode_accepted (le_retirement env) fs (a_revocation_policy a) bound (a_quorum_threshold a)
      = (fs', Ok (pl_revoked pool)) /\
    Forall (fun e => ae_public_key e ∉ pl_revoked pool) (gc_authority_endpoints config) /\
    Forall (fun b => bt_identity b ∉ pl_revoked pool) (gc_bridge_transports config) /\
    le_identity env = Ok own /\ own ∉ pl_revoked pool.
Proof.
  intros Hclap (bound & transports & own & [Hiso (Ha & Ht & Hr) _ Hisol Hc Hret [Hpe Hpb] [Hown Hno] Hins Hcl])%launch_gateway_inv. split_and!.
  - revert Hiso. unfold check_isolation. refused H1. cbn. refused H3. intros _ E. rewrite E in H3. cbn [andb] in H3. by apply negb_false_iff.
  - destruct (ca_config _ _ _ Hc) as (pin & profile & -> & _). cbn. by apply isolate_inv.
  - done.
  - by apply options_loopback with bound transports.
  - destruct (ca_config _ _ _ Hc) as (pin & profile & -> & _). cbn. intros ->. pose proof (ca_options _ _ _ Hc) as Ho. revert Ho. unfold check_options.
    refused H1. destruct (parse_socket_addr _); [|done]. refused H3. refused H4. refused H5. intros _. unfold clap_accepts, values_allowed, in_range in Hclap. reflect_bools. lia.
  - destruct client; [|done]. by eapply directory_client_configured, Hcl.
  - exists bound, own. split_and!; try done. pose proof (ca_authorities _ _ _ Hc) as Hb. revert Hb. unfold bind_authorities. cbv zeta. held Hk.
    refused H1. refused H3. refused H4. intros Hb. destruct (bind_endpoints_inv _ _ _ _ _ _ Hb) as (_ & _ & _ & Hout).
    intros id key. rewrite Hout, lookup_empty. split; [by intros [?|?]|by right].
Qed.

(** What the daemon launches as a client, the gateway starts. If a client
    is launched without the open proxy flag and without the arguments of a relay
    (an address to advertise, the unlisted bridge, which the parser lets pass
    next to arguments that clash with [--relay]), none of the checks the gateway
    makes before its accept loop can refuse it: it listens as soon as the
    address can be bound. *)
Theorem launch_runs (fs fs' : Fs) (config : GuardConfig) (pool : ProxyPool) (client : option PinnedDirectoryClient)
    (bind : SocketAddr -> result string SocketAddr) :
  clap_accepts a = true -> launches fs = (fs', Ok (RunsGateway config pool client)) -> gc_relay_mode config = false -> gc_allow_open_socks5 config = false ->
  gc_relay_advertise_address config = None -> gc_unlisted_bridge config = false ->
  exists l, parse_socket_addr (gc_listen_addr config) = Some l /\ is_loopback (sa_ip l) = true /\ start_gateway config (Ok tt) bind = bind l.
Proof.
  intros Hclap (bound & transports & own & [Hiso (Ha & Ht & Hr) [Hinit _] _ Hc Hret _ _ _ _])%launch_gateway_inv Hrel Hopen Hadv Hun.
  destruct (options_loopback _ _ _ Hc Ha Ht Hr Hrel Hopen) as (l & Hl & Hloop). exists l. split_and!; [done..|].
  pose proof (ca_options _ _ _ Hc) as Ho. destruct (ca_config _ _ _ Hc) as (pin & profile & Hcfg & Hprof). rewrite Hcfg in Hrel, Hopen, Hl, Hadv, Hun |- *.
  cbn in Hrel, Hopen, Hl, Hadv, Hun.
  assert (Hpad : a_padded_sessions a = true -> a_onion a = true /\ a_jitter a || a_chaos a || a_rmt_morphing a || a_chaffing a = false).
  { intros E. split; [apply (clap_required a Hclap OptPaddedSessions OptOnion E); [apply tc_once, list_elem_of_here|by_tables]|].
    pose proof (fun o => clap_clash a Hclap OptPaddedSessions o E) as Hno.
    pose proof (Hno OptJitter eq_refl ltac:(done)) as E1. pose proof (Hno OptChaos eq_refl ltac:(done)) as E2.
    pose proof (Hno OptRmtMorphing eq_refl ltac:(done)) as E3. pose proof (Hno OptChaffing eq_refl ltac:(done)) as E4. cbn in *. by rewrite E1, E2, E3, E4. }
  assert (Heco : a_padded_sessions a && bool_decide (profile = Economy)
                 && negb (bool_decide (privacy_profile a = str "balanced") || bool_decide (privacy_profile a = str "balanced-longtail")) = false).
  { revert Ho. unfold check_options. refused H1x. destruct (parse_socket_addr _); [|done]. refused H2x. refused H3x. intros _.
    destruct (a_padded_sessions a); [|done]. destruct (bool_decide (profile = Economy)) eqn:Hp; [|done]. apply bool_decide_eq_true in Hp as ->. cbn [andb].
    rewrite bool_decide_true in H3x by (by apply economy_parsed). cbn [andb] in H3x.
    apply negb_false_iff, bool_decide_eq_true in H3x. apply negb_false_iff, orb_true_iff.
    apply elem_of_cons in H3x as [E|E%list_elem_of_singleton]; [left|right]; by rewrite E. }
  assert (Hparse : exists p, Profile_parse (privacy_profile a) = Ok p).
  { unfold clap_accepts, values_allowed in Hclap. reflect_bools. match goal with E : privacy_profile a ∈ _ |- _ => rename E into Hin end. repeat (apply elem_of_cons in Hin as [E|Hin]; [rewrite E; by eexists|]). by apply elem_of_nil in Hin. }
  destruct Hparse as [p Hparse]. unfold start_gateway. cbn [guard_config gc_listen_addr gc_padded_sessions gc_enable_onion_routing gc_relay_mode
    gc_link_cover_profile gc_privacy_profile gc_enable_jitter gc_enable_chaos gc_enable_rmt_morphing gc_enable_chaffing gc_directory_authorities gc_unlisted_bridge].
  cbv zeta. rewrite Hl, Hloop, Heco, Hrel, Hparse, Hun. unfold advertised_relay_address. cbn [guard_config gc_relay_advertise_address]. rewrite Hadv.
  destruct (a_padded_sessions a); [destruct Hpad as [-> ->]; [done|]|]; cbn; by destruct (bind l).
Qed.
End Launched.

(** ** Protected entry, from the command line to the sockets *)
Section Protected.
Context `{OnionPrimitives} `{IdentityPrimitives} `{KexPrimitives} `{LinkPrimitives} `{HashOrder} `{Rng} `{HexCodec}.
Context (unicode_lowercase : bytes -> bytes) (url_parse : bytes -> option Url) (parse_bindings : bytes -> option (list BridgeTransport)).
Context (parse_policy : bytes -> option RevocationPolicy) (parse_accepted : bytes -> option AcceptedPolicy) (encode_accepted : AcceptedPolicy -> bytes).
Context (parse_snapshot : bytes -> option AcceptedSnapshot) (parse_guards : bytes -> option GuardState) (write_guards : GuardState -> bytes).

Lemma split_on_nonempty c l : split_on c l <> [].
Proof. destruct l as [|b l]; cbn [split_on]; [done|]. destruct (b =? c); [done|]. by destruct (split_on c l). Qed.

(** What a client with protected entries was launched with. *)
Lemma protected_args (a : Args) :
  clap_accepts a = true -> a_protected_entry a || a_private_bridges a = true ->
  a_relay a = false -> a_authority a = false -> a_tracker a = false -> a_reverse_relay a = false -> a_initialize_identity a = false -> a_status a = false ->
  a_bridge_transports a = true /\ a_authority_transports a = true /\ a_onion a = true /\ given (a_authorities a) = true.
Proof.
  intros Hclap Hp Hrel Ha Ht Hr Hi Hst.
  assert (Hfetch : present a OptFetchFrom = false /\ exists o, present a o = true /\ needs o OptBridgeTransports /\ needs o OptAuthorityTransports).
  { apply orb_true_iff in Hp as [Hp|Hp].
    - split; [by apply (clap_clash a Hclap OptProtectedEntry)|]. exists OptProtectedEntry. split_and!; [exact Hp|apply (bool_decide_unpack _); reflexivity..].
    - split; [by apply (clap_clash a Hclap OptPrivateBridges)|]. exists OptPrivateBridges. split_and!; [exact Hp|apply (bool_decide_unpack _); reflexivity..]. }
  destruct Hfetch as (Hfetch & o & Ho & Hb & Hauth).
  assert (H1t : present a OptAuthorityTransports = true) by (apply (clap_required a Hclap o); [done|by apply tc_once|by_tables]).
  split_and!; [apply (clap_required a Hclap o OptBridgeTransports); [done|by apply tc_once|by_tables]|exact H1t| |].
  - apply (clap_required a Hclap OptAuthorityTransports OptOnion); [done|apply tc_once, (bool_decide_unpack _); reflexivity|by_tables].
  - apply (clap_required a Hclap OptAuthorityTransports OptAuthorities); [done|apply tc_once, (bool_decide_unpack _); reflexivity|by_tables].
Qed.

(** C12: protected entry holds in the running client. If a gateway is launched
    with [--protected-entry] or [--private-bridges], and not as a relay, then
    whatever the network answers and whatever clients send, fetching the directory
    dials nothing but the loopback proxies of the provisioned authority
    transports, and serving a client dials nothing but those of the provisioned
    entries: no authority and no relay is ever contacted directly, and no name is
    resolved. The command line only has to pass the parser, in which a required
    argument may be missing next to one that clashes with it; that is why the
    claim is about clients. *)
Theorem protected_launch (a : Args) (env : LaunchEnv) (fs fs' : Fs) (config : GuardConfig) (pool : ProxyPool) (client : option PinnedDirectoryClient) :
  clap_accepts a = true -> a_protected_entry a || a_private_bridges a = true ->
  launch unicode_lowercase url_parse parse_bindings parse_policy parse_accepted encode_accepted parse_snapshot parse_guards a env fs
    = (fs', Ok (RunsGateway config pool client)) -> gc_relay_mode config = false ->
  exists c bindings, client = Some c /\ load_authorities parse_bindings (le_authorities env).1 (le_authorities env).2 = Ok bindings /\
    (forall parse_document network,
       Forall (fun d => exists b, b ∈ bindings /\ d = ByAddress (bt_proxy b) /\ is_loopback (sa_ip (bt_proxy b)) = true) (fetch_snapshots parse_document c network).1) /\
    (forall network pool' socket, Forall (proxied config) (ha_acts (handle_client write_guards unicode_lowercase url_parse config network pool' socket))).
Proof.
  intros Hclap Hp (bound & transports & own & [_ (Ha & Htr & Hrr) [Hin Hst] _ Hc _ _ _ _ Hcl])%launch_gateway_inv Hmode.
  destruct (ca_config _ _ _ _ _ _ _ Hc) as (pin & profile & Hcfg & _).
  assert (Hargs : a_bridge_transports a = true /\ a_authority_transports a = true /\ a_onion a = true /\ given (a_authorities a) = true)
    by (apply protected_args; try done; by rewrite Hcfg in Hmode).
  destruct Hargs as (Hb & Ht & Ho & Hg). pose proof (ca_transports _ _ _ _ _ _ _ Hc) as Hr. unfold read_transports in Hr. rewrite Ht in Hr.
  destruct (of_io _) as [bindings|] eqn:Hl; [|done]. injection Hr as <-. apply of_io_ok in Hl.
  pose proof (ca_bridges _ _ _ _ _ _ _ Hc) as Hbr. rewrite Hb in Hbr. destruct (load_bindings_ok _ _ _ _ _ Hbr) as ([Hne _] & _).
  assert (Hdir : gc_directory_authorities config <> []).
  { rewrite Hcfg. cbn. unfold directory_authorities. destruct (a_authorities a) as [auths|]; [|done]. intros E%fmap_nil_inv. by apply split_on_nonempty in E. }
  destruct client as [c|]; [|done]. destruct Hcl as [_ Hcl]. exists c, bindings. split_and!; [done|done| |].
  - intros parse_document network. unfold directory_client in Hcl. destruct (DirectoryClient_new _ _) as [base|] eqn:Hn; [|done].
    by eapply bootstrap_dials.
  - intros network pool' socket. apply no_fallback; [right; intros E; rewrite E in Hne; cbn in Hne; lia|]. rewrite Hcfg. cbn. rewrite Ho. by rewrite orb_true_r.
Qed.
End Protected.

(** ** Witnesses *)
#[local] Existing Instances toy_primitives toy_identity toy_kex toy_link map_order toy_rng toy_hex.

Definition toy_args (protected relay : bool) : Args :=
  mkArgs false (str "127.0.0.1:9050") None false None (protected && negb relay) None (str "economy") None None false (f64_of 1) false false (str "GUE") false
    relay false false (str "auth-primary") (Some (str "auth-a@http://192.0.2.9:9100")) (Some (str "auth-a:" ++ concat (replicate 32 (str "29")))) false 1
    true (protected && negb relay) protected false (protected && negb relay) false true false None false None false false false false (negb relay)
    (str "anonguard") false false None false (negb relay) false false.

Definition toy_provisioned : list BridgeTransport :=
  [mkBridgeTransport (replicate 32 41) (mkSocketAddr (V4 (mkIpv4 127 0 0 1)) 31000) (mkSocketAddr (V4 (mkIpv4 192 0 2 1)) 443) toy_arguments].

Definition toy_launch_env : LaunchEnv :=
  mkLaunchEnv (true, Some []) (true, Some []) (mkIoEnv true true true true None Storage.Written) (Ok (replicate 32 7)) [] (None, None) (true, true) (true, None) true
    (mkIsolationEnv true true true true true true true).

Definition toy_launch (protected relay : bool) : Fs * result string Launched :=
  launch id (fun _ => None) (fun _ => Some toy_provisioned) (fun _ => None) (fun _ => None) (fun _ => []) (fun _ => None) (fun _ => None)
    (toy_args protected relay) toy_launch_env (mkFs false None).

Lemma authorities_bound_witness :
  exists endpoints bound, bind_authorities (toy_args true false) = Ok (endpoints, bound) /\ Forall2 endpoint_of (directory_authorities (toy_args true false)) endpoints.
Proof.
  assert (Hok : is_ok (bind_authorities (toy_args true false)) = true) by (vm_compute; reflexivity).
  destruct (bind_authorities (toy_args true false)) as [[endpoints bound]|] eqn:Hb; [|discriminate Hok].
  exists endpoints, bound. split; [reflexivity|]. apply (authorities_bound _ _ _ Hb).
Defined.

(** A launch that gives a client without the open proxy flag. *)
Definition is_client (l : result string Launched) : bool :=
  match l with
  | Ok (RunsGateway config _ _) =>
      negb (gc_relay_mode config) && negb (gc_allow_open_socks5 config) && negb (given (gc_relay_advertise_address config)) && negb (gc_unlisted_bridge config)
  | _ => false
  end.

Lemma toy_launched protected : exists config pool client, (toy_launch protected false).2 = Ok (RunsGateway config pool client) /\
  gc_relay_mode config = false /\ gc_allow_open_socks5 config = false /\ gc_relay_advertise_address config = None /\ gc_unlisted_bridge config = false.
Proof.
  assert (Hc : is_client (toy_launch protected false).2 = true) by (destruct protected; vm_compute; reflexivity).
  destruct (toy_launch protected false).2 as [[]|]; try discriminate Hc. unfold is_client in Hc. reflect_bools. exists config, pool, client. split_and!; try done.
  destruct (gc_relay_advertise_address config); [|done]. match goal with E : given (Some _) = false |- _ => discriminate E end.
Qed.

Lemma launch_safe_witness :
  exists config pool client, (toy_launch true false).2 = Ok (RunsGateway config pool client) /\ Forall (fun e => ae_public_key e ∉ pl_revoked pool) (gc_authority_endpoints config).
Proof.
  destruct (toy_launched true) as (config & pool & client & Hl & _). exists config, pool, client. split; [exact Hl|].
  destruct (launch_safe id (fun _ => None) (fun _ => Some toy_provisioned) (fun _ => None) (fun _ => None) (fun _ => []) (fun _ => None) (fun _ => None)
    (toy_args true false) toy_launch_env (mkFs false None) (toy_launch true false).1 config pool client) as (_ & _ & _ & _ & _ & _ & bound & own & _ & _ & Hpins & _);
    [vm_compute; reflexivity|rewrite <- Hl; apply surjective_pairing|exact Hpins].
Defined.

Lemma launch_runs_witness :
  exists config pool client l, (toy_launch false false).2 = Ok (RunsGateway config pool client) /\ start_gateway config (Ok tt) (fun a => Ok a) = Ok l.
Proof.
  destruct (toy_launched false) as (config & pool & client & Hl & Hr & Ho & Hadv & Hun).
  destruct (launch_runs id (fun _ => None) (fun _ => Some toy_provisioned) (fun _ => None) (fun _ => None) (fun _ => []) (fun _ => None) (fun _ => None)
    (toy_args false false) toy_launch_env (mkFs false None) (toy_launch false false).1 config pool client (fun a => Ok a)) as (l & _ & _ & Hs);
    [vm_compute; reflexivity|rewrite <- Hl; apply surjective_pairing|exact Hr|exact Ho|exact Hadv|exact Hun|]. exists config, pool, client, l. split; [exact Hl|exact Hs].
Defined.

Lemma protected_launch_witness :
  exists config pool c, (toy_launch true false).2 = Ok (RunsGateway config pool (Some c)) /\
    forall network pool' socket, Forall (proxied config) (ha_acts (handle_client (fun _ => []) id (fun _ => None) config network pool' socket)).
Proof.
  destruct (toy_launched true) as (config & pool & client & Hl & Hr & _).
  destruct (protected_launch id (fun _ => None) (fun _ => Some toy_provisioned) (fun _ => None) (fun _ => None) (fun _ => []) (fun _ => None) (fun _ => None) (fun _ => [])
    (toy_args true false) toy_launch_env (mkFs false None) (toy_launch true false).1 config pool client) as (c & bindings & -> & _ & _ & Hacts);
    [vm_compute; reflexivity|reflexivity|rewrite <- Hl; apply surjective_pairing|exact Hr|]. exists config, pool, c. split; [exact Hl|exact Hacts].
Defined.

(** ** Next to [--relay] the protection is gone

    The parser drops the requirement of an argument that clashes with one that is
    there, and [--relay] clashes with both kinds of transports. So a relay that
    is asked for protected entry is launched with neither, and its directory
    client dials the authorities by name. *)
Definition dials_by_name (l : result string Launched) : bool :=
  match l with
  | Ok (RunsGateway config _ (Some c)) =>
      bool_decide (gc_bridge_transports config = []) &&
      existsb (fun d => match d with ByName _ => true | _ => false end)
        (fetch_snapshots (fun _ => None) c (mkFetchEnv (fun _ _ => Err Panics) (fun _ _ => Err Panics) (fun _ => ([], [])))).1
  | _ => false
  end.

Lemma protected_relay_dials_directly :
  clap_accepts (toy_args true true) = true /\ a_protected_entry (toy_args true true) = true /\ dials_by_name (toy_launch true true).2 = true.
Proof. split_and!; vm_compute; reflexivity. Qed.
